(* ===== verification/_CoqProject ===== *)
-Q . S2P
Prelude.v
PyStr.v
Value.v
Errors.v
Effects.v
Dynamic.v
Models.v
Base64.v
Cursor.v
Selectors.v
Canonical.v
Json.v
Pagination.v
Signing.v
Limits.v
Observability.v
Auth.v
Ssrf.v
Contracts.v
Publisher.v
Workers.v
Listing.v
AgentCard.v
JsonRpc.v
SchemaExport.v
FileSystem.v
SpecSync.v
ExportSchemas.v
CatchUp.v
Receiver.v
Footprint.v
Bystander.v
Dispatch.v
Retry.v
RetryPass.v
Handover.v
Lifecycle.v
MemoryEventStore.v
MemorySubscriptionStore.v
MemoryRetryQueue.v
HttpDelivery.v
KeyResolver.v
PublisherApp.v
GrpcBinding.v
Delivery.v
MemoryTransport.v
EndToEnd.v
EndToEndRetry.v
Lease.v
Postgres.v
PostgresRetryQueue.v
PostgresEventStore.v
PostgresAppends.v
PostgresSubscriptionStore.v
Scenario.v
DispatchScenario.v
RetryScenario.v
PostgresScenario.v
SubscriberScenario.v
Quickstart.v
EndToEndScenario.v
EndToEndRetryScenario.v
ProtocolScenario.v
