(* ===== verification/Prelude.v ===== *)
(** * A2A Events: a verification library

    A2A Events is a publish/subscribe extension for agents: a publisher keeps
    per-topic event logs, subscribers hold leased subscriptions with a selector
    and a position per topic, and the publisher signs each event and pushes it
    over a webhook or an A2A message, at least once, with bounded retries and
    dead letters; a subscriber verifies, deduplicates and acknowledges what it
    receives. This library models the Python SDK ([src/src/a2a_events/]) and proves
    what makes it correct. Definitions are executable; end-to-end runs are
    evaluated in the files named [...Scenario].

    ** The parts and the files that model them

    Foundations:
    - [Prelude]: tactics, hint databases, Python dictionaries as association
      lists in insertion order, stable sorting, lists sorted by a key.
    - [PyStr], [Value], [Dynamic]: the Python strings and JSON-like values the
      code uses, and what subscripting, [.get] and [in] do on a value of any type.
    - [Effects]: [outcome] (a value, an exception, or fuel running out), the
      state monad [M] with exceptions, weakest preconditions [wp] over it, the
      clock and the uuid source ([Platform], [Env]).

    Data and algorithms:
    - [Errors] (errors.py), [Models] (models.py), [Cursor] (cursor.py),
      [Selectors] (selectors.py).
    - [Base64], [Json], [Canonical], [Signing] (signing.py): base64url as CPython
      decodes it, its JSON codec, canonical JSON with the ECMAScript number
      format, signatures and key sets. Ed25519 is the class [Crypto] with its law
      [CryptoLaws].
    - [Pagination] (pagination.py), [Limits] (limits.py), [Observability]
      (observability.py), [Auth] (auth.py), [Ssrf] (runtime/ssrf.py). HMAC, URL
      splitting, address parsing and name resolution are the parameters [Hmac]
      and [Net].
    - [AgentCard] (agentcard.py): card parsing under a trust policy, signed cards,
      the resolver.

    The publisher and its backends:
    - [Contracts] (runtime/contracts.py): the records, and the protocols
      [EventStore], [SubscriptionStore], [RetryQueue] as classes of operations,
      each with a class of laws ([EventStoreLaws], ...). The publisher is proved
      against the laws; both families of stores discharge them.
    - [MemoryEventStore], [MemorySubscriptionStore], [MemoryRetryQueue]
      (runtime/memory/): the in-memory backends. Subscriptions live on an explicit
      [Heap], since the code hands out and mutates shared objects.
    - [Postgres], [PostgresEventStore], [PostgresSubscriptionStore],
      [PostgresRetryQueue] (runtime/postgres/): tables as lists of rows, each
      statement a function on them; [PostgresAppends] interleaves the
      transactions of concurrent appends.
    - [Publisher] (runtime/publisher.py and the [run_once] of the workers): the
      publisher over abstract stores. Its state is the record [World]; each
      method is a definition of its name without the leading underscore
      ([ack_cursor] is [ack], [replay_events] is [replay]). What it awaits is the
      class [Async]: the transport, [sleep], the per-subscription lock, and
      [suspend], the point at which an offloaded store call lets other tasks run.
      [Listing] has its two paged methods, [Workers] the timer loops
      (runtime/dispatcher.py, retention.py, retry_worker.py).

    The protocol bindings, over the publisher:
    - [JsonRpc] (methods.py, jsonrpc.py), [PublisherApp] ([create_publisher_app] of
      server.py), [GrpcBinding] (grpc_binding.py), [SchemaExport]
      (schema_export.py).

    The scripts and the example:
    - [FileSystem]: the part of [pathlib] that they use, as a tree of files;
      [SpecSync] (scripts/sync_spec.py), [ExportSchemas]
      (scripts/export_schemas.py), [Quickstart] (examples/quickstart.py, run by
      computation).

    The subscriber's side:
    - [Receiver] (receiver.py), [HttpDelivery] (runtime/http_delivery.py and the
      subscriber app of server.py), [MemoryTransport] (runtime/memory/transport.py,
      client.py), [KeyResolver] ([JwksKeyResolver] of server.py), [Lease] (lease.py).

    What is proved of the parts together:
    - [CatchUp]: one subscription catching up with one topic; [Retry]: queued
      redelivery; [Lifecycle]: leases, deletion, gating.
    - [Footprint]: what a catch-up or a redelivery touches; [Bystander]: what it
      leaves alone; with them [Dispatch] puts the catch-ups of a dispatcher's pass
      together, and [RetryPass] the redeliveries of a retry worker's pass and the
      passes that follow it; [Handover] takes a delivery from the dispatcher to
      the retry queue.
    - [Delivery]: the publisher's [_attempt_send] against the receiver;
      [EndToEnd]: dispatcher, network and subscriber in one world;
      [EndToEndRetry]: the same through the retry queue.
    - [Scenario], [DispatchScenario], [RetryScenario], [PostgresScenario],
      [SubscriberScenario], [EndToEndScenario], [EndToEndRetryScenario],
      [ProtocolScenario]: concrete publishers, subscribers and networks, with runs
      evaluated by computation and the witnesses of the
      theorems about them.

    ** What the theorems show

    - One catch-up ([CatchUp]): if it returns it skipped no live matching event; an
      exception at any point leaves the position behind the work; deliveries are
      in offset order and attributable; the paging loop terminates. They hold
      for every store that satisfies the laws and for every environment that is
      [well_behaved]: at a [suspend], a send or a sleep, others may append,
      compact, redeclare and work on other subscriptions, and the call may raise,
      but they keep this subscription's position and attempts. The
      per-subscription lock ensures that against other dispatches; a client's
      acknowledgement and the retry worker do not take the lock, and are
      excluded while the catch-up runs.
    - Passes, crashes and publishing ([Dispatch], [Workers]): after any pass no
      position runs ahead of the work, and when a pass raises, a subscription
      whose own dispatch in it returned has all it was owed; any number of passes
      that were cut short, and of dispatches that go on after their pass has
      raised, are made good by a pass that returns; [publish] without workers delivers before it returns; the
      worker loops end in exactly the listed ways, and a dispatch worker that is
      told to stop leaves nothing undone.
    - End to end ([EndToEnd], [Delivery], [Receiver], [HttpDelivery],
      [KeyResolver]): what the publisher sends is what the receiver accepts;
      whatever arrives is processed at most once and only if genuine; the answer
      survives HTTP, for handlers whose status codes agree with their answers; keys
      are found after any rotation that reuses no key id. Over a transport that
      [conveys] (HTTP over a network that loses requests and answers and repeats
      messages does, and so does the in-memory transport) a publisher without a
      retry queue settles every event: processed exactly once or dead-lettered,
      and nothing is recorded as delivered that was not processed. With a retry
      queue ([EndToEndRetry]) a delivery that returns is finished or has an item
      queued, and after as many turns of the retry worker as there are attempts
      left, the event has been processed exactly once, or dead-lettered, or had
      aged out when one of the passes ended, or one of the passes came to its
      item and found the subscription not active.
    - Redelivery ([Retry], [RetryPass], [MemoryRetryQueue], [PostgresRetryQueue]): a
      queued item leaves the queue only when its event is settled; a pass attends
      to every item, whatever happens to the others; every item comes to an end
      within its attempts; and workers never share one.
    - The log ([MemoryEventStore], [PostgresEventStore], [PostgresAppends]): [read]
      refines a declarative page, offsets are never reused, also under
      concurrent appends, and compaction is invisible.
    - Lifecycle ([Lifecycle], [Lease], [PostgresSubscriptionStore]): gating by lease
      and grant, renewal on every branch (for stores called in place or offloaded,
      with no other task at work during an offloaded call), a row read back as the subscription that
      was stored; the client renews before its lease runs out and gives up only
      when it has.
    - Bindings ([JsonRpc], [GrpcBinding], [PublisherApp], [SchemaExport]): what
      every request and every outcome of a method is answered with, and which
      exceptions escape; how the three bindings agree and where gRPC tells less
      (no details, and no symbolic code for invalid parameters); messages are
      read back as written, and the published error schema is what the code sends
      and understands.
    - Scripts ([SpecSync], [ExportSchemas]): a spec that was synchronized passes the
      check that it is, and an export writes every schema.
    - Lists ([Pagination], [Listing]): page tokens are decoded or refused, and
      following them visits every lasting item once, as long as the last item of
      each page lasts until the next.
    - Trust ([AgentCard], [Signing], [Canonical], [Base64], [Ssrf], [Auth]):
      resolved endpoints were declared by a trusted card, signatures verify after
      any rotation and in any member order, the SSRF guard (which resolves names
      only if its policy has a resolver), token scope.
    - Admission and data ([Limits], [Selectors], [Cursor], [Errors]): the rate
      bound, selector validation, exactly which cursors the decoder accepts,
      refuses and breaks on.

    ** Conventions and bounds

    - Strings are sequences of code points below 256. The operations used
      (lower, strip, isdigit, repr, UTF-8 encoding) are written out for that
      range. Input outside a modelled range (text beyond it, a parameter of a JSON
      type the method is not declared for) ends in the exception [Unmodelled],
      of which nothing is claimed.
    - Times are integers in microseconds, as [datetime] has them; the token
      bucket and the lease renewer compute with exact rationals where the code has
      floats.
    - Any store may refuse any call with an exception of its own, and the theorems
      allow for it.
    - Cursors hold sixteen digits: laws about positions ask for offsets below
      [max_offset] = 10^16, as the encoding does; [Cursor.cursor_order_limit]
      shows the order fail there.
    - Fuel: [catch_up] takes one unit per page, and [catch_up_terminates] shows that
      [cap - position] units are enough when the topic never holds an offset from
      [cap] on; [Workers.run_forever] and [Lease.run] take one unit per round of a loop that is
      meant not to end: [run_forever_ends] is for every number of rounds, and
      [gives_up_only_at_the_end] shows [remaining / min_sleep] rounds enough once
      renewals fail. The safety theorems hold for every amount of fuel.
    - [depth] is the interpreter's limit on the nesting of JSON text; text beyond
      it raises as CPython's decoder does.
    - [asyncio.gather] runs its tasks one after the other; interleaving inside a
      task is [suspend]. When a task raises, the caller may resume at once with
      that exception ([resumes] decides) or after the tasks that follow; those it
      leaves go on by themselves, as the dispatches between passes that [history]
      and [outage] allow.
    - A request body travels over HTTP as the JSON value it encodes. What httpx,
      the ASGI server and Starlette do between client and route (which headers
      arrive, what becomes of an exception) is the class [HttpStack], with the
      laws [HttpStackLaws].
    - The order in which Postgres finds rows, its collation and its JSONB order of
      members are parameters with laws.

    ** Not modelled

    pydantic's validation and schema derivation, FastAPI, grpc, httpx, psycopg and
    cryptography are libraries: where the code relies on them they are
    parameters with documented laws ([Requests], [ModelSchemas], [Crypto],
    [Hmac], [Net], ...), and the wording of Python's and pydantic's own messages
    is not reproduced. The connection pool is the atomicity of a statement or a
    transaction. The columns and counters nothing reads, the re-exports of
    [__init__.py], the type-checking declarations and the parsing of the scripts'
    command lines have no definitions. *)

From stdpp Require Export prelude fin_maps gmap strings list sorting.
From Stdlib Require Export ZArith Lia.

#[export] Set Default Goal Selector "!".

(** ** Hint databases of the development *)

(** [a2a] holds the resolution hints of the components, [a2a_simp] their
    rewriting lemmas. *)
Create HintDb a2a.
Create Rewrite HintDb a2a_simp.

(** ** Tactics *)

(** Turn a boolean comparison in the hypotheses or the goal into the
    proposition it decides. *)
Ltac bool_to_prop :=
  repeat match goal with
  | H : (_ && _)%bool = true |- _ => apply andb_true_iff in H as [? ?]
  | H : (_ || _)%bool = false |- _ => apply orb_false_iff in H as [? ?]
  | H : negb _ = true |- _ => apply negb_true_iff in H
  | H : negb _ = false |- _ => apply negb_false_iff in H
  | H : (_ <? _)%Z = true |- _ => apply Z.ltb_lt in H
  | H : (_ <? _)%Z = false |- _ => apply Z.ltb_ge in H
  | H : (_ <=? _)%Z = true |- _ => apply Z.leb_le in H
  | H : (_ <=? _)%Z = false |- _ => apply Z.leb_gt in H
  | H : (_ =? _)%Z = true |- _ => apply Z.eqb_eq in H
  | H : (_ =? _)%Z = false |- _ => apply Z.eqb_neq in H
  | H : bool_decide _ = true |- _ => apply bool_decide_eq_true in H
  | H : bool_decide _ = false |- _ => apply bool_decide_eq_false in H
  end.

(** Case analysis on the scrutinee of a [match]/[if] of the goal, keeping
    the equation. *)
Ltac case_goal :=
  match goal with
  | |- context [match ?x with _ => _ end] => destruct x eqn:?
  end.

(** What a prefix of a list leaves out, it leaves out for lack of room. *)
Lemma take_all_or_full {A} n (l : list A) x : x ∈ l → x ∈ take n l ∨ length (take n l) = n.
Proof.
  intros Hx. rewrite length_take. destruct (Nat.le_gt_cases (length l) n).
  - left. by rewrite take_ge.
  - right. lia.
Qed.

(** ** Ordered dictionaries

    A Python [dict] keeps its keys in insertion order; assigning to a key that
    is present keeps its position, a new key goes to the end, and deleting a
    key and inserting it again moves it to the end. *)
Section Dict.
Context {K V : Type} `{EqDecision K}.

Definition dict : Type := list (K * V).
Implicit Types (d : list (K * V)) (k : K) (v : V).

Fixpoint dict_get k d : option V :=
  match d with
  | [] => None
  | (k', v) :: d' => if decide (k = k') then Some v else dict_get k d'
  end.

(** [d[k] = v] *)
Fixpoint dict_set k v d : list (K * V) :=
  match d with
  | [] => [(k, v)]
  | (k', v') :: d' =>
      if decide (k = k') then (k', v) :: d' else (k', v') :: dict_set k v d'
  end.

(** [d.setdefault(k, v)] (the dictionary after the call) *)
Definition dict_setdefault k v d : list (K * V) :=
  match dict_get k d with Some _ => d | None => dict_set k v d end.

(** [d.pop(k, None)] (the dictionary after the call) *)
Fixpoint dict_pop k d : list (K * V) :=
  match d with
  | [] => []
  | (k', v') :: d' => if decide (k = k') then d' else (k', v') :: dict_pop k d'
  end.

Definition dict_keys d : list K := d.*1.
Definition dict_values d : list V := d.*2.

(** Every key occurs once: what a Python dict guarantees. *)
Definition dict_wf d : Prop := NoDup (dict_keys d).

Lemma dict_get_set_eq k v d : dict_get k (dict_set k v d) = Some v.
Proof.
  induction d as [|[k' v'] d IH]; simpl; repeat (case_decide; simpl); congruence.
Qed.

Lemma dict_set_set k v v' d : dict_set k v (dict_set k v' d) = dict_set k v d.
Proof.
  induction d as [|[k2 v2] d IH]; simpl; repeat (case_decide; simpl); congruence.
Qed.

Lemma dict_get_set_ne k k' v d :
  k ≠ k' → dict_get k (dict_set k' v d) = dict_get k d.
Proof.
  intros Hne. induction d as [|[k2 v2] d IH]; simpl;
    repeat (case_decide; simpl); congruence.
Qed.

Lemma dict_get_set k k' v d :
  dict_get k (dict_set k' v d) = if decide (k = k') then Some v else dict_get k d.
Proof.
  case_decide as E; [subst; apply dict_get_set_eq|by apply dict_get_set_ne].
Qed.

Lemma dict_get_elem k v d : dict_get k d = Some v → (k, v) ∈ d.
Proof.
  induction d as [|[k' v'] d IH]; simpl; [done|].
  case_decide; intros; simplify_eq; [left|right; auto].
Qed.

Lemma dict_get_keys k d : k ∈ dict_keys d ↔ is_Some (dict_get k d).
Proof.
  unfold dict_keys. induction d as [|[k' v'] d IH]; simpl.
  - split; [by intros ?%elem_of_nil|by intros [? ?]].
  - rewrite elem_of_cons, IH. case_decide; subst; [|firstorder congruence].
    split; [intros; by eexists|intros; by left].
Qed.

Lemma dict_elem_get k v d : dict_wf d → (k, v) ∈ d → dict_get k d = Some v.
Proof.
  unfold dict_wf, dict_keys. induction d as [|[k' v'] d IH]; simpl.
  - by intros _ ?%elem_of_nil.
  - intros [Hni Hnd]%NoDup_cons [E|E]%elem_of_cons; simplify_eq.
    + by rewrite decide_True.
    + rewrite decide_False; [by apply IH|].
      intros ->. apply Hni. apply (list_elem_of_fmap_2 fst) in E. done.
Qed.

Lemma dict_value_get v d : dict_wf d → v ∈ dict_values d → ∃ k, dict_get k d = Some v.
Proof.
  intros Hwf Hv. apply list_elem_of_fmap in Hv as ([k v'] & -> & Hkv).
  exists k. by apply dict_elem_get.
Qed.

(** The order of the members does not matter to a lookup. *)
Lemma dict_get_perm k d1 d2 : dict_wf d1 → d1 ≡ₚ d2 → dict_get k d1 = dict_get k d2.
Proof.
  intros Hwf Hp. assert (dict_wf d2) as Hwf2.
  { unfold dict_wf, dict_keys in *. by rewrite <- Hp. }
  destruct (dict_get k d1) as [v|] eqn:E1; symmetry.
  - apply dict_elem_get; [done|]. rewrite <- Hp. by apply dict_get_elem.
  - destruct (dict_get k d2) as [v|] eqn:E2; [|done].
    apply dict_get_elem in E2. rewrite <- Hp in E2. apply dict_elem_get in E2; [|done]. congruence.
Qed.

Lemma dict_set_keys k v d :
  dict_keys (dict_set k v d) =
    if decide (k ∈ dict_keys d) then dict_keys d else dict_keys d ++ [k].
Proof.
  unfold dict_keys. induction d as [|[k' v'] d IH]; [done|]. csimpl.
  destruct (decide (k = k')) as [->|Hne]; csimpl.
  - rewrite decide_True; [done|left].
  - rewrite IH. destruct (decide (k ∈ d.*1)) as [E1|E1].
    + rewrite decide_True; [done|by right].
    + rewrite decide_False; [done|]. by intros [|]%elem_of_cons.
Qed.

Lemma dict_set_snoc k v d : k ∉ dict_keys d → dict_set k v d = d ++ [(k, v)].
Proof.
  unfold dict_keys. induction d as [|[k' v'] d IH]; simpl; [done|].
  intros Hk. rewrite decide_False by (intros ->; apply Hk; left).
  rewrite IH; [done|]. intros ?. apply Hk. by right.
Qed.

Lemma dict_set_wf k v d : dict_wf d → dict_wf (dict_set k v d).
Proof.
  unfold dict_wf. rewrite dict_set_keys. case_decide as E; [done|].
  intros Hd. apply NoDup_app. split; [done|]. split.
  - intros x Hx ->%list_elem_of_singleton. done.
  - apply NoDup_singleton.
Qed.

Lemma dict_setdefault_wf k v d : dict_wf d → dict_wf (dict_setdefault k v d).
Proof.
  unfold dict_setdefault. destruct (dict_get k d); [done|apply dict_set_wf].
Qed.

Lemma dict_get_pop_ne k k' d :
  k ≠ k' → dict_get k (dict_pop k' d) = dict_get k d.
Proof.
  intros Hne. induction d as [|[k2 v2] d IH]; simpl;
    repeat (case_decide; simpl); congruence.
Qed.

Lemma dict_get_map (f : K → V → V) k d :
  dict_get k ((λ kv, (kv.1, f kv.1 kv.2)) <$> d) = f k <$> dict_get k d.
Proof.
  induction d as [|[k' v] d IH]; simpl; [done|]. by destruct (decide (k = k')) as [->|].
Qed.

Lemma dict_keys_map (f : K → V → V) d :
  dict_keys ((λ kv, (kv.1, f kv.1 kv.2)) <$> d) = dict_keys d.
Proof. unfold dict_keys. rewrite <- list_fmap_compose. by apply list_fmap_ext. Qed.

Lemma dict_pop_elem k x d : x ∈ dict_pop k d → x ∈ d.
Proof.
  induction d as [|[k' v'] d IH]; simpl; [done|].
  case_decide; [by right|]. intros [->|E]%elem_of_cons; [left|right; auto].
Qed.

Lemma dict_pop_wf k d : dict_wf d → dict_wf (dict_pop k d).
Proof.
  unfold dict_wf, dict_keys. induction d as [|[k' v'] d IH]; simpl; [done|].
  intros [Hni Hnd]%NoDup_cons. case_decide; simpl; [done|].
  apply NoDup_cons; split; [|auto].
  intros ([k2 v2] & -> & E)%list_elem_of_fmap. apply Hni.
  apply dict_pop_elem in E. by apply (list_elem_of_fmap_2 fst) in E.
Qed.

Lemma dict_get_pop_eq k d : dict_wf d → dict_get k (dict_pop k d) = None.
Proof.
  unfold dict_wf, dict_keys. induction d as [|[k' v'] d IH]; simpl; [done|].
  intros [Hni Hnd]%NoDup_cons. case_decide as E; simpl.
  - subst. destruct (dict_get k' d) eqn:E; [|done].
    exfalso; apply Hni. apply dict_get_elem in E.
    by apply (list_elem_of_fmap_2 fst) in E.
  - rewrite decide_False by done. auto.
Qed.
End Dict.

#[global] Arguments dict : clear implicits.
#[export] Hint Resolve dict_set_wf dict_setdefault_wf dict_pop_wf : a2a.

(** ** Lists sorted by an integer key *)
Section SortedBy.
Context {A : Type} (key : A → Z).
Implicit Types (l : list A) (x : A).

(** Strictly increasing keys. *)
Definition sorted_by l : Prop := StronglySorted (λ x y, (key x < key y)%Z) l.

Lemma sorted_by_filter (P : A → Prop) `{∀ x, Decision (P x)} l :
  sorted_by l → sorted_by (filter P l).
Proof.
  induction 1 as [|x l Hl IH Hx]; [constructor|].
  rewrite filter_cons. case_decide; [|done]. constructor; [done|].
  apply Forall_forall. intros y [_ Hy]%list_elem_of_filter.
  rewrite Forall_forall in Hx. auto.
Qed.

Lemma sorted_by_app l1 l2 :
  sorted_by (l1 ++ l2) ↔
  sorted_by l1 ∧ sorted_by l2 ∧ (∀ x y, x ∈ l1 → y ∈ l2 → (key x < key y)%Z).
Proof.
  unfold sorted_by. induction l1 as [|x l1 IH]; simpl.
  - split; [|naive_solver]. intros. split_and!; [constructor|done|].
    intros ?? []%elem_of_nil.
  - split.
    + intros [Hs Hx]%StronglySorted_inv. apply IH in Hs as (?&?&?).
      apply Forall_app in Hx as [? Hx]. rewrite Forall_forall in Hx.
      split_and!; [by constructor|done|].
      intros y z [->|]%elem_of_cons; auto.
    + intros (Hs&?&Hlt). apply StronglySorted_inv in Hs as [? Hx].
      constructor.
      * apply IH. split_and!; [done..|]. intros; apply Hlt; [by right|done].
      * apply Forall_app. split; [done|]. apply Forall_forall.
        intros; apply Hlt; [left|done].
Qed.

Lemma sorted_by_take n l : sorted_by l → sorted_by (take n l).
Proof.
  intros H. rewrite <- (take_drop n l) in H. by apply sorted_by_app in H as (?&_).
Qed.

Lemma sorted_by_snoc l x :
  sorted_by l → Forall (λ y, (key y < key x)%Z) l → sorted_by (l ++ [x]).
Proof.
  intros Hl Hx. apply sorted_by_app. split_and!; [done|repeat constructor|].
  rewrite Forall_forall in Hx. intros y z Hy ->%list_elem_of_singleton. auto.
Qed.

(** In a list sorted by key, elements with the same key are equal. *)
(** There is one way to sort a list by strictly increasing keys. *)
Lemma sorted_by_perm_eq l1 l2 : sorted_by l1 → sorted_by l2 → l1 ≡ₚ l2 → l1 = l2.
Proof.
  intros H1 H2 Hperm. apply (StronglySorted_unique_strong (λ x y, (key x < key y)%Z)); [|done..].
  intros x y _ _. lia.
Qed.

Lemma sorted_by_inj l x y :
  sorted_by l → x ∈ l → y ∈ l → key x = key y → x = y.
Proof.
  induction 1 as [|z l Hl IH Hz]; [by intros ?%elem_of_nil|].
  rewrite Forall_forall in Hz.
  intros [->|Hx]%elem_of_cons [->|Hy]%elem_of_cons E; auto.
  - specialize (Hz _ Hy). lia.
  - specialize (Hz _ Hx). lia.
Qed.

(** Filtering by a lower bound and taking a prefix misses nothing below the
    last element taken. *)
Lemma sorted_by_take_complete n l x y :
  sorted_by l → x ∈ l → y ∈ take n l → (key x ≤ key y)%Z → x ∈ take n l.
Proof.
  intros Hs Hx Hy Hle.
  rewrite <- (take_drop n l) in Hs, Hx.
  apply sorted_by_app in Hs as (_&_&Hlt).
  apply elem_of_app in Hx as [?|Hx]; [done|].
  specialize (Hlt y x Hy Hx). lia.
Qed.
End SortedBy.

#[export] Hint Resolve sorted_by_filter sorted_by_take : a2a.

(** ** Lists and options *)

Lemma last_elem_of {A} (l : list A) x : last l = Some x → x ∈ l.
Proof. intros H. apply last_Some in H as [l' ->]. set_solver. Qed.

Lemma head_filter_elem {A} (P : A → Prop) `{∀ x, Decision (P x)} (l : list A) x :
  head (filter P l) = Some x → x ∈ l ∧ P x.
Proof.
  intros E. assert (x ∈ filter P l) as Hx.
  { destruct (filter P l); simplify_eq/=. left. }
  by apply list_elem_of_filter in Hx as [? ?].
Qed.

Lemma filter_none {A} (P : A → Prop) `{∀ x, Decision (P x)} (l : list A) :
  Forall (λ x, ¬ P x) l → filter P l = [].
Proof. induction 1; [done|]. by rewrite filter_cons_False. Qed.

Lemma filter_all {A} (P : A → Prop) `{∀ x, Decision (P x)} (l : list A) :
  Forall P l → filter P l = l.
Proof. induction 1 as [|x l ? ? IH]; [done|]. by rewrite filter_cons_True, IH. Qed.

Lemma find_app {A} (f : A → bool) l1 l2 :
  List.find f (l1 ++ l2) = match List.find f l1 with Some x => Some x | None => List.find f l2 end.
Proof. induction l1 as [|x l1 IH]; [done|]. simpl. by destruct (f x). Qed.

Lemma list_filter_bool {A} (f : A → bool) (P : A → Prop) `{∀ x, Decision (P x)} (l : list A) :
  (∀ x, f x = true ↔ P x) → List.filter f l = filter P l.
Proof.
  intros Hf. induction l as [|x l IH]; [done|]. rewrite filter_cons. simpl.
  rewrite IH. case_decide as Hp; [by rewrite (proj2 (Hf x) Hp)|].
  destruct (f x) eqn:E; [|done]. exfalso. by apply Hp, Hf.
Qed.

(** The same with a test that decides [P] on the elements only. *)
Lemma list_filter_bool_in {A} (f : A → bool) (P : A → Prop) `{∀ x, Decision (P x)} (l : list A) :
  (∀ x, x ∈ l → f x = true ↔ P x) → List.filter f l = filter P l.
Proof.
  induction l as [|x l IH]; intros Hf; [done|]. rewrite filter_cons. simpl.
  rewrite IH by (intros; apply Hf; by right). pose proof (Hf x ltac:(left)) as Hx.
  case_decide; destruct (f x); naive_solver.
Qed.

Lemma list_filter_andb {A} (f g : A → bool) (l : list A) :
  List.filter (λ x, f x && g x) l = List.filter g (List.filter f l).
Proof.
  induction l as [|x l IH]; [done|]. simpl. destruct (f x); simpl; [|done].
  destruct (g x); by rewrite IH.
Qed.

Section Slices.
#[local] Open Scope Z_scope.

(** [l[start:stop]] with [0 <= start]; a negative [stop] counts from the end. *)
Definition py_slice {A} (start stop : Z) (l : list A) : list A :=
  let n := Z.of_nat (length l) in
  let stop := if stop <? 0 then Z.max 0 (stop + n) else stop in
  drop (Z.to_nat start) (take (Z.to_nat stop) l).

Lemma py_slice_drop {B} (start size : nat) (l : list B) :
  py_slice (Z.of_nat start) (Z.of_nat start + Z.of_nat size) l = take size (drop start l).
Proof.
  unfold py_slice. rewrite (proj2 (Z.ltb_ge _ _)) by lia.
  replace (Z.to_nat (Z.of_nat start + Z.of_nat size)) with (start + size)%nat by lia.
  rewrite Nat2Z.id. by rewrite <- take_drop_commute.
Qed.

Lemma py_slice_take {B} (n : Z) (l : list B) : 0 <= n -> py_slice 0 n l = take (Z.to_nat n) l.
Proof. intros Hn. unfold py_slice. by rewrite (proj2 (Z.ltb_ge _ _)). Qed.
End Slices.

(** First element of a list satisfying a boolean test (a Python [next] over a
    generator, or a loop that returns at the first hit). *)
Fixpoint list_first {A} (f : A → bool) (l : list A) : option A :=
  match l with
  | [] => None
  | x :: l' => if f x then Some x else list_first f l'
  end.

Lemma list_first_Some {A} (f : A → bool) l x :
  list_first f l = Some x → x ∈ l ∧ f x = true.
Proof.
  induction l as [|y l IH]; simpl; [done|].
  destruct (f y) eqn:E; intros; simplify_eq; [split; [left|done]|].
  destruct IH; [done|]. split; [by right|done].
Qed.

Lemma list_first_None {A} (f : A → bool) l :
  list_first f l = None ↔ Forall (λ x, f x = false) l.
Proof.
  induction l as [|y l IH]; simpl; [split; [constructor|done]|].
  rewrite Forall_cons. destruct (f y); naive_solver.
Qed.

(** ** Stable insertion sort

    Python's [sorted(l, key=k)] is stable; [leb x y] is [k(x) <= k(y)]. *)
Section Sort.
Context {A : Type} (leb : A → A → bool).

Fixpoint insert_by (x : A) (l : list A) : list A :=
  match l with
  | [] => [x]
  | y :: l' => if leb x y then x :: l else y :: insert_by x l'
  end.

Definition sort_by (l : list A) : list A := foldr insert_by [] l.

Lemma insert_by_perm x l : insert_by x l ≡ₚ x :: l.
Proof.
  induction l as [|y l IH]; simpl; [done|].
  destruct (leb x y); [done|]. rewrite IH. apply Permutation_swap.
Qed.

Lemma sort_by_perm l : sort_by l ≡ₚ l.
Proof.
  induction l as [|x l IH]; simpl; [done|]. by rewrite insert_by_perm, IH.
Qed.

Definition leb_sorted (l : list A) : Prop := StronglySorted (λ x y, leb x y = true) l.

Hypothesis leb_total : ∀ x y, leb x y = false → leb y x = true.
Hypothesis leb_trans : ∀ x y z, leb x y = true → leb y z = true → leb x z = true.

Lemma insert_by_sorted x l : leb_sorted l → leb_sorted (insert_by x l).
Proof.
  unfold leb_sorted. induction 1 as [|y l Hl IH Hy]; simpl; [repeat constructor|].
  destruct (leb x y) eqn:E.
  - constructor; [by constructor|]. constructor; [done|].
    eapply Forall_impl; [done|]. eauto.
  - constructor; [done|]. rewrite insert_by_perm. constructor; auto.
Qed.

Lemma sort_by_sorted l : leb_sorted (sort_by l).
Proof. induction l; simpl; [constructor|by apply insert_by_sorted]. Qed.

(** With pairwise different keys the order of the input does not matter. *)
Lemma sort_by_perm_eq l1 l2 :
  l1 ≡ₚ l2 →
  (∀ x y, x ∈ l1 → y ∈ l1 → leb x y = true → leb y x = true → x = y) →
  sort_by l1 = sort_by l2.
Proof.
  intros Hperm Hanti.
  apply (StronglySorted_unique_strong (λ x y, leb x y = true)).
  - intros x y Hx Hy. apply Hanti.
    + by rewrite <- sort_by_perm.
    + by rewrite Hperm, <- sort_by_perm.
  - apply sort_by_sorted.
  - apply sort_by_sorted.
  - by rewrite !sort_by_perm.
Qed.
End Sort.

Lemma sort_by_fmap {A B} (leb : B → B → bool) (f : A → B) (l : list A) :
  sort_by leb (f <$> l) = f <$> sort_by (λ x y, leb (f x) (f y)) l.
Proof.
  induction l as [|x l IH]; [done|]. cbn [fmap list_fmap sort_by foldr] in *.
  fold (sort_by leb (f <$> l)). rewrite IH. fold (sort_by (λ x y, leb (f x) (f y)) l).
  generalize (sort_by (λ x y, leb (f x) (f y)) l) as k. induction k as [|y k IHk]; [done|].
  cbn [fmap list_fmap insert_by]. destruct (leb (f x) (f y)); [done|]. cbn. by rewrite <- IHk.
Qed.
