(* ===== verification/PyStr.v ===== *)
(** * Python strings and integers-as-text

    The part of Python's [str] and [int] that the source uses. A string is a
    [String.string] whose characters are read as the code points 0-255 (the
    Latin-1 fragment of Unicode); on that fragment [str.lower], [str.isdigit],
    [str.strip], [str.split], [str.partition], [str.rpartition], [int(...)],
    [str(n)], [repr] and the [<] on strings are modelled exactly as Python
    behaves, including the digits that are not decimal digits (superscripts). *)

From S2P Require Import Prelude.
Open Scope Z_scope.

Abbreviation ascii := Ascii.ascii.

(** ** Characters *)

Definition code (c : ascii) : Z := Z.of_N (Ascii.N_of_ascii c).
Definition chr (n : Z) : ascii := Ascii.ascii_of_N (Z.to_N n).

Lemma code_chr n : 0 ≤ n < 256 → code (chr n) = n.
Proof.
  intros. unfold code, chr. rewrite Ascii.N_ascii_embedding; lia.
Qed.

Lemma chr_code c : chr (code c) = c.
Proof.
  unfold code, chr. rewrite N2Z.id. apply Ascii.ascii_N_embedding.
Qed.

Lemma code_range c : 0 ≤ code c < 256.
Proof.
  unfold code. destruct c as [[] [] [] [] [] [] [] []]; vm_compute; intuition discriminate.
Qed.

Lemma code_inj c d : code c = code d → c = d.
Proof. intros E. by rewrite <- (chr_code c), E, chr_code. Qed.

Definition colon : ascii := chr 58.
Definition dot : ascii := chr 46.
Definition comma : ascii := chr 44.
Definition space : ascii := chr 32.

(** Decimal digits: what [int()] accepts. *)
Definition is_decimal (c : ascii) : bool := (48 <=? code c) && (code c <=? 57).

(** [str.isdigit] on one character: decimal digits and the superscripts
    U+00B2, U+00B3 and U+00B9. *)
Definition is_digit (c : ascii) : bool :=
  is_decimal c || (code c =? 178) || (code c =? 179) || (code c =? 185).

(** [str.lower] on one character: A-Z and U+00C0-U+00DE without U+00D7. *)
Definition lower_char (c : ascii) : ascii :=
  let n := code c in
  if ((65 <=? n) && (n <=? 90)) ||
     ((192 <=? n) && (n <=? 222) && negb (n =? 215))
  then chr (n + 32) else c.

(** [str.isspace] on one character. *)
Definition is_space (c : ascii) : bool :=
  let n := code c in
  ((9 <=? n) && (n <=? 13)) || ((28 <=? n) && (n <=? 32)) || (n =? 133) || (n =? 160).

(** ** Strings as lists of characters *)

Fixpoint str_forall (f : ascii → bool) (s : string) : bool :=
  match s with
  | EmptyString => true
  | String c s' => f c && str_forall f s'
  end.

Fixpoint str_map (f : ascii → ascii) (s : string) : string :=
  match s with
  | EmptyString => EmptyString
  | String c s' => String (f c) (str_map f s')
  end.

(** [s.isdigit()]: non-empty, and every character a digit. *)
Definition isdigit (s : string) : bool :=
  negb (bool_decide (s = EmptyString)) && str_forall is_digit s.

(** [s.lower()] *)
Definition lower (s : string) : string := str_map lower_char s.

Fixpoint lstrip (s : string) : string :=
  match s with
  | EmptyString => EmptyString
  | String c s' => if is_space c then lstrip s' else s
  end.

Fixpoint str_rev (acc s : string) : string :=
  match s with
  | EmptyString => acc
  | String c s' => str_rev (String c acc) s'
  end.

(** [s.strip()] *)
Definition strip (s : string) : string :=
  str_rev EmptyString (lstrip (str_rev EmptyString (lstrip s))).

(** [s.split(c)] for a one-character separator. *)
Fixpoint split_on (c : ascii) (s : string) : list string :=
  match s with
  | EmptyString => [EmptyString]
  | String a s' =>
      if Ascii.eqb a c then EmptyString :: split_on c s'
      else match split_on c s' with
           | [] => [String a EmptyString]
           | h :: t => String a h :: t
           end
  end.

(** The text before and after the first occurrence of [c]. *)
Fixpoint split_first (c : ascii) (s : string) : option (string * string) :=
  match s with
  | EmptyString => None
  | String a s' =>
      if Ascii.eqb a c then Some (EmptyString, s')
      else match split_first c s' with
           | Some (x, y) => Some (String a x, y)
           | None => None
           end
  end.

(** [s.partition(c)] without its middle component. *)
Definition partition_on (c : ascii) (s : string) : string * string :=
  match split_first c s with Some p => p | None => (s, EmptyString) end.

(** The text before and after the last occurrence of [c]. *)
Fixpoint split_last (c : ascii) (s : string) : option (string * string) :=
  match s with
  | EmptyString => None
  | String a s' =>
      match split_last c s' with
      | Some (x, y) => Some (String a x, y)
      | None => if Ascii.eqb a c then Some (EmptyString, s') else None
      end
  end.

(** [s.rpartition(c)] without its middle component. *)
Definition rpartition_on (c : ascii) (s : string) : string * string :=
  match split_last c s with Some p => p | None => (EmptyString, s) end.

(** [needle in hay] *)
Fixpoint str_in (needle hay : string) : bool :=
  String.prefix needle hay ||
  match hay with
  | EmptyString => false
  | String _ hay' => str_in needle hay'
  end.

(** [sep.join(l)] *)
Fixpoint str_join (sep : string) (l : list string) : string :=
  match l with
  | [] => EmptyString
  | [x] => x
  | x :: l' => x +:+ sep +:+ str_join sep l'
  end.

(** [a < b] on strings: lexicographic on code points. *)
Definition str_ltb (a b : string) : bool := String.ltb a b.

(** ** Integers as text *)

(** [sys.get_int_max_str_digits()]: [int()] and [str()] refuse longer texts. *)
Definition max_str_digits : Z := 4300.

(** Value of a digit text, most significant digit first. *)
Fixpoint digits_value (acc : Z) (s : string) : Z :=
  match s with
  | EmptyString => acc
  | String c s' => digits_value (acc * 10 + (code c - 48)) s'
  end.

(** [int(s)] for a text that passed [s.isdigit()]: [None] stands for the
    [ValueError] that [int] raises on a digit that is not decimal, and on a
    text longer than the interpreter's limit. *)
Definition int_of_digits (s : string) : option Z :=
  if str_forall is_decimal s && (Z.of_nat (String.length s) <=? max_str_digits)
  then Some (digits_value 0 s) else None.

(** The [w] low decimal digits of [n], most significant first. *)
Fixpoint fixed_digits (w : nat) (n : Z) : string :=
  match w with
  | O => EmptyString
  | S w' => String (chr (48 + (n / 10 ^ Z.of_nat w') mod 10)) (fixed_digits w' n)
  end.

(** Number of decimal digits of [n >= 0]. *)
Fixpoint num_digits_fuel (fuel : nat) (n : Z) : nat :=
  match fuel with
  | O => 1
  | S f => if n <? 10 then 1 else S (num_digits_fuel f (n / 10))
  end.
Definition num_digits (n : Z) : nat := num_digits_fuel (Z.to_nat (Z.log2 n + 1)) n.

(** [f"{n:0<w>d}"] for [n >= 0]. *)
Definition zero_padded (w : nat) (n : Z) : string :=
  fixed_digits (Nat.max w (num_digits n)) n.

(** [str(n)] *)
Definition str_of_int (n : Z) : string :=
  if n <? 0 then "-" +:+ zero_padded 1 (- n) else zero_padded 1 n.

(** ** [repr] of a string *)

Definition hex_digit (n : Z) : ascii := chr (if n <? 10 then 48 + n else 87 + n).

(** Characters [repr] shows as they are. *)
Definition is_printable (c : ascii) : bool :=
  let n := code c in
  ((32 <=? n) && (n <? 127)) || ((161 <=? n) && negb (n =? 173)).

Definition repr_char (quote c : ascii) : string :=
  let n := code c in
  if Ascii.eqb c quote || (n =? 92) then String (chr 92) (String c EmptyString)
  else if n =? 10 then String (chr 92) "n"
  else if n =? 13 then String (chr 92) "r"
  else if n =? 9 then String (chr 92) "t"
  else if is_printable c then String c EmptyString
  else String (chr 92) (String (chr 120) (String (hex_digit (n / 16))
         (String (hex_digit (n mod 16)) EmptyString))).

Fixpoint str_concat_map (f : ascii → string) (s : string) : string :=
  match s with
  | EmptyString => EmptyString
  | String c s' => f c +:+ str_concat_map f s'
  end.

Fixpoint has_char (c : ascii) (s : string) : bool :=
  match s with
  | EmptyString => false
  | String a s' => Ascii.eqb a c || has_char c s'
  end.

(** [repr(s)]: single quotes unless the text has a single and no double one. *)
Definition repr (s : string) : string :=
  let sq := chr 39 in let dq := chr 34 in
  let quote := if has_char sq s && negb (has_char dq s) then dq else sq in
  String quote (str_concat_map (repr_char quote) s +:+ String quote EmptyString).

Example lower_latin1 :
  lower (String (chr 65) (String (chr 215) (String (chr 201) EmptyString))) =
  String (chr 97) (String (chr 215) (String (chr 233) EmptyString)).
Proof. reflexivity. Qed.
Example split_on_dots : split_on dot "data.skills.tags" = ["data"; "skills"; "tags"]%string.
Proof. reflexivity. Qed.
Example rpartition_colon : rpartition_on colon "a:b:07" = ("a:b", "07")%string.
Proof. reflexivity. Qed.
Example str_of_int_neg : str_of_int (-1205) = "-1205"%string.
Proof. reflexivity. Qed.
Example strip_both : strip "  ab c " = "ab c"%string.
Proof. reflexivity. Qed.

(** ** Lemmas: concatenation *)

Lemma append_cons c s t : String c s +:+ t = String c (s +:+ t).
Proof. done. Qed.

Lemma append_empty s : EmptyString +:+ s = s.
Proof. done. Qed.

Lemma append_assoc s t u : (s +:+ t) +:+ u = s +:+ (t +:+ u).
Proof. induction s as [|c s IH]; [done|]. by rewrite !append_cons, IH. Qed.

Lemma append_nil_r s : s +:+ EmptyString = s.
Proof. induction s as [|c s IH]; [done|]. by rewrite append_cons, IH. Qed.

Lemma append_length s t : (String.length (s +:+ t) = String.length s + String.length t)%nat.
Proof. induction s as [|c s IH]; [done|]. rewrite append_cons. simpl. by rewrite IH. Qed.

Lemma str_forall_app (f : ascii → bool) s t :
  str_forall f (s +:+ t) = str_forall f s && str_forall f t.
Proof. induction s as [|c s IH]; [done|]. rewrite append_cons. simpl. by rewrite IH, andb_assoc. Qed.

(** ** Lemmas: splitting *)

Lemma split_last_none c s : has_char c s = false → split_last c s = None.
Proof.
  induction s as [|a s IH]; simpl; [done|].
  intros [Ha Hs]%orb_false_iff. by rewrite IH, Ha.
Qed.

Lemma split_last_app c t s :
  has_char c s = false → split_last c (t +:+ String c s) = Some (t, s).
Proof.
  intros Hs. induction t as [|a t IH]; simpl.
  - by rewrite split_last_none, Ascii.eqb_refl.
  - by rewrite IH.
Qed.

Lemma rpartition_app c t s :
  has_char c s = false → rpartition_on c (t +:+ String c s) = (t, s).
Proof. intros. unfold rpartition_on. by rewrite split_last_app. Qed.

Lemma split_last_spec c s t d :
  split_last c s = Some (t, d) → s = t +:+ String c d ∧ has_char c d = false.
Proof.
  revert t. induction s as [|a s IH]; simpl; intros t; [done|].
  destruct (split_last c s) as [[x y]|] eqn:E.
  - intros; simplify_eq. destruct (IH x) as [-> ?]; done.
  - destruct (Ascii.eqb_spec a c) as [->|]; intros; simplify_eq.
    split; [done|]. clear IH. induction d as [|b d IH]; [done|]. simpl in *.
    destruct (split_last c d) as [[]|]; [done|].
    destruct (Ascii.eqb b c); [done|]. by apply IH.
Qed.

(** ** Lemmas: decimal texts *)

Lemma code_digit d : 0 ≤ d < 10 → code (chr (48 + d)) = 48 + d.
Proof. intros. apply code_chr. lia. Qed.

Lemma digit_bound n w : 0 ≤ (n / 10 ^ w) mod 10 < 10.
Proof. apply Z.mod_pos_bound; lia. Qed.

Lemma fixed_digits_decimal w n : str_forall is_decimal (fixed_digits w n) = true.
Proof.
  induction w as [|w IH]; [done|]. cbn [fixed_digits str_forall].
  rewrite IH, andb_true_r. unfold is_decimal.
  pose proof (digit_bound n (Z.of_nat w)). rewrite code_digit by done.
  apply andb_true_intro; split; apply Z.leb_le; lia.
Qed.

Lemma length_fixed_digits w n : String.length (fixed_digits w n) = w.
Proof. induction w as [|w IH]; [done|]. cbn [fixed_digits String.length]. by rewrite IH. Qed.

Lemma mod_pow10_succ n w :
  n mod 10 ^ Z.of_nat (S w) =
  (n / 10 ^ Z.of_nat w) mod 10 * 10 ^ Z.of_nat w + n mod 10 ^ Z.of_nat w.
Proof.
  rewrite Nat2Z.inj_succ, Z.pow_succ_r by lia.
  rewrite (Z.mul_comm 10), Z.rem_mul_r by lia. lia.
Qed.

Lemma digits_value_fixed acc w n :
  digits_value acc (fixed_digits w n) = acc * 10 ^ Z.of_nat w + n mod 10 ^ Z.of_nat w.
Proof.
  revert acc. induction w as [|w IH]; intros acc.
  - cbn [fixed_digits digits_value]. change (10 ^ Z.of_nat 0) with 1.
    rewrite Z.mod_1_r. lia.
  - cbn [fixed_digits digits_value]. rewrite IH.
    pose proof (digit_bound n (Z.of_nat w)).
    rewrite code_digit, mod_pow10_succ by done.
    rewrite Nat2Z.inj_succ, Z.pow_succ_r by lia. nia.
Qed.

Lemma num_digits_fuel_pos f n : (1 ≤ num_digits_fuel f n)%nat.
Proof. destruct f; simpl; [lia|]. destruct (n <? 10); lia. Qed.

Lemma num_digits_fuel_bound f n :
  0 ≤ n → n < 10 * 2 ^ Z.of_nat f → n < 10 ^ Z.of_nat (num_digits_fuel f n).
Proof.
  revert n. induction f as [|f IH]; intros n Hn Hf; cbn [num_digits_fuel].
  - change (2 ^ Z.of_nat 0) with 1 in Hf. change (10 ^ Z.of_nat 1) with 10. lia.
  - destruct (Z.ltb_spec n 10); [change (10 ^ Z.of_nat 1) with 10; lia|].
    rewrite Nat2Z.inj_succ, Z.pow_succ_r in * by lia.
    assert (n / 10 < 10 ^ Z.of_nat (num_digits_fuel f (n / 10))).
    { apply IH; [apply Z.div_pos; lia|]. apply Z.div_lt_upper_bound; lia. }
    pose proof (Z.div_mod n 10). pose proof (Z.mod_pos_bound n 10). lia.
Qed.

Lemma num_digits_bound n : 0 ≤ n → n < 10 ^ Z.of_nat (num_digits n).
Proof.
  intros Hn. apply num_digits_fuel_bound; [done|].
  destruct (Z.eq_dec n 0) as [->|]; [vm_compute; done|].
  pose proof (Z.log2_spec n) as Hlog. pose proof (Z.log2_nonneg n).
  rewrite Z2Nat.id by lia. rewrite Z.add_1_r. lia.
Qed.

Lemma num_digits_fuel_le f n k :
  n < 10 ^ Z.of_nat k → (1 ≤ k)%nat → (num_digits_fuel f n ≤ k)%nat.
Proof.
  revert n k. induction f as [|f IH]; intros n k Hn Hk; cbn [num_digits_fuel]; [done|].
  destruct (Z.ltb_spec n 10); [done|].
  destruct k as [|k]; [lia|]. rewrite Nat2Z.inj_succ, Z.pow_succ_r in Hn by lia.
  apply le_n_S. apply IH; [apply Z.div_lt_upper_bound; lia|].
  destruct k; [simpl in Hn; lia|lia].
Qed.

Lemma num_digits_le n k :
  n < 10 ^ Z.of_nat k → (1 ≤ k)%nat → (num_digits n ≤ k)%nat.
Proof. apply num_digits_fuel_le. Qed.

Lemma num_digits_lower n w : 0 < n → num_digits n = S w → 10 ^ Z.of_nat w ≤ n.
Proof.
  intros Hn E. destruct w as [|w]; [simpl; lia|].
  destruct (Z.le_gt_cases (10 ^ Z.of_nat (S w)) n) as [|Hlt]; [done|].
  apply num_digits_le in Hlt; lia.
Qed.

(** [int(f"{n:0wd}") = n], up to the interpreter's limit. *)
Lemma int_of_zero_padded w n :
  0 ≤ n → n < 10 ^ max_str_digits → Z.of_nat w ≤ max_str_digits →
  int_of_digits (zero_padded w n) = Some n.
Proof.
  intros Hn Hlim Hw. unfold int_of_digits, zero_padded.
  rewrite fixed_digits_decimal, length_fixed_digits.
  assert (num_digits n ≤ 4300)%nat by (apply num_digits_le; [done|lia]).
  rewrite (proj2 (Z.leb_le _ _)) by (unfold max_str_digits in *; lia). simpl.
  f_equal. rewrite digits_value_fixed, Z.mod_small; [lia|].
  split; [done|]. eapply Z.lt_le_trans; [by apply num_digits_bound|].
  apply Z.pow_le_mono_r; lia.
Qed.

Lemma is_decimal_digit c : is_decimal c = true → is_digit c = true.
Proof. unfold is_digit. by intros ->. Qed.

Lemma str_forall_impl (f g : ascii → bool) s :
  (∀ c, f c = true → g c = true) → str_forall f s = true → str_forall g s = true.
Proof.
  intros Hfg. induction s as [|c s IH]; simpl; [done|].
  intros [Hc Hs]%andb_true_iff. rewrite Hfg by done. auto.
Qed.

Lemma zero_padded_nonempty w n : zero_padded w n ≠ EmptyString.
Proof.
  unfold zero_padded. pose proof (num_digits_fuel_pos (Z.to_nat (Z.log2 n + 1)) n).
  fold (num_digits n) in *. destruct (Nat.max w (num_digits n)) eqn:E; [lia|done].
Qed.

Lemma isdigit_zero_padded w n : isdigit (zero_padded w n) = true.
Proof.
  unfold isdigit. rewrite bool_decide_false by apply zero_padded_nonempty. simpl.
  eapply str_forall_impl; [apply is_decimal_digit|apply fixed_digits_decimal].
Qed.

Lemma has_char_decimal c s :
  is_decimal c = false → str_forall is_decimal s = true → has_char c s = false.
Proof.
  intros Hc. induction s as [|a s IH]; simpl; [done|].
  intros [Ha Hs]%andb_true_iff. rewrite IH, orb_false_r by done.
  destruct (Ascii.eqb_spec a c); congruence.
Qed.

(** ** Lemmas: order *)

Lemma compare_chr a b :
  0 ≤ a < 256 → 0 ≤ b < 256 → Ascii.compare (chr a) (chr b) = (a ?= b).
Proof.
  intros Ha Hb. unfold Ascii.compare, chr.
  rewrite !Ascii.N_ascii_embedding by lia. rewrite Z2N.inj_compare by lia. done.
Qed.

Lemma compare_app_l a x y : String.compare (a +:+ x) (a +:+ y) = String.compare x y.
Proof.
  induction a as [|c a IH]; simpl; [done|].
  unfold Ascii.compare. by rewrite N.compare_refl.
Qed.

Lemma compare_fixed_digits w n m :
  String.compare (fixed_digits w n) (fixed_digits w m) =
  (n mod 10 ^ Z.of_nat w ?= m mod 10 ^ Z.of_nat w).
Proof.
  induction w as [|w IH].
  - cbn [fixed_digits]. change (10 ^ Z.of_nat 0) with 1. by rewrite !Z.mod_1_r.
  - cbn [fixed_digits String.compare].
    pose proof (digit_bound n (Z.of_nat w)) as Hn.
    pose proof (digit_bound m (Z.of_nat w)) as Hm.
    rewrite compare_chr, IH, !mod_pow10_succ by lia.
    set (P := 10 ^ Z.of_nat w) in *. assert (0 < P) by (unfold P; apply Z.pow_pos_nonneg; lia).
    pose proof (Z.mod_pos_bound n P). pose proof (Z.mod_pos_bound m P).
    set (dn := (n / P) mod 10) in *. set (dm := (m / P) mod 10) in *.
    destruct (Z.compare_spec (48 + dn) (48 + dm)) as [E|E|E].
    + replace dm with dn by lia. by rewrite Z.add_compare_mono_l.
    + symmetry. apply Z.compare_lt_iff. nia.
    + symmetry. apply Z.compare_gt_iff. nia.
Qed.

Lemma zero_padded_exact w n :
  0 ≤ n < 10 ^ Z.of_nat w → (1 ≤ w)%nat → zero_padded w n = fixed_digits w n.
Proof.
  intros [? Hn] Hw. unfold zero_padded. f_equal.
  apply num_digits_le in Hn; [lia|done].
Qed.

Lemma compare_zero_padded w n m :
  (1 ≤ w)%nat → 0 ≤ n < 10 ^ Z.of_nat w → 0 ≤ m < 10 ^ Z.of_nat w →
  String.compare (zero_padded w n) (zero_padded w m) = (n ?= m).
Proof.
  intros. by rewrite !zero_padded_exact, compare_fixed_digits, !Z.mod_small.
Qed.

Lemma str_ltb_compare a b : str_ltb a b = true ↔ String.compare a b = Lt.
Proof. unfold str_ltb, String.ltb. destruct (String.compare a b); split; done. Qed.

Lemma str_leb_trans a b c :
  String.leb a b = true → String.leb b c = true → String.leb a c = true.
Proof.
  unfold String.leb. revert b c. induction a as [|x a IH]; intros [|y b] [|z c]; simpl; try done.
  unfold Ascii.compare. specialize (IH b c).
  destruct (N.compare_spec (Ascii.N_of_ascii x) (Ascii.N_of_ascii y)) as [Exy|Exy|Exy]; [| |done];
    destruct (N.compare_spec (Ascii.N_of_ascii y) (Ascii.N_of_ascii z)) as [Eyz|Eyz|Eyz]; try done;
    intros; destruct (N.compare_spec (Ascii.N_of_ascii x) (Ascii.N_of_ascii z)); try lia; auto.
Qed.

Lemma str_leb_total a b : String.leb a b = false → String.leb b a = true.
Proof. intros E. destruct (String.leb_total a b) as [E'|E']; [by rewrite E in E'|done]. Qed.

(** ** Stripping *)

Lemma str_rev_rev a b s : str_rev a (str_rev b s) = str_rev (s +:+ a) b.
Proof. revert a b. induction s as [|c s IH]; intros a b; [done|]. apply IH. Qed.

Lemma str_forall_rev (f : ascii → bool) acc s :
  str_forall f (str_rev acc s) = str_forall f s && str_forall f acc.
Proof.
  revert acc. induction s as [|c s IH]; intros acc; [done|]. simpl. rewrite IH. simpl.
  by destruct (f c), (str_forall f s).
Qed.

Lemma lstrip_none s : str_forall (λ c, negb (is_space c)) s = true → lstrip s = s.
Proof. destruct s as [|c s]; simpl; [done|]. by destruct (is_space c). Qed.

(** A text without white space is its own strip. *)
Lemma strip_none s : str_forall (λ c, negb (is_space c)) s = true → strip s = s.
Proof.
  intros Hs. unfold strip. rewrite (lstrip_none s) by done.
  rewrite lstrip_none by by rewrite str_forall_rev, Hs.
  rewrite str_rev_rev. simpl. induction s as [|c s IH]; [done|]. simpl in Hs.
  apply andb_true_iff in Hs as [_ Hs]. change (String c (s +:+ EmptyString) = String c s).
  by rewrite IH.
Qed.

#[export] Hint Rewrite append_cons append_empty append_nil_r append_assoc : a2a_simp.
