(* ===== verification/Value.v ===== *)
(** * Python values as they travel in JSON

    The values of [dict[str, Any]] payloads, selector operands and error
    details: [None], booleans, unbounded integers, IEEE-754 doubles (as exact
    binary fractions), strings, lists, and dictionaries in insertion order.
    Values are immutable here: the source never mutates a payload in place. *)

From S2P Require Import Prelude PyStr.
Open Scope Z_scope.

(** A double: [FFin neg m e] is [(-1)^neg * m * 2^e] ([-0.0] is
    [FFin true 0 0]). *)
Inductive pyfloat :=
| FNan
| FInf (neg : bool)
| FFin (neg : bool) (m : Z) (e : Z).

Inductive value :=
| VNone
| VBool (b : bool)
| VInt (n : Z)
| VFloat (f : pyfloat)
| VStr (s : string)
| VList (l : list value)
| VDict (d : list (string * value)).

(** Induction with hypotheses for the members of containers. *)
Lemma value_nested_ind (P : value → Prop) :
  P VNone → (∀ b, P (VBool b)) → (∀ n, P (VInt n)) → (∀ f, P (VFloat f)) →
  (∀ s, P (VStr s)) → (∀ l, Forall P l → P (VList l)) →
  (∀ d, Forall (λ kv, P kv.2) d → P (VDict d)) → ∀ v, P v.
Proof.
  intros Hn Hb Hi Hf Hs Hl Hd. fix IH 1. intros [|b|n|f|s|l|d]; [auto..| |].
  - apply Hl. induction l as [|x l IHl]; constructor; [apply IH|exact IHl].
  - apply Hd. induction d as [|[k x] d IHd]; constructor; [apply IH|exact IHd].
Qed.

(** Truth value of [bool(v)] in Python. *)
Definition truthy (v : value) : bool :=
  match v with
  | VNone => false
  | VBool b => b
  | VInt n => negb (n =? 0)
  | VFloat (FFin _ m _) => negb (m =? 0)
  | VFloat _ => true
  | VStr s => negb (bool_decide (s = EmptyString))
  | VList l => negb (bool_decide (length l = 0%nat))
  | VDict d => negb (bool_decide (length d = 0%nat))
  end.

(** ** Equality [==]

    Numbers of any numeric type compare by exact value, so [True == 1] and
    [3 == 3.0]; a NaN equals nothing. *)
Definition num_of (v : value) : option (Z * Z) :=
  match v with
  | VBool b => Some (Z.b2z b, 0)
  | VInt n => Some (n, 0)
  | VFloat (FFin neg m e) => Some (if neg then - m else m, e)
  | _ => None
  end.

Definition num_eqb (x y : Z * Z) : bool :=
  let e := Z.min x.2 y.2 in
  x.1 * 2 ^ (x.2 - e) =? y.1 * 2 ^ (y.2 - e).

Definition scalar_eqb (a b : value) : bool :=
  match a, b with
  | VNone, VNone => true
  | VStr x, VStr y => bool_decide (x = y)
  | VFloat (FInf x), VFloat (FInf y) => Bool.eqb x y
  | _, _ => match num_of a, num_of b with
            | Some x, Some y => num_eqb x y
            | _, _ => false
            end
  end.

Fixpoint py_eq (a b : value) {struct a} : bool :=
  match a, b with
  | VList l1, VList l2 =>
      (fix go (l1 l2 : list value) : bool :=
         match l1, l2 with
         | [], [] => true
         | x :: l1', y :: l2' => py_eq x y && go l1' l2'
         | _, _ => false
         end) l1 l2
  | VDict d1, VDict d2 =>
      (length d1 =? length d2)%nat &&
      (fix go (d : list (string * value)) : bool :=
         match d with
         | [] => true
         | (k, x) :: d' =>
             match dict_get k d2 with
             | Some y => py_eq x y && go d'
             | None => false
             end
         end) d1
  | _, _ => scalar_eqb a b
  end.

(** [isinstance(x, (str, int, float, bool, type(None)))] *)
Definition is_scalar (v : value) : bool :=
  match v with VList _ | VDict _ => false | _ => true end.

Definition is_bool (v : value) : bool :=
  match v with VBool _ => true | _ => false end.

Lemma num_eqb_refl x : num_eqb x x = true.
Proof. unfold num_eqb. by rewrite Z.eqb_refl. Qed.

Lemma num_eqb_sym x y : num_eqb x y = num_eqb y x.
Proof. unfold num_eqb. by rewrite Z.eqb_sym, Z.min_comm. Qed.

Lemma num_eqb_int a b : num_eqb (a, 0) (b, 0) = (a =? b).
Proof. unfold num_eqb. simpl. by rewrite !Z.mul_1_r. Qed.

Lemma scalar_eqb_sym a b : scalar_eqb a b = scalar_eqb b a.
Proof.
  destruct a as [| | |[]| | |], b as [| | |[]| | |]; simpl; try done;
    try apply num_eqb_sym.
  - by destruct neg, neg0.
  - apply bool_decide_ext; done.
Qed.

Lemma py_eq_scalar a b : is_scalar a = true → py_eq a b = scalar_eqb a b.
Proof. by destruct a. Qed.
