(* ===== verification/Errors.v ===== *)
(** * Error model ([errors.py], spec section 30)

    The symbolic error codes, their JSON-RPC and HTTP numbers, the exception
    that carries them, and the Python exceptions the modelled code can raise. *)

From S2P Require Import Prelude PyStr Value.
Open Scope Z_scope.

(** [class ErrorCode(StrEnum)] *)
Inductive ErrorCode :=
| EXTENSION_NOT_SUPPORTED
| TOPIC_NOT_FOUND
| TOPIC_NOT_AUTHORIZED
| SELECTOR_NOT_SUPPORTED
| INVALID_SELECTOR
| INVALID_CURSOR
| CURSOR_EXPIRED
| SUBSCRIPTION_NOT_FOUND
| SUBSCRIPTION_EXPIRED
| DELIVERY_MODE_NOT_SUPPORTED
| SUBSCRIBER_CARD_UNREACHABLE
| SUBSCRIBER_CARD_INVALID
| DELIVERY_ENDPOINT_NOT_DECLARED
| DELIVERY_ENDPOINT_BLOCKED
| SIGNATURE_INVALID
| REPLAY_NOT_SUPPORTED
| RATE_LIMITED
| LEASE_TOO_LONG
| LEASE_TOO_SHORT.

#[export] Instance ErrorCode_eq_dec : EqDecision ErrorCode.
Proof. solve_decision. Defined.

(** The members in declaration order (iterating the enum). *)
Definition all_codes : list ErrorCode :=
  [EXTENSION_NOT_SUPPORTED; TOPIC_NOT_FOUND; TOPIC_NOT_AUTHORIZED;
   SELECTOR_NOT_SUPPORTED; INVALID_SELECTOR; INVALID_CURSOR; CURSOR_EXPIRED;
   SUBSCRIPTION_NOT_FOUND; SUBSCRIPTION_EXPIRED; DELIVERY_MODE_NOT_SUPPORTED;
   SUBSCRIBER_CARD_UNREACHABLE; SUBSCRIBER_CARD_INVALID;
   DELIVERY_ENDPOINT_NOT_DECLARED; DELIVERY_ENDPOINT_BLOCKED;
   SIGNATURE_INVALID; REPLAY_NOT_SUPPORTED; RATE_LIMITED; LEASE_TOO_LONG;
   LEASE_TOO_SHORT].

(** [code.value] *)
Definition code_value (c : ErrorCode) : string :=
  match c with
  | EXTENSION_NOT_SUPPORTED => "EXTENSION_NOT_SUPPORTED"
  | TOPIC_NOT_FOUND => "TOPIC_NOT_FOUND"
  | TOPIC_NOT_AUTHORIZED => "TOPIC_NOT_AUTHORIZED"
  | SELECTOR_NOT_SUPPORTED => "SELECTOR_NOT_SUPPORTED"
  | INVALID_SELECTOR => "INVALID_SELECTOR"
  | INVALID_CURSOR => "INVALID_CURSOR"
  | CURSOR_EXPIRED => "CURSOR_EXPIRED"
  | SUBSCRIPTION_NOT_FOUND => "SUBSCRIPTION_NOT_FOUND"
  | SUBSCRIPTION_EXPIRED => "SUBSCRIPTION_EXPIRED"
  | DELIVERY_MODE_NOT_SUPPORTED => "DELIVERY_MODE_NOT_SUPPORTED"
  | SUBSCRIBER_CARD_UNREACHABLE => "SUBSCRIBER_CARD_UNREACHABLE"
  | SUBSCRIBER_CARD_INVALID => "SUBSCRIBER_CARD_INVALID"
  | DELIVERY_ENDPOINT_NOT_DECLARED => "DELIVERY_ENDPOINT_NOT_DECLARED"
  | DELIVERY_ENDPOINT_BLOCKED => "DELIVERY_ENDPOINT_BLOCKED"
  | SIGNATURE_INVALID => "SIGNATURE_INVALID"
  | REPLAY_NOT_SUPPORTED => "REPLAY_NOT_SUPPORTED"
  | RATE_LIMITED => "RATE_LIMITED"
  | LEASE_TOO_LONG => "LEASE_TOO_LONG"
  | LEASE_TOO_SHORT => "LEASE_TOO_SHORT"
  end%string.

(** [ErrorCode(s)]: the member with value [s]; [None] is its [ValueError]. *)
Definition ErrorCode_of (s : string) : option ErrorCode :=
  list_first (λ c, bool_decide (code_value c = s)) all_codes.

(** [_CODE_TABLE]: JSON-RPC code and HTTP status. *)
Definition CODE_TABLE (c : ErrorCode) : Z * Z :=
  match c with
  | EXTENSION_NOT_SUPPORTED => (-32001, 400)
  | TOPIC_NOT_FOUND => (-32010, 404)
  | TOPIC_NOT_AUTHORIZED => (-32011, 403)
  | SELECTOR_NOT_SUPPORTED => (-32012, 400)
  | INVALID_SELECTOR => (-32013, 400)
  | INVALID_CURSOR => (-32014, 400)
  | CURSOR_EXPIRED => (-32016, 409)
  | SUBSCRIPTION_NOT_FOUND => (-32020, 404)
  | SUBSCRIPTION_EXPIRED => (-32021, 409)
  | DELIVERY_MODE_NOT_SUPPORTED => (-32030, 400)
  | SUBSCRIBER_CARD_UNREACHABLE => (-32031, 502)
  | SUBSCRIBER_CARD_INVALID => (-32032, 400)
  | DELIVERY_ENDPOINT_NOT_DECLARED => (-32033, 400)
  | DELIVERY_ENDPOINT_BLOCKED => (-32034, 403)
  | SIGNATURE_INVALID => (-32040, 401)
  | REPLAY_NOT_SUPPORTED => (-32050, 400)
  | RATE_LIMITED => (-32060, 429)
  | LEASE_TOO_LONG => (-32070, 400)
  | LEASE_TOO_SHORT => (-32071, 400)
  end.

(** Exceptions. [A2AEventsError] is the source's own class; the others are
    Python's. [DanglingReference] marks the use of an object that was never
    allocated: Python has no such state, and the model never reaches it from a
    well-formed world. [Unmodelled] marks an input outside the modelled range
    (text with code points above 255, a request parameter of a type the
    publisher's methods are not declared for): nothing is claimed of it. *)
Inductive exn :=
| A2AEventsError (code : ErrorCode) (message : string) (details : list (string * value))
| ValueError (message : string)
| KeyError (message : string)
| TypeError (message : string)
| IndexError (message : string)
| AttributeError (message : string)
| AssertionError
| OverflowError (message : string)
| OtherException (name : string)
| DanglingReference
| Unmodelled (what : string).

(** [A2AEventsError.jsonrpc_code], [A2AEventsError.http_status] *)
Definition jsonrpc_code (c : ErrorCode) : Z := (CODE_TABLE c).1.
Definition http_status (c : ErrorCode) : Z := (CODE_TABLE c).2.

(** [{"code": code, **details}]: a key of [details] overrides. *)
Definition dict_merge {V} (d1 d2 : list (string * V)) : list (string * V) :=
  foldl (λ d kv, dict_set kv.1 kv.2 d) d1 d2.

(** [A2AEventsError.to_error_object] *)
Definition to_error_object (c : ErrorCode) (message : string)
    (details : list (string * value)) : list (string * value) :=
  [("code", VInt (jsonrpc_code c)); ("message", VStr message);
   ("data", VDict (dict_merge [("code", VStr (code_value c))] details))]%string.

(** [http_status_for_error]: the exception of calling [.get] on a [data] that
    is not a dict is returned as [inr]. *)
Definition http_status_for_error (error : list (string * value)) : Z + exn :=
  let data := match dict_get "data"%string error with
              | Some v => if truthy v then v else VDict []
              | None => VDict []
              end in
  let by_code :=
    let code := match dict_get "code"%string error with Some v => v | None => VNone end in
    if existsb (py_eq code) [VInt (-32600); VInt (-32602); VInt (-32700)] then 400
    else if py_eq code (VInt (-32601)) then 404
    else 500 in
  match data with
  | VDict d =>
      match dict_get "code"%string d with
      | Some (VStr s) =>
          match ErrorCode_of s with Some c => inl (http_status c) | None => inl by_code end
      | _ => inl by_code
      end
  | _ => inr (AttributeError "get")
  end.

Lemma ErrorCode_of_value c : ErrorCode_of (code_value c) = Some c.
Proof. by destruct c. Qed.

Lemma dict_merge_get {V} k (d1 d2 : list (string * V)) :
  dict_get k d2 = None → dict_get k (dict_merge d1 d2) = dict_get k d1.
Proof.
  unfold dict_merge. revert d1. induction d2 as [|[k' v] d2 IH]; intros d1; [done|].
  simpl. case_decide; [done|]. intros Hk. rewrite IH by done.
  by apply dict_get_set_ne.
Qed.

Lemma dict_merge_get_r {V} k (d1 d2 : list (string * V)) v :
  NoDup d2.*1 → dict_get k d2 = Some v → dict_get k (dict_merge d1 d2) = Some v.
Proof.
  unfold dict_merge. revert d1. induction d2 as [|[k' v'] d2 IH]; intros d1; [done|].
  csimpl. intros [Hk' Hnd]%NoDup_cons. destruct (decide (k = k')) as [->|]; [|by auto].
  intros [= ->]. change (dict_get k' (dict_merge (dict_set k' v d1) d2) = Some v).
  rewrite dict_merge_get; [apply dict_get_set_eq|].
  destruct (dict_get k' d2) eqn:E; [|done]. exfalso. apply Hk'.
  apply (dict_get_keys k' d2). by eexists.
Qed.

(** The error table is sound: every symbolic code parses back from its
    text, the JSON-RPC numbers are pairwise distinct and lie in the
    server-error range -32099..-32000, and the HTTP numbers are error
    statuses. *)
Theorem code_table_sound :
  (∀ c, ErrorCode_of (code_value c) = Some c ∧
        -32099 ≤ jsonrpc_code c ≤ -32000 ∧ 400 ≤ http_status c < 600) ∧
  (∀ c d, jsonrpc_code c = jsonrpc_code d → c = d).
Proof.
  split; [intros []; vm_compute; intuition congruence|].
  intros [] []; vm_compute; congruence.
Qed.

(** The symbolic code of an error object, and its HTTP status. *)
Lemma error_data_code c details :
  dict_get "code"%string details = None →
  dict_get "code"%string (dict_merge [("code"%string, VStr (code_value c))] details)
  = Some (VStr (code_value c)).
Proof. intros. by rewrite dict_merge_get. Qed.

(** The HTTP+JSON status of an error object the code renders is the status
    of its symbolic code, whatever the message and the details, as long as the
    details do not carry a key "code" of their own. *)
Lemma http_status_of_symbolic c message details :
  dict_get "code"%string details = None →
  http_status_for_error (to_error_object c message details) = inl (http_status c).
Proof.
  intros Hd. unfold http_status_for_error, to_error_object. cbn [dict_get].
  rewrite decide_False, decide_False, decide_True by done.
  pose proof (error_data_code c details Hd) as Hc.
  destruct (dict_merge _ details) as [|kv d]; [done|].
  change (truthy (VDict (kv :: d))) with true. cbn iota.
  by rewrite Hc, ErrorCode_of_value.
Qed.

(** [exc.code == c] and [isinstance(exc, A2AEventsError)] *)
Definition is_code (c : ErrorCode) (e : exn) : bool :=
  match e with A2AEventsError c' _ _ => bool_decide (c' = c) | _ => false end.
Definition is_a2a_error (e : exn) : bool :=
  match e with A2AEventsError _ _ _ => true | _ => false end.
