(* ===== verification/Effects.v ===== *)
(** * Effects: Python code as state passing with exceptions

    [M W A] is a computation over the state [W] that returns an [A], raises a
    Python exception (the state changes made before it are kept), or runs out
    of the fuel of a [while] loop. [wp] is its weakest precondition; the lemmas
    in the hint database [a2a_wp] drive proofs over it. *)

From S2P Require Import Prelude PyStr Value Errors.
Open Scope Z_scope.

Inductive outcome (A : Type) : Type :=
| Ret (a : A)
| Raise (e : exn)
| NoFuel.
Arguments Ret {A} a.
Arguments Raise {A} e.
Arguments NoFuel {A}.

(** ** Pure code that may raise *)

#[export] Instance outcome_ret : MRet outcome := λ A a, Ret a.
#[export] Instance outcome_bind : MBind outcome := λ A B k m,
  match m with Ret a => k a | Raise e => Raise e | NoFuel => NoFuel end.
#[export] Instance outcome_fmap : FMap outcome := λ A B f m,
  match m with Ret a => Ret (f a) | Raise e => Raise e | NoFuel => NoFuel end.

(** [if not cond: raise e] *)
Definition guard_else (cond : bool) (e : exn) : outcome unit :=
  if cond then Ret tt else Raise e.

(** What a computation that returned did first. *)
Lemma ret_bind {A B} (m : outcome A) (k : A → outcome B) b :
  m ≫= k = Ret b → ∃ a, m = Ret a ∧ k a = Ret b.
Proof. destruct m as [a| |]; [|done..]. intros Hk. by exists a. Qed.

Lemma ret_guard cond e u : guard_else cond e = Ret u → cond = true.
Proof. by destruct cond. Qed.

(** [ret_step H as x Hx] splits a returned [x ← m; k] in [H]. *)
Ltac ret_step H x Hx := apply ret_bind in H as (x & Hx & H).

(** ** Stateful code *)

Definition M (W A : Type) : Type := W → outcome A * W.

#[export] Instance M_ret {W} : MRet (M W) := λ A a w, (Ret a, w).
#[export] Instance M_bind {W} : MBind (M W) := λ A B k m w,
  match m w with
  | (Ret a, w') => k a w'
  | (Raise e, w') => (Raise e, w')
  | (NoFuel, w') => (NoFuel, w')
  end.

#[export] Instance M_fmap {W} : FMap (M W) := λ A B f m w,
  match m w with
  | (Ret a, w') => (Ret (f a), w')
  | (Raise e, w') => (Raise e, w')
  | (NoFuel, w') => (NoFuel, w')
  end.

Definition raise {W A} (e : exn) : M W A := λ w, (Raise e, w).
Definition no_fuel {W A} : M W A := λ w, (NoFuel, w).
Definition get_state {W} : M W W := λ w, (Ret w, w).
Definition put_state {W} (w' : W) : M W unit := λ _, (Ret tt, w').
Definition modify {W} (f : W → W) : M W unit := λ w, (Ret tt, f w).
Definition gets {W A} (f : W → A) : M W A := λ w, (Ret (f w), w).

(** Run pure code that may raise. *)
Definition lift {W A} (o : outcome A) : M W A := λ w, (o, w).

(** [try: m except: handler], where [handler e = None] re-raises. *)
Definition try_except {W A} (m : M W A) (handler : exn → option (M W A)) : M W A := λ w,
  match m w with
  | (Raise e, w') =>
      match handler e with Some h => h w' | None => (Raise e, w') end
  | r => r
  end.

(** Run code on a part of the state. *)
Definition zoom {W V A} (view : W → V) (upd : V → W → W) (m : M V A) : M W A := λ w,
  let '(r, v) := m (view w) in (r, upd v w).

(** [for x in l: body x] *)
Fixpoint for_each {W A} (l : list A) (body : A → M W unit) : M W unit :=
  match l with
  | [] => mret tt
  | x :: l' => body x ≫= λ _, for_each l' body
  end.

(** [[f x for x in l]] with effects. *)
Fixpoint map_m {W A B} (f : A → M W B) (l : list A) : M W (list B) :=
  match l with
  | [] => mret []
  | x :: l' => y ← f x; ys ← map_m f l'; mret (y :: ys)
  end.

Lemma map_m_app {W A B} (f : A → M W B) l1 l2 w ys1 w1 ys2 w2 :
  map_m f l1 w = (Ret ys1, w1) → map_m f l2 w1 = (Ret ys2, w2) →
  map_m f (l1 ++ l2) w = (Ret (ys1 ++ ys2), w2).
Proof.
  revert w ys1. induction l1 as [|x l1 IH]; intros w ys1; cbn [map_m app].
  { intros [= <- <-]. done. }
  unfold mbind, M_bind. destruct (f x w) as [[y|e|] w']; [|done..].
  destruct (map_m f l1 w') as [[ys|e|] w''] eqn:Hl1; [|done..]. intros [= <- <-] Hl2.
  by rewrite (IH w' ys Hl1 Hl2).
Qed.

(** ** Running a bind *)

Lemma bind_ret {W A B} (m : M W A) (k : A → M W B) w a w' :
  m w = (Ret a, w') → (m ≫= k) w = k a w'.
Proof. intros E. unfold mbind, M_bind. by rewrite E. Qed.

Lemma bind_raise {W A B} (m : M W A) (k : A → M W B) w e w' :
  m w = (Raise e, w') → (m ≫= k) w = (Raise e, w').
Proof. intros E. unfold mbind, M_bind. by rewrite E. Qed.

Lemma bind_lift {W A B} (o : outcome A) (k : A → M W B) w a :
  o = Ret a → (lift o ≫= k) w = k a w.
Proof. by intros ->. Qed.

(** The run of a computation that is known to return. *)
Lemma returned {W A} (m : M W A) w a : (m w).1 = Ret a → m w = (Ret a, (m w).2).
Proof. by destruct (m w) as [o w']; simpl; intros ->. Qed.

(** ** Weakest preconditions *)

Section WP.
Context {W : Type}.

Definition wp {A} (m : M W A) (Q : outcome A → W → Prop) (w : W) : Prop :=
  let '(r, w') := m w in Q r w'.

(** Postcondition of a bind: continue on a value, stop on an exception. *)
Definition wp_next {A B} (k : A → M W B) (Q : outcome B → W → Prop)
    (r : outcome A) (w : W) : Prop :=
  match r with
  | Ret a => wp (k a) Q w
  | Raise e => Q (Raise e) w
  | NoFuel => Q NoFuel w
  end.

Lemma wp_bind {A B} (m : M W A) (k : A → M W B) Q w :
  wp (m ≫= k) Q w ↔ wp m (wp_next k Q) w.
Proof.
  unfold wp, mbind, M_bind. destruct (m w) as [[a|e|] w']; done.
Qed.

Lemma wp_mono {A} (m : M W A) (Q Q' : outcome A → W → Prop) w :
  wp m Q w → (∀ r w', Q r w' → Q' r w') → wp m Q' w.
Proof. unfold wp. destruct (m w). auto. Qed.

(** The outcome and final state themselves. *)
Lemma wp_run {A} (m : M W A) Q w : wp m Q w → Q (m w).1 (m w).2.
Proof. unfold wp. by destruct (m w). Qed.

Lemma wp_run_iff {A} (m : M W A) Q w r w' : m w = (r, w') → wp m Q w ↔ Q r w'.
Proof. unfold wp. by intros ->. Qed.

Lemma wp_ret {A} (a : A) Q w : wp (mret a) Q w ↔ Q (Ret a) w.
Proof. done. Qed.

Lemma wp_raise {A} e (Q : outcome A → W → Prop) w : wp (raise e) Q w ↔ Q (Raise e) w.
Proof. done. Qed.

Lemma wp_get Q w : wp get_state Q w ↔ Q (Ret w) w.
Proof. done. Qed.

Lemma wp_gets {A} (f : W → A) Q w : wp (gets f) Q w ↔ Q (Ret (f w)) w.
Proof. done. Qed.

Lemma wp_modify f Q w : wp (modify f) Q w ↔ Q (Ret tt) (f w).
Proof. done. Qed.

Lemma wp_lift {A} (o : outcome A) Q w : wp (lift o) Q w ↔ Q o w.
Proof. done. Qed.

Lemma wp_try {A} (m : M W A) h Q w :
  wp (try_except m h) Q w ↔
  wp m (λ r w', match r with
                | Raise e => match h e with
                             | Some m' => wp m' Q w'
                             | None => Q (Raise e) w'
                             end
                | _ => Q r w'
                end) w.
Proof.
  unfold wp, try_except. destruct (m w) as [[a|e|] w']; [done| |done].
  by destruct (h e).
Qed.

Lemma wp_fmap {A B} (f : A → B) (m : M W A) Q w :
  wp (f <$> m) Q w ↔ wp m (λ r w', Q (f <$> r) w') w.
Proof. unfold wp, fmap, M_fmap. by destruct (m w) as [[a|e|] w']. Qed.
End WP.

Lemma wp_zoom {W V A} (view : W → V) upd (m : M V A) Q w :
  wp (zoom view upd m) Q w ↔ wp m (λ r v, Q r (upd v w)) (view w).
Proof. unfold wp, zoom. by destruct (m (view w)). Qed.

(** One step of symbolic execution: expose the next primitive of the program
    in the goal. *)
Ltac wp_step :=
  match goal with
  | |- wp (_ ≫= _) _ _ => apply wp_bind
  | |- wp (mret _) _ _ => apply wp_ret
  | |- wp (raise _) _ _ => apply wp_raise
  | |- wp get_state _ _ => apply wp_get
  | |- wp (gets _) _ _ => apply wp_gets
  | |- wp (modify _) _ _ => apply wp_modify
  | |- wp (lift _) _ _ => apply wp_lift
  | |- wp (zoom _ _ _) _ _ => apply wp_zoom
  | |- wp (try_except _ _) _ _ => apply wp_try
  | |- wp (_ <$> _) _ _ => apply wp_fmap
  | |- wp_next _ _ (Ret _) _ => cbv beta iota delta [wp_next]
  | |- wp_next _ _ (Raise _) _ => cbv beta iota delta [wp_next]
  | |- wp_next _ _ NoFuel _ => cbv beta iota delta [wp_next]
  end.
Ltac wp_steps := repeat wp_step.

Lemma wp_conj {W A} (m : M W A) (Q Q' : outcome A → W → Prop) w :
  wp m Q w → wp m Q' w → wp m (λ r w', Q r w' ∧ Q' r w') w.
Proof. unfold wp. destruct (m w). auto. Qed.

Lemma wp_outcome {W A} (m : M W A) w : wp m (λ r _, (m w).1 = r) w.
Proof. unfold wp. by destruct (m w). Qed.

Lemma wp_self {W A} (m : M W A) w : wp m (λ r w', m w = (r, w')) w.
Proof. unfold wp. by destruct (m w). Qed.

Lemma wp_forall {W A I} (P : I → Prop) (m : M W A) (Q : I → outcome A → W → Prop) w :
  (∀ i, P i → wp m (Q i) w) → wp m (λ r w', ∀ i, P i → Q i r w') w.
Proof. unfold wp. destruct (m w). auto. Qed.

(** ** The platform

    What the code takes from outside the repository: the clock
    ([datetime.now(UTC)], in microseconds), [uuid.uuid4().hex], the SHA-256 hex
    digest, pydantic's rendering of a datetime in JSON mode and Python's
    [datetime.isoformat], and the hostname
    that [urllib.parse] finds in a URL. The [i]-th call returns the [i]-th
    value. *)
Class Platform := {
  clock : nat → Z;
  uuid4_hex : nat → string;
  sha256_hexdigest : string → string;
  iso_datetime : Z → string;
  isoformat : Z → string;
  url_hostname : string → option string;
}.

(** How many clock readings and identifiers have been drawn so far. *)
Record Env := mkEnv { tick : nat; uuids : nat }.

Definition env_le (e e' : Env) : Prop := (tick e ≤ tick e' ∧ uuids e ≤ uuids e')%nat.

#[export] Instance env_le_preorder : PreOrder env_le.
Proof. split; unfold env_le; [intros ?|intros ???]; lia. Qed.

Section Platform.
Context `{Platform}.

(** [datetime.now(UTC)] *)
Definition now : M Env Z := λ e,
  (Ret (clock (tick e)), mkEnv (S (tick e)) (uuids e)).

(** [uuid.uuid4().hex] *)
Definition uuid4 : M Env string := λ e,
  (Ret (uuid4_hex (uuids e)), mkEnv (tick e) (S (uuids e))).
End Platform.

(** [timedelta(seconds=n)] in microseconds. *)
Definition seconds (n : Z) : Z := n * 1000000.

(** A platform to run examples on: the clock advances a second per reading
    and identifiers are numbered. *)
Definition sample_platform : Platform := {|
  clock := λ i, seconds (Z.of_nat i);
  uuid4_hex := λ i, zero_padded 32 (Z.of_nat i);
  sha256_hexdigest := λ s, zero_padded 64 (Z.of_nat (String.length s));
  iso_datetime := λ t, zero_padded 20 t;
  isoformat := λ t, zero_padded 20 t;
  url_hostname := λ _, Some "example.com"%string;
|}.

(** [m], then [fin] whatever [m] did. *)
Definition and_then {W A} (m : M W A) (fin : M W unit) : M W A := λ w,
  let '(r, w1) := m w in
  match fin w1 with
  | (Ret _, w2) => (r, w2)
  | (Raise e, w2) => (Raise e, w2)
  | (NoFuel, w2) => (NoFuel, w2)
  end.

Lemma wp_and_then {W A} (m : M W A) fin (Q : outcome A → W → Prop) w :
  wp (and_then m fin) Q w ↔
  wp m (λ r w1, wp fin (λ r2 w2, match r2 with
                                 | Ret _ => Q r w2
                                 | Raise e => Q (Raise e) w2
                                 | NoFuel => Q NoFuel w2
                                 end) w1) w.
Proof.
  unfold wp, and_then. destruct (m w) as [r w1]. destruct (fin w1) as [[[]|e|] w2]; done.
Qed.

(** The outcomes of the first and of the others. *)
Definition gathered {A} (r : outcome A) (rs : outcome (list A)) : outcome (list A) :=
  match r, rs with
  | Ret a, Ret l => Ret (a :: l)
  | Ret _, Raise e => Raise e
  | Ret _, NoFuel => NoFuel
  | Raise e, _ => Raise e
  | NoFuel, _ => NoFuel
  end.

Definition returns {A} (r : outcome A) : bool := match r with Ret _ => true | _ => false end.

(** [asyncio.gather]: the computations run to completion in order. The first
    exception is raised at once; whether those behind it have ended when the
    caller resumes is up to the event loop, [resumes]. If they have not, they go
    on as tasks of their own. *)
Fixpoint gather {W A} (resumes : W → bool) (ms : list (M W A)) : M W (list A) := λ w,
  match ms with
  | [] => (Ret [], w)
  | m :: ms' =>
      let '(r, w1) := m w in
      if negb (returns r) && resumes w1 then (gathered r (Ret []), w1)
      else let '(rs, w2) := gather resumes ms' w1 in (gathered r rs, w2)
  end.

(** The state in which the computation behind [ms] starts, unless the caller
    resumes before. *)
Fixpoint gather_reaches {W A} (resumes : W → bool) (ms : list (M W A)) (w : W) : option W :=
  match ms with
  | [] => Some w
  | m :: ms' =>
      let '(r, w1) := m w in
      if negb (returns r) && resumes w1 then None else gather_reaches resumes ms' w1
  end.

Lemma wp_gather {W A} (resumes : W → bool) (m : M W A) ms (Q : outcome (list A) → W → Prop) w :
  wp m (λ r w1, if negb (returns r) && resumes w1 then Q (gathered r (Ret [])) w1
                else wp (gather resumes ms) (λ rs w2, Q (gathered r rs) w2) w1) w →
  wp (gather resumes (m :: ms)) Q w.
Proof.
  unfold wp. cbn [gather]. destruct (m w) as [r w1]. destruct (_ && _); [done|].
  by destruct (gather resumes ms w1) as [rs w2].
Qed.
