(* ===== verification/Dynamic.v ===== *)
(** * Untyped access to JSON values

    What Python does when code indexes, iterates or calls [.get] on a parsed
    JSON value of any type, exceptions included. The wording of the
    interpreter's own messages is not reproduced. *)

From S2P Require Import Prelude PyStr Value Errors Effects.
Open Scope Z_scope.

Definition unhashable : exn := TypeError "unhashable type".
Definition no_attribute : exn := AttributeError "object has no such attribute".

(** [hash(v)] succeeds *)
Definition hashable (v : value) : bool :=
  match v with VList _ | VDict _ => false | _ => true end.

(** [v.get(key, dflt)] *)
Definition get_attr (v : value) (key : string) (dflt : value) : outcome value :=
  match v with
  | VDict d => mret (default dflt (dict_get key d))
  | _ => Raise no_attribute
  end.

(** [v[key]] with a string key *)
Definition get_item (v : value) (key : string) : outcome value :=
  match v with
  | VDict d => match dict_get key d with Some x => mret x | None => Raise (KeyError key) end
  | VNone | VBool _ | VInt _ | VFloat _ => Raise (TypeError "object is not subscriptable")
  | VStr _ | VList _ => Raise (TypeError "indices must be integers")
  end.

(** [v[0]]; the keys of a JSON object are strings, so it has no member [0]. *)
Definition first_item (v : value) : outcome value :=
  match v with
  | VList (x :: _) => mret x
  | VList [] | VStr EmptyString => Raise (IndexError "index out of range")
  | VStr (String c _) => mret (VStr (String c EmptyString))
  | VDict _ => Raise (KeyError "0")
  | VNone | VBool _ | VInt _ | VFloat _ => Raise (TypeError "object is not subscriptable")
  end.

(** [except (KeyError, IndexError, TypeError)] *)
Definition is_lookup_error (e : exn) : bool :=
  match e with KeyError _ | IndexError _ | TypeError _ => true | _ => false end.

(** [for x in v]: the elements *)
Definition iterate (v : value) : outcome (list value) :=
  match v with
  | VList l => mret l
  | VDict d => mret (VStr <$> dict_keys d)
  | VStr s => mret ((λ c, VStr (String c EmptyString)) <$> String.list_ascii_of_string s)
  | _ => Raise (TypeError "object is not iterable")
  end.

(** [key in v] with a string key *)
Definition contains_key (v : value) (key : string) : outcome bool :=
  match v with
  | VDict d => mret (bool_decide (is_Some (dict_get key d)))
  | VList l => mret (existsb (py_eq (VStr key)) l)
  | VStr s => mret (str_in key s)
  | _ => Raise (TypeError "argument is not iterable")
  end.
