(* ===== verification/Models.v ===== *)
(** * Protocol models ([models.py], spec sections 10, 16 and 23)

    Records for the pydantic models; validation of untyped input into these
    types is pydantic's and is not modelled. Datetimes are microseconds. *)

From S2P Require Import Prelude PyStr Value.
Open Scope Z_scope.

Definition EXTENSION_URI : string :=
  "https://a2a-events.github.io/a2a-events/extensions/events/v1".

Inductive DeliveryMode := WEBHOOK | A2A_MESSAGE.
#[export] Instance DeliveryMode_eq_dec : EqDecision DeliveryMode.
Proof. solve_decision. Defined.
Definition mode_value (m : DeliveryMode) : string :=
  match m with WEBHOOK => "webhook" | A2A_MESSAGE => "a2a-message" end.

Inductive SubscriptionStatus := ACTIVE | EXPIRED | DELETED.
#[export] Instance SubscriptionStatus_eq_dec : EqDecision SubscriptionStatus.
Proof. solve_decision. Defined.
Definition status_value (s : SubscriptionStatus) : string :=
  match s with ACTIVE => "active" | EXPIRED => "expired" | DELETED => "deleted" end.

(** [KeywordSearchSelector.match] *)
Inductive MatchMode := match_all | match_any.

(** [Selector]: the discriminated union of the two selector types. *)
Inductive Selector :=
| FieldFilterSelector (where_ : list (string * list value))
| KeywordSearchSelector (keywords : list string) (match_ : MatchMode)
    (fields : option (list string)).

(** [selector.type] *)
Definition selector_type (s : Selector) : string :=
  match s with
  | FieldFilterSelector _ => "field_filter"
  | KeywordSearchSelector _ _ _ => "keyword_search"
  end.

Record Topic := mkTopic {
  name : string;
  description : string;
  schema_url : option string;
  retention_seconds : Z;
  replay : bool;
  selector_types : list string;
  filterable_fields : option (list string);
  delivery_modes : list DeliveryMode;
}.

(** [Topic(name=n)] with every default. *)
Definition topic_defaults (n : string) : Topic :=
  mkTopic n "" None 604800 true ["field_filter"; "keyword_search"] None
    [A2A_MESSAGE; WEBHOOK].

Record DeliveryPreference := mkDeliveryPreference {
  dp_mode : DeliveryMode;
  endpoint_ref : string;
}.

Record ResolvedDelivery := mkResolvedDelivery {
  mode : DeliveryMode;
  resolved_url : option string;
  resolved_endpoint : option string;
}.

Record CloudEvent := mkCloudEvent {
  ce_id : string;
  ce_source : string;
  ce_type : string;
  ce_subject : option string;
  ce_time : Z;
  ce_data : list (string * value);
  a2apublisher : string;
  a2atopic : string;
  a2acursor : string;
  a2aschemaurl : option string;
  a2asubscription : option string;
  a2adeliveryattempt : option Z;
  a2atraceid : option string;
}.

Record Subscription := mkSubscription {
  subscription_id : string;
  status : SubscriptionStatus;
  publisher_card_url : string;
  subscriber_card_url : string;
  topics : list string;
  selector : option Selector;
  delivery : ResolvedDelivery;
  created_at : Z;
  lease_until : Z;
  cursors : list (string * string);
  metadata : list (string * value);
}.

(** Attribute assignments on a [Subscription]. *)
Definition with_status (s : SubscriptionStatus) (u : Subscription) : Subscription :=
  mkSubscription (subscription_id u) s (publisher_card_url u) (subscriber_card_url u)
    (topics u) (selector u) (delivery u) (created_at u) (lease_until u) (cursors u)
    (metadata u).
Definition with_lease (t : Z) (u : Subscription) : Subscription :=
  mkSubscription (subscription_id u) (status u) (publisher_card_url u)
    (subscriber_card_url u) (topics u) (selector u) (delivery u) (created_at u) t
    (cursors u) (metadata u).
Definition with_cursors (c : list (string * string)) (u : Subscription) : Subscription :=
  mkSubscription (subscription_id u) (status u) (publisher_card_url u)
    (subscriber_card_url u) (topics u) (selector u) (delivery u) (created_at u)
    (lease_until u) c (metadata u).

(** [("k", v)] if [v] is not [None]: one field of [model_dump(exclude_none=True)]. *)
Definition opt_field {A} (f : A → value) (k : string) (v : option A)
    : list (string * value) :=
  match v with Some x => [(k, f x)] | None => [] end.

(** [event.model_dump(by_alias=True, mode="json", exclude_none=True)]: the
    fields in declaration order, without those that are [None]. *)
Definition dump_event (iso : Z → string) (e : CloudEvent) : list (string * value) :=
  [("specversion"%string, VStr "1.0"); ("id"%string, VStr (ce_id e));
   ("source"%string, VStr (ce_source e)); ("type"%string, VStr (ce_type e))]
  ++ opt_field VStr "subject" (ce_subject e)
  ++ [("time"%string, VStr (iso (ce_time e)));
      ("datacontenttype"%string, VStr "application/json");
      ("data"%string, VDict (ce_data e)); ("a2aextension"%string, VStr EXTENSION_URI);
      ("a2apublisher"%string, VStr (a2apublisher e));
      ("a2atopic"%string, VStr (a2atopic e));
      ("a2acursor"%string, VStr (a2acursor e))]
  ++ opt_field VStr "a2aschemaurl" (a2aschemaurl e)
  ++ opt_field VStr "a2asubscription" (a2asubscription e)
  ++ opt_field VInt "a2adeliveryattempt" (a2adeliveryattempt e)
  ++ opt_field VStr "a2atraceid" (a2atraceid e).

(** [topic.model_dump(by_alias=True, exclude_none=True)] *)
Definition dump_topic (t : Topic) : list (string * value) :=
  [("name"%string, VStr (name t)); ("description"%string, VStr (description t))]
  ++ opt_field VStr "schemaUrl" (schema_url t)
  ++ [("retentionSeconds"%string, VInt (retention_seconds t));
      ("replay"%string, VBool (replay t));
      ("selectorTypes"%string, VList (VStr <$> selector_types t))]
  ++ opt_field (λ fs, VList (VStr <$> fs)) "filterableFields" (filterable_fields t)
  ++ [("deliveryModes"%string, VList ((λ m, VStr (mode_value m)) <$> delivery_modes t))].
