(* ===== verification/Base64.v ===== *)
(** * base64url text ([signing._b64url], [signing._b64url_decode])

    The unpadded base64url encoding of signatures, JWK coordinates, delivery
    tokens and page tokens, and its decoder: Python's lenient
    [base64.urlsafe_b64decode] as it runs, which skips foreign characters and
    stops at complete padding. A byte string is a [string] of the codes 0-255. *)

From S2P Require Import Prelude PyStr Value Errors Effects.
Open Scope Z_scope.

(** ** Alphabet *)

Definition b64_char (n : Z) : ascii :=
  if n <? 26 then chr (65 + n) else if n <? 52 then chr (71 + n)
  else if n <? 62 then chr (n - 4) else if n =? 62 then chr 45 else chr 95.

(** The decoder's table, after the translation of [-] and [_] to [+] and [/]. *)
Definition b64_value (c : ascii) : option Z :=
  let n := code c in
  if (65 <=? n) && (n <=? 90) then Some (n - 65)
  else if (97 <=? n) && (n <=? 122) then Some (n - 71)
  else if (48 <=? n) && (n <=? 57) then Some (n + 4)
  else if (n =? 43) || (n =? 45) then Some 62
  else if (n =? 47) || (n =? 95) then Some 63
  else None.

Definition pad_char : ascii := chr 61.

(** ** Encoding *)

(** [base64.urlsafe_b64encode(raw).rstrip(b"=")] *)
Fixpoint b64url (raw : string) : string :=
  match raw with
  | String a (String b (String c rest)) =>
      let n := code a * 65536 + code b * 256 + code c in
      String (b64_char (n / 262144)) (String (b64_char (n / 4096 mod 64))
        (String (b64_char (n / 64 mod 64)) (String (b64_char (n mod 64)) (b64url rest))))
  | String a (String b EmptyString) =>
      let n := code a * 1024 + code b * 4 in
      String (b64_char (n / 4096)) (String (b64_char (n / 64 mod 64))
        (String (b64_char (n mod 64)) EmptyString))
  | String a EmptyString =>
      let n := code a * 16 in
      String (b64_char (n / 64)) (String (b64_char (n mod 64)) EmptyString)
  | EmptyString => EmptyString
  end.

(** ** Decoding *)

Definition incorrect_padding : exn := ValueError "Incorrect padding".

(** [binascii.a2b_base64] without [strict_mode]: [quad] counts the characters
    of the current group, [left] holds the bits not yet written, [pads] the
    padding characters seen since the last data character. *)
Fixpoint a2b_base64 (quad left pads : Z) (s : string) : outcome string :=
  match s with
  | EmptyString => if quad =? 0 then mret EmptyString else Raise incorrect_padding
  | String c rest =>
      if Ascii.eqb c pad_char then
        if 2 <=? quad then
          if 4 <=? quad + (pads + 1) then mret EmptyString
          else a2b_base64 quad left (pads + 1) rest
        else a2b_base64 quad left pads rest
      else
        match b64_value c with
        | None => a2b_base64 quad left pads rest
        | Some v =>
            if quad =? 0 then a2b_base64 1 v 0 rest
            else if quad =? 1 then
              out ← a2b_base64 2 (v mod 16) 0 rest; mret (String (chr (left * 4 + v / 16)) out)
            else if quad =? 2 then
              out ← a2b_base64 3 (v mod 4) 0 rest; mret (String (chr (left * 16 + v / 4)) out)
            else
              out ← a2b_base64 0 0 0 rest; mret (String (chr (left * 64 + v)) out)
        end
  end.

Definition is_ascii (s : string) : bool := str_forall (λ c, code c <? 128) s.

(** [base64.urlsafe_b64decode(s)] of a [str] *)
Definition urlsafe_b64decode (s : string) : outcome string :=
  if is_ascii s then a2b_base64 0 0 0 s
  else Raise (ValueError "string argument should contain only ASCII characters").

(** ["=" * (-len(value) % 4)] *)
Definition padding (value : string) : string :=
  match (- Z.of_nat (String.length value)) mod 4 with
  | 1 => "=" | 2 => "==" | 3 => "===" | _ => ""
  end%string.

(** [_b64url_decode(value)] *)
Definition b64url_decode (value : string) : outcome string :=
  urlsafe_b64decode (value +:+ padding value).

(** ** The decoder inverts the encoder *)

Definition all_sextets : list Z := Z.of_nat <$> seq 0 64.

Lemma sextet_in n : 0 ≤ n < 64 → n ∈ all_sextets.
Proof.
  intros Hn. unfold all_sextets. apply list_elem_of_fmap. exists (Z.to_nat n).
  split; [lia|]. apply elem_of_seq. lia.
Qed.

Lemma sextet_table :
  Forall (λ n, b64_value (b64_char n) = Some n ∧ Ascii.eqb (b64_char n) pad_char = false ∧
               code (b64_char n) < 128) all_sextets.
Proof. apply (bool_decide_unpack _). vm_compute. exact I. Qed.

Lemma b64_char_spec n :
  0 ≤ n < 64 →
  b64_value (b64_char n) = Some n ∧ Ascii.eqb (b64_char n) pad_char = false ∧
  code (b64_char n) < 128.
Proof.
  intros Hn. pose proof sextet_table as Ht. rewrite Forall_forall in Ht.
  by apply Ht, sextet_in.
Qed.

(** Decoding one data character. *)
Lemma a2b_step quad left pads n rest :
  0 ≤ n < 64 →
  a2b_base64 quad left pads (String (b64_char n) rest) =
  if quad =? 0 then a2b_base64 1 n 0 rest
  else if quad =? 1 then
    out ← a2b_base64 2 (n mod 16) 0 rest; mret (String (chr (left * 4 + n / 16)) out)
  else if quad =? 2 then
    out ← a2b_base64 3 (n mod 4) 0 rest; mret (String (chr (left * 16 + n / 4)) out)
  else out ← a2b_base64 0 0 0 rest; mret (String (chr (left * 64 + n)) out).
Proof.
  intros Hn. destruct (b64_char_spec n Hn) as (Hv & Hp & _). cbn [a2b_base64].
  by rewrite Hp, Hv.
Qed.

Lemma chr_of c n : n = code c → chr n = c.
Proof. intros ->. apply chr_code. Qed.

Lemma string_ind3 (P : string → Prop) :
  P EmptyString → (∀ a, P (String a EmptyString)) →
  (∀ a b, P (String a (String b EmptyString))) →
  (∀ a b c s, P s → P (String a (String b (String c s)))) → ∀ s, P s.
Proof.
  intros H0 H1 H2 H3. fix IH 1. intros [|a [|b [|c s]]]; [exact H0|exact (H1 a)|exact (H2 a b)|].
  apply H3, IH.
Qed.

(** The bits of a three-byte group. *)
Ltac sextets :=
  repeat match goal with
  | c : ascii |- _ => lazymatch goal with
      | _ : 0 ≤ code c < 256 |- _ => fail
      | _ => pose proof (code_range c) end
  end;
  Z.div_mod_to_equations; lia.

Lemma a2b_b64url raw :
  ∀ p, p = padding (b64url raw) →
  a2b_base64 0 0 0 (b64url raw +:+ p) = Ret raw.
Proof.
  induction raw as [|a|a b|a b c raw IH] using string_ind3; intros p Hp.
  - by subst.
  - subst p. cbn [b64url]; cbv zeta.
    change (padding _) with "=="%string. rewrite ?append_cons.
    change ("" +:+ "==") with "=="%string.
    rewrite !a2b_step by sextets. cbn. rewrite (chr_of a); [done|sextets].
  - subst p. cbn [b64url]; cbv zeta. change (padding _) with "="%string. rewrite ?append_cons.
    change ("" +:+ "=") with "="%string.
    rewrite !a2b_step by sextets. cbn. rewrite (chr_of a), (chr_of b); [done|sextets..].
  - cbn [b64url] in *; cbv zeta in *. rewrite ?append_cons.
    rewrite !a2b_step by sextets. cbn [Z.eqb Pos.eqb].
    rewrite IH.
    + cbn. rewrite (chr_of a), (chr_of b), (chr_of c); [done|sextets..].
    + rewrite Hp. unfold padding. cbn [String.length].
      replace ((- Z.of_nat (S (S (S (S (String.length (b64url raw))))))) mod 4)
        with ((- Z.of_nat (String.length (b64url raw))) mod 4); [done|].
      Z.div_mod_to_equations; lia.
Qed.

Lemma b64url_forall (f : ascii → bool) raw :
  (∀ n, 0 ≤ n < 64 → f (b64_char n) = true) → str_forall f (b64url raw) = true.
Proof.
  intros Hc. induction raw as [|a|a b|a b c raw IH] using string_ind3;
    [done|..]; cbn [b64url str_forall]; cbv zeta; rewrite ?Hc by sextets; [done..|].
  exact IH.
Qed.

Lemma b64url_ascii raw : is_ascii (b64url raw) = true.
Proof. apply b64url_forall. intros n Hn. apply Z.ltb_lt. by apply b64_char_spec. Qed.

Lemma padding_ascii s : is_ascii (padding s) = true.
Proof. unfold padding. repeat case_match; reflexivity. Qed.

(** Decoding gives back the bytes that were encoded. *)
Lemma b64url_decode_encode raw : b64url_decode (b64url raw) = Ret raw.
Proof.
  unfold b64url_decode, urlsafe_b64decode, is_ascii. rewrite str_forall_app.
  pose proof (b64url_ascii raw) as H1. pose proof (padding_ascii (b64url raw)) as H2.
  unfold is_ascii in H1, H2. rewrite H1, H2. simpl. by apply a2b_b64url.
Qed.

#[export] Instance b64url_inj : Inj (=) (=) b64url.
Proof.
  intros a b Hab. pose proof (b64url_decode_encode a) as Ha.
  rewrite Hab, b64url_decode_encode in Ha. by injection Ha.
Qed.

(** Base64url round trip: the lenient decoder gives back exactly the bytes
    that were encoded, for every byte string, with the padding it adds itself. *)
Lemma b64url_roundtrip raw : b64url_decode (b64url raw) = Ret raw.
Proof. apply b64url_decode_encode. Qed.

(** The decoder is lenient: it skips foreign characters, reads both alphabets,
    and ignores what follows complete padding. *)
Example decode_foreign : b64url_decode "aG .k" = Ret "hi"%string.
Proof. vm_compute. reflexivity. Qed.
Example decode_after_padding : b64url_decode "aGk=aGk=" = Ret "hi"%string.
Proof. vm_compute. reflexivity. Qed.
Example decode_one_char : b64url_decode "a" = Raise incorrect_padding.
Proof. vm_compute. reflexivity. Qed.
