(* ===== verification/Cursor.v ===== *)
(** * Opaque per-topic cursors ([cursor.py], spec section 10.9)

    The reference encoding ["<topic>:<offset>"] with a sixteen-digit offset,
    its decoder and the errors of the decoder. The theorems show that decoding
    inverts encoding, that the decoder rejects what it should with
    [INVALID_CURSOR], and that the byte-wise order of cursors of one topic is
    the numeric order of their offsets below [10^16]. *)

From S2P Require Import Prelude PyStr Value Errors Effects.
Open Scope Z_scope.

Definition EARLIEST : string := "earliest".
Definition LATEST : string := "latest".
Definition OFFSET_WIDTH : nat := 16.

(** The text [f"{topic}:{offset:016d}"]. *)
Definition cursor_text (topic : string) (offset : Z) : string :=
  topic +:+ String colon (zero_padded OFFSET_WIDTH offset).

(** [encode(topic, offset)] *)
Definition encode (topic : string) (offset : Z) : outcome string :=
  if offset <? 0 then Raise (ValueError "offset must be non-negative")
  else if max_str_digits <? Z.of_nat (num_digits offset) then
    Raise (ValueError "Exceeds the limit for integer string conversion")
  else Ret (cursor_text topic offset).

(** The [INVALID_CURSOR] of a malformed cursor. *)
Definition not_a_cursor (cursor : string) : exn :=
  A2AEventsError INVALID_CURSOR ("Not a valid cursor: " +:+ repr cursor +:+ ".")
    [("cursor", VStr cursor)]%string.

(** [_split(cursor)] *)
Definition split_cursor (cursor : string) : outcome (string * Z) :=
  let '(topic, raw) := rpartition_on colon cursor in
  if bool_decide (topic = EmptyString) || negb (isdigit raw)
  then Raise (not_a_cursor cursor)
  else match int_of_digits raw with
       | Some n => Ret (topic, n)
       | None => Raise (ValueError "invalid literal for int()")
       end.

(** [offset_of(cursor)] *)
Definition offset_of (cursor : string) : outcome Z := snd <$> split_cursor cursor.

(** [offset_for(topic, cursor)] *)
Definition offset_for (topic cursor : string) : outcome Z :=
  p ← split_cursor cursor;
  if bool_decide (p.1 = topic) then mret p.2
  else Raise (A2AEventsError INVALID_CURSOR
         ("Cursor " +:+ repr cursor +:+ " does not belong to topic " +:+ repr topic +:+ ".")
         [("cursor", VStr cursor); ("topic", VStr topic)]%string).

(** [topic_of(cursor)] *)
Definition topic_of (cursor : string) : outcome string := fst <$> split_cursor cursor.

(** ** Offsets in range

    Sixteen digits hold the offsets below [10^16]; the stores of the
    development keep theirs below that capacity. *)
Definition max_offset : Z := 10 ^ 16.

Lemma max_offset_digits n : n < max_offset → (num_digits n ≤ 16)%nat.
Proof. intros. apply num_digits_le; [done|lia]. Qed.

Lemma encode_ok topic n :
  0 ≤ n < max_offset → encode topic n = Ret (cursor_text topic n).
Proof.
  intros [Hn Hm]. unfold encode.
  rewrite (proj2 (Z.ltb_ge _ _)) by lia. apply max_offset_digits in Hm.
  rewrite (proj2 (Z.ltb_ge _ _)); [done|]. unfold max_str_digits. lia.
Qed.

Lemma has_no_colon w n : has_char colon (zero_padded w n) = false.
Proof. apply has_char_decimal; [done|]. apply fixed_digits_decimal. Qed.

Lemma split_cursor_text topic n :
  topic ≠ EmptyString → 0 ≤ n < 10 ^ max_str_digits →
  split_cursor (cursor_text topic n) = Ret (topic, n).
Proof.
  intros Ht [Hn Hm]. unfold split_cursor, cursor_text.
  rewrite rpartition_app by apply has_no_colon.
  rewrite bool_decide_false, isdigit_zero_padded by done. simpl.
  rewrite int_of_zero_padded; [done..|]. unfold OFFSET_WIDTH, max_str_digits. lia.
Qed.

Lemma max_offset_limit n : n < max_offset → n < 10 ^ max_str_digits.
Proof.
  intros. eapply Z.lt_le_trans; [done|]. unfold max_offset, max_str_digits.
  apply Z.pow_le_mono_r; lia.
Qed.

Lemma offset_of_text topic n :
  topic ≠ EmptyString → 0 ≤ n < max_offset → offset_of (cursor_text topic n) = Ret n.
Proof.
  intros ? [??]. unfold offset_of.
  rewrite split_cursor_text by auto using max_offset_limit. done.
Qed.

Lemma topic_of_text topic n :
  topic ≠ EmptyString → 0 ≤ n < max_offset → topic_of (cursor_text topic n) = Ret topic.
Proof.
  intros ? [??]. unfold topic_of.
  rewrite split_cursor_text by auto using max_offset_limit. done.
Qed.

Lemma offset_for_text topic n :
  topic ≠ EmptyString → 0 ≤ n < max_offset →
  offset_for topic (cursor_text topic n) = Ret n.
Proof.
  intros ? [??]. unfold offset_for.
  rewrite split_cursor_text by auto using max_offset_limit.
  cbn. by rewrite bool_decide_true.
Qed.

Lemma cursor_text_compare topic n m :
  0 ≤ n < max_offset → 0 ≤ m < max_offset →
  String.compare (cursor_text topic n) (cursor_text topic m) = (n ?= m).
Proof.
  intros. unfold cursor_text. rewrite compare_app_l.
  cbn [String.compare]. unfold Ascii.compare. rewrite N.compare_refl.
  apply compare_zero_padded; [unfold OFFSET_WIDTH; lia|done..].
Qed.

Lemma cursor_text_ltb topic n m :
  0 ≤ n < max_offset → 0 ≤ m < max_offset →
  str_ltb (cursor_text topic n) (cursor_text topic m) = (n <? m).
Proof.
  intros. unfold str_ltb, String.ltb. rewrite cursor_text_compare by done.
  unfold Z.ltb. by destruct (n ?= m).
Qed.

Lemma cursor_text_inj topic n m :
  0 ≤ n < max_offset → 0 ≤ m < max_offset →
  cursor_text topic n = cursor_text topic m → n = m.
Proof.
  intros Hn Hm E. apply Z.compare_eq_iff. rewrite <- (cursor_text_compare topic) by done.
  rewrite E, cursor_text_compare by done. by rewrite Z.compare_refl.
Qed.

Lemma cursor_text_not_sentinel topic n :
  cursor_text topic n ≠ EARLIEST ∧ cursor_text topic n ≠ LATEST.
Proof.
  assert (has_char colon (cursor_text topic n) = true) as Hc.
  { unfold cursor_text. induction topic as [|a t IH]; [done|]. cbn [String.append has_char].
    apply orb_true_iff. by right. }
  split; intros E; rewrite E in Hc; discriminate.
Qed.

#[export] Hint Rewrite offset_of_text topic_of_text offset_for_text encode_ok
  using done : a2a_simp.

(** ** Properties *)

(** Decoding inverts encoding: for a non-empty topic (which may itself
    contain colons) and any offset that [encode] accepts, the decoder returns
    that topic and that offset. *)
Lemma cursor_roundtrip topic offset cursor :
  topic ≠ EmptyString → encode topic offset = Ret cursor →
  split_cursor cursor = Ret (topic, offset).
Proof.
  unfold encode. intros Ht.
  destruct (Z.ltb_spec offset 0) as [|Hn]; [done|].
  destruct (Z.ltb_spec max_str_digits (Z.of_nat (num_digits offset))) as [|Hd]; [done|].
  intros [= <-]. apply split_cursor_text; [done|]. split; [done|].
  eapply Z.lt_le_trans; [by apply num_digits_bound|]. apply Z.pow_le_mono_r; lia.
Qed.

Lemma cursor_roundtrip_witness :
  split_cursor "ns:agent_card.discovered:0000000000000042"
  = Ret ("ns:agent_card.discovered"%string, 42).
Proof. apply (cursor_roundtrip "ns:agent_card.discovered"%string 42); [discriminate|reflexivity]. Defined.

(** Within a topic, the byte-wise order of cursors is the order of their
    offsets, for every pair of offsets of at most sixteen digits. *)
Lemma cursor_order topic n m cn cm :
  n < max_offset → m < max_offset →
  encode topic n = Ret cn → encode topic m = Ret cm →
  (str_ltb cn cm = true ↔ n < m) ∧ (cn = cm ↔ n = m).
Proof.
  intros Hn Hm. unfold encode.
  destruct (Z.ltb_spec n 0); [done|]. destruct (Z.ltb_spec m 0); [by case_match|].
  destruct (_ <? _); [done|]. destruct (_ <? _); [done|]. intros [= <-] [= <-].
  rewrite cursor_text_ltb, Z.ltb_lt by done.
  split; [done|]. split; [|by intros ->]. by apply cursor_text_inj.
Qed.

Lemma cursor_order_witness :
  (str_ltb "t:0000000000000009" "t:0000000000000010" = true ↔ 9 < 10) ∧
  ("t:0000000000000009"%string = "t:0000000000000010"%string ↔ 9 = 10).
Proof. apply (cursor_order "t" 9 10); reflexivity. Defined.

(** Beyond sixteen digits the orders part: the first seventeen-digit cursor
    sorts before the last sixteen-digit one. *)
Example cursor_order_limit :
  str_ltb (cursor_text "t" max_offset) (cursor_text "t" (max_offset - 1)) = true.
Proof. vm_compute. reflexivity. Qed.

(** A text that ends in a colon and digits, with something before them. *)
Definition digits_after (cursor topic raw : string) : Prop :=
  cursor = topic +:+ String colon raw ∧ topic ≠ EmptyString ∧ isdigit raw = true.

(** Digits that [int] reads: decimal ones, and not more than its limit. *)
Definition readable (raw : string) : Prop :=
  str_forall is_decimal raw = true ∧ Z.of_nat (String.length raw) ≤ max_str_digits.

Lemma int_of_digits_readable raw n :
  int_of_digits raw = Some n ↔ readable raw ∧ n = digits_value 0 raw.
Proof.
  unfold int_of_digits, readable. destruct (str_forall _ raw); simpl; [|naive_solver].
  destruct (Z.leb_spec (Z.of_nat (String.length raw)) max_str_digits); naive_solver lia.
Qed.

Lemma isdigit_no_colon raw : isdigit raw = true → has_char colon raw = false.
Proof.
  unfold isdigit. intros [_ Hd]%andb_true_iff.
  induction raw as [|c raw IH]; [done|]. simpl in *. apply andb_true_iff in Hd as [Hc Hd].
  rewrite IH by done. destruct (Ascii.eqb_spec c colon) as [->|]; done.
Qed.

(** Such a text is decoded by what is before and after its last colon; the
    others are rejected. *)
Lemma split_cursor_digits cursor topic raw :
  digits_after cursor topic raw →
  split_cursor cursor = match int_of_digits raw with
                        | Some n => Ret (topic, n)
                        | None => Raise (ValueError "invalid literal for int()")
                        end.
Proof.
  intros (-> & Ht & Hd). unfold split_cursor. rewrite rpartition_app by by apply isdigit_no_colon.
  by rewrite bool_decide_false, Hd.
Qed.

Lemma split_cursor_shape cursor :
  (∃ topic raw, digits_after cursor topic raw) ∨
  ((∀ topic raw, ¬ digits_after cursor topic raw) ∧ split_cursor cursor = Raise (not_a_cursor cursor)).
Proof.
  destruct (rpartition_on colon cursor) as [topic raw] eqn:E.
  destruct (decide (digits_after cursor topic raw)) as [Hd|Hd]; [left; eauto|right].
  assert (bool_decide (topic = EmptyString) || negb (isdigit raw) = true) as Hbad.
  { destruct (bool_decide_reflect (topic = EmptyString)) as [|Ht]; [done|].
    destruct (isdigit raw) eqn:Hr; [|done]. destruct Hd. split_and!; [|done|done].
    unfold rpartition_on in E. destruct (split_last colon cursor) as [[t d]|] eqn:El.
    - injection E as -> ->. by apply split_last_spec in El as [-> _].
    - by injection E as <- <-. }
  split; [|by unfold split_cursor; rewrite E, Hbad].
  intros t d (-> & Ht & Hr). rewrite rpartition_app in E by by apply isdigit_no_colon.
  injection E as -> ->. by rewrite bool_decide_false, Hr in Hbad.
Qed.

(** C35: the decoder, on every input. It accepts exactly the texts that end in a
    colon and at least one decimal digit, at most 4300 of them, with a non-empty
    topic (which may hold colons) before the last colon, and gives that topic and
    the number. Of a text without that shape, it rejects with [INVALID_CURSOR]
    exactly those that do not end in a non-empty topic, a colon and digits as
    Python's [isdigit] takes them; on those that do, but with digits that [int]
    refuses (a superscript, or more than 4300 digits), [ValueError] escapes. *)
Theorem split_cursor_cases cursor :
  (∀ topic n, split_cursor cursor = Ret (topic, n) ↔
     ∃ raw, digits_after cursor topic raw ∧ readable raw ∧ n = digits_value 0 raw) ∧
  (split_cursor cursor = Raise (not_a_cursor cursor) ↔ ∀ topic raw, ¬ digits_after cursor topic raw) ∧
  (split_cursor cursor = Raise (ValueError "invalid literal for int()") ↔
     ∃ topic raw, digits_after cursor topic raw ∧ ¬ readable raw) ∧
  ((∃ topic n, split_cursor cursor = Ret (topic, n)) ∨
   split_cursor cursor = Raise (not_a_cursor cursor) ∨
   split_cursor cursor = Raise (ValueError "invalid literal for int()")).
Proof.
  destruct (split_cursor_shape cursor) as [(t & d & Hd)|[Hnot Hrun]].
  - pose proof (split_cursor_digits cursor t d Hd) as Hrun.
    assert (∀ t' d', digits_after cursor t' d' → t' = t ∧ d' = d) as Huniq.
    { intros t' d' (He' & _ & Hr'). destruct Hd as (He & _ & Hr).
      pose proof (rpartition_app colon t' d' (isdigit_no_colon d' Hr')) as H1.
      rewrite <- He', He, rpartition_app in H1 by by apply isdigit_no_colon. by injection H1. }
    pose proof (int_of_digits_readable d) as Hint.
    destruct (int_of_digits d) as [n|]; rewrite Hrun.
    + destruct (proj1 (Hint n) eq_refl) as [Hread Hn]. split_and!; [| | |by left; eauto].
      * intros topic m. split; [intros [= <- <-]; by exists d|].
        intros (raw & Hraw & _ & ->). destruct (Huniq _ _ Hraw) as [-> ->]. by rewrite Hn.
      * split; [done|]. intros Hno. by destruct (Hno t d).
      * split; [done|]. intros (topic & raw & Hraw & Hbad). destruct (Huniq _ _ Hraw) as [-> ->]. done.
    + assert (¬ readable d) as Hbad.
      { intros Hread. by pose proof (proj2 (Hint (digits_value 0 d)) (conj Hread eq_refl)). }
      split_and!; [| | |by right; right].
      * intros topic m. split; [done|]. intros (raw & Hraw & Hread & _). by destruct (Huniq _ _ Hraw) as [-> ->].
      * split; [done|]. intros Hno. by destruct (Hno t d).
      * split; [|done]. intros _. by exists t, d.
  - rewrite Hrun. split_and!; [| | |by right; left].
    + intros topic n. split; [done|]. intros (raw & Hraw & _). by destruct (Hnot topic raw).
    + by split.
    + split; [done|]. intros (topic & raw & Hraw & _). by destruct (Hnot topic raw).
Qed.

(** A superscript digit is such a text: [_split] raises [ValueError] although
    its documentation promises [INVALID_CURSOR]. *)
Example superscript_cursor :
  split_cursor ("t:" +:+ String (chr 178) EmptyString) =
  Raise (ValueError "invalid literal for int()").
Proof. reflexivity. Qed.
