(* ===== verification/Selectors.v ===== *)
(** * Selector matching ([selectors.py], spec section 10.4)

    Path resolution, the field filter, the keyword search, and the validation
    of a selector against a topic, with the errors of each. The theorems
    characterise both matchers by their declarative meaning. *)

From S2P Require Import Prelude PyStr Value Errors Effects Models.
Open Scope Z_scope.

(** What a path resolves to: the sentinel [ABSENT] or a value. *)
Inductive resolved := ABSENT | Found (v : value).

(** The [for segment in path.split(".")] walk. *)
Fixpoint walk_path (segments : list string) (current : value) : resolved :=
  match segments with
  | [] => Found current
  | segment :: rest =>
      match current with
      | VDict d => match dict_get segment d with
                   | Some v => walk_path rest v
                   | None => ABSENT
                   end
      | _ => ABSENT
      end
  end.

(** [resolve_path(root, path)] *)
Definition resolve_path (root : list (string * value)) (path : string) : outcome resolved :=
  match walk_path (split_on dot path) (VDict root) with
  | ABSENT => Ret ABSENT
  | Found (VDict _) =>
      Raise (A2AEventsError INVALID_SELECTOR
        ("field path " +:+ repr path +:+ " resolves to an object") [("field"%string, VStr path)])
  | Found (VList l) =>
      if forallb is_scalar l then Ret (Found (VList l))
      else Raise (A2AEventsError INVALID_SELECTOR
        ("field path " +:+ repr path +:+ " resolves to a non-scalar array")
        [("field"%string, VStr path)])
  | Found v => Ret (Found v)
  end.

(** [_typed_eq(a, b)]: equality that keeps booleans apart from numbers. *)
Definition typed_eq (a b : value) : bool :=
  if negb (Bool.eqb (is_bool a) (is_bool b)) then false else py_eq a b.

(** [_field_matches(event_value, declared)] *)
Definition field_matches (event_value : resolved) (declared : list value) : bool :=
  match event_value with
  | ABSENT => false
  | Found (VList evs) => existsb (λ ev, existsb (typed_eq ev) declared) evs
  | Found v => existsb (typed_eq v) declared
  end.

(** [_match_field_filter(sel, event)]: stops at the first field that fails. *)
Fixpoint match_field_filter (where_ : list (string * list value))
    (event : list (string * value)) : outcome bool :=
  match where_ with
  | [] => mret true
  | (path, values) :: rest =>
      r ← resolve_path event path;
      if field_matches r values then match_field_filter rest event else mret false
  end.

Definition strings_of (l : list value) : list string :=
  omap (λ v, match v with VStr s => Some s | _ => None end) l.

(** [_collect_text(event, fields)] *)
Fixpoint collect_text (event : list (string * value)) (fields : list string)
    : outcome (list string) :=
  match fields with
  | [] => mret []
  | path :: rest =>
      v ← resolve_path event path;
      texts ← collect_text event rest;
      mret (match v with
            | Found (VStr s) => s :: texts
            | Found (VList l) => strings_of l ++ texts
            | _ => texts
            end)
  end.

(** The separator [" \n "] of the haystack. *)
Definition text_separator : string := String space (String (chr 10) (String space EmptyString)).

(** [_match_keyword_search(sel, event, default_fields)] *)
Definition match_keyword_search (keywords : list string) (match_ : MatchMode)
    (fields : option (list string)) (event : list (string * value))
    (default_fields : list string) : outcome bool :=
  texts ← collect_text event (default default_fields fields);
  let haystack := lower (str_join text_separator texts) in
  let hit kw := str_in (lower kw) haystack in
  mret (match match_ with
        | match_all => forallb hit keywords
        | match_any => existsb hit keywords
        end).

(** [matches(selector, event, default_search_fields)] *)
Definition matches (selector : option Selector) (event : list (string * value))
    (default_search_fields : option (list string)) : outcome bool :=
  match selector with
  | None => mret true
  | Some (FieldFilterSelector where_) => match_field_filter where_ event
  | Some (KeywordSearchSelector keywords match_ fields) =>
      match_keyword_search keywords match_ fields event (default [] default_search_fields)
  end.

Definition mem (x : string) (l : list string) : bool := existsb (λ y, bool_decide (x = y)) l.
Lemma mem_spec x l : mem x l = true ↔ x ∈ l.
Proof.
  unfold mem. rewrite existsb_exists. setoid_rewrite bool_decide_eq_true. split.
  - intros (y & Hy & ->). by apply list_elem_of_In.
  - intros Hx. exists x. split; [by apply list_elem_of_In|done].
Qed.

(** [validate_selector(selector, topic)] *)
Definition validate_selector (selector : option Selector) (topic : Topic) : outcome unit :=
  match selector with
  | None => mret tt
  | Some s =>
      _ ← guard_else (mem (selector_type s) (selector_types topic))
            (A2AEventsError SELECTOR_NOT_SUPPORTED
               ("selector type " +:+ repr (selector_type s) +:+
                " not supported by topic " +:+ repr (name topic))
               [("topic"%string, VStr (name topic));
                ("selectorType"%string, VStr (selector_type s))]);
      match s with
      | FieldFilterSelector where_ =>
          _ ← guard_else (negb (bool_decide (length where_ = 0%nat)))
                (A2AEventsError INVALID_SELECTOR "field_filter.where is empty" []);
          match filterable_fields topic with
          | None => mret tt
          | Some allowed =>
              match list_first (λ f, negb (mem f allowed)) where_.*1 with
              | Some f =>
                  Raise (A2AEventsError SELECTOR_NOT_SUPPORTED
                    ("field " +:+ repr f +:+ " is not filterable on topic "
                     +:+ repr (name topic))
                    [("topic"%string, VStr (name topic)); ("field"%string, VStr f)])
              | None => mret tt
              end
          end
      | KeywordSearchSelector keywords _ _ =>
          guard_else (negb (bool_decide (length keywords = 0%nat)))
            (A2AEventsError INVALID_SELECTOR "keyword_search.keywords is empty" [])
      end
  end.

(** ** The conformance vectors of the repository *)

Section Vectors.
Let ev : list (string * value) :=
  [("type"%string, VStr "org.example.a2a.agent_card.discovered.v1");
   ("subject"%string, VStr "agent-card/x");
   ("data"%string, VDict
     [("cardUrl"%string, VStr "https://new.example.com/card.json");
      ("capabilities"%string, VList [VStr "streaming"; VStr "pushNotifications"]);
      ("count"%string, VInt 3); ("active"%string, VBool true);
      ("title"%string, VStr "New Coding Agent");
      ("skills"%string, VDict [("tags"%string, VList [VStr "coding"; VStr "search"])])])].
Let ff w := matches (Some (FieldFilterSelector w)) ev None.
Let ks kws m fs dflt := matches (Some (KeywordSearchSelector kws m fs)) ev dflt.

Example vector_any_of :
  ff [("data.capabilities"%string, [VStr "streaming"; VStr "batch"])] = Ret true.
Proof. reflexivity. Qed.
Example vector_no_intersection :
  ff [("data.capabilities"%string, [VStr "batch"])] = Ret false.
Proof. reflexivity. Qed.
Example vector_bool_is_not_int : ff [("data.active"%string, [VInt 1])] = Ret false.
Proof. reflexivity. Qed.
Example vector_int_is_not_text : ff [("data.count"%string, [VStr "3"])] = Ret false.
Proof. reflexivity. Qed.
Example vector_object_path :
  ff [("data.skills"%string, [VStr "x"])] =
  Raise (A2AEventsError INVALID_SELECTOR "field path 'data.skills' resolves to an object"
           [("field"%string, VStr "data.skills")]).
Proof. reflexivity. Qed.
Example vector_any_case_insensitive :
  ks ["CODING"; "missing"]%string match_any (Some ["data.title"%string]) None = Ret true.
Proof. reflexivity. Qed.
Example vector_default_fields :
  ks ["search"%string] match_all None (Some ["data.skills.tags"%string]) = Ret true.
Proof. reflexivity. Qed.
End Vectors.

(** ** Field filters *)

Definition field_ok (event : list (string * value)) (f : string * list value) : Prop :=
  ∃ r, resolve_path event f.1 = Ret r ∧ field_matches r f.2 = true.

(** A field filter is the conjunction of its fields, evaluated in order: it
    answers [true] exactly when every path resolves to a value that equals a
    declared one, [false] when some field fails after the earlier ones held,
    and it raises only the error of resolving a path it reached. *)
Lemma field_filter_conjunction where_ event default_fields :
  match matches (Some (FieldFilterSelector where_)) event default_fields with
  | Ret true => Forall (field_ok event) where_
  | Ret false => ∃ before f after r, where_ = before ++ f :: after ∧
      Forall (field_ok event) before ∧
      resolve_path event f.1 = Ret r ∧ field_matches r f.2 = false
  | Raise e => ∃ before f after, where_ = before ++ f :: after ∧
      Forall (field_ok event) before ∧ resolve_path event f.1 = Raise e
  | NoFuel => False
  end.
Proof.
  cbn [matches]. induction where_ as [|[path values] rest IH]; cbn; [constructor|].
  destruct (resolve_path event path) as [r|e|] eqn:Hr; cbn.
  - destruct (field_matches r values) eqn:Hm.
    + assert (field_ok event (path, values)) as Hok by (exists r; done).
      destruct (match_field_filter rest event) as [[]|e|]; [by constructor| | |done].
      * destruct IH as (before & f & after & r' & -> & ? & ? & ?).
        exists ((path, values) :: before), f, after, r'. split_and!; auto.
      * destruct IH as (before & f & after & -> & ? & ?).
        exists ((path, values) :: before), f, after. split_and!; auto.
    + exists [], (path, values), rest, r. split_and!; [done|constructor|done..].
  - exists [], (path, values), rest. split_and!; [done|constructor|done].
  - unfold resolve_path in Hr. repeat case_match; simplify_eq.
Qed.

(** Resolution itself fails only on objects and non-scalar arrays, always with
    [INVALID_SELECTOR]. *)
Lemma resolve_path_raises event path e :
  resolve_path event path = Raise e → ∃ msg d, e = A2AEventsError INVALID_SELECTOR msg d.
Proof. unfold resolve_path. intros. repeat case_match; simplify_eq; eauto. Qed.

Lemma resolve_path_total event path : resolve_path event path ≠ NoFuel.
Proof. unfold resolve_path. repeat case_match; done. Qed.

(** ** Keyword search *)

Abbreviation chars := String.list_ascii_of_string.

Lemma match_field_filter_total where_ event : match_field_filter where_ event ≠ NoFuel.
Proof.
  induction where_ as [|[path values] rest IH]; [done|]. simpl.
  pose proof (resolve_path_total event path). destruct (resolve_path event path); [|done..].
  simpl. by destruct (field_matches _ _).
Qed.

Lemma collect_text_total event fields : collect_text event fields ≠ NoFuel.
Proof.
  induction fields as [|path rest IH]; [done|]. simpl.
  pose proof (resolve_path_total event path). destruct (resolve_path event path); [|done..].
  simpl. by destruct (collect_text event rest).
Qed.

Lemma matches_total sel event default_fields : matches sel event default_fields ≠ NoFuel.
Proof.
  destruct sel as [[where_|keywords m fields]|]; simpl; [apply match_field_filter_total| |done].
  unfold match_keyword_search.
  match goal with |- context [collect_text ?e ?f] => pose proof (collect_text_total e f) end.
  by destruct (collect_text _ _).
Qed.

Lemma chars_app s t : chars (s +:+ t) = chars s ++ chars t.
Proof. induction s as [|c s IH]; simpl; [done|by rewrite IH]. Qed.

Lemma chars_inj s t : chars s = chars t → s = t.
Proof.
  revert t. induction s as [|c s IH]; intros [|d t]; simpl; intros; simplify_eq; [done|].
  f_equal. auto.
Qed.

Lemma prefix_spec k s : String.prefix k s = true ↔ ∃ b, chars s = chars k ++ b.
Proof.
  revert s. induction k as [|c k IH]; intros s; simpl.
  { destruct s; split; eauto. }
  destruct s as [|d s]; simpl; [split; [done|by intros [? ?]]|].
  destruct (Ascii.ascii_dec c d) as [->|Hne].
  - rewrite IH. split; intros [b E]; exists b; congruence.
  - split; [done|]. intros [b E]; congruence.
Qed.

(** [needle in hay] is the substring relation. *)
Lemma str_in_spec k s : str_in k s = true ↔ ∃ a b, chars s = a ++ chars k ++ b.
Proof.
  induction s as [|c s IH]; cbn [str_in]; rewrite orb_true_iff, prefix_spec.
  - split; [intros [[b E]|?]; [by exists [], b|done]|].
    intros (a & b & E). left. simpl in *. symmetry in E.
    apply app_eq_nil in E as [-> E]. by exists b.
  - rewrite IH. split.
    + intros [[b E]|(a & b & E)]; [by exists [], b|].
      exists (c :: a), b. simpl. by rewrite E.
    + intros ([|d a] & b & E); [left; by exists b|]. right. simpl in E.
      injection E as _ E. by exists a, b.
Qed.

Lemma lower_app s t : lower (s +:+ t) = lower s +:+ lower t.
Proof. unfold lower. induction s as [|c s IH]; simpl; [done|by rewrite IH]. Qed.

Lemma lower_join texts :
  lower (str_join text_separator texts) = str_join text_separator (lower <$> texts).
Proof.
  induction texts as [|x [|y l] IH]; [done..|].
  change (lower (x +:+ text_separator +:+ str_join text_separator (y :: l)) =
          lower x +:+ text_separator +:+ str_join text_separator (lower <$> (y :: l))).
  by rewrite !lower_app, IH.
Qed.

(** Lowering creates neither a newline nor a space. *)
Lemma lower_char_blank c : lower_char c = chr 10 ∨ lower_char c = space → lower_char c = c.
Proof. destruct c as [[] [] [] [] [] [] [] []]; vm_compute; intuition congruence. Qed.

Lemma chars_lower s : chars (lower s) = lower_char <$> chars s.
Proof. unfold lower. induction s as [|c s IH]; simpl; [done|by rewrite IH]. Qed.

(** A keyword that cannot touch the separator: not empty, no newline, no
    blank at either end. *)
Definition clean_keyword (k : string) : Prop :=
  k ≠ EmptyString ∧ (chr 10 ∉ chars k) ∧
  head (chars k) ≠ Some space ∧ last (chars k) ≠ Some space.

Lemma clean_lower k : clean_keyword k → clean_keyword (lower k).
Proof.
  intros (Hne & Hnl & Hh & Hl). unfold clean_keyword. rewrite chars_lower.
  split_and!.
  - by destruct k.
  - intros (c & E & Hc)%list_elem_of_fmap. apply Hnl.
    rewrite <- (lower_char_blank c) in Hc by auto. by rewrite E.
  - destruct (chars k) as [|c l]; simpl in *; [done|]. intros [= E].
    apply Hh. by rewrite <- E, (lower_char_blank c) by auto.
  - rewrite fmap_last. destruct (last (chars k)) as [c|]; simpl; [|done]. intros [= E].
    apply Hl. by rewrite <- E, (lower_char_blank c) by auto.
Qed.

(** An occurrence of a clean keyword in two texts joined by the separator lies
    in one of them. *)
Lemma occurrence_in_part (k x r a b : list ascii) :
  k ≠ [] → (chr 10 ∉ k) → head k ≠ Some space → last k ≠ Some space →
  a ++ k ++ b = x ++ [space; chr 10; space] ++ r →
  (∃ b', x = a ++ k ++ b') ∨ (∃ a', r = a' ++ k ++ b).
Proof.
  intros Hk Hnl Hh Hl E.
  assert (∀ i c, k !! i = Some c → (x ++ [space; chr 10; space] ++ r) !! (length a + i)%nat = Some c) as Hlk.
  { intros i c Hi. rewrite <- E, lookup_app_r by lia.
    replace (length a + i - length a)%nat with i by lia. by apply lookup_app_l_Some. }
  assert (length k ≠ 0%nat) by (by intros ?%nil_length_inv).
  assert (∀ j, (length x ≤ j)%nat → (x ++ [space; chr 10; space] ++ r) !! j =
            ([space; chr 10; space] ++ r) !! (j - length x)%nat) as Hsep.
  { intros. by apply lookup_app_r. }
  destruct (decide (length a + length k ≤ length x)%nat) as [Hin|Hout].
  { left. exists (drop (length a + length k) x).
    assert (take (length a + length k) (x ++ [space; chr 10; space] ++ r) = a ++ k) as Ht.
    { rewrite <- E, (assoc_L (++)), <- length_app. apply take_app_length. }
    rewrite take_app_le in Ht by done.
    by rewrite (assoc_L (++)), <- Ht, take_drop. }
  destruct (decide (length x + 3 ≤ length a)%nat) as [Hin|Hmid].
  { right. exists (drop (length x + 3) a).
    assert (drop (length x + 3) (a ++ k ++ b) = r) as Hd.
    { rewrite E, (assoc_L (++)). replace (length x + 3)%nat with
        (length (x ++ [space; chr 10; space])) by (rewrite length_app; simpl; lia).
      apply drop_app_length. }
    by rewrite <- Hd, drop_app_le by done. }
  exfalso. destruct (decide (length x + 1 < length a)%nat) as [Hlate|Hearly].
  - apply Hh. destruct k as [|c k]; [done|]. simpl. specialize (Hlk 0%nat c eq_refl).
    rewrite Hsep in Hlk by lia. replace (length a + 0 - length x)%nat with 2%nat in Hlk by lia.
    simpl in Hlk. by simplify_eq.
  - destruct (decide (length a + length k ≤ length x + 1)%nat) as [Hshort|Hlong].
    + apply Hl. rewrite last_lookup.
      destruct (lookup_lt_is_Some_2 k (pred (length k))) as [c Hc]; [lia|].
      rewrite Hc. specialize (Hlk _ _ Hc). rewrite Hsep in Hlk by lia.
      replace (length a + pred (length k) - length x)%nat with 0%nat in Hlk by lia.
      simpl in Hlk. by simplify_eq.
    + apply Hnl.
      destruct (lookup_lt_is_Some_2 k (length x + 1 - length a)) as [c Hc]; [lia|].
      specialize (Hlk _ _ Hc). rewrite Hsep in Hlk by lia.
      replace (length a + (length x + 1 - length a) - length x)%nat with 1%nat in Hlk by lia.
      simpl in Hlk. simplify_eq. by eapply list_elem_of_lookup_2.
Qed.

Lemma str_in_join k texts :
  clean_keyword k →
  str_in k (str_join text_separator texts) = existsb (str_in k) texts.
Proof.
  intros (Hne & Hnl & Hh & Hl). apply eq_true_iff_eq.
  assert (chars k ≠ []) by (destruct k; done).
  induction texts as [|x [|y l] IH].
  - destruct k; [done|]. split; done.
  - simpl. by rewrite orb_false_r.
  - change (str_join text_separator (x :: y :: l)) with
      (x +:+ text_separator +:+ str_join text_separator (y :: l)).
    cbn [existsb]. rewrite orb_true_iff, <- IH, !str_in_spec.
    rewrite !chars_app.
    change (chars text_separator) with [space; chr 10; space].
    split.
    + intros (a & b & E). symmetry in E. apply occurrence_in_part in E as [[b' ->]|[a' ->]];
        eauto.
    + intros [(a & b & ->)|(a & b & ->)].
      * eexists a, _. by rewrite <- !(assoc_L (++)).
      * eexists (chars x ++ [space; chr 10; space] ++ a), b. by rewrite <- !(assoc_L (++)).
Qed.

(** Keyword search tests each text on its own: for keywords without a
    newline and without a blank at either end, joining the collected texts
    never creates a match across two of them, and the answer is "every (or
    some) keyword occurs, ignoring case, in some text". *)
Lemma keyword_search_per_text keywords match_ fields event default_fields texts :
  Forall clean_keyword keywords →
  collect_text event (default (default [] default_fields) fields) = Ret texts →
  matches (Some (KeywordSearchSelector keywords match_ fields)) event default_fields =
  Ret (let hit kw := existsb (λ t, str_in (lower kw) (lower t)) texts in
       match match_ with
       | match_all => forallb hit keywords
       | match_any => existsb hit keywords
       end).
Proof.
  intros Hk Hc. cbn [matches]. unfold match_keyword_search. rewrite Hc. cbn.
  f_equal. rewrite lower_join.
  assert (∀ kw, kw ∈ keywords →
            str_in (lower kw) (str_join text_separator (lower <$> texts)) =
            existsb (λ t, str_in (lower kw) (lower t)) texts) as Hhit.
  { intros kw Hin. rewrite Forall_forall in Hk.
    rewrite str_in_join by auto using clean_lower.
    clear. induction texts as [|t l IH]; [done|]. csimpl. by rewrite IH. }
  clear Hk Hc. destruct match_; induction keywords as [|kw l IH]; simpl; try done;
    rewrite Hhit by left; f_equal; apply IH; intros; apply Hhit; by right.
Qed.

Lemma keyword_search_per_text_witness :
  matches (Some (KeywordSearchSelector ["CODING"]%string match_all (Some ["data.t"]%string)))
    [("data", VDict [("t", VList [VStr "Go"; VStr "Coding Agent"])])]%string None = Ret true.
Proof.
  apply (keyword_search_per_text ["CODING"]%string match_all (Some ["data.t"]%string)
    [("data", VDict [("t", VList [VStr "Go"; VStr "Coding Agent"])])]%string None
    ["Go"; "Coding Agent"]%string).
  - constructor; [|constructor]. split_and!; try discriminate.
    intros H. vm_compute in H. repeat (apply elem_of_cons in H as [H|H]; [discriminate|]).
    by apply elem_of_nil in H.
  - reflexivity.
Defined.

(** ** Validation *)

(** C36: a selector that passes validation is supported by its topic: its type
    is declared, a field filter is not empty and mentions only filterable
    fields, a keyword search has a keyword; and validation fails only with
    [SELECTOR_NOT_SUPPORTED] or [INVALID_SELECTOR]. *)
Theorem validate_selector_sound s topic :
  match validate_selector (Some s) topic with
  | Ret _ =>
      selector_type s ∈ selector_types topic ∧
      match s with
      | FieldFilterSelector where_ =>
          where_ ≠ [] ∧
          ∀ allowed, filterable_fields topic = Some allowed → where_.*1 ⊆ allowed
      | KeywordSearchSelector keywords _ _ => keywords ≠ []
      end
  | Raise e => ∃ c msg d, e = A2AEventsError c msg d ∧
                 (c = SELECTOR_NOT_SUPPORTED ∨ c = INVALID_SELECTOR)
  | NoFuel => False
  end.
Proof.
  assert (∀ x l, mem x l = true ↔ x ∈ l) as Hmem.
  { intros x l. unfold mem. rewrite existsb_exists. setoid_rewrite bool_decide_eq_true.
    setoid_rewrite <- list_elem_of_In. naive_solver. }
  unfold validate_selector, guard_else.
  destruct (mem (selector_type s) (selector_types topic)) eqn:Ht; cbn; [|by eexists _, _, _; auto].
  apply Hmem in Ht. destruct s as [where_|kws m fs]; cbn.
  - case_bool_decide as Hl; cbn; [by eexists _, _, _; auto|].
    assert (where_ ≠ []) by (by intros ->).
    destruct (filterable_fields topic) as [allowed|]; [|done].
    destruct (list_first _ _) as [g|] eqn:E.
    + by eexists _, _, _; auto.
    + apply list_first_None in E. split; [done|]. split; [done|].
      intros allowed' [= <-] x Hx. rewrite Forall_forall in E.
      apply Hmem. specialize (E x Hx). by apply negb_false_iff in E.
  - destruct kws; cbn; [by eexists _, _, _; auto|done].
Qed.
