(* ===== verification/Canonical.v ===== *)
(** * Canonical JSON ([signing.py], RFC 8785)

    The canonicalizer behind signatures and content hashes: sorted members,
    [JSON.stringify] escaping, and the ECMAScript serialization of doubles,
    with the shortest decimal digits of a double computed exactly. The result
    is the UTF-8 byte string, one character per byte. *)

From S2P Require Import Prelude PyStr Value Errors Effects.
Open Scope Z_scope.

(** ** Shortest decimal digits of a double *)

(** Comparing the decimal [c * 10^q] with the binary [b * 2^s]: both sides
    scaled to integers. *)
Definition dec_side (q s : Z) : Z := 10 ^ Z.max q 0 * 2 ^ Z.max (- s) 0.
Definition bin_side (q s : Z) : Z := 2 ^ Z.max s 0 * 10 ^ Z.max (- q) 0.

(** [floor(log10(m * 2^e))] for [m > 0]. *)
Definition floor_log10 (m e : Z) : Z :=
  let n := m * 2 ^ Z.max e 0 in
  let d := 2 ^ Z.max (- e) 0 in
  if d <=? n then Z.of_nat (num_digits (n / d)) - 1
  else - Z.of_nat (num_digits ((d + n - 1) / n - 1)).

(** Whether the decimal [c * 10^q] rounds to the double [m * 2^e]: it lies
    within half a unit in the last place (a quarter below a power of two),
    the ends included when [m] is even. *)
Definition rounds_to (m e c q : Z) : bool :=
  let s := e - 2 in
  let x := c * dec_side q s in
  let lo := (4 * m - (if (m =? 2 ^ 52) && (-1074 <? e) then 1 else 2)) * bin_side q s in
  let hi := (4 * m + 2) * bin_side q s in
  if Z.even m then (lo <=? x) && (x <=? hi) else (lo <? x) && (x <? hi).

(** The [k]-digit candidates around the double, and the one [repr] takes. *)
Definition pick_digits (m e k : Z) : option (Z * Z) :=
  let q := floor_log10 m e - k + 1 in
  let s := e - 2 in
  let v := 4 * m * bin_side q s in
  let lo := v / dec_side q s in
  let hi := lo + 1 in
  let dlo := v - lo * dec_side q s in
  let dhi := hi * dec_side q s - v in
  let low_first := (dlo <? dhi) || ((dlo =? dhi) && Z.even lo) in
  match rounds_to m e lo q, rounds_to m e hi q with
  | true, true => Some (if low_first then lo else hi, q)
  | true, false => Some (lo, q)
  | false, true => Some (hi, q)
  | false, false => None
  end.

Fixpoint shortest_digits (fuel : nat) (k m e : Z) : Z * Z :=
  match pick_digits m e k with
  | Some r => r
  | None => match fuel with
            | O => (m, 0)
            | S f => shortest_digits f (k + 1) m e
            end
  end.

(** [Decimal.normalize]: drop trailing zeros of the coefficient. *)
Fixpoint drop_zeros (fuel : nat) (c q : Z) : Z * Z :=
  match fuel with
  | O => (c, q)
  | S f => if c mod 10 =? 0 then drop_zeros f (c / 10) (q + 1) else (c, q)
  end.

(** [Decimal(repr(v)).normalize()] of the positive double [m * 2^e]: seventeen
    digits always suffice. *)
Definition repr_decimal (m e : Z) : Z * Z :=
  let '(c, q) := shortest_digits 16 1 m e in drop_zeros 20 c q.

(** ** Serialization *)

Fixpoint zeros (n : nat) : string :=
  match n with O => EmptyString | S n' => String (chr 48) (zeros n') end.

(** [_es_number(value)] *)
Definition es_number (v : pyfloat) : outcome string :=
  match v with
  | FNan | FInf _ => Raise (ValueError "NaN and Infinity are not valid JSON numbers")
  | FFin neg m e =>
      if m =? 0 then mret "0"%string else
      let '(c, exp) := repr_decimal m e in
      let digits := str_of_int c in
      let k := Z.of_nat (String.length digits) in
      let n := exp + k in
      let body :=
        if (k <=? n) && (n <=? 21) then digits +:+ zeros (Z.to_nat (n - k))
        else if (0 <? n) && (n <=? 21) then
          String.substring 0 (Z.to_nat n) digits +:+ "." +:+
          String.substring (Z.to_nat n) (Z.to_nat (k - n)) digits
        else if (-6 <? n) && (n <=? 0) then "0." +:+ zeros (Z.to_nat (- n)) +:+ digits
        else
          let exponent := n - 1 in
          let mantissa :=
            if k =? 1 then digits
            else String.substring 0 1 digits +:+ "." +:+
                 String.substring 1 (Z.to_nat (k - 1)) digits in
          mantissa +:+ "e" +:+ (if 0 <=? exponent then "+" else "-")
          +:+ str_of_int (Z.abs exponent)
      in mret ((if neg then "-" else "") +:+ body)%string
  end.

(** [json.dumps(s, ensure_ascii=False)] on one character. *)
Definition json_char (c : ascii) : string :=
  let n := code c in
  let esc (x : Z) := String (chr 92) (String (chr x) EmptyString) in
  if n =? 34 then esc 34 else if n =? 92 then esc 92
  else if n =? 10 then esc 110 else if n =? 13 then esc 114
  else if n =? 9 then esc 116 else if n =? 12 then esc 102
  else if n =? 8 then esc 98
  else if n <? 32 then
    esc 117 +:+ "00" +:+ String (hex_digit (n / 16)) (String (hex_digit (n mod 16)) EmptyString)
  else String c EmptyString.

Definition quote : string := String (chr 34) EmptyString.
Definition json_string (s : string) : string := quote +:+ str_concat_map json_char s +:+ quote.

(** [str(n)], which refuses more than 4300 digits. *)
Definition int_text (n : Z) : outcome string :=
  if max_str_digits <? Z.of_nat (num_digits (Z.abs n))
  then Raise (ValueError "Exceeds the limit for integer string conversion")
  else mret (str_of_int n).

(** Run the members in order, stopping at the first that raises. *)
Fixpoint sequence {A} (l : list (outcome A)) : outcome (list A) :=
  match l with
  | [] => mret []
  | x :: l' => a ← x; r ← sequence l'; mret (a :: r)
  end.

Definition member_text (kv : string * outcome string) : outcome string :=
  v ← kv.2; mret (json_string kv.1 +:+ ":" +:+ v).

(** UTF-16 code-unit order of the keys; on Latin-1 it is code-point order. *)
Definition key_leb {A} (x y : string * A) : bool := String.leb x.1 y.1.

(** [_canon(obj)] *)
Fixpoint canon (obj : value) : outcome string :=
  match obj with
  | VBool true => mret "true"%string
  | VBool false => mret "false"%string
  | VNone => mret "null"%string
  | VStr s => mret (json_string s)
  | VInt n => int_text n
  | VFloat f => es_number f
  | VDict d =>
      let members := sort_by key_leb (map (λ kv, (kv.1, canon kv.2)) d) in
      texts ← sequence (member_text <$> members);
      mret ("{" +:+ str_join "," texts +:+ "}")
  | VList l =>
      texts ← sequence (map canon l);
      mret ("[" +:+ str_join "," texts +:+ "]")
  end.

(** [s.encode("utf-8")] on Latin-1 text. *)
Definition utf8_char (c : ascii) : string :=
  let n := code c in
  if n <? 128 then String c EmptyString
  else String (chr (192 + n / 64)) (String (chr (128 + n mod 64)) EmptyString).
Definition utf8 (s : string) : string := str_concat_map utf8_char s.

(** [canonicalize(obj)] *)
Definition canonicalize (obj : value) : outcome string := utf8 <$> canon obj.

(** ** Member order does not matter *)

(** Equality of values up to the order of dictionary members, at any depth. *)
Inductive json_eq : value → value → Prop :=
| json_eq_refl v : json_eq v v
| json_eq_list l1 l2 : Forall2 json_eq l1 l2 → json_eq (VList l1) (VList l2)
| json_eq_dict d1 d d2 :
    NoDup d1.*1 → d1 ≡ₚ d →
    Forall2 (λ x y, x.1 = y.1 ∧ json_eq x.2 y.2) d d2 →
    json_eq (VDict d1) (VDict d2).

Lemma key_leb_total {A} (x y : string * A) : key_leb x y = false → key_leb y x = true.
Proof. apply str_leb_total. Qed.

Lemma key_leb_trans {A} (x y z : string * A) :
  key_leb x y = true → key_leb y z = true → key_leb x z = true.
Proof. apply str_leb_trans. Qed.

(** Members with pairwise different keys sort the same way. *)
Lemma sort_members_perm {A} (d1 d2 : list (string * A)) :
  NoDup d1.*1 → d1 ≡ₚ d2 → sort_by key_leb d1 = sort_by key_leb d2.
Proof.
  intros Hnd Hperm. apply sort_by_perm_eq; [apply key_leb_total|apply key_leb_trans|done|].
  intros [k x] [k' y] Hx Hy H1 H2.
  assert (k = k') as <- by by apply String.leb_antisym. f_equal.
  apply dict_elem_get in Hx; [|done]. apply dict_elem_get in Hy; [|done]. congruence.
Qed.

Definition canon_member (kv : string * value) : string * outcome string :=
  (kv.1, canon kv.2).

(** Equal values have the same text, or fail the same way. *)
Lemma canon_json_eq : ∀ a b, json_eq a b → canon a = canon b.
Proof.
  fix IH 3. intros a b [v|l1 l2 Hl|d1 d d2 Hnd Hperm Hd]; [done| |].
  - cbn [canon]. f_equal. f_equal.
    induction Hl as [|x y l1 l2 Hxy Hl IHl]; [done|]. cbn [map]. by rewrite (IH _ _ Hxy), IHl.
  - cbn [canon]. f_equal. f_equal. f_equal. fold canon_member.
    assert (canon_member <$> d = canon_member <$> d2) as E.
    { clear Hnd Hperm.
      induction Hd as [|x y d d2 [Hk Hxy] Hd IHd]; [done|].
      rewrite !fmap_cons, IHd. f_equal. unfold canon_member. rewrite Hk. f_equal.
      exact (IH _ _ Hxy). }
    transitivity (sort_by key_leb (canon_member <$> d)); [|by rewrite E].
    apply sort_members_perm; [|by rewrite Hperm].
    rewrite <- list_fmap_compose. erewrite list_fmap_ext; [exact Hnd|done].
Qed.

#[export] Instance canonicalize_proper : Proper (json_eq ==> eq) canonicalize.
Proof. intros a b Hab. unfold canonicalize. by rewrite (canon_json_eq a b). Qed.

(** C38: canonicalization forgets member order and nothing is lost to it: two
    values that are equal up to the order of dictionary members, at any depth,
    have the same canonical bytes, or fail with the same error; so a signature
    or a content hash survives re-serialization. *)
Theorem canonical_member_order a b : json_eq a b → canonicalize a = canonicalize b.
Proof. apply canonicalize_proper. Qed.

Lemma canonical_member_order_witness :
  canonicalize (VDict [("b"%string, VInt 1); ("a"%string, VList [VNone])]) =
  canonicalize (VDict [("a"%string, VList [VNone]); ("b"%string, VInt 1)]).
Proof.
  apply (canonical_member_order (VDict _)).
  eapply (json_eq_dict _ [("a"%string, VList [VNone]); ("b"%string, VInt 1)]).
  - apply (bool_decide_unpack _). vm_compute. exact I.
  - apply Permutation_swap.
  - repeat constructor.
Defined.

(** ** The serializer answers *)

Lemma sequence_no_fuel {A} (l : list (outcome A)) :
  Forall (λ o, o ≠ NoFuel) l → sequence l ≠ NoFuel.
Proof.
  induction 1 as [|x l Hx Hl IH]; [done|]. simpl. destruct x; [|done|done]. simpl.
  by destruct (sequence l).
Qed.

Lemma es_number_no_fuel f : es_number f ≠ NoFuel.
Proof.
  destruct f as [|?|neg m e]; [done..|]. unfold es_number. destruct (m =? 0); [done|].
  by destruct (repr_decimal m e).
Qed.

Lemma canon_no_fuel : ∀ v, canon v ≠ NoFuel.
Proof.
  fix IH 1. intros [|[]|n|f|s|l|d].
  1,2,3,6: discriminate.
  - clear IH. unfold canon, int_text. by destruct (_ <? _).
  - clear IH. apply es_number_no_fuel.
  - cbn [canon]. assert (sequence (map canon l) ≠ NoFuel) as Hs.
    { apply sequence_no_fuel. induction l as [|x l IHl]; constructor; [exact (IH x)|exact IHl]. }
    clear IH. by destruct (sequence (map canon l)).
  - cbn [canon]. fold canon_member.
    assert (sequence (member_text <$> sort_by key_leb (map canon_member d)) ≠ NoFuel) as Hs.
    { apply sequence_no_fuel. rewrite Forall_fmap, sort_by_perm.
      induction d as [|[k v] d IHd]; constructor; [|exact IHd].
      unfold compose, member_text; simpl. pose proof (IH v) as Hv. clear IH.
      by destruct (canon v). }
    clear IH. by destruct (sequence _).
Qed.

Lemma canonicalize_no_fuel v : canonicalize v ≠ NoFuel.
Proof. unfold canonicalize. pose proof (canon_no_fuel v). by destruct (canon v). Qed.

(** ** Vectors *)

Definition dbl (m e : Z) : value := VFloat (FFin false m e).

(** [1.0], [0.1], [1e-7], [1e21], [123456789012345680000.0], [5e-324] and the
    largest double. *)
Example es_one : canon (dbl 4503599627370496 (-52)) = Ret "1"%string.
Proof. vm_compute. reflexivity. Qed.
Example es_tenth : canon (dbl 7205759403792794 (-56)) = Ret "0.1"%string.
Proof. vm_compute. reflexivity. Qed.
Example es_small : canon (dbl 7555786372591432 (-76)) = Ret "1e-7"%string.
Proof. vm_compute. reflexivity. Qed.
Example es_1e21 : canon (dbl 7629394531250000 17) = Ret "1e+21"%string.
Proof. vm_compute. reflexivity. Qed.
Example es_subnormal : canon (dbl 1 (-1074)) = Ret "5e-324"%string.
Proof. vm_compute. reflexivity. Qed.
Example canon_sorts :
  canon (VDict [("b"%string, VInt 2); ("a"%string, VList [VBool true; VNone])])
  = Ret ("{" +:+ json_string "a" +:+ ":[true,null]," +:+ json_string "b" +:+ ":2}")%string.
Proof. vm_compute. reflexivity. Qed.
