(* ===== verification/Json.v ===== *)
(** * JSON text ([json.loads], [json.dumps])

    The standard library's codec as the code uses it: page tokens, gRPC
    payloads and card headers. [loads] is CPython's scanner (lenient constants,
    duplicate members, the integer length limit, the nesting limit), [dumps] its
    encoder with [ensure_ascii]. Text with code points above 255 ends in
    [Unmodelled]. The theorem is the round trip of values without floats. *)

From S2P Require Import Prelude PyStr Value Errors Effects Canonical.
Open Scope Z_scope.

(** [json.JSONDecodeError], a [ValueError] *)
Definition decode_error : exn := ValueError "JSONDecodeError".
Definition recursion_error : exn := OtherException "RecursionError".
Definition beyond_latin1 : exn := Unmodelled "a code point above 255".

Definition dquote : ascii := chr 34.
Definition backslash : ascii := chr 92.
Definition is_char (n : Z) (c : ascii) : bool := code c =? n.

(** ** Decoding *)

Definition is_ws (c : ascii) : bool :=
  is_char 32 c || is_char 9 c || is_char 10 c || is_char 13 c.

Fixpoint skip_ws (s : string) : string :=
  match s with
  | EmptyString => EmptyString
  | String c s' => if is_ws c then skip_ws s' else s
  end.

Definition hex_value (c : ascii) : option Z :=
  let n := code c in
  if (48 <=? n) && (n <=? 57) then Some (n - 48)
  else if (97 <=? n) && (n <=? 102) then Some (n - 87)
  else if (65 <=? n) && (n <=? 70) then Some (n - 55)
  else None.

Definition hex4 (a b c d : ascii) : option Z :=
  match hex_value a, hex_value b, hex_value c, hex_value d with
  | Some x, Some y, Some z, Some w => Some (((x * 16 + y) * 16 + z) * 16 + w)
  | _, _, _, _ => None
  end.

(** The one-character escapes. *)
Definition unescape (c : ascii) : option ascii :=
  let n := code c in
  if (n =? 34) || (n =? 92) || (n =? 47) then Some c
  else if n =? 98 then Some (chr 8) else if n =? 102 then Some (chr 12)
  else if n =? 110 then Some (chr 10) else if n =? 114 then Some (chr 13)
  else if n =? 116 then Some (chr 9)
  else None.

Definition cons_text (c : ascii) (p : string * string) : string * string := (String c p.1, p.2).

(** [py_scanstring]: the text up to the closing quote, and what follows it. *)
Fixpoint scan_string (s : string) : outcome (string * string) :=
  match s with
  | EmptyString => Raise decode_error
  | String c s1 =>
      if Ascii.eqb c dquote then mret (EmptyString, s1)
      else if code c <? 32 then Raise decode_error
      else if Ascii.eqb c backslash then
        match s1 with
        | EmptyString => Raise decode_error
        | String e s2 =>
            if is_char 117 e then
              match s2 with
              | String a (String b (String c' (String d s3))) =>
                  match hex4 a b c' d with
                  | None => Raise decode_error
                  | Some n => if n <? 256 then cons_text (chr n) <$> scan_string s3
                              else Raise beyond_latin1
                  end
              | _ => Raise decode_error
              end
            else match unescape e with
                 | Some x => cons_text x <$> scan_string s2
                 | None => Raise decode_error
                 end
        end
      else cons_text c <$> scan_string s1
  end.

Fixpoint take_digits (s : string) : string * string :=
  match s with
  | String c s' => if is_decimal c then cons_text c (take_digits s') else (EmptyString, s)
  | EmptyString => (EmptyString, EmptyString)
  end.

(** [float(text)] of the decimal [c * 10^q], rounded to the nearest double,
    ties to even; beyond the range it is infinite or zero. *)
Definition float_of_decimal (neg : bool) (c q : Z) : pyfloat :=
  let k := Z.of_nat (num_digits c) + q in
  if (c =? 0) || (k <? -400) then FFin neg 0 0
  else if 400 <? k then FInf neg
  else
    let num := c * 10 ^ Z.max q 0 in
    let den := 10 ^ Z.max (- q) 0 in
    let at_exp e := (num * 2 ^ Z.max (- e) 0, den * 2 ^ Z.max e 0) in
    let e0 := Z.log2 num - Z.log2 den - 53 in
    let e1 := let '(n, d) := at_exp e0 in if n / d <? 2 ^ 53 then e0 else e0 + 1 in
    let e := Z.max e1 (-1074) in
    let '(n, d) := at_exp e in
    let m := n / d in
    let r := n mod d in
    let m' := if (d <? 2 * r) || ((d =? 2 * r) && Z.odd m) then m + 1 else m in
    let '(m2, e2) := if m' =? 2 ^ 53 then (2 ^ 52, e + 1) else (m', e) in
    if 971 <? e2 then FInf neg else if m2 =? 0 then FFin neg 0 0 else FFin neg m2 e2.

(** The optional parts of a number, each left in place when incomplete. *)
Definition scan_fraction (s : string) : option string * string :=
  match s with
  | String c s' =>
      if is_char 46 c then
        let '(ds, r) := take_digits s' in
        if bool_decide (ds = EmptyString) then (None, s) else (Some ds, r)
      else (None, s)
  | EmptyString => (None, s)
  end.

Definition scan_exponent (s : string) : option Z * string :=
  match s with
  | String c s' =>
      if is_char 69 c || is_char 101 c then
        let '(neg, s2) := match s' with
                          | String g s2 => if is_char 45 g then (true, s2)
                                           else if is_char 43 g then (false, s2) else (false, s')
                          | EmptyString => (false, s')
                          end in
        let '(ds, r) := take_digits s2 in
        if bool_decide (ds = EmptyString) then (None, s)
        else (Some (if neg : bool then - digits_value 0 ds else digits_value 0 ds), r)
      else (None, s)
  | EmptyString => (None, s)
  end.

(** The integer part: a single zero, or digits that do not start with one. *)
Definition scan_integer (s : string) : string * string :=
  match s with
  | String c s' => if is_char 48 c then (String c EmptyString, s') else take_digits s
  | EmptyString => (EmptyString, EmptyString)
  end.

(** [_match_number_unicode] *)
Definition scan_number (s : string) : outcome (value * string) :=
  let '(neg, s1) := match s with
                    | String c s' => if is_char 45 c then (true, s') else (false, s)
                    | EmptyString => (false, s)
                    end in
  let '(ds, s2) := scan_integer s1 in
  if bool_decide (ds = EmptyString) then Raise decode_error else
  let '(frac, s3) := scan_fraction s2 in
  let '(exp, s4) := scan_exponent s3 in
  match frac, exp with
  | None, None =>
      match int_of_digits ds with
      | Some n => mret (VInt (if neg : bool then - n else n), s4)
      | None => Raise (ValueError "Exceeds the limit for integer string conversion")
      end
  | _, _ =>
      let fs := default EmptyString frac in
      mret (VFloat (float_of_decimal neg (digits_value 0 (ds +:+ fs))
                      (default 0 exp - Z.of_nat (String.length fs))), s4)
  end.

(** The text after a literal, if it starts with it. *)
Fixpoint after_literal (lit s : string) : option string :=
  match lit, s with
  | EmptyString, _ => Some s
  | String a lit', String b s' => if Ascii.eqb a b then after_literal lit' s' else None
  | _, EmptyString => None
  end.

Definition constants : list (string * value) :=
  [("null", VNone); ("true", VBool true); ("false", VBool false); ("NaN", VFloat FNan);
   ("Infinity", VFloat (FInf false)); ("-Infinity", VFloat (FInf true))]%string.

Fixpoint scan_constant (cs : list (string * value)) (s : string) : option (value * string) :=
  match cs with
  | [] => None
  | (lit, v) :: cs' =>
      match after_literal lit s with Some r => Some (v, r) | None => scan_constant cs' s end
  end.

Section Containers.
Context (scan : string → outcome (value * string)).

(** The members of an object from the quote of a key on; [n] bounds their number. *)
Fixpoint scan_members (n : nat) (d : list (string * value)) (s : string)
    : outcome (value * string) :=
  match n, s with
  | Datatypes.S n', String c s1 =>
      if negb (Ascii.eqb c dquote) then Raise decode_error else
      p ← scan_string s1;
      match skip_ws p.2 with
      | String c2 s2 =>
          if negb (is_char 58 c2) then Raise decode_error else
          q ← scan (skip_ws s2);
          let d' := dict_set p.1 q.1 d in
          match skip_ws q.2 with
          | String c3 s3 =>
              if is_char 125 c3 then mret (VDict d', s3)
              else if is_char 44 c3 then scan_members n' d' (skip_ws s3)
              else Raise decode_error
          | EmptyString => Raise decode_error
          end
      | EmptyString => Raise decode_error
      end
  | _, EmptyString => Raise decode_error
  | O, _ => NoFuel
  end.

(** The elements of an array. *)
Fixpoint scan_elements (n : nat) (acc : list value) (s : string) : outcome (value * string) :=
  match n with
  | O => NoFuel
  | Datatypes.S n' =>
      p ← scan s;
      match skip_ws p.2 with
      | String c s2 =>
          if is_char 93 c then mret (VList (acc ++ [p.1]), s2)
          else if is_char 44 c then scan_elements n' (acc ++ [p.1]) (skip_ws s2)
          else Raise decode_error
      | EmptyString => Raise decode_error
      end
  end.
End Containers.

(** [scan_once]; [depth] is how deep the interpreter lets values nest. *)
Fixpoint scan_once (depth : nat) (s : string) : outcome (value * string) :=
  match s with
  | EmptyString => Raise decode_error
  | String c s1 =>
      if Ascii.eqb c dquote then p ← scan_string s1; mret (VStr p.1, p.2)
      else if is_char 123 c then
        match depth with
        | O => Raise recursion_error
        | Datatypes.S k =>
            match skip_ws s1 with
            | String c2 s2 =>
                if is_char 125 c2 then mret (VDict [], s2)
                else scan_members (scan_once k) (String.length s1) [] (String c2 s2)
            | EmptyString => Raise decode_error
            end
        end
      else if is_char 91 c then
        match depth with
        | O => Raise recursion_error
        | Datatypes.S k =>
            match skip_ws s1 with
            | String c2 s2 =>
                if is_char 93 c2 then mret (VList [], s2)
                else scan_elements (scan_once k) (String.length s1) [] (String c2 s2)
            | EmptyString => Raise decode_error
            end
        end
      else match scan_constant constants s with
           | Some p => mret p
           | None => scan_number s
           end
  end.

(** [json.loads(s)] of a [str] *)
Definition loads (depth : nat) (s : string) : outcome value :=
  p ← scan_once depth (skip_ws s);
  match skip_ws p.2 with
  | EmptyString => mret p.1
  | _ => Raise decode_error
  end.

(** [bytes.decode("utf-8")], to the code points below 256. *)
Fixpoint utf8_decode (s : string) : outcome string :=
  match s with
  | EmptyString => mret EmptyString
  | String c s1 =>
      if code c <? 128 then String c <$> utf8_decode s1
      else if (code c <? 194) || (244 <? code c) then Raise (ValueError "UnicodeDecodeError")
      else
        match s1 with
        | String d s2 =>
            if negb ((128 <=? code d) && (code d <? 192))
            then Raise (ValueError "UnicodeDecodeError")
            else if code c <? 196 then
              String (chr ((code c - 192) * 64 + (code d - 128))) <$> utf8_decode s2
            else Raise beyond_latin1
        | EmptyString => Raise (ValueError "UnicodeDecodeError")
        end
  end.

(** [json.loads(b)] of [bytes]: [json.detect_encoding] takes UTF-8 unless the
    text opens with a byte order mark or has a NUL among its first two bytes. *)
Definition loads_bytes (depth : nat) (b : string) : outcome value :=
  if has_char (chr 0) (String.substring 0 2 b)
     || bool_decide (is_Some (after_literal (String (chr 254) (String (chr 255) EmptyString)) b))
     || bool_decide (is_Some (after_literal (String (chr 255) (String (chr 254) EmptyString)) b))
  then Raise (Unmodelled "JSON text in UTF-16 or UTF-32")
  else
    let bom := String (chr 239) (String (chr 187) (String (chr 191) EmptyString)) in
    s ← utf8_decode (default b (after_literal bom b));
    loads depth s.

(** ** Encoding *)

(** [py_encode_basestring_ascii] on one character. *)
Definition ascii_char (c : ascii) : string :=
  let n := code c in
  let esc (x : Z) := String backslash (String (chr x) EmptyString) in
  if n =? 34 then esc 34 else if n =? 92 then esc 92
  else if n =? 10 then esc 110 else if n =? 13 then esc 114
  else if n =? 9 then esc 116 else if n =? 12 then esc 102
  else if n =? 8 then esc 98
  else if (32 <=? n) && (n <=? 126) then String c EmptyString
  else esc 117 +:+ "00" +:+
       String (hex_digit (n / 16)) (String (hex_digit (n mod 16)) EmptyString).

Definition ascii_text (s : string) : string :=
  String dquote (str_concat_map ascii_char s +:+ String dquote EmptyString).

(** [float.__repr__] *)
Definition float_repr (f : pyfloat) : string :=
  match f with
  | FNan => "NaN"
  | FInf neg => (if neg then "-Infinity" else "Infinity")%string
  | FFin neg m e =>
      let sign := (if neg then "-" else EmptyString)%string in
      if m =? 0 then sign +:+ "0.0"%string else
      let '(c, q) := repr_decimal m e in
      let digits := str_of_int c in
      let k := Z.of_nat (String.length digits) in
      let n := k + q in
      sign +:+
      (if (-4 <? n) && (n <=? 16) then
         if k <=? n then digits +:+ zeros (Z.to_nat (n - k)) +:+ ".0"%string
         else if 0 <? n then
           String.substring 0 (Z.to_nat n) digits +:+ "." +:+
           String.substring (Z.to_nat n) (Z.to_nat (k - n)) digits
         else "0."%string +:+ zeros (Z.to_nat (- n)) +:+ digits
       else
         (if k =? 1 then digits
          else String.substring 0 1 digits +:+ "." +:+ String.substring 1 (Z.to_nat (k - 1)) digits)
         +:+ "e" +:+ (if 0 <=? n - 1 then "+"%string else "-"%string) +:+ zero_padded 2 (Z.abs (n - 1)))
  end.

(** [str(v)] of a scalar *)
Definition py_str (v : value) : string :=
  match v with
  | VNone => "None"
  | VBool b => if b then "True" else "False"
  | VInt n => str_of_int n
  | VFloat f => float_repr f
  | VStr s => s
  | VList _ | VDict _ => EmptyString
  end.

(** [str(v)], except of containers *)
Definition str_value (v : value) : outcome string :=
  match v with
  | VList _ | VDict _ => Raise (Unmodelled "the text of a container")
  | _ => mret (py_str v)
  end.

(** [json.dumps(v, separators=(isep, ksep))] *)
Section Dumps.
Context (isep ksep : string).

Definition dump_member (kv : string * outcome string) : outcome string :=
  v ← kv.2; mret (ascii_text kv.1 +:+ ksep +:+ v).

Fixpoint dump (depth : nat) (v : value) {struct v} : outcome string :=
  match v with
  | VNone => mret "null"%string
  | VBool b => mret (if b then "true" else "false")%string
  | VInt n => int_text n
  | VFloat f => mret (float_repr f)
  | VStr s => mret (ascii_text s)
  | VList l =>
      match depth with
      | O => Raise recursion_error
      | Datatypes.S k =>
          texts ← sequence (map (λ x, dump k x) l);
          mret ("[" +:+ str_join isep texts +:+ "]")
      end
  | VDict d =>
      match depth with
      | O => Raise recursion_error
      | Datatypes.S k =>
          texts ← sequence (dump_member <$> map (λ kv, (kv.1, dump k kv.2)) d);
          mret ("{" +:+ str_join isep texts +:+ "}")
      end
  end.
End Dumps.

(** [json.dumps(v)] and [json.dumps(v, separators=(",", ":"))] *)
Definition dumps : nat → value → outcome string := dump ", " ": ".
Definition dumps_compact : nat → value → outcome string := dump "," ":".

Definition quoted (s : string) : string :=
  str_map (λ c, if Ascii.eqb c (chr 39) then dquote else c) s.
Example loads_nested :
  loads 10 (quoted " {'a' : [1, -20,{ }, [ ]], 'b':'x\u0041\n', 'a2': null,'b':true} ") =
  Ret (VDict [("a", VList [VInt 1; VInt (-20); VDict []; VList []]); ("b", VBool true);
              ("a2", VNone)]%string).
Proof. vm_compute. reflexivity. Qed.
Example loads_numbers :
  loads 10 "[0.1,1e3,-1.5E-2,1e999,10,123456789012345678901234567890,4.9e-324,0.30000000000000004]" =
  Ret (VList [VFloat (FFin false 7205759403792794 (-56)); VFloat (FFin false 8796093022208000 (-43));
    VFloat (FFin true 8646911284551352 (-59)); VFloat (FInf false); VInt 10;
    VInt 123456789012345678901234567890; VFloat (FFin false 1 (-1074));
    VFloat (FFin false 5404319552844596 (-54))]).
Proof. vm_compute. reflexivity. Qed.
Example loads_refusals :
  (λ s, loads 2 (quoted s)) <$> ["{'a':1,}"; "[1"; "01"; "{'a' 1}"; "'a"; ""; "nul"; "1.e5x"; "[[[1]]]"]%string =
  [Raise decode_error; Raise decode_error; Raise decode_error; Raise decode_error;
   Raise decode_error; Raise decode_error; Raise decode_error; Raise decode_error;
   Raise recursion_error].
Proof. vm_compute. reflexivity. Qed.
Example dumps_text :
  dumps 5 (VDict [("a", VList [VInt 1; VFloat (FFin false 3 (-1))]); ("b", VStr "x")]%string) =
  Ret (quoted "{'a': [1, 1.5], 'b': 'x'}").
Proof. vm_compute. reflexivity. Qed.

(** ** The scanner always ends *)

Local Abbreviation slen := String.length.

(** The exceptions of the decoder. *)
Definition json_error (e : exn) : bool :=
  match e with
  | ValueError _ | Unmodelled _ => true
  | OtherException n => String.eqb n "RecursionError"
  | _ => false
  end.

(** A scanner that consumes text, and needs no more fuel than it is given. *)
Definition consumes {A} (o : outcome (A * string)) (s : string) : Prop :=
  match o with
  | Ret p => (slen p.2 < slen s)%nat
  | Raise e => json_error e = true
  | NoFuel => False
  end.

Lemma consumes_weaken {A} (o : outcome (A * string)) s s' :
  consumes o s → (slen s ≤ slen s')%nat → consumes o s'.
Proof. destruct o as [[]| |]; simpl; [lia|done..]. Qed.

Lemma skip_ws_length s : (slen (skip_ws s) ≤ slen s)%nat.
Proof. induction s as [|c s IH]; simpl; [done|]. destruct (is_ws c); simpl; lia. Qed.

Lemma cons_text_consumes c (o : outcome (string * string)) s :
  consumes o s → consumes (cons_text c <$> o) s.
Proof. by destruct o as [[]| |]. Qed.

Lemma scan_string_consumes s : consumes (scan_string s) s.
Proof.
  remember (slen s) as n eqn:Hn. revert s Hn.
  induction (lt_wf n) as [n _ IH]; intros [|c s1] ->; cbn [scan_string]; [done|].
  destruct (Ascii.eqb c dquote); [simpl; lia|]. destruct (code c <? 32); [done|].
  assert (Hrec : ∀ s', (slen s' ≤ slen s1)%nat → consumes (scan_string s') (String c s1)).
  { intros s' Hs'. eapply consumes_weaken; [apply (IH (slen s')); simpl; lia|simpl; lia]. }
  destruct (Ascii.eqb c backslash); [|apply cons_text_consumes, Hrec; done].
  destruct s1 as [|e s2]; [done|]. simpl in Hrec. destruct (is_char 117 e).
  - destruct s2 as [|a [|b [|c' [|d s3]]]]; try done.
    destruct (hex4 a b c' d) as [n'|]; [|done]. destruct (n' <? 256); [|done].
    apply cons_text_consumes, Hrec. simpl. lia.
  - destruct (unescape e); [|done]. apply cons_text_consumes, Hrec. lia.
Qed.

Lemma take_digits_length s : (slen (take_digits s).1 + slen (take_digits s).2 = slen s)%nat.
Proof. induction s as [|c s IH]; simpl; [done|]. destruct (is_decimal c); simpl; lia. Qed.

Lemma scan_fraction_length s : (slen (scan_fraction s).2 ≤ slen s)%nat.
Proof.
  destruct s as [|c s]; simpl; [done|]. destruct (is_char 46 c); [|done].
  pose proof (take_digits_length s). destruct (take_digits s) as [ds r]. simpl in *.
  case_bool_decide; simpl; lia.
Qed.

Lemma scan_exponent_length s : (slen (scan_exponent s).2 ≤ slen s)%nat.
Proof.
  destruct s as [|c s]; simpl; [done|]. destruct (is_char 69 c || is_char 101 c); [|done].
  assert (∀ s2, (slen s2 ≤ slen s)%nat → ∀ neg : bool,
    (slen (let '(ds, r) := take_digits s2 in
           if bool_decide (ds = EmptyString) then (None, String c s)
           else (Some (if neg then - digits_value 0 ds else digits_value 0 ds), r)).2
     ≤ S (slen s))%nat) as Hd.
  { intros s2 Hs2 neg. pose proof (take_digits_length s2). destruct (take_digits s2) as [ds r].
    simpl in *. case_bool_decide; simpl; lia. }
  destruct s as [|g s2]; [simpl; lia|].
  destruct (is_char 45 g); [apply (λ h, Hd s2 h true); simpl; lia|].
  destruct (is_char 43 g); [apply (λ h, Hd s2 h false)|apply (λ h, Hd _ h false)]; simpl; lia.
Qed.

Lemma scan_integer_length s :
  (slen (scan_integer s).1 + slen (scan_integer s).2 = slen s)%nat.
Proof.
  destruct s as [|c s]; simpl; [done|]. destruct (is_char 48 c); [done|].
  apply (take_digits_length (String c s)).
Qed.

Lemma scan_number_consumes s : consumes (scan_number s) s.
Proof.
  unfold scan_number.
  set (start := match s with String c s' => if is_char 45 c then (true, s') else (false, s)
                | EmptyString => (false, s) end).
  assert (slen start.2 ≤ slen s)%nat as Hs.
  { unfold start. destruct s as [|c s]; [done|]. destruct (is_char 45 c); simpl; lia. }
  clearbody start. destruct start as [neg s1].
  pose proof (scan_integer_length s1) as Hi. destruct (scan_integer s1) as [ds s2]. simpl in *.
  case_bool_decide as Hds; [done|].
  assert (0 < slen ds)%nat by (destruct ds; [done|simpl; lia]).
  pose proof (scan_fraction_length s2). destruct (scan_fraction s2) as [frac s3]. simpl in *.
  pose proof (scan_exponent_length s3). destruct (scan_exponent s3) as [exp s4]. simpl in *.
  destruct frac, exp; simpl; try lia. destruct (int_of_digits ds); simpl; [lia|done].
Qed.

Lemma after_literal_length lit s r :
  after_literal lit s = Some r → (slen lit + slen r = slen s)%nat.
Proof.
  revert s. induction lit as [|a lit IH]; intros [|b s]; simpl; intros E; simplify_eq/=; [lia..|].
  destruct (Ascii.eqb a b); [|done]. apply IH in E. lia.
Qed.

Lemma scan_constant_length cs s v r :
  Forall (λ lv, 0 < slen lv.1)%nat cs → scan_constant cs s = Some (v, r) → (slen r < slen s)%nat.
Proof.
  induction 1 as [|[lit x] cs Hl _ IH]; simpl in *; [done|].
  destruct (after_literal lit s) as [r'|] eqn:E; [|done].
  intros [= -> ->]. apply after_literal_length in E. lia.
Qed.

Section ContainersEnd.
Context (scan : string → outcome (value * string)) (Hscan : ∀ s, consumes (scan s) s).

Lemma scan_members_consumes n d s : (slen s ≤ n)%nat → consumes (scan_members scan n d s) s.
Proof.
  revert d s. induction n as [|n IH]; intros d [|c s1] Hn; simpl in *; [done|lia|done|].
  destruct (negb (Ascii.eqb c dquote)); [done|].
  pose proof (scan_string_consumes s1) as H1. destruct (scan_string s1) as [[k r1]| |]; try done.
  simpl in *. pose proof (skip_ws_length r1). destruct (skip_ws r1) as [|c2 s2]; [done|].
  destruct (negb (is_char 58 c2)); [done|]. pose proof (skip_ws_length s2).
  pose proof (Hscan (skip_ws s2)) as H2. destruct (scan (skip_ws s2)) as [[v r2]| |]; try done.
  simpl in *. pose proof (skip_ws_length r2). destruct (skip_ws r2) as [|c3 s3]; [done|].
  destruct (is_char 125 c3); [simpl in *; lia|]. destruct (is_char 44 c3); [|done].
  pose proof (skip_ws_length s3). simpl in *.
  eapply consumes_weaken; [apply IH; lia|simpl; lia].
Qed.

Lemma scan_elements_consumes n acc s :
  (0 < n)%nat → (slen s ≤ n)%nat → consumes (scan_elements scan n acc s) s.
Proof.
  revert acc s. induction n as [|n IH]; intros acc s H0 Hn; simpl; [lia|].
  pose proof (Hscan s) as H1. destruct (scan s) as [[v r]| |]; try done. simpl in *.
  pose proof (skip_ws_length r). destruct (skip_ws r) as [|c s2]; [done|]. simpl in *.
  destruct (is_char 93 c); [simpl; lia|]. destruct (is_char 44 c); [|done].
  pose proof (skip_ws_length s2). eapply consumes_weaken; [apply IH; lia|lia].
Qed.
End ContainersEnd.

Lemma scan_once_consumes depth s : consumes (scan_once depth s) s.
Proof.
  revert s. induction depth as [|k IH]; intros [|c s1]; cbn [scan_once]; try done;
    (destruct (Ascii.eqb c dquote);
     [pose proof (scan_string_consumes s1) as Hs;
      destruct (scan_string s1) as [[]| |]; [simpl in *; lia|done|done]|]);
    (destruct (is_char 123 c); [|destruct (is_char 91 c)]); try done.
  3: pose proof (skip_ws_length s1); destruct (skip_ws s1) as [|c2 s2]; [done|];
     destruct (is_char 93 c2); [simpl in *; lia|]; simpl in *;
     eapply consumes_weaken; [apply scan_elements_consumes; [done|simpl; lia..]|simpl; lia].
  2: pose proof (skip_ws_length s1); destruct (skip_ws s1) as [|c2 s2]; [done|];
     destruct (is_char 125 c2); [simpl in *; lia|]; simpl in *;
     eapply consumes_weaken; [apply scan_members_consumes; [done|simpl; lia]|simpl; lia].
  all: destruct (scan_constant constants _) as [[v r]|] eqn:E;
    [eapply scan_constant_length in E; [exact E|by repeat constructor; simpl; lia]|];
    apply scan_number_consumes.
Qed.

(** Decoding always ends, with a value or an exception of its own. *)
Definition ends {A} (o : outcome A) : Prop :=
  match o with Ret _ => True | Raise e => json_error e = true | NoFuel => False end.

Lemma loads_ends depth s : ends (loads depth s).
Proof.
  unfold loads. pose proof (scan_once_consumes depth (skip_ws s)).
  destruct (scan_once depth (skip_ws s)) as [[v r]| |]; simpl in *; [|done..].
  by destruct (skip_ws r).
Qed.

Lemma utf8_decode_ends s : ends (utf8_decode s).
Proof.
  assert (∀ c (o : outcome string), ends o → ends (String c <$> o)) as Hcons by by intros ? [].
  remember (slen s) as n eqn:Hn. revert s Hn.
  induction (lt_wf n) as [n _ IH]; intros [|c s1] ->; cbn [utf8_decode]; [done|].
  destruct (code c <? 128); [apply Hcons, (IH (slen s1)); simpl; lia|].
  destruct ((code c <? 194) || (244 <? code c)); [done|]. destruct s1 as [|d s2]; [done|].
  destruct (negb _); [done|]. destruct (code c <? 196); [|done].
  apply Hcons, (IH (slen s2)); simpl; lia.
Qed.

Lemma loads_bytes_ends depth b : ends (loads_bytes depth b).
Proof.
  unfold loads_bytes. destruct (_ || _ || _); [done|].
  pose proof (utf8_decode_ends
    (default b (after_literal (String (chr 239) (String (chr 187) (String (chr 191) EmptyString))) b))).
  destruct (utf8_decode _); simpl in *; [apply loads_ends|done..].
Qed.

(** ** Decoding inverts encoding *)

(** Values without floats whose dictionaries are Python dictionaries. *)
Fixpoint plain (v : value) : bool :=
  match v with
  | VFloat _ => false
  | VList l => forallb plain l
  | VDict d => bool_decide (NoDup d.*1) && forallb (λ kv, plain kv.2) d
  | _ => true
  end.

(** What may follow a number, and how the text of a value starts. *)
Definition follows (s : string) : bool :=
  match s with
  | String c _ => negb (is_decimal c || is_char 46 c || is_char 69 c || is_char 101 c)
  | EmptyString => true
  end.
Definition opens (t : string) : bool :=
  match t with
  | String c _ => negb (is_ws c || is_char 93 c || is_char 125 c)
  | EmptyString => false
  end.

Lemma skip_ws_app w s : str_forall is_ws w = true → skip_ws (w +:+ s) = skip_ws s.
Proof.
  induction w as [|c w IH]; [done|]. change (String c w +:+ s) with (String c (w +:+ s)).
  simpl. intros [-> Hw]%andb_true_iff. auto.
Qed.

Lemma skip_ws_opens t r : opens t = true → skip_ws (t +:+ r) = t +:+ r.
Proof.
  destruct t as [|c t]; [done|]. change (String c t +:+ r) with (String c (t +:+ r)).
  simpl. by destruct (is_ws c).
Qed.

(** Strings. *)
Lemma scan_string_char c r : scan_string (ascii_char c +:+ r) = cons_text c <$> scan_string r.
Proof. destruct c as [[] [] [] [] [] [] [] []]; reflexivity. Qed.

Lemma scan_string_text s r :
  scan_string (str_concat_map ascii_char s +:+ String dquote r) = Ret (s, r).
Proof.
  induction s as [|c s IH]; [done|]. cbn [str_concat_map].
  by rewrite append_assoc, scan_string_char, IH.
Qed.

(** Integers. *)
Lemma take_digits_app ds r :
  str_forall is_decimal ds = true →
  match r with String c _ => is_decimal c = false | EmptyString => True end →
  take_digits (ds +:+ r) = (ds, r).
Proof.
  intros Hds Hr. induction ds as [|c ds IH].
  - change (EmptyString +:+ r) with r. destruct r as [|c r]; simpl; [done|by rewrite Hr].
  - simpl in Hds. apply andb_true_iff in Hds as [Hc Hds].
    change (String c ds +:+ r) with (String c (ds +:+ r)). simpl. by rewrite Hc, IH.
Qed.

Lemma int_head n :
  0 ≤ n → ∃ c s, zero_padded 1 n = String c s ∧ is_decimal c = true ∧
    (is_char 48 c = true → s = EmptyString).
Proof.
  intros Hn. unfold zero_padded.
  pose proof (num_digits_fuel_pos (Z.to_nat (Z.log2 n + 1)) n) as Hpos. fold (num_digits n) in Hpos.
  replace (Nat.max 1 (num_digits n)) with (num_digits n) by lia.
  destruct (num_digits n) as [|w] eqn:E; [lia|]. cbn [fixed_digits].
  pose proof (digit_bound n (Z.of_nat w)) as Hd.
  eexists _, _. split; [done|]. split.
  { unfold is_decimal. rewrite code_digit by done. apply andb_true_intro; split; apply Z.leb_le; lia. }
  unfold is_char. rewrite code_digit by done. intros H0%Z.eqb_eq.
  destruct (Z.eq_dec n 0) as [->|].
  { vm_compute in E. by simplify_eq. }
  exfalso. pose proof (num_digits_lower n w ltac:(lia) E) as Hlow.
  pose proof (num_digits_bound n Hn) as Hup. rewrite E in Hup.
  rewrite Nat2Z.inj_succ, Z.pow_succ_r in Hup by lia.
  assert (0 < 10 ^ Z.of_nat w) by (apply Z.pow_pos_nonneg; lia).
  rewrite Z.mod_small in H0.
  - assert (1 ≤ n / 10 ^ Z.of_nat w) by (apply Z.div_le_lower_bound; lia). lia.
  - split; [apply Z.div_pos; lia|apply Z.div_lt_upper_bound; lia].
Qed.

Lemma scan_integer_text n r :
  0 ≤ n → follows r = true → scan_integer (zero_padded 1 n +:+ r) = (zero_padded 1 n, r).
Proof.
  intros Hn Hr. destruct (int_head n Hn) as (c & s & E & Hc & H0).
  assert (match r with String c _ => is_decimal c = false | EmptyString => True end) as Hr'.
  { destruct r as [|d r]; [done|]. simpl in Hr. by destruct (is_decimal d). }
  pose proof (fixed_digits_decimal (Nat.max 1 (num_digits n)) n) as Hd.
  fold (zero_padded 1 n) in Hd.
  rewrite <- (take_digits_app (zero_padded 1 n) r) by done.
  rewrite E. change (String c s +:+ r) with (String c (s +:+ r)). cbn [scan_integer].
  destruct (is_char 48 c) eqn:E0; [|done]. rewrite H0 by done. simpl. rewrite Hc.
  change (EmptyString +:+ r) with r. destruct r as [|d r]; simpl; [done|by rewrite Hr'].
Qed.

Lemma scan_rest r : follows r = true → scan_fraction r = (None, r) ∧ scan_exponent r = (None, r).
Proof.
  destruct r as [|c r]; [done|]. simpl. unfold is_char, is_decimal in *.
  destruct (code c =? 46), (code c =? 69), (code c =? 101), (48 <=? code c), (code c <=? 57);
    simpl; done.
Qed.

(** Separators: the delimiter, then white space. *)
Definition separates (c : Z) (sep : string) : Prop :=
  ∃ w, sep = String (chr c) w ∧ str_forall is_ws w = true.

(** [t] is the text of [v] to a scanner. *)
Definition text_for (scan : string → outcome (value * string)) (t : string) (v : value) : Prop :=
  opens t = true ∧ ∀ r, follows r = true → scan (t +:+ r) = Ret (v, r).

Lemma skip_delimiter c s : is_ws c = false → skip_ws (String c s) = String c s.
Proof. simpl. by intros ->. Qed.

Section Joined.
Context (scan : string → outcome (value * string)) (isep ksep : string).
Context (Hisep : separates 44 isep) (Hksep : separates 58 ksep).

Lemma scan_elements_join n acc ts vs r :
  Forall2 (text_for scan) ts vs → ts ≠ [] → (length ts ≤ n)%nat →
  scan_elements scan n acc (str_join isep ts +:+ String (chr 93) r) = Ret (VList (acc ++ vs), r).
Proof.
  intros Hts. revert n acc. induction Hts as [|t v ts vs [_ Ht] Hts IH]; intros n acc Hne Hn; [done|].
  destruct n as [|n]; simpl in Hn; [lia|]. cbn [scan_elements].
  destruct Hts as [|t2 v2 ts vs [Ho Ht2] Hts].
  - cbn [str_join]. by rewrite (Ht (String (chr 93) r)).
  - change (str_join isep (t :: t2 :: ts)) with (t +:+ isep +:+ str_join isep (t2 :: ts)).
    destruct Hisep as (w & -> & Hw). rewrite !append_assoc, append_cons.
    rewrite Ht by done. cbn [mbind outcome_bind fst snd].
    rewrite skip_delimiter by done. cbv iota.
    change (is_char 93 (chr 44)) with false. change (is_char 44 (chr 44)) with true. cbv iota.
    rewrite skip_ws_app by done.
    assert (opens (str_join (String (chr 44) w) (t2 :: ts)) = true) as Hj.
    { destruct t2 as [|c t2]; [done|]. by destruct ts. }
    rewrite skip_ws_opens by done. rewrite IH by (done || simpl in *; lia).
    by rewrite <- (assoc_L (++)).
Qed.

Definition member_for (t : string) (kv : string * value) : Prop :=
  ∃ tv, t = ascii_text kv.1 +:+ ksep +:+ tv ∧ text_for scan tv kv.2.

Lemma scan_member n d k tv v r :
  text_for scan tv v → follows r = true →
  scan_members scan (S n) d ((ascii_text k +:+ ksep +:+ tv) +:+ r) =
  match skip_ws r with
  | String c s => if is_char 125 c then Ret (VDict (dict_set k v d), s)
                  else if is_char 44 c then scan_members scan n (dict_set k v d) (skip_ws s)
                  else Raise decode_error
  | EmptyString => Raise decode_error
  end.
Proof.
  intros [Ho Ht] Hr. destruct Hksep as (w & -> & Hw). unfold ascii_text.
  autorewrite with a2a_simp. cbn [scan_members]. simpl negb. cbv iota.
  rewrite scan_string_text. cbn [mbind outcome_bind fst snd].
  rewrite skip_delimiter by done. cbv iota. change (is_char 58 (chr 58)) with true.
  cbn [negb]. cbv iota. rewrite skip_ws_app, skip_ws_opens, Ht by done.
  cbn [mbind outcome_bind fst snd]. by destruct (skip_ws r).
Qed.

Lemma scan_members_join n d ts kvs r :
  Forall2 member_for ts kvs → ts ≠ [] → (length ts ≤ n)%nat → NoDup (d ++ kvs).*1 →
  scan_members scan n d (str_join isep ts +:+ String (chr 125) r) = Ret (VDict (d ++ kvs), r).
Proof.
  intros Hts. revert n d.
  induction Hts as [|t [k v] ts kvs (tv & -> & Hv) Hts IH]; intros n d Hne Hn Hnd; [done|].
  destruct n as [|n]; simpl in Hn; [lia|]. simpl fst in *. simpl snd in *.
  assert (dict_set k v d = d ++ [(k, v)]) as Hset.
  { apply dict_set_snoc. unfold dict_keys. rewrite fmap_app in Hnd.
    apply NoDup_app in Hnd as (_ & Hd & _). intros ?. eapply Hd; [done|left]. }
  destruct Hts as [|t2 kv2 ts kvs Hm Hts].
  - cbn [str_join]. rewrite (scan_member _ _ _ _ v) by done. cbn. by rewrite Hset.
  - match goal with |- context [str_join isep (?a :: ?b :: ?l)] =>
      change (str_join isep (a :: b :: l)) with (a +:+ isep +:+ str_join isep (b :: l)) end.
    assert (Hj : opens (str_join isep (t2 :: ts)) = true).
    { destruct Hm as (tv2 & -> & _). unfold ascii_text. by destruct ts; rewrite ?append_cons. }
    pose proof Hisep as (w & E & Hw). rewrite (append_assoc (ascii_text k +:+ ksep +:+ tv)), (append_assoc isep).
    rewrite (scan_member _ _ _ _ v) by (done || by rewrite E). rewrite E at 1. rewrite append_cons.
    rewrite skip_delimiter by done. cbv iota.
    change (is_char 125 (chr 44)) with false. change (is_char 44 (chr 44)) with true. cbv iota.
    rewrite skip_ws_app, skip_ws_opens by done. rewrite Hset, IH; [by rewrite <- (assoc_L (++))|done|simpl in *; lia|].
    by rewrite <- (assoc_L (++)).
Qed.
End Joined.

Lemma join_length sep ts :
  Forall (λ t, opens t = true) ts → (length ts ≤ slen (str_join sep ts))%nat.
Proof.
  induction 1 as [|t ts Ht Hts IH]; [done|]. destruct t as [|c t]; [done|].
  destruct ts as [|t2 ts]; [simpl; lia|].
  change (str_join sep (String c t :: t2 :: ts))
    with (String c t +:+ (sep +:+ str_join sep (t2 :: ts))).
  rewrite !append_length. simpl in *. lia.
Qed.

(** A digit, or a minus sign and a digit, starts a number. *)
Lemma scan_once_number depth c s :
  is_decimal c = true →
  scan_once depth (String c s) = scan_number (String c s) ∧
  scan_once depth (String (chr 45) (String c s)) = scan_number (String (chr 45) (String c s)).
Proof.
  intros Hc. destruct c as [[] [] [] [] [] [] [] []]; try discriminate Hc; destruct depth; done.
Qed.

Lemma opens_decimal c s : is_decimal c = true → opens (String c s) = true.
Proof. intros Hc. destruct c as [[] [] [] [] [] [] [] []]; try discriminate Hc; done. Qed.

(** The text of an integer is read back. *)
Lemma scan_once_int depth n t : int_text n = Ret t → text_for (scan_once depth) t (VInt n).
Proof.
  unfold int_text. destruct (Z.ltb_spec max_str_digits (Z.of_nat (num_digits (Z.abs n)))) as [|Hlim];
    [done|]. intros [= <-]. unfold str_of_int.
  set (a := zero_padded 1 (Z.abs n)).
  assert (Habs : (if n <? 0 then "-" +:+ zero_padded 1 (- n) else zero_padded 1 n)
                 = if n <? 0 then String (chr 45) a else a).
  { unfold a. destruct (Z.ltb_spec n 0); [|by rewrite Z.abs_eq by lia].
    rewrite Z.abs_neq by lia. done. }
  rewrite Habs. clear Habs.
  destruct (int_head (Z.abs n) ltac:(lia)) as (c & s & E & Hc & _). fold a in E.
  assert (Hint : int_of_digits a = Some (Z.abs n)).
  { apply int_of_zero_padded; [lia| |unfold max_str_digits; lia].
    eapply Z.lt_le_trans; [apply num_digits_bound; lia|]. apply Z.pow_le_mono_r; lia. }
  assert (Hnum : ∀ r, follows r = true → ∀ neg : bool,
    scan_number (if neg then String (chr 45) (a +:+ r) else a +:+ r) =
    Ret (VInt (if neg then - Z.abs n else Z.abs n), r)).
  { intros r Hr neg. unfold scan_number.
    assert (Hsign : (match (if neg then String (chr 45) (a +:+ r) else a +:+ r) with
             | String c s' => if is_char 45 c then (true, s')
                              else (false, if neg then String (chr 45) (a +:+ r) else a +:+ r)
             | EmptyString => (false, if neg then String (chr 45) (a +:+ r) else a +:+ r)
             end) = (neg, a +:+ r)).
    { destruct neg; [done|]. rewrite E, append_cons.
      destruct (is_char 45 c) eqn:E45; [|done]. exfalso. unfold is_char, is_decimal in *.
      apply Z.eqb_eq in E45. rewrite E45 in Hc. done. }
    rewrite Hsign. unfold a at 1. rewrite scan_integer_text by (lia || done). fold a.
    rewrite bool_decide_false by by rewrite E.
    destruct (scan_rest r Hr) as [-> ->]. by rewrite Hint. }
  rewrite E in *. destruct (Z.ltb_spec n 0).
  - split; [done|]. intros r Hr. rewrite !append_cons, (proj2 (scan_once_number depth c _ Hc)).
    etrans; [exact (Hnum r Hr true)|]. do 3 f_equal. lia.
  - split; [by apply opens_decimal|]. intros r Hr.
    rewrite append_cons, (proj1 (scan_once_number depth c _ Hc)).
    etrans; [exact (Hnum r Hr false)|]. do 3 f_equal. lia.
Qed.

Lemma sequence_Forall2 {A} (l : list (outcome A)) ts :
  sequence l = Ret ts → Forall2 (λ o t, o = Ret t) l ts.
Proof.
  revert ts. induction l as [|[a|e|] l IH]; intros ts E; [by injection E as <-| |done..].
  cbn in E. destruct (sequence l) as [r| |]; [|done..]. injection E as <-. constructor; auto.
Qed.

Lemma opens_app t r : opens t = true →
  ∃ c s, t +:+ r = String c s ∧ is_ws c = false ∧ is_char 93 c = false ∧ is_char 125 c = false.
Proof.
  destruct t as [|c t]; [done|]. simpl. intros Ho. exists c, (t +:+ r). split; [done|].
  by destruct (is_ws c), (is_char 93 c), (is_char 125 c).
Qed.

Lemma opens_join sep t ts :
  Forall (λ t, opens t = true) (t :: ts) → opens (str_join sep (t :: ts)) = true.
Proof. intros [Ht _]%Forall_cons. destruct t; [done|]. by destruct ts. Qed.

(** ** The text is printable ASCII *)

Definition is_printable_ascii (c : ascii) : bool := (32 <=? code c) && (code c <? 128).

Lemma ascii_char_ascii c : str_forall is_printable_ascii (ascii_char c) = true.
Proof. destruct c as [[] [] [] [] [] [] [] []]; vm_compute; reflexivity. Qed.

Lemma ascii_text_ascii s : str_forall is_printable_ascii (ascii_text s) = true.
Proof.
  unfold ascii_text. change (String dquote ?x) with (String dquote EmptyString +:+ x).
  rewrite !str_forall_app. simpl. rewrite andb_true_r.
  induction s as [|c s IH]; [done|]. cbn [str_concat_map].
  by rewrite str_forall_app, ascii_char_ascii, IH.
Qed.

Lemma utf8_id s : str_forall is_printable_ascii s = true → utf8 s = s.
Proof.
  unfold utf8. induction s as [|c s IH]; [done|]. cbn [str_forall str_concat_map].
  intros [[_ Hc]%andb_true_iff Hs]%andb_true_iff. rewrite IH by done. unfold utf8_char. by rewrite Hc.
Qed.

Lemma utf8_decode_ascii s :
  str_forall is_printable_ascii s = true → utf8_decode s = Ret s.
Proof.
  induction s as [|c s IH]; [done|]. cbn [str_forall utf8_decode].
  intros [[_ Hc]%andb_true_iff Hs]%andb_true_iff. by rewrite Hc, IH.
Qed.

(** ASCII JSON text is decoded as UTF-8. *)
Lemma loads_bytes_ascii depth s :
  str_forall is_printable_ascii s = true →
  loads_bytes depth s = loads depth s.
Proof.
  intros Hs. unfold loads_bytes.
  assert (∀ a b, 128 <= code a → after_literal (String a b) s = None) as Hlit.
  { intros a b Ha. destruct s as [|c s]; [done|]. simpl in *. unfold is_printable_ascii in Hs. apply andb_true_iff in Hs as [Hc _].
    destruct (Ascii.eqb_spec a c) as [->|]; [|done]. bool_to_prop. lia. }
  rewrite !Hlit by (vm_compute; done). rewrite !bool_decide_false by (intros [? [=]]).
  assert (has_char (chr 0) (String.substring 0 2 s) = false) as ->.
  { assert (∀ c, is_printable_ascii c = true → Ascii.eqb c (chr 0) = false) as Hn.
    { intros c Hc. destruct (Ascii.eqb_spec c (chr 0)) as [->|]; [|done]. vm_compute in Hc. done. }
    destruct s as [|a [|b s]]; simpl in *; [done|..]; apply andb_true_iff in Hs as [Ha Hs].
    - by rewrite Hn.
    - apply andb_true_iff in Hs as [Hb Hs]. rewrite !Hn by done. by destruct s. }
  simpl. by rewrite utf8_decode_ascii.
Qed.

Section RoundTrip.
Context (isep ksep : string) (Hisep : separates 44 isep) (Hksep : separates 58 ksep).

Lemma Forall2_opens scan ts vs : Forall2 (text_for scan) ts vs → Forall (λ t, opens t = true) ts.
Proof. induction 1 as [|t v ts vs [Ho _] _ IH]; by constructor. Qed.

Lemma scan_list depth l ts :
  Forall2 (text_for (scan_once depth)) ts l →
  text_for (scan_once (S depth)) ("[" +:+ str_join isep ts +:+ "]") (VList l).
Proof.
  intros Hts. split; [done|]. intros r Hr.
  change ("[" +:+ str_join isep ts +:+ "]") with (String (chr 91) (str_join isep ts +:+ "]")).
  rewrite append_cons, append_assoc. change ("]" +:+ r) with (String (chr 93) r).
  set (body := str_join isep ts +:+ String (chr 93) r).
  change (scan_once (S depth) (String (chr 91) body)) with
    (match skip_ws body with
     | String c2 s2 => if is_char 93 c2 then mret (VList [], s2)
                       else scan_elements (scan_once depth) (slen body) [] (String c2 s2)
     | EmptyString => Raise decode_error
     end).
  pose proof (Forall2_opens _ _ _ Hts) as Ho. pose proof (join_length isep ts Ho) as Hlen.
  destruct ts as [|t ts]; [by inversion Hts|].
  destruct (opens_app (str_join isep (t :: ts)) (String (chr 93) r)) as (c & s & E & Ews & Ec & _).
  { by apply opens_join. }
  fold body in E. rewrite E, skip_delimiter by done. rewrite Ec, <- E. unfold body.
  rewrite scan_elements_join with (vs := l); [done..|]. rewrite append_length. lia.
Qed.

Lemma scan_dict depth d ts :
  NoDup d.*1 → Forall2 (member_for (scan_once depth) ksep) ts d →
  text_for (scan_once (S depth)) ("{" +:+ str_join isep ts +:+ "}") (VDict d).
Proof.
  intros Hnd Hts. split; [done|]. intros r Hr.
  change ("{" +:+ str_join isep ts +:+ "}") with (String (chr 123) (str_join isep ts +:+ "}")).
  rewrite append_cons, append_assoc. change ("}" +:+ r) with (String (chr 125) r).
  set (body := str_join isep ts +:+ String (chr 125) r).
  change (scan_once (S depth) (String (chr 123) body)) with
    (match skip_ws body with
     | String c2 s2 => if is_char 125 c2 then mret (VDict [], s2)
                       else scan_members (scan_once depth) (slen body) [] (String c2 s2)
     | EmptyString => Raise decode_error
     end).
  assert (Forall (λ t, opens t = true) ts) as Ho.
  { clear -Hts. induction Hts as [|t kv ts d (tv & -> & _) _ IH]; by constructor. }
  pose proof (join_length isep ts Ho) as Hlen. destruct ts as [|t ts]; [by inversion Hts|].
  destruct (opens_app (str_join isep (t :: ts)) (String (chr 125) r)) as (c & s & E & Ews & _ & Ec).
  { by apply opens_join. }
  fold body in E. rewrite E, skip_delimiter by done. rewrite Ec, <- E. unfold body.
  rewrite (scan_members_join _ isep ksep) with (kvs := d); [done..| |done]. rewrite append_length. lia.
Qed.

(** What is encoded is read back, whatever follows it. *)
Lemma scan_dump v : ∀ depth t,
  plain v = true → dump isep ksep depth v = Ret t → text_for (scan_once depth) t v.
Proof.
  induction v as [|b|n|f|s|l IH|d IH] using value_nested_ind; intros depth t Hp Ht.
  - injection Ht as <-. split; [done|]. by destruct depth.
  - injection Ht as <-. by destruct b; (split; [done|]; destruct depth).
  - by apply scan_once_int.
  - done.
  - injection Ht as <-. split; [done|]. intros r _. unfold ascii_text.
    autorewrite with a2a_simp. destruct depth; cbn [scan_once]; simpl Ascii.eqb; cbv iota;
      by rewrite scan_string_text.
  - destruct depth as [|k]; [done|]. cbn [dump] in Ht.
    destruct (sequence _) as [ts| |] eqn:E; [|done..]. injection Ht as <-.
    apply scan_list. apply sequence_Forall2, Forall2_fmap_l in E. clear -E IH Hp.
    simpl in Hp. induction E as [|x t l ts Hx E IHE]; [constructor|].
    simpl in Hp. apply andb_true_iff in Hp as [? ?]. apply Forall_cons in IH as [? ?].
    constructor; auto.
  - destruct depth as [|k]; [done|]. cbn [dump] in Ht.
    destruct (sequence _) as [ts| |] eqn:E; [|done..]. injection Ht as <-.
    cbn [plain] in Hp. apply andb_true_iff in Hp as [Hnd%bool_decide_eq_true Hp].
    apply scan_dict; [done|]. clear Hnd.
    apply sequence_Forall2 in E. rewrite Forall2_fmap_l, Forall2_fmap_l in E.
    induction E as [|[k' x] t l ts Hx E IHE]; [constructor|].
    simpl in Hp. apply andb_true_iff in Hp as [? ?]. apply Forall_cons in IH as [Hh ?].
    constructor; [|auto]. cbn in Hx, Hh. destruct (dump isep ksep k x) as [tv| |] eqn:Ex; [|done..].
    injection Hx as <-. exists tv. split; [done|]. auto.
Qed.

Lemma int_text_ascii n t : int_text n = Ret t → str_forall is_printable_ascii t = true.
Proof.
  unfold int_text. destruct (_ <? _); [done|]. intros [= <-].
  assert (∀ w k, str_forall is_printable_ascii (fixed_digits w k) = true) as Hd.
  { intros w k. eapply str_forall_impl; [|apply fixed_digits_decimal].
    intros c. unfold is_decimal, is_printable_ascii. intros. bool_to_prop.
    apply andb_true_intro; split; [apply Z.leb_le|apply Z.ltb_lt]; lia. }
  unfold str_of_int, zero_padded. destruct (n <? 0); [|apply Hd].
  change ("-" +:+ ?x) with (String (chr 45) x). simpl. apply Hd.
Qed.

Lemma join_ascii sep ts :
  str_forall is_printable_ascii sep = true →
  Forall (λ t, str_forall is_printable_ascii t = true) ts →
  str_forall is_printable_ascii (str_join sep ts) = true.
Proof.
  intros Hsep. induction 1 as [|t ts Ht Hts IH]; [done|]. destruct Hts as [|t2 ts Ht2 Hts]; [done|].
  change (str_join sep (t :: t2 :: ts)) with (t +:+ (sep +:+ str_join sep (t2 :: ts))).
  by rewrite !str_forall_app, Ht, Hsep, IH.
Qed.

(** The separators are printable: spaces are their only white space. *)
Context (Hi : str_forall is_printable_ascii isep = true).
Context (Hk : str_forall is_printable_ascii ksep = true).

Lemma dump_ascii v : ∀ depth t,
  plain v = true → dump isep ksep depth v = Ret t → str_forall is_printable_ascii t = true.
Proof.
  induction v as [|b|n|f|s|l IH|d IH] using value_nested_ind; intros depth t Hp Ht.
  - by injection Ht as <-.
  - injection Ht as <-. by destruct b.
  - by eapply int_text_ascii.
  - done.
  - injection Ht as <-. apply ascii_text_ascii.
  - destruct depth as [|k]; [done|]. cbn [dump] in Ht.
    destruct (sequence _) as [ts| |] eqn:E; [|done..]. injection Ht as <-.
    rewrite !str_forall_app, join_ascii; [done|done|].
    apply sequence_Forall2 in E. rewrite Forall2_fmap_l in E. simpl in Hp. clear -E IH Hp.
    induction E as [|x t l ts Hx E IHE]; [constructor|].
    simpl in Hp. apply andb_true_iff in Hp as [? ?]. apply Forall_cons in IH as [Hh ?].
    constructor; [eapply Hh; done|auto].
  - destruct depth as [|k]; [done|]. cbn [dump] in Ht.
    destruct (sequence _) as [ts| |] eqn:E; [|done..]. injection Ht as <-.
    rewrite !str_forall_app, join_ascii; [done|done|].
    cbn [plain] in Hp. apply andb_true_iff in Hp as [_ Hp].
    apply sequence_Forall2 in E. rewrite Forall2_fmap_l, Forall2_fmap_l in E.
    clear -E IH Hp Hk.
    induction E as [|[k' x] t l ts Hx E IHE]; [constructor|].
    simpl in Hp. apply andb_true_iff in Hp as [? ?]. apply Forall_cons in IH as [Hh ?].
    constructor; [|auto]. cbn in Hx, Hh. destruct (dump isep ksep k x) as [tv| |] eqn:Ex; [|done..].
    injection Hx as <-. rewrite !str_forall_app, ascii_text_ascii, Hk. by eapply Hh.
Qed.

Lemma loads_dump depth v t :
  plain v = true → dump isep ksep depth v = Ret t → loads depth t = Ret v.
Proof.
  intros Hp Ht. destruct (scan_dump v depth t Hp Ht) as [Ho Hs].
  pose proof (skip_ws_opens t EmptyString Ho) as Hskip.
  specialize (Hs EmptyString eq_refl). rewrite append_nil_r in *.
  unfold loads. by rewrite Hskip, Hs.
Qed.
End RoundTrip.

(** What [dumps] writes is the same text as bytes, and is read back. *)
Lemma loads_bytes_dump isep ksep depth v t :
  separates 44 isep → separates 58 ksep →
  str_forall is_printable_ascii isep = true → str_forall is_printable_ascii ksep = true →
  plain v = true → dump isep ksep depth v = Ret t →
  utf8 t = t ∧ t ≠ EmptyString ∧ loads_bytes depth t = Ret v.
Proof.
  intros Hi Hk Hia Hka Hp Ht.
  pose proof (dump_ascii isep ksep Hia Hka v depth t Hp Ht) as Ha. split; [by apply utf8_id|].
  destruct (scan_dump isep ksep Hi Hk v depth t Hp Ht) as [Ho _].
  split; [by destruct t|]. rewrite loads_bytes_ascii by done. by eapply loads_dump.
Qed.

(** [json.loads] inverts [json.dumps]: any value without floats that [dumps]
    can write, with the default or with the compact separators, is read back
    equal from its text, under the same limit on nesting. Strings keep every
    character through the escapes, integers every digit, dictionaries their
    members and their order. *)
Lemma loads_dumps depth v t :
  plain v = true → dumps depth v = Ret t ∨ dumps_compact depth v = Ret t →
  loads depth t = Ret v.
Proof.
  intros Hp [Ht|Ht]; eapply loads_dump; try done.
  - by exists " "%string.
  - by exists " "%string.
  - by exists EmptyString.
  - by exists EmptyString.
Qed.
