(* ===== verification/Pagination.v ===== *)
(** * Page tokens and list pages ([pagination.py])

    A page token is base64url of [{"after": id}], the id of the last item of the
    page before. The theorems: tokens round trip, a token is decoded or refused
    with [INVALID_CURSOR], and following the tokens over a list that changes
    between the calls visits every item that stays in it exactly once. *)

From S2P Require Import Prelude PyStr Value Errors Effects Dynamic Base64 Canonical Json.
Open Scope Z_scope.

(** [try: o except (ValueError, KeyError, TypeError) as exc: raise e] *)
Definition is_value_error (e : exn) : bool :=
  match e with ValueError _ | KeyError _ | TypeError _ => true | _ => false end.
Definition rewrap {A} (o : outcome A) (e : exn) : outcome A :=
  match o with Raise e' => if is_value_error e' then Raise e else Raise e' | _ => o end.

Definition invalid_token (token : string) : exn :=
  A2AEventsError INVALID_CURSOR "Invalid page token." [("pageToken"%string, VStr token)].

Section Pagination.
(** The interpreter's limit on the nesting of JSON. *)
Context (depth : nat).

(** [encode_page_token(after)] *)
Definition encode_page_token (after : string) : outcome string :=
  raw ← dumps_compact depth (VDict [("after"%string, VStr after)]);
  mret (b64url (utf8 raw)).

(** [decode_page_token(token)] *)
Definition decode_page_token (token : option string) : outcome (option string) :=
  match token with
  | None | Some EmptyString => mret None
  | Some t =>
      after ← rewrap
        (raw ← urlsafe_b64decode (t +:+ padding t);
         data ← loads_bytes depth raw;
         get_item data "after") (invalid_token t);
      match after with
      | VStr s => mret (Some s)
      | _ => Raise (invalid_token t)
      end
  end.

(** [l.index(x)] *)
Fixpoint index_of (x : string) (l : list string) : option nat :=
  match l with
  | [] => None
  | y :: l' => if bool_decide (x = y) then Some O else S <$> index_of x l'
  end.

(** [paginate(items, key, page_token, page_size)] *)
Definition paginate {A} (items : list A) (key : A → string) (page_token : option string)
    (page_size : Z) : outcome (list A * option string) :=
  after ← decode_page_token page_token;
  let n := Z.of_nat (length items) in
  let start := match after with
               | None => 0
               | Some a => match index_of a (key <$> items) with
                           | Some i => Z.of_nat i + 1
                           | None => n
                           end
               end in
  let page := py_slice start (start + page_size) items in
  match last page with
  | Some x => if start + page_size <? n
              then t ← encode_page_token (key x); mret (page, Some t)
              else mret (page, None)
  | None => mret (page, None)
  end.
End Pagination.

Example paginate_three :
  paginate 10 ["a"; "b"; "c"]%string id None 2 = Ret (["a"; "b"]%string, Some "eyJhZnRlciI6ImIifQ"%string) ∧
  paginate 10 ["a"; "b"; "c"]%string id (Some "eyJhZnRlciI6ImIifQ"%string) 2 = Ret (["c"]%string, None) ∧
  paginate 10 ["a"; "b"; "c"]%string id (Some "e30"%string) 2 = Raise (invalid_token "e30") ∧
  paginate 10 ["a"; "b"; "c"]%string id None (-1) = Ret (["a"; "b"]%string, Some "eyJhZnRlciI6ImIifQ"%string).
Proof. vm_compute. done. Qed.

(** ** Tokens *)

Lemma token_text_ascii after :
  str_forall is_printable_ascii
    ("{" +:+ (ascii_text "after" +:+ ":" +:+ ascii_text after) +:+ "}") = true.
Proof. rewrite !str_forall_app, !ascii_text_ascii. done. Qed.

(** A token is never blank and decodes to the id it holds. *)
Lemma page_token_roundtrip depth after : (0 < depth)%nat →
  ∃ t, encode_page_token depth after = Ret t ∧ t ≠ EmptyString ∧
       decode_page_token depth (Some t) = Ret (Some after).
Proof.
  intros Hd. unfold encode_page_token. destruct depth as [|k]; [lia|].
  set (text := "{" +:+ (ascii_text "after" +:+ ":" +:+ ascii_text after) +:+ "}").
  assert (dumps_compact (S k) (VDict [("after"%string, VStr after)]) = Ret text) as E by done.
  rewrite E. pose proof (token_text_ascii after) as Ha. fold text in Ha.
  exists (b64url text). cbn [mbind outcome_bind]. rewrite utf8_id by done. split; [done|].
  assert (b64url text ≠ EmptyString) as Hne.
  { unfold text. change ("{" +:+ ?x) with (String (chr 123) x).
    destruct (_ +:+ "}") as [|b [|c s]]; done. }
  split; [done|]. unfold decode_page_token. pose proof (b64url_decode_encode text) as Hdec.
  unfold b64url_decode in Hdec. destruct (b64url text) as [|c s]; [done|].
  rewrite Hdec. cbn [mbind outcome_bind]. rewrite loads_bytes_ascii by done.
  rewrite (loads_dump "," ":") with (v := VDict [("after"%string, VStr after)]); [done|..].
  - by exists EmptyString.
  - by exists EmptyString.
  - done.
  - done.
Qed.

Lemma a2b_base64_ends quad left pads s : ends (a2b_base64 quad left pads s).
Proof.
  assert (∀ f (o : outcome string), ends o → ends (out ← o; mret (f out : string))) as Hcons
    by by intros ? [].
  revert quad left pads. induction s as [|c s IH]; intros quad left pads; cbn [a2b_base64].
  { by destruct (quad =? 0). }
  destruct (Ascii.eqb c pad_char).
  { destruct (2 <=? quad); [|apply IH]. by destruct (4 <=? quad + (pads + 1)); [|apply IH]. }
  destruct (b64_value c) as [v|]; [|apply IH].
  destruct (quad =? 0); [apply IH|].
  destruct (quad =? 1); [apply Hcons, IH|]. by destruct (quad =? 2); apply Hcons, IH.
Qed.

(** Any page token but the empty one is decoded to an id or refused with
    [INVALID_CURSOR] carrying the token: base64, UTF-8 and JSON errors, JSON that
    is no object, a missing or non-text id all end there. Only nesting beyond the
    interpreter's limit escapes, as its [RecursionError]. *)
Lemma page_token_decoded_or_refused depth t : t ≠ EmptyString →
  match decode_page_token depth (Some t) with
  | Ret a => is_Some a
  | Raise e => e = invalid_token t ∨ e = recursion_error ∨ ∃ w, e = Unmodelled w
  | NoFuel => False
  end.
Proof.
  intros Ht. unfold decode_page_token. destruct t as [|c s]; [done|].
  set (t := String c s). set (o := raw ← urlsafe_b64decode (t +:+ padding t); _).
  assert (match o with
          | Ret _ => True
          | Raise e => is_value_error e = true ∨ json_error e = true
          | NoFuel => False
          end) as Ho.
  { unfold o, urlsafe_b64decode. destruct (is_ascii _); [|by left].
    pose proof (a2b_base64_ends 0 0 0 (t +:+ padding t)) as H1.
    destruct (a2b_base64 _ _ _ _) as [raw|e|]; cbn in *; [|by right|done].
    pose proof (loads_bytes_ends depth raw) as H2.
    destruct (loads_bytes depth raw) as [v|e|]; cbn in *; [|by right|done].
    destruct v as [| | | | | |d]; cbn; try by left. by destruct (dict_get _ d); [|left]. }
  destruct o as [v|e|]; [|destruct e, Ho; cbn in *; try done; try by left|done].
  - destruct v; cbn; try by left. by eexists.
  - right; left. apply String.eqb_eq in H. by subst.
  - right; right. by eexists.
Qed.

Lemma page_token_decoded_or_refused_witness :
  "W10"%string ≠ EmptyString ∧ decode_page_token 10 (Some "W10"%string) = Raise (invalid_token "W10").
Proof.
  split; [done|].
  assert (E : decode_page_token 10 (Some "W10"%string) = Raise (invalid_token "W10")) by reflexivity.
  pose proof (page_token_decoded_or_refused 10 "W10" ltac:(done)) as H. rewrite E in H |- *.
  destruct H as [_|[|[]]]; done.
Defined.

(** ** Pages of a list in a stable order

    [pos] is the order of the listing: a rank for every id, by which every list
    the calls see is sorted. *)
Section Walk.
Context {A : Type} (key : A → string) (pos : string → Z) (depth : nat).
Local Abbreviation rank := (λ x, pos (key x)).

(** What lies behind an anchor. *)
Definition behind (a : option string) (x : A) : Prop :=
  match a with None => True | Some i => pos i < pos (key x) end.
#[export] Instance behind_dec a x : Decision (behind a x).
Proof. destruct a; simpl; apply _. Defined.

Definition anchored (a : option string) (items : list A) : Prop :=
  match a with None => True | Some i => i ∈ key <$> items end.

Lemma drop_index i n items :
  sorted_by rank items → index_of i (key <$> items) = Some n →
  drop (S n) items = filter (behind (Some i)) items.
Proof.
  revert n. induction items as [|x l IH]; intros n Hs E; [done|]. cbn in E.
  unfold sorted_by in Hs. apply StronglySorted_inv in Hs as [Hs Hx].
  rewrite filter_cons. case_bool_decide as Hi.
  - simplify_eq. rewrite decide_False by (simpl; lia). simpl. symmetry. rewrite drop_0.
    apply filter_all. done.
  - destruct (index_of i (key <$> l)) as [m|] eqn:Em; [|done]. injection E as <-.
    rewrite decide_False; [by apply IH|]. simpl.
    assert (i ∈ key <$> l) as (y & -> & Hy)%list_elem_of_fmap.
    { clear -Em. revert m Em. induction (key <$> l) as [|z ks IHk]; [done|]. intros m. cbn.
      case_bool_decide; [subst; left|]. destruct (index_of i ks); [|done]. right; eauto. }
    rewrite Forall_forall in Hx. specialize (Hx y Hy). simpl in Hx. lia.
Qed.

Lemma index_of_elem i l : i ∈ l → ∃ n, index_of i l = Some n.
Proof.
  induction 1 as [i l|i j l _ [n IH]]; cbn; case_bool_decide; eauto; [done|].
  rewrite IH. by eexists.
Qed.

Lemma index_of_lt i l n : index_of i l = Some n → (n < length l)%nat.
Proof.
  revert n. induction l as [|y l IH]; [done|]. intros n. cbn. case_bool_decide; [intros [= <-]; lia|].
  destruct (index_of i l) as [m|]; [|done]. intros [= <-]. specialize (IH m eq_refl). lia.
Qed.

(** A page is the items behind the anchor, up to the size asked for; a token
    comes with it exactly when more follow, and holds its last item. *)
Lemma paginate_spec items a tok size :
  sorted_by rank items → decode_page_token depth tok = Ret a → (0 < depth)%nat →
  1 ≤ size → anchored a items →
  ∃ page nxt, paginate depth items key tok size = Ret (page, nxt) ∧
    page = take (Z.to_nat size) (filter (behind a) items) ∧
    match nxt with
    | Some t => ∃ x, last page = Some x ∧ decode_page_token depth (Some t) = Ret (Some (key x))
    | None => page = filter (behind a) items
    end.
Proof.
  intros Hs Ha Hd Hz Hanch. unfold paginate. rewrite Ha. cbn [mbind outcome_bind].
  set (start := match a with None => 0 | Some i => _ end).
  assert (∃ k, start = Z.of_nat k ∧ (k ≤ length items)%nat ∧ drop k items = filter (behind a) items)
    as (k & -> & Hk & Hdrop).
  { unfold start. destruct a as [i|].
    - destruct (index_of_elem i _ Hanch) as [n En]. rewrite En. exists (S n).
      split; [lia|]. split; [apply index_of_lt in En; rewrite length_fmap in En; lia|].
      by apply drop_index.
    - exists O. split; [done|]. split; [lia|]. rewrite drop_0, filter_all; [done|].
      by apply Forall_forall. }
  rewrite <- (Z2Nat.id size) by lia. rewrite py_slice_drop, Hdrop, Nat2Z.id.
  set (sel := filter (behind a) items) in *.
  assert (length sel = length items - k)%nat as Hlen by (rewrite <- Hdrop; apply length_drop).
  destruct (last (take (Z.to_nat size) sel)) as [x|] eqn:El.
  - destruct (Z.ltb_spec (Z.of_nat k + Z.of_nat (Z.to_nat size)) (Z.of_nat (length items))).
    + destruct (page_token_roundtrip depth (key x) Hd) as (t & Et & _ & Ht). rewrite Et.
      eexists _, (Some t). split; [done|]. split; [done|]. eauto.
    + eexists _, None. split; [done|]. split; [done|]. apply take_ge. lia.
  - apply last_None in El. eexists _, None. split; [done|]. split; [done|].
    destruct sel as [|y sel]; [by rewrite take_nil|].
    destruct (Z.to_nat size) eqn:E; [lia|done].
Qed.

(** Following the tokens: one call per list and page size, until a page comes
    without a token. *)
Fixpoint walk (tok : option string) (calls : list (list A * Z)) : outcome (list A * bool) :=
  match calls with
  | [] => mret ([], false)
  | (items, size) :: rest =>
      p ← paginate depth items key tok size;
      match p.2 with
      | None => mret (p.1, true)
      | Some t => q ← walk (Some t) rest; mret (p.1 ++ q.1, q.2)
      end
  end.

(** The last item of each page is still listed when the next is asked for. *)
Fixpoint anchors_stay (tok : option string) (calls : list (list A * Z)) : Prop :=
  match calls with
  | [] => True
  | (items, size) :: rest =>
      match decode_page_token depth tok with Ret a => anchored a items | _ => True end ∧
      match paginate depth items key tok size with
      | Ret (_, Some t) => anchors_stay (Some t) rest
      | _ => True
      end
  end.

Lemma page_behind items a n x y :
  sorted_by rank items → last (take n (filter (behind a) items)) = Some x →
  y ∈ take n (filter (behind a) items) → rank y ≤ rank x.
Proof.
  intros Hs Hx Hy. apply (sorted_by_filter rank (behind a)) in Hs.
  apply (sorted_by_take rank n) in Hs. apply last_Some in Hx as [l E]. rewrite E in *.
  apply sorted_by_app in Hs as (_ & _ & Hlt).
  apply elem_of_app in Hy as [Hy| ->%list_elem_of_singleton]; [|lia].
  apply Z.lt_le_incl, Hlt; [done|left].
Qed.

Lemma walk_spec calls : ∀ tok a,
  decode_page_token depth tok = Ret a → (0 < depth)%nat →
  Forall (λ c, sorted_by rank c.1 ∧ 1 ≤ c.2) calls → anchors_stay tok calls →
  ∃ out fin, walk tok calls = Ret (out, fin) ∧ sorted_by rank out ∧
    (∀ x, x ∈ out → behind a x ∧ ∃ c, c ∈ calls ∧ x ∈ c.1) ∧
    (fin = true → ∀ x, behind a x → (∀ c, c ∈ calls → x ∈ c.1) → x ∈ out) ∧
    (fin = false → (length calls ≤ length out)%nat).
Proof.
  induction calls as [|[items size] rest IH]; intros tok a Ha Hd Hc Hst.
  { exists [], false. split_and!; [done|constructor| |done|simpl; lia]. by intros ? ?%elem_of_nil. }
  apply Forall_cons in Hc as [[Hs Hz] Hc]. cbn [anchors_stay] in Hst. rewrite Ha in Hst.
  destruct Hst as [Hanch Hst].
  destruct (paginate_spec items a tok size Hs Ha Hd Hz Hanch) as (page & nxt & E & Hp & Hn).
  cbn [walk]. rewrite E in *. cbn [mbind outcome_bind fst snd].
  assert (∀ x, x ∈ page → behind a x ∧ x ∈ items) as Hin.
  { intros x Hx. rewrite Hp in Hx. apply elem_of_take in Hx as (i & Hi & _).
    apply list_elem_of_lookup_2, list_elem_of_filter in Hi. done. }
  assert (sorted_by rank page) as Hsp by (rewrite Hp; by apply sorted_by_take, sorted_by_filter).
  destruct nxt as [t|].
  - destruct Hn as (x & Hx & Ht).
    destruct (IH (Some t) (Some (key x)) Ht Hd Hc Hst) as (out & fin & Ew & Hso & Hout & Hall & Hfin).
    rewrite Ew. exists (page ++ out), fin. split; [done|]. split_and!.
    + apply sorted_by_app. split_and!; [done..|]. intros y z Hy Hz'.
      apply Hout in Hz' as [Hb _]. rewrite Hp in Hx, Hy.
      pose proof (page_behind _ _ _ _ _ Hs Hx Hy). simpl in *. lia.
    + intros y [Hy|Hy]%elem_of_app.
      * apply Hin in Hy as [? ?]. split; [done|]. eexists. split; [by left|done].
      * apply Hout in Hy as (Hb & c & ? & ?). split; [|exists c; split; [by right|done]].
        apply last_elem_of, Hin in Hx as [Hx _]. destruct a; simpl in *; [lia|done].
    + intros Hf y Hb Hy. apply elem_of_app.
      destruct (decide (rank y ≤ rank x)) as [Hle|Hgt]; [left|right].
      * rewrite Hp in Hx |- *. eapply sorted_by_take_complete;
          [by apply sorted_by_filter| |by apply last_elem_of|exact Hle].
        apply list_elem_of_filter. split; [done|]. apply (Hy (items, size)). left.
      * apply Hall; [done|simpl; lia|]. intros c Hc'. apply Hy. by right.
    + intros Hf. specialize (Hfin Hf). rewrite length_app. simpl.
      destruct page; [done|simpl; lia].
  - exists page, true. split; [done|]. split_and!; [done| | |done].
    + intros y Hy. apply Hin in Hy as [? ?]. split; [done|]. eexists. split; [by left|done].
    + intros _ y Hb Hy. rewrite Hn. apply list_elem_of_filter. split; [done|].
      apply (Hy (items, size)). left.
Qed.

(** C27: Following page tokens over a list that changes between the calls,
    items added anywhere and items removed, as long as the last item of a page,
    the anchor its token names, is still listed at the next call (a page after a
    removed anchor is empty and the last): the pages give every item at most once
    and in order, only items that were listed, and, once a page comes without a
    token, every item that was listed throughout. The walk ends: with [U] items
    ever listed, [length U + 1] calls are enough. *)
Theorem pages_visit_everything calls (U : list A) :
  (0 < depth)%nat →
  Forall (λ c, sorted_by rank c.1 ∧ 1 ≤ c.2) calls →
  Forall (λ c, c.1 ⊆ U) calls → anchors_stay None calls →
  ∃ out fin, walk None calls = Ret (out, fin) ∧ sorted_by rank out ∧
    (∀ x, x ∈ out → ∃ c, c ∈ calls ∧ x ∈ c.1) ∧
    (fin = true → ∀ x, (∀ c, c ∈ calls → x ∈ c.1) → x ∈ out) ∧
    ((length U < length calls)%nat → fin = true).
Proof.
  intros Hd Hc HU Hst.
  destruct (walk_spec calls None None eq_refl Hd Hc Hst) as (out & fin & Ew & Hs & Hout & Hall & Hfin).
  exists out, fin. split; [done|]. split; [done|]. split; [intros x Hx; by apply Hout|].
  split; [intros Hf x Hx; by apply Hall|]. intros HUl. destruct fin; [done|].
  specialize (Hfin eq_refl).
  assert (length out ≤ length U)%nat; [|lia]. apply submseteq_length, NoDup_submseteq.
  - clear -Hs. induction Hs as [|x l _ IH Hx]; constructor; [|done]. intros Hin.
    rewrite Forall_forall in Hx. specialize (Hx x Hin). simpl in Hx. lia.
  - intros x Hx. destruct (Hout x Hx) as (_ & c & Hin & ?). rewrite Forall_forall in HU.
    by apply (HU c Hin).
Qed.
End Walk.

(** A list of which an item goes and another comes between two calls. *)
Definition sample_calls_seen : list (list string * Z) :=
  [(["a"; "b"; "c"; "e"], 2); (["b"; "c"; "d"; "e"], 2); (["b"; "d"; "e"], 2)]%string.
Definition first_code (s : string) : Z :=
  match s with String c _ => code c | EmptyString => 0 end.

Lemma pages_visit_everything_witness :
  Forall (λ c, sorted_by (λ x, first_code (id x)) c.1 ∧ 1 ≤ c.2) sample_calls_seen ∧
  ∃ out fin, walk id 10 None sample_calls_seen = Ret (out, fin) ∧
    out = ["a"; "b"; "c"; "d"; "e"]%string.
Proof.
  assert (Forall (λ c, sorted_by (λ x, first_code (id x)) c.1 ∧ 1 ≤ c.2) sample_calls_seen) as Hc.
  { repeat constructor; vm_compute; done. }
  split; [done|].
  destruct (pages_visit_everything id first_code 10 sample_calls_seen ["a"; "b"; "c"; "d"; "e"]%string)
    as (out & fin & E & _); [lia|done| | |].
  - apply (bool_decide_unpack _). vm_compute. exact I.
  - vm_compute. set_solver.
  - exists out, fin. split; [done|]. revert E. vm_compute. congruence.
Defined.
