(* ===== verification/Signing.v ===== *)
(** * Event signatures and signing keys ([signing.py], [SigningKey],
    [SigningKeySet], [verify])

    Signing over the canonical form, JWK rendering and parsing, and the rotating
    key set. Ed25519 itself is a parameter ([Crypto]); the one law the theorems
    use is that a signature verifies under the key's own public half. *)

From S2P Require Import Prelude PyStr Value Errors Effects Base64 Canonical.
Open Scope Z_scope.

(** The [cryptography] package: private keys are opaque texts, public keys and
    signatures raw bytes; [ed25519_verify] is [false] where the library raises
    [InvalidSignature]. *)
Class Crypto := {
  ed25519_sign : string → string → string;
  ed25519_public : string → string;
  ed25519_verify : string → string → string → bool;
}.

(** What the package documents. *)
Class CryptoLaws `{Crypto} := {
  ed25519_correct : ∀ k m, ed25519_verify (ed25519_public k) (ed25519_sign k m) m = true;
  ed25519_public_length : ∀ k, String.length (ed25519_public k) = 32%nat;
  ed25519_signature_length : ∀ k m, String.length (ed25519_sign k m) = 64%nat;
}.

Record SigningKey := mkSigningKey { kid : string; private : string }.

Definition SIGNATURE_PREFIX : string := "v1=".

(** [signing_input(timestamp, event)] *)
Definition signing_input (timestamp : string) (event : list (string * value)) : outcome string :=
  text ← canonicalize (VDict event); mret (utf8 timestamp +:+ "." +:+ text).

Section Signing.
Context `{Crypto}.

(** [SigningKey.sign(timestamp, event)] *)
Definition sign (k : SigningKey) (timestamp : string) (event : list (string * value))
    : outcome string :=
  m ← signing_input timestamp event;
  mret (SIGNATURE_PREFIX +:+ b64url (ed25519_sign (private k) m)).

(** [SigningKey.public_key] *)
Definition public_key (k : SigningKey) : string := ed25519_public (private k).

(** [SigningKey.to_jwk()] with [public_raw_b64url()] *)
Definition to_jwk (k : SigningKey) : list (string * string) :=
  [("kty", "OKP"); ("crv", "Ed25519"); ("kid", kid k); ("alg", "EdDSA");
   ("x", b64url (public_key k))]%string.

(** [public_key_from_jwk(jwk)]: [from_public_bytes] refuses any other length. *)
Definition public_key_from_jwk (jwk : list (string * string)) : outcome string :=
  match dict_get "x"%string jwk with
  | None => Raise (KeyError "x")
  | Some x =>
      raw ← b64url_decode x;
      if (String.length raw =? 32)%nat then mret raw
      else Raise (ValueError "An Ed25519 public key is 32 bytes long")
  end.

(** [signature.startswith("v1=")] and the slice after it *)
Definition strip_prefix (signature : string) : string :=
  match signature with
  | String c1 (String c2 (String c3 rest)) =>
      if bool_decide (String c1 (String c2 (String c3 EmptyString)) = SIGNATURE_PREFIX)
      then rest else signature
  | _ => signature
  end.

(** [verify(public_key, timestamp, event, signature)]: [InvalidSignature] and
    [ValueError] mean [False]. *)
Definition verify (pub timestamp : string) (event : list (string * value)) (signature : string)
    : outcome bool :=
  match (sig ← b64url_decode (strip_prefix signature);
         m ← signing_input timestamp event;
         mret (ed25519_verify pub sig m)) with
  | Raise (ValueError _) => mret false
  | r => r
  end.

Lemma sign_total k timestamp event : sign k timestamp event ≠ NoFuel.
Proof.
  unfold sign, signing_input. pose proof (canonicalize_no_fuel (VDict event)).
  by destruct (canonicalize (VDict event)).
Qed.

(** ** [SigningKeySet] *)

Record SigningKeySet := mkKeySet { keys : list (string * SigningKey); active_kid : string }.

(** [SigningKeySet(active, *also_published)] *)
Definition key_set (active : SigningKey) (also_published : list SigningKey) : SigningKeySet :=
  mkKeySet (foldl (λ d k, dict_set (kid k) k d) [(kid active, active)] also_published)
    (kid active).

(** [.active] *)
Definition active (s : SigningKeySet) : outcome SigningKey :=
  match dict_get (active_kid s) (keys s) with
  | Some k => mret k
  | None => Raise (KeyError (active_kid s))
  end.

(** [get(kid)] *)
Definition get_key (i : string) (s : SigningKeySet) : option SigningKey := dict_get i (keys s).

(** [add(key, activate)] *)
Definition add_key (k : SigningKey) (activate : bool) : M SigningKeySet unit :=
  modify (λ s, mkKeySet (dict_set (kid k) k (keys s))
                 (if activate then kid k else active_kid s)).

(** [activate(kid)] *)
Definition activate_key (i : string) : M SigningKeySet unit :=
  s ← get_state;
  match dict_get i (keys s) with
  | None => raise (KeyError ("Key " +:+ i +:+ " is not in the set; add() it before activating."))
  | Some _ => put_state (mkKeySet (keys s) i)
  end.

(** [retire(kid)] *)
Definition retire (i : string) : M SigningKeySet unit :=
  s ← get_state;
  if bool_decide (i = active_kid s)
  then raise (ValueError "Cannot retire the active signing key.")
  else put_state (mkKeySet (dict_pop i (keys s)) (active_kid s)).

(** [jwks()] *)
Definition jwks (s : SigningKeySet) : list (list (string * string)) :=
  to_jwk <$> dict_values (keys s).

(** ** Key rotation *)

Inductive key_op :=
| KAdd (k : SigningKey) (activate : bool)
| KActivate (i : string)
| KRetire (i : string).

Definition key_step (o : key_op) (s : SigningKeySet) : outcome unit * SigningKeySet :=
  match o with
  | KAdd k a => add_key k a s
  | KActivate i => activate_key i s
  | KRetire i => retire i s
  end.

(** Key sets reachable from a constructor call by operations, failed ones
    included. *)
Inductive key_reachable : SigningKeySet → Prop :=
| key_init active also : key_reachable (key_set active also)
| key_next o s : key_reachable s → key_reachable (key_step o s).2.

(** The active key is published, and every key under its own id. *)
Record keys_inv (s : SigningKeySet) : Prop := {
  keys_wf : dict_wf (keys s);
  keys_own : ∀ i k, dict_get i (keys s) = Some k → kid k = i;
  keys_active : is_Some (dict_get (active_kid s) (keys s));
}.

Lemma keys_inv_set s k a :
  keys_inv s → (a = kid k ∨ is_Some (dict_get a (keys s))) →
  keys_inv (mkKeySet (dict_set (kid k) k (keys s)) a).
Proof.
  intros [Hwf Hown Hact] Ha. split; simpl; [auto with a2a| |].
  - intros i k'. rewrite dict_get_set. case_decide; [by intros [= <-]|apply Hown].
  - rewrite dict_get_set. case_decide; [by eexists|]. by destruct Ha.
Qed.

Lemma keys_inv_init act also : keys_inv (key_set act also).
Proof.
  unfold key_set.
  assert (∀ d, keys_inv (mkKeySet d (kid act)) →
     keys_inv (mkKeySet (foldl (λ d k, dict_set (kid k) k d) d also) (kid act))) as Hfold.
  { induction also as [|k also IH]; intros d Hd; simpl; [done|]. apply IH.
    apply (keys_inv_set (mkKeySet d (kid act))); [done|]. right. apply Hd. }
  apply Hfold. split; simpl.
  - apply NoDup_singleton.
  - intros i k. case_decide; [by intros [= <-]|done].
  - rewrite decide_True by done. by eexists.
Qed.

Lemma key_step_inv o s : keys_inv s → keys_inv (key_step o s).2.
Proof.
  intros Hs. destruct o as [k a|i|i]; simpl.
  - apply keys_inv_set; [done|]. destruct a; [by left|right; apply Hs].
  - unfold activate_key, mbind, M_bind, get_state.
    destruct (dict_get i (keys s)) as [k|] eqn:Hk; [|done]. simpl.
    destruct Hs as [Hwf Hown _]. split; simpl; [done..|]. by eexists.
  - unfold retire, mbind, M_bind, get_state. case_bool_decide; [done|]. simpl.
    destruct Hs as [Hwf Hown Hact]. split; simpl; [auto with a2a| |].
    + intros j k Hj. destruct (decide (j = i)) as [->|Hne].
      * by rewrite dict_get_pop_eq in Hj.
      * rewrite dict_get_pop_ne in Hj by done. by apply Hown.
    + by rewrite dict_get_pop_ne.
Qed.

Lemma key_reachable_inv s : key_reachable s → keys_inv s.
Proof. induction 1; [apply keys_inv_init|by apply key_step_inv]. Qed.

(** ** Signatures *)

Lemma strip_prefix_signature s : strip_prefix (SIGNATURE_PREFIX +:+ s) = s.
Proof. done. Qed.

Lemma sign_verify_run `{!CryptoLaws} k timestamp event event' sig :
  sign k timestamp event = Ret sig → json_eq (VDict event) (VDict event') →
  verify (public_key k) timestamp event' sig = Ret true.
Proof.
  intros Hsign Heq. unfold sign in Hsign.
  assert (signing_input timestamp event' = signing_input timestamp event) as Hin.
  { unfold signing_input. by rewrite Heq. }
  destruct (signing_input timestamp event) as [m|e|] eqn:Em; [|done..].
  simpl in Hsign. injection Hsign as <-.
  unfold verify. rewrite strip_prefix_signature, b64url_decode_encode, Hin. simpl.
  unfold public_key. by rewrite ed25519_correct.
Qed.

Lemma jwk_roundtrip_run `{!CryptoLaws} k : public_key_from_jwk (to_jwk k) = Ret (public_key k).
Proof.
  unfold public_key_from_jwk, to_jwk. cbn [dict_get]. rewrite !decide_False, decide_True by done.
  rewrite b64url_decode_encode. cbn. unfold public_key. by rewrite ed25519_public_length.
Qed.
End Signing.

Section Properties.
Context `{CryptoLaws}.

(** C29: whatever the rotation history (keys added, activated and retired, in
    any order, failed calls included), an event signed with the active key can
    be verified by a subscriber who fetches the JWKS: the entry under the active
    key's id parses to a public key that accepts the signature, even when the
    event's members come back in another order. *)
Theorem signed_events_verify_from_jwks s timestamp event event' :
  key_reachable s → json_eq (VDict event) (VDict event') →
  ∃ k, active s = Ret k ∧
    ∀ sig, sign k timestamp event = Ret sig →
    ∃ jwk pub, jwk ∈ jwks s ∧ dict_get "kid"%string jwk = Some (kid k) ∧
      public_key_from_jwk jwk = Ret pub ∧ verify pub timestamp event' sig = Ret true.
Proof.
  intros Hs Heq. apply key_reachable_inv in Hs as [Hwf Hown [k Hk]].
  exists k. unfold active. rewrite Hk. split; [done|]. intros sig Hsign.
  exists (to_jwk k), (public_key k). split_and!; [|done|apply jwk_roundtrip_run|].
  - apply list_elem_of_fmap_2. apply dict_get_elem in Hk.
    by apply (list_elem_of_fmap_2 snd) in Hk.
  - by eapply sign_verify_run.
Qed.

(** Retiring works as documented: the active key cannot be retired (the
    call raises [ValueError] and changes nothing); any other key disappears from
    the JWKS and the active key stays. *)
Theorem retire_cases s i :
  key_reachable s →
  (i = active_kid s → ∃ msg, retire i s = (Raise (ValueError msg), s)) ∧
  (i ≠ active_kid s → ∃ s', retire i s = (Ret tt, s') ∧ get_key i s' = None ∧
     active s' = active s ∧ ∀ j, j ≠ i → get_key j s' = get_key j s).
Proof.
  intros Hs. apply key_reachable_inv in Hs as [Hwf _ _].
  unfold retire, mbind, M_bind, get_state, get_key, active. split.
  - intros ->. rewrite bool_decide_true by done. by eexists.
  - intros Hne. rewrite bool_decide_false by done. eexists. split; [done|]. simpl.
    split_and!; [by apply dict_get_pop_eq|by rewrite dict_get_pop_ne|].
    intros j Hj. by apply dict_get_pop_ne.
Qed.
End Properties.

(** A toy signature scheme that satisfies the laws: a checksum. *)
Definition toy_digest (m : string) : string :=
  zero_padded 64 (foldl (λ a c, (a * 257 + code c) mod 1000003) 0 (String.list_ascii_of_string m)).
Definition toy_crypto : Crypto := {|
  ed25519_sign := λ k m, toy_digest m;
  ed25519_public := λ k, zero_padded 32 0;
  ed25519_verify := λ pub sig m, bool_decide (sig = toy_digest m);
|}.

Lemma toy_digest_length m : String.length (toy_digest m) = 64%nat.
Proof.
  unfold toy_digest. rewrite zero_padded_exact; [apply length_fixed_digits| |lia].
  generalize (String.list_ascii_of_string m). intros l.
  assert (∀ a, 0 ≤ a < 10 ^ Z.of_nat 64 →
    0 ≤ foldl (λ a c, (a * 257 + code c) mod 1000003) a l < 10 ^ Z.of_nat 64) as Hf; [|by apply Hf].
  induction l as [|c l IH]; intros a Ha; [done|]. apply IH.
  pose proof (Z.mod_pos_bound (a * 257 + code c) 1000003 ltac:(done)). split; [lia|].
  eapply Z.lt_trans; [apply H|done].
Qed.

Lemma toy_crypto_laws : CryptoLaws (H := toy_crypto).
Proof.
  split; [intros k m; simpl; by rewrite bool_decide_true|by intros k; vm_compute|].
  intros k m. apply toy_digest_length.
Qed.

(** Two keys, the second activated and the first retired. *)
Definition rotated : SigningKeySet :=
  let s0 := key_set (mkSigningKey "k1" "one") [mkSigningKey "k2" "two"] in
  (key_step (KRetire "k1") (key_step (KActivate "k2") s0).2).2.

Lemma rotated_reachable : key_reachable rotated.
Proof. unfold rotated. do 2 apply key_next. apply key_init. Qed.

Lemma signed_events_verify_from_jwks_witness :
  ∃ k, active rotated = Ret k ∧
    ∀ sig, sign (H := toy_crypto) k "2026-01-01T00:00:00Z" [("b"%string, VInt 1); ("a"%string, VInt 2)] = Ret sig →
    ∃ jwk pub, jwk ∈ jwks (H := toy_crypto) rotated ∧ dict_get "kid"%string jwk = Some (kid k) ∧
      public_key_from_jwk jwk = Ret pub ∧
      verify (H := toy_crypto) pub "2026-01-01T00:00:00Z"
        [("a"%string, VInt 2); ("b"%string, VInt 1)] sig = Ret true.
Proof.
  apply (signed_events_verify_from_jwks (H := toy_crypto) (H0 := toy_crypto_laws)).
  - apply rotated_reachable.
  - eapply (json_eq_dict _ [("a"%string, VInt 2); ("b"%string, VInt 1)]).
    + apply (bool_decide_unpack _). vm_compute. exact I.
    + apply Permutation_swap.
    + repeat constructor.
Defined.
