(* ===== verification/Limits.v ===== *)
(** * Selector limits and rate limiting ([limits.py])

    [SelectorLimits.check] and the token bucket behind [RATE_LIMITED]. Token
    counts and times are exact rationals, where the code uses doubles: the
    theorems are about the algorithm, not about rounding. The bound shown: a
    principal gets at most [capacity + rate * elapsed] calls through. *)

From Stdlib Require Import QArith Qminmax Lqa.
From S2P Require Import Prelude PyStr Value Errors Effects Models.
Open Scope Z_scope.

(** ** [SelectorLimits] *)

Record SelectorLimits := mkSelectorLimits {
  max_keywords : Z;
  max_keyword_length : Z;
  max_fields : Z;
  max_values_per_field : Z;
}.

(** The defaults. *)
Definition default_selector_limits : SelectorLimits := mkSelectorLimits 50 256 50 100.

(** [len(l)] *)
Definition len {A} (l : list A) : Z := Z.of_nat (length l).

Section SelectorLimits.
Context (lim : SelectorLimits).

(** [_fail(message, detail)] *)
Definition fail_selector (message : string) (detail : list (string * value)) : outcome unit :=
  Raise (A2AEventsError INVALID_SELECTOR message detail).

Fixpoint check_keyword_lengths (keywords : list string) : outcome unit :=
  match keywords with
  | [] => mret tt
  | kw :: rest =>
      if max_keyword_length lim <? Z.of_nat (String.length kw) then
        fail_selector ("Keyword exceeds the maximum length of " +:+
          str_of_int (max_keyword_length lim) +:+ " characters.")
          [("maxKeywordLength"%string, VInt (max_keyword_length lim))]
      else check_keyword_lengths rest
  end.

(** [_check_keyword(selector)] *)
Definition check_keyword (keywords : list string) : outcome unit :=
  if max_keywords lim <? len keywords then
    fail_selector ("Selector exceeds the maximum of " +:+ str_of_int (max_keywords lim) +:+
      " keywords.") [("maxKeywords"%string, VInt (max_keywords lim))]
  else check_keyword_lengths keywords.

Fixpoint check_value_counts (where_ : list (string * list value)) : outcome unit :=
  match where_ with
  | [] => mret tt
  | (field, values) :: rest =>
      if max_values_per_field lim <? len values then
        fail_selector ("Field " +:+ field +:+ " exceeds the maximum of " +:+
          str_of_int (max_values_per_field lim) +:+ " values.")
          [("field"%string, VStr field);
           ("maxValuesPerField"%string, VInt (max_values_per_field lim))]
      else check_value_counts rest
  end.

(** [_check_field_filter(selector)] *)
Definition check_field_filter (where_ : list (string * list value)) : outcome unit :=
  if max_fields lim <? len where_ then
    fail_selector ("Selector exceeds the maximum of " +:+ str_of_int (max_fields lim) +:+
      " fields.") [("maxFields"%string, VInt (max_fields lim))]
  else check_value_counts where_.

(** [check(selector)] *)
Definition check_selector (s : option Selector) : outcome unit :=
  match s with
  | None => mret tt
  | Some (KeywordSearchSelector keywords _ _) => check_keyword keywords
  | Some (FieldFilterSelector where_) => check_field_filter where_
  end.

(** The selectors within the limits. *)
Definition within_limits (s : option Selector) : Prop :=
  match s with
  | None => True
  | Some (KeywordSearchSelector keywords _ _) =>
      len keywords ≤ max_keywords lim ∧
      Forall (λ kw, Z.of_nat (String.length kw) ≤ max_keyword_length lim) keywords
  | Some (FieldFilterSelector where_) =>
      len where_ ≤ max_fields lim ∧
      Forall (λ fv, len fv.2 ≤ max_values_per_field lim) where_
  end.

Lemma check_keyword_lengths_spec keywords :
  match check_keyword_lengths keywords with
  | Ret _ => Forall (λ kw, Z.of_nat (String.length kw) ≤ max_keyword_length lim) keywords
  | Raise (A2AEventsError INVALID_SELECTOR _ _) =>
      ¬ Forall (λ kw, Z.of_nat (String.length kw) ≤ max_keyword_length lim) keywords
  | _ => False
  end.
Proof.
  induction keywords as [|kw rest IH]; simpl; [constructor|].
  destruct (Z.ltb_spec (max_keyword_length lim) (Z.of_nat (String.length kw))); simpl.
  - intros [? _]%Forall_cons. lia.
  - destruct (check_keyword_lengths rest) as [|[[] | | | | | | | | | |]|]; try done.
    + by constructor.
    + by intros [_ ?]%Forall_cons.
Qed.

Lemma check_value_counts_spec where_ :
  match check_value_counts where_ with
  | Ret _ => Forall (λ fv, len fv.2 ≤ max_values_per_field lim) where_
  | Raise (A2AEventsError INVALID_SELECTOR _ _) =>
      ¬ Forall (λ fv, len fv.2 ≤ max_values_per_field lim) where_
  | _ => False
  end.
Proof.
  induction where_ as [|[f vs] rest IH]; simpl; [constructor|].
  destruct (Z.ltb_spec (max_values_per_field lim) (len vs)); simpl.
  - intros [? _]%Forall_cons. simpl in *. lia.
  - destruct (check_value_counts rest) as [|[[] | | | | | | | | | |]|]; try done.
    + by constructor.
    + by intros [_ ?]%Forall_cons.
Qed.

(** The limits accept exactly the selectors within them, and reject every
    other one with [INVALID_SELECTOR]. *)
Lemma check_selector_exact s :
  (within_limits s → check_selector s = Ret tt) ∧
  (¬ within_limits s → ∃ msg d, check_selector s = Raise (A2AEventsError INVALID_SELECTOR msg d)).
Proof.
  destruct s as [[where_|keywords m f]|]; simpl; [| |done].
  - unfold check_field_filter.
    destruct (Z.ltb_spec (max_fields lim) (len where_)) as [Hlt|Hle].
    { split; [intros [? _]; lia|]. intros _. unfold fail_selector. eauto. }
    pose proof (check_value_counts_spec where_) as Hspec.
    destruct (check_value_counts where_) as [[]|[[] | | | | | | | | | |]|]; try done;
      (split; [naive_solver|]); [naive_solver|eauto].
  - unfold check_keyword.
    destruct (Z.ltb_spec (max_keywords lim) (len keywords)) as [Hlt|Hle].
    { split; [intros [? _]; lia|]. intros _. unfold fail_selector. eauto. }
    pose proof (check_keyword_lengths_spec keywords) as Hspec.
    destruct (check_keyword_lengths keywords) as [[]|[[] | | | | | | | | | |]|]; try done;
      (split; [naive_solver|]); [naive_solver|eauto].
Qed.
End SelectorLimits.

(** ** [TokenBucketRateLimiter] *)

Open Scope Q_scope.

Record TokenBucketRateLimiter := mkLimiter {
  rate : Q;
  capacity : Q;
  buckets : list ((string * string) * (Q * Q));
}.

(** [(key or "<anonymous>", operation)] *)
Definition bucket_key (key : option string) (operation : string) : string * string :=
  (match key with
   | Some k => if bool_decide (k = EmptyString) then "<anonymous>" else k
   | None => "<anonymous>"
   end, operation)%string.

Definition set_bucket (k : string * string) (b : Q * Q) (l : TokenBucketRateLimiter)
    : TokenBucketRateLimiter :=
  mkLimiter (rate l) (capacity l) (dict_set k b (buckets l)).

(** The refilled token count of a bucket at time [now_]. *)
Definition refill (l : TokenBucketRateLimiter) (b : Q * Q) (now_ : Q) : Q :=
  Qmin (capacity l) (b.1 + (now_ - b.2) * rate l).

(** [check(key, operation)] at the clock reading [now_] *)
Definition check_rate (now_ : Q) (key : option string) (operation : string)
    : M TokenBucketRateLimiter unit :=
  l ← get_state;
  let k := bucket_key key operation in
  let tokens := refill l (default (capacity l, now_) (dict_get k (buckets l))) now_ in
  if Qle_bool 1 tokens then put_state (set_bucket k (tokens - 1, now_) l)
  else
    _ ← put_state (set_bucket k (tokens, now_) l);
    raise (A2AEventsError RATE_LIMITED
             ("Rate limit exceeded for operation " +:+ operation +:+ ".")
             [("operation"%string, VStr operation)]).

(** A call: its time, principal and operation. *)
Record call := mkCall { at_ : Q; who : option string; what : string }.

(** Run the calls in order; for each, whether it went through. *)
Fixpoint run_calls (cs : list call) (l : TokenBucketRateLimiter)
    : list bool * TokenBucketRateLimiter :=
  match cs with
  | [] => ([], l)
  | c :: cs' =>
      let '(r, l1) := check_rate (at_ c) (who c) (what c) l in
      let '(bs, l2) := run_calls cs' l1 in
      (match r with Ret _ => true | _ => false end :: bs, l2)
  end.

(** The calls of a bucket that went through. *)
Fixpoint accepted (k : string * string) (cs : list call) (bs : list bool) : nat :=
  match cs, bs with
  | c :: cs', b :: bs' =>
      ((if bool_decide (bucket_key (who c) (what c) = k) && b then 1 else 0) +
       accepted k cs' bs')%nat
  | _, _ => 0%nat
  end.

(** Times do not decrease, from [t0] on. *)
Fixpoint in_order (t0 : Q) (cs : list call) : Prop :=
  match cs with
  | [] => True
  | c :: cs' => t0 <= at_ c /\ in_order (at_ c) cs'
  end.

(** The time of the last call. *)
Fixpoint last_time (t0 : Q) (cs : list call) : Q :=
  match cs with [] => t0 | c :: cs' => last_time (at_ c) cs' end.

(** Tokens held plus calls accepted never exceed the budget earned so far. *)
Definition within_budget (l : TokenBucketRateLimiter) (k : string * string) (t0 n now_ : Q)
    : Prop :=
  match dict_get k (buckets l) with
  | Some (tokens, last) =>
      0 <= tokens /\ last <= now_ /\ tokens + n <= capacity l + rate l * (last - t0)
  | None => n == 0
  end.

Lemma in_order_last t0 cs : in_order t0 cs → t0 <= last_time t0 cs.
Proof.
  revert t0. induction cs as [|c cs IH]; intros t0; simpl; [intros _; lra|].
  intros [H1 H2]. specialize (IH _ H2). lra.
Qed.

Lemma within_budget_later l k t0 n t t' :
  within_budget l k t0 n t → t <= t' → within_budget l k t0 n t'.
Proof. unfold within_budget. destruct (dict_get k (buckets l)) as [[]|]; [|done]. intros; split_and?; lra. Qed.

(** One call: parameters kept, and the budget of every bucket accounted for. *)
Lemma check_rate_spec l now_ key op k t0 n :
  0 <= rate l → 0 <= capacity l → t0 <= now_ → within_budget l k t0 n now_ →
  let '(r, l') := check_rate now_ key op l in
  rate l' = rate l ∧ capacity l' = capacity l ∧
  within_budget l' k t0
    (if bool_decide (bucket_key key op = k) && match r with Ret _ => true | _ => false end
     then n + 1 else n) now_.
Proof.
  intros Hr Hc Ht Hb. unfold check_rate, mbind, M_bind, get_state.
  set (b := default _ _). set (tok := refill l b now_).
  assert (k = bucket_key key op → 0 <= tok /\ tok + n <= capacity l + rate l * (now_ - t0)) as Htok.
  { intros Hk. unfold tok, refill, within_budget, b in *. rewrite Hk in Hb.
    destruct (dict_get (bucket_key key op) (buckets l)) as [[tk lst]|]; cbn -[Qmin] in *.
    - destruct Hb as (Hnn & Hlast & Hsum).
      assert (0 <= (now_ - lst) * rate l) by (apply Qmult_le_0_compat; lra).
      split; [apply Q.min_glb; lra|].
      pose proof (Q.le_min_r (capacity l) (tk + (now_ - lst) * rate l)). nra.
    - split; [apply Q.min_glb; [lra|]; assert ((now_ - now_) * rate l == 0) as -> by ring; lra|].
      pose proof (Q.le_min_l (capacity l) (capacity l + (now_ - now_) * rate l)).
      assert (0 <= rate l * (now_ - t0)) by (apply Qmult_le_0_compat; lra). lra. }
  destruct (Qle_bool 1 tok) eqn:Hle; cbn -[Qmin].
  - apply Qle_bool_iff in Hle. split_and!; [done..|].
    unfold within_budget; cbn. rewrite dict_get_set.
    case_decide as Hk; [rewrite bool_decide_true by done|rewrite bool_decide_false by done].
    + destruct (Htok Hk). cbn. split_and!; lra.
    + done.
  - split_and!; [done..|]. unfold within_budget; cbn. rewrite dict_get_set, andb_false_r.
    case_decide as Hk; [|done]. destruct (Htok Hk). split_and!; lra.
Qed.

Lemma run_calls_budget cs l k t0 t n :
  0 <= rate l → 0 <= capacity l → t0 <= t → in_order t cs → within_budget l k t0 n t →
  let '(bs, l') := run_calls cs l in
  rate l' = rate l ∧ capacity l' = capacity l ∧
  within_budget l' k t0 (n + inject_Z (Z.of_nat (accepted k cs bs))) (last_time t cs).
Proof.
  revert l t n. induction cs as [|c cs IH]; intros l t n Hr Hc Ht Hord Hb.
  { cbn. split_and!; [done..|]. unfold within_budget in *.
    change (inject_Z (Z.of_nat 0)) with 0.
    destruct (dict_get k (buckets l)) as [[]|]; split_and?; lra. }
  destruct Hord as [Hat Hord]. cbn [run_calls].
  pose proof (check_rate_spec l (at_ c) (who c) (what c) k t0 n Hr Hc ltac:(lra)
    (within_budget_later _ _ _ _ _ _ Hb Hat)) as Hstep.
  destruct (check_rate _ _ _ l) as [r l1]. destruct Hstep as (Hr1 & Hc1 & Hb1).
  specialize (IH l1 (at_ c) _ ltac:(by rewrite Hr1) ltac:(by rewrite Hc1) ltac:(lra) Hord Hb1).
  destruct (run_calls cs l1) as [bs l2]. destruct IH as (Hr2 & Hc2 & Hb2).
  split_and!; [congruence..|]. cbn [last_time accepted].
  unfold within_budget in *. destruct (dict_get k (buckets l2)) as [[tk lst]|];
    destruct (bool_decide _ && _); rewrite Nat2Z.inj_add, inject_Z_plus;
    change (inject_Z (Z.of_nat 0)) with 0; change (inject_Z (Z.of_nat 1)) with 1;
    split_and?; lra.
Qed.

(** C34: the rate limit holds: over any interleaving of calls of any principals
    at non-decreasing times, the calls of one principal and operation that get
    through number at most [capacity + rate * elapsed], whether the bucket
    starts fresh or was left behind by earlier calls with at most [capacity]
    tokens. *)
Theorem rate_limit_bound cs l key op t0 :
  0 <= rate l → 0 <= capacity l → in_order t0 cs →
  match dict_get (bucket_key key op) (buckets l) with
  | Some (tokens, last) => 0 <= tokens <= capacity l /\ last == t0
  | None => True
  end →
  let '(bs, _) := run_calls cs l in
  inject_Z (Z.of_nat (accepted (bucket_key key op) cs bs))
    <= capacity l + rate l * (last_time t0 cs - t0).
Proof.
  intros Hr Hc Hord Hb. set (k := bucket_key key op) in *.
  assert (within_budget l k t0 0 t0) as Hw.
  { unfold within_budget. destruct (dict_get k (buckets l)) as [[tk lst]|]; [|lra].
    destruct Hb as [[? ?] Heq]. split_and!; [lra..|].
    assert (rate l * (lst - t0) == 0) as -> by (rewrite Heq; ring). lra. }
  pose proof (run_calls_budget cs l k t0 t0 0 Hr Hc ltac:(lra) Hord Hw) as Hspec.
  destruct (run_calls cs l) as [bs l']. destruct Hspec as (Hr' & Hc' & Hb').
  pose proof (in_order_last _ _ Hord) as Hlast.
  unfold within_budget in Hb'. destruct (dict_get k (buckets l')) as [[tk lst]|].
  - destruct Hb' as (H1 & H2 & H3). rewrite Hr', Hc' in H3.
    assert (rate l * (lst - t0) <= rate l * (last_time t0 cs - t0)).
    { rewrite !(Qmult_comm (rate l)). apply Qmult_le_compat_r; lra. }
    lra.
  - assert (0 <= rate l * (last_time t0 cs - t0)) by (apply Qmult_le_0_compat; lra). lra.
Qed.

(** A paced caller is never limited: with room for one token, a call that
    comes at least [1 / rate] after the bucket was last used, or is the first
    one, goes through, and leaves the other principals' buckets alone. *)
Lemma paced_call_goes_through l now_ key op :
  1 <= capacity l →
  match dict_get (bucket_key key op) (buckets l) with
  | Some (tokens, last) => 0 <= tokens /\ 1 <= (now_ - last) * rate l
  | None => True
  end →
  ∃ l', check_rate now_ key op l = (Ret tt, l') ∧
    ∀ k, k ≠ bucket_key key op → dict_get k (buckets l') = dict_get k (buckets l).
Proof.
  intros Hc Hb. unfold check_rate, mbind, M_bind, get_state.
  set (b := default _ _).
  assert (Qle_bool 1 (refill l b now_) = true) as ->.
  { apply Qle_bool_iff. unfold refill, b. apply Q.min_glb; [done|].
    destruct (dict_get (bucket_key key op) (buckets l)) as [[tk lst]|]; cbn; [lra|].
    assert ((now_ - now_) * rate l == 0) as -> by ring. lra. }
  eexists. split; [done|]. intros k Hk. cbn. by rewrite dict_get_set_ne.
Qed.

(** Two calls a second apart against one token per two seconds. *)
Definition sample_limiter : TokenBucketRateLimiter := mkLimiter (1 # 2) 1 [].
Definition sample_calls : list call :=
  [mkCall 0 (Some "alice"%string) "subscribe"; mkCall 1 (Some "alice"%string) "subscribe";
   mkCall 1 None "subscribe"].

Example sample_calls_run : (run_calls sample_calls sample_limiter).1 = [true; false; true].
Proof. vm_compute. reflexivity. Qed.

Lemma rate_limit_bound_witness :
  inject_Z (Z.of_nat (accepted ("alice", "subscribe")%string sample_calls [true; false; true]))
    <= 1 + (1 # 2) * (1 - 0).
Proof.
  pose proof (rate_limit_bound sample_calls sample_limiter (Some "alice"%string) "subscribe" 0)
    as Hbound.
  rewrite (surjective_pairing (run_calls _ _)), sample_calls_run in Hbound.
  apply Hbound; [vm_compute; discriminate..| |exact I].
  cbn. split_and!; [vm_compute; discriminate..|exact I].
Defined.

Lemma paced_call_goes_through_witness :
  ∃ l', check_rate 5 (Some "bob"%string) "replay" sample_limiter = (Ret tt, l') ∧
    ∀ k, k ≠ ("bob", "replay")%string → dict_get k (buckets l') = None.
Proof.
  apply (paced_call_goes_through sample_limiter 5 (Some "bob"%string) "replay");
    [vm_compute; discriminate|exact I].
Defined.
