(* ===== verification/Observability.v ===== *)
(** * Metrics and trace ids ([observability.py])

    The calls a publisher makes on its [Metrics] sink, and [InMemoryMetrics]
    as the sink that collects them. The theorems: counters add up exactly, per
    label set and per name, and the snapshot shows them. *)

From Stdlib Require Import QArith.
From S2P Require Import Prelude PyStr Value Errors Effects.
Open Scope Z_scope.

(** [s.removeprefix(p)] *)
Definition removeprefix (p s : string) : string :=
  if String.prefix p s
  then String.substring (String.length p) (String.length s - String.length p) s else s.

(** [trace_id_for(event_id)] *)
Definition trace_id_for (event_id : string) : string := "tr_" +:+ removeprefix "evt_" event_id.

Abbreviation labels := (list (string * string)).

(** One call on the sink: [incr(name, value, **labels)] or
    [observe(name, value, **labels)], a value in microseconds. *)
Inductive MetricCall :=
| Incr (name : string) (n : Z) (ls : labels)
| Observe (name : string) (micros : Z) (ls : labels).

(** Tuple order on label pairs. *)
Definition label_leb (x y : string * string) : bool :=
  if bool_decide (x.1 = y.1) then String.leb x.2 y.2 else String.leb x.1 y.1.

(** [_label_key(labels)] *)
Definition label_key (ls : labels) : labels := sort_by label_leb ls.

Record InMemoryMetrics := mkMetrics {
  counters : list ((string * labels) * Z);
  observations : list ((string * labels) * list Z);
}.

Definition empty_metrics : InMemoryMetrics := mkMetrics [] [].

(** [incr(name, value, **labels)] on a [defaultdict(int)] *)
Definition incr (name : string) (n : Z) (ls : labels) : M InMemoryMetrics unit :=
  modify (λ m, mkMetrics
    (dict_set (name, label_key ls) (default 0 (dict_get (name, label_key ls) (counters m)) + n)
       (counters m)) (observations m)).

(** [observe(name, value, **labels)] *)
Definition observe (name : string) (v : Z) (ls : labels) : M InMemoryMetrics unit :=
  modify (λ m, mkMetrics (counters m)
    (dict_set (name, label_key ls)
       (default [] (dict_get (name, label_key ls) (observations m)) ++ [v]) (observations m))).

(** [get(name, **labels)] *)
Definition get_counter (name : string) (ls : labels) (m : InMemoryMetrics) : Z :=
  default 0 (dict_get (name, label_key ls) (counters m)).

(** [total(name)] *)
Definition total (name : string) (m : InMemoryMetrics) : Z :=
  foldr (λ e s, (if bool_decide (e.1.1 = name) then e.2 else 0) + s) 0 (counters m).

(** [observations_for(name)] *)
Definition observations_for (name : string) (m : InMemoryMetrics) : list Z :=
  concat ((λ e, if bool_decide (e.1.1 = name) then e.2 else []) <$> observations m).

(** [NullMetrics.incr], [NullMetrics.observe] *)
Definition null_incr {W} (_ : string) (_ : Z) (_ : labels) : M W unit := mret tt.
Definition null_observe {W} (_ : string) (_ : Z) (_ : labels) : M W unit := mret tt.

(** [_render(name, labels)] *)
Definition render (name : string) (ls : labels) : string :=
  match ls with
  | [] => name
  | _ => name +:+ "{" +:+ String.concat "," ((λ kv, kv.1 +:+ "=" +:+ kv.2) <$> ls) +:+ "}"
  end.

(** [sum(values) / len(values)], in seconds *)
Definition average (values : list Z) : Q :=
  (inject_Z (foldr Z.add 0%Z values) / inject_Z (Z.of_nat (length values)) / 1000000)%Q.

Definition rendered {V} (k : string * labels) (v : V) (d : list (string * V)) : list (string * V) :=
  dict_set (render k.1 k.2) v d.

(** [snapshot()]: the ["counters"] and the ["averages"], one entry per
    rendered name; a later label set that renders alike replaces an earlier one. *)
Definition snapshot (m : InMemoryMetrics) : list (string * Z) * list (string * Q) :=
  (foldl (λ d e, rendered e.1 e.2 d) [] (counters m),
   foldl (λ d e, match e.2 with [] => d | vs => rendered e.1 (average vs) d end) []
     (observations m)).

Definition apply_call (m : InMemoryMetrics) (c : MetricCall) : InMemoryMetrics :=
  match c with
  | Incr n v ls => (incr n v ls m).2
  | Observe n v ls => (observe n v ls m).2
  end.

(** A sink that received the calls in order. *)
Definition collect (cs : list MetricCall) : InMemoryMetrics := foldl apply_call empty_metrics cs.

(** What a call adds to a counter. *)
Definition adds_to (name : string) (ls : labels) (c : MetricCall) : Z :=
  match c with
  | Incr n v ls' => if bool_decide (n = name ∧ label_key ls' = label_key ls) then v else 0
  | Observe _ _ _ => 0
  end.
Definition adds_to_total (name : string) (c : MetricCall) : Z :=
  match c with
  | Incr n v _ => if bool_decide (n = name) then v else 0
  | Observe _ _ _ => 0
  end.

Definition sum_of {A} (f : A → Z) (l : list A) : Z := foldr (λ x s, f x + s) 0 l.

Lemma sum_of_app {A} (f : A → Z) l1 l2 : sum_of f (l1 ++ l2) = sum_of f l1 + sum_of f l2.
Proof. induction l1 as [|x l1 IH]; simpl; lia. Qed.

Lemma dict_set_sum (name : string) k v (d : list ((string * labels) * Z)) :
  let w (e : (string * labels) * Z) := if bool_decide (e.1.1 = name) then e.2 else 0 in
  sum_of w (dict_set k (default 0 (dict_get k d) + v) d) =
  sum_of w d + (if bool_decide (k.1 = name) then v else 0).
Proof.
  intros w. induction d as [|[k' v'] d IH]; simpl.
  - unfold w; simpl. case_bool_decide; lia.
  - destruct (decide (k = k')) as [->|Hne]; simpl.
    + unfold w; simpl. case_bool_decide; lia.
    + rewrite IH. lia.
Qed.

Lemma collect_snoc cs c : collect (cs ++ [c]) = apply_call (collect cs) c.
Proof. unfold collect. by rewrite foldl_snoc. Qed.

(** The in-memory sink counts exactly: after any calls, a counter holds the
    sum of the increments made under its name with the same labels (in any
    keyword order), and the total of a name the sum over all its label sets. *)
Theorem metrics_add_up cs name ls :
  get_counter name ls (collect cs) = sum_of (adds_to name ls) cs ∧
  total name (collect cs) = sum_of (adds_to_total name) cs.
Proof.
  induction cs as [|c cs [IH1 IH2]] using rev_ind; [done|].
  rewrite collect_snoc, !sum_of_app, <- IH1, <- IH2.
  destruct c as [n v ls'|n v ls']; simpl; [|unfold get_counter, total; simpl; lia]. split.
  - unfold get_counter; simpl. rewrite dict_get_set.
    case_decide as E; simpl.
    + injection E as -> Hls. rewrite bool_decide_true by done. rewrite Hls. lia.
    + rewrite bool_decide_false; [lia|]. intros [-> Hls]. by rewrite Hls in E.
  - unfold total; simpl. pose proof (dict_set_sum name (n, label_key ls') v
      (counters (collect cs))) as Hsum. simpl in Hsum. unfold sum_of in Hsum. rewrite Hsum. lia.
Qed.

(** ** The snapshot *)

Section Rendered.
Context {V V' : Type} (f : V → option V') (k : string * labels).

Definition add_rendered (d : list (string * V')) (e : (string * labels) * V) : list (string * V') :=
  match f e.2 with Some v => rendered e.1 v d | None => d end.

(** A fold that renders its entries, looked up at a name that only [k] renders to. *)
Lemma rendered_get l d :
  NoDup l.*1 → (∀ k', k' ∈ l.*1 → render k'.1 k'.2 = render k.1 k.2 → k' = k) →
  dict_get (render k.1 k.2) (foldl add_rendered d l) =
  match dict_get k l ≫= f with
  | Some v => Some v
  | None => dict_get (render k.1 k.2) d
  end.
Proof.
  revert d. induction l as [|[k' v] l IH]; intros d Hnd Hinj; [done|].
  apply NoDup_cons in Hnd as [Hnin Hnd]. cbn [foldl]. rewrite IH; [|done|].
  2:{ intros k2 Hk2. apply Hinj. by right. }
  assert (k ∉ l.*1 → dict_get k l = None) as Hmiss.
  { intros Hk. apply eq_None_not_Some. by rewrite <- dict_get_keys. }
  unfold add_rendered at 1, rendered; cbn [fst snd dict_get].
  destruct (decide (k = k')) as [<-|Hne].
  - rewrite Hmiss by done. simpl. destruct (f v); simpl; [by rewrite dict_get_set_eq|done].
  - destruct (dict_get k l ≫= f); [done|]. destruct (f v); [|done].
    rewrite dict_get_set, decide_False; [done|]. intros E. apply Hne. symmetry.
    apply Hinj; [by left|done].
Qed.
End Rendered.

(** The dictionaries of the sink hold every key once. *)
Definition metrics_wf (m : InMemoryMetrics) : Prop :=
  dict_wf (counters m) ∧ dict_wf (observations m).

Lemma collect_wf cs : metrics_wf (collect cs).
Proof.
  induction cs as [|c cs [IH1 IH2]] using rev_ind; [split; apply NoDup_nil_2|].
  rewrite collect_snoc. destruct c; split; simpl; try done; by apply dict_set_wf.
Qed.

(** The snapshot shows the value of every counter, and the mean of every
    non-empty series, whose rendered name no other label set shares. *)
Lemma snapshot_shows cs name ls :
  let m := collect cs in let k := (name, label_key ls) in
  (∀ k', k' ∈ dict_keys (counters m) ++ dict_keys (observations m) →
     render k'.1 k'.2 = render k.1 k.2 → k' = k) →
  dict_get (render k.1 k.2) (snapshot m).1 = dict_get k (counters m) ∧
  dict_get (render k.1 k.2) (snapshot m).2 =
    match dict_get k (observations m) with
    | None | Some [] => None
    | Some vs => Some (average vs)
    end.
Proof.
  intros m k Hinj. destruct (collect_wf cs) as [Hc Ho]. split.
  - pose proof (rendered_get Some k (counters m) [] Hc) as H.
    unfold add_rendered in H. unfold snapshot; cbn [fst]. rewrite H.
    + by destruct (dict_get k (counters m)).
    + intros k' Hk'. apply Hinj, elem_of_app. by left.
  - pose proof (rendered_get (λ vs : list Z, match vs with [] => None | _ => Some (average vs) end)
      k (observations m) [] Ho) as H.
    assert (∀ d l, foldl (add_rendered (λ vs : list Z, match vs with [] => None | _ => Some (average vs) end)) d l =
      foldl (λ d e, match e.2 with [] => d | vs => rendered e.1 (average vs) d end) d l) as Hext.
    { intros d l. revert d. induction l as [|[k' [|v vs]] l IH]; intros d; [done|apply IH..]. }
    rewrite Hext in H. unfold snapshot; cbn [snd]. rewrite H.
    + by destruct (dict_get k (observations m)) as [[|v vs]|].
    + intros k' Hk'. apply Hinj, elem_of_app. by right.
Qed.

(** Labels are not escaped, so two counters can share a name, and then the
    snapshot shows one of them only. *)
Example snapshot_conflates :
  let m := collect [Incr "n" 1 [("a", "1,b=2")]; Incr "n" 5 [("a", "1"); ("b", "2")]]%string in
  get_counter "n" [("a", "1,b=2")]%string m = 1 ∧ total "n" m = 6 ∧
  snapshot m = ([("n{a=1,b=2}", 5)]%string, []).
Proof. by vm_compute. Qed.

Example trace_of_event : trace_id_for "evt_7f" = "tr_7f"%string.
Proof. reflexivity. Qed.
Example trace_of_foreign : trace_id_for "x" = "tr_x"%string.
Proof. reflexivity. Qed.
