(* ===== verification/Auth.v ===== *)
(** * Authentication and authorization ([auth.py])

    Caller identities, the bearer header, the grant table that is consulted at
    subscribe and at delivery time, and the per-subscription delivery token.
    HMAC-SHA256 is a parameter. *)

From S2P Require Import Prelude PyStr Value Errors Effects Models Base64 Canonical.
Open Scope Z_scope.

Record AuthIdentity := mkAuthIdentity {
  ident_subject : string;
  scopes : gset string;
  claims : list (string * value);
}.

(** [bearer_token(headers)] *)
Fixpoint bearer_token (headers : list (string * string)) : option string :=
  match headers with
  | [] => None
  | (key, v) :: rest =>
      if bool_decide (lower key = "authorization"%string) then
        let '(scheme, token) := partition_on space v in
        if bool_decide (lower scheme = "bearer"%string) && negb (bool_decide (token = EmptyString))
        then Some (strip token) else bearer_token rest
      else bearer_token rest
  end.

(** ** [AllowlistAuthorizer] *)

Record AllowlistAuthorizer := mkAuthorizer {
  grants : list (string * gset string);
  public_topics : gset string;
}.

(** [_grants.get(subject, set())] *)
Definition granted (a : AllowlistAuthorizer) (subject : string) : gset string :=
  default ∅ (dict_get subject (grants a)).

(** [grant(subject, topics)] *)
Definition grant (subject : string) (ts : gset string) : M AllowlistAuthorizer unit :=
  modify (λ a, mkAuthorizer (dict_set subject (granted a subject ∪ ts) (grants a))
                 (public_topics a)).

(** [revoke(subject, topics)]: without topics, the whole entry. *)
Definition revoke (subject : string) (ts : option (gset string)) : M AllowlistAuthorizer unit :=
  modify (λ a, match ts, dict_get subject (grants a) with
               | None, _ => mkAuthorizer (dict_pop subject (grants a)) (public_topics a)
               | Some ts, Some g =>
                   mkAuthorizer (dict_set subject (g ∖ ts) (grants a)) (public_topics a)
               | Some _, None => a
               end).

Definition wildcard : string := "*".

(** [_allowed(subject, topic)] *)
Definition allowed (a : AllowlistAuthorizer) (subject : option string) (topic : string) : bool :=
  if bool_decide (topic ∈ public_topics a) then true
  else match subject with
       | None => false
       | Some s => bool_decide (wildcard ∈ granted a s) || bool_decide (topic ∈ granted a s)
       end.

(** [authorize_subscribe(identity, topics)] *)
Definition authorize_subscribe (a : AllowlistAuthorizer) (identity : option AuthIdentity)
    (ts : list string) : outcome unit :=
  let subject := ident_subject <$> identity in
  let denied := List.filter (λ t, negb (allowed a subject t)) ts in
  match denied with
  | [] => mret tt
  | _ => Raise (A2AEventsError TOPIC_NOT_AUTHORIZED
           ("Caller is not authorized for topic(s): " +:+ str_join ", " denied +:+ ".")
           [("topics"%string, VList (VStr <$> denied));
            ("subject"%string, match subject with Some s => VStr s | None => VNone end)])
  end.

(** [authorize_delivery(subscription)] *)
Definition authorize_delivery (a : AllowlistAuthorizer) (u : Subscription) : bool :=
  forallb (allowed a (Some (subscriber_card_url u))) (topics u).

(** ** [DeliveryTokenIssuer] *)

Definition SCHEME : string := "bearer".
Definition PREFIX : string := "dtok_".

(** [hmac.compare_digest(a, b)] on strings: both must be ASCII. *)
Definition compare_digest (a b : string) : outcome bool :=
  if is_ascii a && is_ascii b then mret (bool_decide (a = b))
  else Raise (TypeError "comparing strings with non-ASCII characters is not supported").

Class Hmac := { hmac_sha256 : string → string → string }.

Section Tokens.
Context `{Hmac}.

(** [issue(subscription_id)] under the issuer's secret *)
Definition issue (secret sid : string) : string :=
  PREFIX +:+ b64url (hmac_sha256 secret (utf8 sid)).

(** [verify(subscription_id, token)] *)
Definition verify_token (secret sid : string) (token : option string) : outcome bool :=
  match token with
  | None => mret false
  | Some t => if bool_decide (t = EmptyString) then mret false
              else compare_digest t (issue secret sid)
  end.

Lemma issue_ascii secret sid : is_ascii (issue secret sid) = true.
Proof. unfold issue, is_ascii. rewrite str_forall_app. apply b64url_ascii. Qed.

Lemma issue_nonempty secret sid : issue secret sid ≠ EmptyString.
Proof. done. Qed.

Lemma utf8_inj : ∀ a b, utf8 a = utf8 b → a = b.
Proof.
  induction a as [|c a IH]; intros [|d b]; unfold utf8 in *; simpl; [done| | |].
  - unfold utf8_char. by destruct (code d <? 128).
  - unfold utf8_char. by destruct (code c <? 128).
  - pose proof (code_range c) as Hc. pose proof (code_range d) as Hd. unfold utf8_char.
    destruct (Z.ltb_spec (code c) 128), (Z.ltb_spec (code d) 128); simpl; rewrite ?append_cons.
    + intros E. injection E as -> E. f_equal. by apply IH.
    + intros E. injection E as E _. exfalso. apply (f_equal code) in E.
      rewrite code_chr in E; Z.div_mod_to_equations; lia.
    + intros E. injection E as E _. exfalso. apply (f_equal code) in E.
      rewrite code_chr in E; Z.div_mod_to_equations; lia.
    + intros E. injection E as E1 E2 E. f_equal; [|by apply IH].
      apply (f_equal code) in E1, E2. rewrite !code_chr in E1, E2 by (Z.div_mod_to_equations; lia).
      apply code_inj. Z.div_mod_to_equations; lia.
Qed.

(** Delivery tokens are scoped to one subscription: the token the publisher
    issues verifies for its own subscription, and, as long as HMAC does not
    collide on the two identifiers, for no other. *)
Lemma token_scoped secret sid sid' :
  (hmac_sha256 secret (utf8 sid) = hmac_sha256 secret (utf8 sid') → utf8 sid = utf8 sid') →
  verify_token secret sid' (Some (issue secret sid)) = Ret (bool_decide (sid = sid')).
Proof.
  intros Hcoll. unfold verify_token. rewrite bool_decide_false by apply issue_nonempty.
  unfold compare_digest. rewrite !issue_ascii. simpl. f_equal. apply bool_decide_ext.
  split; [|by intros ->]. intros E. unfold issue in E. apply (inj (String.append PREFIX)) in E.
  apply b64url_inj in E. by apply utf8_inj, Hcoll.
Qed.
End Tokens.

(** ** Grants *)

Lemma allowed_spec a subject topic :
  allowed a subject topic = true ↔
  topic ∈ public_topics a ∨
  ∃ s, subject = Some s ∧ (wildcard ∈ granted a s ∨ topic ∈ granted a s).
Proof.
  unfold allowed. case_bool_decide as Hp; [naive_solver|].
  destruct subject as [s|]; [|naive_solver].
  rewrite orb_true_iff, !bool_decide_eq_true. naive_solver.
Qed.

(** Subscribing and delivering consult the same table: for a caller whose
    identity is the subscriber card, [authorize_subscribe] accepts the topics
    exactly when [authorize_delivery] would deliver them, and a denial is
    [TOPIC_NOT_AUTHORIZED] naming exactly the topics that are not allowed. *)
Lemma subscribe_and_delivery_agree a identity u :
  ident_subject identity = subscriber_card_url u →
  (authorize_delivery a u = true ↔ authorize_subscribe a (Some identity) (topics u) = Ret tt) ∧
  (authorize_delivery a u = false →
   ∃ msg denied, authorize_subscribe a (Some identity) (topics u) =
     Raise (A2AEventsError TOPIC_NOT_AUTHORIZED msg
       [("topics"%string, VList (VStr <$> denied));
        ("subject"%string, VStr (subscriber_card_url u))]) ∧
     ∀ t, t ∈ denied ↔ t ∈ topics u ∧ allowed a (Some (subscriber_card_url u)) t = false).
Proof.
  intros Hid. unfold authorize_delivery, authorize_subscribe. simpl. rewrite Hid.
  set (f := allowed a (Some (subscriber_card_url u))).
  assert (∀ t, t ∈ List.filter (λ t, negb (f t)) (topics u) ↔ t ∈ topics u ∧ f t = false) as Hden.
  { intros t. rewrite list_elem_of_In, List.filter_In, <- list_elem_of_In, negb_true_iff. done. }
  destruct (List.filter (λ t, negb (f t)) (topics u)) as [|d ds] eqn:E.
  - assert (forallb f (topics u) = true) as Hall.
    { apply List.forallb_forall. intros t Ht%list_elem_of_In.
      destruct (f t) eqn:Hf; [done|]. assert (t ∈ @nil string) as Hn by by apply Hden.
      by apply elem_of_nil in Hn. }
    rewrite Hall. by split.
  - assert (forallb f (topics u) = false) as Hall.
    { apply not_true_iff_false. rewrite List.forallb_forall. intros Hf.
      destruct (proj1 (Hden d) ltac:(left)) as [Hd Hfd].
      rewrite Hf in Hfd; [done|by apply list_elem_of_In]. }
    rewrite Hall. split; [by split|]. intros _. do 2 eexists. split; [done|]. done.
Qed.

(** Revoking a whole entry stops deliveries: afterwards a subscription of
    that subject is delivered only if all its topics are public. Revoking some
    topics stops those deliveries too, unless the subject holds the wildcard,
    which a per-topic revocation does not touch. *)
Lemma revocation_stops_delivery a u :
  dict_wf (grants a) →
  let subject := subscriber_card_url u in
  (authorize_delivery (revoke subject None a).2 u = true ↔
     ∀ t, t ∈ topics u → t ∈ public_topics a) ∧
  ∀ ts t, t ∈ topics u → t ∈ ts → (t ∉ public_topics a) → (wildcard ∉ ts) →
    authorize_delivery (revoke subject (Some ts) a).2 u = true → wildcard ∈ granted a subject.
Proof.
  intros Hwf subject. unfold authorize_delivery. rewrite List.forallb_forall. split.
  - assert (granted (revoke subject None a).2 subject = ∅) as Hnone.
    { unfold granted; simpl. by rewrite dict_get_pop_eq. }
    split.
    + intros Hall t Ht. specialize (Hall t (proj1 (list_elem_of_In _ _) Ht)).
      apply allowed_spec in Hall as [?|(s & [= <-] & Hs)]; [done|].
      fold subject in Hs. rewrite Hnone in Hs. set_solver.
    + intros Hpub t Ht. apply allowed_spec. left. by apply Hpub, list_elem_of_In.
  - intros ts t Ht Hts Hpub Hw Hall. rewrite List.forallb_forall in Hall.
    specialize (Hall t (proj1 (list_elem_of_In _ _) Ht)). apply allowed_spec in Hall.
    unfold revoke, modify in Hall; simpl in Hall. unfold granted in *.
    fold subject in Hall. destruct (dict_get subject (grants a)) as [g|] eqn:Hg; simpl in *.
    + destruct Hall as [?|(s & [= <-] & Hs)]; [done|].
      fold subject in Hs. rewrite dict_get_set_eq in Hs. simpl in Hs. set_solver.
    + destruct Hall as [?|(s & [= <-] & Hs)]; [done|].
      fold subject in Hs. rewrite Hg in Hs. set_solver.
Qed.

(** ** Examples *)

Definition toy_hmac : Hmac := {| hmac_sha256 := λ k m, k +:+ m |}.

Lemma token_scoped_witness :
  verify_token (H := toy_hmac) "secret" "sub_2" (Some (issue (H := toy_hmac) "secret" "sub_1"))
  = Ret false.
Proof.
  change false with (bool_decide ("sub_1" = "sub_2")%string).
  apply (token_scoped (H := toy_hmac) "secret" "sub_1" "sub_2"). discriminate.
Defined.

(** A token with a non-ASCII character is not refused but raises. *)
Example non_ascii_token :
  verify_token (H := toy_hmac) "secret" "sub_1" (Some (String (chr 233) EmptyString))
  = Raise (TypeError "comparing strings with non-ASCII characters is not supported").
Proof. vm_compute. reflexivity. Qed.

Definition sample_subscription : Subscription :=
  mkSubscription "sub_1" ACTIVE "https://pub/card" "https://alice/card" ["orders"; "audit"]%string
    None (mkResolvedDelivery WEBHOOK (Some "https://alice/hook"%string) None) 0 60000000 [] [].

Definition sample_authorizer : AllowlistAuthorizer :=
  mkAuthorizer [("https://alice/card"%string, {["orders"%string]})] {["news"%string]}.

Lemma subscribe_and_delivery_agree_witness :
  authorize_delivery sample_authorizer sample_subscription = false ∧
  ∃ msg denied, authorize_subscribe sample_authorizer
      (Some (mkAuthIdentity "https://alice/card" ∅ [])) (topics sample_subscription) =
     Raise (A2AEventsError TOPIC_NOT_AUTHORIZED msg
       [("topics"%string, VList (VStr <$> denied)); ("subject"%string, VStr "https://alice/card")]) ∧
     ∀ t, t ∈ denied ↔ t ∈ topics sample_subscription ∧
       allowed sample_authorizer (Some "https://alice/card"%string) t = false.
Proof.
  split; [vm_compute; reflexivity|].
  apply (proj2 (subscribe_and_delivery_agree sample_authorizer
    (mkAuthIdentity "https://alice/card" ∅ []) sample_subscription eq_refl)).
  vm_compute. reflexivity.
Defined.

Lemma revocation_stops_delivery_witness :
  authorize_delivery (revoke "https://alice/card" None sample_authorizer).2 sample_subscription
    = true ↔ ∀ t, t ∈ topics sample_subscription → t ∈ public_topics sample_authorizer.
Proof.
  apply (proj1 (revocation_stops_delivery sample_authorizer sample_subscription
    (NoDup_singleton _))).
Defined.

Example bearer_header :
  bearer_token [("X-Other", "1"); ("AUTHORIZATION", "bearer  tok ")]%string = Some "tok"%string.
Proof. vm_compute. reflexivity. Qed.
