(* ===== verification/Ssrf.v ===== *)
(** * SSRF guard ([runtime/ssrf.py])

    [check_endpoint] over the URL splitter and the [ipaddress] module, which
    are parameters. The theorem characterizes what an accepted URL satisfies
    and which errors a refused one gets. *)

From S2P Require Import Prelude PyStr Value Errors Effects.
Open Scope Z_scope.

(** The flags of an [IPv4Address] or [IPv6Address]. *)
Record ip := mkIp {
  is_loopback : bool;
  is_link_local : bool;
  is_private : bool;
  is_reserved : bool;
  is_unspecified : bool;
  is_multicast : bool;
}.

(** [urllib.parse.urlsplit] (scheme and hostname) and [ipaddress.ip_address]
    ([None] for its [ValueError]). *)
Class Net := {
  urlsplit : string → outcome (string * option string);
  ip_address : string → option ip;
}.

Record SSRFPolicy := mkSSRFPolicy {
  block_loopback : bool;
  block_private : bool;
  block_link_local : bool;
  block_reserved : bool;
  require_https : bool;
  allow_hosts : gset string;
  resolve : option (string → outcome (list string));
}.

(** [SSRFPolicy()] *)
Definition default_policy : SSRFPolicy := mkSSRFPolicy true true true true false ∅ None.

(** [_reject(url, reason)] *)
Definition reject (url reason : string) : exn :=
  A2AEventsError DELIVERY_ENDPOINT_BLOCKED
    ("Delivery endpoint is not allowed: " +:+ reason +:+ ".")
    [("endpoint"%string, VStr url); ("reason"%string, VStr reason)].

(** [_screen_ip(url, ip, policy)] *)
Definition screen_ip (url : string) (i : ip) (p : SSRFPolicy) : outcome unit :=
  if block_loopback p && is_loopback i then Raise (reject url "loopback address")
  else if block_link_local p && is_link_local i then Raise (reject url "link-local address")
  else if block_private p && is_private i then Raise (reject url "private address")
  else if block_reserved p && (is_reserved i || is_unspecified i || is_multicast i)
  then Raise (reject url "reserved address")
  else mret tt.

(** [host.endswith(suffix)] *)
Definition endswith (suffix s : string) : bool :=
  let n := String.length s in let k := String.length suffix in
  (k <=? n)%nat && String.eqb (String.substring (n - k) k s) suffix.

Section Check.
Context `{Net}.

(** The loop over the resolved addresses. *)
Fixpoint screen_all (url : string) (p : SSRFPolicy) (addresses : list string) : outcome unit :=
  match addresses with
  | [] => mret tt
  | addr :: rest =>
      match ip_address addr with
      | None => Raise (ValueError "not an IP address")
      | Some i => _ ← screen_ip url i p; screen_all url p rest
      end
  end.

Definition loopback_name (host : string) : bool :=
  bool_decide (host = "localhost"%string) || endswith ".localhost" host.

(** [check_endpoint(url, policy)] *)
Definition check_endpoint (url : string) (p : SSRFPolicy) : outcome unit :=
  parts ← urlsplit url;
  let scheme := lower parts.1 in
  if negb (bool_decide (scheme = "http"%string) || bool_decide (scheme = "https"%string))
  then Raise (reject url ("unsupported scheme " +:+ repr scheme))
  else if require_https p && negb (bool_decide (scheme = "https"%string))
  then Raise (reject url "https required")
  else
    match parts.2 with
    | None | Some EmptyString => Raise (reject url "missing host")
    | Some h =>
        let host := lower h in
        if bool_decide (host ∈ allow_hosts p) then mret tt
        else if block_loopback p && loopback_name host
        then Raise (reject url "loopback hostname")
        else
          match ip_address host with
          | Some i => screen_ip url i p
          | None =>
              match resolve p with
              | None => mret tt
              | Some f =>
                  addresses ← f host;
                  match addresses with
                  | [] => Raise (reject url "host did not resolve")
                  | _ => screen_all url p addresses
                  end
              end
          end
    end.

(** An address no class of which the policy blocks. *)
Definition address_ok (p : SSRFPolicy) (i : ip) : Prop :=
  (block_loopback p = true → is_loopback i = false) ∧
  (block_link_local p = true → is_link_local i = false) ∧
  (block_private p = true → is_private i = false) ∧
  (block_reserved p = true →
     is_reserved i = false ∧ is_unspecified i = false ∧ is_multicast i = false).

Lemma screen_ip_spec url i p :
  (address_ok p i ∧ screen_ip url i p = Ret tt) ∨
  (¬ address_ok p i ∧ ∃ reason, screen_ip url i p = Raise (reject url reason)).
Proof.
  unfold screen_ip, address_ok.
  destruct (block_loopback p && is_loopback i) eqn:E1.
  { apply andb_true_iff in E1 as [H1 H2]. right. rewrite H2. split; [naive_solver|eauto]. }
  destruct (block_link_local p && is_link_local i) eqn:E2.
  { apply andb_true_iff in E2 as [H1 H2]. right. rewrite H2. split; [naive_solver|eauto]. }
  destruct (block_private p && is_private i) eqn:E3.
  { apply andb_true_iff in E3 as [H1 H2]. right. rewrite H2. split; [naive_solver|eauto]. }
  destruct (block_reserved p && _) eqn:E4.
  { apply andb_true_iff in E4 as [H1 H2]. right. split; [|eauto].
    intros (_ & _ & _ & Hres). destruct (Hres H1) as (R1 & R2 & R3).
    by rewrite R1, R2, R3 in H2. }
  left. split; [|done]. split_and!.
  - intros Hb. by rewrite Hb in E1.
  - intros Hb. by rewrite Hb in E2.
  - intros Hb. by rewrite Hb in E3.
  - intros Hb. rewrite Hb in E4. by apply orb_false_iff in E4 as [[? ?]%orb_false_iff ?].
Qed.

Lemma screen_all_ok url p addresses :
  screen_all url p addresses = Ret tt →
  Forall (λ a, ∃ i, ip_address a = Some i ∧ address_ok p i) addresses.
Proof.
  induction addresses as [|a rest IH]; simpl; [constructor|].
  destruct (ip_address a) as [i|] eqn:Ha; [|done].
  destruct (screen_ip_spec url i p) as [[Hok ->]|[_ [reason ->]]]; [|done]. simpl.
  intros Hrest. constructor; [by exists i|auto].
Qed.

(** C37: the guard is sound: an accepted URL is http(s) (https if required) and
    names a host that is allow-listed, or else is none of the loopback names the
    code knows ("localhost" and the names that end in ".localhost", not
    "localhost."), is not an IP literal of a blocked class, and, if the policy has
    a resolver (the default one has none and lets every other name pass),
    resolves to at least one address and only to addresses that are not
    blocked. *)
Theorem accepted_endpoint_is_safe url p :
  check_endpoint url p = Ret tt →
  ∃ scheme h, urlsplit url = Ret (scheme, Some h) ∧ h ≠ EmptyString ∧
    (lower scheme = "https"%string ∨ (lower scheme = "http"%string ∧ require_https p = false)) ∧
    let host := lower h in
    (host ∈ allow_hosts p ∨
     ((block_loopback p = true → loopback_name host = false) ∧
      (∀ i, ip_address host = Some i → address_ok p i) ∧
      ∀ f, ip_address host = None → resolve p = Some f →
        ∃ addrs, f host = Ret addrs ∧ addrs ≠ [] ∧
          Forall (λ a, ∃ i, ip_address a = Some i ∧ address_ok p i) addrs)).
Proof.
  unfold check_endpoint. destruct (urlsplit url) as [[scheme h]|e|]; simpl; [|done..].
  destruct (negb _) eqn:Hs; [done|].
  destruct (require_https p && _) eqn:Hreq; [done|].
  destruct h as [[|c h]|]; [done| |done].
  assert (lower scheme = "https"%string ∨ (lower scheme = "http"%string ∧ require_https p = false))
    as Hscheme.
  { apply negb_false_iff, orb_true_iff in Hs. rewrite !bool_decide_eq_true in Hs.
    destruct Hs as [Hs|Hs]; [|by left]. right. split; [done|].
    apply andb_false_iff in Hreq as [?|Hb]; [done|].
    apply negb_false_iff, bool_decide_eq_true in Hb. congruence. }
  intros Hrest. exists scheme, (String c h). split_and!; [done..|].
  case_bool_decide; [by left|]. right.
  destruct (block_loopback p && loopback_name (lower (String c h))) eqn:Hloop; [done|].
  split_and!.
  - intros Hb. by rewrite Hb in Hloop.
  - intros i Hi. rewrite Hi in Hrest.
    destruct (screen_ip_spec url i p) as [[Hok _]|[_ [reason E]]]; [done|].
    by rewrite E in Hrest.
  - intros f Hi Hf. rewrite Hi, Hf in Hrest.
    destruct (f (lower (String c h))) as [[|a addrs]|e|]; try done.
    exists (a :: addrs). split_and!; [done..|]. by eapply screen_all_ok.
Qed.
End Check.

(** A splitter and address table for the examples. *)
Definition sample_net : Net := {|
  urlsplit := λ u,
    if String.prefix "http://" u
    then Ret ("http"%string, Some (String.substring 7 (String.length u - 7) u))
    else Ret ("ftp"%string, None);
  ip_address := λ s,
    if bool_decide (s = "10.0.0.1"%string) then Some (mkIp false false true false false false)
    else if bool_decide (s = "93.184.216.34"%string)
    then Some (mkIp false false false false false false) else None;
|}.

Lemma accepted_endpoint_is_safe_witness :
  let p := mkSSRFPolicy true true true true false ∅ (Some (λ _, Ret ["93.184.216.34"%string])) in
  ∃ scheme h, urlsplit (Net := sample_net) "http://Hook.example" = Ret (scheme, Some h) ∧
    h ≠ EmptyString ∧
    (lower scheme = "https"%string ∨ (lower scheme = "http"%string ∧ require_https p = false)) ∧
    let host := lower h in
    (host ∈ allow_hosts p ∨
     ((block_loopback p = true → loopback_name host = false) ∧
      (∀ i, ip_address (Net := sample_net) host = Some i → address_ok p i) ∧
      ∀ f, ip_address (Net := sample_net) host = None → resolve p = Some f →
        ∃ addrs, f host = Ret addrs ∧ addrs ≠ [] ∧
          Forall (λ a, ∃ i, ip_address (Net := sample_net) a = Some i ∧ address_ok p i) addrs)).
Proof.
  apply (accepted_endpoint_is_safe (H := sample_net)). vm_compute. reflexivity.
Defined.

(** The fully qualified spelling of localhost passes the default policy. *)
Example trailing_dot_localhost :
  check_endpoint (H := sample_net) "http://localhost" default_policy
    = Raise (reject "http://localhost" "loopback hostname") ∧
  check_endpoint (H := sample_net) "http://localhost." default_policy = Ret tt.
Proof. split; vm_compute; reflexivity. Qed.
