(* ===== verification/Contracts.v ===== *)
(** * Backend contracts ([runtime/contracts.py])

    The records exchanged between the publisher and its backends, and the
    backend protocols as type classes: operations first, then the laws that
    the publisher's theorems rely on. The laws are stated against an abstract
    view of the backend: per topic a log of events, per subscription a map of
    dispatch positions, and the list of recorded delivery attempts. *)

From S2P Require Import Prelude PyStr Value Errors Effects Models Cursor Canonical.
Open Scope Z_scope.

(** ** Records *)

Record EventRecord := mkEventRecord {
  event_id : string;
  ev_topic : string;
  ev_cursor : string;
  event_type : string;
  source : string;
  data : list (string * value);
  subject : option string;
  ev_created_at : Z;
  content_hash : string;
}.

Record DeadLetter := mkDeadLetter {
  dl_subscription_id : string;
  dl_event_id : string;
  dl_cursor : string;
  dl_reason : string;
}.

Record DeliveryAttempt := mkDeliveryAttempt {
  delivery_attempt_id : string;
  da_subscription_id : string;
  da_event_id : string;
  da_cursor : string;
  attempt : Z;
  da_status : string;
  last_status_code : option Z;
  last_error : option string;
}.

Record RetryItem := mkRetryItem {
  retry_id : string;
  ri_subscription_id : string;
  ri_topic : string;
  ri_cursor : string;
  ri_event_id : string;
  ri_attempt : Z;
  next_retry_at : Z;
  ri_last_error : option string;
}.

Record DeliveryResult := mkDeliveryResult {
  ack : bool;
  retry : bool;
  status_code : option Z;
  reason : option string;
}.

Section Ids.
Context `{Platform}.
(** [new_event_id()], [new_attempt_id()], [new_retry_id()] *)
Definition new_event_id : M Env string := u ← uuid4; mret ("evt_" +:+ u).
Definition new_attempt_id : M Env string := u ← uuid4; mret ("da_" +:+ u).
Definition new_retry_id : M Env string := u ← uuid4; mret ("rty_" +:+ u).
End Ids.

(** ** Subscription objects

    [Subscription] is a mutable Python object that the publisher shares with
    the in-memory store, so operations exchange references ([loc]) into a heap
    of objects. *)
Abbreviation loc := positive.

Record Heap := mkHeap { objs : gmap loc Subscription; next_loc : loc }.

Definition alloc {S} (u : Subscription) : M (S * Heap) loc := λ '(s, h),
  (Ret (next_loc h), (s, mkHeap (<[next_loc h := u]> (objs h)) (Pos.succ (next_loc h)))).

(** Attribute reads: the fields of the object behind a reference. *)
Definition deref {S} (l : loc) : M (S * Heap) Subscription := λ '(s, h),
  match objs h !! l with
  | Some u => (Ret u, (s, h))
  | None => (Raise DanglingReference, (s, h))
  end.

(** An attribute assignment. *)
Definition write_obj (l : loc) (u : Subscription) (h : Heap) : Heap :=
  mkHeap (<[l := u]> (objs h)) (next_loc h).

(** ** Abstract event logs *)

Record TopicLog := mkTopicLog {
  log_topic : Topic;
  log_events : list EventRecord;
  next_offset : Z;
}.

(** Numeric offset of a record ([-1] for a malformed cursor, which a
    well-formed log does not hold). *)
Definition rec_offset (r : EventRecord) : Z :=
  match offset_of (ev_cursor r) with Ret n => n | _ => -1 end.

Definition wf_record (topic : string) (next : Z) (r : EventRecord) : Prop :=
  ev_topic r = topic ∧
  ∃ n, 0 ≤ n < next ∧ ev_cursor r = cursor_text topic n.

(** A log: named by its topic, offsets strictly increasing and below the next
    one, cursors canonical, capacity respected. *)
Record wf_log (topic : string) (l : TopicLog) : Prop := {
  wf_name : name (log_topic l) = topic;
  wf_nonempty : topic ≠ EmptyString;
  wf_next : 0 ≤ next_offset l ≤ max_offset;
  wf_records : Forall (wf_record topic (next_offset l)) (log_events l);
  wf_sorted : sorted_by rec_offset (log_events l);
}.

(** Events inside the retention window at time [t]. *)
Definition live_at (l : TopicLog) (t : Z) : list EventRecord :=
  if retention_seconds (log_topic l) <=? 0 then log_events l
  else filter (λ r, t - seconds (retention_seconds (log_topic l)) ≤ ev_created_at r)
         (log_events l).

(** The page a read returns: the records strictly after [start] and not after
    [to], at most [limit] of them, and the cursor of the last one when more
    follow. *)
Definition in_range (start : Z) (to : option Z) (r : EventRecord) : Prop :=
  start < rec_offset r ∧ from_option (λ q, rec_offset r ≤ q) True to.
#[export] Instance in_range_dec start to r : Decision (in_range start to r).
Proof. unfold in_range. destruct to; simpl; apply _. Defined.

Definition read_page (live : list EventRecord) (start : Z) (to : option Z) (limit : Z)
    : list EventRecord * option string :=
  let sel := filter (in_range start to) live in
  let page := take (Z.to_nat (Z.max 1 limit)) sel in
  (page, if (length page <? length sel)%nat then ev_cursor <$> last page else None).

Definition topic_not_found (topic : string) : exn :=
  A2AEventsError TOPIC_NOT_FOUND ("Topic " +:+ topic +:+ " does not exist.")
    [("topic"%string, VStr topic)].

Definition cursor_expired (from_cursor oldest : string) : exn :=
  A2AEventsError CURSOR_EXPIRED
    "The requested cursor is outside the topic retention window."
    [("fromCursor"%string, VStr from_cursor); ("oldestAvailableCursor"%string, VStr oldest)].

(** What a read answers: [CURSOR_EXPIRED] if the position precedes the oldest
    event live at [t2], else the page of the events live at [t1]. *)
Definition read_result (topic : string) (l : TopicLog) (t1 t2 : Z) (from to : option Z)
    (limit : Z) : outcome (list EventRecord * option string) :=
  match from, head (live_at l t2) with
  | Some p, Some oldest =>
      if p <? rec_offset oldest
      then Raise (cursor_expired (cursor_text topic p) (ev_cursor oldest))
      else Ret (read_page (live_at l t1) p to limit)
  | Some p, None => Ret (read_page (live_at l t1) p to limit)
  | None, _ => Ret (read_page (live_at l t1) (-1) to limit)
  end.

Definition log_append (l : TopicLog) (r : EventRecord) : TopicLog :=
  mkTopicLog (log_topic l) (log_events l ++ [r]) (next_offset l + 1).

(** [latest_cursor] of a log. *)
Definition log_latest (topic : string) (l : TopicLog) : string :=
  match last (log_events l) with
  | Some r => ev_cursor r
  | None => cursor_text topic (Z.max (next_offset l - 1) 0)
  end.

(** ** How an operation of a backend ends

    With its effect, or refused with an exception of the backend (a database
    error) and no effect. *)
Definition effect_or_refusal {A Q} (refuses : exn → Prop) (q : Q) (effect : A → Q → Prop)
    (res : outcome A * Q) : Prop :=
  match res with
  | (Ret a, q') => effect a q'
  | (Raise e, q') => refuses e ∧ q' = q
  | (NoFuel, _) => False
  end.

Lemma effect_mono {A Q} refuses (q : Q) (effect effect' : A → Q → Prop) res :
  effect_or_refusal refuses q effect res → (∀ a q', effect a q' → effect' a q') →
  effect_or_refusal refuses q effect' res.
Proof. destruct res as [[a|e|] q']; simpl; auto. Qed.

(** An answer [o], or a refusal. *)
Definition or_refused {A} (refuses : exn → Prop) (r o : outcome A) : Prop :=
  r = o ∨ ∃ e, r = Raise e ∧ refuses e.

(** ** [EventStore] *)

Class EventStore (E : Type) := {
  es_declare_topic : Topic → M (E * Env) unit;
  es_get_topic : string → M (E * Env) Topic;
  es_topics : M (E * Env) (list Topic);
  es_append : string → string → string → list (string * value) → option string →
    M (E * Env) EventRecord;
  es_count : string → M (E * Env) Z;
  es_oldest_available_cursor : string → M (E * Env) (option string);
  es_latest_cursor : string → M (E * Env) string;
  es_read : string → option string → option string → Z →
    M (E * Env) (list EventRecord * option string);
  es_compact : option string → M (E * Env) Z;
}.

(** A value the clock showed between two points of an execution. *)
Definition clock_between `{Platform} (v v' : Env) (t : Z) : Prop :=
  ∃ i, (tick v ≤ i ≤ tick v')%nat ∧ t = clock i.

(** The record a log holds for one that [append] returned: a database may
    reorder the members of its payload. *)
Definition with_data (d : list (string * value)) (r : EventRecord) : EventRecord :=
  mkEventRecord (event_id r) (ev_topic r) (ev_cursor r) (event_type r) (source r) d (subject r)
    (ev_created_at r) (content_hash r).
Definition stored_as (r r' : EventRecord) : Prop :=
  ∃ d, r' = with_data d r ∧ json_eq (VDict (data r)) (VDict d).

Class EventStoreLaws (E : Type) `{EventStore E, Platform} := {
  es_log : E → string → option TopicLog;
  es_inv : E → Prop;
  es_refuses : exn → Prop;
  (** The payloads the backend holds without loss. *)
  es_accepts : list (string * value) → Prop;
  es_refuses_foreign : ∀ e, es_refuses e → is_a2a_error e = false;
  es_inv_wf : ∀ e t l, es_inv e → es_log e t = Some l → wf_log t l;
  es_get_topic_law : ∀ e v t, es_inv e →
    ∃ o, es_get_topic t (e, v) = (o, (e, v)) ∧
      or_refused es_refuses o (match es_log e t with
                               | Some l => Ret (log_topic l)
                               | None => Raise (topic_not_found t)
                               end);
  es_count_law : ∀ e v t, es_inv e →
    ∃ o, es_count t (e, v) = (o, (e, v)) ∧
      or_refused es_refuses o (Ret (from_option next_offset 0 (es_log e t)));
  es_latest_law : ∀ e v t l, es_inv e → es_log e t = Some l →
    ∃ o, es_latest_cursor t (e, v) = (o, (e, v)) ∧ or_refused es_refuses o (Ret (log_latest t l));
  es_read_missing : ∀ e v t from to limit, es_inv e → es_log e t = None →
    ∃ o, es_read t from to limit (e, v) = (o, (e, v)) ∧
      or_refused es_refuses o (Raise (topic_not_found t));
  es_read_law : ∀ e v t l (from to : option Z) limit,
    es_inv e → es_log e t = Some l →
    from_option (λ p, 0 ≤ p < max_offset) True from →
    from_option (λ p, 0 ≤ p < max_offset) True to → 1 ≤ limit →
    ∃ o t1 t2 v', env_le v v' ∧ clock_between v v' t1 ∧ clock_between v v' t2 ∧
      es_read t (cursor_text t <$> from) (cursor_text t <$> to) limit (e, v) = (o, (e, v')) ∧
      or_refused es_refuses o (read_result t l t1 t2 from to limit);
  es_append_missing : ∀ e v t ty src d subj, es_inv e → es_log e t = None →
    ∃ o, es_append t ty src d subj (e, v) = (o, (e, v)) ∧
      or_refused es_refuses o (Raise (topic_not_found t));
  es_append_law : ∀ e v t l ty src d subj text, es_inv e → es_log e t = Some l →
    next_offset l < max_offset → canonicalize (VDict d) = Ret text → es_accepts d →
    ∃ o e' v', es_append t ty src d subj (e, v) = (o, (e', v')) ∧ env_le v v' ∧ es_inv e' ∧
      match o with
      | Ret r => ∃ r', stored_as r r' ∧ clock_between v v' (ev_created_at r) ∧
          ev_topic r = t ∧ ev_cursor r = cursor_text t (next_offset l) ∧
          event_type r = ty ∧ source r = src ∧ data r = d ∧ subject r = subj ∧
          (∀ t', es_log e' t' = if decide (t' = t) then Some (log_append l r') else es_log e t')
      | Raise x => es_refuses x ∧ ∀ t', es_log e' t' = es_log e t'
      | NoFuel => False
      end;
}.

(** ** [SubscriptionStore]

    [ss_get] and [ss_list_all] return references: an in-memory store returns
    the object it holds, a database allocates a fresh copy of the row. *)
Class SubscriptionStore (S : Type) := {
  ss_add : loc → list (string * Z) → M (S * Heap) unit;
  ss_get : string → M (S * Heap) (option loc);
  ss_list_all : M (S * Heap) (list loc);
  ss_update : loc → M (S * Heap) unit;
  ss_high_water : string → M (S * Heap) (list (string * Z));
  ss_set_high_water : string → string → Z → M (S * Heap) unit;
  ss_record_ack : string → string → string → M (S * Heap) unit;
  ss_record_attempt : DeliveryAttempt → M (S * Heap) unit;
  ss_delivery_attempts : string → M (S * Heap) (list DeliveryAttempt);
  ss_dead_letters : M (S * Heap) (list DeadLetter);
}.

(** [d.get(topic, -1)] on a map of positions. *)
Definition position_of (hw : list (string * Z)) (topic : string) : Z :=
  default (-1) (dict_get topic hw).

(** Two objects for one subscription, as [add] stored it: they differ at most
    in what changes afterwards. *)
Definition same_creation (u u' : Subscription) : Prop :=
  with_cursors [] (with_lease 0 (with_status ACTIVE u)) =
  with_cursors [] (with_lease 0 (with_status ACTIVE u')).

(** Equal but for the acknowledged cursors. *)
Definition same_but_cursors (u u' : Subscription) : Prop := with_cursors [] u = with_cursors [] u'.

(** What a store keeps exactly, whatever it does to dictionaries. *)
Definition core (u : Subscription) : Subscription :=
  mkSubscription (subscription_id u) (status u) (publisher_card_url u) (subscriber_card_url u)
    (topics u) None (delivery u) (created_at u) (lease_until u) [] [].

(** Selectors equal up to the order of the fields of a filter. *)
Definition sel_eq (a b : option Selector) : Prop :=
  match a, b with
  | Some (FieldFilterSelector w), Some (FieldFilterSelector w') => w ≡ₚ w'
  | _, _ => a = b
  end.

(** Equal up to the order of the members of dictionaries. *)
Record sub_eq (u u' : Subscription) : Prop := {
  se_core : core u = core u';
  se_selector : sel_eq (selector u) (selector u');
  se_cursors : cursors u ≡ₚ cursors u';
  se_metadata : metadata u ≡ₚ metadata u';
}.

#[export] Instance sel_eq_equiv : Equivalence sel_eq.
Proof.
  split.
  - intros [[]|]; simpl; done.
  - intros [[]|] [[]|]; simpl; try congruence; done.
  - intros [[]|] [[]|] [[]|]; simpl; try congruence. intros. by etransitivity.
Qed.
#[export] Instance sub_eq_equiv : Equivalence sub_eq.
Proof.
  split; [by split|by intros u u' [E1 E2 E3 E4]; split|].
  intros u1 u2 u3 [A1 A2 A3 A4] [B1 B2 B3 B4]. split;
    [congruence|by transitivity (selector u2)|by transitivity (cursors u2)
    |by transitivity (metadata u2)].
Qed.
#[export] Instance with_status_proper st : Proper (sub_eq ==> sub_eq) (with_status st).
Proof.
  intros u u' [E1 E2 E3 E4]. split; [|done..]. exact (f_equal (with_status st) E1).
Qed.
#[export] Instance with_lease_proper n : Proper (sub_eq ==> sub_eq) (with_lease n).
Proof.
  intros u u' [E1 E2 E3 E4]. split; [|done..]. exact (f_equal (with_lease n) E1).
Qed.

Lemma same_but_cursors_creation u u' : same_but_cursors u u' → same_creation u u'.
Proof. intros Hu. exact (f_equal (λ v, with_lease 0 (with_status ACTIVE v)) Hu). Qed.

(** Equal subscriptions have dictionaries of cursors or neither has. *)
Lemma sub_eq_wf u u' : sub_eq u u' → dict_wf (cursors u) → dict_wf (cursors u').
Proof. intros Hu. unfold dict_wf, dict_keys. by rewrite (se_cursors _ _ Hu). Qed.

(** The laws. A store is seen as rows (the subscription a reader would get),
    positions and recorded attempts; [ss_inv] relates it to the heap. [ss_same]
    is how well a row keeps a subscription: a database may reorder members. *)
Class SubscriptionStoreLaws (S : Type) `{SubscriptionStore S} := {
  ss_inv : S → Heap → Prop;
  ss_row : S → Heap → string → option Subscription;
  ss_hw : S → string → list (string * Z);
  ss_attempts : S → list DeliveryAttempt;
  ss_refuses : exn → Prop;
  ss_accepts : Subscription → Prop;
  ss_same : Subscription → Subscription → Prop;
  ss_same_equiv : Equivalence ss_same;
  ss_same_status : ∀ st, Proper (ss_same ==> ss_same) (with_status st);
  ss_same_lease : ∀ n, Proper (ss_same ==> ss_same) (with_lease n);
  ss_same_eq : ∀ u u', ss_same u u' → sub_eq u u';
  (** Reading a row yields a reference to it and changes no row. *)
  ss_get_law : ∀ s h sid, ss_inv s h →
    effect_or_refusal ss_refuses (s, h) (λ r sh, sh.1 = s ∧ ss_inv s sh.2 ∧
      objs h ⊆ objs sh.2 ∧ (∀ x, ss_row s sh.2 x = ss_row s h x) ∧
      match r with
      | None => ss_row s h sid = None
      | Some l => ∃ u, objs sh.2 !! l = Some u ∧ subscription_id u = sid ∧
                       ss_row s h sid = Some u
      end) (ss_get sid (s, h));
  (** Listing yields one reference per row, and changes no row. *)
  ss_list_all_law : ∀ s h, ss_inv s h →
    effect_or_refusal ss_refuses (s, h) (λ ls sh, sh.1 = s ∧ ss_inv s sh.2 ∧
      objs h ⊆ objs sh.2 ∧ (∀ x, ss_row s sh.2 x = ss_row s h x) ∧
      ∃ us, Forall2 (λ l u, objs sh.2 !! l = Some u ∧ ss_row s sh.2 (subscription_id u) = Some u)
              ls us ∧
        NoDup (subscription_id <$> us) ∧
        ∀ x, is_Some (ss_row s h x) → x ∈ subscription_id <$> us) (ss_list_all (s, h));
  (** Assigning to an object touches no other subscription's row. *)
  ss_write_law : ∀ s h l u u', ss_inv s h → objs h !! l = Some u →
    subscription_id u' = subscription_id u →
    ss_inv s (write_obj l u' h) ∧
    (∀ x, is_Some (ss_row s (write_obj l u' h) x) ↔ is_Some (ss_row s h x)) ∧
    (∀ x, x ≠ subscription_id u → ss_row s (write_obj l u' h) x = ss_row s h x) ∧
    (ss_row s (write_obj l u' h) (subscription_id u) = ss_row s h (subscription_id u) ∨
     ss_row s (write_obj l u' h) (subscription_id u) = Some u');
  ss_update_law : ∀ s h l u u0, ss_inv s h → objs h !! l = Some u →
    ss_row s h (subscription_id u) = Some u0 →
    effect_or_refusal ss_refuses (s, h) (λ _ sh, sh.2 = h ∧ ss_inv sh.1 h ∧
      (∃ u', ss_row sh.1 h (subscription_id u) = Some u' ∧
             (same_creation u0 u → same_but_cursors u u' ∧ (dict_wf (cursors u) → ss_same u u'))) ∧
      (∀ x, x ≠ subscription_id u → ss_row sh.1 h x = ss_row s h x) ∧
      (∀ x, ss_hw sh.1 x = ss_hw s x) ∧ ss_attempts sh.1 = ss_attempts s)
      (ss_update l (s, h));
  ss_high_water_law : ∀ s h sid, ss_inv s h → is_Some (ss_row s h sid) →
    effect_or_refusal ss_refuses (s, h) (λ hw sh, sh = (s, h) ∧ hw = ss_hw s sid)
      (ss_high_water sid (s, h));
  ss_set_high_water_law : ∀ s h sid t n, ss_inv s h → is_Some (ss_row s h sid) →
    effect_or_refusal ss_refuses (s, h) (λ _ sh, sh.2 = h ∧ ss_inv sh.1 h ∧
      (∀ x, ss_row sh.1 h x = ss_row s h x) ∧
      (∀ x t', position_of (ss_hw sh.1 x) t' =
         if decide (x = sid ∧ t' = t) then n else position_of (ss_hw s x) t') ∧
      ss_attempts sh.1 = ss_attempts s) (ss_set_high_water sid t n (s, h));
  ss_record_ack_law : ∀ s h sid eid c, ss_inv s h → is_Some (ss_row s h sid) →
    effect_or_refusal ss_refuses (s, h) (λ _ sh, sh.2 = h ∧ ss_inv sh.1 h ∧
      (∀ x, ss_row sh.1 h x = ss_row s h x) ∧
      (∀ x, ss_hw sh.1 x = ss_hw s x) ∧ ss_attempts sh.1 = ss_attempts s)
      (ss_record_ack sid eid c (s, h));
  ss_record_attempt_law : ∀ s h a, ss_inv s h → is_Some (ss_row s h (da_subscription_id a)) →
    effect_or_refusal ss_refuses (s, h) (λ _ sh, sh.2 = h ∧ ss_inv sh.1 h ∧
      (∀ x, ss_row sh.1 h x = ss_row s h x) ∧
      (∀ x, ss_hw sh.1 x = ss_hw s x) ∧ ss_attempts sh.1 = ss_attempts s ++ [a])
      (ss_record_attempt a (s, h));
  (** [add] of a new subscription. *)
  ss_add_law : ∀ s h l u hw, ss_inv s h → objs h !! l = Some u →
    ss_row s h (subscription_id u) = None → dict_wf hw → ss_accepts u →
    effect_or_refusal ss_refuses (s, h) (λ _ sh, sh.2 = h ∧ ss_inv sh.1 h ∧
      (∃ u', ss_row sh.1 h (subscription_id u) = Some u' ∧ ss_same u u') ∧
      (∀ x, x ≠ subscription_id u →
         ss_row sh.1 h x = ss_row s h x ∧ ss_hw sh.1 x = ss_hw s x) ∧
      (∀ t, position_of (ss_hw sh.1 (subscription_id u)) t = position_of hw t) ∧
      ss_attempts sh.1 = ss_attempts s) (ss_add l hw (s, h));
}.
#[export] Existing Instance ss_same_equiv.
#[export] Existing Instance ss_same_status.
#[export] Existing Instance ss_same_lease.

(** ** [RetryQueue] *)

Class RetryQueue (Q : Type) := {
  rq_enqueue : RetryItem → M Q unit;
  rq_claim_due : Z → Z → Z → M Q (list RetryItem);
  rq_complete : string → M Q unit;
  rq_reschedule : string → Z → Z → option string → M Q unit;
  rq_pending : M Q (list RetryItem);
}.

(** [replace(item, next_retry_at=t)] *)
Definition with_next (t : Z) (i : RetryItem) : RetryItem :=
  mkRetryItem (retry_id i) (ri_subscription_id i) (ri_topic i) (ri_cursor i)
    (ri_event_id i) (ri_attempt i) t (ri_last_error i).

(** An item after [reschedule]. *)
Definition rescheduled (t attempt : Z) (err : option string) (i : RetryItem) : RetryItem :=
  mkRetryItem (retry_id i) (ri_subscription_id i) (ri_topic i) (ri_cursor i)
    (ri_event_id i) attempt t err.

(** The laws: the backlog is a map from retry id to item. A claim leases what
    it returns, and only [complete] removes. *)
Class RetryQueueLaws (Q : Type) `{RetryQueue Q} := {
  rq_inv : Q → Prop;
  rq_item : Q → string → option RetryItem;
  rq_refuses : exn → Prop;
  rq_enqueue_law : ∀ q i, rq_inv q →
    effect_or_refusal rq_refuses q (λ _ q', rq_inv q' ∧
      is_Some (rq_item q' (retry_id i)) ∧
      (rq_item q (retry_id i) = None → rq_item q' (retry_id i) = Some i) ∧
      ∀ x, x ≠ retry_id i → rq_item q' x = rq_item q x) (rq_enqueue i q);
  rq_complete_law : ∀ q rid, rq_inv q →
    effect_or_refusal rq_refuses q (λ _ q', rq_inv q' ∧
      ∀ x, rq_item q' x = if decide (x = rid) then None else rq_item q x) (rq_complete rid q);
  rq_reschedule_law : ∀ q rid t a err, rq_inv q →
    effect_or_refusal rq_refuses q (λ _ q', rq_inv q' ∧
      ∀ x, rq_item q' x = if decide (x = rid) then rescheduled t a err <$> rq_item q x
                          else rq_item q x) (rq_reschedule rid t a err q);
  rq_claim_law : ∀ q now_ limit lease, rq_inv q → 0 ≤ limit →
    effect_or_refusal rq_refuses q (λ out q', rq_inv q' ∧
      NoDup (retry_id <$> out) ∧ Z.of_nat (length out) ≤ limit ∧
      (∀ i, i ∈ out → ∃ i0, rq_item q (retry_id i) = Some i0 ∧ next_retry_at i0 ≤ now_ ∧
                            i = with_next (now_ + seconds lease) i0) ∧
      (∀ x, rq_item q' x = if decide (x ∈ retry_id <$> out)
                           then with_next (now_ + seconds lease) <$> rq_item q x
                           else rq_item q x) ∧
      (** A due item is left behind only when the limit is used up. *)
      ∀ x i0, rq_item q x = Some i0 → next_retry_at i0 ≤ now_ →
        x ∈ retry_id <$> out ∨ Z.of_nat (length out) = limit) (rq_claim_due now_ limit lease q);
}.

(** ** Facts about logs *)

Section LogFacts.
Context (topic : string) (l : TopicLog) (Hl : wf_log topic l).

Lemma rec_offset_range r : r ∈ log_events l → 0 ≤ rec_offset r < next_offset l.
Proof.
  intros Hr. destruct Hl as [_ Hne Hnx Hrec _].
  rewrite Forall_forall in Hrec. destruct (Hrec r Hr) as [_ (n & Hn & Hc)].
  unfold rec_offset. rewrite Hc, offset_of_text by (done || lia). done.
Qed.

Lemma rec_cursor r : r ∈ log_events l → ev_cursor r = cursor_text topic (rec_offset r).
Proof.
  intros Hr. destruct Hl as [_ Hne Hnx Hrec _].
  rewrite Forall_forall in Hrec. destruct (Hrec r Hr) as [_ (n & Hn & Hc)].
  unfold rec_offset. rewrite Hc, offset_of_text by (done || lia). done.
Qed.

Lemma offset_of_record r : r ∈ log_events l → offset_of (ev_cursor r) = Ret (rec_offset r).
Proof.
  intros Hr. pose proof (rec_offset_range r Hr). destruct Hl as [_ Hne Hnx _ _].
  rewrite rec_cursor by done. apply offset_of_text; [done|lia].
Qed.

Lemma live_at_elem r t : r ∈ live_at l t → r ∈ log_events l.
Proof.
  unfold live_at. destruct (_ <=? _); [done|]. by intros [??]%list_elem_of_filter.
Qed.

Lemma live_at_sorted t : sorted_by rec_offset (live_at l t).
Proof.
  unfold live_at. destruct (_ <=? _); [apply Hl|]. apply sorted_by_filter, Hl.
Qed.

Lemma live_at_mono r t t' : t' ≤ t → r ∈ live_at l t → r ∈ live_at l t'.
Proof.
  unfold live_at. destruct (_ <=? _); [done|]. rewrite !list_elem_of_filter.
  intros ? [? ?]. split; [lia|done].
Qed.
End LogFacts.

Lemma log_append_wf topic l r :
  wf_log topic l → next_offset l < max_offset →
  ev_topic r = topic → ev_cursor r = cursor_text topic (next_offset l) →
  wf_log topic (log_append l r).
Proof.
  intros Hl Hcap Ht Hc. pose proof (rec_offset_range topic l Hl) as Hrange.
  destruct Hl as [Hn Hne Hnx Hrec Hs].
  assert (rec_offset r = next_offset l) as Hr.
  { unfold rec_offset. rewrite Hc, offset_of_text; [done..|lia]. }
  constructor; simpl; [done|done|lia| |].
  - apply Forall_app. split.
    + eapply Forall_impl; [done|]. intros x [? (n & ? & ?)]. split; [done|].
      exists n. split; [lia|done].
    + constructor; [|constructor]. split; [done|]. exists (next_offset l). split; [lia|done].
  - apply sorted_by_snoc; [done|]. apply Forall_forall. intros x Hx.
    rewrite Hr. by apply Hrange.
Qed.

Lemma page_elem live start to limit r :
  r ∈ (read_page live start to limit).1 → r ∈ live ∧ in_range start to r.
Proof.
  simpl. intros Hr. apply elem_of_take in Hr as (i & Hi & _).
  apply list_elem_of_lookup_2, list_elem_of_filter in Hi. tauto.
Qed.

Lemma page_sorted live start to limit :
  sorted_by rec_offset live → sorted_by rec_offset (read_page live start to limit).1.
Proof. intros. simpl. by apply sorted_by_take, sorted_by_filter. Qed.

(** An empty page means that nothing live is left after the position. *)
Lemma page_empty live start to limit r :
  (read_page live start to limit).1 = [] → r ∈ live → ¬ in_range start to r.
Proof.
  simpl. intros E Hr Hin.
  assert (r ∈ filter (in_range start to) live) as Hf by by apply list_elem_of_filter.
  destruct (filter (in_range start to) live) as [|x f] eqn:Ef; [by apply elem_of_nil in Hf|].
  destruct (Z.to_nat (Z.max 1 limit)) eqn:En; [lia|done].
Qed.

(** A page misses no live record up to its last one. *)
Lemma page_complete live start to limit r y :
  sorted_by rec_offset live → r ∈ live → in_range start to r →
  y ∈ (read_page live start to limit).1 → rec_offset r ≤ rec_offset y →
  r ∈ (read_page live start to limit).1.
Proof.
  intros Hs Hr Hin Hy Hle. simpl in *.
  eapply sorted_by_take_complete; [by apply sorted_by_filter| |done|done].
  by apply list_elem_of_filter.
Qed.
