(* ===== verification/Publisher.v ===== *)
(** * Publisher runtime ([runtime/publisher.py], [runtime/retry_worker.py],
    [runtime/dispatcher.py], [runtime/retention.py])

    [A2AEventsPublisher] as state passing over a [World] that holds the backends
    it was constructed with, the heap of subscription objects, the memoized
    topics, the key set, the authorizer, the rate limiter and the calls made on
    the metrics sink. The backends are any instances of the contracts. What
    awaits (a worker thread, the transport, a sleep, a lock) is a parameter that
    may change the world: other tasks run meanwhile. *)

From Stdlib Require Import QArith.
From S2P Require Import Prelude PyStr Value Errors Effects Models Base64 Cursor Selectors.
From S2P Require Import Canonical Signing Limits Observability Auth Ssrf Contracts.
Open Scope Z_scope.

(** The subset of a subscriber's AgentCard the publisher needs. *)
Record SubscriberCard := mkSubscriberCard {
  card_url : string;
  a2a_endpoint : option string;
  receive_url : option string;
  accepted_delivery_modes : list DeliveryMode;
}.

(** [A2AEventsPublisher(agent_card_url, ..., config)] with [PublisherConfig].
    Delays are in microseconds; [retry_queue] says whether a queue is
    configured, [token_secret] is the secret of the delivery token issuer. *)
Record PublisherConfig := mkConfig {
  agent_card_url : string;
  card_resolver : string → outcome SubscriberCard;
  ssrf_policy : SSRFPolicy;
  min_lease_seconds : Z;
  max_lease_seconds : Z;
  max_attempts : Z;
  retry_initial_delay : Z;
  retry_max_delay : Z;
  offload_store : bool;
  token_secret : option string;
  retry_queue : bool;
  selector_limits : option SelectorLimits;
  max_subscriptions_per_subscriber : option Z;
  page_size : Z;
  deferred_dispatch : bool;
}.

Record World (E S Q : Type) := mkWorld {
  w_store : E;
  w_env : Env;
  w_subs : S;
  w_heap : Heap;
  w_queue : Q;
  w_topics : list (string * Topic);
  w_keys : SigningKeySet;
  w_authorizer : option AllowlistAuthorizer;
  w_limiter : option TokenBucketRateLimiter;
  w_metrics : list MetricCall;
}.
Arguments mkWorld {E S Q}.
Arguments w_store {E S Q}.
Arguments w_env {E S Q}.
Arguments w_subs {E S Q}.
Arguments w_heap {E S Q}.
Arguments w_queue {E S Q}.
Arguments w_topics {E S Q}.
Arguments w_keys {E S Q}.
Arguments w_authorizer {E S Q}.
Arguments w_limiter {E S Q}.
Arguments w_metrics {E S Q}.

(** The points at which the publisher awaits something outside it. *)
Class Async (W : Type) := {
  (** another thread or task runs *)
  suspend : M W unit;
  (** [transport.send_webhook(url, headers, event)] *)
  send_webhook : string → list (string * string) → list (string * value) → M W DeliveryResult;
  (** [transport.send_a2a_message(endpoint, message)] *)
  send_a2a_message : string → value → M W DeliveryResult;
  (** [sleep(delay)] *)
  sleep : Z → M W unit;
  (** [async with lock] of a subscription's dispatch lock *)
  acquire : string → M W unit;
  (** [time.monotonic()] *)
  monotonic : W → Q;
  (** after an exception in an [asyncio.gather]: its caller resumes before the
      tasks behind have ended *)
  resumes : W → bool;
}.

(** [list(dict.fromkeys(l))] *)
Definition dedupe (l : list string) : list string :=
  foldl (λ acc x, if bool_decide (x ∈ acc) then acc else acc ++ [x]) [] l.

(** [d["k"]] of an error's details *)
Definition not_found (sid : string) : exn :=
  A2AEventsError SUBSCRIPTION_NOT_FOUND ("Subscription " +:+ sid +:+ " not found.")
    [("subscriptionId"%string, VStr sid)].
Definition lease_expired (sid : string) : exn :=
  A2AEventsError SUBSCRIPTION_EXPIRED
    ("Subscription " +:+ sid +:+ " has expired; renew it first.")
    [("subscriptionId"%string, VStr sid)].
Definition not_authorized_topic (topic : string) : exn :=
  A2AEventsError TOPIC_NOT_AUTHORIZED
    ("Subscription is not authorized for topic " +:+ topic +:+ ".")
    [("topic"%string, VStr topic)].

Section Publisher.
Context {E S Q : Type} `{!EventStore E, !SubscriptionStore S, !RetryQueue Q}.
Context `{!Platform, !Crypto, !Hmac, !Net}.
Context `{!Async (World E S Q)} (cfg : PublisherConfig) (fuel : nat).

Local Abbreviation W := (World E S Q).
Local Abbreviation PM := (M W).

(** ** State access *)

Definition on_store {A} (m : M (E * Env) A) : PM A :=
  zoom (λ w, (w_store w, w_env w))
    (λ s w, mkWorld s.1 s.2 (w_subs w) (w_heap w) (w_queue w) (w_topics w) (w_keys w)
              (w_authorizer w) (w_limiter w) (w_metrics w)) m.

Definition on_subs {A} (m : M (S * Heap) A) : PM A :=
  zoom (λ w, (w_subs w, w_heap w))
    (λ s w, mkWorld (w_store w) (w_env w) s.1 s.2 (w_queue w) (w_topics w) (w_keys w)
              (w_authorizer w) (w_limiter w) (w_metrics w)) m.

Definition on_queue {A} (m : M Q A) : PM A :=
  zoom w_queue
    (λ q w, mkWorld (w_store w) (w_env w) (w_subs w) (w_heap w) q (w_topics w) (w_keys w)
              (w_authorizer w) (w_limiter w) (w_metrics w)) m.

Definition on_env {A} (m : M Env A) : PM A :=
  zoom w_env
    (λ v w, mkWorld (w_store w) v (w_subs w) (w_heap w) (w_queue w) (w_topics w) (w_keys w)
              (w_authorizer w) (w_limiter w) (w_metrics w)) m.

(** [self.metrics.incr(...)], [self.metrics.observe(...)] *)
Definition tell (c : MetricCall) : PM unit :=
  modify (λ w, mkWorld (w_store w) (w_env w) (w_subs w) (w_heap w) (w_queue w) (w_topics w)
                 (w_keys w) (w_authorizer w) (w_limiter w) (w_metrics w ++ [c])).

Definition memo_topic (n : string) (t : Topic) : PM unit :=
  modify (λ w, mkWorld (w_store w) (w_env w) (w_subs w) (w_heap w) (w_queue w)
                 (dict_set n t (w_topics w)) (w_keys w) (w_authorizer w) (w_limiter w)
                 (w_metrics w)).

Definition new_object (u : Subscription) : PM loc := on_subs (alloc u).

(** Attribute reads and assignments on a subscription object. *)
Definition attrs (l : loc) : PM Subscription := on_subs (deref l).
Definition assign (l : loc) (f : Subscription → Subscription) : PM unit :=
  u ← attrs l; on_subs (modify (λ s, (s.1, write_obj l (f u) s.2))).

(** A call that [_run_store] or [run_offloaded] may send to a worker thread. *)
Definition offloaded {A} (m : PM A) : PM A :=
  if offload_store cfg then suspend ≫= λ _, and_then m suspend else m.

(** [_run_store(fn, ...)] on the event store and on the subscription store *)
Definition run_store {A} (m : M (E * Env) A) : PM A := offloaded (on_store m).
Definition run_subs {A} (m : M (S * Heap) A) : PM A := offloaded (on_subs m).

(** [run_offloaded(fn, ...)] on the retry queue *)
Definition run_queue {A} (m : M Q A) : PM A := offloaded (on_queue m).

(** ** Keys *)

(** [signing_key] *)
Definition signing_key : PM SigningKey := w ← get_state; lift (active (w_keys w)).

(** [add_signing_key], [rotate_signing_key], [retire_signing_key] *)
Definition on_keys {A} (m : M SigningKeySet A) : PM A :=
  zoom w_keys
    (λ k w, mkWorld (w_store w) (w_env w) (w_subs w) (w_heap w) (w_queue w) (w_topics w) k
              (w_authorizer w) (w_limiter w) (w_metrics w)) m.
Definition add_signing_key (k : SigningKey) (activate : bool) : PM unit :=
  on_keys (add_key k activate).
Definition rotate_signing_key (i : string) : PM unit := on_keys (activate_key i).
Definition retire_signing_key (i : string) : PM unit := on_keys (retire i).
Definition signing_jwks : PM (list (list (string * string))) := gets (λ w, jwks (w_keys w)).

(** ** Topics *)

(** ["a2a://" + (urlparse(agent_card_url).hostname or "publisher")] *)
Definition host_of_card : string :=
  match url_hostname (agent_card_url cfg) with
  | Some h => if bool_decide (h = EmptyString) then "publisher"%string else h
  | None => "publisher"%string
  end.
Definition source_uri : string := "a2a://" +:+ host_of_card.

(** [declare_topic(topic)] *)
Definition declare_topic (t : Topic) : PM unit := on_store (es_declare_topic t).

(** [_get_topic(name)] *)
Definition get_topic (n : string) : PM Topic :=
  w ← get_state;
  match dict_get n (w_topics w) with
  | Some t => mret t
  | None =>
      t ← run_store (es_get_topic n);
      _ ← memo_topic n t;
      mret t
  end.

(** [compact(topic)], also [RetentionCompactor.run_once] with no topic *)
Definition compact (topic : option string) : PM Z := run_store (es_compact topic).

(** [list_topics()] *)
Definition list_topics : PM (list (string * value)) :=
  ts ← run_store es_topics;
  mret [("publisher"%string, VDict [("agentCardUrl"%string, VStr (agent_card_url cfg));
                                    ("agentId"%string, VStr host_of_card)]);
        ("extension"%string, VStr EXTENSION_URI);
        ("eventFormat"%string, VStr "cloudevents-1.0");
        ("topics"%string, VList ((λ t, VDict (dump_topic t)) <$> ts))].

(** [dead_letters] *)
Definition dead_letters : PM (list DeadLetter) := on_subs ss_dead_letters.

(** ** Leases *)

(** [_check_lease(lease_seconds)] *)
Definition check_lease (lease_seconds : Z) : outcome unit :=
  if lease_seconds <? min_lease_seconds cfg then
    Raise (A2AEventsError LEASE_TOO_SHORT
      ("Lease must be >= " +:+ str_of_int (min_lease_seconds cfg) +:+ "s.")
      [("minLeaseSeconds"%string, VInt (min_lease_seconds cfg))])
  else if max_lease_seconds cfg <? lease_seconds then
    Raise (A2AEventsError LEASE_TOO_LONG
      ("Lease must be <= " +:+ str_of_int (max_lease_seconds cfg) +:+ "s.")
      [("maxLeaseSeconds"%string, VInt (max_lease_seconds cfg))])
  else mret tt.

(** [_expire_if_due(sub)] *)
Definition expire_if_due (l : loc) : PM bool :=
  u ← attrs l;
  if bool_decide (status u = ACTIVE) then
    now_ ← on_env now;
    if lease_until u <=? now_ then _ ← assign l (with_status EXPIRED); mret true
    else mret false
  else mret false.

(** [_is_active(sub)] *)
Definition is_active (l : loc) : PM bool :=
  expired ← expire_if_due l;
  _ ← (if expired : bool then run_subs (ss_update l) else mret tt);
  u ← attrs l;
  mret (bool_decide (status u = ACTIVE)).

(** [get_subscription(subscription_id)] *)
Definition get_subscription (sid : string) : PM loc :=
  r ← run_subs (ss_get sid);
  match r with
  | None => raise (not_found sid)
  | Some l =>
      u ← attrs l;
      if bool_decide (status u = DELETED) then raise (not_found sid) else
      expired ← expire_if_due l;
      _ ← (if expired : bool then run_subs (ss_update l) else mret tt);
      mret l
  end.

(** [_get_active_subscription(subscription_id)] *)
Definition get_active_subscription (sid : string) : PM loc :=
  l ← get_subscription sid;
  u ← attrs l;
  if bool_decide (status u = ACTIVE) then mret l else raise (lease_expired sid).

(** [list_subscriptions()] *)
Definition list_subscriptions : PM (list loc) :=
  subs ← run_subs ss_list_all;
  _ ← for_each subs (λ l,
        expired ← expire_if_due l;
        if expired : bool then run_subs (ss_update l) else mret tt);
  kept ← map_m (λ l, u ← attrs l; mret (if bool_decide (status u = DELETED) then [] else [l])) subs;
  mret (concat kept).

(** [_check_subscription_quota(subscriber_card_url)] *)
Definition check_subscription_quota (card : string) : PM unit :=
  match max_subscriptions_per_subscriber cfg with
  | None => mret tt
  | Some limit =>
      subs ← list_subscriptions;
      mine ← map_m (λ l, u ← attrs l;
                mret (if bool_decide (subscriber_card_url u = card) then 1 else 0)) subs;
      if limit <=? foldr Z.add 0 mine then
        raise (A2AEventsError RATE_LIMITED
          ("Maximum subscriptions per subscriber reached (" +:+ str_of_int limit +:+ ").")
          [("maxSubscriptionsPerSubscriber"%string, VInt limit)])
      else mret tt
  end.

(** [renew(subscription_id, lease_seconds)] *)
Definition renew (sid : string) (lease_seconds : Z) : PM loc :=
  _ ← lift (check_lease lease_seconds);
  l ← get_subscription sid;
  now_ ← on_env now;
  _ ← assign l (with_lease (now_ + seconds lease_seconds));
  _ ← assign l (with_status ACTIVE);
  _ ← run_subs (ss_update l);
  _ ← tell (Incr "lease_renewals" 1 []);
  mret l.

(** [delete(subscription_id)] *)
Definition delete (sid : string) : PM (option loc) :=
  r ← run_subs (ss_get sid);
  match r with
  | None => mret None
  | Some l =>
      _ ← assign l (with_status DELETED);
      _ ← run_subs (ss_update l);
      mret (Some l)
  end.

(** [observability_snapshot()]; [collected] is the [snapshot] of the metrics
    sink, if it has one, on the calls it received. *)
Definition observability_snapshot (collected : option (list MetricCall → value))
    : PM (list (string * value)) :=
  subs ← run_subs ss_list_all;
  now_ ← on_env now;
  us ← map_m attrs subs;
  let live := List.filter (λ u, bool_decide (status u = ACTIVE) && (now_ <? lease_until u)) us in
  let gone := List.filter (λ u, bool_decide (status u = EXPIRED) ||
                (bool_decide (status u = ACTIVE) && (lease_until u <=? now_))) us in
  dead ← run_subs ss_dead_letters;
  w ← get_state;
  mret ([("subscriptionCount", VInt (len live)); ("expiredSubscriptionCount", VInt (len gone));
         ("deadLetterCount", VInt (len dead))]%string
        ++ match collected with Some f => [("metrics"%string, f (w_metrics w))] | None => [] end).

(** [delivery_auth(sub)] *)
Definition delivery_auth (l : loc) : PM (option (list (string * value))) :=
  match token_secret cfg with
  | None => mret None
  | Some secret =>
      u ← attrs l;
      mret (Some [("scheme", VStr SCHEME); ("token", VStr (issue secret (subscription_id u)));
                  ("expiresAt", VStr (isoformat (lease_until u))); ("rotates", VBool true)]%string)
  end.

(** ** Events *)

(** [_raw_event_dict(record)] *)
Definition raw_event_dict (r : EventRecord) : list (string * value) :=
  [("type"%string, VStr (event_type r));
   ("subject"%string, match subject r with Some s => VStr s | None => VNone end);
   ("data"%string, VDict (data r))].

(** [_build_event(sub, record, attempt, schema_url)] *)
Definition build_event (u : Subscription) (r : EventRecord) (attempt : Z)
    (schema : option string) : CloudEvent :=
  mkCloudEvent (event_id r) (source r) (event_type r) (subject r) (ev_created_at r) (data r)
    (agent_card_url cfg) (ev_topic r) (ev_cursor r) schema (Some (subscription_id u))
    (Some attempt) (Some (trace_id_for (event_id r))).

(** [x or ""] *)
Definition or_empty (x : option string) : string := default EmptyString x.

(** [_send(sub, event_dict, signature, timestamp)] *)
Definition send (l : loc) (event : list (string * value)) (signature timestamp : string)
    : PM DeliveryResult :=
  u ← attrs l;
  let token := (λ secret, issue secret (subscription_id u)) <$> token_secret cfg in
  k ← signing_key;
  match mode (delivery u) with
  | WEBHOOK =>
      send_webhook (or_empty (resolved_url (delivery u)))
        ([("A2A-Event-Signature", signature); ("A2A-Event-Timestamp", timestamp);
          ("A2A-Event-Key-ID", kid k); ("A2A-Subscription-ID", subscription_id u)]%string
         ++ match token with
            | Some t => [("Authorization"%string, "Bearer " +:+ t)]
            | None => []
            end) event
  | A2A_MESSAGE =>
      let meta :=
        [("kind"%string, VStr "event.delivery"); ("signature"%string, VStr signature);
         ("timestamp"%string, VStr timestamp); ("keyId"%string, VStr (kid k));
         ("subscriptionId"%string, VStr (subscription_id u))]
        ++ opt_field VStr "deliveryToken" token in
      msg ← on_env uuid4;
      send_a2a_message (or_empty (resolved_endpoint (delivery u)))
        (VDict [("message"%string, VDict
           [("messageId"%string, VStr ("msg_" +:+ msg)); ("role"%string, VStr "ROLE_AGENT");
            ("parts"%string, VList [VDict [("data"%string, VDict event)]]);
            ("metadata"%string, VDict [(EXTENSION_URI, VDict meta)])])])
  end.

(** [_attempt_send(sub, record, attempt)] *)
Definition attempt_send (l : loc) (r : EventRecord) (attempt : Z) : PM DeliveryResult :=
  t ← get_topic (ev_topic r);
  u ← attrs l;
  let event := dump_event iso_datetime (build_event u r attempt (schema_url t)) in
  let timestamp := iso_datetime (ev_created_at r) in
  k ← signing_key;
  signature ← lift (sign k timestamp event);
  send l event signature timestamp.

(** ** Positions *)

(** [_record_attempt(sub, record, attempt, status, result)] *)
Definition record_attempt (l : loc) (r : EventRecord) (attempt : Z) (st : string)
    (res : DeliveryResult) : PM unit :=
  _ ← tell (Incr "delivery_attempts" 1 [("status"%string, st); ("topic"%string, ev_topic r)]);
  da ← on_env new_attempt_id;
  u ← attrs l;
  run_subs (ss_record_attempt (mkDeliveryAttempt da (subscription_id u) (event_id r)
    (ev_cursor r) attempt st (status_code res) (reason res))).

(** [_record_at(topic, cursor)] *)
Definition record_at (topic cursor : string) : PM (option EventRecord) :=
  offset ← lift (offset_of cursor);
  from_cursor ← (if 0 <? offset then Some <$> lift (encode topic (offset - 1)) else mret None);
  records ← try_except
    (p ← run_store (es_read topic from_cursor (Some cursor) 1); mret (Some p.1))
    (λ e, if is_a2a_error e then
            if is_code CURSOR_EXPIRED e then
              Some (try_except
                (p ← run_store (es_read topic None (Some cursor) 1); mret (Some p.1))
                (λ e', if is_a2a_error e' then Some (mret None) else None))
            else Some (mret None)
          else None);
  match records with
  | Some (r :: _) =>
      n ← lift (offset_of (ev_cursor r));
      mret (if n =? offset then Some r else None)
  | _ => mret None
  end.

(** [_resolve_event_id(topic, cursor)] *)
Definition resolve_event_id (topic cursor : string) : PM (option string) :=
  r ← record_at topic cursor; mret (event_id <$> r).

(** [_advance(sub, topic, cursor, event_id)] *)
Definition advance (l : loc) (topic cursor : string) (eid : option string) : PM unit :=
  u ← attrs l;
  _ ← (if match dict_get topic (cursors u) with
          | None => true
          | Some current => str_ltb current cursor
          end
       then
         _ ← assign l (λ u, with_cursors (dict_set topic cursor (cursors u)) u);
         run_subs (ss_update l)
       else mret tt);
  offset ← lift (offset_of cursor);
  u ← attrs l;
  hw ← run_subs (ss_high_water (subscription_id u));
  _ ← (if position_of hw topic <? offset
       then run_subs (ss_set_high_water (subscription_id u) topic offset) else mret tt);
  eid' ← match eid with Some i => mret (Some i) | None => resolve_event_id topic cursor end;
  match eid' with
  | Some i => run_subs (ss_record_ack (subscription_id u) i cursor)
  | None => mret tt
  end.

(** [_on_delivered(sub, record, attempt, result)] *)
Definition on_delivered (l : loc) (r : EventRecord) (attempt : Z) (res : DeliveryResult)
    : PM unit :=
  _ ← record_attempt l r attempt "delivered" res;
  now_ ← on_env now;
  _ ← tell (Observe "delivery_latency_seconds" (now_ - ev_created_at r)
              [("topic"%string, ev_topic r)]);
  advance l (ev_topic r) (ev_cursor r) (Some (event_id r)).

(** The position write of [_on_terminal] and [_deliver_queued]. *)
Definition hand_off (l : loc) (r : EventRecord) : PM unit :=
  n ← lift (offset_of (ev_cursor r));
  u ← attrs l;
  run_subs (ss_set_high_water (subscription_id u) (ev_topic r) n).

(** [_on_terminal(sub, record, attempt, result)] *)
Definition on_terminal (l : loc) (r : EventRecord) (attempt : Z) (res : DeliveryResult)
    : PM unit :=
  _ ← record_attempt l r attempt "dead_letter" res; hand_off l r.

(** [_backoff_delay(attempt)] *)
Definition backoff_delay (attempt : Z) : Z :=
  Z.min (retry_initial_delay cfg * 2 ^ (attempt - 1)) (retry_max_delay cfg).

(** ** Delivery *)

(** [_deliver_queued(sub, record)] *)
Definition deliver_queued (l : loc) (r : EventRecord) : PM bool :=
  res ← attempt_send l r 1;
  if ack res then _ ← on_delivered l r 1 res; mret true
  else if negb (retry res) || (max_attempts cfg <=? 1) then
    _ ← on_terminal l r 1 res; mret false
  else
    _ ← record_attempt l r 1 "retry" res;
    rid ← on_env new_retry_id;
    u ← attrs l;
    now_ ← on_env now;
    _ ← run_queue (rq_enqueue (mkRetryItem rid (subscription_id u) (ev_topic r) (ev_cursor r)
          (event_id r) 1 (now_ + backoff_delay 1) (reason res)));
    _ ← hand_off l r;
    mret false.

(** The loop of [_deliver_one]: [n] attempts are left, the next is [attempt]. *)
Fixpoint deliver_loop (n : nat) (attempt : Z) (l : loc) (r : EventRecord) : PM bool :=
  match n with
  | O => mret false
  | Datatypes.S n' =>
      res ← attempt_send l r attempt;
      if ack res then _ ← on_delivered l r attempt res; mret true
      else if negb (retry res) || (attempt =? max_attempts cfg) then
        _ ← on_terminal l r attempt res; mret false
      else
        _ ← record_attempt l r attempt "retry" res;
        _ ← sleep (backoff_delay attempt);
        deliver_loop n' (attempt + 1) l r
  end.

(** [_deliver_one(sub, record)] *)
Definition deliver_one (l : loc) (r : EventRecord) : PM bool :=
  if retry_queue cfg then deliver_queued l r
  else deliver_loop (Z.to_nat (max_attempts cfg)) 1 l r.

(** ** Dispatch *)

(** The [for record in records] loop of [_catch_up]: the scan position and the
    number of events processed. *)
Fixpoint scan_page (l : loc) (t : Topic) (records : list EventRecord) (scan processed : Z)
    : PM (Z * Z) :=
  match records with
  | [] => mret (scan, processed)
  | r :: rest =>
      offset ← lift (offset_of (ev_cursor r));
      if offset <=? scan then scan_page l t rest scan processed
      else
        u ← attrs l;
        hit ← lift (matches (selector u) (raw_event_dict r) (filterable_fields t));
        _ ← (if hit : bool then
               _ ← tell (Incr "selector_evaluations" 1 [("result", "match")]%string);
               _ ← deliver_one l r; mret tt
             else tell (Incr "selector_evaluations" 1 [("result", "miss")]%string));
        scan_page l t rest offset (processed + 1)
  end.

(** Reading the next page of [_catch_up], with the fallback to the oldest live
    event when the position aged out. *)
Definition next_page (topic : string) (position : Z) : PM (list EventRecord) :=
  from_cursor ← (if 0 <=? position then Some <$> lift (encode topic position) else mret None);
  p ← try_except (run_store (es_read topic from_cursor None (page_size cfg)))
        (λ e, if is_code CURSOR_EXPIRED e
              then Some (run_store (es_read topic None None (page_size cfg))) else None);
  mret p.1.

(** One round of the [while True] of [_catch_up]: [None] when the page was
    empty, else the events processed. *)
Definition catch_up_round (l : loc) (topic : string) (t : Topic) : PM (option Z) :=
  u ← attrs l;
  hw ← run_subs (ss_high_water (subscription_id u));
  let position := position_of hw topic in
  records ← next_page topic position;
  match records with
  | [] => mret None
  | _ =>
      sp ← scan_page l t records position 0;
      cur ← run_subs (ss_high_water (subscription_id u));
      _ ← (if position_of cur topic <? sp.1
           then run_subs (ss_set_high_water (subscription_id u) topic sp.1) else mret tt);
      mret (Some sp.2)
  end.

Fixpoint catch_up_loop (n : nat) (l : loc) (topic : string) (t : Topic) (processed : Z) : PM Z :=
  match n with
  | O => no_fuel
  | Datatypes.S n' =>
      r ← catch_up_round l topic t;
      match r with
      | None => mret processed
      | Some k => catch_up_loop n' l topic t (processed + k)
      end
  end.

(** [_catch_up(sub, topic)] *)
Definition catch_up (l : loc) (topic : string) : PM Z :=
  t ← get_topic topic;
  catch_up_loop fuel l topic t 0.

(** The loop over topics of [_dispatch_subscription]. *)
Fixpoint catch_up_all (l : loc) (ts : list string) (processed : Z) : PM Z :=
  match ts with
  | [] => mret processed
  | t :: ts' => n ← catch_up l t; catch_up_all l ts' (processed + n)
  end.

(** [_dispatch_subscription(sub, topics)] *)
Definition dispatch_subscription (l : loc) (ts : option (list string)) : PM Z :=
  ok ← is_active l;
  if negb ok then mret 0 else
  u ← attrs l;
  w ← get_state;
  if match w_authorizer w with Some a => negb (authorize_delivery a u) | None => false end
  then mret 0 else
  _ ← acquire (subscription_id u);
  u ← attrs l;
  catch_up_all l (match ts with Some ts => ts | None => topics u end) 0.

(** [l] filtered by a property of the referenced object. *)
Definition filter_refs (p : Subscription → bool) (ls : list loc) : PM (list loc) :=
  kept ← map_m (λ l, u ← attrs l; mret (if p u then [l] else [])) ls;
  mret (concat kept).

(** [_dispatch_topic(topic)] *)
Definition dispatch_topic (topic : string) : PM unit :=
  all ← run_subs ss_list_all;
  ls ← filter_refs (λ u, mem topic (topics u)) all;
  _ ← gather resumes ((λ l, dispatch_subscription l (Some [topic])) <$> ls);
  mret tt.

(** [dispatch_pending()], also [DispatchWorker.run_once] *)
Definition dispatch_pending : PM Z :=
  all ← run_subs ss_list_all;
  ls ← filter_refs (λ u, negb (bool_decide (topics u = []))) all;
  ns ← gather resumes ((λ l, dispatch_subscription l None) <$> ls);
  mret (foldr Z.add 0 ns).

(** [publish(topic, type, data, subject)] *)
Definition publish (topic ty : string) (d : list (string * value)) (subj : option string)
    : PM EventRecord :=
  record ← run_store (es_append topic ty source_uri d subj);
  _ ← tell (Incr "published_events" 1 [("topic"%string, topic)]);
  _ ← (if deferred_dispatch cfg then mret tt else dispatch_topic topic);
  mret record.

(** ** Acknowledgement and replay *)

(** [ack(subscription_id, cursor)] *)
Definition ack_cursor (sid cursor : string) : PM loc :=
  l ← get_active_subscription sid;
  topic ← lift (topic_of cursor);
  u ← attrs l;
  if mem topic (topics u) then _ ← advance l topic cursor None; mret l
  else raise (not_authorized_topic topic).

(** The events of a replayed page that match the selector. *)
Fixpoint matching_events (u : Subscription) (t : Topic) (records : list EventRecord)
    : outcome (list (list (string * value))) :=
  match records with
  | [] => mret []
  | r :: rest =>
      hit ← matches (selector u) (raw_event_dict r) (filterable_fields t);
      out ← matching_events u t rest;
      mret (if hit : bool
            then dump_event iso_datetime (build_event u r 1 (schema_url t)) :: out else out)
  end.

(** [replay(subscription_id, from_cursor, to_cursor, limit)]: the events and
    the next cursor *)
Definition replay_events (sid : string) (from_cursor to_cursor : option string) (limit : Z)
    : PM (list (list (string * value)) * option string) :=
  l ← get_active_subscription sid;
  u ← attrs l;
  topic ← match from_cursor with
          | Some c =>
              if bool_decide (c = EmptyString) || bool_decide (c = EARLIEST)
                 || bool_decide (c = LATEST)
              then lift (match topics u with t :: _ => mret t
                         | [] => Raise (IndexError "list index out of range") end)
              else lift (topic_of c)
          | None => lift (match topics u with t :: _ => mret t
                          | [] => Raise (IndexError "list index out of range") end)
          end;
  if negb (mem topic (topics u)) then raise (not_authorized_topic topic) else
  t ← get_topic topic;
  if negb (replay t) then
    raise (A2AEventsError REPLAY_NOT_SUPPORTED
      ("Topic " +:+ topic +:+ " does not support replay.") [("topic"%string, VStr topic)])
  else
    p ← run_store (es_read topic from_cursor to_cursor limit);
    u ← attrs l;
    events ← lift (matching_events u t p.1);
    mret (events, p.2).

(** ** Retries *)

(** [retry_delivery(item, queue)], once the subscription is found *)
Definition redeliver (i : RetryItem) (l : loc) : PM unit :=
  let drop := run_queue (rq_complete (retry_id i)) in
  u ← attrs l;
  if negb (bool_decide (status u = ACTIVE)) then drop else
  rec ← record_at (ri_topic i) (ri_cursor i);
  match rec with
  | None => drop
  | Some r =>
      let attempt := ri_attempt i + 1 in
      res ← attempt_send l r attempt;
      if ack res then _ ← on_delivered l r attempt res; drop
      else if negb (retry res) || (max_attempts cfg <=? attempt) then
        _ ← on_terminal l r attempt res; drop
      else
        _ ← record_attempt l r attempt "retry" res;
        now_ ← on_env now;
        run_queue (rq_reschedule (retry_id i) (now_ + backoff_delay attempt) attempt
                     (reason res))
  end.

(** [retry_delivery(item, queue)] *)
Definition retry_delivery (i : RetryItem) : PM unit :=
  r ← run_subs (ss_get (ri_subscription_id i));
  match r with
  | None => run_queue (rq_complete (retry_id i))
  | Some l => redeliver i l
  end.

(** [RetryWorker.run_once()] with its [batch] and [lease_seconds] *)
Definition retry_run_once (batch lease_seconds : Z) : PM Z :=
  now_ ← on_env now;
  items ← run_queue (rq_claim_due now_ batch lease_seconds);
  _ ← for_each items retry_delivery;
  mret (len items).

(** ** Subscribing *)

(** [_resolve_card(subscriber_card_url)] *)
Definition resolve_card (url : string) : outcome SubscriberCard :=
  match card_resolver cfg url with
  | Raise e =>
      if is_a2a_error e then Raise e
      else Raise (A2AEventsError SUBSCRIBER_CARD_UNREACHABLE
             ("Could not resolve subscriber card " +:+ url +:+ ".")
             [("subscriberCardUrl"%string, VStr url)])
  | o => o
  end.

Definition in_modes (m : DeliveryMode) (ms : list DeliveryMode) : bool :=
  existsb (λ x, bool_decide (x = m)) ms.

(** [_check_delivery_mode(mode, card)] *)
Definition check_delivery_mode (m : DeliveryMode) (card : SubscriberCard) : outcome unit :=
  guard_else (in_modes m (accepted_delivery_modes card))
    (A2AEventsError DELIVERY_MODE_NOT_SUPPORTED
       ("Subscriber does not accept delivery mode " +:+ mode_value m +:+ ".")
       [("mode"%string, VStr (mode_value m))]).

(** [not x] on an optional string *)
Definition blank (x : option string) : bool :=
  match x with Some s => bool_decide (s = EmptyString) | None => true end.

(** [_resolve_delivery_target(delivery, card)] *)
Definition resolve_delivery_target (d : DeliveryPreference) (card : SubscriberCard)
    : outcome ResolvedDelivery :=
  match dp_mode d with
  | WEBHOOK =>
      if blank (receive_url card) then
        Raise (A2AEventsError DELIVERY_ENDPOINT_NOT_DECLARED
          "Subscriber AgentCard does not declare a receive URL." [])
      else
        _ ← check_endpoint (or_empty (receive_url card)) (ssrf_policy cfg);
        mret (mkResolvedDelivery WEBHOOK (receive_url card) None)
  | A2A_MESSAGE =>
      if blank (a2a_endpoint card) then
        Raise (A2AEventsError DELIVERY_ENDPOINT_NOT_DECLARED
          "Subscriber AgentCard does not declare an A2A endpoint." [])
      else
        _ ← check_endpoint (or_empty (a2a_endpoint card)) (ssrf_policy cfg);
        mret (mkResolvedDelivery A2A_MESSAGE None (a2a_endpoint card))
  end.

(** The checks of [subscribe] against one topic. *)
Definition check_topic (sel : option Selector) (d : DeliveryPreference) (from_cursor : string)
    (t : Topic) : outcome unit :=
  _ ← validate_selector sel t;
  _ ← guard_else (in_modes (dp_mode d) (delivery_modes t))
        (A2AEventsError DELIVERY_MODE_NOT_SUPPORTED
           ("Topic " +:+ name t +:+ " does not support delivery mode " +:+
            mode_value (dp_mode d) +:+ ".")
           [("topic"%string, VStr (name t)); ("mode"%string, VStr (mode_value (dp_mode d)))]);
  guard_else (bool_decide (from_cursor = LATEST) || replay t)
    (A2AEventsError REPLAY_NOT_SUPPORTED
       ("Topic " +:+ name t +:+ " does not support replay; subscribe with fromCursor " +:+
        quote +:+ "latest" +:+ quote +:+ ".")
       [("topic"%string, VStr (name t))]).

(** [_start_offset(topic, from_cursor)] *)
Definition start_offset (topic from_cursor : string) : PM Z :=
  if bool_decide (from_cursor = EARLIEST) then mret (-1) else
  let at_head :=
    n ← run_store (es_count topic);
    if n =? 0 then mret (-1) else
    c ← run_store (es_latest_cursor topic);
    lift (offset_of c) in
  if bool_decide (from_cursor = LATEST) then at_head else
  t ← lift (topic_of from_cursor);
  if bool_decide (t = topic) then
    _ ← run_store (es_read topic (Some from_cursor) (Some from_cursor) 1);
    lift (offset_of from_cursor)
  else at_head.

(** [self.rate_limiter.check(key, "subscribe")] *)
Definition rate_check (key : string) (operation : string) : PM unit :=
  w ← get_state;
  match w_limiter w with
  | None => mret tt
  | Some _ =>
      zoom w_limiter
        (λ l w, mkWorld (w_store w) (w_env w) (w_subs w) (w_heap w) (w_queue w) (w_topics w)
                  (w_keys w) (w_authorizer w) l (w_metrics w))
        (λ ol, match ol with
               | Some l => let '(r, l') := check_rate (monotonic w) (Some key) operation l in
                           (r, Some l')
               | None => (Ret tt, None)
               end)
  end.

(** [self.authorizer.authorize_subscribe(caller, topics)] *)
Definition authorize (caller : option AuthIdentity) (ts : list string) : PM unit :=
  w ← get_state;
  match w_authorizer w with
  | Some a => lift (authorize_subscribe a caller ts)
  | None => mret tt
  end.

(** [subscribe(...)] *)
Definition subscribe (card_url : string) (ts : list string) (d : DeliveryPreference)
    (sel : option Selector) (from_cursor : string) (lease_seconds : Z)
    (meta : list (string * value)) (caller : option AuthIdentity) : PM loc :=
  _ ← lift (check_lease lease_seconds);
  let ts := dedupe ts in
  _ ← rate_check (match caller with Some c => ident_subject c | None => card_url end) "subscribe";
  _ ← match selector_limits cfg with Some lim => lift (check_selector lim sel) | None => mret tt end;
  _ ← authorize caller ts;
  _ ← check_subscription_quota card_url;
  card ← lift (resolve_card card_url);
  _ ← lift (check_delivery_mode (dp_mode d) card);
  resolved ← lift (resolve_delivery_target d card);
  models ← map_m get_topic ts;
  _ ← for_each models (λ t, lift (check_topic sel d from_cursor t));
  now_ ← on_env now;
  u ← on_env uuid4;
  l ← new_object (mkSubscription ("sub_" +:+ u) ACTIVE (agent_card_url cfg) card_url ts sel
        resolved now_ (now_ + seconds lease_seconds) [] meta);
  offsets ← map_m (λ t, n ← start_offset (name t) from_cursor; mret (name t, n)) models;
  let start_offsets := foldl (λ m kv, dict_set kv.1 kv.2 m) [] offsets in
  _ ← run_subs (ss_add l start_offsets);
  _ ← (if deferred_dispatch cfg then mret tt
       else _ ← dispatch_subscription l None; mret tt);
  mret l.
End Publisher.

(** ** Rows and references, for the theorems *)

(** A row: the subscription as any reader of the store sees it. *)
Definition row_of {E S Q : Type} `{!SubscriptionStore S, !SubscriptionStoreLaws S}
    (w : World E S Q) (sid : string) : option Subscription :=
  ss_row (w_subs w) (w_heap w) sid.

Lemma attrs_run {E S Q : Type} (w : World E S Q) l u :
  objs (w_heap w) !! l = Some u → attrs l w = (Ret u, w).
Proof. intros Hu. unfold attrs, on_subs, zoom, deref. rewrite Hu. by destruct w. Qed.
