(* ===== verification/Workers.v ===== *)
(** * The background workers ([runtime/dispatcher.py], [runtime/retention.py],
    [runtime/retry_worker.py])

    Three workers with one loop: a pass, then a wait on an [asyncio.Event] that
    [stop] sets. The theorem gives every way the loop can end, and shows that
    these are the only ones. *)

From S2P Require Import Prelude PyStr Value Errors Effects Contracts Publisher.
From S2P Require Import Base64 Signing Auth Ssrf.
Open Scope Z_scope.

(** ** One worker

    [poll_interval] (called [interval_seconds] in the compactor) in
    microseconds, and the state of the [asyncio.Event]. The [sleep] argument of
    the constructors is stored and never used. *)
Record Worker := mkWorker { poll_interval : Z; stopped : bool }.

(** [DispatchWorker(...)], [RetentionCompactor(...)], [RetryWorker(...)] *)
Definition new_worker (interval : Z) : Worker := mkWorker interval false.

Definition set_stopped (b : bool) (k : Worker) : Worker := mkWorker (poll_interval k) b.

(** The exception of [asyncio.wait_for]. *)
Definition timeout_error : exn := OtherException "TimeoutError".
Definition is_timeout (e : exn) : bool :=
  match e with OtherException n => bool_decide (n = "TimeoutError"%string) | _ => false end.

Section Worker.
Context {W : Type} (run_once : M W Z).
(** [idle d] is what happens elsewhere while the loop waits, [d] at most.
    [stops w] tells whether another task called [stop] in the course of the
    pass or the wait that ended in [w]. *)
Context (idle : Z → M W unit) (stops : W → bool).

Local Abbreviation KM := (M (W * Worker)).

Definition meanwhile {A} (m : M W A) : KM A := λ s,
  let '(o, w) := m s.1 in (o, (w, if stops w then set_stopped true s.2 else s.2)).

(** [stop()] *)
Definition stop : KM unit := modify (λ s, (s.1, set_stopped true s.2)).

(** [asyncio.wait_for(self._stopped.wait(), timeout)] *)
Definition wait_stopped : KM unit :=
  k ← gets snd;
  if stopped k then mret tt else
  _ ← meanwhile (idle (poll_interval k));
  k ← gets snd;
  if stopped k then mret tt else raise timeout_error.

(** The [while] loop of [run_forever]. *)
Fixpoint worker_loop (n : nat) : KM unit :=
  k ← gets snd;
  if stopped k then mret tt else
  match n with
  | O => no_fuel
  | Datatypes.S n' =>
      _ ← meanwhile run_once;
      _ ← try_except wait_stopped (λ e, if is_timeout e then Some (mret tt) else None);
      worker_loop n'
  end.

(** [run_forever()] *)
Definition run_forever (n : nat) : KM unit :=
  _ ← modify (λ s, (s.1, set_stopped false s.2)); worker_loop n.

(** ** What the loop does

    A full round: a pass that returns, then a wait, and nobody calls [stop].
    [d] is the poll interval. *)
Definition round (d : Z) (w w' : W) : Prop :=
  ∃ n w1, run_once w = (Ret n, w1) ∧ stops w1 = false ∧
    (idle d w1 = (Ret tt, w') ∨ idle d w1 = (Raise timeout_error, w')) ∧ stops w' = false.

(** The last round. *)
Inductive last_round (d : Z) (w : W) : outcome unit → W → Prop :=
| stopped_in_pass n w1 :
    run_once w = (Ret n, w1) → stops w1 = true → last_round d w (Ret tt) w1
| stopped_in_wait n w1 w2 :
    run_once w = (Ret n, w1) → stops w1 = false → idle d w1 = (Ret tt, w2) → stops w2 = true →
    last_round d w (Ret tt) w2
| stopped_at_timeout n w1 w2 :
    run_once w = (Ret n, w1) → stops w1 = false → idle d w1 = (Raise timeout_error, w2) →
    stops w2 = true → last_round d w (Ret tt) w2
| pass_raised e w1 : run_once w = (Raise e, w1) → last_round d w (Raise e) w1
| wait_raised n w1 e w2 :
    run_once w = (Ret n, w1) → stops w1 = false → idle d w1 = (Raise e, w2) →
    is_timeout e = false → last_round d w (Raise e) w2
| pass_goes_on w1 : run_once w = (NoFuel, w1) → last_round d w NoFuel w1
| wait_goes_on n w1 w2 :
    run_once w = (Ret n, w1) → stops w1 = false → idle d w1 = (NoFuel, w2) →
    last_round d w NoFuel w2.

Lemma timeout_is e : is_timeout e = true ↔ e = timeout_error.
Proof.
  split; [|by intros ->]. destruct e; try done. simpl. rewrite bool_decide_eq_true. by intros ->.
Qed.

(** A wait that nobody cuts short. *)
Definition after_wait (n : nat) (d : Z) (w1 : W) : outcome unit * (W * Worker) :=
  let '(o, w2) := idle d w1 in
  match o with
  | Raise e => if is_timeout e then worker_loop n (w2, mkWorker d (stops w2))
               else (Raise e, (w2, mkWorker d (stops w2)))
  | Ret _ => worker_loop n (w2, mkWorker d (stops w2))
  | NoFuel => (NoFuel, (w2, mkWorker d (stops w2)))
  end.

Lemma worker_loop_stopped n d w : worker_loop n (w, mkWorker d true) = (Ret tt, (w, mkWorker d true)).
Proof. by destruct n. Qed.

Lemma worker_loop_turn n d w :
  worker_loop (Datatypes.S n) (w, mkWorker d false) =
  let '(o, w1) := run_once w in
  match o with
  | Ret _ => if stops w1 then (Ret tt, (w1, mkWorker d true)) else after_wait n d w1
  | Raise e => (Raise e, (w1, mkWorker d (stops w1)))
  | NoFuel => (NoFuel, (w1, mkWorker d (stops w1)))
  end.
Proof.
  cbn [worker_loop]. unfold mbind at 1, M_bind at 1, gets at 1. cbn [snd stopped].
  unfold mbind at 1, M_bind at 1, meanwhile at 1. cbn [fst snd].
  destruct (run_once w) as [[k|e|] w1]; [|by destruct (stops w1)..].
  unfold mbind at 1, M_bind at 1, try_except, wait_stopped, after_wait.
  destruct (stops w1) eqn:Hs1; [by rewrite <- (worker_loop_stopped n d w1)|].
  unfold mbind, M_bind, gets, meanwhile. cbn [fst snd stopped poll_interval].
  destruct (idle d w1) as [[[]|e|] w2], (stops w2); try done; simpl; by destruct (is_timeout e).
Qed.

(** [j] full rounds. *)
Inductive rounds (d : Z) : nat → W → W → Prop :=
| rounds_none w : rounds d 0 w w
| rounds_more j w w1 w2 : round d w w1 → rounds d j w1 w2 → rounds d (Datatypes.S j) w w2.

Lemma round_run n d w w' :
  round d w w' → worker_loop (Datatypes.S n) (w, mkWorker d false) = worker_loop n (w', mkWorker d false).
Proof.
  intros (k & w1 & Hrun & Hs1 & Hid & Hs2). rewrite worker_loop_turn, Hrun, Hs1.
  unfold after_wait. destruct Hid as [-> | ->]; by rewrite Hs2.
Qed.

Lemma last_round_run n d w o w' :
  last_round d w o w' → ∃ b, worker_loop (Datatypes.S n) (w, mkWorker d false) = (o, (w', mkWorker d b)).
Proof.
  intros Hl. rewrite worker_loop_turn.
  destruct Hl as [k w1 -> ->|k w1 w2 -> -> Hid Hs|k w1 w2 -> -> Hid Hs|e w1 ->|k w1 e w2 -> -> Hid He
    |w1 ->|k w1 w2 -> -> Hid]; [by eexists|..]; unfold after_wait; rewrite ?Hid, ?Hs, ?He, ?worker_loop_stopped; by eexists.
Qed.

Lemma rounds_run j n d w w' :
  rounds d j w w' → worker_loop (j + n) (w, mkWorker d false) = worker_loop n (w', mkWorker d false).
Proof. induction 1 as [|j w w1 w2 Hr _ IH]; [done|]. cbn [Nat.add]. by erewrite round_run. Qed.

(** Every turn is a full round or the last one. *)
Lemma turn d w : (∃ w', round d w w') ∨ ∃ o w', last_round d w o w'.
Proof.
  destruct (run_once w) as [[k|e|] w1] eqn:Hrun; [|right; eauto using last_round..].
  destruct (stops w1) eqn:Hs1; [right; eauto using last_round|].
  destruct (idle d w1) as [[[]|e|] w2] eqn:Hid; [| |right; eauto using last_round].
  - destruct (stops w2) eqn:Hs2; [right; eauto using last_round|left]. exists w2, k, w1. auto.
  - destruct (is_timeout e) eqn:He; [|right; eauto using last_round]. apply timeout_is in He as ->.
    destruct (stops w2) eqn:Hs2; [right; eauto using last_round|left]. exists w2, k, w1. auto.
Qed.

(** How a run of at most [n] rounds ends. *)
Definition ends (n : nat) (d : Z) (w : W) (o : outcome unit) (w' : W) : Prop :=
  (o = NoFuel ∧ rounds d n w w') ∨
  ∃ j w1, (j < n)%nat ∧ rounds d j w w1 ∧ last_round d w1 o w'.

Lemma ends_run n d w o w' :
  ends n d w o w' → ∃ b, worker_loop n (w, mkWorker d false) = (o, (w', mkWorker d b)).
Proof.
  intros [[-> Hr]|(j & w1 & Hj & Hr & Hl)].
  - exists false. pose proof (rounds_run _ 0 _ _ _ Hr) as E. by rewrite Nat.add_0_r in E.
  - replace n with (j + Datatypes.S (n - j - 1))%nat by lia. rewrite (rounds_run _ _ _ _ _ Hr).
    by apply last_round_run.
Qed.

Lemma run_ends n d w : ∃ o w', ends n d w o w'.
Proof.
  revert w. induction n as [|n IH]; intros w.
  { exists NoFuel, w. left. by split; [|constructor]. }
  destruct (turn d w) as [(w1 & Hr)|(o & w1 & Hl)].
  - destruct (IH w1) as (o & w' & [[-> Hrs]|(j & w2 & Hj & Hrs & Hl)]);
      [exists NoFuel, w'|exists o, w'].
    + left. split; [done|]. by econstructor.
    + right. exists (Datatypes.S j), w2. split_and!; [lia|by econstructor|done].
  - exists o, w1. right. exists 0%nat, w. split_and!; [lia|constructor|done].
Qed.

Lemma run_forever_cases n w k o w' k' :
  run_forever n (w, k) = (o, (w', k')) → ends n (poll_interval k) w o w'.
Proof.
  change (run_forever n (w, k)) with (worker_loop n (w, mkWorker (poll_interval k) false)).
  intros Hrun. destruct (run_ends n (poll_interval k) w) as (o1 & w1 & He).
  destruct (ends_run _ _ _ _ _ He) as [b1 Hrun1]. rewrite Hrun1 in Hrun. by injection Hrun as -> -> _.
Qed.

(** C18: a worker runs until it is told to stop, and no longer: [run_forever]
    of at most [n] rounds ends exactly as follows. Either [n] full rounds went
    by, or after some full rounds there was a last one, in which [stop] was
    called (then it returns, and no further pass begins), or an exception
    escaped from the pass or cancelled the wait (then the loop is over for
    good). A [stop] before [run_forever] counts for nothing. *)
Theorem run_forever_ends n w k o w' :
  (∃ b, run_forever n (w, k) = (o, (w', mkWorker (poll_interval k) b))) ↔
  (o = NoFuel ∧ rounds (poll_interval k) n w w') ∨
  ∃ j w1, (j < n)%nat ∧ rounds (poll_interval k) j w w1 ∧ last_round (poll_interval k) w1 o w'.
Proof.
  split; [intros [b Hrun]; by eapply run_forever_cases|].
  apply (ends_run n (poll_interval k) w o w').
Qed.
End Worker.

(** ** The three workers *)
Section Workers.
Context {E S Q : Type} `{!EventStore E, !SubscriptionStore S, !RetryQueue Q}.
Context `{!Platform, !Crypto, !Hmac, !Net}.
Context `{!Async (World E S Q)} (cfg : PublisherConfig) (fuel : nat).

(** [asyncio.to_thread(fn)] *)
Definition to_thread {A} (m : M (World E S Q) A) : M (World E S Q) A :=
  suspend ≫= λ _, and_then m suspend.

(** [DispatchWorker.run_once()] *)
Definition dispatch_worker_run_once : M (World E S Q) Z := dispatch_pending cfg fuel.

(** [RetentionCompactor.run_once()] *)
Definition compactor_run_once : M (World E S Q) Z := to_thread (on_store (es_compact None)).

(** The loops: [idle] and [stops] as above; [batch] and [lease_seconds] are the
    arguments of the retry worker. *)
Context (idle : Z → M (World E S Q) unit) (stops : World E S Q → bool).
Definition dispatch_worker (n : nat) := run_forever dispatch_worker_run_once idle stops n.
Definition retention_compactor (n : nat) := run_forever compactor_run_once idle stops n.
Definition retry_worker (batch lease_seconds : Z) (n : nat) :=
  run_forever (retry_run_once cfg batch lease_seconds) idle stops n.

(** The compactor does in a thread what [compact] of the publisher does when it
    offloads its store calls. *)
Lemma compactor_is_compact :
  offload_store cfg = true → compactor_run_once = compact cfg None.
Proof. intros Ho. unfold compact, run_store, offloaded. by rewrite Ho. Qed.
End Workers.
