(* ===== verification/Listing.v ===== *)
(** * The list methods of the publisher ([runtime/publisher.py])

    [paginate_subscriptions] and [list_delivery_attempts]: a page of what the
    store lists, with the token of the next page. *)

From S2P Require Import Prelude PyStr Value Errors Effects Models Contracts Pagination.
From S2P Require Import Canonical Signing Limits Observability Auth Ssrf Publisher.
Open Scope Z_scope.

Section Listing.
Context {E S Q : Type} `{!EventStore E, !SubscriptionStore S, !RetryQueue Q}.
Context `{!Platform, !Crypto, !Hmac, !Net}.
Context `{!Async (World E S Q)} (cfg : PublisherConfig) (depth : nat).
Local Abbreviation PM := (M (World E S Q)).

(** [limit or self.page_size] *)
Definition page_limit (limit : option Z) : Z :=
  match limit with Some n => if n =? 0 then page_size cfg else n | None => page_size cfg end.

(** [paginate_subscriptions(page_token, limit)] *)
Definition paginate_subscriptions (page_token : option string) (limit : option Z)
    : PM (list loc * option string) :=
  subs ← list_subscriptions cfg;
  items ← map_m (λ l, u ← attrs l; mret (l, subscription_id u)) subs;
  p ← lift (paginate depth items snd page_token (page_limit limit));
  mret (p.1.*1, p.2).

Definition opt_value {A} (f : A → value) (v : option A) : value :=
  match v with Some x => f x | None => VNone end.

(** The entry of one attempt. *)
Definition attempt_entry (a : DeliveryAttempt) : value :=
  VDict [("deliveryAttemptId", VStr (delivery_attempt_id a)); ("eventId", VStr (da_event_id a));
         ("cursor", VStr (da_cursor a)); ("attempt", VInt (attempt a));
         ("status", VStr (da_status a));
         ("lastStatusCode", opt_value VInt (last_status_code a));
         ("lastError", opt_value VStr (last_error a))]%string.

(** [list_delivery_attempts(subscription_id, page_token, limit)] *)
Definition list_delivery_attempts (sid : string) (page_token : option string) (limit : option Z)
    : PM (list (string * value)) :=
  _ ← get_subscription cfg sid;
  attempts ← run_subs cfg (ss_delivery_attempts sid);
  p ← lift (paginate depth attempts delivery_attempt_id page_token (page_limit limit));
  mret [("subscriptionId", VStr sid);
        ("deliveryAttempts", VList (attempt_entry <$> p.1));
        ("nextPageToken", opt_value VStr p.2)]%string.
End Listing.
