(* ===== verification/AgentCard.v ===== *)
(** * Agent cards ([agentcard.py])

    Parsing a subscriber's fetched AgentCard into a [SubscriberCard] under a
    trust policy, the card signature, and the resolver that plugs into the
    publisher. The card is JSON of any shape. The theorems: a signed card
    verifies in any member order, and an endpoint the publisher stores was
    declared by a trusted card and satisfies the policy. *)

From S2P Require Import Prelude PyStr Value Errors Effects Dynamic Models Contracts Base64.
From S2P Require Import Canonical Json Signing Limits Observability Auth Ssrf Publisher.
Open Scope Z_scope.

(** [CardTrustPolicy] *)
Record CardTrustPolicy := mkCardPolicy {
  card_require_https : bool;
  require_same_origin : bool;
  allowed_domains : option (gset string);
  signature_verifier : option (value → outcome bool);
  domain_challenge : option (string → outcome bool);
}.
Definition default_card_policy : CardTrustPolicy := mkCardPolicy false false None None None.

(** [urlparse(url).port]: the property raises on a port out of range. *)
Class UrlPort := { url_port : string → outcome (option Z) }.

(** [v or dflt] *)
Definition value_or (v dflt : value) : value := if truthy v then v else dflt.

Definition SIGNATURES : string := "signatures".

(** [{k: v for k, v in card.items() if k != "signatures"}] *)
Definition unsigned (card : list (string * value)) : list (string * value) :=
  List.filter (λ kv, negb (bool_decide (kv.1 = SIGNATURES))) card.

Section Signatures.
Context `{!Crypto}.

(** [f"{protected}.{payload_b64}".encode("ascii")] *)
Definition card_signing_input (protected payload : string) : outcome string :=
  let s := protected +:+ "." +:+ payload in
  if is_ascii s then mret s else Raise (ValueError "UnicodeEncodeError").

(** [try: public_key.verify(_b64url_decode(signature), signing_input)
    except (InvalidSignature, ValueError)] *)
Definition signature_valid (pub : string) (signature : value) (input : string) : outcome bool :=
  match signature with
  | VStr s =>
      match b64url_decode s with
      | Ret sig => mret (ed25519_verify pub sig input)
      | Raise (ValueError _) => mret false
      | Raise e => Raise e
      | NoFuel => NoFuel
      end
  | _ => Raise (TypeError "a signature is text")
  end.

(** The loop over the signatures of a card: one that verifies is enough. *)
Fixpoint any_signature (pub payload : string) (sigs : list value) : outcome bool :=
  match sigs with
  | [] => mret false
  | sig :: rest =>
      protected ← get_attr sig "protected" VNone;
      signature ← get_attr sig "signature" VNone;
      if negb (truthy protected) || negb (truthy signature) then any_signature pub payload rest
      else
        text ← str_value protected;
        input ← card_signing_input text payload;
        ok ← signature_valid pub signature input;
        if ok : bool then mret true else any_signature pub payload rest
  end.

(** [Ed25519CardSignatureVerifier(public_key)(card)] *)
Definition verify_card (pub : string) (card : value) : outcome bool :=
  raw ← get_attr card SIGNATURES VNone;
  if negb (truthy raw) then mret false else
  match card with
  | VDict d =>
      text ← canonicalize (VDict (unsigned d));
      sigs ← iterate raw;
      any_signature pub (b64url text) sigs
  | _ => Raise no_attribute
  end.

(** [sign_card(card, private_key, kid)] *)
Definition sign_card (depth : nat) (card : list (string * value)) (priv kid_ : string)
    : outcome (list (string * value)) :=
  payload ← canonicalize (VDict (unsigned card));
  header ← dumps_compact depth (VDict [("alg"%string, VStr "EdDSA"); ("kid"%string, VStr kid_)]);
  let protected := b64url (utf8 header) in
  input ← card_signing_input protected (b64url payload);
  let signature := b64url (ed25519_sign priv input) in
  mret (unsigned card ++
        [(SIGNATURES, VList [VDict [("protected"%string, VStr protected);
                                    ("signature"%string, VStr signature)]])]).
End Signatures.

(** ** What a card declares *)

(** The loop of [_a2a_endpoint_of] over the interfaces. *)
Fixpoint jsonrpc_interface (ifaces : list value) : outcome (option value) :=
  match ifaces with
  | [] => mret None
  | iface :: rest =>
      url ← get_attr iface "url" VNone;
      binding ← (if truthy url then get_attr iface "protocolBinding" (VStr "JSONRPC")
                 else mret VNone);
      if truthy url && py_eq binding (VStr "JSONRPC") then mret (Some url)
      else jsonrpc_interface rest
  end.

(** [_a2a_endpoint_of(card)] *)
Definition a2a_endpoint_of (card : value) : outcome (option string) :=
  raw ← get_attr card "supportedInterfaces" VNone;
  ifaces ← iterate (value_or raw (VList []));
  found ← jsonrpc_interface ifaces;
  match found with
  | Some url => Some <$> str_value url
  | None =>
      url ← get_attr card "url" VNone;
      if truthy url then Some <$> str_value url else mret None
  end.

Definition no_extension : exn :=
  A2AEventsError SUBSCRIBER_CARD_INVALID
    "AgentCard does not declare the A2A Events subscriber extension."
    [("extension"%string, VStr EXTENSION_URI)].

(** The loop of [_find_subscriber_extension]. *)
Fixpoint subscriber_params (exts : list value) : outcome value :=
  match exts with
  | [] => Raise no_extension
  | ext :: rest =>
      uri ← get_attr ext "uri" VNone;
      if py_eq uri (VStr EXTENSION_URI) then
        raw ← get_attr ext "params" VNone;
        let params := value_or raw (VDict []) in
        role ← get_attr params "role" VNone;
        if py_eq role (VStr "subscriber") then mret params else subscriber_params rest
      else subscriber_params rest
  end.

(** [_find_subscriber_extension(card)] *)
Definition find_subscriber_extension (card : value) : outcome value :=
  caps ← get_attr card "capabilities" VNone;
  raw ← get_attr (value_or caps (VDict [])) "extensions" VNone;
  exts ← iterate (value_or raw (VList []));
  subscriber_params exts.

(** [DeliveryMode(m)] *)
Definition mode_of (v : value) : outcome DeliveryMode :=
  if py_eq v (VStr "webhook") then mret WEBHOOK
  else if py_eq v (VStr "a2a-message") then mret A2A_MESSAGE
  else Raise (ValueError "not a valid DeliveryMode").

(** An endpoint as [SubscriberCard] declares it. *)
Definition endpoint_text (v : value) : outcome (option string) :=
  match v with
  | VNone => mret None
  | VStr s => mret (Some s)
  | _ => Raise (Unmodelled "an endpoint that is not text")
  end.

(** ** Trust *)

Definition invalid_card (message : string) (details : list (string * value)) : exn :=
  A2AEventsError SUBSCRIBER_CARD_INVALID message details.

Section Trust.
Context `{!Net, !UrlPort}.

(** [(parsed.scheme, parsed.hostname, parsed.port)] *)
Definition origin (url : string) : outcome (string * option string * option Z) :=
  parts ← urlsplit url; port ← url_port url; mret (parts.1, parts.2, port).

(** [_check_endpoint_trust(card_url, endpoint, policy)] *)
Definition check_endpoint_trust (card_url_ : string) (endpoint : option string)
    (p : CardTrustPolicy) : outcome unit :=
  match endpoint with
  | None => mret tt
  | Some e =>
      parts ← urlsplit e;
      _ ← guard_else (negb (card_require_https p) || bool_decide (parts.1 = "https"%string))
            (invalid_card ("Delivery endpoint " +:+ e +:+ " must use HTTPS.")
               [("endpoint"%string, VStr e)]);
      if require_same_origin p then
        card ← urlsplit card_url_;
        port ← url_port e;
        card_port ← url_port card_url_;
        guard_else (bool_decide ((parts, port) = (card, card_port)))
          (invalid_card ("Delivery endpoint " +:+ e +:+ " is not same-origin with the card.")
             [("endpoint"%string, VStr e); ("cardUrl"%string, VStr card_url_)])
      else mret tt
  end.

(** The three checks on the card as a whole. *)
Definition check_card (url host : string) (card : value) (p : CardTrustPolicy) : outcome unit :=
  _ ← guard_else (match allowed_domains p with
                  | Some ds => bool_decide (host ∈ ds) | None => true end)
        (invalid_card ("Subscriber domain " +:+ host +:+ " is not allowlisted.")
           [("host"%string, VStr host)]);
  ok ← match signature_verifier p with Some f => f card | None => mret true end;
  _ ← guard_else ok (invalid_card "AgentCard signature is missing or invalid."
                       [("cardUrl"%string, VStr url)]);
  ok ← match domain_challenge p with Some f => f host | None => mret true end;
  guard_else ok (invalid_card ("Domain ownership challenge failed for " +:+ host +:+ ".")
                   [("host"%string, VStr host)]).

(** [parse_subscriber_card(card_url, card, policy)] *)
Definition parse_subscriber_card (url : string) (card : value) (p : CardTrustPolicy)
    : outcome SubscriberCard :=
  parts ← urlsplit url;
  let host := default EmptyString parts.2 in
  _ ← check_card url host card p;
  params ← find_subscriber_extension card;
  receive ← get_attr params "receiveUrl" VNone;
  endpoint ← a2a_endpoint_of card;
  raw ← get_attr params "acceptedDeliveryModes" (VList []);
  ms ← iterate raw;
  modes ← sequence (mode_of <$> ms);
  let modes := match modes with [] => [A2A_MESSAGE; WEBHOOK] | _ => modes end in
  receive ← endpoint_text receive;
  _ ← check_endpoint_trust url receive p;
  _ ← check_endpoint_trust url endpoint p;
  mret (mkSubscriberCard url endpoint receive modes).

(** ** The resolver *)

(** [self.client.get(url)]: the status and the parsed body, [None] when it is
    not JSON; a transport failure raises. *)
Context (fetch : string → outcome (Z * option value)).

Definition unreachable (url : string) : exn :=
  A2AEventsError SUBSCRIBER_CARD_UNREACHABLE ("Could not fetch subscriber card " +:+ url +:+ ".")
    [("cardUrl"%string, VStr url)].

(** [AgentCardResolver(client, policy)(card_url)] *)
Definition resolve_agent_card (p : CardTrustPolicy) (url : string) : outcome SubscriberCard :=
  match fetch url with
  | Ret (st, Some card) =>
      if (200 <=? st) && (st <? 300) then parse_subscriber_card url card p
      else Raise (unreachable url)
  | Ret (_, None) => Raise (unreachable url)
  | Raise e => if is_a2a_error e then Raise e else Raise (unreachable url)
  | NoFuel => NoFuel
  end.
End Trust.

(** ** A signed card verifies *)

Section SignedCards.
Context `{!Crypto}.

(** [sig] is a valid Ed25519 signature over its protected header and [payload]. *)
Definition good_signature (pub payload : string) (sig : value) : Prop :=
  ∃ protected p input s b,
    get_attr sig "protected" VNone = Ret protected ∧ str_value protected = Ret p ∧
    card_signing_input p payload = Ret input ∧
    get_attr sig "signature" VNone = Ret (VStr s) ∧ b64url_decode s = Ret b ∧
    ed25519_verify pub b input = true.

(** One of the card's signatures is good for the canonical form of the card
    without them. *)
Definition verified_by (pub : string) (card : list (string * value)) : Prop :=
  ∃ text raw sigs,
    canonicalize (VDict (unsigned card)) = Ret text ∧
    dict_get SIGNATURES card = Some raw ∧ iterate raw = Ret sigs ∧
    Exists (good_signature pub (b64url text)) sigs.

Lemma signature_valid_true pub sig input :
  signature_valid pub sig input = Ret true →
  ∃ s b, sig = VStr s ∧ b64url_decode s = Ret b ∧ ed25519_verify pub b input = true.
Proof.
  destruct sig as [| | | |s| |]; try done. unfold signature_valid. intros Ht.
  destruct (b64url_decode s) as [b|[]|] eqn:Eb; try done. injection Ht as Hv. by exists s, b.
Qed.

Lemma any_signature_true pub payload sigs :
  any_signature pub payload sigs = Ret true → Exists (good_signature pub payload) sigs.
Proof.
  induction sigs as [|sig rest IH]; [done|]. cbn [any_signature]. intros Ht.
  ret_step Ht protected Hp. ret_step Ht signature Hsig.
  destruct (negb (truthy protected) || negb (truthy signature)); [auto|].
  ret_step Ht text Htext. ret_step Ht input Hinput. ret_step Ht ok Hok.
  destruct ok; [|auto].
  apply signature_valid_true in Hok as (s&b&->&Hb&Hv).
  left. by exists protected, text, input, s, b.
Qed.

Lemma unsigned_keys card : SIGNATURES ∉ dict_keys (unsigned card).
Proof.
  unfold dict_keys, unsigned. rewrite list_elem_of_fmap.
  intros ([k v]&Hk&[_ Hne]%list_elem_of_In%filter_In). cbn in Hk, Hne.
  subst k. by rewrite bool_decide_true in Hne.
Qed.

Lemma b64url_nonempty raw : raw ≠ EmptyString → b64url raw ≠ EmptyString.
Proof.
  intros Hne He. pose proof (b64url_decode_encode raw) as Hd. rewrite He in Hd.
  by injection Hd as <-.
Qed.

Lemma header_nonempty depth d header : dumps_compact depth (VDict d) = Ret header →
  utf8 header ≠ EmptyString.
Proof.
  unfold dumps_compact. destruct depth as [|k]; [done|]. cbn [dump].
  intros Hd. ret_step Hd ts Hts. by injection Hd as <-.
Qed.

Context `{!CryptoLaws}.

Lemma own_signature_accepted priv protected payload input :
  protected ≠ EmptyString → card_signing_input protected payload = Ret input →
  any_signature (ed25519_public priv) payload
    [VDict [("protected"%string, VStr protected);
            ("signature"%string, VStr (b64url (ed25519_sign priv input)))]] = Ret true.
Proof.
  intros Hp Hi.
  assert (b64url (ed25519_sign priv input) ≠ EmptyString) as Hs.
  { apply b64url_nonempty. intros He. pose proof (ed25519_signature_length priv input) as Hl.
    by rewrite He in Hl. }
  assert (∀ s, s ≠ EmptyString → truthy (VStr s) = true) as Ht by (by intros [|]).
  set (sig := VDict _).
  assert (get_attr sig "protected" VNone = Ret (VStr protected)) as E1 by reflexivity.
  assert (get_attr sig "signature" VNone = Ret (VStr (b64url (ed25519_sign priv input)))) as E2
    by reflexivity.
  cbn [any_signature]. rewrite E1, E2. cbn [mbind outcome_bind]. rewrite !Ht by done.
  cbn [negb orb str_value py_str mret outcome_ret outcome_bind mbind]. rewrite Hi.
  cbn [mbind outcome_bind signature_valid]. rewrite b64url_decode_encode.
  cbn [mret outcome_ret]. by rewrite ed25519_correct.
Qed.

(** C28: a card signed with [sign_card] passes the verifier of the matching
    public key, in whatever order its members arrive at any depth; and any card
    the verifier accepts carries a signature of that key over its protected
    header and its canonical content, so no member of an accepted card can have
    been changed without a signature over the changed card. *)
Theorem signed_card_verifies depth card priv kid_ pub :
  (∀ d card', sign_card depth card priv kid_ = Ret d →
     json_eq (VDict (unsigned card)) (VDict (unsigned card')) →
     dict_get SIGNATURES card' = dict_get SIGNATURES d →
     verify_card (ed25519_public priv) (VDict card') = Ret true) ∧
  (∀ c, verify_card pub c = Ret true → ∃ d, c = VDict d ∧ verified_by pub d).
Proof.
  split.
  - intros d card' Hd Heq Hget. unfold sign_card in Hd.
    ret_step Hd payload Hp. ret_step Hd header Hh. ret_step Hd input Hi. injection Hd as <-.
    rewrite <- dict_set_snoc, dict_get_set_eq in Hget by apply unsigned_keys.
    unfold verify_card. cbn [get_attr]. rewrite Hget.
    pose proof (canonicalize_proper _ _ Heq) as Hp'. rewrite Hp in Hp'.
    cbv beta iota delta [default mret outcome_ret mbind outcome_bind truthy negb iterate id].
    rewrite <- Hp'. apply own_signature_accepted; [|done].
    by eapply b64url_nonempty, header_nonempty.
  - intros c Ht. unfold verify_card in Ht. ret_step Ht raw Hraw.
    destruct (truthy raw) eqn:Er; [|done]. cbn [negb] in Ht.
    destruct c as [| | | | | |d]; try done.
    ret_step Ht text Htext. ret_step Ht sigs Hs. exists d. split; [done|].
    exists text, raw, sigs. split_and!; [done| |done|by apply any_signature_true].
    cbn in Hraw. destruct (dict_get SIGNATURES d); [by injection Hraw as ->|].
    by injection Hraw as <-.
Qed.
End SignedCards.

(** ** Where a delivery endpoint comes from *)

Section Endpoints.
Context `{!Net, !UrlPort}.

(** [u] satisfies the transport policy for the card at [url]. *)
Definition endpoint_trusted (url u : string) (p : CardTrustPolicy) : Prop :=
  ∃ parts, urlsplit u = Ret parts ∧
    (card_require_https p = true → parts.1 = "https"%string) ∧
    (require_same_origin p = true → ∃ o, origin u = Ret o ∧ origin url = Ret o).

(** The allowlist, the card's signature and the domain challenge hold. *)
Definition card_trusted (url : string) (card : value) (p : CardTrustPolicy) : Prop :=
  ∃ parts, urlsplit url = Ret parts ∧ let host := default EmptyString parts.2 in
    (∀ ds, allowed_domains p = Some ds → host ∈ ds) ∧
    (∀ f, signature_verifier p = Some f → f card = Ret true) ∧
    (∀ f, domain_challenge p = Some f → f host = Ret true).

(** The extension entry [ext] is the subscriber's, with parameters [params]. *)
Definition subscriber_extension (params ext : value) : Prop :=
  ∃ uri praw role,
    get_attr ext "uri" VNone = Ret uri ∧ py_eq uri (VStr EXTENSION_URI) = true ∧
    get_attr ext "params" VNone = Ret praw ∧ params = value_or praw (VDict []) ∧
    get_attr params "role" VNone = Ret role ∧ py_eq role (VStr "subscriber") = true.

Definition declares_subscriber (card params : value) : Prop :=
  ∃ caps raw exts,
    get_attr card "capabilities" VNone = Ret caps ∧
    get_attr (value_or caps (VDict [])) "extensions" VNone = Ret raw ∧
    iterate (value_or raw (VList [])) = Ret exts ∧ Exists (subscriber_extension params) exts.

(** The interface entry [iface] speaks JSON-RPC at the address [v]. *)
Definition speaks_jsonrpc (v iface : value) : Prop :=
  ∃ b, get_attr iface "url" VNone = Ret v ∧
    get_attr iface "protocolBinding" (VStr "JSONRPC") = Ret b ∧ py_eq b (VStr "JSONRPC") = true.

(** [card] declares the A2A endpoint [u]: as an interface that speaks
    JSON-RPC, or as its own URL. *)
Definition declares_a2a (card : value) (u : string) : Prop :=
  ∃ v, str_value v = Ret u ∧
    ((∃ raw ifaces, get_attr card "supportedInterfaces" VNone = Ret raw ∧
        iterate (value_or raw (VList [])) = Ret ifaces ∧ Exists (speaks_jsonrpc v) ifaces) ∨
     get_attr card "url" VNone = Ret v).

Lemma check_endpoint_trust_ret url u p x :
  check_endpoint_trust url (Some u) p = Ret x → endpoint_trusted url u p.
Proof.
  cbn [check_endpoint_trust]. intros Ht. ret_step Ht parts Hparts. ret_step Ht y Hs.
  exists parts. split; [done|]. split.
  - intros Hr. rewrite Hr in Hs. by apply ret_guard, bool_decide_eq_true in Hs.
  - intros Hr. rewrite Hr in Ht.
    ret_step Ht card Hcard. ret_step Ht port Hport. ret_step Ht cport Hcport.
    apply ret_guard, bool_decide_eq_true in Ht. injection Ht as -> ->.
    exists (card.1, card.2, cport). unfold origin.
    rewrite Hparts, Hport, Hcard, Hcport. done.
Qed.

Lemma check_card_ret url card p parts x :
  urlsplit url = Ret parts → check_card url (default EmptyString parts.2) card p = Ret x →
  card_trusted url card p.
Proof.
  intros Hu Ht. exists parts. split; [done|]. unfold check_card in Ht.
  ret_step Ht x1 H1. ret_step Ht ok1 Hv. ret_step Ht x2 H2. ret_step Ht ok2 Hc.
  apply ret_guard in H1, H2, Ht. subst ok1 ok2. split_and!.
  - intros ds Hds. rewrite Hds in H1. by apply bool_decide_eq_true in H1.
  - intros f Hf. by rewrite Hf in Hv.
  - intros f Hf. by rewrite Hf in Hc.
Qed.

Lemma subscriber_params_ret exts params :
  subscriber_params exts = Ret params → Exists (subscriber_extension params) exts.
Proof.
  induction exts as [|ext rest IH]; [done|]. cbn [subscriber_params]. intros Ht.
  ret_step Ht uri Huri. destruct (py_eq uri _) eqn:Eu; [|auto].
  ret_step Ht praw Hp. ret_step Ht role Hrole.
  destruct (py_eq role _) eqn:Er; [|auto]. injection Ht as <-. left. by exists uri, praw, role.
Qed.

Lemma find_subscriber_extension_ret card params :
  find_subscriber_extension card = Ret params → declares_subscriber card params.
Proof.
  unfold find_subscriber_extension. intros Ht.
  ret_step Ht caps Hcaps. ret_step Ht raw Hraw. ret_step Ht exts Hexts.
  apply subscriber_params_ret in Ht. by exists caps, raw, exts.
Qed.

Lemma jsonrpc_interface_ret ifaces v :
  jsonrpc_interface ifaces = Ret (Some v) → Exists (speaks_jsonrpc v) ifaces.
Proof.
  induction ifaces as [|iface rest IH]; [done|]. cbn [jsonrpc_interface]. intros Ht.
  ret_step Ht url Hurl. ret_step Ht binding Hb.
  destruct (truthy url); [|auto]. destruct (py_eq binding _) eqn:Eb; [|auto].
  injection Ht as <-. left. by exists binding.
Qed.

Lemma a2a_endpoint_of_ret card u : a2a_endpoint_of card = Ret (Some u) → declares_a2a card u.
Proof.
  unfold a2a_endpoint_of. intros Ht.
  ret_step Ht raw Hraw. ret_step Ht ifaces Hifaces. ret_step Ht found Hfound.
  destruct found as [v|].
  - apply jsonrpc_interface_ret in Hfound.
    destruct (str_value v) as [s| |] eqn:Es; [|done..]. injection Ht as <-.
    exists v. split; [done|]. left. by exists raw, ifaces.
  - ret_step Ht v Hv. destruct (truthy v); [|done].
    destruct (str_value v) as [s| |] eqn:Es; [|done..]. injection Ht as <-.
    exists v. split; [done|]. by right.
Qed.

Lemma endpoint_text_ret v u : endpoint_text v = Ret (Some u) → v = VStr u.
Proof. destruct v; try done. by intros [= ->]. Qed.

(** What a parsed card went through. *)
Lemma parse_subscriber_card_ret url card p c :
  parse_subscriber_card url card p = Ret c →
  card_trusted url card p ∧ accepted_delivery_modes c ≠ [] ∧
  (∀ u, receive_url c = Some u → endpoint_trusted url u p ∧
     ∃ params, declares_subscriber card params ∧ get_attr params "receiveUrl" VNone = Ret (VStr u)) ∧
  (∀ u, a2a_endpoint c = Some u → endpoint_trusted url u p ∧ declares_a2a card u).
Proof.
  unfold parse_subscriber_card. intros Ht.
  ret_step Ht parts Hparts. ret_step Ht x0 Hx0. ret_step Ht params Hparams.
  ret_step Ht rv Hrv. ret_step Ht endpoint Hend. ret_step Ht raw Hraw. ret_step Ht ms Hms.
  ret_step Ht modes Hmodes. ret_step Ht receive Hrec. ret_step Ht x1 Hx1. ret_step Ht x2 Hx2.
  injection Ht as <-. cbn [accepted_delivery_modes receive_url a2a_endpoint]. split_and!.
  - by eapply check_card_ret.
  - by destruct modes.
  - intros u ->. split; [by eapply check_endpoint_trust_ret|]. exists params.
    apply endpoint_text_ret in Hrec as ->.
    split; [by apply find_subscriber_extension_ret|done].
  - intros u ->. split; [by eapply check_endpoint_trust_ret|by apply a2a_endpoint_of_ret].
Qed.

Lemma resolve_agent_card_ret fetch p url c :
  resolve_agent_card fetch p url = Ret c →
  ∃ st card, fetch url = Ret (st, Some card) ∧ 200 ≤ st < 300 ∧
    parse_subscriber_card url card p = Ret c.
Proof.
  unfold resolve_agent_card. intros Ht.
  destruct (fetch url) as [[st [card|]]|e|]; try done; [|by destruct (is_a2a_error e)].
  destruct (_ && _) eqn:Est; [|done]. bool_to_prop. exists st, card. split_and!; try done; lia.
Qed.

(** C24: the publisher delivers only where a trusted card says. When its
    resolver is [AgentCardResolver] under a trust policy, an endpoint that
    [subscribe] resolves and stores was declared by the card fetched (with a
    successful status) from the subscriber's card URL - the webhook URL by its
    A2A Events subscriber extension, the A2A endpoint by a JSON-RPC interface
    or the card's own URL -, and it satisfies HTTPS and same-origin where the
    policy asks for them; the card's host is allowlisted, its signature
    verifies and its domain challenge holds where the policy has them; and the
    endpoint passed the SSRF guard. The one stored is the one the requested
    delivery mode uses. *)
Theorem delivery_endpoint_is_trusted cfg fetch p url d c r :
  card_resolver cfg = resolve_agent_card fetch p →
  resolve_card cfg url = Ret c → resolve_delivery_target cfg d c = Ret r →
  ∃ st card u, fetch url = Ret (st, Some card) ∧ 200 ≤ st < 300 ∧
    card_trusted url card p ∧ endpoint_trusted url u p ∧
    u ≠ EmptyString ∧ check_endpoint u (ssrf_policy cfg) = Ret tt ∧
    match dp_mode d with
    | WEBHOOK => r = mkResolvedDelivery WEBHOOK (Some u) None ∧
        ∃ params, declares_subscriber card params ∧
          get_attr params "receiveUrl" VNone = Ret (VStr u)
    | A2A_MESSAGE => r = mkResolvedDelivery A2A_MESSAGE None (Some u) ∧ declares_a2a card u
    end.
Proof.
  intros Hcfg Hc Hr. unfold resolve_card in Hc. rewrite Hcfg in Hc.
  destruct (resolve_agent_card fetch p url) as [c'|e|] eqn:Ec; [|by destruct (is_a2a_error e)|done].
  injection Hc as ->. apply resolve_agent_card_ret in Ec as (st&card&Hf&[??]&Hp).
  apply parse_subscriber_card_ret in Hp as (Htrust&_&Hrecv&Ha2a).
  unfold resolve_delivery_target in Hr. exists st, card. destruct (dp_mode d).
  - destruct (receive_url c) as [u|]; [|done]. cbn [blank or_empty] in Hr.
    case_bool_decide; [done|]. ret_step Hr x Hx. injection Hr as <-. destruct x.
    exists u. destruct (Hrecv u) as (?&params&?&?); [done|]. split_and!; try done. by exists params.
  - destruct (a2a_endpoint c) as [u|]; [|done]. cbn [blank or_empty] in Hr.
    case_bool_decide; [done|]. ret_step Hr x Hx. injection Hr as <-. destruct x.
    exists u. destruct (Ha2a u) as [? ?]; [done|]. split_and!; done.
Qed.
End Endpoints.

(** ** An example card *)

#[export] Instance no_ports : UrlPort := {| url_port := λ _, Ret None |}.

Definition sample_card : list (string * value) :=
  [("name"%string, VStr "alice");
   ("url"%string, VStr "http://alice.example");
   ("capabilities"%string, VDict [("extensions"%string, VList
      [VDict [("uri"%string, VStr EXTENSION_URI);
              ("params"%string, VDict [("role"%string, VStr "subscriber");
                                       ("receiveUrl"%string, VStr "http://alice.example")])]])])].

Definition signed_card : list (string * value) := Eval vm_compute in
  match sign_card (H := toy_crypto) 64 sample_card "secret" "card-1" with
  | Ret d => d | _ => [] end.

(** The same card with its members in another order. *)
Definition reordered_card : list (string * value) := Eval vm_compute in
  match signed_card with n :: u :: rest => u :: n :: rest | d => d end.

Lemma signed_card_verifies_witness :
  verify_card (H := toy_crypto) (ed25519_public (Crypto := toy_crypto) "secret")
    (VDict reordered_card) = Ret true ∧
  ∃ d, VDict reordered_card = VDict d ∧
    verified_by (H := toy_crypto) (ed25519_public (Crypto := toy_crypto) "secret") d.
Proof.
  split.
  - apply (proj1 (signed_card_verifies (H := toy_crypto) (H0 := toy_crypto_laws)
      64 sample_card "secret" "card-1" "") signed_card reordered_card).
    + vm_compute. reflexivity.
    + eapply (json_eq_dict _ (unsigned reordered_card)).
      * apply (bool_decide_unpack _). vm_compute. exact I.
      * apply Permutation_swap.
      * repeat constructor.
    + vm_compute. reflexivity.
  - apply (proj2 (signed_card_verifies (H := toy_crypto) (H0 := toy_crypto_laws)
      0 [] "" "" (ed25519_public (Crypto := toy_crypto) "secret"))).
    vm_compute. reflexivity.
Defined.

(** A card whose name was changed after signing is refused. *)
Example tampered_card_refused :
  verify_card (H := toy_crypto) (ed25519_public (Crypto := toy_crypto) "secret")
    (VDict (dict_set "name"%string (VStr "mallory") signed_card)) = Ret false.
Proof. vm_compute. reflexivity. Qed.

Definition strict_policy : CardTrustPolicy :=
  mkCardPolicy false true (Some {["alice.example"%string]})
    (Some (verify_card (H := toy_crypto) (ed25519_public (Crypto := toy_crypto) "secret"))) None.

Definition fetch_signed (u : string) : outcome (Z * option value) :=
  if bool_decide (u = "http://alice.example"%string) then Ret (200, Some (VDict signed_card))
  else Ret (404, None).

Definition resolving_config : PublisherConfig :=
  mkConfig "http://publisher.example"
    (resolve_agent_card (H := sample_net) (H0 := no_ports) fetch_signed strict_policy)
    default_policy 60 3600 3 1000000 60000000 false None false None None 100 false.

Lemma delivery_endpoint_is_trusted_witness :
  ∃ st card u, fetch_signed "http://alice.example" = Ret (st, Some card) ∧ 200 ≤ st < 300 ∧
    card_trusted (H := sample_net) "http://alice.example" card strict_policy ∧
    endpoint_trusted (H := sample_net) (H0 := no_ports) "http://alice.example" u strict_policy ∧
    u ≠ EmptyString ∧
    check_endpoint (H := sample_net) u (ssrf_policy resolving_config) = Ret tt ∧
    mkResolvedDelivery WEBHOOK (Some "http://alice.example"%string) None =
      mkResolvedDelivery WEBHOOK (Some u) None ∧
    ∃ params, declares_subscriber card params ∧
      get_attr params "receiveUrl" VNone = Ret (VStr u).
Proof.
  apply (delivery_endpoint_is_trusted (H := sample_net) (H0 := no_ports) resolving_config
    fetch_signed strict_policy "http://alice.example" (mkDeliveryPreference WEBHOOK "")
    (mkSubscriberCard "http://alice.example" (Some "http://alice.example"%string)
      (Some "http://alice.example"%string) [A2A_MESSAGE; WEBHOOK])).
  - reflexivity.
  - vm_compute. reflexivity.
  - vm_compute. reflexivity.
Defined.
