(* ===== verification/JsonRpc.v ===== *)
(** * The JSON-RPC dispatcher ([methods.py], [jsonrpc.py])

    [handle] takes a parsed request of any JSON type to a response object. The
    request models of pydantic are the parameter [Requests] (the wording of its
    messages, as of Python's own, is not reproduced); a parameter whose
    JSON type is not the declared one ends in [Unmodelled]. The theorem says
    which response each outcome of a method gets. *)

From S2P Require Import Prelude PyStr Value Errors Effects Dynamic Models Contracts Pagination.
From S2P Require Import Canonical Json Cursor Signing Limits Observability Auth Ssrf Publisher Listing.
Open Scope Z_scope.

(** ** Method names *)

Definition METHOD_PREFIX : string := "a2a.events.".
Definition LIST_TOPICS : string := METHOD_PREFIX +:+ "ListTopics".
Definition SUBSCRIBE : string := METHOD_PREFIX +:+ "Subscribe".
Definition GET_SUBSCRIPTION : string := METHOD_PREFIX +:+ "GetSubscription".
Definition LIST_SUBSCRIPTIONS : string := METHOD_PREFIX +:+ "ListSubscriptions".
Definition RENEW_SUBSCRIPTION : string := METHOD_PREFIX +:+ "RenewSubscription".
Definition DELETE_SUBSCRIPTION : string := METHOD_PREFIX +:+ "DeleteSubscription".
Definition REPLAY : string := METHOD_PREFIX +:+ "Replay".
Definition ACK : string := METHOD_PREFIX +:+ "Ack".
Definition LIST_DELIVERY_ATTEMPTS : string := METHOD_PREFIX +:+ "ListDeliveryAttempts".

(** [CANONICAL_METHODS] *)
Definition METHODS : list string :=
  [LIST_TOPICS; SUBSCRIBE; GET_SUBSCRIPTION; LIST_SUBSCRIPTIONS; RENEW_SUBSCRIPTION;
   DELETE_SUBSCRIPTION; REPLAY; ACK; LIST_DELIVERY_ATTEMPTS].

(** [grpc_rpc_name(method)] *)
Definition grpc_rpc_name (method : string) : string :=
  default method (after_literal METHOD_PREFIX method).

(** ** Responses *)

Definition PARSE_ERROR : Z := -32700.
Definition INVALID_REQUEST : Z := -32600.
Definition METHOD_NOT_FOUND : Z := -32601.
Definition INVALID_PARAMS : Z := -32602.

(** [_result(req_id, result)] *)
Definition result_ (req_id result : value) : value :=
  VDict [("jsonrpc", VStr "2.0"); ("id", req_id); ("result", result)]%string.

(** [_error(req_id, code, message, data)] *)
Definition error_ (req_id : value) (code_ : Z) (message : string) (data_ : option value) : value :=
  VDict [("jsonrpc", VStr "2.0"); ("id", req_id);
         ("error", VDict ([("code", VInt code_); ("message", VStr message)]
                          ++ opt_field id "data" data_))]%string.

(** [selector.model_dump(by_alias=True, exclude_none=True)] *)
Definition dump_selector (s : Selector) : value :=
  VDict (("type"%string, VStr (selector_type s)) ::
    match s with
    | FieldFilterSelector w => [("where"%string, VDict ((λ kv, (kv.1, VList kv.2)) <$> w))]
    | KeywordSearchSelector ks m fs =>
        [("keywords"%string, VList (VStr <$> ks));
         ("match"%string, VStr (match m with match_all => "all" | match_any => "any" end))]
        ++ opt_field (λ l, VList (VStr <$> l)) "fields" fs
    end).

Definition dump_delivery (d : ResolvedDelivery) : list (string * value) :=
  [("mode"%string, VStr (mode_value (mode d)))]
  ++ opt_field VStr "resolvedUrl" (resolved_url d)
  ++ opt_field VStr "resolvedEndpoint" (resolved_endpoint d).

(** [_dump(sub)] *)
Definition dump_subscription (iso : Z → string) (u : Subscription) : list (string * value) :=
  [("subscriptionId", VStr (subscription_id u)); ("status", VStr (status_value (status u)));
   ("publisherCardUrl", VStr (publisher_card_url u));
   ("subscriberCardUrl", VStr (subscriber_card_url u));
   ("topics", VList (VStr <$> topics u))]%string
  ++ opt_field dump_selector "selector" (selector u)
  ++ [("delivery", VDict (dump_delivery (delivery u))); ("createdAt", VStr (iso (created_at u)));
      ("leaseUntil", VStr (iso (lease_until u)));
      ("cursors", VDict ((λ kv, (kv.1, VStr kv.2)) <$> cursors u));
      ("metadata", VDict (metadata u))]%string.

(** ** Request parameters *)

(** [DeliveryPreference.model_validate] and the [TypeAdapter] of [Selector]; what
    they refuse raises [ValidationError], a [ValueError]. *)
Class Requests := {
  validate_delivery : value → option DeliveryPreference;
  validate_selector_json : value → option Selector;
}.

Definition ill_typed {A} : outcome A := Raise (Unmodelled "a parameter of another type").

(** A parameter passed where a method declares [str], [str | None], [int],
    [int | None], [list[str]] and [dict | None]. *)
Definition as_text (v : value) : outcome string :=
  match v with VStr s => mret s | _ => ill_typed end.
Definition as_opt_text (v : value) : outcome (option string) :=
  match v with VNone => mret None | VStr s => mret (Some s) | _ => ill_typed end.
Definition as_int (v : value) : outcome Z :=
  match v with VInt n => mret n | VBool b => mret (Z.b2z b) | _ => ill_typed end.
Definition as_opt_int (v : value) : outcome (option Z) :=
  match v with VNone => mret None | _ => Some <$> as_int v end.
Definition as_texts (v : value) : outcome (list string) :=
  match v with VList l => sequence (as_text <$> l) | _ => ill_typed end.
Definition as_opt_dict (v : value) : outcome (list (string * value)) :=
  match v with VNone => mret [] | VDict d => mret d | _ => ill_typed end.

Definition validation_error : exn := ValueError "ValidationError".

(** [_parse_selector(raw)] *)
Definition parse_selector `{Requests} (raw : value) : outcome (option Selector) :=
  match raw with
  | VNone => mret None
  | _ =>
      match validate_selector_json raw with
      | Some s => mret (Some s)
      | None => Raise (A2AEventsError INVALID_SELECTOR "Invalid selector: ValidationError"
                         [("selector"%string, raw)])
      end
  end.

(** [except (KeyError, TypeError, ValueError) as exc] and [f"{exc}"] *)
Definition bad_params (e : exn) : option string :=
  match e with
  | KeyError k => Some (repr k)
  | TypeError m | ValueError m => Some m
  | _ => None
  end.

Section Dispatch.
Context {E S Q : Type} `{!EventStore E, !SubscriptionStore S, !RetryQueue Q}.
Context `{!Platform, !Crypto, !Hmac, !Net, !Requests}.
Context `{!Async (World E S Q)} (cfg : PublisherConfig) (fuel depth : nat).
Local Abbreviation PM := (M (World E S Q)).

Definition dump_ref (l : loc) : PM (list (string * value)) :=
  u ← attrs l; mret (dump_subscription iso_datetime u).

(** [_dump_with_auth(publisher, sub)] *)
Definition dump_with_auth (l : loc) : PM value :=
  dumped ← dump_ref l;
  auth ← delivery_auth cfg l;
  mret (VDict (match auth with
    | None => dumped
    | Some a =>
        match dict_get "delivery"%string dumped with
        | Some (VDict d) => dict_set "delivery"%string (VDict (dict_set "auth"%string (VDict a) d)) dumped
        | _ => dumped
        end
    end)).

(** The branches of [_dispatch], one per method. *)
Definition do_subscribe (params : value) (caller : option AuthIdentity) : PM value :=
  raw ← lift (get_attr params "selector" VNone);
  sel ← lift (parse_selector raw);
  d ← lift (get_item params "delivery");
  pref ← match validate_delivery d with Some p => mret p | None => raise validation_error end;
  card ← lift (get_item params "subscriberCardUrl");
  ts ← lift (get_item params "topics");
  from ← lift (get_attr params "fromCursor" (VStr LATEST));
  lease ← lift (get_attr params "leaseSeconds" (VInt 86400));
  meta ← lift (get_attr params "metadata" VNone);
  card ← lift (as_text card);
  ts ← lift (as_texts ts);
  from ← lift (as_text from);
  lease ← lift (as_int lease);
  meta ← lift (as_opt_dict meta);
  l ← subscribe cfg fuel card ts pref sel from lease meta caller;
  dump_with_auth l.

Definition do_get (params : value) : PM value :=
  sid ← lift (get_item params "subscriptionId");
  sid ← lift (as_text sid);
  l ← get_subscription cfg sid;
  dump_with_auth l.

Definition do_list (params : value) : PM value :=
  tok ← lift (get_attr params "pageToken" VNone);
  size ← lift (get_attr params "pageSize" VNone);
  tok ← lift (as_opt_text tok);
  size ← lift (as_opt_int size);
  p ← paginate_subscriptions cfg depth tok size;
  subs ← map_m dump_ref p.1;
  mret (VDict [("subscriptions", VList (VDict <$> subs));
               ("nextPageToken", opt_value VStr p.2)]%string).

Definition do_renew (params : value) : PM value :=
  sid ← lift (get_item params "subscriptionId");
  lease ← lift (get_item params "leaseSeconds");
  sid ← lift (as_text sid);
  lease ← lift (as_int lease);
  l ← renew cfg sid lease;
  dump_with_auth l.

Definition do_delete (params : value) : PM value :=
  sid ← lift (get_item params "subscriptionId");
  sid ← lift (as_text sid);
  _ ← delete cfg sid;
  mret (VDict [("subscriptionId", VStr sid); ("status", VStr "deleted")]%string).

Definition do_replay (params : value) : PM value :=
  sid ← lift (get_item params "subscriptionId");
  from ← lift (get_attr params "fromCursor" VNone);
  to ← lift (get_attr params "toCursor" VNone);
  limit ← lift (get_attr params "limit" (VInt 100));
  sid ← lift (as_text sid);
  from ← lift (as_opt_text from);
  to ← lift (as_opt_text to);
  limit ← lift (as_int limit);
  p ← replay_events cfg sid from to limit;
  mret (VDict [("subscriptionId", VStr sid); ("events", VList (VDict <$> p.1));
               ("nextCursor", opt_value VStr p.2)]%string).

Definition do_ack (params : value) : PM value :=
  sid ← lift (get_item params "subscriptionId");
  cursor ← lift (get_item params "cursor");
  sid ← lift (as_text sid);
  cursor ← lift (as_text cursor);
  l ← ack_cursor cfg sid cursor;
  VDict <$> dump_ref l.

Definition do_list_attempts (params : value) : PM value :=
  sid ← lift (get_item params "subscriptionId");
  tok ← lift (get_attr params "pageToken" VNone);
  size ← lift (get_attr params "pageSize" VNone);
  sid ← lift (as_text sid);
  tok ← lift (as_opt_text tok);
  size ← lift (as_opt_int size);
  VDict <$> list_delivery_attempts cfg depth sid tok size.

(** [_dispatch(publisher, method, params, caller)] *)
Definition dispatch (method : string) (params : value) (caller : option AuthIdentity) : PM value :=
  let called m := bool_decide (method = m) in
  if called LIST_TOPICS then VDict <$> list_topics cfg
  else if called SUBSCRIBE then do_subscribe params caller
  else if called GET_SUBSCRIPTION then do_get params
  else if called LIST_SUBSCRIPTIONS then do_list params
  else if called RENEW_SUBSCRIPTION then do_renew params
  else if called DELETE_SUBSCRIPTION then do_delete params
  else if called REPLAY then do_replay params
  else if called ACK then do_ack params
  else if called LIST_DELIVERY_ATTEMPTS then do_list_attempts params
  else raise (A2AEventsError EXTENSION_NOT_SUPPORTED ("Unhandled method " +:+ method +:+ ".") []).

(** The [except] clauses of [handle]. *)
Definition on_error (req_id : value) (e : exn) : option (PM value) :=
  match e with
  | A2AEventsError c m d =>
      Some (mret (error_ req_id (jsonrpc_code c) m (dict_get "data"%string (to_error_object c m d))))
  | _ => (λ text, mret (error_ req_id INVALID_PARAMS ("Invalid params: " +:+ text) None))
           <$> bad_params e
  end.

(** [handle(publisher, request, caller)] *)
Definition handle (request : value) (caller : option AuthIdentity) : PM value :=
  req_id ← lift (get_attr request "id" VNone);
  version ← lift (get_attr request "jsonrpc" VNone);
  has_method ← lift (contains_key request "method");
  if negb (py_eq version (VStr "2.0")) || negb has_method
  then mret (error_ req_id INVALID_REQUEST "Invalid JSON-RPC request." None) else
  method ← lift (get_item request "method");
  raw ← lift (get_attr request "params" VNone);
  let params := if truthy raw then raw else VDict [] in
  if negb (hashable method) then raise unhashable else
  match method with
  | VStr name =>
      if bool_decide (name ∈ METHODS) then
        try_except (result_ req_id <$> dispatch name params caller) (on_error req_id)
      else mret (error_ req_id METHOD_NOT_FOUND ("Unknown method " +:+ name +:+ ".") None)
  | _ => mret (error_ req_id METHOD_NOT_FOUND ("Unknown method " +:+ py_str method +:+ ".") None)
  end.
End Dispatch.

(** ** What the caller gets *)

Lemma py_eq_text v s : py_eq v (VStr s) = true → v = VStr s.
Proof. destruct v as [| | |[]| | |]; simpl; try done. by intros ->%bool_decide_eq_true. Qed.

(** A request for a method, as the transports build it. *)
Definition request (i : value) (method : string) (params : value) : value :=
  VDict [("jsonrpc", VStr "2.0"); ("id", i); ("method", VStr method); ("params", params)]%string.

(** Exceptions that the protocol answers itself. *)
Definition answered (e : exn) : bool :=
  match e with
  | A2AEventsError _ _ _ | KeyError _ | TypeError _ | ValueError _ => true
  | _ => false
  end.

(** The error member of the response to an exception. *)
Definition error_object (e : exn) : list (string * value) :=
  match e with
  | A2AEventsError c m d =>
      [("code", VInt (jsonrpc_code c)); ("message", VStr m);
       ("data", VDict (dict_merge [("code", VStr (code_value c))] d))]%string
  | _ => [("code", VInt INVALID_PARAMS);
          ("message", VStr ("Invalid params: " +:+ default EmptyString (bad_params e)))]%string
  end.

Definition response (i : value) (member : string * value) : value :=
  VDict [("jsonrpc"%string, VStr "2.0"); ("id"%string, i); member].

(** The response to the outcome of a method, if it has one. *)
Definition respond (i : value) (o : outcome value) : outcome value :=
  match o with
  | Ret v => Ret (response i ("result"%string, v))
  | Raise e => if answered e then Ret (response i ("error"%string, VDict (error_object e)))
               else Raise e
  | NoFuel => NoFuel
  end.

Section Answers.
Context {E S Q : Type} `{!EventStore E, !SubscriptionStore S, !RetryQueue Q}.
Context `{!Platform, !Crypto, !Hmac, !Net, !Requests}.
Context `{!Async (World E S Q)} (cfg : PublisherConfig) (fuel depth : nat).

Lemma try_respond i (m : M (World E S Q) value) w :
  try_except (result_ i <$> m) (on_error i) w = (respond i (m w).1, (m w).2).
Proof.
  unfold try_except, fmap, M_fmap. destruct (m w) as [[v|e|] w']; [done| |done].
  by destruct e.
Qed.

(** A request object with a known method: the response is the one of the
    method's outcome, and the world is the one the method leaves. *)
Lemma handle_method r i name caller w :
  dict_get "jsonrpc"%string r = Some (VStr "2.0") → default VNone (dict_get "id"%string r) = i →
  dict_get "method"%string r = Some (VStr name) → name ∈ METHODS →
  let raw := default VNone (dict_get "params"%string r) in
  let params := if truthy raw then raw else VDict [] in
  handle cfg fuel depth (VDict r) caller w =
  (respond i (dispatch cfg fuel depth name params caller w).1,
   (dispatch cfg fuel depth name params caller w).2).
Proof.
  intros Hv Hi Hm Hn raw params. unfold handle. cbn [get_attr contains_key get_item].
  rewrite Hv, Hm, Hi. cbn [default].
  change (mbind (M := M ?W) ?k (lift (mret ?a))) with (k a).
  unfold mbind, M_bind, lift, mret, outcome_ret. simpl negb. rewrite bool_decide_true by done.
  simpl. rewrite bool_decide_true by done. apply try_respond.
Qed.

Lemma dict_params (d : list (string * value)) :
  (if truthy (VDict d) then VDict d else VDict []) = VDict d.
Proof. by destruct d. Qed.

(** The same of a request that a transport built. *)
Lemma handle_request i name d caller w :
  name ∈ METHODS →
  handle cfg fuel depth (request i name (VDict d)) caller w =
  (respond i (dispatch cfg fuel depth name (VDict d) caller w).1,
   (dispatch cfg fuel depth name (VDict d) caller w).2).
Proof.
  intros Hn. unfold request. rewrite (handle_method _ i name) by done.
  cbn [dict_get]. rewrite decide_False, decide_False, decide_False, decide_True by done.
  cbn [default]. unfold id. by rewrite dict_params.
Qed.

(** The error members that answer a request no method is run for. *)
Definition refusal (n : Z) (text : string) : string * value :=
  ("error"%string, VDict [("code"%string, VInt n); ("message"%string, VStr text)]).
Definition no_call : string * value := refusal INVALID_REQUEST "Invalid JSON-RPC request.".
Definition no_method (m : value) : string * value :=
  refusal METHOD_NOT_FOUND ("Unknown method " +:+ py_str m +:+ ".").

(** A request object is a JSON-RPC 2.0 call of [m]. *)
Definition calls (r : list (string * value)) (m : value) : Prop :=
  dict_get "jsonrpc"%string r = Some (VStr "2.0") ∧ dict_get "method"%string r = Some m.
(** The methods the dispatcher has. *)
Definition known_method (m : value) : Prop := ∃ name, m = VStr name ∧ name ∈ METHODS.
Definition id_of (r : list (string * value)) : value := default VNone (dict_get "id"%string r).

Lemma handle_not_an_object v caller w :
  (∀ r, v ≠ VDict r) → handle cfg fuel depth v caller w = (Raise no_attribute, w).
Proof. destruct v as [| | | | | |r]; try done. intros Hv. by destruct (Hv r). Qed.

Lemma handle_no_call r caller w :
  (∀ m, ¬ calls r m) →
  handle cfg fuel depth (VDict r) caller w = (Ret (response (id_of r) no_call), w).
Proof.
  intros Hno. unfold handle. cbn [get_attr contains_key get_item].
  set (version := default VNone (dict_get "jsonrpc"%string r)).
  unfold mbind, M_bind, lift, mret, outcome_ret.
  destruct (py_eq version (VStr "2.0")) eqn:Ev; [|done].
  destruct (dict_get "method"%string r) as [m|] eqn:Hm; [|done].
  destruct (Hno m). split; [|done]. apply py_eq_text in Ev. unfold version in Ev.
  destruct (dict_get "jsonrpc"%string r); simpl in Ev; congruence.
Qed.

Lemma handle_no_method r m caller w :
  calls r m → ¬ known_method m →
  handle cfg fuel depth (VDict r) caller w =
  (if hashable m then Ret (response (id_of r) (no_method m)) else Raise unhashable, w).
Proof.
  intros [Hv Hm] Hk. unfold handle. cbn [get_attr contains_key get_item]. rewrite Hv, Hm.
  unfold mbind, M_bind, lift, mret, outcome_ret. simpl.
  destruct (hashable m) eqn:Hh; [|done]. simpl. destruct m as [| | | |name| |]; try done.
  rewrite bool_decide_false; [done|]. intros Hin. apply Hk. by exists name.
Qed.

(** What a call of a known method is answered with. *)
Definition params_of (r : list (string * value)) : value :=
  let raw := default VNone (dict_get "params"%string r) in
  if truthy raw then raw else VDict [].

(** C26: The answer to a request, for every request and every outcome of a
    method. Something that is no JSON object raises [AttributeError]; an object
    that is no JSON-RPC 2.0 call is refused with -32600, a call of a method it
    does not have with -32601 and that name, both under the request's id and
    with the publisher as it was (a method that is a list or an object raises
    [TypeError] instead). A call of one of the nine methods runs that method on
    its parameters (missing and falsy ones are the empty object), leaves the
    publisher as the method does, and is answered under its id with the
    method's result, with the code, message and data of the [A2AEventsError] it
    raised, or with -32602 and the text of its [KeyError], [TypeError] or
    [ValueError]. Any other exception of a method leaves [handle]. *)
Theorem handle_answers request caller w :
  let answer := handle cfg fuel depth request caller w in
  match request with
  | VDict r =>
      ((∀ m, ¬ calls r m) → answer = (Ret (response (id_of r) no_call), w)) ∧
      (∀ m, calls r m → ¬ known_method m →
        answer = (if hashable m then Ret (response (id_of r) (no_method m))
                  else Raise unhashable, w)) ∧
      (∀ name, calls r (VStr name) → name ∈ METHODS →
        let '(o, w') := dispatch cfg fuel depth name (params_of r) caller w in
        answer = (match o with
                  | Ret v => Ret (response (id_of r) ("result"%string, v))
                  | Raise e =>
                      if answered e
                      then Ret (response (id_of r) ("error"%string, VDict (error_object e)))
                      else Raise e
                  | NoFuel => NoFuel
                  end, w'))
  | _ => answer = (Raise no_attribute, w)
  end.
Proof.
  intros answer. destruct request as [| | | | | |r]; try by apply handle_not_an_object.
  split_and!; [apply handle_no_call|intros m; apply handle_no_method|].
  intros name [Hv Hm] Hin. unfold answer.
  rewrite (handle_method r _ name) by done. fold (params_of r).
  by destruct (dispatch _ _ _ _ _ _ _).
Qed.

(** Every object is a call of a known method, of another one, or no call. *)
Lemma call_cases r :
  (∃ m, calls r m ∧ (known_method m ∨ ¬ known_method m)) ∨ (∀ m, ¬ calls r m).
Proof.
  destruct (dict_get "jsonrpc"%string r) as [v|] eqn:Hv; [|right; intros m [? _]; congruence].
  destruct (dict_get "method"%string r) as [m|] eqn:Hm; [|right; intros m [_ ?]; congruence].
  destruct (py_eq v (VStr "2.0")) eqn:E2.
  - apply py_eq_text in E2 as ->. left. exists m. split; [done|].
    destruct m as [| | | |name| |]; try (right; by intros (? & ? & ?)).
    destruct (decide (name ∈ METHODS)); [left; by exists name|right; by intros (? & [= <-] & ?)].
  - right. intros m' [Hv' _]. rewrite Hv in Hv'. by injection Hv' as ->.
Qed.

(** An error that [handle] answers with is a refusal, or the one of an exception
    that the method it called raised. *)
Lemma handle_error request caller w resp err :
  (handle cfg fuel depth request caller w).1 = Ret (VDict resp) →
  dict_get "error"%string resp = Some err →
  (∃ n text, ("error"%string, err) = refusal n text) ∨
  ∃ r name e, request = VDict r ∧ calls r (VStr name) ∧
    (dispatch cfg fuel depth name (params_of r) caller w).1 = Raise e ∧
    err = VDict (error_object e).
Proof.
  intros Hr He. destruct request as [| | | | | |r]; try by rewrite handle_not_an_object in Hr.
  destruct (call_cases r) as [(m&Hc&[(name & -> & Hin)|Hk])|Hno].
  - right. exists r, name. rewrite (handle_method r _ name) in Hr by (done || apply Hc).
    fold (params_of r) in Hr. cbn [fst] in Hr.
    destruct (dispatch _ _ _ _ _ _ _) as [[v|e|] w']; cbn in Hr; [| |done].
    + injection Hr as <-. done.
    + exists e. destruct (answered e); [|done]. injection Hr as <-. injection He as <-. done.
  - rewrite (handle_no_method r m) in Hr by done.
    destruct (hashable m); [|done]. injection Hr as <-. injection He as <-. left. by eexists _, _.
  - rewrite handle_no_call in Hr by done.
    injection Hr as <-. injection He as <-. left. by eexists _, _.
Qed.
End Answers.
