(* ===== verification/SchemaExport.v ===== *)
(** * Published JSON Schemas ([schema_export.py])

    The schema of the error objects, written by hand in the source, and the
    wrapping of the four that pydantic derives from the models, which are
    parameters. [valid] gives the meaning of the keywords that the error schema
    uses, after the JSON Schema specification (draft 2020-12). *)

From S2P Require Import Prelude PyStr Value Errors Effects Models Contracts Signing Auth Ssrf Publisher JsonRpc.
Open Scope Z_scope.

Definition SCHEMA_DIALECT : string := "https://json-schema.org/draft/2020-12/schema".
Definition SCHEMA_BASE : string := "https://a2a-events.github.io/a2a-events/schemas".

(** [Topic.model_json_schema(by_alias=True)] and so on. *)
Class ModelSchemas := {
  topic_schema : list (string * value);
  subscription_schema : list (string * value);
  event_schema : list (string * value);
  selector_schema : list (string * value);
}.

(** [_wrap(name, schema)] *)
Definition wrap (name : string) (schema : list (string * value)) : list (string * value) :=
  dict_merge [("$schema", VStr SCHEMA_DIALECT); ("$id", VStr (SCHEMA_BASE +:+ "/" +:+ name))]%string schema.

(** [error_schema()] *)
Definition error_schema : list (string * value) :=
  [("title", VStr "A2AEventsError");
   ("description", VStr "JSON-RPC 2.0 error object with an A2A Events symbolic code.");
   ("type", VStr "object");
   ("required", VList [VStr "code"; VStr "message"]);
   ("properties", VDict [
      ("code", VDict [("type", VStr "integer"); ("description", VStr "JSON-RPC numeric error code.")]);
      ("message", VDict [("type", VStr "string")]);
      ("data", VDict [
         ("type", VStr "object");
         ("required", VList [VStr "code"]);
         ("properties", VDict [
            ("code", VDict [
               ("type", VStr "string");
               ("description", VStr "Symbolic A2A Events error code.");
               ("enum", VList ((λ c, VStr (code_value c)) <$> all_codes))])]);
         ("additionalProperties", VBool true)])]);
   ("additionalProperties", VBool false)]%string.

(** [build_schemas()] *)
Definition build_schemas `{ModelSchemas} : list (string * list (string * value)) :=
  (λ ns, (ns.1, wrap ns.1 ns.2)) <$>
  [("topic.schema.json", topic_schema); ("subscription.schema.json", subscription_schema);
   ("event.schema.json", event_schema); ("selector.schema.json", selector_schema);
   ("error.schema.json", error_schema)]%string.

(** ** What a schema says of an instance *)

Definition has_type (t : string) (v : value) : bool :=
  match v with
  | VNone => bool_decide (t = "null"%string)
  | VBool _ => bool_decide (t = "boolean"%string)
  | VInt _ => bool_decide (t = "integer"%string) || bool_decide (t = "number"%string)
  | VFloat f => bool_decide (t = "number"%string) || (bool_decide (t = "integer"%string) &&
      match f with FFin _ m e => (0 <=? e) || (m mod 2 ^ (- e) =? 0) | _ => false end)
  | VStr _ => bool_decide (t = "string"%string)
  | VList _ => bool_decide (t = "array"%string)
  | VDict _ => bool_decide (t = "object"%string)
  end.

(** A member of an enumeration of texts. *)
Definition is_text (s : string) (v : value) : bool :=
  match v with VStr t => bool_decide (t = s) | _ => false end.
Definition one_of (l : list value) (v : value) : bool :=
  match v with VStr s => existsb (is_text s) l | _ => false end.

Definition members (v : value) : list (string * value) :=
  match v with VDict d => d | _ => [] end.

(** Whether [d] has the member that [k] names. *)
Definition has_member (d : list (string * value)) (k : value) : bool :=
  match k with VStr k => bool_decide (k ∈ dict_keys d) | _ => false end.

(** Every member of the schema object is checked against the instance [v]. *)
Fixpoint valid (schema v : value) {struct schema} : bool :=
  match schema with
  | VBool b => b
  | VDict keywords =>
      let declared := members (default (VDict []) (dict_get "properties"%string keywords)) in
      forallb (λ '(k, a),
        match a with
        | VStr t => if String.eqb k "type" then has_type t v else true
        | VList names =>
            if String.eqb k "required" then
              match v with VDict d => forallb (has_member d) names | _ => true end
            else if String.eqb k "enum" then one_of names v else true
        | VDict props =>
            if String.eqb k "properties" then
              forallb (λ '(n, s),
                match dict_get n (members v) with Some x => valid s x | None => true end) props
            else true
        | VBool more =>
            if String.eqb k "additionalProperties" then
              forallb (λ m, more || has_member declared (VStr m.1)) (members v)
            else true
        | _ => true
        end) keywords
  | _ => false
  end.

(** ** Properties *)

Definition code_schema : value :=
  VDict [("type", VStr "string"); ("description", VStr "Symbolic A2A Events error code.");
         ("enum", VList ((λ c, VStr (code_value c)) <$> all_codes))]%string.

(** The symbolic codes of the schema are those the implementation knows. *)
Lemma code_schema_valid v :
  valid code_schema v = true ↔ ∃ s c, v = VStr s ∧ ErrorCode_of s = Some c.
Proof.
  split.
  - destruct v as [| | | |s| |]; try done. unfold code_schema. cbn -[one_of fmap list_fmap all_codes].
    rewrite andb_true_r. intros Hs. exists s. unfold one_of in Hs. apply existsb_exists in Hs as (x & Hx & Heq).
    apply list_elem_of_In, list_elem_of_fmap in Hx as (c & -> & Hc). exists c. split; [done|].
    simpl in Heq. apply bool_decide_eq_true in Heq as <-. apply ErrorCode_of_value.
  - intros (s & c & -> & Hc). apply list_first_Some in Hc as [Hin Hs]. apply bool_decide_eq_true in Hs as <-.
    unfold code_schema. cbn -[one_of fmap list_fmap all_codes]. rewrite andb_true_r.
    apply existsb_exists. exists (VStr (code_value c)). split; [|by apply bool_decide_eq_true].
    apply list_elem_of_In, list_elem_of_fmap. by exists c.
Qed.

Definition data_schema : value :=
  VDict [("type", VStr "object"); ("required", VList [VStr "code"]);
         ("properties", VDict [("code", code_schema)]); ("additionalProperties", VBool true)]%string.

Lemma has_member_get d k : has_member d (VStr k) = true ↔ is_Some (dict_get k d).
Proof. simpl. rewrite bool_decide_eq_true. apply dict_get_keys. Qed.

Lemma open_members (declared d : list (string * value)) :
  forallb (λ m, true || has_member declared (VStr m.1)) d = true.
Proof. by apply forallb_forall. Qed.

Lemma data_schema_valid v :
  valid data_schema v = true ↔
  ∃ d x, v = VDict d ∧ dict_get "code"%string d = Some x ∧ valid code_schema x = true.
Proof.
  unfold data_schema. cbn [valid forallb String.eqb Ascii.eqb Bool.eqb].
  destruct v as [| | | | | |d]; try (split; [done|by intros (? & ? & ? & _)]).
  cbn [members]. rewrite open_members, !andb_true_r, !andb_true_iff, has_member_get.
  split.
  - intros (_ & [x Hx] & Hc). rewrite Hx in Hc. by exists d, x.
  - intros (d' & x & [= <-] & Hx & Hc). rewrite Hx. by eauto.
Qed.

(** The file of the error schema. *)
Definition error_file : value := VDict (wrap "error.schema.json" error_schema).

(** What it asks of an instance. *)
Record error_shape (d : list (string * value)) : Prop := {
  es_code : ∃ x, dict_get "code"%string d = Some x ∧ has_type "integer" x = true;
  es_message : ∃ m, dict_get "message"%string d = Some (VStr m);
  es_data x : dict_get "data"%string d = Some x → valid data_schema x = true;
  es_members k : k ∈ dict_keys d → k ∈ ["code"; "message"; "data"]%string;
}.

Lemma error_file_valid v : valid error_file v = true ↔ ∃ d, v = VDict d ∧ error_shape d.
Proof.
  replace error_file with (VDict [
    ("$schema", VStr SCHEMA_DIALECT); ("$id", VStr (SCHEMA_BASE +:+ "/error.schema.json"));
    ("title", VStr "A2AEventsError");
    ("description", VStr "JSON-RPC 2.0 error object with an A2A Events symbolic code.");
    ("type", VStr "object"); ("required", VList [VStr "code"; VStr "message"]);
    ("properties", VDict [
      ("code", VDict [("type", VStr "integer"); ("description", VStr "JSON-RPC numeric error code.")]);
      ("message", VDict [("type", VStr "string")]); ("data", data_schema)]);
    ("additionalProperties", VBool false)]%string) by (vm_compute; reflexivity).
  cbn [valid forallb String.eqb Ascii.eqb Bool.eqb].
  destruct v as [| | | | | |d]; try (split; [done|by intros (? & ? & _)]).
  set (declared := members (default _ _)).
  assert (dict_keys declared = ["code"; "message"; "data"]%string) as Hdec
    by (vm_compute; reflexivity).
  cbn [members]. rewrite !andb_true_l, !andb_true_r, !andb_true_iff, !has_member_get, forallb_forall.
  split.
  - intros (([x Hx] & [y Hy]) & (Hc & Hm & Hd) & Hall). exists d. split; [done|].
    rewrite Hx in Hc. rewrite Hy in Hm. rewrite andb_true_r in Hc, Hm. split.
    + by exists x.
    + destruct y; try done. by eexists.
    + intros z Hz. by rewrite Hz in Hd.
    + intros k [[k' z] [-> Hin]]%list_elem_of_fmap. apply list_elem_of_In in Hin.
      specialize (Hall _ Hin). apply bool_decide_eq_true in Hall. by rewrite <- Hdec.
  - intros (d' & Hd' & Hshape). injection Hd' as <-. destruct Hshape as [(x & Hx & Hc) [m Hm] Hd Hall]. rewrite Hx, Hm, Hc.
    repeat split; [by eexists|by eexists| |].
    + destruct (dict_get "data"%string d) eqn:E; [by apply Hd|done].
    + intros [k z] Hin. apply bool_decide_eq_true. rewrite Hdec. apply Hall.
      apply list_elem_of_In in Hin. apply list_elem_of_fmap. by exists (k, z).
Qed.

(** ** The errors the protocol answers with *)

(** Details without a key "code", which would override the symbolic code. *)
Definition code_kept (e : exn) : Prop :=
  match e with
  | A2AEventsError _ _ details => dict_get "code"%string details = None
  | _ => True
  end.

(** A plain error, without data. *)
Lemma plain_error_shape n text :
  error_shape [("code"%string, VInt n); ("message"%string, VStr text)].
Proof.
  split; [by eexists|by eexists|done|]. intros k. cbn. set_solver.
Qed.

Lemma error_object_shape e : code_kept e → error_shape (error_object e).
Proof.
  destruct e as [c m details| | | | | | | | | |]; try (intros _; apply plain_error_shape).
  intros Hkept. split; [by eexists|by eexists| |intros k; cbn; set_solver].
  intros x. cbn. intros [= <-]. apply data_schema_valid. eexists _, _. split; [done|].
  rewrite error_data_code by done. split; [done|]. apply code_schema_valid.
  exists (code_value c), c. by rewrite ErrorCode_of_value.
Qed.

(** The HTTP status of a numeric JSON-RPC code without a symbolic one. *)
Definition numeric_status (n : Z) : Z :=
  if bool_decide (n ∈ [INVALID_REQUEST; INVALID_PARAMS; PARSE_ERROR]) then 400
  else if bool_decide (n = METHOD_NOT_FOUND) then 404 else 500.

(** How a client reads the status of an error: by its symbolic code where it
    has one, else by its number. *)
Definition status_read (err : list (string * value)) : Prop :=
  match dict_get "data"%string err with
  | Some data =>
      ∃ d s c, data = VDict d ∧ dict_get "code"%string d = Some (VStr s) ∧
        ErrorCode_of s = Some c ∧ http_status_for_error err = inl (http_status c)
  | None =>
      ∃ code, dict_get "code"%string err = Some code ∧
        match code with
        | VInt n => http_status_for_error err = inl (numeric_status n)
        | _ => ∃ n, http_status_for_error err = inl n ∧ n ∈ [400; 404; 500]
        end
  end.

Lemma py_eq_int n m : py_eq (VInt n) (VInt m) = bool_decide (n = m).
Proof.
  rewrite py_eq_scalar by done. unfold scalar_eqb, num_of, num_eqb. simpl.
  rewrite !Z.mul_1_r. destruct (Z.eqb_spec n m); by case_bool_decide.
Qed.

Lemma error_shape_status d : error_shape d → status_read d.
Proof.
  intros [(code&Hcode&Hint) _ Hd _]. unfold status_read, http_status_for_error. rewrite Hcode.
  destruct (dict_get "data"%string d) as [x|].
  - destruct (proj1 (data_schema_valid x) (Hd x eq_refl)) as (data & y & -> & Hy & Hs).
    apply code_schema_valid in Hs as (s & c & -> & Hc).
    exists data, s, c. destruct data as [|kv data]; [done|].
    change (truthy (VDict (kv :: data))) with true. cbn iota. by rewrite Hy, Hc.
  - exists code. split; [done|]. cbn [truthy dict_get].
    destruct code as [| |n| | | |]; try (destruct (existsb _ _);
      [|destruct (py_eq _ _)]; eexists; (split; [done|set_solver])).
    f_equal. unfold numeric_status. cbn [existsb]. rewrite !py_eq_int.
    change INVALID_REQUEST with (-32600). change INVALID_PARAMS with (-32602).
    change PARSE_ERROR with (-32700). change METHOD_NOT_FOUND with (-32601).
    repeat case_bool_decide; try done; exfalso; set_solver.
Qed.

Section Errors.
Context {E S Q : Type} `{!EventStore E, !SubscriptionStore S, !RetryQueue Q}.
Context `{!Platform, !Crypto, !Hmac, !Net, !Requests}.
Context `{!Async (World E S Q)} (cfg : PublisherConfig) (fuel depth : nat).

(** C39: The published error schema and the code agree, both ways. Every error
    that [handle] answers a request with, its own refusals included, is an
    instance of [error.schema.json], unless it is an exception of the called
    method whose details carry a key "code" of their own. Every instance of that
    schema is an error the other side understands: with data,
    [http_status_for_error] gives it the status of the symbolic code in
    "data.code", which is one of the table's; without, 400 for -32600, -32602
    and -32700, 404 for -32601 and 500 for any other integer. *)
Theorem error_schema_agrees :
  (∀ request caller w resp err,
     (handle cfg fuel depth request caller w).1 = Ret (VDict resp) →
     dict_get "error"%string resp = Some err →
     valid error_file err = true ∨
     ∃ r name e, request = VDict r ∧ calls r (VStr name) ∧
       (dispatch cfg fuel depth name (params_of r) caller w).1 = Raise e ∧
       err = VDict (error_object e) ∧ ¬ code_kept e) ∧
  (∀ err, valid error_file (VDict err) = true →
     match dict_get "data"%string err with
     | Some data =>
         ∃ d s c, data = VDict d ∧ dict_get "code"%string d = Some (VStr s) ∧
           ErrorCode_of s = Some c ∧ http_status_for_error err = inl (http_status c)
     | None =>
         ∃ code, dict_get "code"%string err = Some code ∧
           match code with
           | VInt n => http_status_for_error err = inl (numeric_status n)
           | _ => ∃ n, http_status_for_error err = inl n ∧ n ∈ [400; 404; 500]
           end
     end).
Proof.
  split.
  - intros request caller w resp err Hr He. rewrite error_file_valid.
    destruct (handle_error cfg fuel depth request caller w resp err Hr He)
      as [(n&text&[= ->])|(r&name&e&->&Hc&Hd&->)].
    { left. eexists. split; [done|]. apply plain_error_shape. }
    assert (Decision (code_kept e)) as [|] by (destruct e; apply _); [left|right; by eauto 10].
    eexists. split; [done|]. by apply error_object_shape.
  - intros err (d & [= <-] & Hs)%error_file_valid. by apply error_shape_status.
Qed.
End Errors.

(** *** The exported files *)

Section Files.
Context `{!ModelSchemas}.

(** Each file names itself: its "$id" is the base URL and its own name, unless
    the wrapped schema sets a member of that name. *)
Lemma build_schemas_named name schema :
  (name, schema) ∈ build_schemas → 
  ∃ inner, schema = wrap name inner ∧
    (dict_get "$id"%string inner = None →
     dict_get "$id"%string schema = Some (VStr (SCHEMA_BASE +:+ "/" +:+ name))).
Proof.
  intros ([n inner] & [= -> ->] & _)%list_elem_of_fmap. exists inner. split; [done|].
  intros Hn. unfold wrap. by rewrite dict_merge_get.
Qed.

Lemma error_file_built : dict_get "error.schema.json"%string build_schemas = Some (wrap "error.schema.json" error_schema).
Proof. reflexivity. Qed.
End Files.
