(* ===== verification/FileSystem.v ===== *)
(** * A file system, as [pathlib] sees it

    A tree of directories and files without symbolic links or permissions, with the
    operations of [pathlib.Path] that the scripts use and the exceptions they end
    in, and the lines a script prints. [grown] is what the operations can do to a
    tree. *)

From S2P Require Import Prelude PyStr Value Errors Effects.
Open Scope Z_scope.

(** An absolute path, the last component first. *)
Definition path := list string.
Inductive node := Dir | File (content : string).

Record FS := mkFS { nodes : gmap path node; stdout : list string }.

Definition node_at (fs : FS) (p : path) : option node :=
  match p with [] => Some Dir | _ => nodes fs !! p end.
Definition set_node (p : path) (n : node) (fs : FS) : FS :=
  mkFS (<[p := n]> (nodes fs)) (stdout fs).

(** [p.is_dir()], [p.exists()] *)
Definition is_dir (fs : FS) (p : path) : bool :=
  match node_at fs p with Some Dir => true | _ => false end.
Definition exists_ (fs : FS) (p : path) : bool := bool_decide (is_Some (node_at fs p)).

(** Whether a component before the last one is a file. *)
Definition through_file (fs : FS) (p : path) : bool :=
  existsb (λ q, match node_at fs q with Some (File _) => true | _ => false end)
    ((λ n, drop n p) <$> seq 1 (length p)).

(** What the system says of a path that is not there. *)
Definition missing (fs : FS) (p : path) : exn :=
  OtherException (if through_file fs p then "NotADirectoryError" else "FileNotFoundError").

(** [p.read_bytes()] *)
Definition read_bytes (p : path) : M FS string := λ fs,
  match node_at fs p with
  | Some (File b) => (Ret b, fs)
  | Some Dir => (Raise (OtherException "IsADirectoryError"), fs)
  | None => (Raise (missing fs p), fs)
  end.

(** [p.write_bytes(b)] *)
Definition write_bytes (p : path) (b : string) : M FS unit := λ fs,
  match node_at fs p, p with
  | Some Dir, _ | None, [] => (Raise (OtherException "IsADirectoryError"), fs)
  | Some (File _), _ => (Ret tt, set_node p (File b) fs)
  | None, _ :: parent =>
      if is_dir fs parent then (Ret tt, set_node p (File b) fs) else (Raise (missing fs p), fs)
  end.

(** [p.mkdir(parents=True, exist_ok=True)] *)
Fixpoint mkdir (p : path) : M FS unit :=
  match p with
  | [] => mret tt
  | name :: parent => λ fs,
      match node_at fs (name :: parent) with
      | Some Dir => (Ret tt, fs)
      | Some (File _) => (Raise (OtherException "FileExistsError"), fs)
      | None =>
          if through_file fs (name :: parent)
          then (Raise (OtherException "NotADirectoryError"), fs)
          else (_ ← mkdir parent; modify (set_node (name :: parent) Dir)) fs
      end
  end.

(** [p.mkdir(exist_ok=True)] *)
Definition mkdir_one (p : path) : M FS unit := λ fs,
  match p with
  | [] => (Ret tt, fs)
  | _ :: parent =>
      match node_at fs p with
      | Some Dir => (Ret tt, fs)
      | Some (File _) => (Raise (OtherException "FileExistsError"), fs)
      | None => if is_dir fs parent then (Ret tt, set_node p Dir fs) else (Raise (missing fs p), fs)
      end
  end.

(** [print(line)] *)
Definition print (line : string) : M FS unit :=
  modify (λ fs, mkFS (nodes fs) (stdout fs ++ [line])).

(** ** What happens to a tree *)

Lemma node_at_set p n fs q :
  p ≠ [] → node_at (set_node p n fs) q = if decide (q = p) then Some n else node_at fs q.
Proof.
  intros Hp. destruct q as [|x q]; simpl.
  - rewrite decide_False; [done|]. by intros <-.
  - case_decide as Hq; [by rewrite Hq, lookup_insert_eq|by rewrite lookup_insert_ne].
Qed.

(** Directories stay; files stay, except for [D], and new ones are among [D]; new
    directories are among [A]. *)
Record grown (D : list path) (A : path → Prop) (fs fs' : FS) : Prop := {
  gr_dir : ∀ p, node_at fs p = Some Dir → node_at fs' p = Some Dir;
  gr_file : ∀ p b, node_at fs p = Some (File b) → p ∉ D → node_at fs' p = Some (File b);
  gr_new_dir : ∀ p, node_at fs' p = Some Dir → node_at fs p = Some Dir ∨ A p;
  gr_new_file : ∀ p b, node_at fs' p = Some (File b) → p ∈ D ∨ node_at fs p = Some (File b);
}.

#[export] Instance grown_preorder D A : PreOrder (grown D A).
Proof.
  split; [by split; auto|]. intros fs1 fs2 fs3 [H1 H2 H3 H4] [H5 H6 H7 H8]. split.
  - auto.
  - auto.
  - intros p Hp. destruct (H7 p Hp); auto.
  - intros p b Hp. destruct (H8 p b Hp); auto.
Qed.

Lemma grown_weaken D A D' A' fs fs' :
  grown D A fs fs' → D ⊆ D' → (∀ p, A p → A' p) → grown D' A' fs fs'.
Proof.
  intros [H1 H2 H3 H4] HD HA. split; [done| | |].
  - intros p b Hp Hn. apply H2; [done|]. intros Hin. by apply Hn, HD.
  - intros p Hp. destruct (H3 p Hp); auto.
  - intros p b Hp. destruct (H4 p b Hp); auto.
Qed.

Lemma node_at_nodes fs fs' p : nodes fs' = nodes fs → node_at fs' p = node_at fs p.
Proof. intros Hn. destruct p; simpl; by rewrite ?Hn. Qed.

Lemma grown_same D A fs fs' : nodes fs' = nodes fs → grown D A fs fs'.
Proof.
  intros Hn. pose proof (λ p, node_at_nodes fs fs' p Hn) as Hp.
  split; intros p; [|intros b|..|intros b]; rewrite Hp; auto.
Qed.

Lemma grown_new_dir p fs :
  p ≠ [] → node_at fs p = None → grown [] (λ q, q = p) fs (set_node p Dir fs).
Proof.
  intros Hp Hn. split; [intros q|intros q b|intros q|intros q b]; rewrite node_at_set by done;
    case_decide; subst; auto; congruence.
Qed.

Lemma grown_file p b fs :
  p ≠ [] → node_at fs p ≠ Some Dir → grown [p] (λ _, False) fs (set_node p (File b) fs).
Proof.
  intros Hp Hn. split; [intros q|intros q b' Hq Hnq|intros q|intros q b']; rewrite node_at_set by done;
    case_decide; subst; auto; try congruence.
  - destruct Hnq. by left.
  - left. by left.
Qed.

Lemma mkdir_spec p fs : wp (mkdir p) (λ _ fs', grown [] (λ q, q `suffix_of` p) fs fs') fs.
Proof.
  revert fs. induction p as [|name parent IH]; intros fs; [by apply grown_same|].
  cbn [mkdir]. unfold wp at 1.
  destruct (node_at fs (name :: parent)) as [[|b]|] eqn:Hn; [by apply grown_same..|].
  destruct (through_file fs (name :: parent)); [by apply grown_same|].
  match goal with |- match ?m fs with _ => _ end => change (wp m (λ _ fs', grown [] (λ q,
    q `suffix_of` name :: parent) fs fs') fs) end.
  apply wp_bind. eapply wp_mono; [by apply IH|]. intros o fs1 Hg.
  assert (grown [] (λ q, q `suffix_of` name :: parent) fs fs1) as Hg'.
  { eapply grown_weaken; [exact Hg|done|]. intros q Hq. by apply suffix_cons_r. }
  destruct o as [u|e|]; cbn [wp_next]; [|done..]. apply wp_modify.
  destruct (node_at fs1 (name :: parent)) as [[|b]|] eqn:Hn1.
  - destruct (gr_new_dir _ _ _ _ Hg _ Hn1) as [Hd|[k Hk]]; [congruence|].
    apply (f_equal length) in Hk. rewrite length_app in Hk. simpl in Hk. lia.
  - destruct (gr_new_file _ _ _ _ Hg _ _ Hn1) as [[]%elem_of_nil|Hf]; congruence.
  - etransitivity; [exact Hg'|]. eapply grown_weaken; [by apply grown_new_dir|done|]. by intros q ->.
Qed.

Lemma write_spec p b fs :
  wp (write_bytes p b) (λ o fs', grown [p] (λ _, False) fs fs' ∧
    (o = Ret tt → node_at fs' p = Some (File b))) fs.
Proof.
  unfold wp, write_bytes. destruct p as [|x p]; [by split; [apply grown_same|]|].
  assert (∀ fs, node_at (set_node (x :: p) (File b) fs) (x :: p) = Some (File b)) as Hs.
  { intros fs'. by rewrite node_at_set, decide_True. }
  destruct (node_at fs (x :: p)) as [[|b']|] eqn:Hn;
    [by split; [apply grown_same|]| |destruct (is_dir fs p); [|by split; [apply grown_same|]]];
    (split; [|done]); apply grown_file; congruence.
Qed.
