(* ===== verification/SpecSync.v ===== *)
(** * Syncing the vendored contract ([scripts/sync_spec.py])

    The script copies eight files of the specification into this repository, from
    a checkout beside it or over HTTPS, or only compares them ([--check]). The
    server is a parameter, as is [argparse]. The theorems:
    a sync leaves exactly the source's contents in the vendored files and every
    other file alone, so that a check that follows finds nothing; a check writes
    nothing, and its exit status tells whether anything differs. *)

From S2P Require Import Prelude PyStr Value Errors Effects FileSystem.
Open Scope Z_scope.

(** ** The script *)

Definition SPEC_REPO : string := "a2a-events/a2a-events".
Definition RAW_BASE : string := "https://raw.githubusercontent.com/" +:+ SPEC_REPO.

(** A path relative to the root of either repository, its components in order. *)
Definition VENDORED : list (list string) :=
  [["schemas"; "error.schema.json"];
   ["schemas"; "event.schema.json"];
   ["schemas"; "selector.schema.json"];
   ["schemas"; "subscription.schema.json"];
   ["schemas"; "topic.schema.json"];
   ["conformance"; "fixtures"; "selectors.json"];
   ["conformance"; "fixtures"; "cursors.json"];
   ["conformance"; "fixtures"; "errors.json"]]%string.

(** [p / rel], and [rel] and [str(p)] as texts *)
Definition below (p : path) (rel : list string) : path := rev rel ++ p.
Definition rel_text (rel : list string) : string := String.concat "/" rel.
Definition path_text (p : path) : string := "/" +:+ rel_text (rev p).

(** The command line after [parse_args]. *)
Record Args := mkArgs { spec_dir : option string; ref : string; check : bool }.

Section Script.
(** [REPO], [Path(arg).resolve()] for a directory of the command line, and what
    the server answers for a URL. *)
Context (REPO : path) (resolve : string → path) (urlopen : string → outcome string).

(** [_read_source(rel, spec_dir, ref)] *)
Definition read_source (rel : list string) (dir : option path) (ref_ : string) : M FS string :=
  match dir with
  | Some d => read_bytes (below d rel)
  | None => lift (urlopen (RAW_BASE +:+ "/" +:+ ref_ +:+ "/" +:+ rel_text rel))
  end.

(** [sys.exit(message)] *)
Definition sys_exit {A} (message : string) : M FS A := raise (OtherException ("SystemExit: " +:+ message)).

(** [_resolve_spec_dir(arg)]; the checkout beside the repository, if it is there *)
Definition sibling_dir (fs : FS) : option path :=
  let sibling := "a2a-events"%string :: tail REPO in
  if is_dir fs ("schemas"%string :: sibling) then Some sibling else None.
Definition resolve_spec_dir (arg : option string) : M FS (option path) := λ fs,
  match arg with
  | Some (String c s) =>
      let d := resolve (String c s) in
      if is_dir fs d then (Ret (Some d), fs)
      else sys_exit ("--spec-dir " +:+ path_text d +:+ " does not exist") fs
  | _ => (Ret (sibling_dir fs), fs)
  end.

(** [dest.read_bytes() if dest.exists() else None] *)
Definition read_if_there (dest : path) : M FS (option string) :=
  there ← gets (λ fs, exists_ fs dest);
  if there : bool then Some <$> read_bytes dest else mret None.

(** The body of the loop over [VENDORED], which collects the files that differ. *)
Definition sync_one (args : Args) (dir : option path) (drift : list (list string)) (rel : list string)
    : M FS (list (list string)) :=
  source ← read_source rel dir (ref args);
  let dest := below REPO rel in
  current ← read_if_there dest;
  if bool_decide (current = Some source) then mret drift else
  let drift := drift ++ [rel] in
  if check args then
    _ ← print ("  OUT OF SYNC  " +:+ rel_text rel); mret drift
  else
    _ ← mkdir (tail dest);
    _ ← write_bytes dest source;
    _ ← print ("  synced  " +:+ rel_text rel);
    mret drift.

Fixpoint sync_all (args : Args) (dir : option path) (drift : list (list string))
    (rels : list (list string)) : M FS (list (list string)) :=
  match rels with
  | [] => mret drift
  | rel :: rels' => drift' ← sync_one args dir drift rel; sync_all args dir drift' rels'
  end.

(** [main()] on parsed arguments *)
Definition main (args : Args) : M FS Z :=
  dir ← resolve_spec_dir (spec_dir args);
  _ ← print ("source of truth: " +:+ match dir with
    | Some d => path_text d | None => RAW_BASE +:+ "/" +:+ ref args end);
  drift ← sync_all args dir [] VENDORED;
  if check args && negb (bool_decide (drift = [])) then
    _ ← print (String (chr 10) EmptyString +:+ str_of_int (Z.of_nat (length drift)) +:+
               " file(s) out of sync; run scripts/sync_spec.py");
    mret 1
  else
    _ ← (if bool_decide (drift = []) then print "already in sync" else mret tt);
    mret 0.

(** ** What it does *)

Local Abbreviation dest := (below REPO).
Definition source_of (fs : FS) (dir : option path) (ref_ : string) (rel : list string) : outcome string :=
  (read_source rel dir ref_ fs).1.

Lemma read_source_run fs rel dir ref_ : read_source rel dir ref_ fs = (source_of fs dir ref_ rel, fs).
Proof.
  unfold source_of, read_source. destruct dir as [d|]; [|done]. unfold read_bytes.
  by destruct (node_at fs (below d rel)) as [[]|].
Qed.

(** A vendored file is what the source has. *)
Definition in_sync (fs : FS) (dir : option path) (ref_ : string) (rel : list string) : Prop :=
  ∃ b, source_of fs dir ref_ rel = Ret b ∧ node_at fs (dest rel) = Some (File b).

(** One file of the list. *)
Definition one_result (args : Args) (dir : option path) (drift : list (list string)) (rel : list string)
    (fs : FS) (o : outcome (list (list string))) (fs' : FS) : Prop :=
  (if check args then nodes fs' = nodes fs
   else grown [dest rel] (λ q, q `suffix_of` tail (dest rel)) fs fs') ∧
  ∀ drift', o = Ret drift' →
    (∃ b, source_of fs dir (ref args) rel = Ret b ∧
      (check args = false → node_at fs' (dest rel) = Some (File b))) ∧
    (in_sync fs dir (ref args) rel ∧ drift' = drift ∨
     ¬ in_sync fs dir (ref args) rel ∧ drift' = drift ++ [rel]).

Lemma stopped args dir drift rel fs o :
  (∀ d, o ≠ Ret d) → one_result args dir drift rel fs o fs.
Proof.
  intros Ho. split; [destruct (check args); [done|by apply grown_same]|]. intros d Hd. by destruct (Ho d).
Qed.

Lemma read_if_there_spec p fs :
  wp (read_if_there p)
    (λ o fs', fs' = fs ∧ match o with
      | Ret (Some b) => node_at fs p = Some (File b)
      | Ret None => node_at fs p = None
      | _ => True
      end) fs.
Proof.
  unfold read_if_there. apply wp_bind, wp_gets. cbn [wp_next]. unfold exists_.
  destruct (node_at fs p) as [[|b]|] eqn:Hn.
  - rewrite bool_decide_true by done. apply wp_fmap. unfold wp, read_bytes. by rewrite Hn.
  - rewrite bool_decide_true by done. apply wp_fmap. unfold wp, read_bytes. by rewrite Hn.
  - rewrite bool_decide_false by (by intros [? ?]). by apply wp_ret.
Qed.

Lemma sync_one_spec args dir drift rel fs :
  wp (sync_one args dir drift rel) (one_result args dir drift rel fs) fs.
Proof.
  unfold sync_one. apply wp_bind. unfold wp at 1. rewrite read_source_run.
  destruct (source_of fs dir (ref args) rel) as [source|e|] eqn:Hsrc; [|by apply stopped..]. cbn [wp_next].
  apply wp_bind. eapply wp_mono; [apply read_if_there_spec|]. intros o fs1 [-> Ho].
  destruct o as [current|e|]; cbn [wp_next]; [|by apply stopped..].
  assert (in_sync fs dir (ref args) rel ↔ current = Some source) as Hin.
  { split; [intros (b & Hb & Hn)|intros ->; by exists source]. rewrite Hsrc in Hb. injection Hb as <-.
    destruct current as [b|]; congruence. }
  case_bool_decide as Hc.
  { apply wp_ret. subst current. split; [destruct (check args); [done|by apply grown_same]|].
    intros d [= <-]. split; [by exists source|]. left. split; [by apply Hin|done]. }
  assert (¬ in_sync fs dir (ref args) rel) as Hout by by rewrite Hin.
  unfold one_result. destruct (check args) eqn:Hchk.
  { split; [done|]. intros d [= <-]. split; [by exists source|]. by right. }
  apply wp_bind. eapply wp_mono; [apply mkdir_spec|]. intros o fs1 Hg1.
  assert (grown [dest rel] (λ q, q `suffix_of` tail (dest rel)) fs fs1) as Hg1'.
  { eapply grown_weaken; [exact Hg1|apply list_subseteq_nil|done]. }
  destruct o as [u|e|]; cbn [wp_next]; [|by split..].
  apply wp_bind. eapply wp_mono; [apply write_spec|]. intros o fs2 [Hg2 Hw].
  assert (grown [dest rel] (λ q, q `suffix_of` tail (dest rel)) fs fs2) as Hg2'.
  { etransitivity; [exact Hg1'|]. by eapply grown_weaken; [exact Hg2| |]. }
  destruct o as [[]|e|]; cbn [wp_next]; [|by split..].
  apply wp_bind. split.
  { etransitivity; [exact Hg2'|]. by apply grown_same. }
  intros d [= <-]. split; [|by right]. exists source. split; [done|]. intros _.
  specialize (Hw eq_refl). by destruct (dest rel).
Qed.

(** The paths of the two sides meet only when the repository is its own source. *)
Lemma vendored_apart d r rel rel' :
  rel ∈ VENDORED → rel' ∈ VENDORED → below d rel = below r rel' → rel = rel' ∧ d = r.
Proof.
  unfold VENDORED. rewrite !elem_of_cons, !elem_of_nil.
  intros H1 H2; repeat destruct H1 as [->|H1]; repeat destruct H2 as [->|H2]; try done;
    cbn; intros Heq; inversion Heq; subst; try done.
Qed.

Lemma dest_inj rel rel' : rel ∈ VENDORED → rel' ∈ VENDORED → dest rel = dest rel' → rel = rel'.
Proof. intros H1 H2 Heq. by destruct (vendored_apart REPO REPO rel rel' H1 H2 Heq). Qed.

Lemma source_of_file fs d ref_ rel b :
  source_of fs (Some d) ref_ rel = Ret b ↔ node_at fs (below d rel) = Some (File b).
Proof.
  unfold source_of, read_source, read_bytes.
  destruct (node_at fs (below d rel)) as [[|b']|]; simpl; split; congruence.
Qed.

(** What another file's sync left of a source was there before it. *)
Lemma source_back fs fs1 dir ref_ rel rel' A b :
  grown [dest rel] A fs fs1 → rel ∈ VENDORED → rel' ∈ VENDORED → rel' ≠ rel →
  source_of fs1 dir ref_ rel' = Ret b → source_of fs dir ref_ rel' = Ret b.
Proof.
  intros Hg H1 H2 Hne. destruct dir as [d|]; [|done]. rewrite !source_of_file. intros Hn.
  destruct (gr_new_file _ _ _ _ Hg _ _ Hn) as [Hin|]; [|done].
  apply list_elem_of_singleton in Hin. by destruct (vendored_apart d REPO rel' rel H2 H1 Hin).
Qed.

Definition above (rels : list (list string)) (q : path) : Prop :=
  ∃ rel, rel ∈ rels ∧ q `suffix_of` tail (dest rel).

Lemma sync_all_spec args dir drift rels fs :
  check args = false → NoDup rels → rels ⊆ VENDORED →
  wp (sync_all args dir drift rels) (λ o fs', grown (dest <$> rels) (above rels) fs fs' ∧
    ∀ d, o = Ret d → ∀ rel, rel ∈ rels → ∃ b,
      source_of fs dir (ref args) rel = Ret b ∧ node_at fs' (dest rel) = Some (File b)) fs.
Proof.
  intros Hchk. revert drift fs. induction rels as [|rel rels IH]; intros drift fs Hnd Hsub; simpl.
  { apply wp_ret. split; [by apply grown_same|]. by intros d _ rel ?%elem_of_nil. }
  apply NoDup_cons in Hnd as [Hni Hnd].
  assert (rel ∈ VENDORED) as Hv by (apply Hsub; by left).
  assert (rels ⊆ VENDORED) as Hsub' by (intros x Hx; apply Hsub; by right).
  apply wp_bind. eapply wp_mono; [apply sync_one_spec|]. intros o fs1 [Hg Ho]. rewrite Hchk in Hg.
  assert (grown (dest <$> rel :: rels) (above (rel :: rels)) fs fs1) as Hg'.
  { eapply grown_weaken; [exact Hg| |].
    - intros x ->%list_elem_of_singleton. by left.
    - intros q Hq. exists rel. split; [by left|done]. }
  destruct o as [drift'|e|]; cbn [wp_next]; [|by split..].
  destruct (Ho drift' eq_refl) as [(b & Hb & Hn) _]. specialize (Hn Hchk).
  eapply wp_mono; [by apply IH|]. intros o fs2 [Hg2 Hr]. split.
  - etransitivity; [exact Hg'|]. eapply grown_weaken; [exact Hg2| |].
    + intros x Hx. by right.
    + intros q (rel' & Hin & Hq). exists rel'. split; [by right|done].
  - intros d Hd rel' [->|Hin]%elem_of_cons.
    + exists b. split; [done|]. apply (gr_file _ _ _ _ Hg2); [done|].
      intros (rel' & Heq & Hin)%list_elem_of_fmap. apply Hni.
      rewrite (dest_inj rel rel' Hv (Hsub' _ Hin) Heq). done.
    + destruct (Hr d Hd rel' Hin) as (b' & Hb' & Hn'). exists b'. split; [|done].
      eapply source_back; [exact Hg|done|by apply Hsub'|by intros ->|done].
Qed.

Lemma source_of_nodes fs fs' dir ref_ rel b :
  nodes fs' = nodes fs → source_of fs' dir ref_ rel = Ret b ↔ source_of fs dir ref_ rel = Ret b.
Proof.
  intros Hn. destruct dir as [d|]; [|done]. rewrite !source_of_file. by rewrite (node_at_nodes fs fs').
Qed.

Lemma in_sync_nodes fs fs' dir ref_ rel :
  nodes fs' = nodes fs → in_sync fs' dir ref_ rel ↔ in_sync fs dir ref_ rel.
Proof.
  intros Hn. unfold in_sync. setoid_rewrite (source_of_nodes fs fs' dir ref_ rel _ Hn).
  by rewrite (node_at_nodes fs fs').
Qed.

(** A check compares every file. *)
Lemma check_all_spec args dir drift rels fs :
  check args = true →
  wp (sync_all args dir drift rels) (λ o fs', nodes fs' = nodes fs ∧
    ∀ d, o = Ret d → ∃ extra, d = drift ++ extra ∧
      (extra = [] ↔ ∀ rel, rel ∈ rels → in_sync fs dir (ref args) rel)) fs.
Proof.
  intros Hchk. revert drift fs. induction rels as [|rel rels IH]; intros drift fs; simpl.
  { apply wp_ret. split; [done|]. intros d [= <-]. exists []. split; [by rewrite app_nil_r|].
    split; [by intros _ rel ?%elem_of_nil|done]. }
  apply wp_bind. eapply wp_mono; [apply sync_one_spec|]. intros o fs1 [Hn Ho]. rewrite Hchk in Hn.
  destruct o as [drift'|e|]; cbn [wp_next]; [|by split..].
  destruct (Ho drift' eq_refl) as [_ Hcase]. eapply wp_mono; [by apply IH|].
  intros o fs2 [Hn2 Hr]. split; [by rewrite Hn2|]. intros d Hd.
  destruct (Hr d Hd) as (extra & -> & Hex).
  assert ((extra = []) ↔ ∀ rel, rel ∈ rels → in_sync fs dir (ref args) rel) as Hex'.
  { rewrite Hex. split; intros Ha x Hx; [rewrite <- (in_sync_nodes fs fs1)|rewrite in_sync_nodes]; auto. }
  destruct Hcase as [[Hin ->]|[Hout ->]].
  - exists extra. split; [done|]. rewrite Hex'. split.
    + intros Ha x [->|Hx]%elem_of_cons; auto.
    + intros Ha x Hx. apply Ha. by right.
  - exists (rel :: extra). split; [by rewrite <- (assoc_L (++))|]. split; [done|].
    intros Ha. destruct Hout. apply Ha. by left.
Qed.

Definition dir_of (fs : FS) (arg : option string) : outcome (option path) :=
  (resolve_spec_dir arg fs).1.

Lemma resolve_run arg fs : resolve_spec_dir arg fs = (dir_of fs arg, fs).
Proof. unfold dir_of, resolve_spec_dir. by destruct arg as [[|c s]|]; [|case_match|]. Qed.

Lemma NoDup_VENDORED : NoDup VENDORED.
Proof. by apply (bool_decide_unpack _); vm_compute. Qed.

(** The outcome of a run that syncs, and of one that checks. *)
Definition synced (args : Args) (fs : FS) (o : outcome Z) (fs' : FS) : Prop :=
  grown (dest <$> VENDORED) (above VENDORED) fs fs' ∧
  ∀ code, o = Ret code → code = 0 ∧ ∃ dir, dir_of fs (spec_dir args) = Ret dir ∧
    ∀ rel, rel ∈ VENDORED → ∃ b,
      source_of fs dir (ref args) rel = Ret b ∧ node_at fs' (dest rel) = Some (File b).

Definition checked (args : Args) (fs : FS) (o : outcome Z) (fs' : FS) : Prop :=
  nodes fs' = nodes fs ∧
  ∀ code, o = Ret code → (code = 0 ∨ code = 1) ∧ ∃ dir, dir_of fs (spec_dir args) = Ret dir ∧
    (code = 0 ↔ ∀ rel, rel ∈ VENDORED → in_sync fs dir (ref args) rel).

(** A sync, however it ends, leaves everything but the vendored files alone; if it
    ends with a status, the status is 0 and each of them is what its source was. *)
Lemma main_syncs args fs : check args = false → wp (main args) (synced args fs) fs.
Proof.
  intros Hchk. unfold main. apply wp_bind. unfold wp at 1. rewrite resolve_run.
  destruct (dir_of fs (spec_dir args)) as [dir|e|] eqn:Hdir; cbn [wp_next];
    [|by split; [apply grown_same|]..].
  apply wp_bind, wp_modify. cbn [wp_next]. apply wp_bind. eapply wp_mono.
  { apply sync_all_spec; [done|apply NoDup_VENDORED|done]. }
  intros o fs1 [Hg Hr]. rewrite Hchk. cbn [andb].
  assert (grown (dest <$> VENDORED) (above VENDORED) fs fs1) as Hg'.
  { etransitivity; [|exact Hg]. by apply grown_same. }
  destruct o as [drift|e|]; cbn [wp_next]; [|by split..].
  apply wp_bind. eapply (wp_mono _ (λ o fs2, o = Ret tt ∧ nodes fs2 = nodes fs1)); [by case_bool_decide|].
  intros o fs2 [-> Hn]. apply wp_ret. split; [etransitivity; [exact Hg'|by apply grown_same]|].
  intros code [= <-]. split; [done|]. exists dir. split; [done|]. intros rel Hrel.
  destruct (Hr drift eq_refl rel Hrel) as (b & Hb & Hn'). exists b.
  split; [eapply source_of_nodes; [|exact Hb]; done|by rewrite (node_at_nodes fs1)].
Qed.

(** A check writes no file, and its status tells whether one differs. *)
Lemma main_checks args fs : check args = true → wp (main args) (checked args fs) fs.
Proof.
  intros Hchk. unfold main. apply wp_bind. unfold wp at 1. rewrite resolve_run.
  destruct (dir_of fs (spec_dir args)) as [dir|e|] eqn:Hdir; cbn [wp_next]; [|by split..].
  apply wp_bind, wp_modify. cbn [wp_next]. apply wp_bind. eapply wp_mono; [by apply check_all_spec|].
  intros o fs1 [Hn Hr]. destruct o as [drift|e|]; cbn [wp_next]; [|by split..].
  destruct (Hr drift eq_refl) as (extra & -> & Hex). rewrite app_nil_l, Hchk. cbn [andb].
  assert (extra = [] ↔ ∀ rel, rel ∈ VENDORED → in_sync fs dir (ref args) rel) as Hex'.
  { rewrite Hex. split; intros Ha rel Hrel; (eapply in_sync_nodes; [|by apply Ha]); done. }
  case_bool_decide as Hnil; cbn [negb]; apply wp_bind, wp_modify; apply wp_ret; (split; [done|]);
    intros code [= <-].
  - split; [by left|]. exists dir. split; [done|]. by rewrite <- Hex'.
  - split; [by right|]. exists dir. split; [done|]. rewrite <- Hex'. done.
Qed.

(** *** A check after a sync *)

Lemma sync_one_in_sync args dir drift rel fs :
  in_sync fs dir (ref args) rel → sync_one args dir drift rel fs = (Ret drift, fs).
Proof.
  intros (b & Hb & Hn). unfold sync_one, read_if_there, exists_, read_bytes, gets, mbind, M_bind, fmap, M_fmap.
  rewrite read_source_run, Hb. cbn. rewrite Hn, bool_decide_true by done. rewrite Hn.
  by rewrite bool_decide_true.
Qed.

Lemma sync_all_in_sync args dir drift rels fs :
  (∀ rel, rel ∈ rels → in_sync fs dir (ref args) rel) → sync_all args dir drift rels fs = (Ret drift, fs).
Proof.
  induction rels as [|rel rels IH]; intros Hin; simpl; [done|].
  rewrite (bind_ret _ _ _ drift fs); [apply IH|apply sync_one_in_sync, Hin; left].
  intros x Hx. apply Hin. by right.
Qed.

(** A directory that a sync makes above its files is not in a checkout beside the
    repository, unless the two are one. *)
Lemma sibling_above : above VENDORED ("schemas" :: "a2a-events" :: tail REPO)%string →
  "a2a-events"%string :: tail REPO = REPO.
Proof.
  intros (rel & Hrel & Hsuf).
  assert (∀ l : path, ("schemas" :: "a2a-events" :: tail REPO)%string `suffix_of` l →
    (length REPO < length l)%nat) as Hlong.
  { intros l Hl%suffix_length. revert Hl. simpl. destruct REPO; simpl; lia. }
  assert (tail (dest rel) = "schemas"%string :: REPO ∨
          tail (dest rel) = ["fixtures"; "conformance"]%string ++ REPO) as [Ht|Ht].
  { revert Hrel. unfold VENDORED. rewrite !elem_of_cons, !elem_of_nil.
    intros Hr; repeat destruct Hr as [->|Hr]; try done; by (left; reflexivity) || (right; reflexivity). }
  - rewrite Ht in Hsuf. apply suffix_cons_inv in Hsuf as [Heq|Hs]; [by injection Heq|].
    apply Hlong in Hs. lia.
  - rewrite Ht in Hsuf. apply suffix_cons_inv in Hsuf as [Heq|Hs]; [done|].
    apply suffix_cons_inv in Hs as [Heq|Hs]; [done|]. apply Hlong in Hs. lia.
Qed.

Lemma sibling_later fs fs' :
  grown (dest <$> VENDORED) (above VENDORED) fs fs' →
  sibling_dir fs' = sibling_dir fs ∨ sibling_dir fs' = Some REPO.
Proof.
  intros Hg. unfold sibling_dir, is_dir.
  destruct (node_at fs' ("schemas" :: "a2a-events" :: tail REPO)%string) as [[|b']|] eqn:Hn'.
  - destruct (gr_new_dir _ _ _ _ Hg _ Hn') as [->|Ha]; [by left|right]. by rewrite (sibling_above Ha).
  - left. destruct (node_at fs _) as [[|b]|] eqn:Hn; [|done..].
    pose proof (gr_dir _ _ _ _ Hg _ Hn). congruence.
  - left. destruct (node_at fs _) as [[|b]|] eqn:Hn; [|done..].
    pose proof (gr_dir _ _ _ _ Hg _ Hn). congruence.
Qed.

(** The source of a later run is the same, or the repository itself. *)
Lemma dir_later fs fs' arg dir :
  grown (dest <$> VENDORED) (above VENDORED) fs fs' → dir_of fs arg = Ret dir →
  ∃ dir', dir_of fs' arg = Ret dir' ∧ (dir' = dir ∨ dir' = Some REPO).
Proof.
  intros Hg. unfold dir_of, resolve_spec_dir, is_dir.
  destruct arg as [[|c s]|]; cbn [fst];
    [intros [= <-]; eexists; split; [done|by apply sibling_later]| |
     intros [= <-]; eexists; split; [done|by apply sibling_later]].
  destruct (node_at fs (resolve (String c s))) as [[|b]|] eqn:Hn; [|done..].
  rewrite (gr_dir _ _ _ _ Hg _ Hn). intros [= <-]. eexists. by split; [|left].
Qed.

(** A sync is complete: when it ends with a status, the status is 0, every vendored
    file has what its source had at the start, everything else is as it was, and a
    check that follows, with the same source, reports nothing and writes nothing. *)
Theorem sync_then_check args fs code fs' :
  check args = false → main args fs = (Ret code, fs') →
  synced args fs (Ret code) fs' ∧
  ∃ fs'', main (mkArgs (spec_dir args) (ref args) true) fs' = (Ret 0, fs'') ∧ nodes fs'' = nodes fs'.
Proof.
  intros Hchk Hrun. pose proof (main_syncs args fs Hchk) as Hs. unfold wp in Hs. rewrite Hrun in Hs.
  split; [exact Hs|]. destruct Hs as [Hg Hr]. destruct (Hr code eq_refl) as (_ & dir & Hdir & Hv).
  destruct (dir_later fs fs' (spec_dir args) dir Hg Hdir) as (dir' & Hdir' & Hcase).
  assert (∀ rel, rel ∈ VENDORED → in_sync fs' dir' (ref args) rel) as Hin.
  { intros rel Hrel. destruct (Hv rel Hrel) as (b & Hb & Hn). exists b. split; [|done].
    destruct Hcase as [-> | ->]; [|by apply source_of_file].
    destruct dir as [d|]; [|exact Hb]. apply source_of_file in Hb. apply source_of_file.
    destruct (decide (below d rel ∈ dest <$> VENDORED)) as [Hd|Hd]; [|by apply (gr_file _ _ _ _ Hg)].
    apply list_elem_of_fmap in Hd as (rel' & Heq & Hrel').
    by destruct (vendored_apart d REPO rel rel' Hrel Hrel' Heq) as [-> ->]. }
  unfold main. cbn [spec_dir check ref].
  rewrite (bind_ret _ _ _ dir' fs'); [|by rewrite resolve_run, Hdir'].
  erewrite (bind_ret (print _)); [|reflexivity]. erewrite (bind_ret (sync_all _ _ _ _)).
  2:{ apply sync_all_in_sync. intros rel Hrel. eapply in_sync_nodes; [|by apply Hin]. done. }
  eexists. split; reflexivity.
Qed.
End Script.

(** ** A checkout beside the repository *)

Definition here : path := ["a2a-events-python"; "work"]%string.
Definition spec : path := ["a2a-events"; "work"]%string.

(** The specification is complete; here, one file is outdated and two are current. *)
Definition before_sync : FS :=
  mkFS (list_to_map (
    ((λ rel, (below spec rel, File (rel_text rel))) <$> VENDORED) ++
    [(below here ["schemas"; "error.schema.json"], File "old");
     (below here ["schemas"; "event.schema.json"], File "schemas/event.schema.json");
     (below here ["schemas"; "topic.schema.json"], File "schemas/topic.schema.json")] ++
    ((λ p, (p, Dir)) <$> [["work"]; here; spec; "schemas" :: here; "schemas" :: spec;
                          "conformance" :: spec; "fixtures" :: "conformance" :: spec])))%string [].

Definition offline (url : string) : outcome string := Raise (OtherException "URLError").
Definition run_here (check_only : bool) (fs : FS) : outcome Z * FS :=
  main here (λ _, []) offline (mkArgs None "main" check_only) fs.

Definition out_of_sync (rel : string) : string := "  OUT OF SYNC  " +:+ rel.

Example sync_run :
  let '(r0, fs0) := run_here true before_sync in
  let '(r1, fs1) := run_here false before_sync in
  let '(r2, fs2) := run_here true fs1 in
  r0 = Ret 1 ∧ r1 = Ret 0 ∧ r2 = Ret 0 ∧
  stdout fs0 = ["source of truth: /work/a2a-events"; out_of_sync "schemas/error.schema.json";
    out_of_sync "schemas/selector.schema.json"; out_of_sync "schemas/subscription.schema.json";
    out_of_sync "conformance/fixtures/selectors.json"; out_of_sync "conformance/fixtures/cursors.json";
    out_of_sync "conformance/fixtures/errors.json";
    String (chr 10) "6 file(s) out of sync; run scripts/sync_spec.py"]%string ∧
  drop 7 (stdout fs2) = ["source of truth: /work/a2a-events"; "already in sync"]%string ∧
  node_at fs1 (below here ["conformance"; "fixtures"; "errors.json"]%string) =
    Some (File "conformance/fixtures/errors.json").
Proof. vm_compute. done. Qed.

(** Without a checkout and a network, nothing is written. *)
Example offline_sync_fails :
  run_here false (mkFS {[here := Dir; ["work"%string] := Dir]} []) =
    (Raise (OtherException "URLError"), mkFS {[here := Dir; ["work"%string] := Dir]}
       ["source of truth: https://raw.githubusercontent.com/a2a-events/a2a-events/main"%string]).
Proof. vm_compute. done. Qed.

Definition synced_here : FS := (run_here false before_sync).2.
Lemma run_here_returns : run_here false before_sync = (Ret 0, synced_here).
Proof. unfold synced_here. apply returned. vm_compute. reflexivity. Qed.

Lemma sync_then_check_witness :
  synced here (λ _, []) offline (mkArgs None "main" false) before_sync (Ret 0) synced_here ∧
  ∃ fs'', run_here true synced_here = (Ret 0, fs'') ∧ nodes fs'' = nodes synced_here.
Proof.
  exact (sync_then_check here (λ _, []) offline (mkArgs None "main" false) before_sync 0 synced_here
    eq_refl run_here_returns).
Defined.
