(* ===== verification/ExportSchemas.v ===== *)
(** * Exporting the schemas ([scripts/export_schemas.py])

    The script writes what [build_schemas] returns into [schemas/], as JSON with an
    indent of two. [dumps_indented] is the standard library's encoder with
    [indent=2]. A run writes each schema to the file of its name and touches nothing
    else; the run at the end gives the committed [error.schema.json], byte by byte. *)

From S2P Require Import Prelude PyStr Value Errors Effects Canonical Json SchemaExport FileSystem.
Open Scope Z_scope.

(** ** [json.dumps(v, indent=2)] *)

(** A new line, at a level of nesting. *)
Fixpoint spaces (level : nat) : string :=
  match level with O => EmptyString | Datatypes.S k => "  " +:+ spaces k end.
Definition new_line (level : nat) : string := String (chr 10) (spaces level).

(** The texts of the items between brackets, each on a line of its own. *)
Definition block (level : nat) (left right : string) (texts : list string) : string :=
  match texts with
  | [] => left +:+ right
  | _ => left +:+ new_line (Datatypes.S level) +:+
           str_join ("," +:+ new_line (Datatypes.S level)) texts +:+ new_line level +:+ right
  end.

(** [depth] is the interpreter's limit on nesting, as in [Json]. *)
Fixpoint dumps_indented (depth level : nat) (v : value) {struct v} : outcome string :=
  match v with
  | VList l =>
      match depth with
      | O => Raise recursion_error
      | Datatypes.S k =>
          texts ← sequence (map (λ x, dumps_indented k (Datatypes.S level) x) l);
          mret (block level "[" "]" texts)
      end
  | VDict d =>
      match depth with
      | O => Raise recursion_error
      | Datatypes.S k =>
          texts ← sequence (dump_member ": " <$>
                              map (λ kv, (kv.1, dumps_indented k (Datatypes.S level) kv.2)) d);
          mret (block level "{" "}" texts)
      end
  | _ => dumps depth v
  end.

(** ** The script *)

Section Script.
Context `{Models : !ModelSchemas} (REPO : path) (depth : nat).

Definition OUT : path := "schemas"%string :: REPO.

(** [(OUT / name).write_text(json.dumps(schema, indent=2) + "\n")] and the message *)
Definition export_one (entry : string * list (string * value)) : M FS unit :=
  text ← lift (dumps_indented depth 0 (VDict entry.2));
  _ ← write_bytes (entry.1 :: OUT) (text +:+ String (chr 10) EmptyString);
  print ("wrote schemas/" +:+ entry.1).

(** [main()] *)
Definition main : M FS unit :=
  _ ← mkdir_one OUT;
  for_each build_schemas export_one.

(** *** A run writes the schemas, and nothing else *)

Definition written (fs : FS) (entry : string * list (string * value)) : Prop :=
  ∃ text, dumps_indented depth 0 (VDict entry.2) = Ret text ∧
    node_at fs (entry.1 :: OUT) = Some (File (text +:+ String (chr 10) EmptyString)).

Local Abbreviation file_of := (λ entry : string * list (string * value), entry.1 :: OUT).

Lemma export_one_spec entry fs :
  wp (export_one entry) (λ o fs', grown [file_of entry] (λ _, False) fs fs' ∧
    (o = Ret tt → written fs' entry)) fs.
Proof.
  unfold export_one. apply wp_bind, wp_lift.
  destruct (dumps_indented depth 0 (VDict entry.2)) as [text|e|] eqn:Ht; cbn [wp_next];
    [|by split; [apply grown_same|]..].
  apply wp_bind. eapply wp_mono; [apply write_spec|]. intros o fs1 [Hg Hn].
  destruct o as [[]|e|]; cbn [wp_next]; [|by split..]. apply wp_modify. split.
  - etransitivity; [exact Hg|by apply grown_same].
  - intros _. exists text. split; [done|by apply Hn].
Qed.

Lemma export_all_spec entries fs :
  NoDup entries.*1 →
  wp (for_each entries export_one) (λ o fs', grown (file_of <$> entries) (λ _, False) fs fs' ∧
    (o = Ret tt → Forall (written fs') entries)) fs.
Proof.
  revert fs. induction entries as [|entry entries IH]; intros fs Hnd; simpl.
  { apply wp_ret. split; [by apply grown_same|done]. }
  apply NoDup_cons in Hnd as [Hni Hnd]. apply wp_bind. eapply wp_mono; [apply export_one_spec|].
  intros o fs1 [Hg Hw].
  assert (grown (file_of <$> entry :: entries) (λ _, False) fs fs1) as Hg'.
  { eapply grown_weaken; [exact Hg| |done]. intros x ->%list_elem_of_singleton. by left. }
  destruct o as [[]|e|]; cbn [wp_next]; [|by split..].
  eapply wp_mono; [by apply IH|]. intros o fs2 [Hg2 Hr]. split.
  - etransitivity; [exact Hg'|]. eapply grown_weaken; [exact Hg2| |done]. intros x Hx. by right.
  - intros Ho. constructor; [|by apply Hr]. destruct (Hw eq_refl) as (text & Ht & Hn).
    exists text. split; [done|]. apply (gr_file _ _ _ _ Hg2); [done|].
    intros (e & [= He] & Hin)%list_elem_of_fmap. apply Hni. rewrite He. by apply list_elem_of_fmap_2.
Qed.

(** A run that ends without an exception has written every schema to the file of
    its name, under [$id] and [$schema]; the rest of the tree is as it was, however
    the run ends. *)
Theorem export_writes fs :
  wp main (λ o fs', grown (file_of <$> build_schemas) (λ q, q = OUT) fs fs' ∧
    (o = Ret tt → Forall (written fs') build_schemas)) fs.
Proof.
  assert (NoDup (@build_schemas Models).*1) as Hnd.
  { apply (bool_decide_unpack _). vm_compute. exact I. }
  assert (wp (mkdir_one OUT) (λ _ fs', grown [] (λ q, q = OUT) fs fs') fs) as Hmk.
  { unfold wp, mkdir_one, OUT. destruct (node_at fs ("schemas"%string :: REPO)) as [[|b]|] eqn:Hn;
      [by apply grown_same..|]. destruct (is_dir fs REPO); [|by apply grown_same].
    by apply grown_new_dir. }
  unfold main. apply wp_bind. eapply wp_mono; [exact Hmk|]. intros o fs1 Hg.
  assert (grown (file_of <$> build_schemas) (λ q, q = OUT) fs fs1) as Hg'.
  { eapply grown_weaken; [exact Hg|apply list_subseteq_nil|done]. }
  destruct o as [[]|e|]; cbn [wp_next]; [|by split..].
  eapply wp_mono; [by apply export_all_spec|]. intros o fs2 [Hg2 Hr]. split; [|done].
  etransitivity; [exact Hg'|]. eapply grown_weaken; [exact Hg2|done|done].
Qed.
End Script.

(** ** The committed schema *)

Definition nothing : list (string * value) := [].
Definition no_models : ModelSchemas := {|
  topic_schema := nothing; subscription_schema := nothing;
  event_schema := nothing; selector_schema := nothing;
|}.

(** [schemas/error.schema.json], with single quotes for double ones. *)
Definition committed : string := "{
  '$schema': 'https://json-schema.org/draft/2020-12/schema',
  '$id': 'https://a2a-events.github.io/a2a-events/schemas/error.schema.json',
  'title': 'A2AEventsError',
  'description': 'JSON-RPC 2.0 error object with an A2A Events symbolic code.',
  'type': 'object',
  'required': [
    'code',
    'message'
  ],
  'properties': {
    'code': {
      'type': 'integer',
      'description': 'JSON-RPC numeric error code.'
    },
    'message': {
      'type': 'string'
    },
    'data': {
      'type': 'object',
      'required': [
        'code'
      ],
      'properties': {
        'code': {
          'type': 'string',
          'description': 'Symbolic A2A Events error code.',
          'enum': [
            'EXTENSION_NOT_SUPPORTED',
            'TOPIC_NOT_FOUND',
            'TOPIC_NOT_AUTHORIZED',
            'SELECTOR_NOT_SUPPORTED',
            'INVALID_SELECTOR',
            'INVALID_CURSOR',
            'CURSOR_EXPIRED',
            'SUBSCRIPTION_NOT_FOUND',
            'SUBSCRIPTION_EXPIRED',
            'DELIVERY_MODE_NOT_SUPPORTED',
            'SUBSCRIBER_CARD_UNREACHABLE',
            'SUBSCRIBER_CARD_INVALID',
            'DELIVERY_ENDPOINT_NOT_DECLARED',
            'DELIVERY_ENDPOINT_BLOCKED',
            'SIGNATURE_INVALID',
            'REPLAY_NOT_SUPPORTED',
            'RATE_LIMITED',
            'LEASE_TOO_LONG',
            'LEASE_TOO_SHORT'
          ]
        }
      },
      'additionalProperties': true
    }
  },
  'additionalProperties': false
}".

Definition exported : outcome unit * FS :=
  main (Models := no_models) ["repo"%string] 20 (mkFS {[["repo"%string] := Dir]} []).

Example error_schema_is_committed :
  exported.1 = Ret tt ∧
  node_at exported.2 (["error.schema.json"; "schemas"; "repo"]%string) =
    Some (File (quoted committed +:+ String (chr 10) EmptyString)).
Proof. vm_compute. done. Qed.

(** And it reads back as the schema. *)
Example committed_reads_back :
  loads 20 (quoted committed) =
    Ret (VDict (wrap "error.schema.json" error_schema)).
Proof. vm_compute. done. Qed.
