(* ===== verification/CatchUp.v ===== *)
(** * Catch-up: the delivery guarantees of [_catch_up] and [_deliver_one]

    Everything here holds for any backends that satisfy the contracts, and
    under interference: at every await other tasks may append and compact, move
    other subscriptions and mutate shared objects, as long as they leave the
    position and the attempts of this subscription alone (what the dispatch
    lock is for). *)

From S2P Require Import Prelude PyStr Value Errors Effects Models Base64 Cursor Selectors.
From S2P Require Import Canonical Signing Limits Observability Auth Ssrf Contracts Publisher.
Open Scope Z_scope.

(** A cursor text of the topic. *)
Definition on_topic (topic cursor : string) : bool :=
  match topic_of cursor with Ret x => bool_decide (x = topic) | _ => false end.

Lemma on_topic_fun t1 t2 c : on_topic t1 c → on_topic t2 c → t1 = t2.
Proof.
  unfold on_topic. destruct (topic_of c); [|done..]. intros ?%bool_decide_unpack ?%bool_decide_unpack.
  congruence.
Qed.

Section CatchUp.
Context {E S Q : Type} `{!EventStore E, !SubscriptionStore S, !RetryQueue Q}.
Context `{!Platform, !Crypto, !Hmac, !Net}.
Context `{!EventStoreLaws E, !SubscriptionStoreLaws S}.
Context `{!Async (World E S Q)} (cfg : PublisherConfig).
(** The subscription, the object that stands for it, its selector, the topic
    and its configuration, and a bound on the events the topic ever gets. *)
Context (sid : string) (l : loc) (sel : option Selector) (t : string) (T : Topic) (cap : Z).

Local Abbreviation W := (World E S Q).
Local Abbreviation PM := (M W).

(** ** Views of the world *)

Definition pos (w : W) : Z := position_of (ss_hw (w_subs w) sid) t.
(** The attempts recorded for the subscription on this topic. *)
Definition concerns (a : DeliveryAttempt) : Prop :=
  da_subscription_id a = sid ∧ on_topic t (da_cursor a).
#[local] Instance concerns_dec a : Decision (concerns a).
Proof. unfold concerns. apply _. Defined.
Definition atts (w : W) : list DeliveryAttempt := filter concerns (ss_attempts (w_subs w)).
Definition clk (w : W) : Z := clock (tick (w_env w)).

(** The log of the topic ([None] never happens under [inv]). *)
Definition log_of (w : W) : TopicLog :=
  default (mkTopicLog T [] 0) (es_log (w_store w) t).

Record inv (w : W) : Prop := {
  inv_store : es_inv (w_store w);
  inv_subs : ss_inv (w_subs w) (w_heap w);
  inv_row : is_Some (ss_row (w_subs w) (w_heap w) sid);
  inv_obj : ∃ u, objs (w_heap w) !! l = Some u ∧ subscription_id u = sid ∧ selector u = sel;
  inv_log : is_Some (es_log (w_store w) t);
  inv_topic : log_topic (log_of w) = T;
  inv_memo : from_option (λ T', T' = T) True (dict_get t (w_topics w));
  inv_cap : next_offset (log_of w) ≤ cap;
  inv_pos : -1 ≤ pos w < max_offset;
}.

(** [r] is inside the retention window at time [c]. *)
Definition live (r : EventRecord) (c : Z) : Prop :=
  retention_seconds T ≤ 0 ∨ c - seconds (retention_seconds T) ≤ ev_created_at r.

(** How a log may change: offsets are never reused, and only events outside
    the retention window disappear. *)
Record evolves (w w' : W) : Prop := {
  ev_env : env_le (w_env w) (w_env w');
  ev_next : next_offset (log_of w) ≤ next_offset (log_of w');
  ev_old : ∀ r, r ∈ log_events (log_of w') →
    r ∈ log_events (log_of w) ∨ next_offset (log_of w) ≤ rec_offset r;
  ev_kept : ∀ r, r ∈ log_events (log_of w) → live r (clk w') → r ∈ log_events (log_of w');
}.

(** From [w] to [w'] with this subscription's position and attempts as given. *)
Record moves (w w' : W) (p : Z) (a : list DeliveryAttempt) : Prop := {
  mv_inv : inv w';
  mv_evolves : evolves w w';
  mv_pos : pos w' = p;
  mv_atts : atts w' = a;
}.
Definition same (w w' : W) : Prop := moves w w' (pos w) (atts w).

(** The clock does not run backwards. *)
Context (clock_mono : ∀ i j, (i ≤ j)%nat → clock i ≤ clock j).

Lemma clk_mono w w' : env_le (w_env w) (w_env w') → clk w ≤ clk w'.
Proof. intros [? ?]. by apply clock_mono. Qed.

Lemma live_mono r c c' : live r c' → c ≤ c' → live r c.
Proof. unfold live. lia. Qed.

Lemma live_at_iff w r c :
  inv w → r ∈ live_at (log_of w) c ↔ r ∈ log_events (log_of w) ∧ live r c.
Proof.
  intros Hw. unfold live_at, live. rewrite (inv_topic _ Hw).
  destruct (Z.leb_spec (retention_seconds T) 0).
  - split; [|tauto]. intros. split; [done|by left].
  - rewrite list_elem_of_filter. split; [naive_solver|]. intros [? [?|?]]; [lia|done].
Qed.

#[local] Instance evolves_preorder : PreOrder evolves.
Proof.
  split.
  - intros w. split; [done|lia|by left|done].
  - intros w1 w2 w3 [He1 Hn1 Ho1 Hk1] [He2 Hn2 Ho2 Hk2]. split.
    + by transitivity (w_env w2).
    + lia.
    + intros r [Hr|Hr]%Ho2; [|right; lia]. destruct (Ho1 r Hr); [by left|by right].
    + intros r Hr Hlive. apply Hk2; [|done]. apply Hk1; [done|].
      eapply live_mono; [done|]. by apply clk_mono.
Qed.

Lemma moves_trans w1 w2 w3 p2 a2 p a : moves w1 w2 p2 a2 → moves w2 w3 p a → moves w1 w3 p a.
Proof. intros [? ? _ _] [? ? ? ?]. split; [done| |done|done]. by transitivity w2. Qed.

Lemma same_refl w : inv w → same w w.
Proof. by split. Qed.

Lemma same_then w1 w2 w3 p a : same w1 w2 → moves w2 w3 p a → moves w1 w3 p a.
Proof. intros. by eapply moves_trans. Qed.

Lemma then_same w1 w2 w3 p a : moves w1 w2 p a → same w2 w3 → moves w1 w3 p a.
Proof. intros H12 H23. destruct H23 as [? ? Hp Ha]. destruct H12 as [? ? Hp' Ha'].
  split; [done|by transitivity w2|congruence..]. Qed.

Lemma same_trans w1 w2 w3 : same w1 w2 → same w2 w3 → same w1 w3.
Proof. apply then_same. Qed.

(** ** Interference *)

(** What the other tasks, the transport and the sleeps are allowed. *)
Record well_behaved : Prop := {
  wb_suspend : ∀ w, inv w → wp suspend (λ r w', same w w' ∧
    match r with Ret _ => True | Raise e => is_a2a_error e = false | NoFuel => False end) w;
  wb_webhook : ∀ u h e w, inv w → wp (send_webhook u h e) (λ r w', same w w' ∧ r ≠ NoFuel) w;
  wb_message : ∀ u m w, inv w → wp (send_a2a_message u m) (λ r w', same w w' ∧ r ≠ NoFuel) w;
  wb_sleep : ∀ d w, inv w → wp (sleep d) (λ r w', same w w' ∧ r ≠ NoFuel) w;
}.
Context (Hwb : well_behaved).

(** A computation that leaves this subscription alone. *)
Definition quiet {A} (m : PM A) (P : A → Prop) : Prop :=
  ∀ w, inv w → wp m (λ r w', same w w' ∧ r ≠ NoFuel ∧ ∀ a, r = Ret a → P a) w.

Lemma quiet_weaken {A} (m : PM A) (P P' : A → Prop) :
  quiet m P → (∀ a, P a → P' a) → quiet m P'.
Proof. intros Hm HP w Hw. eapply wp_mono; [by apply Hm|]. naive_solver. Qed.

Lemma quiet_ret {A} (a : A) (P : A → Prop) : P a → quiet (mret a) P.
Proof. intros HP w Hw. apply wp_ret. split; [by apply same_refl|naive_solver]. Qed.

Lemma quiet_raise {A} e (P : A → Prop) : quiet (raise e) P.
Proof. intros w Hw. apply wp_raise. split; [by apply same_refl|naive_solver]. Qed.

Lemma quiet_lift {A} (o : outcome A) (P : A → Prop) :
  o ≠ NoFuel → (∀ a, o = Ret a → P a) → quiet (lift o) P.
Proof. intros Ho HP w Hw. apply wp_lift. split; [by apply same_refl|done]. Qed.

Lemma quiet_bind {A B} (m : PM A) (k : A → PM B) P P' :
  quiet m P → (∀ a, P a → quiet (k a) P') → quiet (m ≫= k) P'.
Proof.
  intros Hm Hk w Hw. apply wp_bind. eapply wp_mono; [by apply Hm|].
  intros [a|e|] w1 (Hs & Hnf & HP); simpl; [|split; [done|naive_solver]|done].
  eapply wp_mono; [apply Hk; [by apply HP|apply Hs]|].
  intros r w2 (Hs2 & ? & ?). split; [by eapply same_trans|done].
Qed.

Lemma evolves_frame w w' :
  w_store w' = w_store w → env_le (w_env w) (w_env w') → evolves w w'.
Proof.
  intros Hst Henv.
  assert (log_of w' = log_of w) as Hl by (unfold log_of; by rewrite Hst).
  split; rewrite ?Hl; [done|lia|by left|done].
Qed.

(** World changes that no view sees. *)
Lemma same_of_views w w' :
  inv w → inv w' → w_store w' = w_store w → env_le (w_env w) (w_env w') →
  pos w' = pos w → atts w' = atts w → same w w'.
Proof.
  intros Hw Hw' Hst Henv Hp Ha. split; [done|by apply evolves_frame|done..].
Qed.

Lemma inv_frame w w' :
  w_store w' = w_store w → w_subs w' = w_subs w → w_heap w' = w_heap w →
  w_topics w' = w_topics w → inv w → inv w'.
Proof.
  intros Hst Hsu Hh Ht [? ? ? ? ? ? ? ? ?].
  assert (log_of w' = log_of w) as Hl by (unfold log_of; by rewrite Hst).
  assert (pos w' = pos w) as Hp by (unfold pos; by rewrite Hsu).
  split; rewrite ?Hl, ?Hp, ?Hst, ?Hsu, ?Hh, ?Ht; done.
Qed.

Lemma same_frame w w' :
  w_store w' = w_store w → w_subs w' = w_subs w → w_heap w' = w_heap w →
  w_topics w' = w_topics w → env_le (w_env w) (w_env w') → inv w → same w w'.
Proof.
  intros Hst Hsu Hh Ht Henv Hw. apply same_of_views; [done|by eapply inv_frame|done|done| |].
  - unfold pos. by rewrite Hsu.
  - unfold atts. by rewrite Hsu.
Qed.

Lemma quiet_env {A} (m : M Env A) :
  (∀ v, ∃ a v', m v = (Ret a, v') ∧ env_le v v') → quiet (on_env m) (λ _, True).
Proof.
  intros Hm w Hw. unfold on_env. apply wp_zoom. destruct (Hm (w_env w)) as (a & v' & Hrun & Hle).
  eapply wp_run_iff; [done|]. split; [|naive_solver]. by apply same_frame.
Qed.

Lemma now_draws v : ∃ a v', now v = (Ret a, v') ∧ env_le v v'.
Proof. do 2 eexists. split; [done|]. unfold env_le; simpl; lia. Qed.
Lemma uuid_draws v : ∃ a v', uuid4 v = (Ret a, v') ∧ env_le v v'.
Proof. do 2 eexists. split; [done|]. unfold env_le; simpl; lia. Qed.
Lemma attempt_id_draws v : ∃ a v', new_attempt_id v = (Ret a, v') ∧ env_le v v'.
Proof. do 2 eexists. split; [done|]. unfold env_le; simpl; lia. Qed.
Lemma retry_id_draws v : ∃ a v', new_retry_id v = (Ret a, v') ∧ env_le v v'.
Proof. do 2 eexists. split; [done|]. unfold env_le; simpl; lia. Qed.

Lemma quiet_tell c : quiet (tell c) (λ _, True).
Proof. intros w Hw. apply wp_modify. split; [|naive_solver]. by apply same_frame. Qed.

(** Attribute reads of the subscription object. *)
Lemma quiet_attrs : quiet (attrs l) (λ u, subscription_id u = sid ∧ selector u = sel).
Proof.
  intros w Hw. unfold attrs, on_subs. apply wp_zoom.
  destruct (inv_obj _ Hw) as (u & Hu & Hid & Hsel).
  eapply wp_run_iff; [unfold deref; by rewrite Hu|]. split; [by apply same_frame|naive_solver].
Qed.

Lemma quiet_key : quiet signing_key (λ _, True).
Proof.
  intros w Hw. unfold signing_key. apply wp_bind, wp_get. apply wp_lift.
  split; [by apply same_refl|]. unfold active. destruct (dict_get _ _); naive_solver.
Qed.

(** A call that may go to a worker thread. [m] takes the position and the
    attempts from [(p, a)] to [(p', a')], or raises and leaves them; when a
    suspension raises, it has or has not happened. *)
Lemma offloaded_spec {A} (m : PM A) (P : A → Prop) p a p' a' w :
  inv w → pos w = p → atts w = a →
  (∀ w, inv w → pos w = p → atts w = a →
     wp m (λ r w', match r with
       | Ret x => P x ∧ moves w w' p' a'
       | Raise _ => moves w w' p a
       | NoFuel => False end) w) →
  wp (offloaded cfg m) (λ r w', match r with
    | Ret x => P x ∧ moves w w' p' a'
    | Raise _ => moves w w' p a ∨ moves w w' p' a'
    | NoFuel => False
    end) w.
Proof.
  intros Hw Hp Ha Hm. unfold offloaded. destruct (offload_store cfg).
  2:{ eapply wp_mono; [by apply Hm|]. intros [x|e|] w'; auto. }
  apply wp_bind. eapply wp_mono; [by apply (wb_suspend Hwb)|].
  intros [[]|e|] w1 [Hs Hr]; simpl; [| |done].
  2:{ left. destruct Hs. split; congruence || done. }
  apply wp_and_then. eapply wp_mono.
  { apply Hm; [apply Hs|destruct Hs; congruence..]. }
  intros [x|e|] w2 Hmv; [destruct Hmv as [HP Hmv]| |done];
    (eapply wp_mono; [apply (wb_suspend Hwb), Hmv|]);
    eapply same_then in Hmv; try exact Hs;
    intros [[]|e'|] w3 [Hs3 Hr3]; try done.
  - split; [done|]. by eapply then_same.
  - right. by eapply then_same.
  - left. by eapply then_same.
  - left. by eapply then_same.
Qed.

Lemma quiet_offloaded {A} (m : PM A) (P : A → Prop) :
  (∀ w, inv w → wp m (λ r w', match r with
     | Ret x => P x ∧ same w w' | Raise _ => same w w' | NoFuel => False end) w) →
  quiet (offloaded cfg m) P.
Proof.
  intros Hm w Hw. eapply wp_mono.
  { eapply (offloaded_spec m P (pos w) (atts w) (pos w) (atts w)); [done..|].
    intros w1 Hw1 Hp Ha. eapply wp_mono; [by apply Hm|].
    intros [x|e|] w2 Hs; [destruct Hs as [HP Hs]; split; [done|]| |done];
      destruct Hs; by split; congruence || done. }
  intros [x|e|] w1; [|naive_solver|done]. intros [HP Hmv]. naive_solver.
Qed.

(** The topic configuration, read from the memo or the store. *)
Lemma quiet_topic : quiet (get_topic cfg t) (λ T', T' = T).
Proof.
  intros w Hw. unfold get_topic. apply wp_bind, wp_get.
  pose proof (inv_memo _ Hw) as Hmemo. simpl. destruct (dict_get t (w_topics w)) as [T'|].
  { simpl in Hmemo. subst. by apply quiet_ret. }
  assert (quiet (run_store cfg (es_get_topic t) ≫= λ T', memo_topic t T' ≫= λ _, mret T')
    (λ T', T' = T)) as Hq; [|by apply Hq].
  eapply quiet_bind; [apply (quiet_offloaded _ (λ T', T' = T))|].
  - intros w1 Hw1. unfold on_store. apply wp_zoom.
    destruct (inv_log _ Hw1) as [lg Hlg].
    destruct (es_get_topic_law (w_store w1) (w_env w1) t (inv_store _ Hw1)) as (o & Hrun & Ho).
    eapply wp_run_iff; [exact Hrun|]. rewrite Hlg in Ho.
    destruct Ho as [->|(e & -> & _)]; [|by apply same_frame]. split.
    + rewrite <- (inv_topic _ Hw1). unfold log_of. by rewrite Hlg.
    + by apply same_frame.
  - intros T' ->. eapply quiet_bind; [|intros; by apply quiet_ret].
    intros w1 Hw1. apply wp_modify. split; [|split; [done|]; by instantiate (1 := λ _, True)].
    apply same_of_views; [done| |done..].
    destruct Hw1 as [? ? ? ? ? ? ? ? ?]. split; simpl; try done.
    by rewrite dict_get_set_eq.
Qed.

(** ** One delivery attempt *)

Lemma quiet_send event signature timestamp :
  quiet (send cfg l event signature timestamp) (λ _, True).
Proof.
  unfold send. eapply quiet_bind; [apply quiet_attrs|]. intros u _.
  eapply quiet_bind; [apply quiet_key|]. intros k _.
  destruct (mode (delivery u)).
  - intros w Hw. eapply wp_mono; [by apply (wb_webhook Hwb)|]. naive_solver.
  - eapply quiet_bind; [apply quiet_env, uuid_draws|]. intros msg _ w Hw.
    eapply wp_mono; [by apply (wb_message Hwb)|]. naive_solver.
Qed.

Lemma quiet_attempt_send r n :
  ev_topic r = t → quiet (attempt_send cfg l r n) (λ _, True).
Proof.
  intros Ht. unfold attempt_send. rewrite Ht.
  eapply quiet_bind; [apply quiet_topic|]. intros T' _.
  eapply quiet_bind; [apply quiet_attrs|]. intros u _.
  eapply quiet_bind; [apply quiet_key|]. intros k _.
  eapply quiet_bind; [apply (quiet_lift _ (λ _, True)); [apply sign_total|done]|].
  intros sig _. apply quiet_send.
Qed.

(** ** Writes to the subscription store *)

(** A store call that keeps the row and changes positions and attempts. *)
Definition takes_to {A} (w : W) (p' : Z) (a' : list DeliveryAttempt) (P : A → Prop) (x : A)
    (sh : S * Heap) : Prop :=
  P x ∧ sh.2 = w_heap w ∧ ss_inv sh.1 (w_heap w) ∧ is_Some (ss_row sh.1 (w_heap w) sid) ∧
  position_of (ss_hw sh.1 sid) t = p' ∧
  filter concerns (ss_attempts sh.1) = a'.

Lemma on_subs_moves {A} (m : M (S * Heap) A) (P : A → Prop) w p' a' :
  inv w → -1 ≤ p' < max_offset →
  effect_or_refusal ss_refuses (w_subs w, w_heap w) (takes_to w p' a' P)
    (m (w_subs w, w_heap w)) →
  wp (on_subs m) (λ r w', match r with
    | Ret x => P x ∧ moves w w' p' a'
    | Raise _ => same w w'
    | NoFuel => False end) w.
Proof.
  intros Hw Hp' He. unfold on_subs. apply wp_zoom.
  destruct (m (w_subs w, w_heap w)) as [[x|e|] [s' h']] eqn:Hrun; [| |done];
    (eapply wp_run_iff; [exact Hrun|]); simpl in He.
  - destruct He as (HP & Hh & Hinv & Hrow & Hp & Ha). simpl in *. subst h'. split; [done|].
    destruct Hw as [? ? ? ? ? ? ? ? ?]. split; [|by apply evolves_frame|done|done].
    split; simpl; try done. unfold pos; simpl. by rewrite Hp.
  - destruct He as [_ [= -> ->]]. by apply same_frame.
Qed.

Lemma set_high_water_spec n w :
  inv w → -1 ≤ n < max_offset →
  wp (run_subs cfg (ss_set_high_water sid t n)) (λ r w', match r with
    | Ret _ => moves w w' n (atts w)
    | Raise _ => same w w' ∨ moves w w' n (atts w)
    | NoFuel => False
    end) w.
Proof.
  intros Hw Hn. eapply wp_mono.
  { eapply (offloaded_spec _ (λ _, True) (pos w) (atts w) n (atts w)); [done..|].
    intros w1 Hw1 Hp1 Ha1.
    rewrite <- Hp1, <- Ha1. apply on_subs_moves; [done..|].
    eapply effect_mono; [apply ss_set_high_water_law; apply Hw1|].
    intros x [s' h'] (Hh & Hinv & Hrow & Hpos & Hatt). unfold takes_to; simpl in *.
    split_and!; [done..|rewrite Hrow; apply Hw1| |by rewrite Hatt].
    rewrite Hpos. by rewrite decide_True. }
  intros [x|e|] w1; naive_solver.
Qed.

(** Attempts recorded for a delivery of [r]. *)
Definition att_of (r : EventRecord) (k : Z) (st : string) (a : DeliveryAttempt) : Prop :=
  da_subscription_id a = sid ∧ da_event_id a = event_id r ∧ da_cursor a = ev_cursor r ∧
  attempt a = k ∧ da_status a = st.

Lemma record_attempt_spec r k st res w :
  inv w → on_topic t (ev_cursor r) →
  wp (record_attempt cfg l r k st res) (λ r' w', match r' with
    | Ret _ => ∃ a, att_of r k st a ∧ moves w w' (pos w) (atts w ++ [a])
    | Raise _ => same w w' ∨ ∃ a, att_of r k st a ∧ moves w w' (pos w) (atts w ++ [a])
    | NoFuel => False
    end) w.
Proof.
  intros Hw Hr. unfold record_attempt. apply wp_bind. eapply wp_mono; [by apply quiet_tell|].
  intros [x|e|] w1 (Hs1 & Hnf & _); simpl; [|by left|done].
  apply wp_bind. eapply wp_mono; [apply (quiet_env _ attempt_id_draws), Hs1|].
  intros [da|e|] w2 (Hs2 & Hnf2 & _); simpl; [|left; by eapply same_trans|done].
  apply wp_bind. eapply wp_mono; [apply quiet_attrs, Hs2|].
  intros [u|e|] w3 (Hs3 & Hnf3 & Hu); simpl; [|left; do 2 (eapply same_trans; [done|]); done|done].
  destruct (Hu u eq_refl) as [Hid _]. rewrite Hid.
  assert (same w w3) as Hs by (do 2 (eapply same_trans; [done|]); done).
  set (a := mkDeliveryAttempt _ _ _ _ _ _ _ _).
  assert (att_of r k st a) as Hatt by done.
  eapply wp_mono.
  { eapply (offloaded_spec _ (λ _, True) (pos w3) (atts w3) (pos w3) (atts w3 ++ [a]));
      [apply Hs3|done..|].
    intros w4 Hw4 Hp4 Ha4.
    rewrite <- Hp4, <- Ha4. apply on_subs_moves; [done|apply Hw4|].
    eapply effect_mono; [apply ss_record_attempt_law; apply Hw4|].
    intros y [s' h'] (Hh & Hinv & Hrow & Hhw & Hatts). unfold takes_to; simpl in *.
    split_and!; [done..|rewrite Hrow; apply Hw4|by rewrite Hhw|].
    by rewrite Hatts, filter_app, filter_cons_True, filter_nil by done. }
  destruct Hs as [Hi He Hp Ha].
  intros [y|e|] w4; [| |done].
  - intros [_ Hmv]. exists a. split; [done|]. rewrite <- Hp, <- Ha.
    eapply moves_trans; [|done]. by split.
  - intros [Hmv|Hmv]; [left|right; exists a; split; [done|]]; unfold same; rewrite <- Hp, <- Ha;
      (eapply moves_trans; [|done]); by split.
Qed.

Lemma high_water_spec w :
  inv w →
  wp (run_subs cfg (ss_high_water sid)) (λ r w', same w w' ∧ r ≠ NoFuel ∧
    ∀ hw, r = Ret hw → position_of hw t = pos w) w.
Proof.
  intros Hw. eapply wp_mono.
  { eapply (offloaded_spec _ (λ hw, position_of hw t = pos w) (pos w) (atts w) (pos w) (atts w));
      [done..|].
    intros w1 Hw1 Hp Ha. rewrite <- Hp, <- Ha.
    apply (on_subs_moves _ (λ hw, position_of hw t = pos w1)); [done|apply Hw1|].
    eapply effect_mono; [apply ss_high_water_law; apply Hw1|].
    intros hw [s' h'] [[= -> ->] ->]. split_and!; [done|done|apply Hw1..|done|done]. }
  intros [x|e|] w1; naive_solver.
Qed.

(** Assignments that keep the identifier and the selector. *)
Lemma quiet_assign f :
  (∀ u, subscription_id (f u) = subscription_id u ∧ selector (f u) = selector u) →
  quiet (assign l f) (λ _, True).
Proof.
  intros Hf w Hw. unfold assign. apply wp_bind. unfold attrs, on_subs. apply wp_zoom.
  destruct (inv_obj _ Hw) as (u & Hu & Hid & Hsel). destruct (Hf u) as [Hfid Hfsel].
  eapply wp_run_iff; [unfold deref; by rewrite Hu|]. simpl. apply wp_zoom, wp_modify. simpl.
  destruct (ss_write_law (w_subs w) (w_heap w) l u (f u)) as (Hinv & Hrow & _);
    [apply Hw|done|done|].
  split; [|naive_solver]. apply same_of_views; [done| |done..].
  destruct Hw as [? ? ? ? ? ? ? ? ?]. split; simpl; try done.
  - by apply Hrow.
  - exists (f u). rewrite lookup_insert_eq. split_and!; congruence.
Qed.

Lemma quiet_update : quiet (run_subs cfg (ss_update l)) (λ _, True).
Proof.
  apply quiet_offloaded. intros w Hw. destruct (inv_obj _ Hw) as (u & Hu & Hid & Hsel).
  destruct (inv_row _ Hw) as [u0 Hu0]. apply on_subs_moves; [done|apply Hw|].
  eapply effect_mono; [eapply ss_update_law; [apply Hw|done|by rewrite Hid]|].
  intros x [s' h'] (Hh & Hinv & (u' & Hrow & _) & _ & Hhw & Hatts). unfold takes_to; simpl in *. rewrite Hid in Hrow.
  split_and!; [done..|by eexists|by rewrite Hhw|by rewrite Hatts].
Qed.

Lemma quiet_record_ack eid c : quiet (run_subs cfg (ss_record_ack sid eid c)) (λ _, True).
Proof.
  apply quiet_offloaded. intros w Hw.
  apply on_subs_moves; [done|apply Hw|].
  eapply effect_mono; [apply ss_record_ack_law; apply Hw|].
  intros x [s' h'] (Hh & Hinv & Hrow & Hhw & Hatts). unfold takes_to; simpl in *.
  split_and!; [done..|rewrite Hrow; apply Hw|by rewrite Hhw|by rewrite Hatts].
Qed.

(** A step that moves the position to [o], or raises before or after it. *)
Definition advances (o : Z) {A} (r : outcome A) (w w' : W) : Prop :=
  match r with
  | Ret _ => moves w w' o (atts w)
  | Raise _ => same w w' ∨ moves w w' o (atts w)
  | NoFuel => False
  end.

(** Sequencing with computations that leave the subscription alone. *)
Lemma advances_after {A B} (m : PM A) (k : A → PM B) P o w :
  quiet m P → inv w →
  (∀ x w1, P x → same w w1 → wp (k x) (λ r w', advances o r w1 w') w1) →
  wp (m ≫= k) (λ r w', advances o r w w') w.
Proof.
  intros Hm Hw Hk. apply wp_bind. eapply wp_mono; [by apply Hm|].
  intros [x|e|] w1 (Hs & Hnf & HP); simpl; [|by left|done].
  eapply wp_mono; [apply Hk; [by apply HP|done]|].
  pose proof (mv_atts _ _ _ _ Hs) as Ha. unfold advances. rewrite Ha.
  intros [y|e|] w2; [|intros [Hb|Hb]|done].
  - by apply same_then.
  - left. by eapply same_trans.
  - right. by eapply same_then.
Qed.

Lemma advances_before {A B} (m : PM A) (k : A → PM B) P o w :
  wp m (λ r w', advances o r w w') w → (∀ x, quiet (k x) P) →
  wp (m ≫= k) (λ r w', advances o r w w') w.
Proof.
  intros Hm Hk. apply wp_bind. eapply wp_mono; [exact Hm|].
  intros [x|e|] w1 Hadv; simpl in *; [|done..].
  eapply wp_mono; [apply Hk, Hadv|].
  intros [y|e|] w2 (Hs & Hnf & _); simpl; [|right|done]; by eapply then_same.
Qed.

(** A record of the log as the delivery code sees it. *)
Record in_log (r : EventRecord) : Prop := {
  il_topic : ev_topic r = t;
  il_cursor : on_topic t (ev_cursor r);
  il_offset : offset_of (ev_cursor r) = Ret (rec_offset r);
  il_range : 0 ≤ rec_offset r < max_offset;
}.

Lemma record_in_log lg r : wf_log t lg → r ∈ log_events lg → in_log r.
Proof.
  intros Hwf Hr. pose proof (rec_offset_range _ _ Hwf _ Hr). pose proof (wf_next _ _ Hwf). split.
  - pose proof (wf_records _ _ Hwf) as Hrec. rewrite Forall_forall in Hrec. by apply Hrec.
  - unfold on_topic. rewrite (rec_cursor _ _ Hwf _ Hr).
    rewrite topic_of_text; [by rewrite bool_decide_true|by apply (wf_nonempty _ _ Hwf)|lia].
  - by eapply offset_of_record.
  - lia.
Qed.

Lemma log_record w r : inv w → r ∈ log_events (log_of w) → in_log r.
Proof.
  intros Hw Hr. destruct (inv_log _ Hw) as [lg Hlg].
  assert (log_of w = lg) as Hl by (unfold log_of; by rewrite Hlg). rewrite Hl in Hr.
  eapply record_in_log; [|exact Hr]. by apply (es_inv_wf _ _ _ (inv_store _ Hw)).
Qed.

Lemma advance_max_spec r w :
  inv w → in_log r →
  wp (advance cfg l t (ev_cursor r) (Some (event_id r)))
    (λ r' w', advances (Z.max (pos w) (rec_offset r)) r' w w') w.
Proof.
  intros Hw [Ht Hcur Hoff Hrange]. unfold advance.
  eapply advances_after; [apply quiet_attrs|done|]. intros u w1 [Hid _] Hs1.
  eapply (advances_after _ _ (λ _, True)); [|apply Hs1|].
  { destruct (match dict_get t (cursors u) with Some c => _ | None => _ end).
    - eapply quiet_bind; [by apply quiet_assign|]. intros; apply quiet_update.
    - by apply quiet_ret. }
  intros _ w2 _ Hs2. rewrite Hoff. apply wp_bind, wp_lift. simpl.
  eapply advances_after; [apply quiet_attrs|apply Hs2|]. intros u' w3 [Hid' _] Hs3.
  rewrite Hid'.
  assert (pos w3 = pos w) as Hp3 by (destruct Hs1, Hs2, Hs3; congruence).
  apply wp_bind. eapply wp_mono; [apply high_water_spec, Hs3|].
  intros [hw|e|] w4 (Hs4 & Hnf & Hpos); simpl; [|by left|done].
  rewrite (Hpos hw eq_refl).
  assert (pos w4 = pos w3) as Hp4 by apply Hs4.
  assert (atts w4 = atts w3) as Ha4 by apply Hs4.
  eapply wp_mono; [eapply (advances_before _ _ (λ _, True) (Z.max (pos w) (rec_offset r)))|].
  - destruct (Z.ltb_spec (pos w3) (rec_offset r)) as [Hlt|Hge].
    + rewrite Z.max_r by lia. eapply wp_mono; [apply set_high_water_spec; [apply Hs4|lia]|].
      intros r' w' Hr. exact Hr.
    + rewrite Z.max_l by lia. apply wp_ret. simpl. rewrite <- Hp3, <- Hp4.
      apply same_refl, Hs4.
  - intros _. eapply quiet_bind; [by apply (quiet_ret _ (λ x, x = Some (event_id r)))|].
    intros _ ->. apply quiet_record_ack.
  - unfold advances. rewrite Ha4. intros [y|e|] w5; [|intros [Hb|Hb]|done].
    + by apply same_then.
    + left. by eapply same_trans.
    + right. by eapply same_then.
Qed.

(** ** Delivering one event *)

(** The end of a delivery: the attempt is recorded, then the position moves. *)
Definition closes (p : Z) (r : EventRecord) (k : Z) (st : string) {A} (o : outcome A)
    (w w' : W) : Prop :=
  match o with
  | Ret _ => ∃ a, att_of r k st a ∧ moves w w' p (atts w ++ [a])
  | Raise _ => same w w' ∨ ∃ a, att_of r k st a ∧
      (moves w w' (pos w) (atts w ++ [a]) ∨ moves w w' p (atts w ++ [a]))
  | NoFuel => False
  end.

Lemma closes_spec {A} p r k st res (m : PM A) w :
  inv w → on_topic t (ev_cursor r) →
  (∀ w1, inv w1 → pos w1 = pos w → wp m (λ r' w', advances p r' w1 w') w1) →
  wp (record_attempt cfg l r k st res ≫= λ _, m) (λ r' w', closes p r k st r' w w') w.
Proof.
  intros Hw Hr Hm. apply wp_bind. eapply wp_mono; [by apply record_attempt_spec|].
  intros [x|e|] w1; simpl; [|naive_solver|done].
  intros (a & Hatt & Hmv). pose proof Hmv as [Hi He Hp Ha].
  eapply wp_mono; [by apply Hm|].
  unfold advances. rewrite Ha. intros [y|e|] w2; simpl; [|intros [Hs|Hs]|done].
  - intros Hmv2. exists a. split; [done|]. by eapply moves_trans.
  - right. exists a. split; [done|]. left. by eapply then_same.
  - right. exists a. split; [done|]. right. by eapply moves_trans.
Qed.

Lemma on_delivered_max_spec r k res w :
  inv w → in_log r →
  wp (on_delivered cfg l r k res)
    (λ r' w', closes (Z.max (pos w) (rec_offset r)) r k "delivered" r' w w') w.
Proof.
  intros Hw Hr. unfold on_delivered. apply closes_spec; [done|apply Hr|].
  intros w1 Hw1 Hp1. eapply advances_after; [apply quiet_env, now_draws|done|].
  intros now_ w2 _ Hs2. eapply advances_after; [apply quiet_tell|apply Hs2|].
  intros _ w3 _ Hs3. rewrite (il_topic _ Hr).
  assert (pos w3 = pos w) as <- by (destruct Hs2, Hs3; congruence).
  apply advance_max_spec; [apply Hs3|done].
Qed.

Lemma on_delivered_spec r k res w :
  inv w → in_log r → pos w < rec_offset r →
  wp (on_delivered cfg l r k res)
    (λ r' w', closes (rec_offset r) r k "delivered" r' w w') w.
Proof.
  intros Hw Hr Hlt. pose proof (on_delivered_max_spec r k res w Hw Hr) as Hd.
  by rewrite Z.max_r in Hd by lia.
Qed.

Lemma hand_off_spec r w :
  inv w → in_log r →
  wp (hand_off cfg l r) (λ r' w', advances (rec_offset r) r' w w') w.
Proof.
  intros Hw [Ht Hcur Hoff Hrange]. unfold hand_off. rewrite Hoff, Ht. apply wp_bind, wp_lift. simpl.
  eapply advances_after; [apply quiet_attrs|done|]. intros u w1 [Hid _] Hs1. rewrite Hid.
  eapply wp_mono; [apply set_high_water_spec; [apply Hs1|lia]|]. intros r' w' Hr'. exact Hr'.
Qed.

Lemma on_terminal_spec r k res w :
  inv w → in_log r →
  wp (on_terminal cfg l r k res)
    (λ r' w', closes (rec_offset r) r k "dead_letter" r' w w') w.
Proof.
  intros Hw Hr. unfold on_terminal. apply closes_spec; [done|apply Hr|].
  intros. by apply hand_off_spec.
Qed.

Definition terminal (st : string) : Prop := st = "delivered"%string ∨ st = "dead_letter"%string.

(** A finished delivery, from attempt [k] on: retries, then one terminal
    attempt, numbered consecutively. *)
Inductive run_from (r : EventRecord) : Z → list DeliveryAttempt → Prop :=
| run_final k a st : terminal st → att_of r k st a → run_from r k [a]
| run_retry k a rest : att_of r k "retry" a → run_from r (k + 1) rest → run_from r k (a :: rest).

(** What a delivery has recorded when it is cut short. *)
Inductive prefix_from (r : EventRecord) : Z → list DeliveryAttempt → Prop :=
| prefix_nil k : prefix_from r k []
| prefix_final k a st : terminal st → att_of r k st a → prefix_from r k [a]
| prefix_retry k a rest :
    att_of r k "retry" a → prefix_from r (k + 1) rest → prefix_from r k (a :: rest).

(** A delivery that needs no more from the dispatcher: finished inline within
    the attempt ceiling, or, with a retry queue, tried once and finished or
    handed to the queue. *)
Definition complete (r : EventRecord) (runs : list DeliveryAttempt) : Prop :=
  if retry_queue cfg
  then ∃ a st, runs = [a] ∧ att_of r 1 st a ∧ (terminal st ∨ st = "retry"%string)
  else run_from r 1 runs ∧ Z.of_nat (length runs) ≤ max_attempts cfg.

(** The outcome of delivering [r] with attempts numbered from [k]. *)
Definition delivers_from (r : EventRecord) (k : Z) (done_ : list DeliveryAttempt → Prop)
    {A} (o : outcome A) (w w' : W) : Prop :=
  match o with
  | Ret _ => ∃ runs, done_ runs ∧ moves w w' (rec_offset r) (atts w ++ runs)
  | Raise _ => ∃ runs, prefix_from r k runs ∧
      (moves w w' (pos w) (atts w ++ runs) ∨
       (done_ runs ∧ moves w w' (rec_offset r) (atts w ++ runs)))
  | NoFuel => False
  end.

Lemma delivers_nothing r k done_ {A} e w w' :
  same w w' → delivers_from r k done_ (Raise e : outcome A) w w'.
Proof.
  intros Hs. exists []. split; [constructor|]. left. by rewrite (right_id_L [] (++)).
Qed.

Lemma closes_delivers r k st (done_ : list DeliveryAttempt → Prop) {A B} (o : outcome A)
    (m : A → PM B) w w' b :
  terminal st → (∀ a, att_of r k st a → done_ [a]) →
  closes (rec_offset r) r k st o w w' → (∀ x, m x = mret b) →
  match o with
  | Ret x => wp (m x) (λ r' w2, delivers_from r k done_ r' w w2) w'
  | Raise e => delivers_from r k done_ (Raise e : outcome B) w w'
  | NoFuel => False
  end.
Proof.
  intros Hst Hdone Hcl Hm. destruct o as [x|e|]; simpl in *; [|destruct Hcl as [Hs|Hcl]|done].
  - rewrite Hm. apply wp_ret. destruct Hcl as (a & Hatt & Hmv). exists [a]. eauto.
  - by apply delivers_nothing.
  - destruct Hcl as (a & Hatt & Hmv). exists [a]. split; [by eapply prefix_final|].
    destruct Hmv; [by left|right]. eauto.
Qed.

(** Sequencing after a quiet computation. *)
Lemma delivers_after {A B} (m : PM A) (f : A → PM B) P r k done_ w :
  quiet m P → inv w →
  (∀ x w1, P x → same w w1 → wp (f x) (λ o w', delivers_from r k done_ o w1 w') w1) →
  wp (m ≫= f) (λ o w', delivers_from r k done_ o w w') w.
Proof.
  intros Hm Hw Hf. apply wp_bind. eapply wp_mono; [by apply Hm|].
  intros [x|e|] w1 (Hs & Hnf & HP); simpl; [|by apply delivers_nothing|done].
  eapply wp_mono; [apply Hf; [by apply HP|done]|].
  pose proof Hs as [Hi He Hp Ha].
  intros [y|e|] w2; simpl; rewrite ?Hp, ?Ha; [| |done].
  - intros (runs & Hd & Hmv). exists runs. split; [done|]. by eapply same_then.
  - intros (runs & Hpre & Hmv). exists runs. split; [done|].
    destruct Hmv as [Hmv|[Hd Hmv]]; [left|right; split; [done|]]; by eapply same_then.
Qed.

(** A recorded retry, then the rest. *)
Lemma delivers_retry {B} (f : unit → PM B) r k res (d d' : list DeliveryAttempt → Prop) w :
  inv w → on_topic t (ev_cursor r) →
  (∀ a runs, att_of r k "retry" a → d' runs → d (a :: runs)) →
  (∀ a w1, att_of r k "retry" a → moves w w1 (pos w) (atts w ++ [a]) →
     wp (f tt) (λ o w', delivers_from r (k + 1) d' o w1 w') w1) →
  wp (record_attempt cfg l r k "retry" res ≫= f) (λ o w', delivers_from r k d o w w') w.
Proof.
  intros Hw Hr Hd Hf. apply wp_bind. eapply wp_mono; [by apply record_attempt_spec|].
  assert (∀ a w1 w2 p runs, moves w w1 (pos w) (atts w ++ [a]) →
    moves w1 w2 p (atts w1 ++ runs) → moves w w2 p (atts w ++ a :: runs)) as Hcat.
  { intros a w1 w2 p runs Hmv Hmv2. rewrite (mv_atts _ _ _ _ Hmv), <- (assoc_L (++)) in Hmv2.
    by eapply moves_trans. }
  intros [[]|e|] w1; simpl; [| |done].
  - intros (a & Hatt & Hmv). eapply wp_mono; [by apply (Hf a)|].
    intros [y|e|] w2; simpl; [| |done].
    + intros (runs & Hruns & Hmv2). exists (a :: runs). split; [by apply Hd|]. by eapply Hcat.
    + intros (runs & Hpre & Hmv2). exists (a :: runs). split; [by apply prefix_retry|].
      rewrite (mv_pos _ _ _ _ Hmv) in Hmv2.
      destruct Hmv2 as [Hmv2|[Hruns Hmv2]]; [left; by eapply Hcat|right].
      split; [by apply Hd|by eapply Hcat].
  - intros [Hs|(a & Hatt & Hmv)]; [by apply (delivers_nothing r k d (A := B) e)|].
    exists [a]. split; [by apply prefix_retry; [|constructor]|]. by left.
Qed.

Definition run_within (r : EventRecord) (k : Z) (runs : list DeliveryAttempt) : Prop :=
  run_from r k runs ∧ Z.of_nat (length runs) ≤ max_attempts cfg - k + 1.

Lemma deliver_loop_spec n k r w :
  inv w → in_log r → pos w < rec_offset r →
  Z.of_nat n = max_attempts cfg - k + 1 → (1 ≤ n)%nat →
  wp (deliver_loop cfg n k l r) (λ o w', delivers_from r k (run_within r k) o w w') w.
Proof.
  revert k w. induction n as [|n IH]; intros k w Hw Hr Hlt Hn Hpos; [lia|]. cbn [deliver_loop].
  eapply delivers_after; [apply quiet_attempt_send, Hr|done|]. intros res w1 _ Hs1.
  assert (pos w1 < rec_offset r) as Hlt1 by (destruct Hs1; congruence).
  assert (∀ st a, terminal st → att_of r k st a → run_within r k [a]) as Hone.
  { intros st a Hst Ha. split; [by eapply run_final|]. simpl. lia. }
  destruct (ack res).
  { apply wp_bind. eapply wp_mono; [by apply on_delivered_spec; [apply Hs1|..]|].
    intros o w2 Hcl.
    eapply (closes_delivers r k "delivered" (run_within r k) o (λ _, mret true)) in Hcl;
      [|by left|intros; eapply Hone; [by left|done]|done].
    by destruct o. }
  destruct (negb (retry res) || (k =? max_attempts cfg)) eqn:Hterm.
  { apply wp_bind. eapply wp_mono; [by apply on_terminal_spec; [apply Hs1|..]|].
    intros o w2 Hcl.
    eapply (closes_delivers r k "dead_letter" (run_within r k) o (λ _, mret false)) in Hcl;
      [|by right|intros; eapply Hone; [by right|done]|done].
    by destruct o. }
  apply orb_false_iff in Hterm as [_ Hk%Z.eqb_neq].
  eapply (delivers_retry _ r k res _ (run_within r (k + 1))); [apply Hs1|apply Hr| |].
  { intros a runs Ha [Hrun Hlen]. split; [by apply run_retry|]. simpl. lia. }
  intros a w2 _ Hmv2. eapply (delivers_after _ _ (λ _, True)).
  - intros w3 Hw3. eapply wp_mono; [by apply (wb_sleep Hwb)|]. naive_solver.
  - apply Hmv2.
  - intros _ w3 _ Hs3. apply IH; [apply Hs3|done| |lia|lia].
    destruct Hmv2, Hs3. congruence.
Qed.

(** Queue calls touch nothing else. *)
Lemma quiet_run_queue {A} (m : M Q A) :
  (∀ q, (m q).1 ≠ NoFuel) → quiet (run_queue cfg m) (λ _, True).
Proof.
  intros Hm.
  assert (∀ w, inv w → wp (on_queue m) (λ r w', same w w' ∧ r ≠ NoFuel) w) as Hon.
  { intros w Hw. unfold on_queue. apply wp_zoom. unfold wp. specialize (Hm (w_queue w)).
    destruct (m (w_queue w)) as [o q']. split; [by apply same_frame|done]. }
  unfold run_queue, offloaded. destruct (offload_store cfg).
  2:{ intros w Hw. eapply wp_mono; [by apply Hon|]. naive_solver. }
  eapply (quiet_bind _ _ (λ _, True)).
  - intros w Hw. eapply wp_mono; [by apply (wb_suspend Hwb)|].
    intros [x|e|] w' [Hs Hx]; naive_solver.
  - intros _ _ w Hw. apply wp_and_then. eapply wp_mono; [by apply Hon|].
    intros r w1 [Hs1 Hr]. eapply wp_mono; [apply (wb_suspend Hwb), Hs1|].
    intros [x|e|] w2 [Hs Hx]; [| |done]; (split; [by eapply same_trans|]; by split).
Qed.

Lemma deliver_queued_spec r w :
  inv w → in_log r → pos w < rec_offset r → retry_queue cfg = true →
  (∀ i q, (rq_enqueue i q).1 ≠ NoFuel) →
  wp (deliver_queued cfg l r) (λ o w', delivers_from r 1 (complete r) o w w') w.
Proof.
  intros Hw Hr Hlt Hq Henq. unfold deliver_queued.
  eapply delivers_after; [apply quiet_attempt_send, Hr|done|]. intros res w1 _ Hs1.
  assert (pos w1 < rec_offset r) as Hlt1 by (destruct Hs1; congruence).
  assert (∀ st a, terminal st ∨ st = "retry"%string → att_of r 1 st a → complete r [a]) as Hone.
  { intros st a Hst Ha. unfold complete. rewrite Hq. eauto. }
  destruct (ack res).
  { apply wp_bind. eapply wp_mono; [by apply on_delivered_spec; [apply Hs1|..]|].
    intros o w2 Hcl.
    eapply (closes_delivers r 1 "delivered" (complete r) o (λ _, mret true)) in Hcl;
      [|by left|intros; eapply Hone; [by left; left|done]|done].
    by destruct o. }
  destruct (negb (retry res) || (max_attempts cfg <=? 1)).
  { apply wp_bind. eapply wp_mono; [by apply on_terminal_spec; [apply Hs1|..]|].
    intros o w2 Hcl.
    eapply (closes_delivers r 1 "dead_letter" (complete r) o (λ _, mret false)) in Hcl;
      [|by right|intros; eapply Hone; [by left; right|done]|done].
    by destruct o. }
  eapply (delivers_retry _ r 1 res _ (λ runs, runs = [])); [apply Hs1|apply Hr| |].
  { intros a runs Ha ->. eapply Hone; [by right|done]. }
  intros a w2 _ Hmv2.
  eapply delivers_after; [apply quiet_env, retry_id_draws|apply Hmv2|]. intros rid w3 _ Hs3.
  eapply delivers_after; [apply quiet_attrs|apply Hs3|]. intros u w4 _ Hs4.
  eapply delivers_after; [apply quiet_env, now_draws|apply Hs4|]. intros now_ w5 _ Hs5.
  eapply (delivers_after _ _ (λ _, True)); [|apply Hs5|].
  { by apply quiet_run_queue. }
  intros _ w6 _ Hs6. apply wp_bind.
  eapply wp_mono; [apply hand_off_spec; [apply Hs6|done]|].
  intros [x|e|] w7 Hadv; simpl in *; [| |done].
  - exists []. split; [done|]. by rewrite (right_id_L [] (++)).
  - exists []. split; [constructor|]. rewrite (right_id_L [] (++)).
    destruct Hadv; [by left|by right].
Qed.

(** At least one attempt, pages of at least one event, a queue that answers. *)
Context (Hmax : 1 ≤ max_attempts cfg) (Hsize : 1 ≤ page_size cfg).
Context (Henq : ∀ i (q : Q), (rq_enqueue i q).1 ≠ NoFuel).

Lemma deliver_one_spec r w :
  inv w → in_log r → pos w < rec_offset r →
  wp (deliver_one cfg l r) (λ o w', delivers_from r 1 (complete r) o w w') w.
Proof.
  intros Hw Hr Hlt. unfold deliver_one. destruct (retry_queue cfg) eqn:Hq.
  { by apply deliver_queued_spec. }
  eapply wp_mono; [apply deliver_loop_spec; try done; lia|].
  assert (∀ runs, run_within r 1 runs → complete r runs) as Hwc.
  { intros runs [Hrun Hlen]. unfold complete. rewrite Hq. split; [done|lia]. }
  intros [b|e|] w'; simpl; naive_solver.
Qed.

(** ** A page *)

(** The event matches the subscription's selector. *)
Definition hit (r : EventRecord) : Prop :=
  matches sel (raw_event_dict r) (filterable_fields T) = Ret true.

(** The state of a catch-up that started in [w0]: the events in [ds] were
    delivered, in order, and nothing live that matches was left out up to
    [bound]; [tail] holds the attempts of a delivery that was cut short. *)
Record progress (w0 w : W) (bound : Z) (ds : list EventRecord) (tail : list DeliveryAttempt)
    : Prop := {
  pg_inv : inv w;
  pg_evolves : evolves w0 w;
  pg_runs : ∃ runs, Forall2 complete ds runs ∧ atts w = atts w0 ++ concat runs ++ tail;
  pg_sorted : sorted_by rec_offset ds;
  pg_ds : ∀ r, r ∈ ds → pos w0 < rec_offset r ≤ pos w ∧ hit r;
  pg_pos : pos w0 ≤ pos w ≤ bound;
  pg_bound : bound ≤ pos w0 ∨ bound < next_offset (log_of w);
  pg_cover : ∀ r, r ∈ log_events (log_of w) → live r (clk w) →
    pos w0 < rec_offset r ≤ bound → hit r → r ∈ ds;
}.

Lemma progress_start w : inv w → progress w w (pos w) [] [].
Proof.
  intros Hw. split; [done|reflexivity| | | |lia|by left|intros; lia].
  - exists []. split; [constructor|]. simpl. by rewrite (right_id_L [] (++)).
  - constructor.
  - by intros r ?%elem_of_nil.
Qed.

Lemma progress_weaken w0 w b b' ds tail :
  progress w0 w b ds tail → pos w ≤ b' ≤ b → progress w0 w b' ds tail.
Proof.
  intros [? ? ? ? ? ? ? Hc] Hb. split; try done; [lia|lia|]. intros r ? ? ?. apply Hc; [done..|lia].
Qed.

(** Nothing live and matching was missed up to [b]: stable as the log evolves,
    as long as [b] lies inside the log. *)
Definition covered (w : W) (lo b : Z) (ds : list EventRecord) : Prop :=
  ∀ r, r ∈ log_events (log_of w) → live r (clk w) → lo < rec_offset r ≤ b → hit r → r ∈ ds.

Lemma covered_later w w' lo b ds :
  evolves w w' → b ≤ lo ∨ b < next_offset (log_of w) → covered w lo b ds → covered w' lo b ds.
Proof.
  intros [He Hn Ho Hk] Hb Hc r Hr Hlive Hrange Hh. destruct (Ho r Hr) as [Hr'|Hr']; [|lia].
  apply Hc; [done| |done|done]. eapply live_mono; [done|]. by apply clk_mono.
Qed.

(** A step that leaves the subscription alone keeps the progress. *)
Lemma progress_same w0 w w' b ds tail :
  progress w0 w b ds tail → same w w' → progress w0 w' b ds tail.
Proof.
  intros [Hi He Hr Hs Hd Hp Hb Hc] [Hi' He' Hp' Ha'].
  split; [done|by transitivity w|rewrite Ha'; done|done|rewrite Hp'; done|rewrite Hp'; done| |].
  - pose proof (ev_next _ _ He'). lia.
  - by eapply (covered_later w).
Qed.

(** A page read when the world was [wr]: records of the log, in order, none
    missing between [p] and the last one that is still live. *)
Record page_of (wr : W) (p : Z) (rs : list EventRecord) : Prop := {
  po_sorted : sorted_by rec_offset rs;
  po_log : ∀ r, r ∈ rs → in_log r ∧ rec_offset r < next_offset (log_of wr);
  po_cover : ∀ w r y, evolves wr w → inv w → r ∈ log_events (log_of w) → live r (clk w) →
    p < rec_offset r → y ∈ rs → rec_offset r ≤ rec_offset y → r ∈ rs;
}.

(** Extending the coverage past the next record of a page. *)
Lemma covered_next wr w p rs pre r rest lo scan ds :
  page_of wr p rs → rs = pre ++ r :: rest → evolves wr w → inv w → p ≤ scan →
  Forall (λ x, rec_offset x ≤ scan) pre → covered w lo scan ds →
  (hit r → r ∈ ds) → covered w lo (rec_offset r) ds.
Proof.
  intros [Hsort Hlog Hcov] Hrs He Hw Hscan Hpre Hc Hr x Hx Hlive Hrange Hh.
  destruct (Z.le_gt_cases (rec_offset x) scan) as [Hle|Hgt]; [apply Hc; [done..|lia|done]|].
  assert (x ∈ rs) as Hin.
  { eapply (Hcov w x r); [done..|lia| |lia]. rewrite Hrs. apply elem_of_app. right. left. }
  rewrite Hrs in Hin, Hsort. apply sorted_by_app in Hsort as (_ & Hsort & _).
  apply StronglySorted_inv in Hsort as [_ Hgt']. rewrite Forall_forall in Hgt', Hpre.
  apply elem_of_app in Hin as [Hin|Hin]; [apply Hpre in Hin; lia|].
  apply elem_of_cons in Hin as [->|Hin]; [by apply Hr|]. apply Hgt' in Hin. lia.
Qed.

(** A catch-up that was cut short by an exception: everything up to the stored
    position is accounted for, and at most one delivery beyond it was begun. *)
Definition interrupted (w0 w : W) : Prop :=
  ∃ ds tail, progress w0 w (pos w) ds tail ∧
    (tail = [] ∨ ∃ r, in_log r ∧ hit r ∧ pos w < rec_offset r ∧ prefix_from r 1 tail).

Lemma interrupted_of w0 w b ds : progress w0 w b ds [] → interrupted w0 w.
Proof.
  intros Hp. exists ds, []. split; [|by left]. eapply progress_weaken; [done|].
  destruct Hp. lia.
Qed.

Section Page.
Context (w0 wr : W) (p : Z) (rs : list EventRecord) (Hpage : page_of wr p rs).

(** The scan position of a page: everything before it is settled. *)
Record scanning (w : W) (scan : Z) (pre rest ds : list EventRecord) : Prop := {
  sc_split : rs = pre ++ rest;
  sc_start : p ≤ scan;
  sc_pre : Forall (λ x, rec_offset x ≤ scan) pre;
  sc_evolves : evolves wr w;
  sc_progress : progress w0 w scan ds [];
}.

Lemma scanning_same w w' scan pre rest ds :
  scanning w scan pre rest ds → same w w' → scanning w' scan pre rest ds.
Proof.
  intros [? ? ? ? ?] Hs. split; [done..| |by eapply progress_same].
  transitivity w; [done|apply Hs].
Qed.

Lemma page_record w scan pre r rest ds :
  scanning w scan pre (r :: rest) ds → in_log r ∧ rec_offset r < next_offset (log_of w).
Proof.
  intros [Hs _ _ He _]. destruct (po_log _ _ _ Hpage r) as [Hr Hlt].
  - rewrite Hs. apply elem_of_app. right. left.
  - split; [done|]. pose proof (ev_next _ _ He). lia.
Qed.

(** Skipping a record at or before the scan position. *)
Lemma scanning_skip w scan pre r rest ds :
  scanning w scan pre (r :: rest) ds → rec_offset r ≤ scan →
  scanning w scan (pre ++ [r]) rest ds.
Proof.
  intros [? ? ? ? ?] Hle. split; [by rewrite <- (assoc_L (++))|done| |done|done].
  apply Forall_app. split; [done|]. by constructor.
Qed.

(** Moving past a record that does not match. *)
Lemma scanning_miss w scan pre r rest ds :
  scanning w scan pre (r :: rest) ds → scan < rec_offset r → ¬ hit r →
  scanning w (rec_offset r) (pre ++ [r]) rest ds.
Proof.
  intros Hsc Hlt Hmiss. destruct (page_record _ _ _ _ _ _ Hsc) as [Hr Hnext].
  destruct Hsc as [Hs Hp Hpre He [Hi He0 Hruns Hsort Hds Hpos Hb Hc]].
  split; [by rewrite <- (assoc_L (++))|lia| |done|].
  - apply Forall_app. split; [|by constructor]. eapply Forall_impl; [done|]. simpl. lia.
  - split; try done; [lia|lia|]. by eapply covered_next.
Qed.

(** Moving past a record that was delivered. *)
Lemma scanning_delivered w w' scan pre r rest ds runs :
  scanning w scan pre (r :: rest) ds → scan < rec_offset r → hit r → complete r runs →
  moves w w' (rec_offset r) (atts w ++ runs) →
  scanning w' (rec_offset r) (pre ++ [r]) rest (ds ++ [r]).
Proof.
  intros Hsc Hlt Hh Hdone Hmv. destruct (page_record _ _ _ _ _ _ Hsc) as [Hr Hnext].
  destruct Hsc as [Hs Hp Hpre He [Hi He0 (R & HR & Hatts) Hsort Hds Hpos Hb Hc]].
  destruct Hmv as [Hi' He' Hpos' Hatts'].
  assert (evolves wr w') as Hwr by by transitivity w.
  split; [by rewrite <- (assoc_L (++))|lia| |done|].
  { apply Forall_app. split; [|by constructor]. eapply Forall_impl; [done|]. simpl. lia. }
  split; [done|by transitivity w| | | |lia| |].
  - exists (R ++ [runs]). split; [by apply Forall2_app; [|by constructor]|].
    rewrite Hatts', Hatts, concat_app. simpl. by rewrite !(right_id_L [] (++)), <- (assoc_L (++)).
  - apply sorted_by_snoc; [done|]. apply Forall_forall. intros x Hx.
    destruct (Hds x Hx) as [? _]. lia.
  - intros x [Hx|Hx%list_elem_of_singleton]%elem_of_app.
    + destruct (Hds x Hx). split; [lia|done].
    + subst. split; [lia|done].
  - right. pose proof (ev_next _ _ He'). lia.
  - eapply covered_next; [done..| |intros; apply elem_of_app; right; left].
    intros x Hx Hl Hrange Hhx. apply elem_of_app. left.
    by eapply (covered_later w w' (pos w0) scan ds).
Qed.

Lemma scanning_interrupted w w' scan pre r rest ds runs :
  scanning w scan pre (r :: rest) ds → scan < rec_offset r → hit r → prefix_from r 1 runs →
  moves w w' (pos w) (atts w ++ runs) → interrupted w0 w'.
Proof.
  intros Hsc Hlt Hh Hpre Hmv. destruct (page_record _ _ _ _ _ _ Hsc) as [Hr Hnext].
  destruct Hsc as [_ _ _ _ [Hi He0 (R & HR & Hatts) Hsort Hds Hpos Hb Hc]].
  destruct Hmv as [Hi' He' Hpos' Hatts']. exists ds, runs. split.
  - split; [done|by transitivity w| |done|by rewrite Hpos'|lia| |].
    + exists R. split; [done|]. rewrite Hatts', Hatts.
      by rewrite (right_id_L [] (++)), <- (assoc_L (++)).
    + pose proof (ev_next _ _ He'). lia.
    + intros x Hx Hl Hrange Hhx. apply (covered_later w w' (pos w0) scan ds); [done..|lia|done].
  - right. exists r. split_and!; [done..|lia|done].
Qed.

Lemma scan_page_spec rest pre scan n ds w :
  scanning w scan pre rest ds →
  wp (scan_page cfg l T rest scan n) (λ o w', match o with
    | Ret sp => ∃ ds', scanning w' sp.1 rs [] ds' ∧ scan ≤ sp.1
    | Raise _ => interrupted w0 w'
    | NoFuel => False
    end) w.
Proof.
  revert pre scan n ds w. induction rest as [|r rest IH]; intros pre scan n ds w Hsc;
    cbn [scan_page].
  { apply wp_ret. exists ds. split; [|simpl; lia]. destruct Hsc as [Hs ? ? ? ?].
    rewrite (right_id_L [] (++)) in Hs. subst pre. split; [|done..].
    by rewrite (right_id_L [] (++)). }
  destruct (page_record _ _ _ _ _ _ Hsc) as [[Ht Hcur Hoff Hrange] Hnext].
  rewrite Hoff. apply wp_bind, wp_lift. simpl.
  destruct (Z.leb_spec (rec_offset r) scan) as [Hle|Hlt].
  { by eapply IH, scanning_skip. }
  apply wp_bind. eapply wp_mono; [apply quiet_attrs, Hsc|].
  intros [u|e|] w1 (Hs1 & Hnf & Hu); simpl; [| |done].
  2:{ eapply interrupted_of, progress_same; [apply Hsc|done]. }
  destruct (Hu u eq_refl) as [_ Hsel]. rewrite Hsel.
  eapply scanning_same in Hsc; [|exact Hs1].
  apply wp_bind, wp_lift. pose proof (matches_total sel (raw_event_dict r) (filterable_fields T)).
  destruct (matches sel (raw_event_dict r) (filterable_fields T)) as [[]|e|] eqn:Hmatch;
    simpl; [| |eapply interrupted_of, Hsc|done].
  - (* a match: deliver *)
    apply wp_bind, wp_bind. eapply wp_mono; [apply quiet_tell, Hsc|].
    intros [x|e|] w2 (Hs2 & Hnf2 & _); simpl; [| |done].
    2:{ eapply interrupted_of, progress_same; [apply Hsc|done]. }
    eapply scanning_same in Hsc; [|exact Hs2]. apply wp_bind.
    eapply wp_mono; [apply deliver_one_spec; [apply Hsc|done|]|].
    { destruct (sc_progress _ _ _ _ _ Hsc). lia. }
    intros [b|e|] w3 Hdel; simpl in *; [| |done].
    + destruct Hdel as (runs & Hdone & Hmv). apply wp_ret. cbn [wp_next].
      eapply wp_mono; [eapply IH, scanning_delivered; done|].
      intros [sp|e|] w4; [|done..]. intros (ds' & ? & ?). exists ds'. split; [done|lia].
    + destruct Hdel as (runs & Hpre & [Hmv|[Hdone Hmv]]).
      * by eapply scanning_interrupted.
      * eapply scanning_delivered in Hmv; [|done..]. eapply interrupted_of, Hmv.
  - (* a miss *)
    apply wp_bind. eapply wp_mono; [apply quiet_tell, Hsc|].
    intros [x|e|] w2 (Hs2 & Hnf2 & _); simpl; [| |done].
    2:{ eapply interrupted_of, progress_same; [apply Hsc|done]. }
    eapply scanning_same in Hsc; [|exact Hs2].
    eapply wp_mono; [eapply IH, scanning_miss; [done..|]|].
    + unfold hit. by rewrite Hmatch.
    + intros [sp|e|] w4; [|done..]. intros (ds' & ? & ?). exists ds'. split; [done|lia].
Qed.
End Page.

(** ** Reading the next page *)

(** A read of the topic's log that took place between [w] and [w']. *)
Definition reads (from to : option Z) (limit : Z) (w w' : W)
    (o : outcome (list EventRecord * option string)) : Prop :=
  ∃ wr t1 t2, same w wr ∧ same wr w' ∧ clk w ≤ t1 ≤ clk wr ∧ clk w ≤ t2 ≤ clk wr ∧
    o = read_result t (log_of wr) t1 t2 from to limit.

Lemma read_spec from to limit w :
  inv w → from_option (λ p, 0 ≤ p < max_offset) True from →
  from_option (λ p, 0 ≤ p < max_offset) True to → 1 ≤ limit →
  wp (run_store cfg (es_read t (cursor_text t <$> from) (cursor_text t <$> to) limit))
    (λ o w', same w w' ∧
       (reads from to limit w w' o ∨ ∃ e, o = Raise e ∧ is_a2a_error e = false)) w.
Proof.
  intros Hw Hfrom Hto Hlim.
  assert (∀ w, inv w → wp (on_store (es_read t (cursor_text t <$> from) (cursor_text t <$> to) limit))
    (λ o w', same w w' ∧
       (reads from to limit w w' o ∨ ∃ e, o = Raise e ∧ is_a2a_error e = false)) w) as Hread.
  { clear w Hw. intros w Hw. unfold on_store. apply wp_zoom.
    destruct (inv_log _ Hw) as [lg Hlg].
    destruct (es_read_law (w_store w) (w_env w) t lg from to limit)
      as (o & t1 & t2 & v' & Hle & (i1 & Hi1 & ->) & (i2 & Hi2 & ->) & Hrun & Ho);
      [apply Hw|done|done|done|done|].
    eapply wp_run_iff; [exact Hrun|]. simpl.
    match goal with |- same w ?x ∧ _ => set (wr := x) end.
    assert (same w wr) as Hs by by apply same_frame.
    split; [done|]. destruct Ho as [->|(e & -> & He)].
    2:{ right. exists e. split; [done|]. by apply es_refuses_foreign. }
    left. exists wr, (clock i1), (clock i2).
    assert (clk wr = clock (tick v')) as -> by done.
    split_and!; [done|apply same_refl, Hs|unfold clk; apply clock_mono; lia..|].
    unfold wr, log_of; simpl. by rewrite Hlg. }
  unfold run_store, offloaded. destruct (offload_store cfg).
  2:{ by apply Hread. }
  apply wp_bind. eapply wp_mono; [by apply (wb_suspend Hwb)|].
  intros [[]|e|] w1 [Hs1 Hr1]; simpl; [|naive_solver|done].
  apply wp_and_then. eapply wp_mono; [apply Hread, Hs1|].
  intros o w2 [Hs2 Hor].
  eapply wp_mono; [apply (wb_suspend Hwb), Hs2|].
  assert (same w w2) as Hs by by eapply same_trans.
  intros [[]|e|] w3 [Hs3 Hr3]; [| |done].
  2:{ split; [by apply (same_trans w w2 w3)|]. right. eauto. }
  split; [by apply (same_trans w w2 w3)|].
  destruct Hor as [(wr & t1 & t2 & Ha & Hb & Ht1 & Ht2 & Ho)|?]; [|by right].
  left. exists wr, t1, t2.
  pose proof (clk_mono w w1 (ev_env _ _ (mv_evolves _ _ _ _ Hs1))).
  split_and!; [by apply (same_trans w w1 wr)|by apply (same_trans wr w2 w3)|lia..|done].
Qed.

(** The page read at [wr], as the scan needs it. *)
Lemma read_page_of wr t1 start p limit :
  inv wr → t1 ≤ clk wr → start ≤ p → 
  (∀ r, r ∈ live_at (log_of wr) t1 → start < rec_offset r → p < rec_offset r) →
  let rs := (read_page (live_at (log_of wr) t1) start None limit).1 in
  page_of wr p rs ∧ (∀ r, r ∈ rs → p < rec_offset r) ∧
  (rs = [] → ∀ r, r ∈ log_events (log_of wr) → live r (clk wr) → rec_offset r ≤ p).
Proof.
  intros Hw Ht1 Hstart Hafter rs. destruct (inv_log _ Hw) as [lg Hlg].
  assert (log_of wr = lg) as Hl by (unfold log_of; by rewrite Hlg).
  pose proof (es_inv_wf _ _ _ (inv_store _ Hw) Hlg) as Hwf.
  assert (∀ r, r ∈ rs → r ∈ live_at (log_of wr) t1 ∧ in_range start None r) as Helem
    by (intros r; apply page_elem).
  split_and!.
  - split.
    + apply page_sorted. rewrite Hl. by eapply live_at_sorted.
    + intros r Hr. destruct (Helem r Hr) as [Hr' _]. apply live_at_elem in Hr'.
      split; [by eapply log_record|]. rewrite Hl in *. by eapply rec_offset_range.
    + intros w r y He Hw' Hr Hlive Hgt Hy Hle.
      destruct (Helem y Hy) as [Hy' _]. pose proof (live_at_elem _ _ _ Hy') as Hy''.
      assert (rec_offset y < next_offset (log_of wr)) as Hyn
        by (rewrite Hl in *; by eapply rec_offset_range).
      destruct (ev_old _ _ He r Hr) as [Hold|?]; [|lia].
      eapply page_complete; [rewrite Hl; by eapply live_at_sorted| |split; [lia|done]|done|done].
      apply live_at_iff; [done|]. split; [done|]. eapply live_mono; [done|].
      pose proof (clk_mono wr w (ev_env _ _ He)). lia.
  - intros r Hr. destruct (Helem r Hr) as [Hr' [? _]]. by apply Hafter.
  - intros Hnil r Hr Hlive. destruct (Z.le_gt_cases (rec_offset r) p) as [|Hgt]; [done|].
    exfalso. eapply (page_empty (live_at (log_of wr) t1) start None limit r Hnil).
    + apply live_at_iff; [done|]. split; [done|]. by eapply live_mono.
    + split; [lia|done].
Qed.

(** What [next_page] promises: a page read at some moment [wr] that holds what
    follows the position, or nothing live was left. *)
Definition pages (w w' : W) (rs : list EventRecord) : Prop :=
  ∃ wr, same w wr ∧ same wr w' ∧ page_of wr (pos w) rs ∧
    (∀ r, r ∈ rs → pos w < rec_offset r) ∧
    (rs = [] → ∀ r, r ∈ log_events (log_of wr) → live r (clk wr) → rec_offset r ≤ pos w).

Lemma pages_of_read from w w' o :
  inv w → reads from None (page_size cfg) w w' o → from = (if 0 <=? pos w then Some (pos w) else None) →
  match o with
  | Ret pg => pages w w' pg.1
  | Raise e => is_code CURSOR_EXPIRED e = true ∧
      ∃ wr t2, inv wr ∧ same wr w' ∧ t2 ≤ clk wr ∧ pos w < next_offset (log_of wr) ∧
        ∀ r, r ∈ live_at (log_of wr) t2 → pos w < rec_offset r
  | NoFuel => False
  end.
Proof.
  intros Hw (wr & t1 & t2 & Ha & Hb & Ht1 & Ht2 & ->) Hfrom.
  pose proof (mv_inv _ _ _ _ Ha) as Hwr. pose proof (inv_pos _ Hw) as Hp.
  assert (∀ start, start ≤ pos w → (∀ r, r ∈ live_at (log_of wr) t1 → start < rec_offset r →
     pos w < rec_offset r) → pages w w' (read_page (live_at (log_of wr) t1) start None
       (page_size cfg)).1) as Hpage.
  { intros start Hstart Hafter.
    destruct (read_page_of wr t1 start (pos w) (page_size cfg) Hwr ltac:(lia) Hstart Hafter)
      as (H3 & H4 & H5). by exists wr. }
  unfold read_result. destruct (Z.leb_spec 0 (pos w)) as [Hge|Hlt]; subst from.
  2:{ apply Hpage; [lia|]. intros; lia. }
  destruct (head (live_at (log_of wr) t2)) as [oldest|] eqn:Hhead; [|apply Hpage; [lia|done]].
  destruct (Z.ltb_spec (pos w) (rec_offset oldest)) as [Hexp|Hok]; [|apply Hpage; [lia|done]].
  split; [done|]. destruct (inv_log _ Hwr) as [lg Hlg].
  assert (log_of wr = lg) as Hl by (unfold log_of; by rewrite Hlg).
  pose proof (es_inv_wf _ _ _ (inv_store _ Hwr) Hlg) as Hwf.
  exists wr, t2. split_and!; [done|done|lia| |].
  - assert (oldest ∈ live_at (log_of wr) t2) as Ho by by apply head_Some_elem_of.
    apply live_at_elem in Ho. rewrite Hl in *. pose proof (rec_offset_range _ _ Hwf _ Ho). lia.
  - intros r Hr. pose proof (live_at_sorted t lg Hwf t2) as Hsort. rewrite <- Hl in Hsort.
    destruct (live_at (log_of wr) t2) as [|x xs]; [done|]. injection Hhead as ->.
    apply elem_of_cons in Hr as [->|Hr]; [done|]. apply StronglySorted_inv in Hsort as [_ Hall].
    rewrite Forall_forall in Hall. specialize (Hall r Hr). lia.
Qed.

Lemma next_page_spec w :
  inv w →
  wp (next_page cfg t (pos w)) (λ o w', same w w' ∧ match o with
    | Ret rs => pages w w' rs
    | Raise _ => True
    | NoFuel => False
    end) w.
Proof.
  intros Hw. pose proof (inv_pos _ Hw) as Hp. unfold next_page.
  set (from := if 0 <=? pos w then Some (pos w) else None).
  apply wp_bind. eapply (wp_run_iff _ _ w (Ret (cursor_text t <$> from)) w).
  { unfold from. destruct (Z.leb_spec 0 (pos w)); [|done].
    unfold fmap, M_fmap, lift. by rewrite encode_ok by (unfold max_offset in *; lia). }
  cbn [wp_next]. apply wp_bind, wp_try.
  eapply wp_mono; [apply (read_spec from None); [done| |done|done]|].
  { unfold from. destruct (Z.leb_spec 0 (pos w)); simpl; [lia|done]. }
  intros o w1 [Hs1 Hr].
  destruct Hr as [Hr|(e & -> & He)].
  2:{ assert (is_code CURSOR_EXPIRED e = false) as ->; [|by split].
      destruct e; [by simpl in He|done..]. }
  pose proof (pages_of_read from w w1 o Hw Hr eq_refl) as Hpg.
  destruct o as [pg|e|]; [by split| |done].
  destruct Hpg as (-> & wr & t2 & Hwr & Hs_wr & Ht2 & Hnext & Hgt).
  eapply wp_mono; [apply (read_spec None None); [apply Hs1|done..]|].
  intros o w2 [Hs2 Hr2]. assert (same w w2) as Hs by by eapply same_trans.
  destruct Hr2 as [Hr2|(e' & -> & He')]; [|by split].
  destruct Hr2 as (wr2 & t1 & t2' & Ha2 & Hb2 & Ht1 & _ & ->). simpl. split; [done|].
  pose proof (mv_inv _ _ _ _ Ha2) as Hinv2.
  exists wr2. split; [by apply (same_trans w w1 wr2)|]. split; [done|].
  apply read_page_of; [done|lia|lia|].
  intros r Hin _. apply live_at_iff in Hin as [Hin Hlive]; [|done].
  pose proof (mv_evolves _ _ _ _ (same_trans _ _ _ Hs_wr Ha2)) as Hev2.
  destruct (ev_old _ _ Hev2 r Hin) as [Hold|?]; [|lia].
  apply Hgt. apply live_at_iff; [done|]. split; [done|]. eapply live_mono; [done|].
  pose proof (clk_mono wr w1 (ev_env _ _ (mv_evolves _ _ _ _ Hs_wr))). lia.
Qed.

(** ** Rounds *)

(** The position written once per page. *)
Lemma progress_persist w0 w w' b ds :
  progress w0 w b ds [] → moves w w' b (atts w) → progress w0 w' b ds [].
Proof.
  intros [Hi He (R & HR & Ha) Hs Hd Hp Hb Hc] [Hi' He' Hp' Ha'].
  split; [done|by transitivity w| |done| |lia| |].
  - exists R. split; [done|]. by rewrite Ha', Ha.
  - intros r Hr. destruct (Hd r Hr). split; [lia|done].
  - pose proof (ev_next _ _ He'). lia.
  - by eapply (covered_later w).
Qed.

(** Every event of the log as it was at some moment since [w], still live at
    the end, lies at or before the position. *)
Definition caught_up (w w' : W) : Prop :=
  ∃ wr, evolves w wr ∧ evolves wr w' ∧
    ∀ r, r ∈ log_events (log_of wr) → live r (clk w') → rec_offset r ≤ pos w'.

Definition round_result (w0 w : W) (o : outcome (option Z)) (w' : W) : Prop :=
  match o with
  | Ret None => (∃ ds, progress w0 w' (pos w') ds []) ∧ caught_up w w'
  | Ret (Some _) => (∃ ds, progress w0 w' (pos w') ds []) ∧ pos w < pos w' < cap
  | Raise _ => interrupted w0 w'
  | NoFuel => False
  end.

Lemma round_spec w0 w ds :
  progress w0 w (pos w) ds [] →
  wp (catch_up_round cfg l t T) (λ o w', round_result w0 w o w') w.
Proof.
  intros Hpg. unfold catch_up_round.
  apply wp_bind. eapply wp_mono; [apply quiet_attrs, Hpg|].
  intros [u|e|] w1 (Hs1 & Hnf & Hu); cbn [wp_next]; [| |done].
  2:{ by eapply interrupted_of, progress_same. }
  destruct (Hu u eq_refl) as [Hid _]. rewrite Hid.
  apply wp_bind. eapply wp_mono; [apply high_water_spec, Hs1|].
  intros [hw|e|] w2 (Hs2 & Hnf2 & Hhw); cbn [wp_next]; [| |done].
  2:{ eapply interrupted_of, progress_same; [exact Hpg|]. by eapply same_trans. }
  rewrite (Hhw hw eq_refl). assert (same w w2) as Hs by by eapply same_trans.
  assert (pos w1 = pos w2) as -> by (destruct Hs2; congruence).
  assert (pos w2 = pos w) as Hpos by (destruct Hs; congruence).
  assert (progress w0 w2 (pos w2) ds []) as Hpg2 by (rewrite Hpos; by eapply progress_same).
  apply wp_bind. eapply wp_mono; [apply next_page_spec, Hs|].
  intros [rs|e|] w3 [Hs3 Hpages]; cbn [wp_next]; [| |done].
  2:{ by eapply interrupted_of, progress_same. }
  destruct Hpages as (wr & Ha & Hb & Hpage & Hafter & Hempty).
  assert (progress w0 w3 (pos w2) ds []) as Hpg3 by by eapply progress_same.
  assert (pos w3 = pos w2) as Hpos3 by (destruct Hs3; congruence).
  destruct rs as [|r0 rest].
  { apply wp_ret. split; [exists ds; by rewrite Hpos3|]. exists wr.
    split_and!; [transitivity w2; [apply Hs|apply Ha]|apply Hb|].
    intros r Hr Hlive. rewrite Hpos3. apply Hempty; [done..|].
    eapply live_mono; [done|]. apply clk_mono, Hb. }
  apply wp_bind. eapply wp_mono.
  { eapply (scan_page_spec w0 wr (pos w2) (r0 :: rest) Hpage _ [] (pos w2) 0 ds).
    split; [done|lia|constructor|apply Hb|done]. }
  intros [[scan n]|e|] w4; cbn [wp_next fst snd]; [|done..]. intros (ds' & Hsc & Hle).
  destruct Hsc as [_ _ Hall Hev4 Hpg4].
  apply wp_bind. eapply wp_mono; [apply high_water_spec, Hpg4|].
  intros [cur|e|] w5 (Hs5 & Hnf5 & Hcur); cbn [wp_next]; [| |done].
  2:{ by eapply interrupted_of, progress_same. }
  rewrite (Hcur cur eq_refl).
  assert (pos w4 = pos w5) as -> by (destruct Hs5; congruence).
  assert (progress w0 w5 scan ds' []) as Hpg5 by by eapply progress_same.
  assert (pos w < scan < cap) as Hscan.
  { apply Forall_cons in Hall as [Hr0 _]. specialize (Hafter r0 ltac:(left)).
    split; [lia|]. destruct (pg_bound _ _ _ _ _ Hpg5) as [Hle0|Hlt].
    - pose proof (pg_pos _ _ _ _ _ Hpg). lia.
    - pose proof (inv_cap _ (pg_inv _ _ _ _ _ Hpg5)). lia. }
  apply wp_bind. destruct (Z.ltb_spec (pos w5) scan) as [Hlt|Hge].
  - eapply wp_mono; [apply set_high_water_spec; [apply Hpg5|]|].
    { pose proof (inv_pos _ (pg_inv _ _ _ _ _ Hpg5)). pose proof (pg_inv _ _ _ _ _ Hpg5) as Hi.
      destruct (inv_log _ Hi) as [lg Hlg].
      pose proof (wf_next _ _ (es_inv_wf _ _ _ (inv_store _ Hi) Hlg)) as Hwn.
      destruct (pg_bound _ _ _ _ _ Hpg5) as [Hle0|Hlt0].
      - pose proof (pg_pos _ _ _ _ _ Hpg). lia.
      - unfold log_of in Hlt0. rewrite Hlg in Hlt0. simpl in Hlt0. lia. }
    intros [[]|e|] w6 Hset; cbn [wp_next]; [| |done].
    + pose proof (mv_pos _ _ _ _ Hset) as Hp6. apply wp_ret.
      split; [|lia]. exists ds'. rewrite Hp6. by eapply progress_persist.
    + destruct Hset as [Hset|Hset]; [by eapply interrupted_of, progress_same|].
      by eapply interrupted_of, progress_persist.
  - apply wp_ret. cbn [wp_next]. apply wp_ret. pose proof (pg_pos _ _ _ _ _ Hpg5) as Hp5.
    assert (pos w5 = scan) as Heq by lia. split; [|lia]. exists ds'. by rewrite Heq.
Qed.

(** ** The loop *)

Definition loop_result (w0 : W) (o : outcome Z) (w' : W) : Prop :=
  match o with
  | Ret _ => (∃ ds, progress w0 w' (pos w') ds []) ∧ caught_up w0 w'
  | Raise _ => interrupted w0 w'
  | NoFuel => ∃ ds, progress w0 w' (pos w') ds []
  end.

(** The fuel a catch-up from position [p] needs: one round per event at most,
    and one to see that nothing is left. *)
Definition enough (n : nat) (p : Z) : Prop := Z.max 0 (cap - 1 - p) < Z.of_nat n.

Lemma loop_spec n w0 w ds k :
  progress w0 w (pos w) ds [] →
  wp (catch_up_loop cfg n l t T k) (λ o w',
    loop_result w0 o w' ∧ (enough n (pos w) → o ≠ NoFuel)) w.
Proof.
  revert w ds k. induction n as [|n IH]; intros w ds k Hpg; cbn [catch_up_loop].
  { unfold no_fuel, wp. split; [by exists ds|]. unfold enough. lia. }
  apply wp_bind. eapply wp_mono; [by eapply round_spec|].
  intros [[k'|]|e|] w1 Hround; cbn [wp_next]; [| |by split|done].
  - destruct Hround as [[ds1 Hpg1] Hpos]. eapply wp_mono; [by eapply IH|].
    intros o w2 [Hres Hfuel]. split; [done|]. intros Hen. apply Hfuel. unfold enough in *. lia.
  - apply wp_ret. split; [|done]. destruct Hround as [Hpg1 (wr & He1 & He2 & Hc)].
    split; [done|]. exists wr. split_and!; [|done..]. transitivity w; [apply Hpg|done].
Qed.

Lemma catch_up_spec fuel w :
  inv w →
  wp (catch_up cfg fuel l t) (λ o w',
    loop_result w o w' ∧ (enough fuel (pos w) → o ≠ NoFuel)) w.
Proof.
  intros Hw. unfold catch_up. apply wp_bind. eapply wp_mono; [by apply quiet_topic|].
  intros [T'|e|] w1 (Hs & Hnf & HT); cbn [wp_next]; [| |done].
  2:{ split; [|done]. eapply interrupted_of, progress_same; [by apply progress_start|done]. }
  rewrite (HT T' eq_refl). assert (pos w1 = pos w) as Hp by apply Hs.
  eapply wp_mono; [eapply (loop_spec fuel w w1 [])|].
  - rewrite Hp. eapply progress_same; [by apply progress_start|done].
  - intros o w2. by rewrite Hp.
Qed.

(** ** Properties *)

(** C10: deliveries are in order and attributable: whatever happens, the attempts
    a catch-up adds are the finished deliveries of events in strictly increasing
    offset order, each matching the selector and between the old and the new
    position, followed, only if an exception cut it short, by the attempts of
    one further event. *)
Theorem catch_up_in_order fuel w o w' :
  inv w → catch_up cfg fuel l t w = (o, w') →
  ∃ ds runs tail, atts w' = atts w ++ concat runs ++ tail ∧ Forall2 complete ds runs ∧
    sorted_by rec_offset ds ∧ pos w ≤ pos w' ∧
    (∀ r, r ∈ ds → pos w < rec_offset r ≤ pos w' ∧ hit r) ∧
    (tail = [] ∨ (∃ e, o = Raise e) ∧
       ∃ r, hit r ∧ pos w' < rec_offset r ∧ prefix_from r 1 tail).
Proof.
  intros Hw Hrun. pose proof (catch_up_spec fuel w Hw) as Hspec.
  eapply wp_run_iff in Hspec as [Hres _]; [|exact Hrun].
  assert (∃ ds tail, progress w w' (pos w') ds tail ∧ (tail = [] ∨ (∃ e, o = Raise e) ∧
    ∃ r, hit r ∧ pos w' < rec_offset r ∧ prefix_from r 1 tail)) as (ds & tail & Hpg & Htail).
  { destruct o as [n|e|]; simpl in Hres.
    - destruct Hres as [[ds Hpg] _]. exists ds, []. split; [done|by left].
    - destruct Hres as (ds & tail & Hpg & Ht). exists ds, tail. split; [done|]. naive_solver.
    - destruct Hres as [ds Hpg]. exists ds, []. split; [done|by left]. }
  destruct Hpg as [_ _ (runs & HR & Ha) Hs Hd Hp _ _].
  exists ds, runs, tail. split_and!; [done..|lia|done|done].
Qed.

(** C5: no event is skipped: when a catch-up returns, every event that was in the
    log when it started, is still inside the retention window, lies beyond the
    position and matches the selector is among the events [ds] this call
    attempted in whole, and the stored position has passed every live event,
    matching or not. In whole is, without a retry queue, attempts up to one that
    delivered or dead-lettered; with one, a single attempt that delivered,
    dead-lettered or is recorded as "retry" (that an item is queued for it is
    [deliver_queued_hands_over]). Other tasks may do at every suspension what
    [well_behaved] allows: append, compact, pass time, and serve other
    subscriptions, but not move this one's position or record its attempts. *)
Theorem catch_up_loses_nothing fuel w n w' :
  inv w → catch_up cfg fuel l t w = (Ret n, w') →
  (∃ ds runs, atts w' = atts w ++ concat runs ∧ Forall2 complete ds runs ∧
     ∀ r, r ∈ log_events (log_of w) → live r (clk w') → pos w < rec_offset r → hit r → r ∈ ds) ∧
  ∀ r, r ∈ log_events (log_of w) → live r (clk w') → rec_offset r ≤ pos w'.
Proof.
  intros Hw Hrun. pose proof (catch_up_spec fuel w Hw) as Hspec.
  eapply wp_run_iff in Hspec as [Hres _]; [|exact Hrun].
  destruct Hres as [[ds Hpg] (wr & He1 & He2 & Hc)].
  assert (∀ r, r ∈ log_events (log_of w) → live r (clk w') → rec_offset r ≤ pos w') as Hall.
  { intros r Hr Hlive. apply Hc; [|done]. apply (ev_kept _ _ He1); [done|].
    eapply live_mono; [done|]. apply clk_mono, He2. }
  split; [|done]. destruct Hpg as [_ He (runs & HR & Ha) _ _ _ _ Hcov].
  exists ds, runs. split; [by rewrite Ha, (right_id_L [] (++))|]. split; [done|].
  intros r Hr Hlive Hgt Hh. apply Hcov; [by apply (ev_kept _ _ He)|done| |done].
  split; [done|by apply Hall].
Qed.

(** C7: crash safety: if an exception (a failing transport, a cancelled task)
    ends the catch-up anywhere, the stored position is not ahead of the work:
    every matching event up to it that is still live has a finished delivery
    on record, so resuming from it skips nothing. *)
Theorem catch_up_crash_safe fuel w e w' :
  inv w → catch_up cfg fuel l t w = (Raise e, w') →
  inv w' ∧ pos w ≤ pos w' ∧
  ∃ ds runs tail, atts w' = atts w ++ concat runs ++ tail ∧ Forall2 complete ds runs ∧
    ∀ r, r ∈ log_events (log_of w') → live r (clk w') → pos w < rec_offset r ≤ pos w' →
      hit r → r ∈ ds.
Proof.
  intros Hw Hrun. pose proof (catch_up_spec fuel w Hw) as Hspec.
  eapply wp_run_iff in Hspec as [Hres _]; [|exact Hrun].
  destruct Hres as (ds & tail & Hpg & _).
  destruct Hpg as [Hi _ (runs & HR & Ha) _ _ Hp _ Hcov].
  split_and!; [done|lia|]. exists ds, runs, tail. done.
Qed.

(** C11: catch-up terminates: if the topic never holds an offset beyond [cap],
    [cap - position] rounds are always enough, however the pages fall and
    whatever is appended meanwhile. *)
Theorem catch_up_terminates fuel w :
  inv w → Z.max 0 (cap - 1 - pos w) < Z.of_nat fuel →
  (catch_up cfg fuel l t w).1 ≠ NoFuel.
Proof.
  intros Hw Hfuel. pose proof (catch_up_spec fuel w Hw) as Hspec.
  apply wp_run in Hspec as [_ Hnf]. by apply Hnf.
Qed.

(** One delivery is bounded: [_deliver_one] of an event beyond the position
    either finishes (at most [max_attempts] consecutively numbered attempts, all
    but the last of them retries, or, with a retry queue, one attempt) and
    leaves the position at the event, or an exception cuts it short with the
    position unmoved or at the event after a finished delivery. *)
Lemma deliver_one_bounded r w o w' :
  inv w → in_log r → pos w < rec_offset r → deliver_one cfg l r w = (o, w') →
  match o with
  | Ret _ => ∃ runs, complete r runs ∧ pos w' = rec_offset r ∧ atts w' = atts w ++ runs
  | Raise _ => ∃ runs, prefix_from r 1 runs ∧ atts w' = atts w ++ runs ∧
      (pos w' = pos w ∨ complete r runs ∧ pos w' = rec_offset r)
  | NoFuel => False
  end.
Proof.
  intros Hw Hr Hlt Hrun. pose proof (deliver_one_spec r w Hw Hr Hlt) as Hspec.
  apply (proj1 (wp_run_iff _ _ _ _ _ Hrun)) in Hspec.
  destruct o as [b|e|]; simpl in Hspec; [| |done].
  - destruct Hspec as (runs & Hd & []). eauto.
  - destruct Hspec as (runs & Hpre & [[]|[Hd []]]); exists runs; eauto.
Qed.
End CatchUp.
