(* ===== verification/Receiver.v ===== *)
(** * The subscriber's event receiver (receiver.py)

    [EventReceiver]: the delivery token, the signature, the timestamp skew,
    deduplication by event id, the user handler, and the two framings of a
    delivery (webhook headers, A2A message). *)

From S2P Require Import Prelude PyStr Value Errors Effects Dynamic Models Contracts Base64 Canonical.
From S2P Require Import Signing.
Open Scope Z_scope.

(** [datetime.fromisoformat(s)]: [None] for [ValueError], else the wall-clock
    time in microseconds and the UTC offset, absent for a naive time. *)
Class IsoParser := { fromisoformat : string → option (Z * option Z) }.

(** The end of the year 9999. *)
Definition max_datetime : Z := 253402300800000000.

(** What the rendering of a datetime since 1970 parses to. *)
Class IsoLaws `{Platform, IsoParser} := {
  iso_parse t : 0 ≤ t < max_datetime → fromisoformat (iso_datetime t) = Some (t, Some 0);
}.

(** The instance attributes that change. [seen] is a set of hashable values. *)
Record EventReceiver := mkReceiver {
  received : list (list (string * value));
  seen : list value;
  delivery_tokens : list (string * string);
}.

Definition empty_receiver : EventReceiver := mkReceiver [] [] [].

(** The receiver, the clock, and the state [X] of the key resolver and of the
    handler. *)
Record RWorld (X : Type) := mkRWorld { rv : EventReceiver; rv_env : Env; rv_ext : X }.
Arguments mkRWorld {X}.
Arguments rv {X}.
Arguments rv_env {X}.
Arguments rv_ext {X}.

(** [DeliveryResult(ack=False, retry=False, status_code=..., reason=...)] *)
Definition refused (code_ : Z) (why : string) : DeliveryResult :=
  mkDeliveryResult false false (Some code_) (Some why).

(** [DeliveryResult(ack=True, status_code=...)] *)
Definition acked (code_ : Z) : DeliveryResult := mkDeliveryResult true true (Some code_) None.

Section Receiver.
Context {X : Type} `{Platform, Crypto, IsoParser}.
Local Abbreviation RM := (M (RWorld X)).

(** [self._key_resolver(key_id)], awaited if it is asynchronous; the handler
    [self.on_event]; [self._max_skew_seconds] in microseconds. *)
Context (key_resolver : value → RM string).
Context (on_event : option (list (string * value) → RM (option DeliveryResult))).
Context (max_skew : option Z).

Definition on_receiver (f : EventReceiver → EventReceiver) : RM unit :=
  modify (λ w, mkRWorld (f (rv w)) (rv_env w) (rv_ext w)).

(** [register_delivery_token(subscription_id, token)] *)
Definition register_delivery_token (sid token : string) : RM unit :=
  on_receiver (λ r, mkReceiver (received r) (seen r) (dict_set sid token (delivery_tokens r))).

(** [_delivery_token_ok(subscription_id, presented)] *)
Definition delivery_token_ok (sid presented : value) (r : EventReceiver) : outcome bool :=
  match sid with
  | VStr s =>
      match dict_get s (delivery_tokens r) with
      | None => mret true
      | Some token => mret (py_eq presented (VStr token))
      end
  | VList _ | VDict _ => Raise unhashable
  | _ => mret true
  end.

(** [_within_skew(timestamp)] *)
Definition within_skew (timestamp : string) : RM bool :=
  match max_skew with
  | None => mret true
  | Some skew =>
      match fromisoformat timestamp with
      | None => mret false
      | Some (wall, offset) =>
          n ← zoom rv_env (λ v w, mkRWorld (rv w) v (rv_ext w)) now;
          mret (Z.abs (n - (wall - default 0 offset)) <=? skew)
      end
  end.

(** [verify(public_key, timestamp, event, signature)] on whatever came in: a
    signature or a timestamp that is not a string has no [startswith] or
    [encode], and the signature is looked at first. *)
Definition verify_any (pub : string) (timestamp : value) (event : list (string * value))
    (signature : value) : outcome bool :=
  match signature, timestamp with
  | VStr s, VStr t => verify pub t event s
  | VStr s, _ =>
      match b64url_decode (strip_prefix s) with
      | Raise (ValueError _) => mret false
      | Raise e => Raise e
      | _ => Raise no_attribute
      end
  | _, _ => Raise no_attribute
  end.

(** [event_id in self._seen] *)
Definition seen_before (event_id : value) (r : EventReceiver) : bool :=
  existsb (py_eq event_id) (seen r).

(** [self._seen.add(event_id); self.received.append(event)] *)
Definition take_in (event_id : value) (event : list (string * value)) : RM unit :=
  on_receiver (λ r, mkReceiver (received r ++ [event])
    (if seen_before event_id r then seen r else seen r ++ [event_id]) (delivery_tokens r)).

(** The end of [accept], once the event is known to be genuine and fresh. *)
Definition process (event : list (string * value)) : RM DeliveryResult :=
  let event_id := default VNone (dict_get "id"%string event) in
  if negb (truthy event_id) then mret (refused 400 "event has no id")
  else if negb (hashable event_id) then raise unhashable
  else
    w ← get_state;
    if seen_before event_id (rv w) then mret (acked 200)
    else
      override ← match on_event with Some f => f event | None => mret None end;
      match override with
      | Some res =>
          _ ← (if ack res then take_in event_id event else mret tt);
          mret res
      | None => _ ← take_in event_id event; mret (acked 204)
      end.

(** The timestamp as the text that [verify] has already required it to be. *)
Definition text_of (v : value) : string := match v with VStr s => s | _ => EmptyString end.

(** [accept(event, key_id, timestamp, signature, delivery_token)] *)
Definition accept (event key_id timestamp signature delivery_token : value) : RM DeliveryResult :=
  match event with
  | VDict ev =>
      let sid := default VNone (dict_get "a2asubscription"%string ev) in
      w ← get_state;
      ok ← lift (delivery_token_ok sid delivery_token (rv w));
      if negb ok then mret (refused 401 "bad delivery token") else
      k ← try_except (Some <$> key_resolver key_id)
            (λ e, match e with KeyError _ => Some (mret None) | _ => None end);
      match k with
      | None => mret (refused 401 "unknown signing key")
      | Some public_key =>
          good ← lift (verify_any public_key timestamp ev signature);
          if negb good then mret (refused 401 "bad signature") else
          fresh ← within_skew (text_of timestamp);
          if negb fresh then mret (refused 403 "timestamp out of skew") else
          process ev
      end
  | _ => raise no_attribute
  end.

(** [{k.lower(): v for k, v in headers.items()}] *)
Definition lower_keys (headers : list (string * string)) : list (string * string) :=
  foldl (λ d kv, dict_set (lower kv.1) kv.2 d) [] headers.

Definition header (h : list (string * string)) (k : string) : string :=
  default EmptyString (dict_get k h).

(** [accept_webhook(headers, body)] *)
Definition accept_webhook (headers : list (string * string)) (body : value) : RM DeliveryResult :=
  let h := lower_keys headers in
  let '(scheme, token) := partition_on space (header h "authorization") in
  accept body (VStr (header h "a2a-event-key-id")) (VStr (header h "a2a-event-timestamp"))
    (VStr (header h "a2a-event-signature"))
    (if bool_decide (lower scheme = "bearer"%string) then VStr (strip token) else VNone).

(** The lookups of [accept_a2a_message]: the event and the metadata. *)
Definition open_envelope (message : value) : outcome (value * value) :=
  msg ← get_item message "message";
  parts ← get_item msg "parts";
  part ← first_item parts;
  event ← get_item part "data";
  metadata ← get_item msg "metadata";
  meta ← get_item metadata EXTENSION_URI;
  mret (event, meta).

(** [accept_a2a_message(message)] *)
Definition accept_a2a_message (message : value) : RM DeliveryResult :=
  match open_envelope message with
  | Raise e => if is_lookup_error e then mret (refused 400 "malformed envelope") else raise e
  | NoFuel => no_fuel
  | Ret (event, meta) =>
      key_id ← lift (get_attr meta "keyId" (VStr EmptyString));
      timestamp ← lift (get_attr meta "timestamp" (VStr EmptyString));
      signature ← lift (get_attr meta "signature" (VStr EmptyString));
      token ← lift (get_attr meta "deliveryToken" VNone);
      accept event key_id timestamp signature token
  end.
End Receiver.

(** ** What a receiver has processed *)

Definition event_key (ev : list (string * value)) : value :=
  default VNone (dict_get "id"%string ev).

(** One delivery as it arrives. *)
Inductive arrival :=
| Webhook (headers : list (string * string)) (body : value)
| Message (message : value).

(** The event an arrival carries. *)
Definition carried (a : arrival) : option (list (string * value)) :=
  match a with
  | Webhook _ (VDict ev) => Some ev
  | Webhook _ _ => None
  | Message m => match open_envelope m with Ret (VDict ev, _) => Some ev | _ => None end
  end.

Section Processing.
Context {X : Type} `{Platform, Crypto, IsoParser}.
Context (key_resolver : value → M (RWorld X) string).
Context (on_event : option (list (string * value) → M (RWorld X) (option DeliveryResult))).
Context (max_skew : option Z).

Definition arrive (a : arrival) : M (RWorld X) DeliveryResult :=
  match a with
  | Webhook headers body => accept_webhook key_resolver on_event max_skew headers body
  | Message m => accept_a2a_message key_resolver on_event max_skew m
  end.

(** Arrivals one after the other; an exception ends only its own. *)
Fixpoint arrive_all (l : list arrival) (w : RWorld X)
    : list (outcome DeliveryResult) * RWorld X :=
  match l with
  | [] => ([], w)
  | a :: l' =>
      let '(r, w1) := arrive a w in
      let '(rs, w2) := arrive_all l' w1 in (r :: rs, w2)
  end.

(** The keys the resolver stands for. *)
Context (trusted : value → string → Prop).

(** [ev] carries a signature of a trusted key. *)
Definition genuine (ev : list (string * value)) : Prop :=
  ∃ kid pub timestamp sig, trusted kid pub ∧ verify pub timestamp ev sig = Ret true.

(** The set of seen ids is that of the processed events, no two of them
    equal, and every processed event is genuine. *)
Record receiver_inv (r : EventReceiver) : Prop := {
  ri_seen : seen r = event_key <$> received r;
  ri_distinct : StronglySorted (λ x y, py_eq y x = false) (seen r);
  ri_genuine : Forall genuine (received r);
}.

(** While a key is being fetched other deliveries may be processed; the
    handler leaves the receiver alone. *)
Context (resolver_ok : ∀ kid w, receiver_inv (rv w) →
  wp (key_resolver kid) (λ r w', receiver_inv (rv w') ∧ seen (rv w) `prefix_of` seen (rv w') ∧
    ∀ pub, r = Ret pub → trusted kid pub) w).
Context (handler_ok : ∀ f ev w, on_event = Some f → wp (f ev) (λ _ w', rv w' = rv w) w).

(** [ev] is among the processed events, by its id. *)
Definition processed (r : EventReceiver) (ev : list (string * value)) : Prop :=
  ∃ y, y ∈ seen r ∧ (y = event_key ev ∨ py_eq (event_key ev) y = true).

(** The effect of one arrival of [ev]. *)
Definition arrives (ev : option (list (string * value))) (w : RWorld X)
    (r : outcome DeliveryResult) (w' : RWorld X) : Prop :=
  receiver_inv (rv w') ∧ seen (rv w) `prefix_of` seen (rv w') ∧
  ∀ res, r = Ret res → ack res = true → ∃ e, ev = Some e ∧ processed (rv w') e.

Lemma arrives_here ev w r :
  receiver_inv (rv w) → (∀ res, r = Ret res → ack res = false) → arrives ev w r w.
Proof. intros Hw Hr. split_and!; [done..|]. intros res E Hack. apply Hr in E. congruence. Qed.

Lemma arrives_later ev w w1 r w2 :
  seen (rv w) `prefix_of` seen (rv w1) → arrives ev w1 r w2 → arrives ev w r w2.
Proof. intros Hp (Hi & Hp' & Ha). split_and!; [done|by etrans|done]. Qed.

Lemma processed_later r r' ev : seen r `prefix_of` seen r' → processed r ev → processed r' ev.
Proof. intros [l E] (y & Hy & Ho). exists y. rewrite E. split; [by apply elem_of_app; left|done]. Qed.

(** Taking in a genuine event whose id is new. *)
Lemma take_in_run ev w :
  receiver_inv (rv w) → genuine ev → seen_before (event_key ev) (rv w) = false →
  ∃ w', take_in (event_key ev) ev w = (Ret tt, w') ∧ ∀ res, arrives (Some ev) w (Ret res) w'.
Proof.
  intros [Hs Hd Hg] Hev Hnew. eexists. split; [done|]. intros res.
  unfold arrives. simpl. rewrite Hnew. split_and!.
  - split; simpl.
    + by rewrite fmap_app, Hs.
    + apply StronglySorted_app. split_and!; [|done|repeat constructor].
      intros x y Hx Hy. apply list_elem_of_singleton in Hy as ->.
      destruct (py_eq (event_key ev) x) eqn:E; [|done].
      assert (seen_before (event_key ev) (rv w) = true) as Hc; [|congruence].
      apply existsb_exists. exists x. split; [by apply list_elem_of_In in Hx|done].
    + apply Forall_app. split; [done|by constructor].
  - by exists [event_key ev].
  - intros _ _ _. exists ev. split; [done|]. exists (event_key ev). split; [set_solver|by left].
Qed.

Lemma process_spec ev w :
  receiver_inv (rv w) → genuine ev →
  wp (process on_event ev) (λ r w', arrives (Some ev) w r w') w.
Proof.
  intros Hw Hev. unfold process. fold (event_key ev).
  destruct (truthy (event_key ev)); simpl; [|by wp_steps; apply arrives_here; [|intros ? [= <-]]].
  destruct (hashable (event_key ev)); simpl; [|by wp_steps; apply arrives_here].
  wp_steps. destruct (seen_before (event_key ev) (rv w)) eqn:Hseen.
  - wp_steps. split_and!; [done..|]. intros ? [= <-] _. exists ev. split; [done|].
    apply existsb_exists in Hseen as (y & Hy & E). exists y.
    split; [by apply list_elem_of_In|by right].
  - wp_step. assert (wp (match on_event with Some f => f ev | None => mret None end)
      (λ _ w', rv w' = rv w) w) as Hh.
    { destruct on_event as [f|] eqn:E; [by eapply handler_ok|done]. }
    eapply wp_mono; [exact Hh|]. intros [o|e|] w1 Hrv; simpl.
    2,3: by unfold arrives; rewrite Hrv; apply arrives_here.
    assert (arrives (Some ev) w1 = arrives (Some ev) w) as Hsame.
    { unfold arrives. by rewrite Hrv. }
    destruct (take_in_run ev w1) as (w2 & Hrun & Hin); [by rewrite ?Hrv..|].
    rewrite <- Hsame. destruct o as [res|]; [destruct (ack res) eqn:Hack|].
    + apply wp_bind, (proj2 (wp_run_iff _ _ _ _ _ Hrun)), Hin.
    + wp_steps. apply arrives_here; [by rewrite Hrv|]. by intros ? [= <-].
    + apply wp_bind, (proj2 (wp_run_iff _ _ _ _ _ Hrun)), Hin.
Qed.

Lemma verify_any_genuine kid pub timestamp ev signature :
  trusted kid pub → verify_any pub timestamp ev signature = Ret true → genuine ev.
Proof.
  intros Ht. unfold verify_any. destruct signature as [| | | |s| |]; try done.
  destruct timestamp as [| | | |ts| |]; try (by destruct (b64url_decode _) as [|[]|]).
  intros. by exists kid, pub, ts, s.
Qed.

(** [within_skew] reads the clock and nothing else. *)
Lemma within_skew_spec timestamp (w : RWorld X) :
  wp (within_skew max_skew timestamp) (λ r w', rv w' = rv w ∧ ∃ b, r = Ret b) w.
Proof.
  unfold within_skew. destruct max_skew; [|by wp_steps; eauto].
  destruct (fromisoformat timestamp) as [[wall o]|]; [|by wp_steps; eauto].
  split; [done|by eexists].
Qed.

Lemma accept_spec ev key_id timestamp signature token w :
  receiver_inv (rv w) →
  wp (accept key_resolver on_event max_skew (VDict ev) key_id timestamp signature token)
     (λ r w', arrives (Some ev) w r w') w.
Proof.
  intros Hw. unfold accept. wp_steps.
  destruct (delivery_token_ok _ _ _) as [[]|e|]; simpl.
  2:{ wp_steps. apply arrives_here; [done|]. by intros ? [= <-]. }
  2,3: by apply arrives_here.
  wp_steps. eapply wp_mono; [by apply resolver_ok|]. intros r w1 (Hw1 & Hpre & Htrust).
  destruct r as [pub|e|]; simpl.
  2:{ destruct e; simpl; try (by apply (arrives_later _ _ w1), arrives_here);
      by wp_steps; apply (arrives_later _ _ w1), arrives_here; [..|intros ? [= <-]]. }
  2: by apply (arrives_later _ _ w1), arrives_here.
  wp_steps. destruct (verify_any pub timestamp ev signature) as [good|e|] eqn:Hv; simpl.
  2,3: by apply (arrives_later _ _ w1), arrives_here.
  destruct good; simpl.
  2:{ by wp_steps; apply (arrives_later _ _ w1), arrives_here; [..|intros ? [= <-]]. }
  wp_step. eapply wp_mono; [apply within_skew_spec|]. intros r w2 (Hrv & b & ->). simpl.
  assert (seen (rv w) `prefix_of` seen (rv w2)) as Hpre2 by by rewrite Hrv.
  assert (receiver_inv (rv w2)) as Hw2 by by rewrite Hrv.
  destruct b; simpl.
  2:{ by wp_steps; apply (arrives_later _ _ w2), arrives_here; [..|intros ? [= <-]]. }
  eapply wp_mono.
  - apply process_spec; [done|]. eapply verify_any_genuine; [by apply Htrust|done].
  - intros r w3. by apply arrives_later.
Qed.

Lemma accept_any_spec event key_id timestamp signature token w :
  receiver_inv (rv w) →
  wp (accept key_resolver on_event max_skew event key_id timestamp signature token)
     (λ r w', arrives (match event with VDict ev => Some ev | _ => None end) w r w') w.
Proof.
  intros Hw. destruct event; try (by apply arrives_here). by apply accept_spec.
Qed.

Lemma arrive_spec a w : receiver_inv (rv w) → wp (arrive a) (λ r w', arrives (carried a) w r w') w.
Proof.
  intros Hw. destruct a as [headers body|message]; simpl.
  - unfold accept_webhook. destruct (partition_on _ _) as [scheme token].
    by apply accept_any_spec.
  - unfold accept_a2a_message. destruct (open_envelope message) as [[event meta]|e|].
    + destruct meta as [| | | | | |d]; try (by apply arrives_here).
      by wp_steps; apply accept_any_spec.
    + destruct (is_lookup_error e); [|by apply arrives_here].
      apply arrives_here; [done|]. by intros ? [= <-].
    + by apply arrives_here.
Qed.

(** C13: a receiver processes each event exactly once, and only genuine ones.
    Whatever arrives, in either framing, well formed or not, with other
    deliveries processed while a key is being fetched: the processed events carry
    pairwise different ids and signatures of keys the resolver vouches for, and
    every arrival that was acknowledged carries an event that is among them. *)
Theorem processed_exactly_once arrivals w :
  receiver_inv (rv w) →
  let '(results, w') := arrive_all arrivals w in
  receiver_inv (rv w') ∧
  Forall2 (λ a r, ∀ res, r = Ret res → ack res = true →
    ∃ ev, carried a = Some ev ∧ processed (rv w') ev) arrivals results.
Proof.
  cut (receiver_inv (rv w) → let '(results, w') := arrive_all arrivals w in
    (receiver_inv (rv w') ∧ seen (rv w) `prefix_of` seen (rv w')) ∧
    Forall2 (λ a r, ∀ res, r = Ret res → ack res = true →
      ∃ ev, carried a = Some ev ∧ processed (rv w') ev) arrivals results).
  { intros Hc Hw. specialize (Hc Hw). destruct (arrive_all arrivals w). tauto. }
  revert w. induction arrivals as [|a l IH]; intros w Hw; simpl; [done|].
  pose proof (arrive_spec a w Hw) as Ha. unfold wp in Ha.
  destruct (arrive a w) as [r w1]. destruct Ha as (Hw1 & Hp1 & Hack).
  specialize (IH w1 Hw1). destruct (arrive_all l w1) as [rs w2].
  destruct IH as [[Hw2 Hp2] HF]. split; [split; [done|by etrans]|].
  constructor; [|done]. intros res E Hres. destruct (Hack res E Hres) as (ev & He & Hev).
  exists ev. split; [done|]. by eapply processed_later.
Qed.
End Processing.
