(* ===== verification/Footprint.v ===== *)
(** * The footprint of a catch-up

    What [_catch_up] of a subscription touches, as a list of primitive steps,
    those of a single delivery first, and the rule that goes with it: an invariant of the world and a relation
    between its states that the steps preserve are preserved by the whole
    catch-up, however it ends. [Bystander] uses it for what other subscriptions
    see, [EndToEnd] for what the subscriber has. *)

From S2P Require Import Prelude PyStr Value Errors Effects Models Base64 Cursor Selectors.
From S2P Require Import Canonical Signing Limits Observability Auth Ssrf Contracts Publisher CatchUp.
Open Scope Z_scope.

Section Footprint.
Context {E S Q : Type} `{!EventStore E, !SubscriptionStore S, !RetryQueue Q}.
Context `{!Platform, !Crypto, !Hmac, !Net}.
Context `{!Async (World E S Q)} (cfg : PublisherConfig).

Local Abbreviation W := (World E S Q).
Local Abbreviation PM := (M W).

(** The invariant, how the world may change, and what an acknowledgement of an
    event establishes. *)
Context (J : W → Prop) (R : relation W) (D : EventRecord → W → Prop).
Context `{!PreOrder R} (D_later : ∀ r w w', D r w → R w w' → D r w').

Definition stays_at {A} (P : A → Prop) (w : W) (o : outcome A) (w' : W) : Prop :=
  J w' ∧ R w w' ∧ ∀ a, o = Ret a → P a.
Definition stays {A} (m : PM A) (P : A → Prop) : Prop := ∀ w, J w → wp m (stays_at P w) w.

Definition anything {A} (_ : A) : Prop := True.

Lemma stays_ret {A} (a : A) (P : A → Prop) : P a → stays (mret a) P.
Proof. intros HP w Hw. apply wp_ret. split_and!; [done|done|naive_solver]. Qed.
Lemma stays_raise {A} e (P : A → Prop) : stays (raise e) P.
Proof. intros w Hw. apply wp_raise. by split_and!. Qed.
Lemma stays_no_fuel {A} (P : A → Prop) : stays no_fuel P.
Proof. intros w Hw. by split_and!. Qed.
Lemma stays_lift {A} (o : outcome A) (P : A → Prop) : (∀ a, o = Ret a → P a) → stays (lift o) P.
Proof. intros HP w Hw. apply wp_lift. by split_and!. Qed.

Lemma stays_weaken {A} (m : PM A) (P P' : A → Prop) :
  stays m P → (∀ a, P a → P' a) → stays m P'.
Proof.
  intros Hm HP w Hw. eapply wp_mono; [by apply Hm|]. intros o w' (? & ? & ?). split_and!; auto.
Qed.

(** Sequencing, from one state. *)
Lemma stays_then {A B} (m : PM A) (k : A → PM B) P P' w :
  wp m (stays_at P w) w →
  (∀ a w', P a → J w' → R w w' → wp (k a) (stays_at P' w') w') →
  wp (m ≫= k) (stays_at P' w) w.
Proof.
  intros Hm Hk. apply wp_bind. eapply wp_mono; [exact Hm|].
  intros [a|e|] w1 (Hj & Hr & HP); simpl; [|by split_and!..].
  eapply wp_mono; [apply Hk; [by apply HP|done..]|]. intros o w2 (Hj2 & Hr2 & HP2).
  split_and!; [done|by transitivity w1|done].
Qed.

Lemma stays_bind {A B} (m : PM A) (k : A → PM B) P P' :
  stays m P → (∀ a, P a → stays (k a) P') → stays (m ≫= k) P'.
Proof. intros Hm Hk w Hw. eapply stays_then; [by apply Hm|]. intros. by apply Hk. Qed.

Lemma stays_try {A} (m : PM A) h P :
  stays m P → (∀ e m', h e = Some m' → stays m' P) → stays (try_except m h) P.
Proof.
  intros Hm Hh w Hw. apply wp_try. eapply wp_mono; [by apply Hm|].
  intros [a|e|] w1 (Hj & Hr & HP); [by split_and!| |by split_and!].
  destruct (h e) as [m'|] eqn:He; [|by split_and!].
  eapply wp_mono; [by eapply Hh|]. intros o w2 (? & ? & ?). split_and!; [done|by transitivity w1|done].
Qed.

Lemma stays_offloaded {A} (m : PM A) P :
  stays suspend anything → stays m P → stays (offloaded cfg m) P.
Proof.
  intros Hs Hm. unfold offloaded. destruct (offload_store cfg); [|done].
  eapply stays_bind; [exact Hs|]. intros _ _ w Hw. apply wp_and_then.
  eapply wp_mono; [by apply Hm|]. intros o w1 (Hj1 & Hr1 & HP).
  eapply wp_mono; [by apply Hs|].
  intros [u|e|] w2 (Hj2 & Hr2 & _); (split_and!; [done|by transitivity w1|done]).
Qed.

(** The steps of a catch-up of subscription [sid], object [l], topic [t]. *)
Context (sid : string) (l : loc) (t : string).

Definition in_bounds (n : Z) : Prop := -1 ≤ n < max_offset.

Record footprint : Prop := {
  fp_attrs : stays (attrs l) (λ u, subscription_id u = sid);
  fp_tell : ∀ c, stays (tell c) anything;
  fp_env : ∀ A (m : M Env A), (∀ v, ∃ a v', m v = (Ret a, v') ∧ env_le v v') →
    stays (on_env m) anything;
  fp_send : ∀ r n w, in_log t r → J w →
    wp (attempt_send cfg l r n) (λ o w', J w' ∧ R w w' ∧
      ∀ res, o = Ret res → ack res = true → D r w') w;
  fp_record : ∀ r n st res w, in_log t r → J w → (st = "delivered"%string → D r w) →
    wp (record_attempt cfg l r n st res) (stays_at anything w) w;
  fp_high_water :
    stays (run_subs cfg (ss_high_water sid)) (λ hw, in_bounds (position_of hw t));
  fp_set : ∀ n, in_bounds n → stays (run_subs cfg (ss_set_high_water sid t n)) anything;
  fp_ack : ∀ i c, stays (run_subs cfg (ss_record_ack sid i c)) anything;
  fp_cursor : ∀ c, stays (assign l (λ u, with_cursors (dict_set t c (cursors u)) u)) anything;
  fp_update : stays (run_subs cfg (ss_update l)) anything;
}.
Context (F : footprint).

Lemma stays_advance r :
  in_log t r → stays (advance cfg l t (ev_cursor r) (Some (event_id r))) anything.
Proof.
  intros [Ht Hcur Hoff Hrange]. unfold advance.
  eapply stays_bind; [apply (fp_attrs F)|]. intros u _.
  eapply (stays_bind _ _ anything).
  { destruct (match dict_get t (cursors u) with Some c => _ | None => _ end); [|by apply stays_ret].
    eapply stays_bind; [apply (fp_cursor F)|]. intros _ _. apply (fp_update F). }
  intros _ _. rewrite Hoff.
  eapply (stays_bind _ _ (λ n, n = rec_offset r)); [apply stays_lift; naive_solver|]. intros n ->.
  eapply stays_bind; [apply (fp_attrs F)|]. intros u' ->.
  eapply stays_bind; [apply (fp_high_water F)|]. intros hw _.
  eapply (stays_bind _ _ anything).
  { destruct (_ <? _); [|by apply stays_ret]. apply (fp_set F). unfold in_bounds. lia. }
  intros _ _. eapply (stays_bind _ _ (λ i, i = Some (event_id r))); [by apply stays_ret|].
  intros _ ->. apply (fp_ack F).
Qed.

Lemma stays_on_delivered r n res w :
  in_log t r → J w → D r w → wp (on_delivered cfg l r n res) (stays_at anything w) w.
Proof.
  intros Hr Hw Hd. unfold on_delivered. eapply stays_then; [by apply (fp_record F)|].
  intros _ w1 _ Hw1 _.
  assert (stays (on_env now ≫= λ n, tell (Observe "delivery_latency_seconds" (n - ev_created_at r)
    [("topic"%string, ev_topic r)]) ≫= λ _, advance cfg l (ev_topic r) (ev_cursor r)
      (Some (event_id r))) anything) as Hk; [|by apply Hk].
  eapply stays_bind; [apply (fp_env F), now_draws|]. intros now_ _.
  eapply stays_bind; [apply (fp_tell F)|]. intros _ _. rewrite (il_topic _ _ Hr).
  by apply stays_advance.
Qed.

Lemma stays_hand_off r : in_log t r → stays (hand_off cfg l r) anything.
Proof.
  intros [Ht Hcur Hoff Hrange]. unfold hand_off. rewrite Hoff, Ht.
  eapply (stays_bind _ _ (λ n, n = rec_offset r)); [apply stays_lift; naive_solver|]. intros n ->.
  eapply stays_bind; [apply (fp_attrs F)|]. intros u ->. apply (fp_set F). unfold in_bounds. lia.
Qed.

(** An attempt that is not a success. *)
Lemma stays_record r n st res :
  in_log t r → st ≠ "delivered"%string → stays (record_attempt cfg l r n st res) anything.
Proof. intros Hr Hst w Hw. by apply (fp_record F). Qed.

Lemma stays_on_terminal r n res : in_log t r → stays (on_terminal cfg l r n res) anything.
Proof.
  intros Hr. unfold on_terminal. eapply stays_bind; [by apply stays_record|].
  intros _ _. by apply stays_hand_off.
Qed.

(** A send, then what depends on its result. *)
Lemma stays_after_send {A} r n (k : DeliveryResult → PM A) P :
  in_log t r →
  (∀ res w, J w → (ack res = true → D r w) → wp (k res) (stays_at P w) w) →
  stays (attempt_send cfg l r n ≫= k) P.
Proof.
  intros Hr Hk w Hw. apply wp_bind. eapply wp_mono; [by apply (fp_send F)|].
  intros [res|e|] w1 (Hj & HR & Hd); simpl; [|by split_and!..].
  eapply wp_mono; [apply Hk; [done|by apply Hd]|]. intros o w2 (Hj2 & HR2 & HP).
  split_and!; [done|by transitivity w1|done].
Qed.

Lemma stays_delivered_then r n res w (b : bool) :
  in_log t r → J w → D r w →
  wp (on_delivered cfg l r n res ≫= λ _, mret b) (stays_at anything w) w.
Proof.
  intros Hr Hw Hd. eapply stays_then; [by apply stays_on_delivered|].
  intros _ w1 _ Hw1 _. by apply stays_ret.
Qed.

Lemma stays_terminal_then r n res (b : bool) :
  in_log t r → stays (on_terminal cfg l r n res ≫= λ _, mret b) anything.
Proof.
  intros Hr. eapply stays_bind; [by apply stays_on_terminal|]. intros _ _. by apply stays_ret.
Qed.

(** ** A redelivery

    Of an item about [t], once its subscription is found. *)

(** What enqueuing guarantees of an item. *)
Record item_ok (i : RetryItem) : Prop := {
  io_topic : ri_topic i ≠ EmptyString;
  io_cursor : ∃ o, ri_cursor i = cursor_text (ri_topic i) o ∧ 0 ≤ o < max_offset;
}.

Section Redelivery.
Context (i : RetryItem) (item_topic : ri_topic i = t) (Hi : item_ok i).
Context (fp_read : ∀ from to limit,
  from_option (λ p, 0 ≤ p < max_offset) True from →
  from_option (λ p, 0 ≤ p < max_offset) True to → 1 ≤ limit →
  stays (run_store cfg (es_read t (cursor_text t <$> from) (cursor_text t <$> to) limit))
    (λ p, Forall (in_log t) p.1)).
Context (fp_complete : stays (run_queue cfg (rq_complete (retry_id i))) anything).
Context (fp_reschedule : ∀ at_ n e,
  stays (run_queue cfg (rq_reschedule (retry_id i) at_ n e)) anything).

Local Abbreviation drop := (run_queue cfg (rq_complete (retry_id i))).
Local Abbreviation this_attempt := (ri_attempt i + 1).

(** The look for the item's event. *)
Lemma stays_record_at : stays (record_at cfg t (ri_cursor i)) (from_option (in_log t) True).
Proof.
  destruct Hi as [Htopic (o & Ho & Hrange)]. rewrite item_topic in *.
  unfold record_at. rewrite Ho, offset_of_text by done.
  eapply (stays_bind _ _ (λ n, n = o)); [apply stays_lift; naive_solver|]. intros n ->.
  set (from := if 0 <? o then Some (o - 1) else None).
  assert (from_option (λ p, 0 ≤ p < max_offset) True from) as Hfrom
    by (unfold from; destruct (Z.ltb_spec 0 o); simpl; [lia|done]).
  eapply (stays_bind _ _ (λ c, c = cursor_text t <$> from)).
  { unfold from. destruct (Z.ltb_spec 0 o); [|by apply stays_ret].
    rewrite encode_ok by lia. by apply stays_ret. }
  intros c ->.
  assert (∀ from', from_option (λ p, 0 ≤ p < max_offset) True from' →
    stays (run_store cfg (es_read t (cursor_text t <$> from') (Some (cursor_text t o)) 1) ≫=
           λ p, mret (Some p.1)) (from_option (Forall (in_log t)) True)) as Hone.
  { intros from' Hf. eapply stays_bind; [by apply (fp_read from' (Some o) 1)|].
    intros p Hp. by apply stays_ret. }
  eapply stays_bind.
  - apply stays_try; [by apply Hone|]. intros e m' He. destruct (is_a2a_error e); [|done].
    destruct (is_code _ e); injection He as <-; [|by apply stays_ret].
    apply stays_try; [by apply (Hone None)|]. intros e' m' He'.
    destruct (is_a2a_error e'); [|done]. injection He' as <-. by apply stays_ret.
  - intros [[|r rs]|] Hrs; [by apply stays_ret| |by apply stays_ret].
    apply Forall_cons in Hrs as [Hr _]. eapply (stays_bind _ _ anything); [by apply stays_lift|].
    intros n _. destruct (n =? o); by apply stays_ret.
Qed.

Lemma stays_redelivery :
  stays (redeliver cfg i l) anything.
Proof.
  unfold redeliver. rewrite item_topic. eapply stays_bind; [apply (fp_attrs F)|]. intros u _.
  destruct (negb _); [done|].
  eapply stays_bind; [exact stays_record_at|]. intros [r|] Hr; [|done]. simpl in Hr.
  apply stays_after_send; [done|]. intros res w Hw Hd. destruct (ack res) eqn:Hack.
  { eapply stays_then; [apply stays_on_delivered; [done|done|by apply Hd]|].
    intros _ w1 _ Hw1 _. by apply fp_complete. }
  destruct (negb (retry res) || _).
  { assert (stays (on_terminal cfg l r this_attempt res ≫= λ _, drop) anything) as Hk; [|by apply Hk].
    eapply stays_bind; [by apply stays_on_terminal|]. by intros _ _. }
  match goal with |- wp ?m _ _ => assert (stays m anything) as Hk; [|by apply Hk] end.
  eapply stays_bind; [by apply stays_record|]. intros _ _.
  eapply stays_bind; [apply (fp_env F), now_draws|]. intros n _. apply fp_reschedule.
Qed.
End Redelivery.

(** ** A catch-up *)

Record paging : Prop := {
  fp_topic : stays (get_topic cfg t) anything;
  fp_page : ∀ p, in_bounds p → stays (next_page cfg t p) (Forall (in_log t));
  fp_enqueue : ∀ i, stays (run_queue cfg (rq_enqueue i)) anything;
  fp_sleep : ∀ d, stays (sleep d) anything;
}.
Context (G : paging).

Lemma stays_deliver_loop n k r : in_log t r → stays (deliver_loop cfg n k l r) anything.
Proof.
  intros Hr. revert k. induction n as [|n IH]; intros k; cbn [deliver_loop].
  { by apply stays_ret. }
  apply stays_after_send; [done|]. intros res w Hw Hd.
  destruct (ack res) eqn:Hack; [by apply stays_delivered_then; [..|apply Hd]|].
  destruct (negb (retry res) || _); [by apply stays_terminal_then|].
  assert (stays (record_attempt cfg l r k "retry" res ≫= λ _, sleep (backoff_delay cfg k) ≫= λ _,
    deliver_loop cfg n (k + 1) l r) anything) as Hk; [|by apply Hk].
  eapply stays_bind; [by apply stays_record|]. intros _ _.
  eapply stays_bind; [apply (fp_sleep G)|]. intros _ _. apply IH.
Qed.

Lemma stays_deliver_queued r : in_log t r → stays (deliver_queued cfg l r) anything.
Proof.
  intros Hr. unfold deliver_queued. apply stays_after_send; [done|]. intros res w Hw Hd.
  destruct (ack res) eqn:Hack; [by apply stays_delivered_then; [..|apply Hd]|].
  destruct (negb (retry res) || _); [by apply stays_terminal_then|].
  match goal with |- wp ?m _ _ => assert (stays m anything) as Hk; [|by apply Hk] end.
  eapply stays_bind; [by apply stays_record|]. intros _ _.
  eapply stays_bind; [apply (fp_env F), retry_id_draws|]. intros rid _.
  eapply stays_bind; [apply (fp_attrs F)|]. intros u _.
  eapply stays_bind; [apply (fp_env F), now_draws|]. intros n _.
  eapply stays_bind; [apply (fp_enqueue G)|]. intros _ _.
  eapply stays_bind; [by apply stays_hand_off|]. intros _ _. by apply stays_ret.
Qed.

Lemma stays_deliver_one r : in_log t r → stays (deliver_one cfg l r) anything.
Proof.
  intros Hr. unfold deliver_one. destruct (retry_queue cfg);
    [by apply stays_deliver_queued|by apply stays_deliver_loop].
Qed.

Lemma stays_scan_page T rs scan n :
  Forall (in_log t) rs → in_bounds scan →
  stays (scan_page cfg l T rs scan n) (λ sp, in_bounds sp.1).
Proof.
  revert scan n. induction rs as [|r rs IH]; intros scan n Hrs Hscan; cbn [scan_page].
  { by apply stays_ret. }
  apply Forall_cons in Hrs as [Hr Hrs]. pose proof (il_offset _ _ Hr) as Hoff. rewrite Hoff.
  eapply (stays_bind _ _ (λ n, n = rec_offset r)); [apply stays_lift; naive_solver|]. intros o ->.
  destruct (_ <=? _); [by apply IH|].
  eapply stays_bind; [apply (fp_attrs F)|]. intros u _.
  eapply (stays_bind _ _ anything); [by apply stays_lift|]. intros hit_ _.
  eapply (stays_bind _ _ anything).
  - destruct hit_; [|apply (fp_tell F)]. eapply stays_bind; [apply (fp_tell F)|]. intros _ _.
    eapply stays_bind; [by apply stays_deliver_one|]. intros _ _. by apply stays_ret.
  - intros _ _. apply IH; [done|]. pose proof (il_range _ _ Hr). unfold in_bounds. lia.
Qed.

Lemma stays_round T : stays (catch_up_round cfg l t T) anything.
Proof.
  unfold catch_up_round. eapply stays_bind; [apply (fp_attrs F)|]. intros u ->.
  eapply stays_bind; [apply (fp_high_water F)|]. intros hw Hhw.
  eapply stays_bind; [by apply (fp_page G)|]. intros rs Hrs.
  destruct rs as [|r rs]; [by apply stays_ret|].
  eapply stays_bind; [by apply stays_scan_page|]. intros sp Hsp.
  eapply stays_bind; [apply (fp_high_water F)|]. intros cur _.
  eapply (stays_bind _ _ anything); [|intros _ _; by apply stays_ret].
  destruct (_ <? _); [by apply (fp_set F)|by apply stays_ret].
Qed.

Lemma stays_loop fuel T k : stays (catch_up_loop cfg fuel l t T k) anything.
Proof.
  revert k. induction fuel as [|n IH]; intros k; cbn [catch_up_loop]; [by apply stays_no_fuel|].
  eapply stays_bind; [apply stays_round|]. intros [k'|] _; [apply IH|by apply stays_ret].
Qed.

(** The rule. *)
Lemma stays_catch_up fuel : stays (catch_up cfg fuel l t) anything.
Proof.
  unfold catch_up. eapply stays_bind; [apply (fp_topic G)|]. intros T _. apply stays_loop.
Qed.
End Footprint.
