(* ===== verification/Bystander.v ===== *)
(** * Catch-ups seen by the other subscriptions

    A catch-up of one subscription and topic leaves the position, the attempts
    and the log of every other (subscription, topic) pair as it found them. It
    is what lets the guarantees of [CatchUp], which concern one pair, be put
    together for a whole pass in [Dispatch]. *)

From S2P Require Import Prelude PyStr Value Errors Effects Dynamic Models Base64 Cursor Selectors.
From S2P Require Import Canonical Signing Limits Observability Auth Ssrf Contracts Publisher CatchUp.
From S2P Require Import Receiver Footprint.
Open Scope Z_scope.

Section Standing.
Context {E S Q : Type} `{!EventStore E, !SubscriptionStore S, !RetryQueue Q}.
Context `{!Platform, !EventStoreLaws E, !SubscriptionStoreLaws S}.

Local Abbreviation W := (World E S Q).
Local Abbreviation PM := (M W).

(** A publisher in working order: the stores satisfy their invariants and every
    position is one that a cursor can express. *)
Record standing (w : W) : Prop := {
  sd_store : es_inv (w_store w);
  sd_subs : ss_inv (w_subs w) (w_heap w);
  sd_pos : ∀ x t, is_Some (row_of w x) → in_bounds (position_of (ss_hw (w_subs w) x) t);
}.

(** Nothing is forgotten: rows stay, objects keep their identifier, the
    authorizer stays, and the objects of [sid] change as [K] allows. *)
Context (K : relation Subscription) `{!PreOrder K}.
Record persists (sid : string) (w w' : W) : Prop := {
  ps_rows : ∀ x, is_Some (row_of w x) → is_Some (row_of w' x);
  ps_objs : ∀ l u, objs (w_heap w) !! l = Some u → ∃ u', objs (w_heap w') !! l = Some u' ∧
    subscription_id u' = subscription_id u ∧ (subscription_id u = sid → K u u');
  ps_auth : w_authorizer w' = w_authorizer w;
}.

#[export] Instance persists_preorder sid : PreOrder (persists sid).
Proof.
  split.
  - intros w. split; [done| |done]. intros l u Hu. exists u. by split_and!.
  - intros w1 w2 w3 [Hr1 Ho1 Ha1] [Hr2 Ho2 Ha2]. split; [auto| |congruence].
    intros l u Hu. destruct (Ho1 l u Hu) as (u2 & Hu2 & Hid2 & Hc2).
    destruct (Ho2 l u2 Hu2) as (u3 & Hu3 & Hid3 & Hc3).
    exists u3. split_and!; [done|congruence|]. intros Hid.
    transitivity u2; [by apply Hc2|apply Hc3; congruence].
Qed.

(** A wait during which the rest of the publisher stays in order. *)
Record orderly_op (sid : string) {A} (m : PM A) : Prop := {
  oo_persists : ∀ w, ss_inv (w_subs w) (w_heap w) → wp m (λ _ w', persists sid w w') w;
  oo_standing : ∀ w, standing w → wp m (λ _ w', standing w') w;
}.

Context `{!Async W}.
Record orderly (sid : string) : Prop := {
  od_suspend : orderly_op sid suspend;
  od_webhook : ∀ u h e, orderly_op sid (send_webhook u h e);
  od_message : ∀ u m, orderly_op sid (send_a2a_message u m);
  od_sleep : ∀ d, orderly_op sid (sleep d);
  od_acquire : ∀ x, orderly_op sid (acquire x);
  od_row : ∀ w u, ss_inv (w_subs w) (w_heap w) → row_of w sid = Some u →
    wp suspend (λ _ w', ∃ u', row_of w' sid = Some u' ∧ K u u') w;
}.

(** ** Views

    Whatever else is to be followed through a catch-up: an invariant [vw_ok],
    how the world may change, and what it takes for an event to be recorded as
    delivered to [sid]. The steps that the view does not see leave the attempts
    alone, and the queue but for the effect of one of its operations. *)
Record view := mkView {
  vw_ok : W → Prop;
  vw_le : relation W;
  vw_has : EventRecord → W → Prop;
}.

Inductive queue_call (q : Q) : Q → Prop :=
| called_enqueue i : queue_call q (rq_enqueue i q).2
| called_claim now_ limit lease : queue_call q (rq_claim_due now_ limit lease q).2
| called_complete i : queue_call q (rq_complete i q).2
| called_reschedule i at_ n e : queue_call q (rq_reschedule i at_ n e q).2.

Definition unseen (w w' : W) : Prop :=
  ss_attempts (w_subs w') = ss_attempts (w_subs w) ∧
  (w_queue w' = w_queue w ∨ queue_call (w_queue w) (w_queue w')).

(** The call of the transport that makes [a] arrive. *)
Definition emit (endpoint : string) (a : arrival) : PM DeliveryResult :=
  match a with
  | Webhook headers (VDict event) => send_webhook endpoint headers event
  | Webhook _ _ => raise no_attribute
  | Message m => send_a2a_message endpoint m
  end.

(** [a] carries the event [r] for the subscription [sid]. *)
Definition addressed (sid : string) (r : EventRecord) (a : arrival) : Prop :=
  ∃ ev, carried a = Some ev ∧ dict_get "a2asubscription"%string ev = Some (VStr sid) ∧
        dict_get "id"%string ev = Some (VStr (event_id r)).

Definition in_view (v : view) {A} (w : W) (_ : outcome A) (w' : W) : Prop :=
  vw_ok v w' ∧ vw_le v w w'.

Record view_laws (sid : string) (v : view) : Prop := {
  vl_preorder : PreOrder (vw_le v);
  vl_has : ∀ r w w', vw_has v r w → vw_le v w w' → vw_has v r w';
  vl_unseen : ∀ w w', vw_ok v w → unseen w w' → vw_ok v w' ∧ vw_le v w w';
  vl_suspend : ∀ w, standing w → vw_ok v w → wp suspend (in_view v w) w;
  vl_sleep : ∀ d w, standing w → vw_ok v w → wp (sleep d) (in_view v w) w;
  vl_acquire : ∀ x w, standing w → vw_ok v w → wp (acquire x) (in_view v w) w;
  vl_emit : ∀ endpoint a w, standing w → vw_ok v w →
    wp (emit endpoint a) (λ o w', in_view v w o w' ∧ ∀ res r, o = Ret res → ack res = true →
      addressed sid r a → vw_has v r w') w;
  vl_record : ∀ w w' a r, vw_ok v w → da_event_id a = event_id r → w_queue w' = w_queue w →
    ss_attempts (w_subs w') = ss_attempts (w_subs w) ++ [a] →
    (da_subscription_id a = sid → da_status a = "delivered"%string → vw_has v r w) →
    vw_ok v w' ∧ vw_le v w w';
}.

(** Nothing to follow. *)
Definition no_view : view := mkView (λ _, True) (λ _ _, True) (λ _ _, True).
Lemma no_view_laws sid : view_laws sid no_view.
Proof.
  assert (∀ A (m : PM A) w, wp m (in_view no_view w) w) as Hm.
  { intros A m w. unfold wp. by destruct (m w). }
  split; try done. intros endpoint a w _ _. unfold wp. by destruct (emit endpoint a w).
Qed.
End Standing.
Arguments vw_ok {E S Q}.
Arguments vw_le {E S Q}.
Arguments vw_has {E S Q}.

Section Bystander.
Context {E S Q : Type} `{!EventStore E, !SubscriptionStore S, !RetryQueue Q}.
Context `{!Platform, !Crypto, !Hmac, !Net}.
Context `{!EventStoreLaws E, !SubscriptionStoreLaws S}.
Context `{!Async (World E S Q)} (cfg : PublisherConfig).
Context (clock_mono : ∀ i j, (i ≤ j)%nat → clock i ≤ clock j).

Local Abbreviation W := (World E S Q).
Local Abbreviation PM := (M W).

(** How the objects of the subscription that looks on may change. *)
Context (K : relation Subscription) `{!PreOrder K}.
Context (K_cursors : ∀ c u, K u (with_cursors c u)).
Context (K_selector : ∀ u u', K u u' → selector u' = selector u).

(** The subscription that looks on, and the topics it watches. *)
Context (sid0 : string) (l0 : loc) (sel0 : option Selector).
Context (ts0 : list string) (T0 : string → Topic) (cap0 : string → Z).
Local Abbreviation inv0 t0 := (inv (E := E) (S := S) (Q := Q) sid0 l0 sel0 t0 (T0 t0) (cap0 t0)).
Definition same0 (w w' : W) : Prop := ∀ t0, t0 ∈ ts0 →
  same (E := E) (S := S) (Q := Q) sid0 l0 sel0 t0 (T0 t0) (cap0 t0) w w'.
Context (Hwb : ∀ t0, t0 ∈ ts0 →
  well_behaved (E := E) (S := S) (Q := Q) sid0 l0 sel0 t0 (T0 t0) (cap0 t0)).
Context (Hod : orderly (E := E) (S := S) (Q := Q) K sid0).
Context (v : view (E := E) (S := S) (Q := Q)) (Hv : view_laws sid0 v).
#[local] Instance view_preorder : PreOrder (vw_le v) := vl_preorder _ _ Hv.

(** What is kept from one state of the world to another. *)
Definition kept (w w' : W) : Prop := persists K sid0 w w' ∧ vw_le v w w'.
#[export] Instance kept_preorder : PreOrder kept.
Proof.
  split; [intros w; by split|]. intros w1 w2 w3 [? ?] [? ?]. split; by transitivity w2.
Qed.

(** The pair that catches up. *)
Section Pair.
Context (sid : string) (l : loc) (t : string) (other : sid = sid0 → t ∉ ts0).

(** The state of the world while it does, if it began in [w0]. *)
Context (w0 : W).
Record alongside (w : W) : Prop := {
  al_standing : standing w;
  al_row : is_Some (row_of w sid);
  al_obj : ∃ u, objs (w_heap w) !! l = Some u ∧ subscription_id u = sid;
  al_same : same0 w0 w;
  al_view : vw_ok v w;
}.

Local Abbreviation stays := (stays alongside kept).
Local Abbreviation stays_at := (stays_at alongside kept).
Local Abbreviation stays_ret := (stays_ret alongside kept).
Local Abbreviation stays_bind := (stays_bind alongside kept).
Local Abbreviation stays_offloaded := (stays_offloaded cfg alongside kept).
Local Abbreviation stays_try := (stays_try alongside kept).
Local Abbreviation stays_then := (stays_then alongside kept).
Local Abbreviation stays_lift := (stays_lift alongside kept).

Lemma al_inv w t0 : alongside w → t0 ∈ ts0 → inv0 t0 w.
Proof. intros Hw Ht0. apply (mv_inv _ _ _ _ _ _ _ _ _ _ (al_same _ Hw t0 Ht0)). Qed.

(** A step that keeps the publisher in order and leaves the pair alone. *)
Record clean (w w' : W) : Prop := {
  cl_standing : standing w';
  cl_persists : persists K sid0 w w';
  cl_same : same0 w w';
  cl_ok : vw_ok v w';
  cl_le : vw_le v w w';
}.

Lemma alongside_later w w' : alongside w → clean w w' → alongside w'.
Proof.
  intros Hw [Hs' Hp Hsame Hok Hle]. destruct (al_obj _ Hw) as (u & Hu & Hid).
  split; [done|by apply Hp, (al_row _ Hw)| | |done].
  - destruct (ps_objs _ _ _ _ Hp l u Hu) as (u' & Hu' & Hid' & _). exists u'. split; [done|congruence].
  - intros t0 Ht0. eapply (same_trans _ _ _ _ _ _ clock_mono); [|by apply Hsame].
    by apply (al_same _ Hw).
Qed.

Lemma stays_step {A} (m : PM A) P :
  (∀ w, alongside w → wp m (λ o w', clean w w' ∧ ∀ a, o = Ret a → P a) w) → stays m P.
Proof.
  intros Hm w Hw. eapply wp_mono; [by apply Hm|]. intros o w' [Hc HP].
  split_and!; [by eapply alongside_later|split; apply Hc|done].
Qed.

(** Waiting. *)
Lemma orderly_clean {A} (m : PM A) w :
  orderly_op K sid0 m →
  (∀ t0, t0 ∈ ts0 → ∀ w, inv0 t0 w →
     wp m (λ _ w', same sid0 l0 sel0 t0 (T0 t0) (cap0 t0) w w') w) →
  alongside w → wp m (λ _ w', standing w' ∧ persists K sid0 w w' ∧ same0 w w') w.
Proof.
  intros [Hp Hs] Hsame Hw. pose proof (al_standing _ Hw) as Hst.
  apply wp_conj; [by apply Hs|apply wp_conj; [by apply Hp, Hst|]].
  apply (wp_forall (λ t0, t0 ∈ ts0)). intros t0 Ht0. by apply Hsame, al_inv.
Qed.

Lemma stays_orderly {A} (m : PM A) :
  orderly_op K sid0 m → (∀ w, standing w → vw_ok v w → wp m (in_view v w) w) →
  (∀ t0, t0 ∈ ts0 → ∀ w, inv0 t0 w →
     wp m (λ _ w', same sid0 l0 sel0 t0 (T0 t0) (cap0 t0) w w') w) → stays m anything.
Proof.
  intros Hm Hview Hsame. apply stays_step. intros w Hw.
  eapply wp_mono; [apply wp_conj; [by apply orderly_clean|apply Hview; apply Hw]|].
  intros o w' [(Hs & Hp & Hsm) [Hok Hle]]. by split.
Qed.

Lemma stays_suspend : stays suspend anything.
Proof.
  apply stays_orderly; [apply (od_suspend _ _ Hod)|apply (vl_suspend _ _ Hv)|]. intros t0 Ht0 w Hw.
  eapply wp_mono; [by apply (wb_suspend _ _ _ _ _ _ (Hwb t0 Ht0))|]. naive_solver.
Qed.

Lemma unseen_view w w' : alongside w → unseen w w' → vw_ok v w' ∧ vw_le v w w'.
Proof. intros Hw. apply (vl_unseen _ _ Hv), Hw. Qed.

(** A step on nothing but the environment and the metrics. *)
Lemma stays_frame w w' : alongside w → w_store w' = w_store w → w_subs w' = w_subs w →
  w_heap w' = w_heap w → w_topics w' = w_topics w → w_authorizer w' = w_authorizer w →
  env_le (w_env w) (w_env w') → unseen w w' → clean w w'.
Proof.
  intros Hw Hst Hsu Hh Ht Ha He Hun. destruct (unseen_view w w' Hw Hun).
  split; [..|done|done].
  - destruct (al_standing _ Hw) as [? ? Hp]. split; rewrite ?Hst, ?Hsu, ?Hh; try done.
    unfold row_of in *. by rewrite Hsu, Hh.
  - split; unfold row_of; rewrite ?Hsu, ?Hh; [done| |done]. intros l1 u Hu. exists u. by split_and!.
  - intros t0 Ht0. by apply same_frame; [..|apply al_inv].
Qed.

Lemma stays_attrs : stays (attrs l) (λ u, subscription_id u = sid).
Proof.
  apply stays_step. intros w Hw. destruct (al_obj _ Hw) as (u & Hu & Hid).
  unfold attrs, on_subs. apply wp_zoom. eapply wp_run_iff; [unfold deref; by rewrite Hu|].
  split; [|naive_solver]. apply stays_frame; by try (split; [|left]).
Qed.

Lemma stays_tell c : stays (tell c) anything.
Proof.
  apply stays_step. intros w Hw. apply wp_modify. split; [|done].
  apply stays_frame; by try (split; [|left]).
Qed.

Lemma stays_env {A} (m : M Env A) :
  (∀ v, ∃ a v', m v = (Ret a, v') ∧ env_le v v') → stays (on_env m) anything.
Proof.
  intros Hm. apply stays_step. intros w Hw. unfold on_env. apply wp_zoom.
  destruct (Hm (w_env w)) as (a & v' & Hrun & Hle). eapply wp_run_iff; [done|].
  split; [|done]. apply stays_frame; by try (split; [|left]).
Qed.

(** ** Reading the log

    A call on the event store that changes nothing there. *)

Lemma stays_store {A} (m : M (E * Env) A) (P : A → Prop) :
  (∀ w, alongside w → ∃ o v', m (w_store w, w_env w) = (o, (w_store w, v')) ∧
     env_le (w_env w) v' ∧ ∀ a, o = Ret a → P a) → stays (run_store cfg m) P.
Proof.
  intros Hm. apply stays_offloaded; [exact stays_suspend|].
  apply stays_step. intros w Hw. unfold on_store. apply wp_zoom.
  destruct (Hm w Hw) as (o & v' & Hrun & Hle & HP).
  eapply wp_run_iff; [exact Hrun|]. split; [|done]. apply stays_frame; by try (split; [|left]).
Qed.

(** The topic that a lookup returns is the one that is declared. *)
Definition declared_as (T : Topic) : Prop := t ∈ ts0 → T = T0 t.

Lemma stays_topic : stays (get_topic cfg t) anything.
Proof.
  unfold get_topic. eapply (stays_bind _ _ (λ w, from_option declared_as True (dict_get t (w_topics w)))).
  { intros w Hw. apply wp_get. split_and!; [done|done|]. intros a [= <-].
    unfold declared_as. destruct (dict_get t (w_topics w)) as [T|] eqn:Hget; [|done]. intros Ht.
    destruct (al_inv _ _ Hw Ht) as [_ _ _ _ _ _ Hmemo _ _]. by rewrite Hget in Hmemo. }
  intros w1 Hmemo. destruct (dict_get t (w_topics w1)) as [T|]; [by apply stays_ret|].
  eapply (stays_bind _ _ declared_as).
  - apply stays_store. intros w Hw.
    destruct (es_get_topic_law (w_store w) (w_env w) t (sd_store _ (al_standing _ Hw)))
      as (o & Hrun & Ho). exists o, (w_env w). split_and!; [done|done|].
    intros T ->. destruct Ho as [Ho|(e & Ho & _)]; [|done]. intros Ht.
    pose proof (al_inv _ _ Hw Ht) as Hi. destruct (inv_log _ _ _ _ _ _ _ Hi) as [lg Hlg]. rewrite Hlg in Ho. injection Ho as ->.
    rewrite <- (inv_topic _ _ _ _ _ _ _ Hi). unfold log_of. by rewrite Hlg.
  - intros T HT. eapply (stays_bind _ _ anything); [|intros _ _; by apply stays_ret].
    apply stays_step. intros w Hw. apply wp_modify. split; [|done].
    match goal with |- clean _ ?w' => destruct (unseen_view w w' Hw) as [Hok Hle] end;
      [by split; [|left]|].
    split; [by destruct (al_standing _ Hw)| | |exact Hok|exact Hle].
    { split; [done| |done]. intros l1 u Hu. exists u. by split_and!. }
    intros t0 Ht0. pose proof (al_inv _ _ Hw Ht0) as Hi.
    apply same_of_views; [done| |done..]. destruct Hi as [? ? ? ? ? ? Hm ? ?]. split; try done.
    simpl. rewrite dict_get_set. case_decide as Heq; [simpl; subst; by apply HT|done].
Qed.

(** The events of a page are events of the topic's log. *)
Lemma stays_read from to limit :
  from_option (λ p, 0 ≤ p < max_offset) True from →
  from_option (λ p, 0 ≤ p < max_offset) True to → 1 ≤ limit →
  stays (run_store cfg (es_read t (cursor_text t <$> from) (cursor_text t <$> to) limit))
    (λ p, Forall (in_log t) p.1).
Proof.
  intros Hfrom Hto Hlimit. apply stays_store. intros w Hw. pose proof (al_standing _ Hw) as Hst.
  destruct (es_log (w_store w) t) as [lg|] eqn:Hlg.
  2:{ destruct (es_read_missing (w_store w) (w_env w) t (cursor_text t <$> from) (cursor_text t <$> to) limit)
        as (o & Hrun & Ho); [apply Hst|done|].
      exists o, (w_env w). split_and!; [done|done|].
      intros a ->. by destruct Ho as [|(e & ? & _)]. }
  destruct (es_read_law (w_store w) (w_env w) t lg from to limit)
    as (o & t1 & t2 & v' & Hle & _ & _ & Hrun & Ho); [apply Hst|done|done|done|done|].
  exists o, v'. split_and!; [done|done|]. intros p ->.
  destruct Ho as [Ho|(e & Ho & _)]; [|done].
  assert (∀ start, p = read_page (live_at lg t1) start to limit → Forall (in_log t) p.1) as Hp.
  { intros start ->. apply Forall_forall. intros r Hr. apply page_elem in Hr as [Hr _].
    apply live_at_elem in Hr. eapply record_in_log; [|exact Hr]. by eapply es_inv_wf; [apply Hst|]. }
  unfold read_result in Ho. destruct from as [q|]; [|injection Ho; by apply Hp].
  destruct (head _) as [oldest|]; [|injection Ho; by apply Hp].
  destruct (_ <? _); [done|]. injection Ho; by apply Hp.
Qed.

Lemma stays_page p :
  1 ≤ page_size cfg → in_bounds p → stays (next_page cfg t p) (Forall (in_log t)).
Proof.
  intros Hsize Hp. unfold next_page, in_bounds in *.
  set (from := if 0 <=? p then Some p else None).
  assert (from_option (λ p, 0 ≤ p < max_offset) True from) as Hfrom
    by (unfold from; destruct (Z.leb_spec 0 p); simpl; [lia|done]).
  eapply (stays_bind _ _ (λ c, c = cursor_text t <$> from)).
  { unfold from. destruct (Z.leb_spec 0 p); [|by apply stays_ret].
    rewrite encode_ok by lia. by apply stays_ret. }
  intros c ->. eapply stays_bind.
  - apply stays_try; [by apply (stays_read from None)|]. intros e m' He. destruct (is_code _ _); [|done].
    injection He as <-. by apply (stays_read None None).
  - intros pg Hpg. by apply stays_ret.
Qed.

(** ** Writing to the subscription store *)

(** Rows stay, and at most the position of the pair that catches up moves. *)
Definition elsewhere (s : S) (h : Heap) (s' : S) (h' : Heap) : Prop :=
  ss_inv s' h' ∧ (∀ x, is_Some (ss_row s' h' x) ↔ is_Some (ss_row s h x)) ∧
  (∀ x t', position_of (ss_hw s' x) t' = position_of (ss_hw s x) t' ∨
     x = sid ∧ t' = t ∧ in_bounds (position_of (ss_hw s' x) t')) ∧
  ∀ t0, t0 ∈ ts0 →
    filter (concerns sid0 t0) (ss_attempts s') = filter (concerns sid0 t0) (ss_attempts s).

Lemma stays_elsewhere w w' :
  alongside w → w_store w' = w_store w → w_env w' = w_env w → w_topics w' = w_topics w →
  w_authorizer w' = w_authorizer w →
  elsewhere (w_subs w) (w_heap w) (w_subs w') (w_heap w') →
  (∀ k u, objs (w_heap w) !! k = Some u → ∃ u', objs (w_heap w') !! k = Some u' ∧
     subscription_id u' = subscription_id u ∧ (subscription_id u = sid0 → K u u')) →
  vw_ok v w' → vw_le v w w' → clean w w'.
Proof.
  intros Hw Hst He Ht Ha (Hinv & Hrows & Hpos & Hatts) Hobjs Hok Hle.
  pose proof (al_standing _ Hw) as [Hes Hss Hbounds]. split; [..|exact Hok|exact Hle].
  - split; [by rewrite Hst|done|]. intros x t' Hx. apply Hrows in Hx.
    destruct (Hpos x t') as [->|(_ & _ & ?)]; [by apply Hbounds|done].
  - split; [|done|done]. intros x. apply Hrows.
  - intros t0 Ht0. pose proof (al_inv _ _ Hw Ht0) as Hi.
    assert (pos sid0 t0 w' = pos sid0 t0 w) as Hp.
    { unfold pos. destruct (Hpos sid0 t0) as [?|(Hsid & -> & _)]; [done|]. by destruct other. }
    apply same_of_views; [done| |done| |done|by apply Hatts].
    2:{ rewrite He. by split. }
    assert (log_of t0 (T0 t0) w' = log_of t0 (T0 t0) w) as Hl by (unfold log_of; by rewrite Hst).
    destruct Hi as [? ? Hrow (u & Hu & Hid & Hsel) ? ? ? ? ?].
    split; rewrite ?Hl, ?Hp, ?Hst, ?Ht; try done.
    + by apply Hrows.
    + destruct (Hobjs l0 u Hu) as (u' & Hu' & Hid' & Hc). exists u'. split; [done|].
      split; [congruence|]. rewrite <- Hsel. by apply K_selector, Hc.
Qed.

(** A call on the subscription store, with the attempts that it adds. *)
Definition writes {A} (m : M (S * Heap) A) (P : A → Prop) (added : list DeliveryAttempt) : Prop :=
  ∀ s h, ss_inv s h → is_Some (ss_row s h sid) →
     (∃ u, objs h !! l = Some u ∧ subscription_id u = sid) →
     in_bounds (position_of (ss_hw s sid) t) →
     effect_or_refusal ss_refuses (s, h) (λ a sh, P a ∧ sh.2 = h ∧ elsewhere s h sh.1 h ∧
       ss_attempts sh.1 = ss_attempts s ++ added) (m (s, h)).

Lemma elsewhere_refl s h : ss_inv s h → elsewhere s h s h.
Proof. intros Hs. split_and!; [done|done|by left|done]. Qed.

Lemma on_subs_clean {A} (m : M (S * Heap) A) (P : A → Prop) added w :
  writes m P added → alongside w →
  (∀ w', w_queue w' = w_queue w → ss_attempts (w_subs w') = ss_attempts (w_subs w) ++ added →
     vw_ok v w' ∧ vw_le v w w') →
  wp (on_subs m) (λ o w', clean w w' ∧ ∀ a, o = Ret a → P a) w.
Proof.
  intros Hm Hw Hview. unfold on_subs. apply wp_zoom.
  pose proof (al_standing _ Hw) as Hst. pose proof (al_row _ Hw) as Hrow.
  specialize (Hm (w_subs w) (w_heap w) (sd_subs _ Hst) Hrow (al_obj _ Hw) (sd_pos _ Hst sid t Hrow)).
  destruct (m (w_subs w, w_heap w)) as [[a|e|] [s' h']] eqn:Hrun; [| |done];
    (eapply wp_run_iff; [exact Hrun|]); cbn [fst snd effect_or_refusal] in *.
  - destruct Hm as (HP & -> & He & Hatts). split; [|naive_solver].
    match goal with |- clean _ ?w' => destruct (Hview w' eq_refl Hatts) as [Hok Hle] end.
    apply stays_elsewhere; try done. intros k u Hu. exists u. by split_and!.
  - destruct Hm as [_ [= -> ->]]. split; [|done].
    match goal with |- clean _ ?w' => destruct (unseen_view w w' Hw) as [Hok Hle] end;
      [by split; [|left]|]. apply stays_elsewhere; try done.
    + apply elsewhere_refl, Hst.
    + intros k u Hu. exists u. by split_and!.
Qed.

Lemma stays_subs {A} (m : M (S * Heap) A) (P : A → Prop) :
  writes m P [] → stays (run_subs cfg m) P.
Proof.
  intros Hm. apply stays_offloaded; [exact stays_suspend|].
  apply stays_step. intros w Hw. eapply on_subs_clean; [exact Hm|exact Hw|].
  intros w' Hq Ha. apply (vl_unseen _ _ Hv); [apply Hw|].
  split; [by rewrite Ha, (right_id_L [] (++))|by left].
Qed.

Lemma stays_high_water :
  stays (run_subs cfg (ss_high_water sid)) (λ hw, in_bounds (position_of hw t)).
Proof.
  apply stays_subs. intros s h Hs Hrow _ Hb. eapply effect_mono; [by apply ss_high_water_law|].
  intros hw sh [-> ->]. split_and!; [done|done|by apply elsewhere_refl|by rewrite (right_id_L [] (++))].
Qed.

Lemma stays_set n : in_bounds n → stays (run_subs cfg (ss_set_high_water sid t n)) anything.
Proof.
  intros Hn. apply stays_subs. intros s h Hs Hrow _ Hb.
  eapply effect_mono; [by apply ss_set_high_water_law|].
  intros x [s' h'] (Hh & Hinv & Hrows & Hpos & Hatt). cbn [fst snd] in *.
  split_and!; [done|done| |by rewrite Hatt, (right_id_L [] (++))].
  split_and!; [done|intros y; by rewrite Hrows| |intros; by rewrite Hatt].
  intros y t'. rewrite Hpos. case_decide as Hd; [right|by left]. destruct Hd. by split_and!.
Qed.

Lemma stays_ack i c : stays (run_subs cfg (ss_record_ack sid i c)) anything.
Proof.
  apply stays_subs. intros s h Hs Hrow _ Hb. eapply effect_mono; [by apply ss_record_ack_law|].
  intros x [s' h'] (Hh & Hinv & Hrows & Hpos & Hatt). cbn [fst snd] in *.
  split_and!; [done|done| |by rewrite Hatt, (right_id_L [] (++))].
  split_and!; [done|intros y; by rewrite Hrows|intros y t'; left; by rewrite Hpos|intros; by rewrite Hatt].
Qed.

Lemma stays_update : stays (run_subs cfg (ss_update l)) anything.
Proof.
  apply stays_subs. intros s h Hs [u0 Hrow] (u & Hu & Hid) Hb.
  eapply effect_mono; [eapply ss_update_law; [done..|by rewrite Hid]|].
  intros x [s' h'] (Hh & Hinv & (u' & Hrow' & _) & Hrows & Hpos & Hatt). cbn [fst snd] in *.
  rewrite Hid in *. split_and!; [done|done| |by rewrite Hatt, (right_id_L [] (++))].
  split_and!; [done| |intros y t'; left; by rewrite Hpos|intros; by rewrite Hatt].
  intros y. destruct (decide (y = sid)) as [->|Hne]; [by rewrite Hrow, Hrow'|by rewrite Hrows].
Qed.

(** An attempt of another pair. *)
Lemma record_writes a :
  da_subscription_id a = sid → on_topic t (da_cursor a) → writes (ss_record_attempt a) anything [a].
Proof.
  intros Ha Hc s h Hs Hrow _ Hb.
  eapply effect_mono; [apply ss_record_attempt_law; [done|by rewrite Ha]|].
  intros x [s' h'] (Hh & Hinv & Hrows & Hpos & Hatt). cbn [fst snd] in *. split_and!; [done|done| |done].
  split_and!; [done|intros y; by rewrite Hrows|intros y t'; left; by rewrite Hpos|].
  intros t0 Ht0. rewrite Hatt, filter_app, filter_cons_False, filter_nil.
  2:{ intros [Hsid Hon]. apply other; [congruence|]. by rewrite (on_topic_fun t t0 (da_cursor a)). }
  by rewrite (right_id_L [] (++)).
Qed.

(** What an acknowledgement of [r] establishes, if it is the subscription's own. *)
Definition has (r : EventRecord) (w : W) : Prop := sid = sid0 → vw_has v r w.

Lemma has_later r w w' : has r w → kept w w' → has r w'.
Proof. intros Hh [_ Hle] Hs. eapply (vl_has _ _ Hv); [by apply Hh|done]. Qed.

Lemma stays_record_subs a r w :
  da_subscription_id a = sid → on_topic t (da_cursor a) → da_event_id a = event_id r →
  alongside w → (da_status a = "delivered"%string → has r w) →
  wp (run_subs cfg (ss_record_attempt a)) (stays_at anything w) w.
Proof.
  intros Ha Hc Hr Hw Hd.
  set (J' := λ w, alongside w ∧ (da_status a = "delivered"%string → has r w)).
  assert (Footprint.stays J' kept (run_subs cfg (ss_record_attempt a)) anything) as Hs.
  2:{ eapply wp_mono; [by apply Hs|]. intros o w' ([Hj _] & Hk & _). by split_and!. }
  assert (∀ w w', (da_status a = "delivered"%string → has r w) → kept w w' →
    da_status a = "delivered"%string → has r w') as Hlater by (eauto using has_later).
  apply (Footprint.stays_offloaded cfg J' kept).
  - intros w1 [Hw1 Hd1]. eapply wp_mono; [by apply stays_suspend|].
    intros o w2 (? & ? & _). split_and!; [split; [done|by eapply Hlater]|done|done].
  - intros w1 [Hw1 Hd1]. eapply wp_mono.
    { eapply (on_subs_clean (ss_record_attempt a)); [by apply record_writes|exact Hw1|].
      intros w2 Hq Hatts. apply (vl_record _ _ Hv w1 w2 a r); [apply Hw1|done..|].
      intros Hs Hst. apply Hd1; [done|congruence]. }
    intros o w2 [Hc2 _]. assert (kept w1 w2) as Hk by (split; apply Hc2).
    split_and!; [split; [by eapply alongside_later|by eapply Hlater]|done|done].
Qed.

(** Assigning to the object of another subscription, or only to its cursors. *)
Lemma stays_assign f :
  (∀ u, subscription_id (f u) = subscription_id u) →
  (∀ u, subscription_id u = sid → sid = sid0 → K u (f u)) →
  stays (assign l f) anything.
Proof.
  intros Hid Hf. apply stays_step. intros w Hw. unfold assign. apply wp_bind.
  unfold attrs, on_subs. apply wp_zoom. destruct (al_obj _ Hw) as (u & Hu & Hu_id).
  eapply wp_run_iff; [unfold deref; by rewrite Hu|]. simpl. apply wp_zoom, wp_modify. simpl.
  pose proof (al_standing _ Hw) as Hst.
  destruct (ss_write_law (w_subs w) (w_heap w) l u (f u)) as (Hinv & Hrows & _);
    [apply Hst|done|apply Hid|].
  split; [|done].
  match goal with |- clean _ ?w' => destruct (unseen_view w w' Hw) as [Hok Hle] end;
    [by split; [|left]|]. apply stays_elsewhere; try done.
  - split_and!; [done|exact Hrows|by left|done].
  - intros k u1 Hu1. simpl. destruct (decide (k = l)) as [->|Hne].
    + rewrite lookup_insert_eq. exists (f u). assert (u1 = u) as -> by congruence.
      split_and!; [done|apply Hid|]. intros Hsid0. by apply Hf; [|congruence].
    + rewrite lookup_insert_ne by done. exists u1. by split_and!.
Qed.

Lemma stays_cursor c : stays (assign l (λ u, with_cursors (dict_set t c (cursors u)) u)) anything.
Proof. by apply stays_assign. Qed.

(** An operation of the retry queue. *)
Lemma stays_queue {A} (m : M Q A) (P : A → Prop) :
  (∀ q, queue_call q (m q).2 ∧ ∀ a, (m q).1 = Ret a → P a) → stays (run_queue cfg m) P.
Proof.
  intros Hm. apply stays_offloaded; [exact stays_suspend|]. apply stays_step. intros w Hw.
  unfold on_queue. apply wp_zoom. unfold wp. destruct (Hm (w_queue w)) as [Hcall HP].
  destruct (m (w_queue w)) as [o q]. split; [|intros a ->; by apply HP].
  apply stays_frame; try done. split; [done|]. by right.
Qed.

Lemma stays_enqueue i : stays (run_queue cfg (rq_enqueue i)) anything.
Proof. apply stays_queue. split; [constructor|done]. Qed.
Lemma stays_complete i : stays (run_queue cfg (rq_complete i)) anything.
Proof. apply stays_queue. split; [constructor|done]. Qed.
Lemma stays_reschedule i at_ n e : stays (run_queue cfg (rq_reschedule i at_ n e)) anything.
Proof. apply stays_queue. split; [constructor|done]. Qed.

(** ** One delivery *)

Lemma stays_sleep d : stays (sleep d) anything.
Proof.
  apply stays_orderly; [apply (od_sleep _ _ Hod)|apply (vl_sleep _ _ Hv)|]. intros t0 Ht0 w Hw.
  eapply wp_mono; [by apply (wb_sleep _ _ _ _ _ _ (Hwb t0 Ht0))|]. naive_solver.
Qed.

Lemma stays_key : stays signing_key anything.
Proof.
  intros w Hw. unfold signing_key. apply wp_bind, wp_get, wp_lift. by split_and!.
Qed.

(** What the transport is handed, and what an acknowledgement then means. *)
Definition sent (r : EventRecord) (w : W) (o : outcome DeliveryResult) (w' : W) : Prop :=
  alongside w' ∧ kept w w' ∧ ∀ res, o = Ret res → ack res = true → has r w'.

Lemma stays_emit endpoint a r w :
  addressed sid r a → alongside w → wp (emit endpoint a) (sent r w) w.
Proof.
  intros Ha Hw.
  assert (orderly_op K sid0 (emit endpoint a)) as Ho.
  { destruct a as [h b|m]; [destruct b|]; simpl; try (apply Hod); split; intros w1 Hw1; unfold wp;
      simpl; try done. }
  eapply wp_mono; [apply wp_conj; [apply orderly_clean; [exact Ho| |exact Hw]|
    apply (vl_emit _ _ Hv endpoint a w); apply Hw]|].
  { intros t0 Ht0 w1 Hw1. destruct a as [h b|m]; [destruct b|]; simpl;
      try (by apply (same_refl _ _ _ _ _ _ clock_mono)).
    - eapply wp_mono; [by apply (wb_webhook _ _ _ _ _ _ (Hwb t0 Ht0))|]. naive_solver.
    - eapply wp_mono; [by apply (wb_message _ _ _ _ _ _ (Hwb t0 Ht0))|]. naive_solver. }
  intros o w' [(Hs & Hp & Hsm) ([Hok Hle] & Hhas)].
  split_and!; [by eapply alongside_later|by split|]. intros res Hres Hack Hsid.
  eapply Hhas; [done|done|]. by rewrite <- Hsid.
Qed.

(** The event that is sent for [r]. *)
Definition event_for (r : EventRecord) (event : list (string * value)) : Prop :=
  dict_get "a2asubscription"%string event = Some (VStr sid) ∧
  dict_get "id"%string event = Some (VStr (event_id r)).

(** A computation that ends with a send. *)
Definition sends (r : EventRecord) (m : PM DeliveryResult) : Prop :=
  ∀ w, alongside w → wp m (sent r w) w.

Lemma sends_bind {A} (m : PM A) (k : A → PM DeliveryResult) r P :
  stays m P → (∀ a, P a → sends r (k a)) → sends r (m ≫= k).
Proof.
  intros Hm Hk w Hw. apply wp_bind. eapply wp_mono; [by apply Hm|].
  intros [a|e|] w1 (Hw1 & Hk1 & HP); cbn [wp_next]; [|by split_and!..].
  eapply wp_mono; [by apply Hk; [apply HP|]|]. intros o w2 (? & ? & ?).
  split_and!; [done|by transitivity w1|done].
Qed.

Lemma sends_send r event signature timestamp :
  event_for r event → sends r (send cfg l event signature timestamp).
Proof.
  intros Hev. unfold send. eapply sends_bind; [exact stays_attrs|]. intros u _.
  eapply sends_bind; [exact stays_key|]. intros k _. destruct (mode (delivery u)).
  - intros w Hw.
    match goal with |- wp (send_webhook ?url ?h ?e) _ _ =>
      apply (stays_emit url (Webhook h (VDict e)) r w); [|exact Hw] end.
    exists event. split; [done|exact Hev].
  - eapply sends_bind; [apply stays_env, uuid_draws|]. intros msg _ w Hw.
    match goal with |- wp (send_a2a_message ?url ?m) _ _ =>
      apply (stays_emit url (Message m) r w); [|exact Hw] end.
    exists event. split; [done|exact Hev].
Qed.

Lemma dump_event_for u r n T :
  subscription_id u = sid →
  event_for r (dump_event iso_datetime (build_event cfg u r n (schema_url T))).
Proof.
  intros Hu. split; [|done]. unfold dump_event. simpl. rewrite Hu.
  by destruct (subject r); simpl; destruct (schema_url T).
Qed.

Lemma sends_attempt_send r n : in_log t r → sends r (attempt_send cfg l r n).
Proof.
  intros Hr. unfold attempt_send. rewrite (il_topic _ _ Hr).
  eapply sends_bind; [exact stays_topic|]. intros T _.
  eapply sends_bind; [exact stays_attrs|]. intros u Hu.
  eapply sends_bind; [exact stays_key|]. intros k _.
  eapply (sends_bind _ _ _ anything); [by apply stays_lift|]. intros sig _.
  by apply sends_send, dump_event_for.
Qed.

Lemma stays_record_attempt r n st res w :
  in_log t r → alongside w → (st = "delivered"%string → has r w) →
  wp (record_attempt cfg l r n st res) (stays_at anything w) w.
Proof.
  intros Hr Hw Hd. unfold record_attempt.
  eapply stays_then; [by apply stays_tell|]. intros _ w1 _ Hw1 Hk1.
  eapply stays_then; [by apply stays_env, Hw1; apply attempt_id_draws|]. intros da w2 _ Hw2 Hk2.
  eapply stays_then; [by apply stays_attrs|]. intros u w3 Hu Hw3 Hk3.
  apply (stays_record_subs _ r); [done|apply Hr|done|done|]. intros Hst.
  eapply has_later; [by apply Hd|]. transitivity w1; [done|]. by transitivity w2.
Qed.

Lemma bystander_footprint : footprint cfg alongside kept has sid l t.
Proof.
  split.
  - exact stays_attrs.
  - exact stays_tell.
  - intros A m Hm. by apply stays_env.
  - intros r n w Hr Hw. by apply sends_attempt_send.
  - intros r n st res w Hr Hw Hd. by apply stays_record_attempt.
  - exact stays_high_water.
  - exact stays_set.
  - exact stays_ack.
  - exact stays_cursor.
  - exact stays_update.
Qed.

Lemma bystander_paging : 1 ≤ page_size cfg → paging cfg alongside kept t.
Proof.
  intros Hsize. split.
  - exact stays_topic.
  - intros p Hp. by apply stays_page.
  - exact stays_enqueue.
  - exact stays_sleep.
Qed.

Lemma beside_catch_up fuel :
  1 ≤ page_size cfg → stays (catch_up cfg fuel l t) anything.
Proof.
  intros Hsize. eapply (Footprint.stays_catch_up cfg alongside kept has);
    [apply bystander_footprint|by apply bystander_paging].
Qed.

(** Checking whether a subscription is active: one that looks on may expire. *)
Lemma beside_is_active :
  (sid = sid0 → ∀ u, K u (with_status EXPIRED u)) → stays (is_active cfg l) anything.
Proof.
  intros Hne. unfold is_active, expire_if_due.
  eapply (stays_bind _ _ anything).
  - eapply stays_bind; [exact stays_attrs|]. intros u _.
    case_bool_decide; [|by apply stays_ret].
    eapply stays_bind; [apply stays_env, now_draws|]. intros n _.
    destruct (_ <=? _); [|by apply stays_ret].
    eapply (stays_bind _ _ anything); [apply stays_assign; [done|auto]|]. intros _ _. by apply stays_ret.
  - intros b _. eapply (stays_bind _ _ anything).
    + destruct b; [exact stays_update|by apply stays_ret].
    + intros _ _. eapply stays_bind; [exact stays_attrs|]. intros u _. by apply stays_ret.
Qed.
End Pair.

(** ** A whole dispatch

    Of another subscription, or of one that watches none of its own topics. *)
Section Beside.
Context (sid : string) (l : loc) (w0 : W) (fuel : nat) (Hsize : 1 ≤ page_size cfg).
Context (apart : ∀ t, sid = sid0 → t ∉ ts0).
Context (expires : sid = sid0 → ∀ u, K u (with_status EXPIRED u)).
Context (Hacquire : ∀ x t0, t0 ∈ ts0 → ∀ w, inv0 t0 w →
  wp (acquire x) (λ _ w', same sid0 l0 sel0 t0 (T0 t0) (cap0 t0) w w') w).
Local Abbreviation J := (alongside sid l w0).
Local Abbreviation stays := (stays J kept).
Local Abbreviation stays_ret := (stays_ret J kept).
Local Abbreviation stays_bind := (stays_bind J kept).

Lemma beside_catch_up_all us k : stays (catch_up_all cfg fuel l us k) anything.
Proof.
  revert k. induction us as [|t us IH]; intros k; cbn [catch_up_all]; [by apply stays_ret|].
  eapply stays_bind; [|intros n _; apply IH]. by apply (beside_catch_up sid l t (apart t)).
Qed.

Lemma beside_attrs : stays (attrs l) anything.
Proof. eapply stays_weaken; [by apply stays_attrs|done]. Qed.

Lemma beside_dispatch tso : stays (dispatch_subscription cfg fuel l tso) anything.
Proof.
  unfold dispatch_subscription. eapply stays_bind.
  { by apply (beside_is_active sid l EmptyString (apart _)). }
  intros b _. destruct (negb b); [by apply stays_ret|].
  eapply stays_bind; [exact beside_attrs|]. intros u _.
  eapply (stays_bind _ _ anything). { intros w Hw. apply wp_get. by split_and!. }
  intros w1 _. destruct (match w_authorizer w1 with Some _ => _ | None => _ end);
    [by apply stays_ret|].
  eapply (stays_bind _ _ anything).
  { apply stays_orderly; [apply (od_acquire _ _ Hod)|apply (vl_acquire _ _ Hv)|apply Hacquire]. }
  intros _ _. eapply stays_bind; [exact beside_attrs|]. intros u' _. apply beside_catch_up_all.
Qed.
End Beside.

(** ** A redelivery

    Of an item of another pair. *)

(** The subscription [x] is there, and [k] refers to it. *)
Definition found (x : string) (k : loc) (w : W) : Prop :=
  is_Some (row_of w x) ∧ ∃ u, objs (w_heap w) !! k = Some u ∧ subscription_id u = x.

Lemma found_later x k w w' : found x k w → persists K sid0 w w' → found x k w'.
Proof.
  intros [Hrow (u & Hu & Hid)] [Hrows Hobjs _]. split; [auto|].
  destruct (Hobjs k u Hu) as (u' & Hu' & Hid' & _). exists u'. split; [done|congruence].
Qed.

Section Redelivery.
Context (w0 : W) (j : RetryItem) (Hj : item_ok j).
Context (apart : ri_subscription_id j = sid0 → ri_topic j ∉ ts0).
Local Abbreviation x := (ri_subscription_id j).

(** The subscription that looks on, standing in for one that is yet to be
    looked up. *)
Local Abbreviation J0 := (alongside sid0 l0 w0).
Local Abbreviation unwatched := (fresh ts0).
Lemma unwatched_apart : sid0 = sid0 → unwatched ∉ ts0.
Proof. intros _. apply infinite_is_fresh. Qed.

Definition got (w : W) (o : outcome (option loc)) (w' : W) : Prop :=
  J0 w' ∧ kept w w' ∧ ∀ k, o = Ret (Some k) → found x k w'.

Lemma on_get w : J0 w → wp (on_subs (ss_get x)) (got w) w.
Proof.
  intros Hw. unfold on_subs. apply wp_zoom. pose proof (al_standing _ _ _ _ Hw) as Hst.
  pose proof (ss_get_law (w_subs w) (w_heap w) x (sd_subs _ Hst)) as Hlaw.
  assert (∀ s' h', s' = w_subs w → ss_inv s' h' → objs (w_heap w) ⊆ objs h' →
    (∀ y, ss_row s' h' y = ss_row (w_subs w) (w_heap w) y) →
    let w' := mkWorld (w_store w) (w_env w) s' h' (w_queue w) (w_topics w) (w_keys w)
      (w_authorizer w) (w_limiter w) (w_metrics w) in J0 w' ∧ kept w w') as Hstep.
  { intros s' h' -> Hinv Hsub Hrows w'.
    destruct (unseen_view _ _ _ w w' Hw) as [Hok Hle]; [by split; [|left]|].
    assert (clean w w') as Hc; [|split; [by eapply alongside_later|split; apply Hc]].
    apply (stays_elsewhere sid0 l0 unwatched unwatched_apart w0); try done.
    - split_and!; [done|intros y; by rewrite Hrows|by left|done].
    - intros k u Hu. exists u. split_and!; [by eapply lookup_weaken|done|done]. }
  destruct (ss_get x (w_subs w, w_heap w)) as [[r|e|] [s' h']] eqn:Hrun; [| |done];
    (eapply wp_run_iff; [exact Hrun|]); cbn [effect_or_refusal fst snd] in Hlaw |- *.
  - destruct Hlaw as (-> & Hinv & Hobjs & Hrows & Hr).
    destruct (Hstep (w_subs w) h') as [HJ Hk]; [done..|]. split_and!; [done|done|].
    intros k [= ->]. destruct Hr as (u & Hu & Hid & Hrow).
    split; [unfold row_of; simpl; rewrite Hrows, Hrow; by eexists|by exists u].
  - destruct Hlaw as [_ [= -> ->]].
    destruct (Hstep (w_subs w) (w_heap w)) as [HJ Hk]; [done|apply Hst|done..|].
    by split_and!.
Qed.

Lemma get_beside w : J0 w → wp (run_subs cfg (ss_get x)) (got w) w.
Proof.
  intros Hw. unfold run_subs, offloaded. destruct (offload_store cfg); [|by apply on_get].
  pose proof (stays_suspend sid0 l0 w0) as Hs.
  apply wp_bind. eapply wp_mono; [by apply Hs|].
  intros [u|e|] w1 (Hw1 & Hk1 & _); cbn [wp_next]; [|by split_and!..].
  apply wp_and_then. eapply wp_mono; [by apply on_get|]. intros o w2 (Hw2 & Hk2 & Hf).
  eapply wp_mono; [by apply Hs|]. intros o' w3 (Hw3 & Hk3 & _).
  assert (kept w w3) as Hk by (transitivity w1; [done|by transitivity w2]).
  destruct o' as [[]|e|]; (split_and!; [done|done|try done]).
  intros k Ho. eapply found_later; [by apply Hf|apply Hk3].
Qed.

(** A redelivery of [j] keeps the publisher in order and leaves the watched pairs
    alone, however it ends. *)
Lemma beside_redelivery : stays J0 kept (retry_delivery cfg j) anything.
Proof.
  intros w Hw. unfold retry_delivery. apply wp_bind.
  eapply wp_mono; [by apply get_beside|].
  intros [[k|]|e|] w1 (Hw1 & Hk1 & Hf); cbn [wp_next]; [|..|by split_and!|by split_and!].
  - destruct (Hf k eq_refl) as [Hrow Hobj].
    assert (alongside x k w0 w1) as Hal by (destruct Hw1; by split).
    eapply wp_mono.
    { eapply (stays_redelivery cfg (alongside x k w0) kept (has x)); try exact Hal.
      - apply (bystander_footprint x k (ri_topic j) apart w0).
      - done.
      - exact Hj.
      - intros. by apply (stays_read x k (ri_topic j) w0).
      - apply (stays_complete x k w0).
      - intros. apply (stays_reschedule x k w0). }
    intros o' w2 (Hw2 & Hk2 & _). split_and!; [|by transitivity w1|done].
    pose proof (ps_rows _ _ _ _ (proj1 Hk2)) as Hrows.
    destruct Hw2 as [Hst _ _ Hsame Hview]. split; [done| | |done|done].
    + apply Hrows, (al_row _ _ _ _ Hw1).
    + destruct (al_obj _ _ _ _ Hw1) as (u & Hu & Hid).
      destruct (ps_objs _ _ _ _ (proj1 Hk2) l0 u Hu) as (u' & Hu' & Hid' & _).
      exists u'. split; [done|congruence].
  - eapply wp_mono; [by apply (stays_complete sid0 l0 w0)|].
    intros o w2 (Hw2 & Hk2 & _). split_and!; [done|by transitivity w1|done].
Qed.
End Redelivery.
End Bystander.
