(* ===== verification/Dispatch.v ===== *)
(** * A pass of the dispatcher

    [dispatch_pending] takes every subscription through every of its topics.
    The guarantees of [CatchUp] for one (subscription, topic) pair, put together
    with [Bystander] for the rest, become guarantees of the pass: whatever
    happens, no position runs ahead of the work; and a pass that returns has
    delivered all that was owed, however many passes before it were cut short. *)

From S2P Require Import Prelude PyStr Value Errors Effects Models Base64 Cursor Selectors.
From S2P Require Import Canonical Signing Limits Observability Auth Ssrf Contracts Publisher CatchUp.
From S2P Require Import Footprint Bystander Workers.
Open Scope Z_scope.

#[export] Instance same_but_cursors_preorder : PreOrder same_but_cursors.
Proof.
  split; [done|]. intros u1 u2 u3 H12 H23. unfold same_but_cursors in *. congruence.
Qed.

(** Objects that select the same events. *)
Definition same_selection (u u' : Subscription) : Prop :=
  selector u' = selector u ∧ topics u' = topics u.
#[export] Instance same_selection_preorder : PreOrder same_selection.
Proof. split; [done|]. intros u1 u2 u3 [? ?] [? ?]. split; congruence. Qed.

Lemma same_but_cursors_selection u u' : same_but_cursors u u' → same_selection u u'.
Proof. intros Hu. split; [symmetry; exact (f_equal selector Hu)|symmetry; exact (f_equal topics Hu)]. Qed.

Lemma persists_weaken {E S Q : Type} `{!EventStore E, !SubscriptionStore S, !Platform}
    `{!SubscriptionStoreLaws S} (K K' : relation Subscription) sid (w w' : World E S Q) :
  (∀ u u', K u u' → K' u u') → persists K sid w w' → persists K' sid w w'.
Proof.
  intros HK [Hr Ho Ha]. split; [done| |done]. intros l u Hu.
  destruct (Ho l u Hu) as (u' & ? & ? & ?). exists u'. split_and!; auto.
Qed.

Lemma orderly_selection {E S Q : Type} `{!EventStore E, !SubscriptionStore S, !Platform}
    `{!EventStoreLaws E, !SubscriptionStoreLaws S, !Async (World E S Q)} sid :
  orderly (E := E) (S := S) (Q := Q) same_but_cursors sid →
  orderly (E := E) (S := S) (Q := Q) same_selection sid.
Proof.
  assert (∀ A (m : M (World E S Q) A), orderly_op same_but_cursors sid m →
    orderly_op same_selection sid m) as Hop.
  { intros A m [Hp Hs]. split; [|done]. intros w Hw. eapply wp_mono; [by apply Hp|].
    intros ? w' Hp'. eapply (persists_weaken same_but_cursors); [|eassumption]. apply same_but_cursors_selection. }
  intros [? ? ? ? ? Hrow]. split; auto. intros w u Hw Hu. eapply wp_mono; [by apply Hrow|].
  intros ? w' (u' & ? & ?). exists u'. split; [done|]. by apply same_but_cursors_selection.
Qed.

(** The selection of [filter_refs] reads the objects and changes nothing. *)
Lemma keep_refs {E S Q : Type} (P : loc → Prop) (p : Subscription → bool) ls (w : World E S Q) :
  (∀ l, P l → ∃ u, objs (w_heap w) !! l = Some u) → Forall P ls →
  ∃ kept_, map_m (λ l, attrs l ≫= λ u, mret (if p u : bool then [l] else [])) ls w = (Ret kept_, w) ∧
    Forall P (concat kept_).
Proof.
  intros HP Hls. induction Hls as [|l ls Hl _ (kept_ & Hrun & IH)]; [by exists []|].
  destruct (HP l Hl) as [u Hu].
  exists ((if p u then [l] else []) :: kept_). cbn [map_m concat]. split.
  - rewrite (bind_ret _ _ w (if p u then [l] else []) w).
    + by rewrite (bind_ret _ _ _ _ _ Hrun).
    + by rewrite (bind_ret _ _ _ _ _ (attrs_run w l u Hu)).
  - destruct (p u); simpl; [by constructor|done].
Qed.

Section Dispatch.
Context {E S Q : Type} `{!EventStore E, !SubscriptionStore S, !RetryQueue Q}.
Context `{!Platform, !Crypto, !Hmac, !Net}.
Context `{!EventStoreLaws E, !SubscriptionStoreLaws S}.
Context `{!Async (World E S Q)} (cfg : PublisherConfig) (fuel : nat).
Context (clock_mono : ∀ i j, (i ≤ j)%nat → clock i ≤ clock j).
Context (Hmax : 1 ≤ max_attempts cfg) (Hsize : 1 ≤ page_size cfg).
Context (Henq : ∀ i (q : Q), (rq_enqueue i q).1 ≠ NoFuel).

Local Abbreviation W := (World E S Q).
Local Abbreviation PM := (M W).

(** The subscription under consideration: its selector, its topics with their
    configurations, and a bound on the events each will ever hold. *)
Context (sid : string) (sel : option Selector) (ts : list string).
Context (Tof : string → Topic) (cap : string → Z).

Local Abbreviation pos t := (CatchUp.pos (E := E) (S := S) (Q := Q) sid t).
Local Abbreviation atts t := (CatchUp.atts (E := E) (S := S) (Q := Q) sid t).
Local Abbreviation log_of t := (CatchUp.log_of (E := E) (S := S) (Q := Q) t (Tof t)).
Local Abbreviation clk := (CatchUp.clk (E := E) (S := S) (Q := Q)).
Local Abbreviation evolves t := (CatchUp.evolves (E := E) (S := S) (Q := Q) t (Tof t)).
Local Abbreviation inv l t := (CatchUp.inv (E := E) (S := S) (Q := Q) sid l sel t (Tof t) (cap t)).
Local Abbreviation same l t := (CatchUp.same (E := E) (S := S) (Q := Q) sid l sel t (Tof t) (cap t)).
Local Abbreviation live t := (CatchUp.live (Tof t)).
Local Abbreviation hit t := (CatchUp.hit sel (Tof t)).
Local Abbreviation complete := (CatchUp.complete cfg sid).
#[local] Instance evolves_pre t : PreOrder (evolves t) := evolves_preorder t (Tof t) clock_mono.

(** ** What concerns one of its topics *)

(** The invariant of [CatchUp], but for the object that a pass loads. *)
Record pair_ok (t : string) (w : W) : Prop := {
  po_store : es_inv (w_store w);
  po_subs : ss_inv (w_subs w) (w_heap w);
  po_row : is_Some (ss_row (w_subs w) (w_heap w) sid);
  po_logged : is_Some (es_log (w_store w) t);
  po_topic : log_topic (log_of t w) = Tof t;
  po_memo : from_option (λ T', T' = Tof t) True (dict_get t (w_topics w));
  po_cap : next_offset (log_of t w) ≤ cap t;
  po_pos : -1 ≤ pos t w < max_offset;
}.

Record pair_same (t : string) (w w' : W) : Prop := {
  pm_ok : pair_ok t w';
  pm_evolves : evolves t w w';
  pm_pos : pos t w' = pos t w;
  pm_atts : atts t w' = atts t w;
}.

Definition own_object (l : loc) (w : W) : Prop :=
  ∃ u, objs (w_heap w) !! l = Some u ∧ subscription_id u = sid ∧ selector u = sel ∧ topics u = ts.

Lemma inv_of_pair l t w : pair_ok t w →
  (∃ u, objs (w_heap w) !! l = Some u ∧ subscription_id u = sid ∧ selector u = sel) → inv l t w.
Proof. by intros [? ? ? ? ? ? ? ?] Hobj. Qed.

Lemma pair_of_inv l t w : inv l t w → pair_ok t w.
Proof. by intros [? ? ? ? ? ? ? ? ?]. Qed.

Lemma pair_of_same l t w w' : same l t w w' → pair_same t w w'.
Proof. intros [? ? ? ?]. split; [by eapply pair_of_inv|done..]. Qed.

(** Waits that leave the positions, attempts and logs of its topics alone, up to
    new events and expired ones. *)
Definition considerate_op {A} (m : PM A) : Prop := ∀ t w, t ∈ ts → pair_ok t w →
  wp m (λ o w', pair_same t w w' ∧ o ≠ NoFuel) w.
Record considerate : Prop := {
  cd_suspend : considerate_op suspend;
  cd_foreign : ∀ w, wp suspend (λ o _, ∀ e, o = Raise e → is_a2a_error e = false) w;
  cd_webhook : ∀ u h e, considerate_op (send_webhook u h e);
  cd_message : ∀ u m, considerate_op (send_a2a_message u m);
  cd_sleep : ∀ d, considerate_op (sleep d);
  cd_acquire : ∀ x, considerate_op (acquire x);
}.
Context (Hcd : considerate).
Context (Hod : orderly (E := E) (S := S) (Q := Q) same_but_cursors sid).

Lemma considerate_same {A} (m : PM A) l t :
  considerate_op m → orderly_op same_but_cursors sid m → t ∈ ts →
  ∀ w, inv l t w → wp m (λ o w', same l t w w' ∧ o ≠ NoFuel) w.
Proof.
  intros Hm Ho Ht w Hw. destruct (inv_obj _ _ _ _ _ _ _ Hw) as (u & Hu & Hid & Hsel).
  eapply wp_mono; [apply wp_conj; [by apply Hm; [|eapply pair_of_inv]|apply (oo_persists _ _ _ Ho), Hw]|].
  intros o w' [[[Hok He Hp Ha] Hnf] Hps]. split; [|done]. split; [|done..].
  apply inv_of_pair; [done|]. destruct (ps_objs _ _ _ _ Hps l u Hu) as (u' & Hu' & Hid' & Hc).
  exists u'. split_and!; [done|congruence|].
  destruct (same_but_cursors_selection u u') as [-> _]; [by apply Hc|done].
Qed.

Lemma all_well_behaved l t : t ∈ ts →
  well_behaved (E := E) (S := S) (Q := Q) sid l sel t (Tof t) (cap t).
Proof.
  intros Ht. split; intros; [|eapply considerate_same; [apply Hcd|apply Hod|done|done]..].
  eapply wp_mono; [apply wp_conj;
    [eapply (considerate_same suspend); [apply Hcd|apply Hod|done|done]|apply (cd_foreign Hcd)]|].
  intros [x|e|] w' [[Hs Hnf] Hf]; (split; [done|]); [done|by apply Hf|done].
Qed.

(** ** What a computation has done for a topic *)

(** A finished delivery of [r] among the attempts [extra]. *)
Definition delivered_in (r : EventRecord) (extra : list DeliveryAttempt) : Prop :=
  ∃ before run after, extra = before ++ run ++ after ∧ complete r run.

(** The position moved forward, and not past any live matching event that was
    not delivered on the way. *)
Record advanced (t : string) (w w' : W) : Prop := {
  ad_evolves : evolves t w w';
  ad_pos : pos t w ≤ pos t w';
  ad_bound : pos t w' ≤ pos t w ∨ pos t w' < next_offset (log_of t w');
  ad_atts : ∃ extra, atts t w' = atts t w ++ extra ∧
    ∀ r, r ∈ log_events (log_of t w') → live t r (clk w') →
      pos t w < rec_offset r ≤ pos t w' → hit t r → delivered_in r extra;
}.

(** Nothing that was logged at [w] and is still live at [w'] is left. *)
Definition at_head (t : string) (w w' : W) : Prop :=
  ∀ r, r ∈ log_events (log_of t w) → live t r (clk w') → rec_offset r ≤ pos t w'.

Lemma delivered_in_app r e1 e2 :
  delivered_in r e1 ∨ delivered_in r e2 → delivered_in r (e1 ++ e2).
Proof.
  intros [(b & run & a & -> & Hc)|(b & run & a & -> & Hc)].
  - exists b, run, (a ++ e2). by rewrite <- !(assoc_L (++)).
  - exists (e1 ++ b), run, a. by rewrite <- !(assoc_L (++)).
Qed.

Lemma delivered_in_runs r ds runs tail :
  Forall2 complete ds runs → r ∈ ds → delivered_in r (concat runs ++ tail).
Proof.
  intros Hds Hr. apply delivered_in_app. left.
  induction Hds as [|d run ds runs Hd _ IH]; [by apply elem_of_nil in Hr|].
  apply elem_of_cons in Hr as [->|Hr]; simpl.
  - exists [], run, (concat runs). done.
  - apply delivered_in_app. right. by apply IH.
Qed.

#[local] Instance advanced_preorder t : PreOrder (advanced t).
Proof.
  split.
  - intros w. split; [reflexivity|lia|by left|]. exists []. split; [by rewrite (right_id_L [] (++))|lia].
  - intros w0 w1 w2 [He1 Hp1 Hb1 (x1 & Ha1 & Hd1)] [He2 Hp2 Hb2 (x2 & Ha2 & Hd2)].
    pose proof (ev_next _ _ _ _ He2) as Hn.
    split; [by transitivity w1|lia|lia|]. exists (x1 ++ x2).
    split; [by rewrite Ha2, Ha1, (assoc_L (++))|]. intros r Hr Hl Hrange Hh. apply delivered_in_app.
    destruct (Z.le_gt_cases (rec_offset r) (pos t w1)) as [Hle|Hgt]; [left|right; apply Hd2; auto; lia].
    destruct (ev_old _ _ _ _ He2 r Hr) as [Hold|?]; [|lia].
    apply Hd1; [done| |lia|done]. eapply (live_mono (Tof t)); [exact Hl|].
    apply (clk_mono clock_mono), He2.
Qed.

Lemma advanced_of_progress l t w w' ds tail :
  progress cfg sid l sel t (Tof t) (cap t) w w' (pos t w') ds tail → advanced t w w'.
Proof.
  intros [_ He (runs & Hruns & Ha) _ _ Hp Hb Hc]. split; [done|lia|done|].
  exists (concat runs ++ tail). split; [done|]. intros r Hr Hl Hrange Hh.
  eapply delivered_in_runs; [done|]. by apply Hc.
Qed.

Lemma advanced_of_same t w w' :
  evolves t w w' → pos t w' = pos t w → atts t w' = atts t w → advanced t w w'.
Proof.
  intros He Hp Ha. split; [done|lia|by left; lia|].
  exists []. split; [by rewrite (right_id_L [] (++))|lia].
Qed.

Lemma at_head_before t w0 w w' : evolves t w0 w → evolves t w w' → at_head t w w' → at_head t w0 w'.
Proof.
  intros He0 He Hh r Hr Hl. apply Hh; [|done]. apply (ev_kept _ _ _ _ He0); [done|].
  eapply (live_mono (Tof t)); [exact Hl|]. apply (clk_mono clock_mono), He.
Qed.

Lemma at_head_after t w w' w2 : at_head t w w' → advanced t w' w2 → at_head t w w2.
Proof.
  intros Hh Ha r Hr Hl. transitivity (pos t w'); [|apply Ha]. apply Hh; [done|].
  eapply (live_mono (Tof t)); [exact Hl|]. apply (clk_mono clock_mono), Ha.
Qed.

Lemma at_head_caught_up t w w' :
  CatchUp.caught_up sid t (Tof t) w w' → at_head t w w'.
Proof.
  intros (wr & He1 & He2 & Hc) r Hr Hl. apply Hc; [|done]. apply (ev_kept _ _ _ _ He1); [done|].
  eapply (live_mono (Tof t)); [exact Hl|]. apply (clk_mono clock_mono), He2.
Qed.

(** ** The subscription at work

    From the moment the pass has its object [l]. *)
Record at_work (l : loc) (w : W) : Prop := {
  aw_standing : standing w;
  aw_row : is_Some (row_of w sid);
  aw_object : own_object l w;
  aw_pairs : ∀ t, t ∈ ts → pair_ok t w;
}.

Lemma at_work_inv l w t : at_work l w → t ∈ ts → inv l t w.
Proof.
  intros [_ _ (u & ? & ? & ? & _) Hp] Ht. apply inv_of_pair; [by apply Hp|]. by exists u.
Qed.

(** How much of its objects a computation keeps. *)
Section Keeping.
Context (K : relation Subscription) `{!PreOrder K}.
Context (K_cursors : ∀ c u, K u (with_cursors c u)).
Context (K_selection : ∀ u u', K u u' → same_selection u u').
Context (K_orderly : orderly (E := E) (S := S) (Q := Q) K sid).

Definition same_pairs (l : loc) (w w' : W) : Prop := ∀ t, t ∈ ts → same l t w w'.

Lemma at_work_later l w w' :
  at_work l w → standing w' → persists K sid w w' → (∀ t, t ∈ ts → pair_ok t w') → at_work l w'.
Proof.
  intros [_ Hrow (u & Hu & Hid & Hsel & Hts) _] Hs Hp Hok. split; [done|by apply Hp| |done].
  destruct (ps_objs _ _ _ _ Hp l u Hu) as (u' & Hu' & Hid' & Hk).
  destruct (K_selection u u') as [Hsel' Hts']; [by apply Hk|]. exists u'. split_and!; congruence.
Qed.

(** What another actor, or the subscription on another topic, did. *)
Definition stepped_aside {A} (l : loc) (w : W) (_ : outcome A) (w' : W) : Prop :=
  at_work l w' ∧ persists K sid w w' ∧ ∀ t, t ∈ ts → same l t w w'.

Lemma K_selector u u' : K u u' → selector u' = selector u.
Proof. intros Hk. by apply K_selection. Qed.

(** The beginning of a computation beside the subscription. *)
Lemma alongside_start l w ts0 sid2 l2 :
  at_work l w → (∀ t, t ∈ ts0 → t ∈ ts) → is_Some (row_of w sid2) →
  (∃ u, objs (w_heap w) !! l2 = Some u ∧ subscription_id u = sid2) →
  alongside sid l sel ts0 Tof cap no_view sid2 l2 w w.
Proof.
  intros Hw Hsub Hrow Hobj. split; [apply Hw|done|done| |exact I]. intros t0 Ht0.
  apply (same_refl _ _ _ _ _ _ clock_mono). apply at_work_inv; auto.
Qed.

(** ** The other subscriptions *)

Local Abbreviation nothing := (no_view (E := E) (S := S) (Q := Q)).

Lemma stepped_aside_of {A} l w (o : outcome A) w' sid2 l2 ts0 :
  at_work l w → (∀ t, t ∈ ts → t ∈ ts0) → alongside sid l sel ts0 Tof cap nothing sid2 l2 w w' →
  persists K sid w w' → stepped_aside l w o w'.
Proof.
  intros Hw Hsub Hal Hp.
  assert (∀ t, t ∈ ts → same l t w w') as Hs by (intros t Ht; apply (al_same _ _ _ _ _ _ _ _ _ _ _ Hal); auto).
  split_and!; [|done|done]. eapply at_work_later; [exact Hw|apply Hal|exact Hp|].
  intros t Ht. eapply pair_of_inv. by apply Hs.
Qed.

(** Dispatching another subscription. *)
Lemma other_dispatch l w sid2 l2 tso :
  sid2 ≠ sid → at_work l w → is_Some (row_of w sid2) →
  (∃ u, objs (w_heap w) !! l2 = Some u ∧ subscription_id u = sid2) →
  wp (dispatch_subscription cfg fuel l2 tso) (stepped_aside l w) w.
Proof.
  intros Hne Hw Hrow Hobj. eapply wp_mono.
  { apply (beside_dispatch cfg clock_mono K K_cursors K_selector sid l sel ts Tof cap
      (all_well_behaved l) K_orderly nothing (no_view_laws sid) sid2 l2 w fuel Hsize).
    - by intros.
    - by intros.
    - intros x t Ht w1 Hw1. eapply wp_mono.
      + eapply (considerate_same _ l t); [apply Hcd|apply Hod|exact Ht|exact Hw1].
      + by intros o w' [? _].
    - by apply alongside_start. }
  intros o w' (Hal & [Hp _] & _). eapply stepped_aside_of; [done| |done|done]. done.
Qed.

(** ** Its own dispatch *)

Definition worked (l : loc) (w w' : W) : Prop :=
  at_work l w' ∧ persists K sid w w' ∧ ∀ t, t ∈ ts → advanced t w w'.

Lemma worked_refl l w : at_work l w → worked l w w.
Proof. intros Hw. by split_and!. Qed.

Lemma worked_trans l w1 w2 w3 : worked l w1 w2 → worked l w2 w3 → worked l w1 w3.
Proof.
  intros (_ & Hp1 & Ha1) (Hw2 & Hp2 & Ha2). split_and!; [done|by transitivity w2|].
  intros t Ht. transitivity w2; auto.
Qed.

Lemma worked_aside {A} l w (o : outcome A) w' : stepped_aside l w o w' → worked l w w'.
Proof.
  intros (Hw & Hp & Hs). split_and!; [done..|]. intros t Ht. by apply advanced_of_same; apply Hs.
Qed.

Lemma loop_result_advanced l t w (o : outcome Z) w' :
  loop_result cfg sid l sel t (Tof t) (cap t) w o w' →
  inv l t w' ∧ advanced t w w' ∧ ∀ n, o = Ret n → at_head t w w'.
Proof.
  destruct o as [n|e|]; simpl.
  - intros [[ds Hp] Hc]. split_and!; [apply Hp|by eapply advanced_of_progress|].
    intros _ _. by apply at_head_caught_up.
  - intros (ds & tail & Hp & _). split_and!; [apply Hp|by eapply advanced_of_progress|done].
  - intros [ds Hp]. split_and!; [apply Hp|by eapply advanced_of_progress|done].
Qed.

Lemma own_catch_up l t w :
  at_work l w → t ∈ ts →
  wp (catch_up cfg fuel l t) (λ o w', worked l w w' ∧ (∀ n, o = Ret n → at_head t w w') ∧
    (enough (cap t) fuel (pos t w) → o ≠ NoFuel)) w.
Proof.
  intros Hw Ht. set (us := filter (λ t', t' ≠ t) ts).
  assert (∀ t', t' ∈ us → t' ∈ ts ∧ t' ≠ t) as Hus.
  { intros t' Hin. apply list_elem_of_filter in Hin. tauto. }
  destruct (aw_object _ _ Hw) as (u & Hu & Hid & _).
  eapply wp_mono; [apply wp_conj|].
  - apply (catch_up_spec cfg sid l sel t (Tof t) (cap t) clock_mono (all_well_behaved l t Ht) Hmax
      Hsize Henq fuel w). by apply at_work_inv.
  - apply (beside_catch_up cfg clock_mono K K_cursors K_selector sid l sel us Tof cap
      (λ t' Hin, all_well_behaved l t' (proj1 (Hus t' Hin))) K_orderly nothing (no_view_laws sid) sid l t
      (λ _ Hin, proj2 (Hus t Hin) eq_refl) w fuel Hsize).
    apply alongside_start; [done|intros; by apply Hus|apply Hw|by exists u].
  - intros o w' [[Hres Hfuel] (Hal & [Hp _] & _)].
    destruct (loop_result_advanced _ _ _ _ _ Hres) as (Hinv & Hadv & Hhead).
    assert (∀ t', t' ∈ ts → t' ≠ t → same l t' w w') as Hs.
    { intros t' Hin Hne. apply (al_same _ _ _ _ _ _ _ _ _ _ _ Hal). by apply list_elem_of_filter. }
    split_and!; [split_and!| |done].
    + eapply at_work_later; [exact Hw|apply Hal|exact Hp|]. intros t' Hin.
      destruct (decide (t' = t)) as [->|Hne]; [by eapply pair_of_inv|].
      by eapply pair_of_inv, Hs.
    + exact Hp.
    + intros t' Hin. destruct (decide (t' = t)) as [->|Hne]; [done|].
      by apply advanced_of_same; apply Hs.
    + exact Hhead.
Qed.

Lemma own_catch_up_all l us k w :
  at_work l w → (∀ t, t ∈ us → t ∈ ts) →
  wp (catch_up_all cfg fuel l us k) (λ o w', worked l w w' ∧
    ∀ n, o = Ret n → ∀ t, t ∈ us → at_head t w w') w.
Proof.
  revert k w. induction us as [|t us IH]; intros k w Hw Hus; cbn [catch_up_all].
  { apply wp_ret. split; [by apply worked_refl|]. intros n _ t Ht. by apply elem_of_nil in Ht. }
  apply wp_bind. eapply wp_mono; [apply own_catch_up; [done|apply Hus; by left]|].
  intros [n|e|] w1 (Hk1 & Hh1 & _); cbn [wp_next]; [|by split..].
  eapply wp_mono; [apply IH; [apply Hk1|intros; apply Hus; by right]|].
  intros o w2 (Hk2 & Hh2). split; [by eapply worked_trans|]. intros m Hm t' Ht'.
  apply elem_of_cons in Ht' as [->|Ht'].
  - eapply at_head_after; [by eapply Hh1|]. apply Hk2, Hus. by left.
  - assert (t' ∈ ts) as Hin by (apply Hus; by right).
    eapply at_head_before; [by apply Hk1| |by eapply Hh2]. by apply Hk2.
Qed.

(** Waiting for its own lock. *)
Lemma own_wait {A} (m : PM A) l w :
  considerate_op m → orderly_op K sid m → at_work l w →
  wp m (λ _ w', at_work l w' ∧ persists K sid w w' ∧ ∀ t, t ∈ ts → pair_same t w w') w.
Proof.
  intros Hc Ho Hw. pose proof (aw_standing _ _ Hw) as Hst.
  eapply wp_mono; [apply wp_conj; [by apply (oo_standing _ _ _ Ho)|
    apply wp_conj; [apply (oo_persists _ _ _ Ho), Hst|]]|].
  { apply (wp_forall (λ t, t ∈ ts)). intros t Ht. by apply Hc, Hw. }
  intros o w' (Hs & Hp & Hpairs).
  assert (∀ t, t ∈ ts → pair_same t w w') as Hsame by (intros t Ht; by apply Hpairs).
  split_and!; [|done|done]. eapply at_work_later; [exact Hw|done|exact Hp|].
  intros t Ht. by apply Hsame.
Qed.
End Keeping.

Definition authorized (w : W) (u : Subscription) : Prop :=
  match w_authorizer w with Some a => authorize_delivery a u = true | None => True end.

(** The topics a dispatch goes through. *)
Definition dispatched (tso : option (list string)) : list string := default ts tso.

(** A dispatch once the subscription was found active. *)
Lemma own_rest l w u tso :
  at_work l w → objs (w_heap w) !! l = Some u → (∀ t, t ∈ dispatched tso → t ∈ ts) →
  wp ((attrs l : PM Subscription) ≫= λ u, get_state ≫= λ w1,
      if match w_authorizer w1 with Some a => negb (authorize_delivery a u) | None => false end
      then mret 0 else acquire (subscription_id u) ≫= λ _, attrs l ≫= λ u,
      catch_up_all cfg fuel l (match tso with Some us => us | None => topics u end) 0)
    (λ o w', worked same_but_cursors l w w' ∧
       ∀ n, o = Ret n → authorized w u → ∀ t, t ∈ dispatched tso → at_head t w w') w.
Proof.
  intros Hw Hu Hts. apply wp_bind. eapply wp_run_iff; [by apply attrs_run|]. cbn [wp_next].
  apply wp_bind, wp_get. cbn [wp_next].
  assert (∀ c u, same_but_cursors u (with_cursors c u)) as Hkc by done.
  destruct (match w_authorizer w with Some _ => _ | None => _ end) eqn:Hauth.
  { apply wp_ret. split; [by apply (worked_refl same_but_cursors)|]. intros n _ Ha. unfold authorized in Ha.
    destruct (w_authorizer w); [by rewrite Ha in Hauth|done]. }
  apply wp_bind. eapply wp_mono.
  { apply (own_wait same_but_cursors same_but_cursors_selection); [apply Hcd|apply Hod|exact Hw]. }
  intros o w1 (Hw1 & Hp1 & Hsame).
  assert (worked same_but_cursors l w w1) as Hk1.
  { split_and!; [done..|]. intros t Ht. by apply advanced_of_same; apply Hsame. }
  destruct o as [[]|e|]; cbn [wp_next]; [|by split..].
  destruct (aw_object _ _ Hw1) as (u1 & Hu1 & _ & _ & Hts1).
  apply wp_bind. eapply wp_run_iff; [by apply attrs_run|]. cbn [wp_next].
  assert (match tso with Some us => us | None => topics u1 end = dispatched tso) as ->
    by (destruct tso; [done|by rewrite Hts1]).
  eapply wp_mono; [by apply (own_catch_up_all same_but_cursors Hkc same_but_cursors_selection Hod)|].
  intros o w2 (Hk2 & Hh2). split; [by eapply (worked_trans same_but_cursors)|]. intros n Hn _ t Ht.
  eapply at_head_before; [by apply Hk1, Hts|by apply Hk2, Hts|by eapply Hh2].
Qed.
(** Active for the whole of a pass, and authorized. *)
Definition served (u : Subscription) (w w' : W) : Prop :=
  status u = ACTIVE ∧ clk w' < lease_until u ∧ authorized w u.

Lemma served_later u w u1 w1 w' :
  same_but_cursors u u1 → w_authorizer w1 = w_authorizer w → served u w w' → served u1 w1 w'.
Proof.
  intros Hc Hauth (Hst & Hl & Ha). split_and!.
  - rewrite <- Hst. symmetry. exact (f_equal status Hc).
  - assert (lease_until u1 = lease_until u) as -> by (symmetry; exact (f_equal lease_until Hc)). done.
  - unfold authorized in *. rewrite Hauth. destruct (w_authorizer w); [|done].
    rewrite <- Ha. symmetry. exact (f_equal (authorize_delivery a) Hc).
Qed.

Lemma active_run l w u :
  objs (w_heap w) !! l = Some u → status u = ACTIVE → clk w < lease_until u →
  ∃ w1, is_active cfg l w = (Ret true, w1) ∧ w_heap w1 = w_heap w ∧
    w_authorizer w1 = w_authorizer w.
Proof.
  intros Hu Hst Hlease. set (w1 := ((on_env now : PM Z) w).2). exists w1. split; [|done].
  assert (expire_if_due l w = (Ret false, w1)) as Hexp.
  { unfold expire_if_due. rewrite (bind_ret _ _ _ _ _ (attrs_run w l u Hu)).
    rewrite bool_decide_true by done. rewrite (bind_ret (on_env now) _ w (clk w) w1) by done.
    rewrite (proj2 (Z.leb_gt _ _) Hlease). done. }
  unfold is_active. rewrite (bind_ret _ _ _ _ _ Hexp), (bind_ret (mret tt) _ w1 tt w1) by done.
  rewrite (bind_ret _ _ _ _ _ (attrs_run w1 l u Hu)). by rewrite bool_decide_true.
Qed.

(** Its own dispatch. *)
Lemma own_dispatch l w u tso :
  at_work l w → objs (w_heap w) !! l = Some u → (∀ t, t ∈ dispatched tso → t ∈ ts) →
  wp (dispatch_subscription cfg fuel l tso) (λ o w', worked same_selection l w w' ∧
     ∀ n, o = Ret n → served u w w' → ∀ t, t ∈ dispatched tso → at_head t w w') w.
Proof.
  intros Hw Hu Hts. set (K := same_selection).
  assert (orderly (E := E) (S := S) (Q := Q) K sid) as HodK by by apply orderly_selection.
  assert (∀ c u, K u (with_cursors c u)) as Hkc by done.
  assert (∀ u u', K u u' → same_selection u u') as Hks by done.
  assert (∀ w1 w2, worked same_but_cursors l w1 w2 → worked K l w1 w2) as Hweak.
  { intros w1 w2 (Ha & Hb & Hc). split_and!; [done| |done].
    eapply (persists_weaken same_but_cursors); [|eassumption]. apply same_but_cursors_selection. }
  unfold dispatch_subscription. apply wp_bind.
  destruct (aw_object _ _ Hw) as (u' & Hu' & Hid & Hsel & Htopics). assert (u' = u) as -> by congruence.
  eapply wp_mono; [eapply (wp_conj _ _ (λ o w1, status u = ACTIVE → clk w < lease_until u →
    o = Ret true ∧ w_heap w1 = w_heap w ∧ w_authorizer w1 = w_authorizer w))|].
  { apply (beside_is_active cfg clock_mono K (K_selector K Hks) sid l sel ts Tof cap
      (all_well_behaved l) HodK no_view (no_view_laws sid) sid l (fresh ts) (λ _, infinite_is_fresh ts) w); [done|].
    apply alongside_start; [done|done|apply Hw|by exists u]. }
  { unfold wp. destruct (is_active cfg l w) as [o w1] eqn:Hrun. intros Hst Hlease.
    destruct (active_run l w u Hu Hst Hlease) as (w2 & Hrun2 & Hh & Ha).
    rewrite Hrun in Hrun2. by injection Hrun2 as -> ->. }
  intros o w1 [(Hal & [Hp _] & _) Hrun].
  assert (worked K l w w1) as Hk1.
  { by apply (worked_aside K l w o), (stepped_aside_of K Hks l w o w1 sid l ts). }
  assert (∀ w', worked K l w w' → served u w w' → ∀ t, t ∈ dispatched tso →
    o = Ret true ∧ w_heap w1 = w_heap w ∧ w_authorizer w1 = w_authorizer w) as Hserved.
  { intros w' Hk (Hst & Hlease & _) t Ht. apply Hrun; [done|].
    pose proof (clk_mono clock_mono w w' (ev_env _ _ _ _ (ad_evolves _ _ _ (proj2 (proj2 Hk) t (Hts t Ht))))).
    lia. }
  destruct o as [b|e|]; cbn [wp_next]; [|by split..]. destruct b; cbn [negb].
  2:{ apply wp_ret. split; [done|]. intros n _ Hs t Ht. by destruct (Hserved w1 Hk1 Hs t Ht). }
  destruct Hk1 as (Hw1 & Hp1 & Ha1). destruct (aw_object _ _ Hw1) as (u1 & Hu1 & _).
  eapply wp_mono; [by apply (own_rest l w1 u1 tso)|].
  intros o w2 [Hk2 Hh2]. assert (worked K l w w2) as Hk.
  { eapply (worked_trans K); [|by apply Hweak]. by split_and!. }
  split; [done|]. intros n Hn Hs t Ht. destruct (Hserved w2 Hk Hs t Ht) as (_ & Hheap & Hauth).
  eapply at_head_before; [by apply Ha1, Hts|by apply Hk2, Hts|].
  eapply Hh2; [done| |done]. assert (u1 = u) as -> by (rewrite Hheap in Hu1; congruence).
  destruct Hs as (_ & _ & Hs). unfold authorized in *. by rewrite Hauth.
Qed.
(** ** All the dispatches of a pass *)

(** References to other subscriptions. *)
Definition others (w : W) (ls : list loc) : Prop :=
  Forall (λ l2, ∃ u, objs (w_heap w) !! l2 = Some u ∧ subscription_id u ≠ sid ∧
                     is_Some (row_of w (subscription_id u))) ls.

Lemma others_later K w w' ls : persists K sid w w' → others w ls → others w' ls.
Proof.
  intros Hp Ho. eapply Forall_impl; [exact Ho|]. intros l2 (u & Hu & Hne & Hrow).
  destruct (ps_objs _ _ _ _ Hp l2 u Hu) as (u' & Hu' & Hid & _).
  exists u'. rewrite Hid. split_and!; [done|done|by apply Hp].
Qed.

Section Pass.
(** All the topics of each subscription, or one topic. *)
Context (tso : option (list string)) (Htso : ∀ t, t ∈ dispatched tso → t ∈ ts).

Local Abbreviation tasks ls := ((λ l2, dispatch_subscription cfg fuel l2 tso) <$> ls).
Local Abbreviation dispatches ls := (gather resumes (tasks ls)).

Lemma gather_others l w ls :
  at_work l w → others w ls → wp (dispatches ls) (λ _ w', worked same_selection l w w') w.
Proof.
  revert w. induction ls as [|l2 ls IH]; intros w Hw Ho.
  { apply (worked_refl same_selection), Hw. }
  rewrite fmap_cons. apply wp_gather. apply Forall_cons in Ho as Ho'.
  destruct Ho' as [(u & Hu & Hne & Hrow) Hls]. eapply wp_mono.
  - apply (other_dispatch same_selection ltac:(done) ltac:(done) (orderly_selection sid Hod)
      l w (subscription_id u) l2 tso); [done..|]. by exists u.
  - intros o w1 Ha. pose proof (worked_aside same_selection _ _ _ _ Ha) as Hk. destruct Ha as (Hw1 & Hp1 & _).
    destruct (_ && _); [done|].
    eapply wp_mono; [apply IH; [exact Hw1|by eapply others_later]|].
    intros os w2 Hk2. by eapply (worked_trans same_selection).
Qed.

Lemma gathered_ret {A} (o : outcome A) os ns : gathered o os = Ret ns → returns o = true ∧ ∃ ns', os = Ret ns'.
Proof. destruct o as [x|e|], os as [y|e'|]; try done. by eauto. Qed.

(** A subscription's own dispatch serves it whenever it returns, whatever the
    dispatches before and behind it do; and it has returned if all have. *)
Lemma gather_pass l w u ls1 ls2 :
  at_work l w → objs (w_heap w) !! l = Some u → others w ls1 → others w ls2 →
  wp (dispatches (ls1 ++ l :: ls2)) (λ o w', worked same_selection l w w' ∧
     (served u w w' →
       (∀ ns, o = Ret ns → ∀ t, t ∈ dispatched tso → at_head t w w') ∧
       ∀ wl n, gather_reaches resumes (tasks ls1) w = Some wl →
         (dispatch_subscription cfg fuel l tso wl).1 = Ret n → ∀ t, t ∈ dispatched tso → at_head t w w')) w.
Proof.
  revert w u. induction ls1 as [|l2 ls1 IH]; intros w u Hw Hu Ho1 Ho2;
    [rewrite app_nil_l|rewrite <- app_comm_cons]; rewrite fmap_cons; apply wp_gather.
  - eapply wp_mono.
    { apply wp_conj; [by apply (own_dispatch l w u tso)|].
      apply (wp_outcome (dispatch_subscription cfg fuel l tso) w). }
    intros o w1 [[Hk1 Hh1] Ho].
    assert (∀ w2, worked same_selection l w1 w2 → worked same_selection l w w2 ∧
      (served u w w2 → ∀ n, o = Ret n → ∀ t, t ∈ dispatched tso → at_head t w w2)) as Hown.
    { intros w2 Hk2. split; [by eapply (worked_trans same_selection)|]. intros Hs n Hn t Ht.
      eapply at_head_after; [|by apply Hk2, Htso]. eapply Hh1; [exact Hn| |done].
      destruct Hs as (? & ? & ?). split_and!; [done| |done].
      pose proof (clk_mono clock_mono w1 w2 (ev_env _ _ _ _ (ad_evolves _ _ _ (proj2 (proj2 Hk2) t (Htso t Ht))))).
      lia. }
    assert (∀ w2 os, worked same_selection l w1 w2 → worked same_selection l w w2 ∧
      (served u w w2 →
        (∀ ns, gathered o os = Ret ns → ∀ t, t ∈ dispatched tso → at_head t w w2) ∧
        ∀ wl n, gather_reaches resumes (tasks []) w = Some wl →
          (dispatch_subscription cfg fuel l tso wl).1 = Ret n →
          ∀ t, t ∈ dispatched tso → at_head t w w2)) as Hall.
    { intros w2 os Hk2. destruct (Hown w2 Hk2) as [Hk Hh]. split; [done|]. intros Hs. split.
      - intros ns [Hr _]%gathered_ret. destruct o as [n| |]; [by apply (Hh Hs n)|done..].
      - intros wl n [= <-] Hn. apply (Hh Hs n). congruence. }
    destruct (_ && _); [apply Hall, (worked_refl same_selection), Hk1|].
    eapply wp_mono; [apply (gather_others l); [apply Hk1|eapply others_later; [apply Hk1|done]]|].
    intros os w2 Hk2. by apply Hall.
  - apply Forall_cons in Ho1 as [(v & Hv & Hne & Hrow) Ho1]. eapply wp_mono.
    { apply wp_conj; [|apply (wp_self (dispatch_subscription cfg fuel l2 tso) w)].
      apply (other_dispatch same_but_cursors ltac:(done) same_but_cursors_selection Hod
        l w (subscription_id v) l2 tso); [done..|]. by exists v. }
    intros o w1 [Ha Hrun]. pose proof (worked_aside same_but_cursors _ _ _ _ Ha) as Hk.
    destruct Ha as (Hw1 & Hp1 & Hsame).
    assert (worked same_selection l w w1) as Hks.
    { destruct Hk as (? & ? & ?). split_and!; [done| |done].
      eapply (persists_weaken same_but_cursors); [|eassumption]. apply same_but_cursors_selection. }
    cbn [gather_reaches]. rewrite fmap_cons. cbn [gather_reaches]. rewrite Hrun.
    destruct (negb (returns o) && resumes w1) eqn:Hearly.
    { split; [done|]. intros _. split; [|done]. intros ns [Hr _]%gathered_ret. by rewrite Hr in Hearly. }
    destruct (aw_object _ _ Hw) as (u' & Hu' & Hid & _). assert (u' = u) as -> by congruence.
    destruct (ps_objs _ _ _ _ Hp1 l u Hu) as (u1 & Hu1 & _ & Hc). specialize (Hc Hid).
    eapply wp_mono; [eapply (IH w1 u1); [done|done|by eapply others_later..]|].
    intros os w2 [Hk2 Hh2]. split; [by eapply (worked_trans same_selection)|].
    intros Hs. destruct Hh2 as [Hh2 Hr2]; [by eapply served_later; [exact Hc|apply Hp1|exact Hs]|].
    assert (∀ t, t ∈ dispatched tso → at_head t w1 w2 → at_head t w w2) as Hback.
    { intros t Ht. apply at_head_before; [by apply Hsame, Htso|by apply Hk2, Htso]. }
    split; [intros ns [_ [ns' ->]]%gathered_ret t Ht; apply Hback; [done|by eapply Hh2]|].
    intros wl n Hwl Hn t Ht. apply Hback; [done|by eapply Hr2].
Qed.
(** ** Listing the subscriptions *)

(** The publisher in order, with the subscription [u] among its rows. *)
Record ready (u : Subscription) (w : W) : Prop := {
  rd_standing : standing w;
  rd_row : row_of w sid = Some u;
  rd_selector : selector u = sel;
  rd_topics : topics u = ts;
  rd_pairs : ∀ t, t ∈ ts → pair_ok t w;
}.

(** The position of the subscription among the references of a listing. *)
Definition listed (u : Subscription) (w : W) (ls : list loc) : Prop :=
  ∃ ls1 l ls2, ls = ls1 ++ l :: ls2 ∧ objs (w_heap w) !! l = Some u ∧ subscription_id u = sid ∧
    others w ls1 ∧ others w ls2.

Definition unmoved (u : Subscription) (w : W) (u' : Subscription) (w' : W) : Prop :=
  same_but_cursors u u' ∧ w_authorizer w' = w_authorizer w ∧ ready u' w' ∧
  ∀ t, t ∈ ts → pair_same t w w'.

Lemma pair_same_trans t w1 w2 w3 : pair_same t w1 w2 → pair_same t w2 w3 → pair_same t w1 w3.
Proof. intros [? He1 ? ?] [? He2 ? ?]. split; [done|by transitivity w2|congruence..]. Qed.

Lemma unmoved_trans u w u1 w1 u2 w2 : unmoved u w u1 w1 → unmoved u1 w1 u2 w2 → unmoved u w u2 w2.
Proof.
  intros (Hc1 & Ha1 & _ & Hp1) (Hc2 & Ha2 & Hr & Hp2).
  split_and!; [by transitivity u1|congruence|done|].
  intros t Ht. eapply pair_same_trans; auto.
Qed.

Lemma ready_suspend u w : ready u w →
  wp suspend (λ _ w', persists same_but_cursors sid w w' ∧ ∃ u', unmoved u w u' w') w.
Proof.
  intros Hr. pose proof (rd_standing _ _ Hr) as Hst. pose proof (od_suspend _ _ Hod) as Ho.
  eapply wp_mono; [apply wp_conj; [by apply (oo_standing _ _ _ Ho)|apply wp_conj;
    [apply (oo_persists _ _ _ Ho), Hst|apply wp_conj; [|by eapply (od_row _ _ Hod); [apply Hst|apply Hr]]]]|].
  { apply (wp_forall (λ t, t ∈ ts)). intros t Ht. by apply (cd_suspend Hcd), Hr. }
  intros o w' (Hs & Hp & Hpairs & u' & Hu' & Hc). split; [done|]. exists u'.
  destruct (same_but_cursors_selection u u' Hc) as [Hsel Hts].
  split_and!; [done|apply Hp| |intros t Ht; by apply Hpairs].
  split; [done|done| | |intros t Ht; by apply Hpairs].
  - rewrite Hsel. apply Hr.
  - rewrite Hts. apply Hr.
Qed.

Lemma unmoved_heap u w h :
  ready u w → ss_inv (w_subs w) h →
  (∀ x, ss_row (w_subs w) h x = ss_row (w_subs w) (w_heap w) x) →
  unmoved u w u (mkWorld (w_store w) (w_env w) (w_subs w) h (w_queue w) (w_topics w) (w_keys w)
    (w_authorizer w) (w_limiter w) (w_metrics w)).
Proof.
  intros [[Hes Hss Hpos] Hrow Hsel Hts Hpairs] Hinv Hrows.
  assert (∀ t, t ∈ ts → pair_ok t (mkWorld (w_store w) (w_env w) (w_subs w) h (w_queue w) (w_topics w)
    (w_keys w) (w_authorizer w) (w_limiter w) (w_metrics w))) as Hok.
  { intros t Ht. destruct (Hpairs t Ht) as [? ? Hr ? ? ? ? ?]. split; try done. simpl. by rewrite Hrows. }
  split_and!; [done|done| |].
  - split; [|by unfold row_of; simpl; rewrite Hrows|done|done|exact Hok].
    split; [done|done|]. intros x t. unfold row_of in *. simpl. rewrite Hrows. apply Hpos.
  - intros t Ht. split; [by apply Hok|by apply evolves_frame|done|done].
Qed.

Lemma others_of (w : W) ls us :
  Forall2 (λ l u, objs (w_heap w) !! l = Some u ∧ row_of w (subscription_id u) = Some u) ls us →
  sid ∉ subscription_id <$> us → others w ls.
Proof.
  intros Hls Hnin. induction Hls as [|l u ls us [Hu Hrow] _ IH]; constructor.
  - exists u. split_and!; [done| |by eexists]. intros Heq. apply Hnin. rewrite <- Heq, fmap_cons. by left.
  - apply IH. intros Hin. apply Hnin. rewrite fmap_cons. by right.
Qed.

(** The references that [list_all] returns, with the one to the subscription. *)
Lemma list_all_listed u w : ready u w →
  wp (on_subs ss_list_all) (λ o w', unmoved u w u w' ∧ ∀ ls, o = Ret ls → listed u w' ls) w.
Proof.
  intros Hr. pose proof (rd_standing _ _ Hr) as Hst. unfold on_subs. apply wp_zoom.
  pose proof (ss_list_all_law (w_subs w) (w_heap w) (sd_subs _ Hst)) as Hlaw.
  destruct (ss_list_all (w_subs w, w_heap w)) as [[ls|e|] [s' h']] eqn:Hrun; [| |done];
    (eapply wp_run_iff; [exact Hrun|]); cbn [fst snd effect_or_refusal] in *.
  2:{ destruct Hlaw as [_ [= -> ->]]. split; [by apply unmoved_heap; [..|apply Hst|]|done]. }
  destruct Hlaw as (-> & Hinv & Hsub & Hrows & us & Hus & Hnd & Hall).
  split; [by apply unmoved_heap|]. intros ls' [= <-].
  assert (sid ∈ subscription_id <$> us) as Hin by (apply Hall; exists u; exact (rd_row _ _ Hr)).
  apply list_elem_of_fmap in Hin as (v & Hid & Hv). apply list_elem_of_split in Hv as (us1 & us2 & ->).
  rewrite fmap_app, fmap_cons, <- Hid in Hnd. apply NoDup_app in Hnd as (_ & Hn1 & Hn2).
  apply NoDup_cons in Hn2 as [Hn2 _].
  apply Forall2_app_inv_r in Hus as (ls1 & ls2 & Hus1 & Hus2 & ->).
  apply Forall2_cons_inv_r in Hus2 as (l & ls3 & [Hl Hlrow] & Hus2 & ->).
  assert (v = u) as ->.
  { rewrite <- Hid, Hrows in Hlrow. pose proof (rd_row _ _ Hr) as Hu. unfold row_of in Hu. congruence. }
  exists ls1, l, ls3. split_and!; [done|done|done| |].
  - eapply others_of; [exact Hus1|]. intros Hsid. by apply (Hn1 _ Hsid); left.
  - by eapply others_of.
Qed.
Lemma listed_later u w w' ls : persists same_but_cursors sid w w' → listed u w ls →
  ∃ u', same_but_cursors u u' ∧ listed u' w' ls.
Proof.
  intros Hp (ls1 & l & ls2 & -> & Hu & Hid & Ho1 & Ho2).
  destruct (ps_objs _ _ _ _ Hp l u Hu) as (u' & Hu' & Hid' & Hc). exists u'. split; [by apply Hc|].
  exists ls1, l, ls2. split_and!; [done|done|congruence|by eapply others_later..].
Qed.

Lemma list_all_run u w : ready u w →
  wp (run_subs cfg ss_list_all) (λ o w', (∃ u', unmoved u w u' w') ∧
    ∀ ls, o = Ret ls → ∃ u', same_but_cursors u u' ∧ listed u' w' ls) w.
Proof.
  intros Hr. unfold run_subs, offloaded. destruct (offload_store cfg).
  2:{ eapply wp_mono; [by apply list_all_listed|]. intros o w' [Hm Hl]. split; [by exists u|].
      intros ls Hls. exists u. split; [done|by apply Hl]. }
  apply wp_bind. eapply wp_mono; [by apply ready_suspend|].
  intros o w1 [Hp1 (u1 & Hm1)]. destruct o as [[]|e|]; cbn [wp_next];
    [|split; [by exists u1|done]..].
  apply wp_and_then. eapply wp_mono; [apply list_all_listed, Hm1|].
  intros o w2 [Hm2 Hl2]. eapply wp_mono; [apply ready_suspend, Hm2|].
  intros o' w3 [Hp3 (u3 & Hm3)].
  assert (∃ u', unmoved u w u' w3) as Hm.
  { exists u3. eapply unmoved_trans; [exact Hm1|]. by eapply unmoved_trans. }
  destruct o' as [[]|e|]; [|by split..]. split; [done|]. intros ls Hls.
  destruct (listed_later _ _ _ _ Hp3 (Hl2 ls Hls)) as (u' & Hc & Hl'). exists u'. split; [|done].
  transitivity u1; [apply Hm1|done].
Qed.

(** ** Keeping the subscriptions with topics *)

Lemma filter_listed p u (w : W) ls : p u = true → listed u w ls →
  ∃ ls', filter_refs p ls w = (Ret ls', w) ∧ listed u w ls'.
Proof.
  intros Hpu (ls1 & l & ls2 & -> & Hu & Hid & Ho1 & Ho2).
  assert (∀ ls, others w ls → ∃ kept_, map_m (λ l, attrs l ≫= λ u, mret (if p u then [l] else [])) ls w
    = (Ret kept_, w) ∧ others w (concat kept_)) as Hkeep.
  { intros ls. apply keep_refs. intros l' (v & Hv & _). by exists v. }
  destruct (Hkeep ls1 Ho1) as (k1 & Hrun1 & Hk1).
  destruct (Hkeep ls2 Ho2) as (k2 & Hrun2 & Hk2).
  exists (concat k1 ++ l :: concat k2). split; [|by exists (concat k1), l, (concat k2)].
  unfold filter_refs. rewrite (bind_ret _ _ w (k1 ++ [l] :: k2) w).
  { by rewrite concat_app. }
  eapply map_m_app; [exact Hrun1|]. cbn [map_m]. rewrite (bind_ret _ _ w [l] w).
  { by rewrite (bind_ret _ _ _ _ _ Hrun2). }
  rewrite (bind_ret _ _ _ _ _ (attrs_run w l u Hu)). by rewrite Hpu.
Qed.

(** ** The pass *)

(** In the pass from [w] over the subscriptions of which [p] holds, the dispatch
    of this one is that of the reference [l]; it starts in the world [r], if the
    caller of [gather] does not resume before. *)
Definition its_turn (p : Subscription → bool) (w : W) (l : loc) (r : option W) : Prop :=
  ∃ all w1 ls1 ls2 u, run_subs cfg ss_list_all w = (Ret all, w1) ∧
    filter_refs p all w1 = (Ret (ls1 ++ l :: ls2), w1) ∧
    objs (w_heap w1) !! l = Some u ∧ subscription_id u = sid ∧
    gather_reaches resumes (tasks ls1) w1 = r.

Definition passed {A} p (u : Subscription) (w : W) (o : outcome A) (w' : W) : Prop :=
  (∀ t, t ∈ ts → advanced t w w' ∧ pair_ok t w') ∧
  (served u w w' →
     (∀ a, o = Ret a → ∀ t, t ∈ dispatched tso → at_head t w w') ∧
     ((∃ all, (run_subs cfg ss_list_all w).1 = Ret all) → dispatched tso ≠ [] →
       ∃ l r, its_turn p w l r ∧
         ∀ wl n, r = Some wl → (dispatch_subscription cfg fuel l tso wl).1 = Ret n →
           ∀ t, t ∈ dispatched tso → at_head t w w')).

Lemma pass_spec {A} p (k : list Z → A) u w :
  (∀ u', topics u' = ts → p u' = true) → ready u w →
  wp (all ← run_subs cfg ss_list_all; ls ← filter_refs p all; ns ← dispatches ls; mret (k ns))
    (passed p u w) w.
Proof.
  intros Hpts Hr. apply wp_bind.
  eapply wp_mono; [apply wp_conj; [by apply list_all_run|apply wp_self]|].
  intros o w1 [[(u1 & Hm) Hlist] Ho].
  assert (∀ t, t ∈ ts → advanced t w w1 ∧ pair_ok t w1) as Hadv.
  { intros t Ht. destruct Hm as (_ & _ & _ & Hp). split; [by apply advanced_of_same; apply Hp|by apply Hp]. }
  destruct o as [ls|e|]; cbn [wp_next].
  2,3: split; [done|]; intros _; split; [done|]; intros [all Hall]; by rewrite Ho in Hall.
  destruct (Hlist ls eq_refl) as (u' & Hc & Hl).
  destruct (same_but_cursors_selection u u' Hc) as [Hsel' Hts'].
  destruct (filter_listed p u' w1 ls) as (ls' & Hrun & Hl');
    [by apply Hpts; rewrite Hts'; apply Hr|done|].
  apply wp_bind. eapply wp_run_iff; [exact Hrun|]. cbn [wp_next].
  destruct Hl' as (ls1 & l & ls2 & -> & Hu' & Hid & Ho1 & Ho2).
  destruct Hm as (Hc1 & Hauth & Hr1 & Hp1).
  assert (at_work l w1) as Hw1.
  { split; [apply Hr1|exists u1; apply Hr1| |apply Hr1].
    exists u'. rewrite Hsel', Hts'. split_and!; [done|done|apply Hr..]. }
  apply wp_bind. eapply wp_mono; [by apply (gather_pass l w1 u' ls1 ls2)|].
  intros os w2 [Hk Hh].
  assert (∀ t, t ∈ ts → advanced t w w2 ∧ pair_ok t w2) as Hadv2.
  { intros t Ht. split; [transitivity w1; [by apply Hadv|by apply Hk]|by apply Hk]. }
  assert (∀ t, t ∈ dispatched tso → at_head t w1 w2 → at_head t w w2) as Hback.
  { intros t Ht. apply at_head_before; [apply Hp1, Htso, Ht|apply Hk, Htso, Ht]. }
  assert (∀ (o : outcome A), (∀ a, o = Ret a → ∃ ns, os = Ret ns) → passed p u w o w2) as Hpass.
  { intros o Hret. split; [done|]. intros Hs.
    destruct Hh as [Hh Hown]; [by eapply served_later; [exact Hc|exact Hauth|exact Hs]|]. split.
    - intros a Ha t Ht. destruct (Hret a Ha) as [ns Hns]. apply Hback; [done|by eapply Hh].
    - intros _ _. exists l, (gather_reaches resumes (tasks ls1) w1). split.
      { exists ls, w1, ls1, ls2, u'. by split_and!. }
      intros wl n Hwl Hn t Ht. apply Hback; [done|by eapply Hown]. }
  destruct os as [ns|e|]; cbn [wp_next]; [apply wp_ret|..]; apply Hpass; [by eexists|done..].
Qed.
End Pass.

Definition with_topics (u : Subscription) : bool := negb (bool_decide (topics u = [])).

Lemma dispatch_pending_spec u w :
  ready u w → wp (dispatch_pending cfg fuel) (passed None with_topics u w) w.
Proof.
  intros Hr. destruct (decide (ts = [])) as [Hnil|Hnil].
  { unfold wp. destruct (dispatch_pending cfg fuel w) as [o w']. unfold passed, dispatched. simpl. rewrite Hnil.
    split; [by intros t Ht%elem_of_nil|]. intros _. split; [by intros a _ t Ht%elem_of_nil|done]. }
  apply (pass_spec None (λ t Ht, Ht)); [|done]. intros u' Hu'.
  unfold with_topics. by rewrite Hu', bool_decide_false.
Qed.

Lemma dispatch_topic_spec u w t :
  t ∈ ts → ready u w → wp (dispatch_topic cfg fuel t) (passed (Some [t]) (λ u, mem t (topics u)) u w) w.
Proof.
  intros Ht Hr. apply (pass_spec (Some [t])); [|intros u' ->; by apply mem_spec|done].
  by intros t' ->%list_elem_of_singleton.
Qed.

(** ** Properties *)

(** Every event that was logged at [w], matches and lies beyond the position
    has a finished delivery since, unless it has expired. *)
Definition delivered_all (t : string) (w w' : W) : Prop :=
  ∃ extra, atts t w' = atts t w ++ extra ∧
    ∀ r, r ∈ log_events (log_of t w) → live t r (clk w') → pos t w < rec_offset r → hit t r →
      delivered_in r extra.

Lemma delivered_all_of t w w' : advanced t w w' → at_head t w w' → delivered_all t w w'.
Proof.
  intros [He Hp _ (extra & Ha & Hd)] Hh. exists extra. split; [done|]. intros r Hr Hl Hgt Hhit.
  apply Hd; [by apply (ev_kept _ _ _ _ He)|done| |done]. split; [done|by apply Hh].
Qed.

(** C3: a pass delivers what is owed, whatever becomes of other subscriptions.
    However [dispatch_pending] ends, for each topic of a subscription the position
    has not passed a live matching event without a finished delivery of it. Let
    the subscription be active and authorized throughout. If the pass returns,
    everything it was owed has been delivered. If it raises, its own dispatch in
    this pass, unless the listing itself failed, is that of a reference [l], and
    starts in a world [wl], unless another dispatch raised before and the caller
    of [gather] resumed at once; and if that dispatch returns, everything has been
    delivered just as well. *)
Theorem dispatch_pending_delivers u w o w' :
  ready u w → dispatch_pending cfg fuel w = (o, w') →
  (∀ t, t ∈ ts → advanced t w w') ∧
  (served u w w' →
    (∀ n, o = Ret n → ∀ t, t ∈ ts → delivered_all t w w') ∧
    ((∃ all, (run_subs cfg ss_list_all w).1 = Ret all) → ts ≠ [] →
      ∃ l r, its_turn None with_topics w l r ∧
        ∀ wl n, r = Some wl → (dispatch_subscription cfg fuel l None wl).1 = Ret n →
          ∀ t, t ∈ ts → delivered_all t w w')).
Proof.
  intros Hr Hrun. pose proof (dispatch_pending_spec u w Hr) as Hs.
  eapply wp_run_iff in Hs as [Ha Hh]; [|exact Hrun]. split; [intros; by apply Ha|].
  intros Hserved. destruct (Hh Hserved) as [Hret Hturn]. split.
  - intros n Hn t Ht. apply delivered_all_of; [by apply Ha|by eapply Hret].
  - intros Hall Hne. destruct (Hturn Hall Hne) as (l & r & Hl & Hown). exists l, r. split; [done|].
    intros wl n Hwl Hn t Ht. apply delivered_all_of; [by apply Ha|by eapply Hown].
Qed.

(** ** Publishing *)

(** A log that is still fit to be watched. *)
Definition grows (t : string) (w w' : W) : Prop :=
  is_Some (es_log (w_store w') t) ∧ log_topic (log_of t w') = log_topic (log_of t w) ∧
  next_offset (log_of t w') ≤ cap t ∧ evolves t w w'.

Lemma unmoved_store u w w' :
  ready u w → es_inv (w_store w') → w_subs w' = w_subs w → w_heap w' = w_heap w →
  w_topics w' = w_topics w → w_authorizer w' = w_authorizer w →
  (∀ t, t ∈ ts → grows t w w') → unmoved u w u w'.
Proof.
  intros [[Hes Hss Hpos] Hrow Hsel Hts Hpairs] Hes' Hsu Hh Ht Ha Hg.
  assert (∀ t, t ∈ ts → pair_same t w w') as Hsame.
  { intros t Hin. destruct (Hpairs t Hin) as [? ? ? ? Htopic ? ? ?].
    destruct (Hg t Hin) as (Hlog & Htop & Hnext & Hev).
    split; [|done|unfold CatchUp.pos; by rewrite Hsu|unfold CatchUp.atts; by rewrite Hsu].
    split; unfold CatchUp.pos; rewrite ?Hsu, ?Hh, ?Ht; try done. congruence. }
  split_and!; [done|done| |done]. split; [|by unfold row_of; rewrite Hsu, Hh|done|done|].
  - split; unfold row_of; rewrite ?Hsu, ?Hh; done.
  - intros t Hin. by apply Hsame.
Qed.

Lemma unmoved_frame u w w' :
  ready u w → w_store w' = w_store w → w_subs w' = w_subs w → w_heap w' = w_heap w →
  w_topics w' = w_topics w → w_authorizer w' = w_authorizer w → env_le (w_env w) (w_env w') →
  unmoved u w u w'.
Proof.
  intros Hr Hst Hsu Hh Ht Ha He. apply unmoved_store; try done; [rewrite Hst; apply Hr|].
  intros t Hin. destruct (rd_pairs _ _ Hr t Hin) as [? ? ? ? ? ? ? ?].
  assert (log_of t w' = log_of t w) as Hl by (unfold CatchUp.log_of; by rewrite Hst).
  unfold grows. rewrite Hl, Hst. split_and!; [done..|by apply (evolves_frame t (Tof t))].
Qed.

(** The event as the log holds it. *)
Definition logged_as (t : string) (from : Z) (r : EventRecord) (w : W) (r' : EventRecord) : Prop :=
  stored_as r r' ∧ r' ∈ log_events (log_of t w) ∧ from ≤ rec_offset r'.

Section Append.
Context (t ty src : string) (d : list (string * value)) (subj : option string) (text : string).
Context (Ht : t ∈ ts) (Htext : canonicalize (VDict d) = Ret text) (Hd : es_accepts d).
Context (Hcap : cap t ≤ max_offset).

Lemma append_spec u w :
  ready u w → next_offset (log_of t w) < cap t →
  wp (on_store (es_append t ty src d subj)) (λ o w', unmoved u w u w' ∧
    ∀ r, o = Ret r → ∃ r', logged_as t (next_offset (log_of t w)) r w' r') w.
Proof.
  intros Hr Hroom. pose proof (rd_standing _ _ Hr) as Hst. destruct (rd_pairs _ _ Hr t Ht) as [_ _ _ [lg Hlg] _ _ _ _].
  assert (log_of t w = lg) as Hl by (unfold CatchUp.log_of; by rewrite Hlg).
  pose proof (es_inv_wf _ _ _ (sd_store _ Hst) Hlg) as Hwf. rewrite Hl in Hroom.
  destruct (es_append_law (w_store w) (w_env w) t lg ty src d subj text)
    as (o & e' & v' & Hrun & Hle & Hes & Ho); [apply Hst|done|lia|done|done|].
  unfold on_store. apply wp_zoom. eapply wp_run_iff; [exact Hrun|]. simpl.
  set (w' := mkWorld e' v' (w_subs w) (w_heap w) (w_queue w) (w_topics w) (w_keys w)
    (w_authorizer w) (w_limiter w) (w_metrics w)).
  assert (∀ t', t' ∈ ts → es_log e' t' = es_log (w_store w) t' → grows t' w w') as Hsame.
  { intros t' Hin Heq. destruct (rd_pairs _ _ Hr t' Hin) as [_ _ _ Hsome _ _ Hc _].
    assert (log_of t' w' = log_of t' w) as Hl' by (unfold CatchUp.log_of; simpl; by rewrite Heq).
    unfold grows. rewrite Hl'. simpl. rewrite Heq. split_and!; [done..|].
    split; rewrite ?Hl'; [done|lia|by left|done]. }
  destruct o as [r|x|]; [|split; [|done]; apply unmoved_store; try done; intros; by apply Hsame, Ho|done].
  destruct Ho as (r' & Hst' & _ & _ & Hcur & _ & _ & _ & _ & Hlogs).
  assert (log_of t w' = log_append lg r') as Hl'.
  { unfold CatchUp.log_of. simpl. by rewrite Hlogs, decide_True. }
  assert (rec_offset r' = next_offset lg) as Hoff.
  { unfold rec_offset. destruct Hst' as (d' & -> & _). simpl. rewrite Hcur, offset_of_text; [done|apply Hwf|].
    pose proof (wf_next _ _ Hwf). lia. }
  split.
  - apply unmoved_store; try done. intros t' Hin. destruct (decide (t' = t)) as [->|Hne].
    + unfold grows. rewrite Hl', Hl. simpl. rewrite Hlogs, decide_True by done. split_and!; [done|done|lia|].
      split; rewrite ?Hl', ?Hl; simpl; [done|lia| |].
      * intros x Hx. apply elem_of_app in Hx as [Hx|Hx]; [by left|right].
        apply list_elem_of_singleton in Hx as ->. lia.
      * intros x Hx _. apply elem_of_app. by left.
    + apply Hsame; [done|]. by rewrite Hlogs, decide_False.
  - intros r0 [= <-]. exists r'. split_and!; [done| |rewrite Hl; lia].
    change (r' ∈ log_events (log_of t w')). rewrite Hl'. simpl. apply elem_of_app. right. by left.
Qed.

(** The append as the publisher makes it: other tasks run before and after. *)
Definition with_room (w : W) : Prop :=
  wp (if offload_store cfg then suspend else mret tt : PM unit)
    (λ _ w1, next_offset (log_of t w1) < cap t) w.

Lemma append_run_spec u w :
  ready u w → with_room w →
  wp (run_store cfg (es_append t ty src d subj)) (λ o w', ∃ u', unmoved u w u' w' ∧
    ∀ r, o = Ret r → ∃ r', stored_as r r' ∧ next_offset (log_of t w) ≤ rec_offset r' ∧
      (live t r' (clk w') → r' ∈ log_events (log_of t w'))) w.
Proof.
  intros Hr Hroom. unfold run_store, offloaded, with_room in *. destruct (offload_store cfg).
  2:{ eapply wp_mono; [apply append_spec; [done|by apply wp_ret in Hroom]|].
      intros o w' [Hm Hl]. exists u. split; [done|]. intros r Hor. destruct (Hl r Hor) as (r' & Hs & Hin & Hge).
      by exists r'. }
  apply wp_bind. eapply wp_mono; [apply wp_conj; [exact Hroom|by apply ready_suspend]|].
  intros o w1 [Hroom1 [_ (u1 & Hm1)]]. destruct o as [[]|e|]; cbn [wp_next]; [|by exists u1..].
  apply wp_and_then. eapply wp_mono; [apply append_spec; [apply Hm1|done]|].
  intros o w2 [Hm2 Hl2]. eapply wp_mono; [apply ready_suspend, Hm2|].
  intros o' w3 [_ (u3 & Hm3)].
  assert (unmoved u w u3 w3) as Hm.
  { eapply unmoved_trans; [exact Hm1|]. by eapply unmoved_trans. }
  destruct o' as [[]|e|]; [|by exists u3..]. exists u3. split; [done|]. intros r Hor.
  destruct (Hl2 r Hor) as (r' & Hs & Hin & Hge). exists r'. split; [done|]. split.
  - destruct Hm1 as (_ & _ & _ & Hp1). pose proof (ev_next _ _ _ _ (pm_evolves _ _ _ (Hp1 t Ht))). lia.
  - intros Hlive. destruct Hm3 as (_ & _ & _ & Hp3). by apply (ev_kept _ _ _ _ (pm_evolves _ _ _ (Hp3 t Ht))).
Qed.
End Append.

(** C4: when [publish] returns, every subscription has been served: for each
    subscription to the topic that is active and authorized, with a selector
    that the event matches, a finished delivery of the new event is on record,
    unless retention has dropped the event in the meantime. So has everything
    older in the topic that it was owed. (That [publish] returned means that no
    dispatch raised.) *)
Theorem publish_delivers u w t ty d subj text r w' :
  ready u w → t ∈ ts → deferred_dispatch cfg = false →
  canonicalize (VDict d) = Ret text → es_accepts d → cap t ≤ max_offset → with_room t w →
  pos t w < next_offset (log_of t w) →
  publish cfg fuel t ty d subj w = (Ret r, w') → served u w w' →
  delivered_all t w w' ∧ ∃ r' extra, stored_as r r' ∧ atts t w' = atts t w ++ extra ∧
    (live t r' (clk w') → hit t r' → delivered_in r' extra).
Proof.
  intros Hr Ht Hnow Htext Hd Hcap Hroom Hbehind Hrun Hs.
  assert (wp (publish cfg fuel t ty d subj) (λ o w', ∀ r, o = Ret r → served u w w' →
    delivered_all t w w' ∧ ∃ r' extra, stored_as r r' ∧ atts t w' = atts t w ++ extra ∧
      (live t r' (clk w') → hit t r' → delivered_in r' extra)) w) as Hp.
  2:{ unfold wp in Hp. rewrite Hrun in Hp. by apply Hp. }
  clear r w' Hrun Hs. unfold publish. rewrite Hnow. apply wp_bind.
  eapply wp_mono; [by eapply append_run_spec|]. intros o w1 (u1 & Hm1 & Hlog).
  destruct o as [r|e|]; cbn [wp_next]; [|done..]. destruct (Hlog r eq_refl) as (r' & Hst & Hge & Hin).
  apply wp_bind, wp_modify. cbn [wp_next].
  match goal with |- wp _ _ ?w => set (w2 := w) end.
  assert (unmoved u1 w1 u1 w2) as Hm2 by (apply unmoved_frame; [apply Hm1|done..]).
  pose proof (unmoved_trans _ _ _ _ _ _ Hm1 Hm2) as (Hc & Hauth & Hr2 & Hp2).
  apply wp_bind. eapply wp_mono; [by apply (dispatch_topic_spec u1 w2 t)|].
  intros o w3 [Hadv Hh]. destruct o as [[]|e|]; cbn [wp_next]; [|done..]. apply wp_ret.
  intros r0 [= <-] Hs. destruct (Hadv t Ht) as [Ha _].
  destruct (Hh (served_later _ _ _ _ _ Hc Hauth Hs)) as [Hret _]. pose proof (Hret tt eq_refl) as Hhead.
  assert (t ∈ [t]) as Hin1 by (by apply list_elem_of_singleton). split.
  { apply delivered_all_of; [transitivity w2; [by apply advanced_of_same; apply Hp2|exact Ha]|].
    eapply at_head_before; [by apply Hp2|apply Ha|by apply Hhead]. }
  destruct Ha as [He _ _ (extra & Hatts & Hall)]. destruct (Hp2 t Ht) as [_ He2 Hpos2 Hatts2].
  exists r', extra. split; [done|]. split; [congruence|]. intros Hlive Hhit.
  assert (live t r' (clk w2)) as Hlive2.
  { eapply (live_mono (Tof t)); [exact Hlive|]. apply (clk_mono clock_mono), He. }
  assert (r' ∈ log_events (log_of t w2)) as Hin2 by (by apply Hin).
  apply Hall; [by apply (ev_kept _ _ _ _ He)|done| |done]. split; [lia|].
  apply Hhead; [by apply list_elem_of_singleton|done|done].
Qed.

(** Time passing, and passes of the dispatcher, each of which may have been cut
    short: a restart of the process is time passing. A dispatch that goes on after
    its pass has raised is a step of its own. *)
Inductive history : W → W → Prop :=
| history_now w : history w w
| history_wait w w1 w2 : (∀ t, t ∈ ts → pair_same t w w1) → history w1 w2 → history w w2
| history_pass u w o w1 w2 :
    ready u w → dispatch_pending cfg fuel w = (o, w1) → history w1 w2 → history w w2
| history_task l w o w1 w2 :
    at_work l w → dispatch_subscription cfg fuel l None w = (o, w1) → history w1 w2 → history w w2.

Lemma task_advanced l w o w1 :
  at_work l w → dispatch_subscription cfg fuel l None w = (o, w1) → ∀ t, t ∈ ts → advanced t w w1.
Proof.
  intros Hw Hrun. destruct (aw_object _ _ Hw) as (u & Hu & _).
  pose proof (own_dispatch l w u None Hw Hu (λ t Ht, Ht)) as Hp.
  eapply wp_run_iff in Hp as [Hk _]; [|exact Hrun]. apply Hk.
Qed.

Lemma history_advanced w w' : history w w' → ∀ t, t ∈ ts → advanced t w w'.
Proof.
  induction 1 as [w|w w1 w2 Hs _ IH|u w o w1 w2 Hr Hrun _ IH|l w o w1 w2 Hw Hrun _ IH]; intros t Ht;
    [done|..]; (transitivity w1; [|by apply IH]).
  - by apply advanced_of_same; apply Hs.
  - pose proof (dispatch_pending_spec u w Hr) as Hp.
    eapply wp_run_iff in Hp as [Ha _]; [|exact Hrun]. by apply Ha.
  - by eapply task_advanced.
Qed.

Lemma history_then_pass w w1 u n w2 :
  history w w1 → ready u w1 → dispatch_pending cfg fuel w1 = (Ret n, w2) → served u w1 w2 →
  ∀ t, t ∈ ts → advanced t w w2 ∧ at_head t w w2.
Proof.
  intros Hh Hr Hrun Hs t Ht. pose proof (history_advanced w w1 Hh t Ht) as Ha1.
  pose proof (dispatch_pending_spec u w1 Hr) as Hp.
  eapply wp_run_iff in Hp as [Ha2 Hhead]; [|exact Hrun]. destruct (Ha2 t Ht) as [Ha2' _].
  split; [by transitivity w1|]. eapply at_head_before; [apply Ha1|apply Ha2'|].
  by eapply (proj1 (Hhead Hs)).
Qed.

(** C6: nothing is lost across crashes: after any history of passes, cut short
    or not, a pass that returns completes the work: every matching event that
    was logged at the start, and has not expired, has a finished delivery on
    record, made by that pass or by one before it. *)
Theorem crashes_lose_nothing w w1 u n w2 :
  history w w1 → ready u w1 → dispatch_pending cfg fuel w1 = (Ret n, w2) → served u w1 w2 →
  ∀ t, t ∈ ts → delivered_all t w w2.
Proof.
  intros Hh Hr Hrun Hs t Ht.
  destruct (history_then_pass w w1 u n w2 Hh Hr Hrun Hs t Ht). by apply delivered_all_of.
Qed.

(** ** The dispatch worker *)

Context (idle : Z → PM unit) (stops : W → bool) (Hidle : ∀ d, considerate_op (idle d)).

Lemma idle_same d w2 o w' t : t ∈ ts → pair_ok t w2 → idle d w2 = (o, w') → pair_same t w2 w'.
Proof.
  intros Ht Hok Hid. pose proof (Hidle d t w2 Ht Hok) as Hc.
  by apply (proj1 (wp_run_iff _ _ _ _ _ Hid)) in Hc as [? _].
Qed.

Lemma history_of_rounds d j w w1 :
  rounds (dispatch_pending cfg fuel) idle stops d j w w1 →
  (∀ i x, rounds (dispatch_pending cfg fuel) idle stops d i w x → ∃ u, ready u x) → history w w1.
Proof.
  induction 1 as [w|j w w1 w2 (m & wp_ & Hpass & Hs1 & Hwait & Hs2) Hrs IH]; intros Hready;
    [apply history_now|].
  destruct (Hready 0%nat w (rounds_none _ _ _ _ w)) as [u Hu].
  pose proof (dispatch_pending_spec u w Hu) as Hp. eapply wp_run_iff in Hp as [Ha _]; [|exact Hpass].
  eapply history_pass; [exact Hu|exact Hpass|]. eapply history_wait; [|apply IH].
  - intros t Ht. destruct Hwait as [Hid|Hid]; (eapply idle_same; [done|by apply Ha|exact Hid]).
  - intros i x Hx. apply (Hready (Datatypes.S i) x). econstructor; [|exact Hx].
    exists m, wp_. auto.
Qed.

(** The last round of a worker that was stopped began with a pass. *)
Lemma last_pass d w1 w' :
  last_round (dispatch_pending cfg fuel) idle stops d w1 (Ret tt) w' →
  ∃ m w2, dispatch_pending cfg fuel w1 = (Ret m, w2) ∧
    ∀ t, t ∈ ts → pair_ok t w2 → pair_same t w2 w'.
Proof.
  assert (∀ w2 o, idle d w2 = (o, w') → ∀ t, t ∈ ts → pair_ok t w2 → pair_same t w2 w') as Hi.
  { intros. by eapply idle_same. }
  intros Hlast. inversion Hlast; subst; [|eauto..].
  match goal with Hx : dispatch_pending _ _ _ = (Ret ?m, _) |- _ => exists m, w' end.
  split; [done|]. intros t Ht Hok. split; [done|reflexivity|done..].
Qed.

(** C19: a dispatch worker that was told to stop leaves nothing behind: when
    [run_forever] returns, every event that was owed when it began, and has not
    expired, has a finished delivery. (If it ends with an exception, the events
    it leaves behind stay owed: the next run delivers them.) *)
Theorem stopped_worker_leaves_nothing n w k w' k' :
  dispatch_worker cfg fuel idle stops n (w, k) = (Ret tt, (w', k')) →
  (∀ j w1, rounds (dispatch_pending cfg fuel) idle stops (poll_interval k) j w w1 →
     ∃ u, ready u w1 ∧ status u = ACTIVE ∧ clk w' < lease_until u ∧ authorized w1 u) →
  ∀ t, t ∈ ts → delivered_all t w w'.
Proof.
  intros Hrun Hready t Ht.
  apply run_forever_cases in Hrun as [[? _]|(j & w1 & _ & Hrounds & Hlast)]; [done|].
  destruct (Hready j w1 Hrounds) as (u & Hr & Hst & Hlease & Hauth).
  assert (history w w1) as Hh.
  { eapply history_of_rounds; [exact Hrounds|]. intros i x Hx.
    destruct (Hready i x Hx) as (v & Hv & _). by exists v. }
  destruct (last_pass _ _ _ Hlast) as (m & w2 & Hpass & Hwait).
  pose proof (dispatch_pending_spec u w1 Hr) as Hp. eapply wp_run_iff in Hp as [Hadv _]; [|exact Hpass].
  assert (pair_same t w2 w') as Hs by (apply Hwait; [done|by apply Hadv]).
  destruct (history_then_pass w w1 u m w2 Hh Hr Hpass) with (t := t) as [Ha Hhead]; [|done|].
  { split_and!; [done| |done].
    pose proof (clk_mono clock_mono w2 w' (ev_env _ _ _ _ (pm_evolves _ _ _ Hs))). lia. }
  assert (advanced t w2 w') as Ha2 by (by apply advanced_of_same; apply Hs).
  apply delivered_all_of; [by transitivity w2|by eapply at_head_after].
Qed.
End Dispatch.
