(* ===== verification/Retry.v ===== *)
(** * Queued redelivery

    [retry_delivery], as the retry worker calls it for each item it has claimed:
    an item leaves the queue only when its event is settled. *)

From Stdlib Require Import QArith.
From S2P Require Import Prelude PyStr Value Errors Effects Models Cursor Canonical Signing Auth.
From S2P Require Import Ssrf Contracts Publisher CatchUp.
Open Scope Z_scope.

Section Retry.
Context {E S Q : Type} `{!EventStore E, !SubscriptionStore S, !RetryQueue Q}.
Context `{!Platform, !Crypto, !Hmac, !Net}.
Context `{!EventStoreLaws E, !SubscriptionStoreLaws S, !RetryQueueLaws Q}.
Context `{!Async (World E S Q)} (cfg : PublisherConfig).
Context (sid t : string) (T : Topic) (cap : Z).
Local Abbreviation W := (World E S Q).
Local Abbreviation PM := (M W).
Local Abbreviation inv l sel := (CatchUp.inv (E := E) (S := S) (Q := Q) sid l sel t T cap).
Local Abbreviation same l sel := (CatchUp.same (E := E) (S := S) (Q := Q) sid l sel t T cap).
Local Abbreviation moves l sel := (CatchUp.moves (E := E) (S := S) (Q := Q) sid l sel t T cap).
Local Abbreviation log_of := (CatchUp.log_of (E := E) (S := S) (Q := Q) t T).

Context (clock_mono : ∀ i j, (i ≤ j)%nat → clock i ≤ clock j).
Context (Hwb : ∀ l sel, well_behaved (E := E) (S := S) (Q := Q) sid l sel t T cap).

(** ** Finding the event of an item *)

(** A page of one event up to [o], read when no live event lies between
    [start] and [o], is that event while it is live. *)
Lemma page_one live start o x :
  sorted_by rec_offset live → x ∈ live → rec_offset x = o → start < o →
  (∀ y, y ∈ live → start < rec_offset y → o ≤ rec_offset y) →
  (read_page live start (Some o) 1).1 = [x].
Proof.
  intros Hs Hx Ho Hstart Hfirst. simpl.
  assert (filter (in_range start (Some o)) live = [x]) as ->; [|done].
  assert (sorted_by rec_offset (filter (in_range start (Some o)) live)) as Hsf
    by by apply sorted_by_filter.
  assert (∀ y, y ∈ filter (in_range start (Some o)) live ↔ y ∈ live ∧ rec_offset y = o) as Hiff.
  { intros y. rewrite list_elem_of_filter. unfold in_range. simpl. split.
    - intros [[Hgt Hle] Hy]. split; [done|]. specialize (Hfirst y Hy Hgt). lia.
    - intros [Hy <-]. split; [lia|done]. }
  assert (x ∈ filter (in_range start (Some o)) live) as Hin by by apply Hiff.
  destruct (filter _ _) as [|y [|z rest]] eqn:Ef; [by apply elem_of_nil in Hin| |].
  - by apply list_elem_of_singleton in Hin as ->.
  - exfalso. assert (rec_offset y = o ∧ rec_offset z = o) as [Hy Hz].
    { split; apply Hiff; [left|right; left]. }
    apply StronglySorted_inv in Hsf as [_ Hall]. apply Forall_cons in Hall as [Hyz _]. lia.
Qed.

Section Lookup.
Context (l0 l : loc) (sel0 sel : option Selector) (x : EventRecord).
Local Abbreviation clk := (CatchUp.clk (E := E) (S := S) (Q := Q)).
Local Abbreviation same' := (CatchUp.same (E := E) (S := S) (Q := Q) sid l sel t T cap).
Local Abbreviation reads' := (CatchUp.reads (E := E) (S := S) (Q := Q) sid l sel t T cap).

(** The page holds nothing but [x], and holds it if it is live. *)
Definition only (live_ : Prop) (rs : list EventRecord) : Prop :=
  (live_ → rs = [x]) ∧
  ∀ y, y ∈ rs → offset_of (ev_cursor y) = Ret (rec_offset y) ∧ (rec_offset y = rec_offset x → y = x).

Lemma pick_spec P rs (w : W) :
  only P rs →
  wp (match Some rs with
      | Some (r :: _) =>
          n ← lift (offset_of (ev_cursor r));
          mret (if n =? rec_offset x then Some r else None)
      | _ => mret None
      end)
    (λ r w', w' = w ∧ ∃ b, r = Ret b ∧ match b with Some y => y = x | None => ¬ P end) w.
Proof.
  intros [Hlive Hall]. destruct rs as [|y rs].
  { split; [done|]. eexists. split; [done|]. intros HP. by specialize (Hlive HP). }
  destruct (Hall y) as [Hoff Hyx]; [left|]. rewrite Hoff. wp_steps. split; [done|].
  eexists. split; [done|]. destruct (Z.eqb_spec (rec_offset y) (rec_offset x)) as [Hy|Hne].
  - by apply Hyx.
  - intros HP. specialize (Hlive HP). congruence.
Qed.

(** Every event of a later log with [x]'s offset is [x]. *)
Lemma same_offset_same (w w' : W) y :
  inv l0 sel0 w → x ∈ log_events (log_of w) → evolves t T w w' → y ∈ log_events (log_of w') →
  rec_offset y ≤ rec_offset x → y ∈ log_events (log_of w) ∧ (rec_offset y = rec_offset x → y = x).
Proof.
  intros Hw Hx He Hy Hle. destruct (inv_log _ _ _ _ _ _ _ Hw) as [lg Hlg].
  assert (log_of w = lg) as Hl by (unfold CatchUp.log_of; by rewrite Hlg).
  pose proof (es_inv_wf _ _ _ (inv_store _ _ _ _ _ _ _ Hw) Hlg) as Hwf.
  destruct (ev_old _ _ _ _ He y Hy) as [Hold|Hnew].
  - split; [done|]. rewrite Hl in *. eapply sorted_by_inj; [apply Hwf|done|done].
  - rewrite Hl in *. pose proof (rec_offset_range _ _ Hwf x Hx). lia.
Qed.

(** The page of a read up to [x], from a moment since [w]. *)
Lemma page_only (w wr : W) t1 start c :
  inv l0 sel0 w → x ∈ log_events (log_of w) → inv l sel wr → evolves t T w wr →
  t1 ≤ clk wr ≤ c → start < rec_offset x →
  (∀ y, y ∈ live_at (log_of wr) t1 → start < rec_offset y → rec_offset x ≤ rec_offset y) →
  only (live T x c) (read_page (live_at (log_of wr) t1) start (Some (rec_offset x)) 1).1.
Proof.
  intros Hw Hx Hwr He Ht1 Hstart Hfirst. destruct (inv_log _ _ _ _ _ _ _ Hwr) as [lg Hlg].
  assert (log_of wr = lg) as Hl by (unfold CatchUp.log_of; by rewrite Hlg).
  pose proof (es_inv_wf _ _ _ (inv_store _ _ _ _ _ _ _ Hwr) Hlg) as Hwf.
  split.
  - intros Hlive. apply page_one; [rewrite Hl; by eapply live_at_sorted| |done|done|done].
    apply (live_at_iff sid l sel t T cap); [done|].
    split; [|eapply live_mono; [exact Hlive|lia]].
    apply (ev_kept _ _ _ _ He); [done|]. eapply live_mono; [exact Hlive|lia].
  - intros y Hy. apply page_elem in Hy as [Hy [_ Hle]]. simpl in Hle. apply live_at_elem in Hy.
    split; [rewrite Hl in Hy; by eapply offset_of_record|].
    by apply (same_offset_same w wr y).
Qed.

(** The position the first read starts from. *)
Definition before : option Z := if 0 <? rec_offset x then Some (rec_offset x - 1) else None.

Lemma read_result_only (w wr : W) t1 t2 c :
  inv l0 sel0 w → x ∈ log_events (log_of w) → inv l sel wr → evolves t T w wr →
  t1 ≤ clk wr ≤ c → t2 ≤ clk wr → 0 ≤ rec_offset x →
  match read_result t (log_of wr) t1 t2 before (Some (rec_offset x)) 1 with
  | Ret pg => only (live T x c) pg.1
  | Raise e => is_code CURSOR_EXPIRED e = true ∧ is_a2a_error e = true ∧
      ∀ y, y ∈ live_at (log_of wr) t2 → rec_offset x ≤ rec_offset y
  | NoFuel => False
  end.
Proof.
  intros Hw Hx Hwr He Ht1 Ht2 Ho. destruct (inv_log _ _ _ _ _ _ _ Hwr) as [lg Hlg].
  assert (log_of wr = lg) as Hl by (unfold CatchUp.log_of; by rewrite Hlg).
  pose proof (es_inv_wf _ _ _ (inv_store _ _ _ _ _ _ _ Hwr) Hlg) as Hwf.
  unfold read_result, before. destruct (Z.ltb_spec 0 (rec_offset x)).
  2:{ apply (page_only w); [done..|lia|]. intros; lia. }
  assert (only (live T x c)
    (read_page (live_at (log_of wr) t1) (rec_offset x - 1) (Some (rec_offset x)) 1).1) as Honly.
  { apply (page_only w); [done..|lia|]. intros; lia. }
  destruct (head (live_at (log_of wr) t2)) as [oldest|] eqn:Hhead; [|done].
  destruct (Z.ltb_spec (rec_offset x - 1) (rec_offset oldest)) as [Hexp|]; [|done].
  split_and!; [done..|]. intros y Hy.
  pose proof (live_at_sorted t lg Hwf t2) as Hsort. rewrite <- Hl in Hsort.
  destruct (live_at (log_of wr) t2) as [|z zs]; [done|]. injection Hhead as ->.
  apply elem_of_cons in Hy as [->|Hy]; [lia|]. apply StronglySorted_inv in Hsort as [_ Hall].
  rewrite Forall_forall in Hall. specialize (Hall y Hy). lia.
Qed.

(** [_record_at] finds an event that was logged at [w0], unless it has aged
    out. *)
Lemma record_at_spec w0 w :
  inv l0 sel0 w0 → x ∈ log_events (log_of w0) → evolves t T w0 w → inv l sel w →
  wp (record_at cfg t (ev_cursor x)) (λ r w', same' w w' ∧ match r with
    | Ret (Some y) => y = x
    | Ret None => ¬ live T x (clk w')
    | Raise e => is_a2a_error e = false
    | NoFuel => False
    end) w.
Proof.
  intros Hw0 Hx He0 Hw. pose proof (log_record _ _ _ _ _ _ w0 x Hw0 Hx) as [Htopic _ Hoff Hrange].
  destruct (inv_log _ _ _ _ _ _ _ Hw0) as [lg Hlg].
  assert (log_of w0 = lg) as Hl by (unfold CatchUp.log_of; by rewrite Hlg).
  pose proof (es_inv_wf _ _ _ (inv_store _ _ _ _ _ _ _ Hw0) Hlg) as Hwf.
  assert (ev_cursor x = cursor_text t (rec_offset x)) as Hcur
    by (rewrite Hl in Hx; by eapply rec_cursor).
  pose proof (evolves_preorder (E := E) (S := S) (Q := Q) t T clock_mono) as Hpre.
  unfold record_at. rewrite Hoff. apply wp_bind, wp_lift. cbn [wp_next].
  apply wp_bind. eapply (wp_run_iff _ _ w (Ret (cursor_text t <$> before)) w).
  { unfold before. destruct (Z.ltb_spec 0 (rec_offset x)); [|done].
    unfold fmap, M_fmap, lift. by rewrite encode_ok by (unfold max_offset in *; lia). }
  cbn [wp_next]. apply wp_bind, wp_try, wp_bind.
  assert (∀ from, es_read (E := E) t (cursor_text t <$> from) (Some (ev_cursor x)) 1
    = es_read t (cursor_text t <$> from) (cursor_text t <$> Some (rec_offset x)) 1) as Hes
    by (intros; by rewrite Hcur).
  rewrite Hes. eapply wp_mono.
  { apply (read_spec cfg sid l sel t T cap clock_mono (Hwb l sel)); [done| |cbn [from_option]; lia|lia].
    unfold before. destruct (Z.ltb_spec 0 (rec_offset x)); cbn [from_option]; [lia|done]. }
  intros o w1 [Hs1 [Hr|(e & -> & He)]].
  2:{ simpl. by rewrite He. }
  destruct Hr as (wr & t1 & t2 & Ha & Hb & Ht1 & Ht2 & ->).
  pose proof (clk_mono clock_mono wr w1 (ev_env _ _ _ _ (mv_evolves _ _ _ _ _ _ _ _ _ _ Hb))) as Hc1.
  assert (t1 ≤ clk wr ≤ clk w1 ∧ t2 ≤ clk wr ∧ 0 ≤ rec_offset x) as (Hb1 & Hb2 & Hb3) by lia.
  assert (evolves t T w0 wr) as Hwr by (transitivity w; [done|apply Ha]).
  pose proof (read_result_only w0 wr t1 t2 (clk w1) Hw0 Hx (mv_inv _ _ _ _ _ _ _ _ _ _ Ha)
    Hwr Hb1 Hb2 Hb3) as Hres.
  destruct (read_result _ _ _ _ _ _ _) as [pg|e|]; [| |done].
  { simpl. apply wp_ret. simpl. eapply wp_mono; [by apply (pick_spec (live T x (clk w1)))|].
    intros r w' (-> & b & -> & Hb'). split; [done|]. by destruct b. }
  destruct Hres as (Hexp & Ha2a & Hfirst). cbn [wp_next]. rewrite Ha2a, Hexp.
  apply wp_try, wp_bind. change (@None string) with (cursor_text t <$> @None Z). rewrite Hes.
  eapply wp_mono.
  { apply (read_spec cfg sid l sel t T cap clock_mono (Hwb l sel));
      [apply Hs1|done|cbn [from_option]; lia|lia]. }
  intros o w2 [Hs2 [Hr|(e' & -> & He')]].
  2:{ simpl. rewrite He'. split; [|done]. by apply (same_trans sid l sel t T cap clock_mono w w1 w2). }
  destruct Hr as (wr2 & u1 & u2 & Hc & Hd & Hu1 & Hu2 & ->). simpl. apply wp_ret. simpl.
  eapply wp_mono; [apply (pick_spec (live T x (clk w2)))|].
  - pose proof (same_trans _ _ _ _ _ _ clock_mono _ _ _ Hb Hc) as Hrr2.
    assert (evolves t T w0 wr2) as Hw2 by (transitivity wr; [done|apply Hrr2]).
    pose proof (clk_mono clock_mono wr2 w2 (ev_env _ _ _ _ (mv_evolves _ _ _ _ _ _ _ _ _ _ Hd))).
    apply (page_only w0); [done|done|apply Hc|done|lia|lia|].
    intros y Hy _. apply (live_at_iff sid l sel t T cap) in Hy as [Hy Hlive]; [|apply Hc].
    destruct (Z.le_gt_cases (rec_offset x) (rec_offset y)) as [|Hlt]; [done|].
    apply Hfirst. apply (live_at_iff sid l sel t T cap); [apply Ha|].
    split; [|eapply live_mono; [exact Hlive|lia]].
    destruct (ev_old _ _ _ _ (mv_evolves _ _ _ _ _ _ _ _ _ _ Hrr2) y Hy) as [|Hnew]; [done|].
    pose proof (ev_next _ _ _ _ Hwr).
    rewrite Hl in *. pose proof (rec_offset_range _ _ Hwf x Hx). lia.
  - intros r w' (-> & b & -> & Hb'). split; [|by destruct b].
    by apply (same_trans sid l sel t T cap clock_mono w w1 w2).
Qed.
End Lookup.

(** ** What a redelivery leaves of the queue *)

Section Keeps.
Context (P : Q → Prop).

(** A computation after which the queue still satisfies [P]. *)
Definition keeps {A} (m : PM A) : Prop :=
  ∀ w, P (w_queue w) → wp m (λ _ w', P (w_queue w')) w.

(** Nothing that runs while the publisher waits breaks [P]. *)
Record undisturbed : Prop := {
  ud_suspend : keeps suspend;
  ud_webhook : ∀ u h e, keeps (send_webhook u h e);
  ud_message : ∀ u m, keeps (send_a2a_message u m);
}.
Context (Hud : undisturbed).

Lemma keeps_ret {A} (a : A) : keeps (mret a).
Proof. by intros w Hw. Qed.
Lemma keeps_raise {A} e : keeps (raise e : PM A).
Proof. by intros w Hw. Qed.
Lemma keeps_lift {A} (o : outcome A) : keeps (lift o).
Proof. by intros w Hw. Qed.
Lemma keeps_get : keeps get_state.
Proof. by intros w Hw. Qed.
Lemma keeps_tell c : keeps (tell c).
Proof. by intros w Hw. Qed.
Lemma keeps_memo n t' : keeps (memo_topic n t').
Proof. by intros w Hw. Qed.

Lemma keeps_bind {A B} (m : PM A) (k : A → PM B) :
  keeps m → (∀ a, keeps (k a)) → keeps (m ≫= k).
Proof.
  intros Hm Hk w Hw. apply wp_bind. eapply wp_mono; [by apply Hm|].
  intros [a|e|] w' Hw'; simpl; [by apply Hk|done..].
Qed.

Lemma keeps_fmap {A B} (f : A → B) (m : PM A) : keeps m → keeps (f <$> m).
Proof. intros Hm w Hw. apply wp_fmap. by apply Hm. Qed.

Lemma keeps_on_store {A} (m : M (E * Env) A) : keeps (on_store m).
Proof. intros w Hw. unfold on_store. apply wp_zoom. unfold wp. by destruct (m _). Qed.
Lemma keeps_on_subs {A} (m : M (S * Heap) A) : keeps (on_subs m).
Proof. intros w Hw. unfold on_subs. apply wp_zoom. unfold wp. by destruct (m _). Qed.
Lemma keeps_on_env {A} (m : M Env A) : keeps (on_env m).
Proof. intros w Hw. unfold on_env. apply wp_zoom. unfold wp. by destruct (m _). Qed.

Lemma keeps_offloaded {A} (m : PM A) : keeps m → keeps (offloaded cfg m).
Proof.
  intros Hm. unfold offloaded. destruct (offload_store cfg); [|done].
  apply keeps_bind; [apply (ud_suspend Hud)|]. intros _ w Hw. apply wp_and_then.
  eapply wp_mono; [by apply Hm|]. intros r w' Hw'.
  eapply wp_mono; [by apply (ud_suspend Hud)|]. by intros [[]|e|].
Qed.

Lemma keeps_try {A} (m : PM A) h :
  keeps m → (∀ e m', h e = Some m' → keeps m') → keeps (try_except m h).
Proof.
  intros Hm Hh w Hw. apply wp_try. eapply wp_mono; [by apply Hm|].
  intros [a|e|] w' Hw'; [done| |done]. destruct (h e) eqn:Eh; [|done]. by eapply Hh.
Qed.

Lemma keeps_attrs l : keeps (attrs l).
Proof. apply keeps_on_subs. Qed.
End Keeps.

Ltac keeps_step :=
  match goal with
  | |- keeps _ (_ ≫= _) => apply keeps_bind; [|intros ?]
  | |- keeps _ (_ <$> _) => apply keeps_fmap
  | |- keeps _ (mret _) => apply keeps_ret
  | |- keeps _ (raise _) => apply keeps_raise
  | |- keeps _ (lift _) => apply keeps_lift
  | |- keeps _ get_state => apply keeps_get
  | |- keeps _ (tell _) => apply keeps_tell
  | |- keeps _ (memo_topic _ _) => apply keeps_memo
  | |- keeps _ signing_key => unfold signing_key
  | |- keeps _ (let _ := _ in _) => cbv zeta
  | |- keeps _ (attrs _) => apply keeps_attrs
  | |- keeps _ (on_env _) => apply keeps_on_env
  | |- keeps _ (on_subs _) => apply keeps_on_subs
  | |- keeps _ (on_store _) => apply keeps_on_store
  | |- keeps _ (run_store _ _) => unfold run_store; apply keeps_offloaded; [done|]
  | |- keeps _ (run_subs _ _) => unfold run_subs; apply keeps_offloaded; [done|]
  | |- keeps _ (send_webhook _ _ _) => apply ud_webhook
  | |- keeps _ (send_a2a_message _ _) => apply ud_message
  | |- keeps _ (try_except _ _) => apply keeps_try; [|intros ? ? ?]
  | |- keeps _ (match ?x with _ => _ end) => destruct x
  | Hh : (if ?b then _ else _) = Some _ |- keeps _ _ => destruct b; simplify_eq
  end.
Ltac keeps_tac := repeat (keeps_step || done).

Section KeepsDelivery.
Context (P : Q → Prop) (Hud : undisturbed P).

Lemma keeps_get_topic n : keeps P (get_topic cfg n).
Proof. unfold get_topic. keeps_tac. Qed.

Lemma keeps_get_subscription x : keeps P (run_subs cfg (ss_get x)).
Proof. keeps_tac. Qed.

Lemma keeps_send l event signature timestamp : keeps P (send cfg l event signature timestamp).
Proof. unfold send. keeps_tac. Qed.

Lemma keeps_attempt_send l r n : keeps P (attempt_send cfg l r n).
Proof.
  unfold attempt_send. apply keeps_bind; [apply keeps_get_topic|]. intros T'.
  keeps_tac. apply keeps_send.
Qed.

Lemma keeps_record_attempt l r n st res : keeps P (record_attempt cfg l r n st res).
Proof. unfold record_attempt. keeps_tac. Qed.

Lemma keeps_record_at topic c : keeps P (record_at cfg topic c).
Proof.
  unfold record_at. keeps_tac.
Qed.

Lemma keeps_advance l topic c eid : keeps P (advance cfg l topic c eid).
Proof.
  unfold advance. keeps_tac; try (unfold assign; keeps_tac);
    unfold resolve_event_id; keeps_tac; apply keeps_record_at.
Qed.

Lemma keeps_on_delivered l r n res : keeps P (on_delivered cfg l r n res).
Proof.
  unfold on_delivered. apply keeps_bind; [apply keeps_record_attempt|]. intros _.
  keeps_tac. apply keeps_advance.
Qed.

Lemma keeps_on_terminal l r n res : keeps P (on_terminal cfg l r n res).
Proof.
  unfold on_terminal. apply keeps_bind; [apply keeps_record_attempt|]. intros _.
  unfold hand_off. keeps_tac.
Qed.
End KeepsDelivery.

(** ** Looking up the subscription *)

(** From the world's log, position and attempts to those of another reference. *)
Lemma same_via l0 sel0 l sel w1 w2 w3 :
  same l0 sel0 w1 w2 → same l sel w2 w3 → same l sel w1 w3.
Proof.
  intros [_ He1 Hp1 Ha1] [Hi2 He2 Hp2 Ha2].
  pose proof (evolves_preorder (E := E) (S := S) (Q := Q) t T clock_mono) as Hpre.
  split; [done|by transitivity w2|congruence..].
Qed.

(** The lookup itself, before it is offloaded. *)
Definition gets_to (w : W) (r : outcome (option loc)) (w' : W) : Prop :=
  match r with
  | Ret (Some l) => ∃ sel, same l sel w w'
  | Ret None => False
  | Raise _ => ∃ l sel, same l sel w w'
  | NoFuel => False
  end.

Lemma on_get_spec l0 sel0 w :
  inv l0 sel0 w → wp (on_subs (ss_get sid)) (gets_to w) w.
Proof.
  intros Hw. unfold on_subs. apply wp_zoom.
  pose proof (ss_get_law _ _ sid (inv_subs _ _ _ _ _ _ _ Hw)) as Hlaw.
  destruct (ss_get sid (w_subs w, w_heap w)) as [[r|e|] [s' h']] eqn:Hrun; [| |done];
    (eapply wp_run_iff; [exact Hrun|]); simpl in *.
  2:{ destruct Hlaw as [_ [= -> ->]]. exists l0, sel0. by apply same_frame. }
  destruct Hlaw as (-> & Hinv & Hobjs & Hrows & Hr).
  destruct (inv_row _ _ _ _ _ _ _ Hw) as [u0 Hrow].
  destruct r as [l|]; [|congruence]. destruct Hr as (u & Hu & Hid & _).
  exists (selector u).
  destruct Hw as [Hst Hsu _ _ Hlg Htop Hmemo Hcap Hpos]. split; [|by apply evolves_frame|done|done].
  split; try done; simpl; [rewrite Hrows, Hrow; by eexists|by exists u].
Qed.

Lemma get_spec l0 sel0 w :
  inv l0 sel0 w → wp (run_subs cfg (ss_get sid)) (gets_to w) w.
Proof.
  intros Hw. unfold run_subs, offloaded. destruct (offload_store cfg); [|by eapply on_get_spec].
  apply wp_bind. eapply wp_mono; [by apply (wb_suspend _ _ _ _ _ _ (Hwb l0 sel0))|].
  intros [[]|e|] w1 [Hs1 Hr1]; cbn [wp_next]; [|by exists l0, sel0|done].
  apply wp_and_then. eapply wp_mono; [eapply on_get_spec, Hs1|].
  assert (∀ l sel w2 (r : outcome (option loc)), same l sel w1 w2 →
    (∀ w3, same l sel w w3 → gets_to w r w3) → r ≠ NoFuel →
    wp suspend (λ r2 w3, match r2 with
      | Ret _ => gets_to w r w3
      | Raise e => gets_to w (Raise e) w3
      | NoFuel => gets_to w NoFuel w3 end) w2) as Hfin.
  { intros l sel w2 r Hs2 Hr Hnf.
    eapply wp_mono; [apply (wb_suspend _ _ _ _ _ _ (Hwb l sel)), Hs2|].
    assert (∀ w3, same l sel w2 w3 → same l sel w w3) as Hs.
    { intros w3 Hs3. eapply same_via; [exact Hs1|].
      by apply (same_trans sid l sel t T cap clock_mono w1 w2 w3). }
    intros [[]|e|] w3 [Hs3 Hr3]; [by apply Hr, Hs|exists l, sel; by apply Hs|done]. }
  intros [[l|]|e|] w2 Hr2; simpl in Hr2; [destruct Hr2 as [sel Hs2]|done|destruct Hr2 as (l & sel & Hs2)|done].
  - apply (Hfin l sel); [done| |done]. intros w3 Hs3. by exists sel.
  - apply (Hfin l sel); [done| |done]. intros w3 Hs3. by exists l, sel.
Qed.

(** ** Redelivering an item *)

Section Redelivery.
Context (i : RetryItem) (x : EventRecord).
Context (item_sub : ri_subscription_id i = sid) (item_topic : ri_topic i = t).
Context (item_cursor : ri_cursor i = ev_cursor x).
Local Abbreviation pos := (CatchUp.pos (E := E) (S := S) (Q := Q) sid t).
Local Abbreviation atts := (CatchUp.atts (E := E) (S := S) (Q := Q) sid t).
Local Abbreviation clk := (CatchUp.clk (E := E) (S := S) (Q := Q)).

(** What the queue holds for the item. *)
Definition holds (v : option RetryItem) (q : Q) : Prop := rq_inv q ∧ rq_item q (retry_id i) = v.

(** The item is leased: nobody else touches it. *)
Context (leased : ∀ v, undisturbed (holds v)).

(** The number of this attempt. *)
Definition this_attempt : Z := ri_attempt i + 1.

(** The ways in which the item's event can be settled. *)
Inductive settled (w w' : W) : Prop :=
| aged_out :
    ¬ live T x (clk w') → atts w' = atts w → pos w' = pos w → holds None (w_queue w') →
    settled w w'
| inactive (wr : W) l u :
    run_subs cfg (ss_get sid) w = (Ret (Some l), wr) →
    objs (w_heap wr) !! l = Some u → subscription_id u = sid → status u ≠ ACTIVE →
    atts w' = atts w → pos w' = pos w → holds None (w_queue w') → settled w w'
| delivered a :
    att_of sid x this_attempt "delivered" a → atts w' = atts w ++ [a] →
    pos w' = Z.max (pos w) (rec_offset x) → holds None (w_queue w') → settled w w'
| dead_lettered a :
    att_of sid x this_attempt "dead_letter" a → atts w' = atts w ++ [a] →
    pos w' = rec_offset x → holds None (w_queue w') → settled w w'
| again a next err :
    att_of sid x this_attempt "retry" a → atts w' = atts w ++ [a] → pos w' = pos w →
    this_attempt < max_attempts cfg →
    holds (Some (rescheduled next this_attempt err i)) (w_queue w') → settled w w'.

(** The outcome of a redelivery: the event is settled, or an exception came
    first and the item is still queued. *)
Definition redelivers {A} (w : W) (o : outcome A) (w' : W) : Prop :=
  match o with
  | Ret _ => settled w w'
  | Raise _ => holds (Some i) (w_queue w') ∨ settled w w'
  | NoFuel => False
  end.

Lemma queue_step (m : M Q unit) v v' l sel w :
  (∀ q, holds v q → effect_or_refusal rq_refuses q (λ _, holds v') (m q)) →
  inv l sel w → holds v (w_queue w) →
  wp (run_queue cfg m) (λ r w', same l sel w w' ∧ match r with
    | Ret _ => holds v' (w_queue w')
    | Raise _ => holds v (w_queue w') ∨ holds v' (w_queue w')
    | NoFuel => False
    end) w.
Proof.
  intros Hm Hw Hq.
  assert (∀ w, inv l sel w → holds v (w_queue w) →
    wp (on_queue m) (λ r w', same l sel w w' ∧ match r with
      | Ret _ => holds v' (w_queue w') | Raise _ => holds v (w_queue w') | NoFuel => False end) w)
    as Hon.
  { clear w Hw Hq. intros w Hw Hq. unfold on_queue. apply wp_zoom. specialize (Hm _ Hq).
    destruct (m (w_queue w)) as [r q'] eqn:Hrun. eapply wp_run_iff; [exact Hrun|].
    split; [by apply same_frame|]. destruct r; [done| |done]. by destruct Hm as [_ ->]. }
  unfold run_queue, offloaded. destruct (offload_store cfg).
  2:{ eapply wp_mono; [by apply Hon|]. intros r w' [Hs Hq']. split; [done|].
      destruct r; [done|by left|done]. }
  apply wp_bind. eapply wp_mono.
  { apply wp_conj; [by apply (wb_suspend _ _ _ _ _ _ (Hwb l sel))|].
    apply (ud_suspend _ (leased v)), Hq. }
  intros [[]|e|] w1 [[Hs1 Hr] Hq1]; cbn [wp_next]; [|by split; [|left]|done].
  apply wp_and_then. eapply wp_mono; [apply Hon; [apply Hs1|done]|].
  intros r w2 [Hs2 Hq2].
  pose proof (same_trans sid l sel t T cap clock_mono _ _ _ Hs1 Hs2) as Hs.
  assert (∀ v2, holds v2 (w_queue w2) →
    wp suspend (λ r3 w3, same l sel w w3 ∧ holds v2 (w_queue w3) ∧ r3 ≠ NoFuel) w2) as Hfin.
  { intros v2 Hv2. eapply wp_mono.
    { apply wp_conj; [apply (wb_suspend _ _ _ _ _ _ (Hwb l sel)), Hs2|].
      apply (ud_suspend _ (leased v2)), Hv2. }
    intros r3 w3 [[Hs3 Hr3] Hq3].
    split; [by apply (same_trans sid l sel t T cap clock_mono w w2 w3)|].
    split; [done|]. by intros ->. }
  destruct r as [[]|e|]; [| |done]; (eapply wp_mono; [by apply Hfin|]);
    intros [[]|e'|] w3 (Hs3 & Hv3 & Hnf); try done; (split; [done|]); auto.
Qed.

Lemma get_step l0 sel0 v w :
  inv l0 sel0 w → holds v (w_queue w) →
  wp (run_subs cfg (ss_get sid)) (λ r w', holds v (w_queue w') ∧ match r with
    | Ret (Some l) => ∃ sel, same l sel w w'
    | Ret None => False
    | Raise _ => True
    | NoFuel => False
    end) w.
Proof.
  intros Hw Hq. eapply wp_mono.
  { apply wp_conj; [by apply (get_spec l0 sel0)|].
    apply (keeps_get_subscription _ (leased v)), Hq. }
  by intros [[l|]|e|] w' [Hr Hq'].
Qed.

Lemma attrs_at (w : W) l u : objs (w_heap w) !! l = Some u → attrs l w = (Ret u, w).
Proof. intros Hu. unfold attrs, on_subs, zoom, deref. rewrite Hu. by destruct w. Qed.

(** A step that leaves the subscription alone, with the item still queued. *)
Lemma quiet_step {A} (m : PM A) Pa l sel w :
  CatchUp.quiet (E := E) (S := S) (Q := Q) sid l sel t T cap m Pa → keeps (holds (Some i)) m →
  inv l sel w → holds (Some i) (w_queue w) →
  wp m (λ r w', same l sel w w' ∧ holds (Some i) (w_queue w') ∧ r ≠ NoFuel ∧
    ∀ a, r = Ret a → Pa a) w.
Proof.
  intros Hm Hk Hw Hq. eapply wp_mono; [apply wp_conj; [by apply Hm|by apply Hk]|]. naive_solver.
Qed.

(** The item is completed once the event is settled. *)
Lemma drop_spec l sel w0 w :
  inv l sel w → holds (Some i) (w_queue w) →
  (∀ w', same l sel w w' → holds None (w_queue w') → settled w0 w') →
  wp (run_queue cfg (rq_complete (retry_id i))) (λ o w', redelivers w0 o w') w.
Proof.
  intros Hw Hq Hset. eapply wp_mono; [apply (queue_step _ (Some i) None l sel); [|done..]|].
  - intros q [Hinv Hit]. pose proof (rq_complete_law q (retry_id i) Hinv) as Hc.
    destruct (rq_complete (retry_id i) q) as [[[]|e|] q']; [|done|done].
    destruct Hc as [Hinv' Hit']. split; [done|]. by rewrite Hit', decide_True.
  - intros [[]|e|] w' [Hs Hr]; simpl; [by apply Hset| |done].
    destruct Hr; [by left|right; by apply Hset].
Qed.

(** A terminal attempt, then the completion of the item. *)
Lemma close_spec l sel w0 w p st (m : PM unit) :
  inv l sel w → holds (Some i) (w_queue w) → keeps (holds (Some i)) m →
  wp m (λ o w', closes sid l sel t T cap p x this_attempt st o w w') w →
  (∀ a w', att_of sid x this_attempt st a → moves l sel w w' p (atts w ++ [a]) →
     holds None (w_queue w') → settled w0 w') →
  wp (m ≫= λ _, run_queue cfg (rq_complete (retry_id i))) (λ o w', redelivers w0 o w') w.
Proof.
  intros Hw Hq Hk Hm Hset. apply wp_bind.
  eapply wp_mono; [apply wp_conj; [exact Hm|by apply Hk]|].
  intros [u|e|] w1 [Hc Hq1]; simpl in Hc; cbn [wp_next]; [|by left|done].
  destruct Hc as (a & Hatt & Hmv). apply (drop_spec l sel); [apply Hmv|done|].
  intros w2 Hs2 Hq2. apply (Hset a); [done| |done].
  by eapply (then_same sid l sel t T cap clock_mono).
Qed.

(** A retryable failure: the attempt is recorded and the item rescheduled. *)
Lemma reschedule_spec l sel w0 w res :
  in_log t x → inv l sel w → holds (Some i) (w_queue w) → pos w = pos w0 → atts w = atts w0 →
  this_attempt < max_attempts cfg →
  wp (record_attempt cfg l x this_attempt "retry" res ≫= λ _, on_env now ≫= λ n,
      run_queue cfg (rq_reschedule (retry_id i) (n + backoff_delay cfg this_attempt)
        this_attempt (reason res))) (λ o w', redelivers w0 o w') w.
Proof.
  intros Hx Hw Hq Hp Ha Hlt. apply wp_bind. eapply wp_mono.
  { apply wp_conj;
      [by apply (record_attempt_spec cfg sid l sel t T cap clock_mono (Hwb l sel)); [|apply Hx]|].
    by apply (keeps_record_attempt _ (leased (Some i))). }
  intros [u|e|] w1 [Hr Hq1]; cbn [wp_next]; [|by left|done].
  destruct Hr as (a & Hatt & Hmv). apply wp_bind. eapply wp_mono.
  { eapply (quiet_step _ _ l sel); [apply (quiet_env sid l sel t T cap), now_draws| |apply Hmv|done].
    apply keeps_on_env. }
  intros [n|e|] w2 (Hs2 & Hq2 & Hnf & _); cbn [wp_next]; [|by left|done].
  eapply wp_mono.
  { eapply (queue_step _ (Some i) (Some _) l sel); [|apply Hs2|done].
    intros q [Hinv Hit].
    pose proof (rq_reschedule_law q (retry_id i) (n + backoff_delay cfg this_attempt) this_attempt
      (reason res) Hinv) as Hr.
    destruct (rq_reschedule _ _ _ _ q) as [[[]|e|] q']; [|done|done].
    destruct Hr as [Hinv' Hit']. split; [done|]. by rewrite Hit', decide_True, Hit. }
  assert (∀ w3, same l sel w2 w3 → holds (Some (rescheduled (n + backoff_delay cfg this_attempt)
    this_attempt (reason res) i)) (w_queue w3) → settled w0 w3) as Hset.
  { intros w3 Hs3 Hq3. destruct Hmv as [_ _ Hp1 Ha1], Hs2 as [_ _ Hp2 Ha2], Hs3 as [_ _ Hp3 Ha3].
    by eapply (again _ _ a); [done|congruence..|done|]. }
  intros [[]|e|] w3 [Hs3 Hr3]; simpl; [by apply Hset| |done].
  destruct Hr3; [by left|right; by apply Hset].
Qed.

(** One attempt and what follows it, from [w], which differs from [w0] only
    outside this subscription. *)
Lemma attempt_spec l sel w0 w :
  in_log t x → inv l sel w → holds (Some i) (w_queue w) → pos w = pos w0 → atts w = atts w0 →
  wp (attempt_send cfg l x this_attempt ≫= λ res,
      if ack res then
        on_delivered cfg l x this_attempt res ≫= λ _, run_queue cfg (rq_complete (retry_id i))
      else if negb (retry res) || (max_attempts cfg <=? this_attempt) then
        on_terminal cfg l x this_attempt res ≫= λ _, run_queue cfg (rq_complete (retry_id i))
      else record_attempt cfg l x this_attempt "retry" res ≫= λ _, on_env now ≫= λ n,
        run_queue cfg (rq_reschedule (retry_id i) (n + backoff_delay cfg this_attempt)
          this_attempt (reason res))) (λ o w', redelivers w0 o w') w.
Proof.
  intros Hx Hw Hq Hp Ha. apply wp_bind. eapply wp_mono.
  { eapply (quiet_step _ _ l sel); [|by apply (keeps_attempt_send _ (leased (Some i)))|done..].
    apply (quiet_attempt_send cfg sid l sel t T cap clock_mono (Hwb l sel)), Hx. }
  intros [res|e|] w1 (Hs1 & Hq1 & Hnf & _); cbn [wp_next]; [|by left|done].
  destruct Hs1 as [Hw1 _ Hp1 Ha1].
  destruct (ack res); [|destruct (negb (retry res) || _) eqn:Hterm].
  - eapply (close_spec l sel w0 w1 _ "delivered"); [done..| | |].
    + by apply (keeps_on_delivered _ (leased (Some i))).
    + by apply (on_delivered_max_spec cfg sid l sel t T cap clock_mono (Hwb l sel)).
    + intros a w2 Hatt [_ _ Hp2 Ha2] Hq2. by apply (delivered _ _ a); [done|congruence..|].
  - eapply (close_spec l sel w0 w1 _ "dead_letter"); [done..| | |].
    + by apply (keeps_on_terminal _ (leased (Some i))).
    + by apply (on_terminal_spec cfg sid l sel t T cap clock_mono (Hwb l sel)).
    + intros a w2 Hatt [_ _ Hp2 Ha2] Hq2. by apply (dead_lettered _ _ a); [done|congruence..|].
  - apply (reschedule_spec l sel); [done..|congruence|congruence|]. bool_to_prop. lia.
Qed.

(** The event was logged at some earlier time. *)
Lemma redelivery_spec l0 sel0 w0 l1 sel1 w :
  inv l0 sel0 w0 → x ∈ log_events (log_of w0) → evolves t T w0 w →
  inv l1 sel1 w → holds (Some i) (w_queue w) →
  wp (retry_delivery cfg i) (λ o w', redelivers w o w') w.
Proof.
  intros Hw0 Hx He Hw Hq. unfold retry_delivery, redeliver. rewrite item_sub, item_topic, item_cursor.
  destruct (run_subs cfg (ss_get sid) w) as [o1 w1] eqn:Hget.
  pose proof (get_step l1 sel1 (Some i) w Hw Hq) as Hstep. unfold wp in Hstep. rewrite Hget in Hstep.
  destruct Hstep as [Hq1 Hr1]. apply wp_bind. eapply wp_run_iff; [exact Hget|].
  destruct o1 as [[l|]|e|]; cbn [wp_next]; [|done|by left|done].
  destruct Hr1 as [sel Hs1]. pose proof (mv_inv _ _ _ _ _ _ _ _ _ _ Hs1) as Hw1.
  destruct (inv_obj _ _ _ _ _ _ _ Hw1) as (u & Hu & Hid & _).
  apply wp_bind. eapply wp_run_iff; [by apply attrs_at|]. cbn [wp_next].
  destruct (bool_decide (status u = ACTIVE)) eqn:Hact; cbn [negb].
  2:{ apply bool_decide_eq_false in Hact. apply (drop_spec l sel); [done..|].
      intros w2 Hs2 Hq2. destruct Hs1 as [_ _ Hp1 Ha1], Hs2 as [_ _ Hp2 Ha2].
      eapply (inactive _ _ w1 l u); [done|done|done|done|congruence..|done]. }
  apply wp_bind. eapply wp_mono.
  { apply wp_conj; [|by apply (keeps_record_at _ (leased (Some i)))].
    pose proof (evolves_preorder (E := E) (S := S) (Q := Q) t T clock_mono) as Hpre.
    apply (record_at_spec l0 l sel0 sel x w0 w1); [done|done|transitivity w; [done|apply Hs1]|done]. }
  intros [[y|]|e|] w2 [[Hs2 Hr2] Hq2]; cbn [wp_next]; [|..|by left|done].
  - subst y. destruct Hs1 as [_ _ Hp1 Ha1], Hs2 as [Hw2 _ Hp2 Ha2].
    apply (attempt_spec l sel); [by apply (log_record sid l0 sel0 t T cap w0 x)|done|done|congruence|congruence].
  - apply (drop_spec l sel); [apply Hs2|done|]. intros w3 Hs3 Hq3.
    destruct Hs1 as [_ _ Hp1 Ha1], Hs2 as [_ _ Hp2 Ha2], Hs3 as [_ He3 Hp3 Ha3].
    apply aged_out; [|congruence..|done]. intros Hlive. apply Hr2. eapply live_mono; [done|].
    apply (clk_mono clock_mono), He3.
Qed.

(** A queued event is never lost. A redelivery that returns has settled the
    event: it aged out or the subscription it looked up is not active, with no
    attempt made; or exactly one attempt, numbered one more than the item's, was made and
    recorded, and the item is gone if the event was delivered or dead-lettered
    (which takes the last allowed attempt or a refusal), else rescheduled under
    the new number, below the ceiling. If an exception ends it, the item is still
    queued as it was, or the event is settled. *)
Lemma queued_event_is_settled l0 sel0 w o w' :
  inv l0 sel0 w → x ∈ log_events (log_of w) → holds (Some i) (w_queue w) →
  retry_delivery cfg i w = (o, w') → redelivers w o w'.
Proof.
  intros Hw Hx Hq Hrun. apply (proj1 (wp_run_iff _ (λ o w', redelivers w o w') w o w' Hrun)).
  pose proof (evolves_preorder (E := E) (S := S) (Q := Q) t T clock_mono) as Hpre.
  by apply (redelivery_spec l0 sel0 w l0 sel0).
Qed.
End Redelivery.
End Retry.
