(* ===== verification/RetryPass.v ===== *)
(** * A pass of the retry worker

    [RetryWorker.run_once] claims the due items of the queue and redelivers them
    one after another. What [Retry] shows of one redelivery becomes, with
    [Footprint] and [Bystander] for the redeliveries around it, a guarantee of
    the pass for each item; and the passes that an item can take part in are
    bounded by the attempts it has left. *)

From Stdlib Require Import QArith.
From S2P Require Import Prelude PyStr Value Errors Effects Models Cursor Canonical Signing Auth.
From S2P Require Import Limits Ssrf Contracts Publisher CatchUp Footprint Bystander Retry.
Open Scope Z_scope.

Section Pass.
Context {E S Q : Type} `{!EventStore E, !SubscriptionStore S, !RetryQueue Q}.
Context `{!Platform, !Crypto, !Hmac, !Net}.
Context `{!EventStoreLaws E, !SubscriptionStoreLaws S, !RetryQueueLaws Q}.
Context `{!Async (World E S Q)} (cfg : PublisherConfig).
Context (clock_mono : ∀ i j, (i ≤ j)%nat → clock i ≤ clock j).
Context (K : relation Subscription) `{!PreOrder K}.
Context (K_cursors : ∀ c u, K u (with_cursors c u)).
Context (K_selector : ∀ u u', K u u' → selector u' = selector u).

(** The subscription, topic and subscriber whose items are followed. *)
Context (sid t : string) (T : Topic) (cap : Z).
Local Abbreviation W := (World E S Q).
Local Abbreviation PM := (M W).
Local Abbreviation inv l sel := (CatchUp.inv (E := E) (S := S) (Q := Q) sid l sel t T cap).
Local Abbreviation same l sel := (CatchUp.same (E := E) (S := S) (Q := Q) sid l sel t T cap).
Local Abbreviation moves l sel := (CatchUp.moves (E := E) (S := S) (Q := Q) sid l sel t T cap).
Local Abbreviation log_of := (CatchUp.log_of (E := E) (S := S) (Q := Q) t T).
Local Abbreviation evolves := (CatchUp.evolves (E := E) (S := S) (Q := Q) t T).
Local Abbreviation pos := (CatchUp.pos (E := E) (S := S) (Q := Q) sid t).
Local Abbreviation atts := (CatchUp.atts (E := E) (S := S) (Q := Q) sid t).
Local Abbreviation clk := (CatchUp.clk (E := E) (S := S) (Q := Q)).
Context (Hwb : ∀ l sel, well_behaved (E := E) (S := S) (Q := Q) sid l sel t T cap).
Context (Hod : orderly (E := E) (S := S) (Q := Q) K sid).
Context (v : view (E := E) (S := S) (Q := Q)) (Hv : view_laws sid v).
#[local] Instance evolves_pre : PreOrder evolves := evolves_preorder t T clock_mono.
#[local] Instance view_pre : PreOrder (vw_le v) := vl_preorder _ _ Hv.

(** ** The pair itself

    What redelivering any of its items does to the pair. *)

Record onward (w w' : W) : Prop := {
  ow_evolves : evolves w w';
  ow_atts : atts w `prefix_of` atts w';
}.
#[export] Instance onward_preorder : PreOrder onward.
Proof.
  split; [intros w; by split|]. intros w1 w2 w3 [? ?] [? ?]. split; by transitivity w2 || by etransitivity.
Qed.

Lemma moves_onward l sel w w' p extra : moves l sel w w' p (atts w ++ extra) → onward w w'.
Proof. intros [_ He _ Ha]. split; [done|]. rewrite Ha. by exists extra. Qed.
Lemma same_onward l sel w w' : same l sel w w' → onward w w'.
Proof. intros [_ He _ Ha]. split; [done|]. by rewrite Ha. Qed.

Section Own.
Context (l : loc) (sel : option Selector).
Local Abbreviation J := (inv l sel).
Local Abbreviation stays := (Footprint.stays J onward).
Local Abbreviation quiet := (CatchUp.quiet (E := E) (S := S) (Q := Q) sid l sel t T cap).

Lemma quiet_stays {A} (m : PM A) (P : A → Prop) : quiet m P → stays m P.
Proof.
  intros Hm w Hw. eapply wp_mono; [by apply Hm|]. intros o w' (Hs & _ & HP).
  split_and!; [apply Hs|by eapply same_onward|done].
Qed.

Lemma own_suspend : stays suspend anything.
Proof.
  intros w Hw. eapply wp_mono; [by apply (wb_suspend _ _ _ _ _ _ (Hwb l sel))|].
  intros o w' [Hs _]. split_and!; [apply Hs|by eapply same_onward|done].
Qed.

Lemma own_read from to limit :
  from_option (λ p, 0 ≤ p < max_offset) True from →
  from_option (λ p, 0 ≤ p < max_offset) True to → 1 ≤ limit →
  stays (run_store cfg (es_read t (cursor_text t <$> from) (cursor_text t <$> to) limit))
    (λ p, Forall (in_log t) p.1).
Proof.
  intros Hfrom Hto Hlimit w Hw.
  eapply wp_mono; [by apply (read_spec cfg sid l sel t T cap clock_mono (Hwb l sel))|].
  intros o w' [Hs Hr]. split_and!; [apply Hs|by eapply same_onward|]. intros p ->.
  destruct Hr as [(wr & t1 & t2 & Ha & _ & _ & _ & Hr)|(e & ? & _)]; [|done].
  assert (∀ start, p = read_page (live_at (log_of wr) t1) start to limit → Forall (in_log t) p.1) as Hp.
  { intros start ->. apply Forall_forall. intros r Hin. apply page_elem in Hin as [Hin _].
    apply live_at_elem in Hin. eapply (log_record sid l sel t T cap); [apply Ha|exact Hin]. }
  unfold read_result in Hr. destruct from as [q|]; [|injection Hr; by apply Hp].
  destruct (head _) as [oldest|]; [|injection Hr; by apply Hp].
  destruct (_ <? _); [done|]. injection Hr; by apply Hp.
Qed.

Lemma own_queue {A} (m : M Q A) : stays (run_queue cfg m) anything.
Proof.
  apply stays_offloaded; [apply _|exact own_suspend|]. intros w Hw. unfold on_queue.
  apply wp_zoom. unfold wp. destruct (m (w_queue w)) as [o q].
  match goal with |- stays_at _ _ _ _ _ ?w' => assert (same l sel w w') as Hs by by apply same_frame end.
  split_and!; [apply Hs|by eapply same_onward|done].
Qed.

Lemma own_footprint : footprint cfg J onward (λ _ _, True) sid l t.
Proof.
  split.
  - eapply stays_weaken; [apply quiet_stays, quiet_attrs|]. by intros u [].
  - intros c. eapply stays_weaken; [apply quiet_stays, quiet_tell|done].
  - intros A m Hm. eapply stays_weaken; [apply quiet_stays; by apply quiet_env|done].
  - intros r n w Hr Hw. eapply wp_mono.
    { apply (quiet_attempt_send cfg sid l sel t T cap clock_mono (Hwb l sel)); [apply Hr|exact Hw]. }
    intros o w' (Hs & _ & _). split_and!; [apply Hs|by eapply same_onward|done].
  - intros r n st res w Hr Hw _. eapply wp_mono.
    { apply (record_attempt_spec cfg sid l sel t T cap clock_mono (Hwb l sel)); [exact Hw|apply Hr]. }
    intros [u|e|] w'; [|intros [Hs|Hm]|done].
    + intros (a & _ & Hm). split_and!; [apply Hm|by eapply moves_onward|done].
    + split_and!; [apply Hs|by eapply same_onward|done].
    + destruct Hm as (a & _ & Hm). split_and!; [apply Hm|by eapply moves_onward|done].
  - intros w Hw. eapply wp_mono.
    { apply (high_water_spec cfg sid l sel t T cap clock_mono (Hwb l sel)), Hw. }
    intros o w' (Hs & _ & Hp). split_and!; [apply Hs|by eapply same_onward|].
    intros hw Ho. unfold in_bounds. rewrite (Hp hw Ho). apply (inv_pos _ _ _ _ _ _ _ Hw).
  - intros n Hn w Hw. eapply wp_mono.
    { by apply (set_high_water_spec cfg sid l sel t T cap clock_mono (Hwb l sel)). }
    assert (∀ w', moves l sel w w' n (atts w) → stays_at J onward (@anything unit) w (Ret tt) w') as Hm.
    { intros w' Hm. split_and!; [apply Hm| |done].
      eapply (moves_onward _ _ _ _ _ []). by rewrite (right_id_L [] (++)). }
    intros [u|e|] w'; [|intros [Hs|Hmv]|done].
    + intros Hmv. destruct (Hm w' Hmv) as (? & ? & _). by split_and!.
    + split_and!; [apply Hs|by eapply same_onward|done].
    + destruct (Hm w' Hmv) as (? & ? & _). by split_and!.
  - intros i c. eapply stays_weaken;
      [apply quiet_stays; by apply (quiet_record_ack cfg sid l sel t T cap clock_mono (Hwb l sel))|done].
  - intros c. eapply stays_weaken; [apply quiet_stays; by apply quiet_assign|done].
  - eapply stays_weaken;
      [apply quiet_stays; by apply (quiet_update cfg sid l sel t T cap clock_mono (Hwb l sel))|done].
Qed.
End Own.

(** The pair is in order, by some reference to the subscription. *)
Definition in_order (w : W) : Prop := ∃ l sel, inv l sel w.

Lemma own_redelivery i w :
  in_order w → item_ok i → ri_subscription_id i = sid → ri_topic i = t →
  wp (retry_delivery cfg i) (λ _ w', in_order w' ∧ onward w w') w.
Proof.
  intros (l0 & sel0 & Hw) Hi Hsub Htopic. unfold retry_delivery. rewrite Hsub.
  apply wp_bind. eapply wp_mono; [by apply (get_spec cfg sid t T cap clock_mono Hwb l0 sel0)|].
  intros [[l|]|e|] w1 Hr; simpl in Hr; cbn [wp_next]; [|done| |done].
  2:{ destruct Hr as (l & sel & Hs). split; [exists l, sel; apply Hs|by eapply same_onward]. }
  destruct Hr as [sel Hs]. eapply wp_mono.
  { eapply (stays_redelivery cfg (inv l sel) onward (λ _ _, True)); try apply Hs;
      [apply own_footprint|exact Htopic|exact Hi|apply own_read|intros; apply own_queue..]. }
  intros o w2 (Hw2 & Hon & _). split; [by exists l, sel|].
  transitivity w1; [by eapply same_onward|done].
Qed.

(** ** Any other item *)

(** The publisher around the pair. *)
Record going (w : W) : Prop := {
  go_order : in_order w;
  go_standing : standing w;
  go_view : vw_ok v w;
}.

(** What is kept while it works. *)
Record carried (w w' : W) : Prop := {
  ca_onward : onward w w';
  ca_persists : persists K sid w w';
  ca_view : vw_le v w w';
}.
#[export] Instance carried_preorder : PreOrder carried.
Proof.
  split; [by intros w|]. intros w1 w2 w3 [? ? ?] [? ? ?]. split; by transitivity w2.
Qed.
Local Abbreviation stays := (Footprint.stays going carried).

(** Beside the pair, or beside nothing. *)
Lemma beside_item (ts0 : list string) i l sel w :
  (ri_subscription_id i = sid → ri_topic i ∉ ts0) → (∀ t0, t0 ∈ ts0 → t0 = t) →
  inv l sel w → standing w → vw_ok v w → item_ok i →
  wp (retry_delivery cfg i) (λ _ w', standing w' ∧ vw_ok v w' ∧ persists K sid w w' ∧ vw_le v w w' ∧
    (t ∈ ts0 → same l sel w w')) w.
Proof.
  intros Hapart Hts Hw Hst Hok Hi. eapply wp_mono.
  { apply (beside_redelivery cfg clock_mono K K_cursors K_selector sid l sel ts0 (λ _, T) (λ _, cap)
      (λ t0 Ht0, eq_rect_r (λ t0, well_behaved sid l sel t0 T cap) (Hwb l sel) (Hts t0 Ht0))
      Hod v Hv w i Hi Hapart).
    split; [done|apply (inv_row _ _ _ _ _ _ _ Hw)| | |done].
    - destruct (inv_obj _ _ _ _ _ _ _ Hw) as (u & Hu & Hid & _). by exists u.
    - intros t0 Ht0. rewrite (Hts t0 Ht0). by apply (same_refl _ _ _ _ _ _ clock_mono). }
  intros o w' ([Hst' _ _ Hsame Hok'] & [Hp Hle] & _). split_and!; [done..|].
  intros Ht. exact (Hsame t Ht).
Qed.

(** The redelivery of any item. *)
Lemma stays_item i : item_ok i → stays (retry_delivery cfg i) anything.
Proof.
  intros Hi w [(l & sel & Hw) Hst Hok].
  destruct (decide (ri_subscription_id i = sid ∧ ri_topic i = t)) as [[Hsub Htopic]|Hne].
  - eapply wp_mono.
    { apply wp_conj; [by apply own_redelivery; [exists l, sel|..]|].
      apply (beside_item [] i l sel w); [by intros _ ?%elem_of_nil|by intros ? ?%elem_of_nil|done..]. }
    intros o w' ((Hin & Hon) & Hst' & Hok' & Hp & Hle & _). by split_and!.
  - eapply wp_mono.
    { apply (beside_item [t] i l sel w); [|by intros t0 ->%list_elem_of_singleton|done..].
      intros Hsub Ht%list_elem_of_singleton. by apply Hne. }
    intros o w' (Hst' & Hok' & Hp & Hle & Hs).
    assert (same l sel w w') as Hsm by (apply Hs; by left).
    split_and!; [split; [exists l, sel; apply Hsm|done|done]|split; [by eapply same_onward|done|done]|done].
Qed.

(** The other steps of a pass, each beside no pair at all. *)
Lemma stays_beside {A} (m : PM A) P :
  (∀ l sel, Footprint.stays (inv l sel) onward m P) →
  (∀ l sel w0, Footprint.stays (alongside sid l sel [] (λ _, T) (λ _, cap) v sid l w0) (kept K sid v) m anything) →
  stays m P.
Proof.
  intros Hown Hb w [(l & sel & Hw) Hst Hok]. eapply wp_mono.
  { apply wp_conj; [by apply (Hown l sel)|]. apply (Hb l sel w). split; [done|apply (inv_row _ _ _ _ _ _ _ Hw)| | |done].
    - destruct (inv_obj _ _ _ _ _ _ _ Hw) as (u & Hu & Hid & _). by exists u.
    - by intros t0 ?%elem_of_nil. }
  intros o w' ((Hw' & Hon & HP) & ([Hst' _ _ _ Hok'] & [Hp Hle] & _)).
  split_and!; [split; [by exists l, sel|done|done]|by split|done].
Qed.

Lemma nothing_watched l sel t0 :
  t0 ∈ (@nil string) → well_behaved (E := E) (S := S) (Q := Q) sid l sel t0 T cap.
Proof. by intros ?%elem_of_nil. Qed.

Lemma stays_now : stays (on_env now) anything.
Proof.
  apply stays_beside.
  - intros l sel. eapply stays_weaken; [apply quiet_stays, quiet_env, now_draws|done].
  - intros l sel w0. apply (stays_env clock_mono K sid l sel [] _ _ v Hv sid l w0), now_draws.
Qed.

Lemma stays_queue_call {A} (m : M Q A) :
  (∀ q, queue_call q (m q).2) → stays (run_queue cfg m) anything.
Proof.
  intros Hm. apply stays_beside; [intros l sel; apply own_queue|]. intros l sel w0.
  by apply (stays_queue cfg clock_mono K sid l sel [] _ _ (nothing_watched l sel) Hod v Hv sid l w0).
Qed.

Lemma stays_items items :
  Forall item_ok items → stays (for_each items (retry_delivery cfg)) anything.
Proof.
  induction 1 as [|i items Hi _ IH]; simpl; [by apply stays_ret; try apply _|].
  eapply stays_bind; [apply _|by apply stays_item|by intros _ _].
Qed.

(** ** What happens to the queue *)

(** The queue is in order, and its items are about cursors of their topics. *)
Record queue_ok (q : Q) : Prop := {
  qo_inv : rq_inv q;
  qo_items : ∀ r i, rq_item q r = Some i → item_ok i;
}.
Local Abbreviation keeps := (Retry.keeps (E := E) (S := S) (Q := Q)).
Local Abbreviation undisturbed := (Retry.undisturbed (E := E) (S := S) (Q := Q)).

(** Keeping what follows from things that are kept. *)
Lemma undisturbed_from (P : Q → Prop) :
  (∀ A (m : PM A), (∀ P', undisturbed P' → keeps P' m) → keeps P m) → undisturbed P.
Proof.
  intros HP. split; [|intros u h e|intros u m]; apply HP; intros P' [Hs Hw Hm]; [exact Hs|apply Hw|apply Hm].
Qed.

Lemma undisturbed_and (P1 P2 : Q → Prop) :
  undisturbed P1 → undisturbed P2 → undisturbed (λ q, P1 q ∧ P2 q).
Proof.
  intros HP1 HP2. apply undisturbed_from. intros A m Hm w [Hq1 Hq2].
  apply wp_conj; [by apply (Hm P1)|by apply (Hm P2)].
Qed.

Lemma undisturbed_or (P1 P2 : Q → Prop) :
  undisturbed P1 → undisturbed P2 → undisturbed (λ q, P1 q ∨ P2 q).
Proof.
  intros HP1 HP2. apply undisturbed_from. intros A m Hm w [Hq|Hq].
  - eapply wp_mono; [by apply (Hm P1)|]. by left.
  - eapply wp_mono; [by apply (Hm P2)|]. by right.
Qed.

Lemma undisturbed_ex {B} (P : B → Q → Prop) :
  (∀ b, undisturbed (P b)) → undisturbed (λ q, ∃ b, P b q).
Proof.
  intros HP. apply undisturbed_from. intros A m Hm w [b Hq].
  eapply wp_mono; [by apply (Hm (P b))|]. by exists b.
Qed.

Lemma undisturbed_pure (phi : Prop) : undisturbed (λ _, phi).
Proof.
  apply undisturbed_from. intros A m _ w Hphi. unfold wp. by destruct (m w).
Qed.

(** An operation of the queue, and what it is known to leave. *)
Lemma queue_spec {A} (m : M Q A) (P Pe : Q → Prop) (Pa : A → Q → Prop) w :
  undisturbed P → undisturbed Pe → (∀ a, undisturbed (Pa a)) →
  (∀ q, P q → Pe q) → (∀ a q, Pa a q → Pe q) →
  (∀ q, P q → match m q with (Ret a, q') => Pa a q' | (_, q') => Pe q' end) →
  P (w_queue w) →
  wp (run_queue cfg m) (λ o w', match o with Ret a => Pa a (w_queue w') | _ => Pe (w_queue w') end) w.
Proof.
  intros HP HPe HPa Hweak Hweak' Hm Hq.
  assert (∀ w : W, P (w_queue w) → wp (on_queue m) (λ o w', match o with
    | Ret a => Pa a (w_queue w') | _ => Pe (w_queue w') end) w) as Hon.
  { clear w Hq. intros w Hq. unfold on_queue. apply wp_zoom. unfold wp. specialize (Hm _ Hq).
    by destruct (m (w_queue w)) as [[a|e|] q']. }
  unfold run_queue, offloaded. destruct (offload_store cfg); [|by apply Hon].
  apply wp_bind. eapply wp_mono; [by apply (ud_suspend _ HP)|].
  intros [[]|e|] w1 Hq1; cbn [wp_next]; [|by apply Hweak..].
  apply wp_and_then. eapply wp_mono; [by apply Hon|].
  intros [a|e|] w2 Hq2.
  - eapply wp_mono; [by apply (ud_suspend _ (HPa a))|]. intros [[]|e|] w3 Hq3; eauto.
  - eapply wp_mono; [by apply (ud_suspend _ HPe)|]. by intros [[]|e'|] w3 Hq3.
  - eapply wp_mono; [by apply (ud_suspend _ HPe)|]. by intros [[]|e'|] w3 Hq3.
Qed.

Lemma keeps_run_queue {A} (m : M Q A) P :
  undisturbed P → (∀ q, P q → P (m q).2) → keeps P (run_queue cfg m).
Proof.
  intros HP Hm w Hq. eapply wp_mono; [apply (queue_spec m P P (λ _, P)); eauto|].
  - intros q Hq'. specialize (Hm q Hq'). by destruct (m q) as [[a|e|] q'].
  - by intros [a|e|].
Qed.

(** The redelivery of an item, seen from the queue. *)
Lemma keeps_redelivery P i :
  undisturbed P → (∀ q, P q → P (rq_complete (retry_id i) q).2) →
  (∀ at_ n e q, P q → P (rq_reschedule (retry_id i) at_ n e q).2) →
  keeps P (retry_delivery cfg i).
Proof.
  intros HP Hc Hr. pose proof (keeps_run_queue (rq_complete (retry_id i)) P HP Hc) as Hdrop.
  unfold retry_delivery, redeliver. apply keeps_bind; [by apply keeps_get_subscription|]. intros [l|]; [|done].
  apply keeps_bind; [apply keeps_attrs|]. intros u. destruct (negb _); [done|].
  apply keeps_bind; [by apply keeps_record_at|]. intros [x|]; [|done].
  apply keeps_bind; [by apply keeps_attempt_send|]. intros res. destruct (ack res).
  { apply keeps_bind; [by apply keeps_on_delivered|]. by intros _. }
  destruct (negb (retry res) || _).
  { apply keeps_bind; [by apply keeps_on_terminal|]. by intros _. }
  apply keeps_bind; [by apply keeps_record_attempt|]. intros _.
  apply keeps_bind; [apply keeps_on_env|]. intros n. apply keeps_run_queue; [done|apply Hr].
Qed.

Lemma keeps_items P items :
  undisturbed P →
  (∀ i, i ∈ items → ∀ q, P q → P (rq_complete (retry_id i) q).2) →
  (∀ i, i ∈ items → ∀ at_ n e q, P q → P (rq_reschedule (retry_id i) at_ n e q).2) →
  keeps P (for_each items (retry_delivery cfg)).
Proof.
  intros HP. induction items as [|i items IH]; intros Hc Hr; simpl; [apply keeps_ret|].
  apply keeps_bind; [apply keeps_redelivery; [done|apply Hc; left|apply Hr; left]|].
  intros _. apply IH; intros j Hj; [apply Hc|apply Hr]; by right.
Qed.

(** Completing and rescheduling keep the queue in order. *)
Lemma queue_ok_complete r q : queue_ok q → queue_ok (rq_complete r q).2.
Proof.
  intros [Hinv Hit]. pose proof (rq_complete_law q r Hinv) as Hlaw.
  destruct (rq_complete r q) as [[a|e|] q']; simpl in *; [|by destruct Hlaw as [_ ->]|done].
  destruct Hlaw as [Hinv' Hit']. split; [done|]. intros y i. rewrite Hit'. case_decide; [done|apply Hit].
Qed.

Lemma queue_ok_reschedule r at_ n e q : queue_ok q → queue_ok (rq_reschedule r at_ n e q).2.
Proof.
  intros [Hinv Hit]. pose proof (rq_reschedule_law q r at_ n e Hinv) as Hlaw.
  destruct (rq_reschedule r at_ n e q) as [[a|x|] q']; simpl in *; [|by destruct Hlaw as [_ ->]|done].
  destruct Hlaw as [Hinv' Hit']. split; [done|]. intros y i. rewrite Hit'. case_decide; [|apply Hit].
  destruct (rq_item q y) as [j|] eqn:Hj; [|done]. intros [= <-]. by destruct (Hit y j Hj).
Qed.

Lemma with_next_same i : with_next (next_retry_at i) i = i.
Proof. by destruct i. Qed.

(** The event was logged at some time. *)
Definition once_logged (x : EventRecord) (w : W) : Prop :=
  ∃ w0 l sel, inv l sel w0 ∧ x ∈ log_events (log_of w0) ∧ evolves w0 w.

Lemma once_logged_later x w w' : once_logged x w → carried w w' → once_logged x w'.
Proof.
  intros (w0 & l & sel & Hw & Hx & He) [[He' _] _ _]. exists w0, l, sel.
  split_and!; [done|done|by transitivity w].
Qed.

(** The pass from [w] comes to the redelivery of the item [rid] in the world [w1]:
    it reads the clock, claims a batch, and redelivers what is before the item. *)
Definition comes_to (rid : string) (batch lease : Z) (w w1 : W) : Prop :=
  ∃ n wn out wc before j after,
    on_env now w = (Ret n, wn) ∧ run_queue cfg (rq_claim_due n batch lease) wn = (Ret out, wc) ∧
    out = before ++ j :: after ∧ retry_id j = rid ∧
    for_each before (retry_delivery cfg) wc = (Ret tt, w1).

(** There, the subscription is looked up and is not active. *)
Definition found_inactive (rid : string) (batch lease : Z) (w : W) : Prop :=
  ∃ w1 wr l u, comes_to rid batch lease w w1 ∧ run_subs cfg (ss_get sid) w1 = (Ret (Some l), wr) ∧
    objs (w_heap wr) !! l = Some u ∧ status u ≠ ACTIVE.

(** ** One item of the queue, through a pass *)

Section Followed.
Context (i : RetryItem) (x : EventRecord).
Context (item_sub : ri_subscription_id i = sid) (item_topic : ri_topic i = t).
Context (item_cursor : ri_cursor i = ev_cursor x).
Local Abbreviation rid := (retry_id i).
Local Abbreviation holds := (Retry.holds (Q := Q) i).

(** Nobody else touches the item, or puts nonsense into the queue. *)
Context (leased : ∀ val, undisturbed (holds val)) (sound : undisturbed queue_ok).

(** The item is queued, whenever it may be due. *)
Definition held (q : Q) : Prop := ∃ n, holds (Some (with_next n i)) q.

Lemma holds_held q : holds (Some i) q → held q.
Proof. intros Hq. exists (next_retry_at i). by rewrite with_next_same. Qed.

Lemma holds_complete r val q : r ≠ rid → holds val q → holds val (rq_complete r q).2.
Proof.
  intros Hr [Hinv Hit]. pose proof (rq_complete_law q r Hinv) as Hlaw.
  destruct (rq_complete r q) as [[a|e|] q']; simpl in *; [|by destruct Hlaw as [_ ->]|done].
  destruct Hlaw as [Hinv' Hit']. split; [done|]. by rewrite Hit', decide_False.
Qed.

Lemma holds_reschedule r val at_ n e q :
  r ≠ rid → holds val q → holds val (rq_reschedule r at_ n e q).2.
Proof.
  intros Hr [Hinv Hit]. pose proof (rq_reschedule_law q r at_ n e Hinv) as Hlaw.
  destruct (rq_reschedule r at_ n e q) as [[a|y|] q']; simpl in *; [|by destruct Hlaw as [_ ->]|done].
  destruct Hlaw as [Hinv' Hit']. split; [done|]. by rewrite Hit', decide_False.
Qed.

(** A state of the pass: what it keeps, and what the queue has for the item. *)
Definition at_item (val : option RetryItem) (w w' : W) : Prop :=
  going w' ∧ carried w w' ∧ queue_ok (w_queue w') ∧ holds val (w_queue w').

Lemma at_item_trans val val' w1 w2 w3 :
  at_item val w1 w2 → at_item val' w2 w3 → at_item val' w1 w3.
Proof. intros (_ & ? & _ & _) (? & ? & ? & ?). split_and!; [done|by transitivity w2|done..]. Qed.

(** The redeliveries of the other items. *)
Lemma others_spec items val w w1 :
  at_item val w w1 → Forall item_ok items → rid ∉ retry_id <$> items →
  wp (for_each items (retry_delivery cfg)) (λ _ w', at_item val w1 w') w1.
Proof.
  intros (Hg & _ & Hq & Hh) Hok Hrid.
  assert (∀ j, j ∈ items → retry_id j ≠ rid) as Hne.
  { intros j Hj Heq. apply Hrid. rewrite <- Heq. by apply list_elem_of_fmap_2. }
  eapply wp_mono.
  { apply wp_conj; [by apply stays_items|]. apply wp_conj.
    - apply (keeps_items (holds val)); [apply leased| | |exact Hh];
        intros j Hj; [intros q|intros at_ n e q]; [apply holds_complete|apply holds_reschedule]; auto.
    - apply (keeps_items queue_ok); [exact sound| | |exact Hq];
        intros j Hj; [intros q|intros at_ n e q]; [apply queue_ok_complete|apply queue_ok_reschedule]. }
  by intros o w' ((Hg' & Hc & _) & Hh' & Hq').
Qed.

(** ** The claim *)

Section Claim.
Context (batch lease n : Z) (Hbatch : 0 ≤ batch).
Local Abbreviation taken := (with_next (n + seconds lease) i).

Definition claims (out : list RetryItem) (q : Q) : Prop :=
  (Forall item_ok out ∧ NoDup (retry_id <$> out)) ∧ queue_ok q ∧
  ((taken ∈ out ∧ holds (Some taken) q) ∨
   (((rid ∉ retry_id <$> out) ∧ (next_retry_at i ≤ n → len out = batch)) ∧ holds (Some i) q)).

Lemma claims_undisturbed out : undisturbed (claims out).
Proof.
  apply undisturbed_and; [apply undisturbed_pure|]. apply undisturbed_and; [exact sound|].
  apply undisturbed_or; apply undisturbed_and; try apply undisturbed_pure; apply leased.
Qed.

Lemma claim_makes q :
  holds (Some i) q ∧ queue_ok q →
  match rq_claim_due n batch lease q with
  | (Ret out, q') => claims out q'
  | (_, q') => held q' ∧ queue_ok q'
  end.
Proof.
  intros [[_ Hit] [Hinv Hok]]. pose proof (rq_claim_law q n batch lease Hinv Hbatch) as Hlaw.
  destruct (rq_claim_due n batch lease q) as [[out|e|] q']; simpl in Hlaw; [| |done].
  2:{ destruct Hlaw as [_ ->]. split; [|done]. by apply holds_held. }
  destruct Hlaw as (Hinv' & Hnd & _ & Hout & Hit' & Hdue).
  assert (∀ j m, item_ok j → item_ok (with_next m j)) as Hnext by (intros j m []; by split).
  split; [split; [|done]|split; [split; [done|]|]].
  - apply Forall_forall. intros j Hj. destruct (Hout j Hj) as (j0 & Hj0 & _ & ->).
    apply Hnext. by apply (Hok (retry_id (with_next (n + seconds lease) j0))).
  - intros r j. rewrite Hit'. case_decide; [|apply Hok].
    destruct (rq_item q r) as [j0|] eqn:Hj0; [|done]. intros [= <-]. by apply Hnext, (Hok r).
  - destruct (decide (rid ∈ retry_id <$> out)) as [Hin|Hin]; [left|right].
    + split; [|split; [done|by rewrite Hit', decide_True, Hit]].
      apply list_elem_of_fmap in Hin as (j & Hid & Hj).
      destruct (Hout j Hj) as (j0 & Hj0 & _ & Heq). rewrite <- Hid, Hit in Hj0.
      injection Hj0 as <-. by rewrite <- Heq.
    + split; [split; [done|]|split; [done|by rewrite Hit', decide_False]].
      intros Hd. by destruct (Hdue rid i Hit Hd).
Qed.

Lemma claim_spec w w1 :
  at_item (Some i) w w1 →
  wp (run_queue cfg (rq_claim_due n batch lease)) (λ o w', going w' ∧ carried w1 w' ∧
    match o with
    | Ret out => claims out (w_queue w')
    | _ => held (w_queue w') ∧ queue_ok (w_queue w')
    end) w1.
Proof.
  intros (Hg & _ & Hq & Hh). eapply wp_mono.
  { apply wp_conj; [apply stays_queue_call; [constructor|exact Hg]|].
    apply (queue_spec _ (λ q, holds (Some i) q ∧ queue_ok q) (λ q, held q ∧ queue_ok q) claims).
    - by apply undisturbed_and.
    - apply undisturbed_and; [apply undisturbed_ex; intros; apply leased|done].
    - apply claims_undisturbed.
    - intros q [Hq1 Hq2]. split; [by apply holds_held|done].
    - intros out q (_ & Hq1 & [[_ Hh1]|[_ Hh1]]); (split; [|done]); [by eexists|by apply holds_held].
    - apply claim_makes.
    - done. }
  by intros o w' ((Hg' & Hc & _) & Hr).
Qed.
End Claim.

(** ** What becomes of it *)

Section Outcome.
Context (batch lease : Z).
Local Abbreviation this_attempt := (ri_attempt i + 1).

(** An attempt for the event that was made between [w] and [w']. *)
Definition attempted (st : string) (w w' : W) : Prop :=
  ∃ before a after, atts w' = atts w ++ before ++ a :: after ∧ att_of sid x this_attempt st a.

(** The ways in which a pass can settle the event. *)
Inductive resolved (w w' : W) : Prop :=
| res_closed st :
    terminal st → attempted st w w' → holds None (w_queue w') → resolved w w'
| res_again next err :
    attempted "retry" w w' → this_attempt < max_attempts cfg →
    holds (Some (rescheduled next this_attempt err i)) (w_queue w') → resolved w w'
| res_aged :
    ¬ live T x (clk w') → holds None (w_queue w') → resolved w w'
| res_inactive :
    found_inactive rid batch lease w → holds None (w_queue w') → resolved w w'.

Lemma attempted_of st w w1 w2 w' a :
  carried w w1 → atts w2 = atts w1 ++ [a] → att_of sid x this_attempt st a → carried w2 w' →
  attempted st w w'.
Proof.
  intros [[_ [b1 Hb1]] _ _] Ha Hatt [[_ [b2 Hb2]] _ _]. exists b1, a, b2. split; [|done].
  by rewrite Hb2, Ha, Hb1, <- !(assoc_L (++)).
Qed.

(** The redelivery of the item, somewhere in the pass. *)
Lemma settled_resolved n w w1 w2 w' :
  comes_to rid batch lease w w1 → carried w w1 → Retry.settled cfg sid t T (with_next n i) x w1 w2 → carried w2 w' →
  (∀ val, holds val (w_queue w2) → holds val (w_queue w')) → resolved w w'.
Proof.
  intros Hreach Hc1 Hs Hc2 Hq. destruct Hs as [Hdead _ _ Hn|wr l u Hrun Hu _ Hst _ _ Hn|a Ha Hatt _ Hn
    |a Ha Hatt _ Hn|a next err Ha Hatt _ Hlt Hn].
  - apply res_aged; [|by apply Hq]. intros Hlive. apply Hdead. eapply live_mono; [exact Hlive|].
    apply (clk_mono clock_mono), (ow_evolves _ _ (ca_onward _ _ Hc2)).
  - apply res_inactive; [|by apply Hq]. exists w1, wr, l, u. by split_and!.
  - apply (res_closed _ _ "delivered"); [by left| |by apply Hq]. by eapply attempted_of.
  - apply (res_closed _ _ "dead_letter"); [by right| |by apply Hq]. by eapply attempted_of.
  - eapply res_again; [by eapply attempted_of|done|]. by apply Hq.
Qed.

(** The outcome of the redeliveries, from the start of the pass. *)
Definition attended {A} (w : W) (o : outcome A) (w' : W) : Prop :=
  going w' ∧ carried w w' ∧ queue_ok (w_queue w') ∧
  match o with Ret _ => resolved w w' | _ => held (w_queue w') ∨ resolved w w' end.

(** The item's own redelivery, and those after it. *)
Lemma from_item_spec w n w1 after :
  comes_to rid batch lease w w1 → at_item (Some (with_next n i)) w w1 → once_logged x w →
  item_ok i → Forall item_ok after → rid ∉ retry_id <$> after →
  wp (for_each (with_next n i :: after) (retry_delivery cfg)) (attended w) w1.
Proof.
  intros Hreach (Hg1 & Hc1 & Hq1 & Hh1) (w0 & l0 & sel0 & Hw0 & Hx & He0) Hi Hafter Hrid. simpl.
  destruct (go_order _ Hg1) as (l1 & sel1 & Hw1). apply wp_bind. eapply wp_mono.
  { apply wp_conj; [apply (stays_item (with_next n i)); [by destruct Hi; split|exact Hg1]|].
    apply wp_conj; [|apply (keeps_redelivery queue_ok); [exact sound| | |exact Hq1];
      intros; [by apply queue_ok_complete|by apply queue_ok_reschedule]].
    apply (redelivery_spec cfg sid t T cap clock_mono Hwb (with_next n i) x item_sub item_topic
      item_cursor leased l0 sel0 w0 l1 sel1 w1 Hw0 Hx); [|done|done].
    transitivity w; [exact He0|]. apply (ow_evolves _ _ (ca_onward _ _ Hc1)). }
  assert (∀ w2, going w2 → carried w1 w2 → queue_ok (w_queue w2) →
    Retry.settled cfg sid t T (with_next n i) x w1 w2 → resolved w w2) as Hset.
  { intros w2 _ Hc2 _ Hs. by eapply settled_resolved; [exact Hreach|exact Hc1|exact Hs| |]. }
  intros o w2 ((Hg2 & Hc2 & _) & Hr & Hq2). assert (carried w w2) as Hc by by transitivity w1.
  destruct o as [u|e|]; cbn [wp_next]; simpl in Hr; [| |done].
  2:{ split_and!; [done..|]. destruct Hr as [Hh|Hs]; [left; by exists n|right; by apply Hset]. }
  set (val := rq_item (w_queue w2) rid).
  assert (at_item val w2 w2) as Ha by (split_and!; [done|done|done|split; [apply Hq2|done]]).
  eapply wp_mono; [by eapply others_spec|].
  intros o w3 (Hg3 & Hc3 & Hq3 & Hh3).
  assert (resolved w w3) as Hres.
  { eapply settled_resolved; [exact Hreach|exact Hc1|exact Hr|exact Hc3|]. intros val' [_ Hv'].
    split; [apply Hq3|]. rewrite <- Hv'. apply Hh3. }
  split_and!; [done|by transitivity w2|done|]. destruct o; [done|by right..].
Qed.

Lemma for_each_app {A} (body : A → PM unit) l1 l2 w :
  for_each (l1 ++ l2) body w = (for_each l1 body ≫= λ _, for_each l2 body) w.
Proof.
  revert w. induction l1 as [|a l1 IH]; intros w; [done|]. simpl.
  unfold mbind, M_bind in *. destruct (body a w) as [[u|e|] w']; [apply IH|done..].
Qed.

(** The redeliveries of a claim that has the item. *)
Lemma items_spec w n0 wn n w1 out :
  on_env now w = (Ret n0, wn) → run_queue cfg (rq_claim_due n0 batch lease) wn = (Ret out, w1) →
  at_item (Some (with_next n i)) w w1 → once_logged x w →
  Forall item_ok out → NoDup (retry_id <$> out) → with_next n i ∈ out →
  wp (for_each out (retry_delivery cfg)) (attended w) w1.
Proof.
  intros Hnow Hclaim Ha Hx Hok Hnd Hin. apply list_elem_of_split in Hin as (before & after & ->).
  rewrite Forall_app, Forall_cons in Hok. destruct Hok as (Hok1 & Hi & Hok2).
  rewrite fmap_app, fmap_cons in Hnd. apply NoDup_app in Hnd as (_ & Hd & Hnd).
  apply NoDup_cons in Hnd as [Hn2 _].
  assert (rid ∉ retry_id <$> before) as Hn1.
  { intros Hb. apply (Hd rid Hb). by left. }
  unfold wp. rewrite for_each_app. change (wp (for_each before (retry_delivery cfg) ≫= λ _,
    for_each (with_next n i :: after) (retry_delivery cfg)) (attended w) w1).
  apply wp_bind. eapply wp_mono; [apply wp_conj; [by eapply others_spec|apply wp_self]|].
  intros o w2 [Ha2 Hbefore]. pose proof (at_item_trans _ _ _ _ _ Ha Ha2) as Ha'.
  destruct o as [[]|e|]; cbn [wp_next].
  - apply from_item_spec; [|done..| |done|done]; [|by destruct Hi; split].
    exists n0, wn, (before ++ with_next n i :: after), w1, before, (with_next n i), after. by split_and!.
  - destruct Ha' as (? & ? & ? & ?). split_and!; [done..|]. left. by exists n.
  - destruct Ha' as (? & ? & ? & ?). split_and!; [done..|]. left. by exists n.
Qed.

(** ** The pass *)

(** The outcome for the item of a pass with room for [batch]. *)
Definition pass_result (w : W) (o : outcome Z) (w' : W) : Prop :=
  going w' ∧ carried w w' ∧ queue_ok (w_queue w') ∧
  match o with
  | Ret n => resolved w w' ∨
      holds (Some i) (w_queue w') ∧ (next_retry_at i ≤ clk w → n = batch)
  | _ => held (w_queue w') ∨ resolved w w'
  end.

Lemma pass_start w :
  going w → queue_ok (w_queue w) → holds (Some i) (w_queue w) →
  wp (on_env now) (λ o w', o = Ret (clk w) ∧ at_item (Some i) w w') w.
Proof.
  intros Hg Hq Hh. eapply wp_mono.
  { apply wp_conj; [by apply stays_now|]. apply wp_conj.
    - apply (keeps_on_env (holds (Some i))), Hh.
    - apply wp_conj; [apply (keeps_on_env queue_ok), Hq|].
      instantiate (1 := λ o _, o = Ret (clk w)). reflexivity. }
  intros o w' ((Hg' & Hc & _) & Hh' & Hq' & Ho). by split_and!.
Qed.

Lemma retry_pass_spec w :
  0 ≤ batch → going w → once_logged x w → holds (Some i) (w_queue w) → queue_ok (w_queue w) →
  wp (retry_run_once cfg batch lease) (pass_result w) w.
Proof.
  intros Hbatch Hg Hx Hh Hq. unfold retry_run_once. apply wp_bind.
  eapply wp_mono; [apply wp_conj; [by apply pass_start|apply wp_self]|].
  intros o w1 [[-> Ha1] Hnow]. cbn [wp_next]. apply wp_bind.
  eapply wp_mono; [apply wp_conj; [by apply (claim_spec batch lease (clk w) Hbatch w)|apply wp_self]|].
  intros o w2 [(Hg2 & Hc12 & Hr) Hclaim]. destruct Ha1 as (_ & Hc1 & _ & _).
  assert (carried w w2) as Hc2 by by transitivity w1.
  destruct o as [out|e|]; cbn [wp_next]; [|by destruct Hr; split_and!; auto..].
  destruct Hr as ([Hok Hnd] & Hq2 & [[Hin Hh2]|[[Hout Hfull] Hh2]]).
  - apply wp_bind. eapply wp_mono.
    { eapply items_spec; [exact Hnow|exact Hclaim| |exact Hx|exact Hok|exact Hnd|exact Hin]. by split_and!. }
    intros [u|e|] w3 (Hg3 & Hc3 & Hq3 & Hr); cbn [wp_next]; [|by split_and!..].
    apply wp_ret. split_and!; [done..|]. by left.
  - apply wp_bind. eapply wp_mono.
    { apply (others_spec out (Some i) w2 w2); [by split_and!|done|done]. }
    intros o w3 (Hg3 & Hc3 & Hq3 & Hh3). assert (carried w w3) as Hc by by transitivity w2.
    destruct o as [u|e|]; cbn [wp_next].
    + apply wp_ret. split_and!; [done..|]. by right.
    + split_and!; [done..|]. left. by apply holds_held.
    + split_and!; [done..|]. left. by apply holds_held.
Qed.

(** C8: a pass of the retry worker attends to every item. Whatever other items it
    claims and however their redeliveries go, an item whose event was logged ends
    the pass in one of these ways. If the pass returns, the item's event was
    attempted once more and the item is gone (delivered, or dead-lettered) or
    rescheduled below the ceiling of attempts; or the event has aged out; or this
    pass, when it came to the item, looked the subscription up and found it not
    active; or the item was not claimed and is as it was, for it was not due or
    the batch was full. If the pass ends with an exception, the item is still
    queued, with no attempt used up, or one of these happened. In each case
    positions, logs and rows stay in order. *)
Theorem retry_pass_attends w o w' :
  0 ≤ batch → going w → once_logged x w → holds (Some i) (w_queue w) → queue_ok (w_queue w) →
  retry_run_once cfg batch lease w = (o, w') → pass_result w o w'.
Proof.
  intros Hbatch Hg Hx Hh Hq Hrun. pose proof (retry_pass_spec w Hbatch Hg Hx Hh Hq) as Hp.
  unfold wp in Hp. by rewrite Hrun in Hp.
Qed.
End Outcome.
End Followed.

(** ** Passes in a row *)

Section Draining.
Context (rid : string) (x : EventRecord).
Definition has_item (val : option RetryItem) (q : Q) : Prop := rq_inv q ∧ rq_item q rid = val.
Context (leased : ∀ val, undisturbed (has_item val)) (sound : undisturbed queue_ok).
Context (batch lease : Z) (Hbatch : 0 ≤ batch).

(** An item for the event, with attempts left. *)
Record about (i : RetryItem) : Prop := {
  ab_id : retry_id i = rid;
  ab_sub : ri_subscription_id i = sid;
  ab_topic : ri_topic i = t;
  ab_cursor : ri_cursor i = ev_cursor x;
  ab_left : ri_attempt i < max_attempts cfg;
}.

(** A pass finds the queue without the item, and leaves it without. *)
Lemma absent_pass w :
  going w → queue_ok (w_queue w) → has_item None (w_queue w) →
  wp (retry_run_once cfg batch lease)
    (λ _ w', going w' ∧ carried w w' ∧ queue_ok (w_queue w') ∧ has_item None (w_queue w')) w.
Proof.
  intros Hg Hq Hh. set (i := mkRetryItem rid "" "" "" "" 0 0 None).
  unfold retry_run_once. apply wp_bind. eapply wp_mono.
  { apply wp_conj; [by apply stays_now|].
    apply wp_conj; [apply (keeps_on_env (has_item None)), Hh|apply (keeps_on_env queue_ok), Hq]. }
  intros o w1 ((Hg1 & Hc1 & _) & Hh1 & Hq1). destruct o as [n|e|]; cbn [wp_next]; [|by split_and!..].
  apply wp_bind. eapply wp_mono.
  { apply wp_conj; [apply stays_queue_call; [constructor|exact Hg1]|].
    apply (queue_spec _ (λ q, queue_ok q ∧ has_item None q) (λ q, queue_ok q ∧ has_item None q)
      (λ out q, (Forall item_ok out ∧ rid ∉ retry_id <$> out) ∧ queue_ok q ∧ has_item None q)).
    - by apply undisturbed_and.
    - by apply undisturbed_and.
    - intros out. apply undisturbed_and; [apply undisturbed_pure|by apply undisturbed_and].
    - done.
    - by intros out q [_ ?].
    - intros q [[Hinv Hok] [_ Hit]]. pose proof (rq_claim_law q n batch lease Hinv Hbatch) as Hlaw.
      destruct (rq_claim_due n batch lease q) as [[out|e|] q']; simpl in Hlaw; [| |done].
      2:{ by destruct Hlaw as [_ ->]. }
      destruct Hlaw as (Hinv' & _ & _ & Hout & Hit' & _).
      assert (∀ j m, item_ok j → item_ok (with_next m j)) as Hnext by (intros j m []; by split).
      split; [split|split; [split; [done|]|split; [done|]]].
      + apply Forall_forall. intros j Hj. destruct (Hout j Hj) as (j0 & Hj0 & _ & ->).
        apply Hnext. by apply (Hok (retry_id (with_next (n + seconds lease) j0))).
      + intros (j & Hid & Hj)%list_elem_of_fmap. destruct (Hout j Hj) as (j0 & Hj0 & _). congruence.
      + intros r j. rewrite Hit'. case_decide; [|apply Hok].
        destruct (rq_item q r) as [j0|] eqn:Hj0; [|done]. intros [= <-]. by apply Hnext, (Hok r).
      + rewrite Hit', Hit. by case_decide.
    - by split. }
  intros o w2 ((Hg2 & Hc2 & _) & Hr). assert (carried w w2) as Hc by by transitivity w1.
  destruct o as [out|e|]; cbn [wp_next]; [|by destruct Hr; split_and!..].
  destruct Hr as ([Hok Hout] & Hq2 & Hh2). apply wp_bind. eapply wp_mono.
  { by apply (others_spec i leased sound out None w2 w2). }
  intros o w3 (Hg3 & Hc3 & Hq3 & Hh3). assert (carried w w3) as Hc' by by transitivity w2.
  destruct o; cbn [wp_next]; [apply wp_ret|..]; by split_and!.
Qed.

(** How the story of the event ends, in the given passes: each is the world in
    which it began and the one in which it ended. *)
Inductive concluded (passes : list (W * W)) (w w' : W) : Prop :=
| con_closed st before a after :
    terminal st → attempt a ≤ max_attempts cfg → att_of sid x (attempt a) st a →
    atts w' = atts w ++ before ++ a :: after → concluded passes w w'
| con_aged wa wb : (wa, wb) ∈ passes → ¬ live T x (clk wb) → concluded passes w w'
| con_inactive wa wb :
    (wa, wb) ∈ passes → found_inactive rid batch lease wa → concluded passes w w'.

Lemma concluded_within ps ps' w1 w2 w3 w4 :
  carried w1 w2 → concluded ps w2 w3 → carried w3 w4 → ps ⊆ ps' → concluded ps' w1 w4.
Proof.
  intros Hc12 Hcon Hc34 Hps. pose proof (ca_onward _ _ Hc12) as [_ [b Hb]].
  pose proof (ca_onward _ _ Hc34) as [He [e Hae]].
  destruct Hcon as [st before a after Hst Hk Hatt Ha|wa wb Hin Hdead|wa wb Hin Hf].
  - apply (con_closed _ _ _ st (b ++ before) a (after ++ e)); [done..|].
    by rewrite Hae, Ha, Hb, <- !(assoc_L (++)).
  - by eapply con_aged; [by apply Hps|].
  - by eapply con_inactive; [by apply Hps|].
Qed.

(** The worker's passes, with time for others in between. A turn is a pass that
    returns with room to spare, and begins when the item, if it is still queued,
    is due. *)
Inductive works : list (W * W) → nat → W → W → Prop :=
| wk_now w : works [] 0 w w
| wk_wait ps k w w1 w2 :
    carried w w1 → (going w → going w1) → (queue_ok (w_queue w) → queue_ok (w_queue w1)) →
    rq_item (w_queue w1) rid = rq_item (w_queue w) rid → works ps k w1 w2 → works ps k w w2
| wk_pass ps k w o w1 w2 :
    retry_run_once cfg batch lease w = (o, w1) → works ps k w1 w2 → works ((w, w1) :: ps) k w w2
| wk_turn ps k w n w1 w2 :
    retry_run_once cfg batch lease w = (Ret n, w1) → n < batch →
    (∀ i, rq_item (w_queue w) rid = Some i → next_retry_at i ≤ clk w) →
    works ps k w1 w2 → works ((w, w1) :: ps) (Datatypes.S k) w w2.

(** What became of the item that was there, after [k] turns. *)
Definition tracked (ps : list (W * W)) (k : nat) (w w' : W) : Prop :=
  match rq_item (w_queue w) rid, rq_item (w_queue w') rid with
  | None, r => r = None
  | Some i, None => about i → concluded ps w w'
  | Some i, Some i' => about i → about i' ∧ ri_attempt i + Z.of_nat k ≤ ri_attempt i'
  end.

Definition in_work (w : W) : Prop := going w ∧ once_logged x w ∧ queue_ok (w_queue w).

Lemma tracked_trans ps1 ps2 j k w1 w2 w3 :
  carried w1 w2 → carried w2 w3 → tracked ps1 j w1 w2 → tracked ps2 k w2 w3 →
  tracked (ps1 ++ ps2) (j + k) w1 w3.
Proof.
  intros Hc12 Hc23. unfold tracked.
  destruct (rq_item (w_queue w1) rid) as [i1|], (rq_item (w_queue w2) rid) as [i2|],
    (rq_item (w_queue w3) rid) as [i3|]; try done; intros H12 H23.
  - intros Ha1. destruct (H12 Ha1) as [Ha2 Hl2], (H23 Ha2) as [Ha3 Hl3]. split; [done|lia].
  - intros Ha1. destruct (H12 Ha1) as [Ha2 _]. eapply (concluded_within ps2); [exact Hc12|by apply H23|done|set_solver].
  - intros Ha1. eapply (concluded_within ps1 _ w1 w1); [done|by apply H12|done|set_solver].
Qed.

Lemma resolved_tracked (turn : bool) i w w' :
  rq_item (w_queue w) rid = Some i → about i → resolved i x batch lease w w' →
  tracked [(w, w')] (Nat.b2n turn) w w'.
Proof.
  intros Hit Ha Hr. unfold tracked. rewrite Hit. destruct Ha as [Hid Hsub Htopic Hcur Hleft].
  destruct Hr as [st Hst (b & a & e & Hatts & Hatt) [_ Hn]|next err _ Hlt [_ Hn]|Hdead [_ Hn]
    |Hf [_ Hn]]; rewrite Hid in Hn; rewrite Hn; intros _.
  - assert (attempt a = ri_attempt i + 1) as Hk by apply Hatt.
    apply (con_closed _ _ _ st b a e); [done|lia|by rewrite Hk|done].
  - split; [by split|]. simpl. destruct turn; simpl; lia.
  - by apply (con_aged _ _ _ w w'); [left|].
  - rewrite Hid in Hf. by apply (con_inactive _ _ _ w w'); [left|].
Qed.

Lemma pass_tracked (turn : bool) w o w' :
  in_work w → retry_run_once cfg batch lease w = (o, w') →
  (turn = true → ∃ n, o = Ret n ∧ n < batch ∧
     ∀ i, rq_item (w_queue w) rid = Some i → next_retry_at i ≤ clk w) →
  (∀ i, rq_item (w_queue w) rid = Some i → about i) →
  in_work w' ∧ carried w w' ∧ tracked [(w, w')] (Nat.b2n turn) w w'.
Proof.
  intros (Hg & Hx & Hq) Hrun Hturn Hab.
  assert (∀ w', going w' → carried w w' → queue_ok (w_queue w') → in_work w' ∧ carried w w') as Hin.
  { intros w1 ? ? ?. split; [split_and!|]; [done|by apply (once_logged_later x w)|done|done]. }
  destruct (rq_item (w_queue w) rid) as [i|] eqn:Hit.
  2:{ assert (has_item None (w_queue w)) as Hh by (split; [apply Hq|done]).
      pose proof (absent_pass w Hg Hq Hh) as Hp. unfold wp in Hp. rewrite Hrun in Hp.
      destruct Hp as (Hg' & Hc & Hq' & _ & Hn). destruct (Hin w' Hg' Hc Hq').
      split_and!; [done..|]. unfold tracked. by rewrite Hit. }
  pose proof (Hab i eq_refl) as Ha. destruct (Ha) as [Hid Hsub Htopic Hcur Hleft].
  assert (Retry.holds i (Some i) (w_queue w)) as Hh by (split; [apply Hq|by rewrite Hid]).
  assert (∀ val, undisturbed (Retry.holds i val)) as Hl.
  { intros val. unfold Retry.holds. rewrite Hid. apply leased. }
  pose proof (retry_pass_spec i x Hsub Htopic Hcur Hl sound batch lease w Hbatch Hg Hx Hh Hq) as Hp.
  unfold wp in Hp. rewrite Hrun in Hp. destruct Hp as (Hg' & Hc & Hq' & Hr).
  destruct (Hin w' Hg' Hc Hq'). split; [done|]. split; [done|].
  assert (∀ m, Retry.holds i (Some (with_next m i)) (w_queue w') → turn = false →
    tracked [(w, w')] (Nat.b2n turn) w w') as Hkeep.
  { intros m [_ Hm] ->. rewrite Hid in Hm. unfold tracked. rewrite Hit, Hm. intros _.
    split; [by split|simpl; lia]. }
  assert (resolved i x batch lease w w' → tracked [(w, w')] (Nat.b2n turn) w w') as Hres by by apply resolved_tracked.
  destruct o as [n|e|]; [destruct Hr as [Hr|[Hr Hfull]]|destruct Hr as [[m Hr]|Hr]|
    destruct Hr as [[m Hr]|Hr]]; try by apply Hres.
  - apply (Hkeep (next_retry_at i)); [by rewrite with_next_same|].
    destruct turn; [|done]. destruct (Hturn eq_refl) as (n' & [= <-] & Hlt & Hdue).
    specialize (Hdue i eq_refl). specialize (Hfull Hdue). lia.
  - apply (Hkeep m Hr). destruct turn; [|done]. by destruct (Hturn eq_refl) as (? & ? & _).
  - apply (Hkeep m Hr). destruct turn; [|done]. by destruct (Hturn eq_refl) as (? & ? & _).
Qed.

Lemma tracked_same w w' :
  rq_item (w_queue w') rid = rq_item (w_queue w) rid → tracked [] 0 w w'.
Proof.
  unfold tracked. intros ->. destruct (rq_item (w_queue w) rid) as [i|]; [|done].
  intros Ha. split; [done|lia].
Qed.

Lemma tracked_about ps k w w' :
  tracked ps k w w' → (∀ i, rq_item (w_queue w) rid = Some i → about i) →
  ∀ i, rq_item (w_queue w') rid = Some i → about i.
Proof.
  unfold tracked. intros Ht Hab i' Hi'. rewrite Hi' in Ht.
  destruct (rq_item (w_queue w) rid) as [i|]; [|done]. by apply Ht, Hab.
Qed.

Lemma works_tracked ps k w w' :
  works ps k w w' → in_work w → (∀ i, rq_item (w_queue w) rid = Some i → about i) →
  in_work w' ∧ carried w w' ∧ tracked ps k w w'.
Proof.
  induction 1 as [w|ps k w w1 w2 Hc Hg Hq Hit _ IH|ps k w o w1 w2 Hrun _ IH
    |ps k w n w1 w2 Hrun Hn Hdue _ IH]; intros Hw Hab.
  - split_and!; [done..|]. by apply tracked_same.
  - destruct Hw as (Hg0 & Hx & Hq0). destruct IH as (Hw2 & Hc2 & Ht).
    + split_and!; [by apply Hg|by apply (once_logged_later x w)|by apply Hq].
    + intros i. rewrite Hit. apply Hab.
    + split_and!; [done|by transitivity w1|]. apply (tracked_trans [] ps 0 k w w1); [done|done| |done].
      by apply tracked_same.
  - destruct (pass_tracked false w o w1 Hw Hrun) as (Hw1 & Hc1 & Ht1); [done|exact Hab|].
    destruct IH as (Hw2 & Hc2 & Ht2); [done|by eapply tracked_about|].
    split_and!; [done|by transitivity w1|by apply (tracked_trans [(w, w1)] ps 0 k w w1)].
  - destruct (pass_tracked true w (Ret n) w1 Hw Hrun) as (Hw1 & Hc1 & Ht1); [by exists n|exact Hab|].
    destruct IH as (Hw2 & Hc2 & Ht2); [done|by eapply tracked_about|].
    split_and!; [done|by transitivity w1|by apply (tracked_trans [(w, w1)] ps 1 k w w1)].
Qed.

(** As many turns as the item has attempts left. *)
Lemma drained ps k w w' i :
  in_work w → rq_item (w_queue w) rid = Some i → about i → works ps k w w' →
  max_attempts cfg - ri_attempt i ≤ Z.of_nat k →
  in_work w' ∧ carried w w' ∧ rq_item (w_queue w') rid = None ∧ concluded ps w w'.
Proof.
  intros Hw Hit Ha Hworks Hk.
  destruct (works_tracked ps k w w' Hworks Hw) as (Hw' & Hc & Ht); [intros j Hj; by simplify_eq|].
  split; [done|]. split; [done|]. unfold tracked in Ht. rewrite Hit in Ht.
  destruct (rq_item (w_queue w') rid) as [i'|]; [|by split; [|apply Ht]].
  destruct (Ht Ha) as [Ha' Hl]. pose proof (ab_left _ Ha'). lia.
Qed.

(** C9: every queued delivery comes to an end. Let the retry worker make its
    passes, some of them cut short by exceptions or too small for what is due,
    with any amount of time and other activity in between. After as many turns
    (passes that return with room to spare and begin when the item is due) as the
    item has attempts left, the item is no longer in the queue; and its event was
    delivered or dead-lettered by an attempt whose number is at most the maximum,
    or had aged out of retention when one of these passes ended, or one of these
    passes, when it came to the item, found its subscription not active. *)
Theorem retries_come_to_an_end ps k w w' i :
  in_work w → rq_item (w_queue w) rid = Some i → about i → works ps k w w' →
  max_attempts cfg - ri_attempt i ≤ Z.of_nat k →
  rq_item (w_queue w') rid = None ∧ concluded ps w w'.
Proof.
  intros Hw Hit Ha Hworks Hk. by destruct (drained ps k w w' i Hw Hit Ha Hworks Hk) as (_ & _ & ?).
Qed.
End Draining.
End Pass.
