(* ===== verification/Handover.v ===== *)
(** * From the dispatcher to the retry queue

    With a retry queue, [_deliver_queued] tries an event once; an attempt that may
    be repeated leaves an item in the queue, which [RetryPass] follows from there.
    An event that is dispatched so is delivered, or dead-lettered, or aged out, or
    its subscription has ended, once the worker has had its turns. *)

From Stdlib Require Import QArith.
From S2P Require Import Prelude PyStr Value Errors Effects Models Cursor Canonical Signing Auth.
From S2P Require Import Limits Ssrf Contracts Publisher CatchUp Footprint Bystander Retry RetryPass.
Open Scope Z_scope.

Section Handover.
Context {E S Q : Type} `{!EventStore E, !SubscriptionStore S, !RetryQueue Q}.
Context `{!Platform, !Crypto, !Hmac, !Net}.
Context `{!EventStoreLaws E, !SubscriptionStoreLaws S, !RetryQueueLaws Q}.
Context `{!Async (World E S Q)} (cfg : PublisherConfig).
Context (clock_mono : ∀ i j, (i ≤ j)%nat → clock i ≤ clock j).
Context (K : relation Subscription) `{!PreOrder K}.
Context (K_cursors : ∀ c u, K u (with_cursors c u)).
Context (K_selector : ∀ u u', K u u' → selector u' = selector u).
Context (Hsize : 1 ≤ page_size cfg) (Hqueue : retry_queue cfg = true).
Context (Henq : ∀ i (q : Q), (rq_enqueue i q).1 ≠ NoFuel).

Context (sid t : string) (T : Topic) (cap : Z).
Local Abbreviation W := (World E S Q).
Local Abbreviation PM := (M W).
Local Abbreviation inv l sel := (CatchUp.inv (E := E) (S := S) (Q := Q) sid l sel t T cap).
Local Abbreviation moves l sel := (CatchUp.moves (E := E) (S := S) (Q := Q) sid l sel t T cap).
Local Abbreviation log_of := (CatchUp.log_of (E := E) (S := S) (Q := Q) t T).
Local Abbreviation pos := (CatchUp.pos (E := E) (S := S) (Q := Q) sid t).
Local Abbreviation atts := (CatchUp.atts (E := E) (S := S) (Q := Q) sid t).
Context (Hwb : ∀ l sel, well_behaved (E := E) (S := S) (Q := Q) sid l sel t T cap).
Context (Hod : orderly (E := E) (S := S) (Q := Q) K sid).
Context (v : view (E := E) (S := S) (Q := Q)) (Hv : view_laws sid v).
#[local] Instance handed_evolves_pre : PreOrder (CatchUp.evolves (E := E) (S := S) (Q := Q) t T) :=
  evolves_preorder t T clock_mono.
#[local] Instance handed_view_pre : PreOrder (vw_le v) := vl_preorder _ _ Hv.
#[local] Instance handed_kept_pre : PreOrder (kept K sid v).
Proof. apply kept_preorder with (sid0 := sid); [apply _|exact Hv]. Qed.
Local Abbreviation going := (going (E := E) (S := S) (Q := Q) sid t T cap v).
Local Abbreviation carried := (carried (E := E) (S := S) (Q := Q) K sid t T v).

(** ** The publisher stays in order *)

Lemma deliver_queued_goes l sel r w :
  inv l sel w → going w → in_log t r → pos w < rec_offset r →
  wp (deliver_queued cfg l r) (λ _ w', going w' ∧ carried w w') w.
Proof.
  intros Hw [_ Hst Hok] Hr Hlt.
  assert (∀ t0, t0 ∈ @nil string → well_behaved (E := E) (S := S) (Q := Q) sid l sel t0 T cap) as Hnil
    by by intros t0 ?%elem_of_nil.
  assert (alongside sid l sel [] (λ _, T) (λ _, cap) v sid l w w) as Hal.
  { split; [done|apply (inv_row _ _ _ _ _ _ _ Hw)| | |done].
    - destruct (inv_obj _ _ _ _ _ _ _ Hw) as (u & Hu & Hid & _). by exists u.
    - by intros t0 ?%elem_of_nil. }
  assert (sid = sid → t ∉ @nil string) as Hother by by intros _ ?%elem_of_nil.
  pose proof (stays_deliver_queued cfg _ _ _ sid l t
    (bystander_footprint cfg clock_mono K K_cursors K_selector sid l sel [] (λ _, T) (λ _, cap) Hnil Hod
      v Hv sid l t Hother w)
    (bystander_paging cfg clock_mono K sid l sel [] (λ _, T) (λ _, cap) Hnil Hod v Hv sid l t w Hsize)
    r Hr w Hal) as Hbeside.
  eapply wp_mono; [apply (wp_conj _ _ _ _ (deliver_queued_spec cfg sid l sel t T cap clock_mono (Hwb l sel)
    r w Hw Hr Hlt Hqueue Henq) Hbeside)|].
  intros o w' (Hd & ([Hst' _ _ _ Hok'] & [Hp Hle] & _)).
  assert (∃ p extra, moves l sel w w' p (atts w ++ extra)) as (p & extra & Hmv).
  { destruct o as [b|e|]; simpl in Hd; [| |done].
    - destruct Hd as (runs & _ & Hmv). by exists (rec_offset r), runs.
    - destruct Hd as (runs & _ & [Hmv|[_ Hmv]]); by do 2 eexists. }
  split; [split; [exists l, sel; apply Hmv|done|done]|].
  split; [by eapply moves_onward|done|done].
Qed.

(** ** The first attempt *)

Local Abbreviation keeps := (Retry.keeps (E := E) (S := S) (Q := Q)).
Local Abbreviation undisturbed := (Retry.undisturbed (E := E) (S := S) (Q := Q)).
Context (sound : undisturbed queue_ok).

Definition retry_name (n : nat) : string := "rty_" +:+ uuid4_hex n.

(** The identifiers from [n0] on are not in the queue, and nobody else will use
    one of them or touch what is put there under it. *)
Record unused (n0 : nat) (w : W) : Prop := {
  un_free : ∀ n, (n0 ≤ n)%nat → rq_item (w_queue w) (retry_name n) = None;
  un_ours : ∀ n val, (n0 ≤ n)%nat → undisturbed (has_item (retry_name n) val);
}.

(** The delivery ended with its first attempt. *)
Definition at_once (r : EventRecord) (w w' : W) : Prop :=
  ∃ st a, terminal st ∧ att_of sid r 1 st a ∧ atts w' = atts w ++ [a].

(** It left an item for the event. *)
Definition handed (n0 : nat) (r : EventRecord) (w' : W) : Prop :=
  ∃ n i, (n0 ≤ n)%nat ∧ has_item (retry_name n) (Some i) (w_queue w') ∧
    about cfg sid t (retry_name n) r i ∧ ri_attempt i = 1.

Definition free_from (n0 : nat) (q : Q) : Prop :=
  queue_ok q ∧ ∀ n, (n0 ≤ n)%nat → has_item (retry_name n) None q.

Lemma free_undisturbed n0 w : unused n0 w → undisturbed (free_from n0).
Proof.
  intros [_ Hours]. apply undisturbed_and; [exact sound|]. apply undisturbed_from.
  intros A m Hm w1 Hq. apply (wp_forall (λ n, (n0 ≤ n)%nat)). intros n Hn.
  apply (Hm (has_item (retry_name n) None)); [by apply Hours|by apply Hq].
Qed.

(** Enqueuing an item under an identifier that is not in the queue. *)
Lemma enqueue_free n0 n i q :
  free_from n0 q → (n0 ≤ n)%nat → retry_id i = retry_name n → item_ok i →
  match rq_enqueue i q with
  | (Ret _, q') => queue_ok q' ∧ has_item (retry_name n) (Some i) q'
  | (_, q') => queue_ok q'
  end.
Proof.
  intros [[Hinv Hok] Hfree] Hn Hid Hi. pose proof (rq_enqueue_law q i Hinv) as Hlaw.
  destruct (rq_enqueue i q) as [[a|e|] q']; simpl in Hlaw; [| |done].
  2:{ destruct Hlaw as [_ ->]. by split. }
  destruct Hlaw as (Hinv' & _ & Hnew & Hold). rewrite Hid in Hnew, Hold.
  specialize (Hnew (proj2 (Hfree n Hn))). split; [split; [done|]|by split].
  intros x j Hj. destruct (decide (x = retry_name n)) as [->|Hne]; [congruence|].
  rewrite Hold in Hj by done. by eapply Hok.
Qed.

Lemma log_item_ok w l sel r rid at_ n e :
  inv l sel w → r ∈ log_events (log_of w) →
  item_ok (mkRetryItem rid sid (ev_topic r) (ev_cursor r) (event_id r) n at_ e).
Proof.
  intros Hw Hr. pose proof (log_record sid l sel t T cap w r Hw Hr) as [Ht _ _ Hrange].
  destruct (inv_log _ _ _ _ _ _ _ Hw) as [lg Hlg].
  assert (log_of w = lg) as Hl by (unfold CatchUp.log_of; by rewrite Hlg).
  pose proof (es_inv_wf _ _ _ (inv_store _ _ _ _ _ _ _ Hw) Hlg) as Hwf. rewrite Hl in Hr.
  split; simpl; rewrite Ht; [apply (wf_nonempty _ _ Hwf)|].
  exists (rec_offset r). split; [by apply (rec_cursor _ _ Hwf)|done].
Qed.

Local Abbreviation same l sel := (CatchUp.same (E := E) (S := S) (Q := Q) sid l sel t T cap).
Local Abbreviation quiet l sel := (CatchUp.quiet (E := E) (S := S) (Q := Q) sid l sel t T cap).

(** A step that leaves the pair alone, and what it leaves of the queue. *)
Lemma quiet_and_keeps {A} l sel (m : PM A) Pa (P : Q → Prop) w :
  quiet l sel m Pa → keeps P m → inv l sel w → P (w_queue w) →
  wp m (λ o w', (same l sel w w' ∧ P (w_queue w')) ∧ ∀ a, o = Ret a → Pa a) w.
Proof.
  intros Hm Hk Hw Hq. eapply wp_mono; [apply wp_conj; [by apply Hm|by apply Hk]|]. naive_solver.
Qed.

Lemma keeps_hand_off P l r : undisturbed P → keeps P (hand_off cfg l r).
Proof.
  intros Hud. unfold hand_off, run_subs. apply keeps_bind; [apply keeps_lift|]. intros n.
  apply keeps_bind; [apply keeps_attrs|]. intros u. apply keeps_offloaded; [done|apply keeps_on_subs].
Qed.

(** The part after the failed attempt. *)
Lemma hand_over_spec l sel n0 r res w :
  inv l sel w → (∀ n val, (n0 ≤ n)%nat → undisturbed (has_item (retry_name n) val)) →
  undisturbed (free_from n0) → free_from n0 (w_queue w) → (n0 ≤ uuids (w_env w))%nat →
  in_log t r → (∀ rid at_ e, item_ok (mkRetryItem rid sid (ev_topic r) (ev_cursor r) (event_id r) 1 at_ e)) →
  1 < max_attempts cfg →
  wp (rid ← on_env new_retry_id;
      u ← attrs l;
      now_ ← on_env now;
      _ ← run_queue cfg (rq_enqueue (mkRetryItem rid (subscription_id u) (ev_topic r) (ev_cursor r)
            (event_id r) 1 (now_ + backoff_delay cfg 1) (reason res)));
      _ ← hand_off cfg l r;
      mret false)
    (λ o w', ∀ b, o = Ret b → queue_ok (w_queue w') ∧ handed n0 r w') w.
Proof.
  intros Hw Hours Hud Hq Hn0 Hin Hitem Hmax. set (n := uuids (w_env w)) in *.
  apply wp_bind. eapply wp_mono.
  { apply wp_conj; [apply (quiet_and_keeps l sel _ _ (free_from n0)
      w (quiet_env sid l sel t T cap _ retry_id_draws) (keeps_on_env _ _) Hw Hq)|].
    instantiate (1 := λ o _, o = Ret (retry_name n)). reflexivity. }
  intros o w1 [[[Hs1 Hq1] _] ->]. cbn [wp_next]. apply wp_bind. eapply wp_mono.
  { apply (quiet_and_keeps l sel _ _ (free_from n0) w1 (quiet_attrs sid l sel t T cap)
      (keeps_attrs _ _)); [apply Hs1|exact Hq1]. }
  intros [u|e|] w2 [[Hs2 Hq2] Hu]; cbn [wp_next]; [|done..]. destruct (Hu u eq_refl) as [Hid _].
  rewrite Hid. apply wp_bind. eapply wp_mono; [apply (keeps_on_env (free_from n0)), Hq2|].
  intros [now_|e|] w3 Hq3; cbn [wp_next]; [|done..].
  set (i := mkRetryItem (retry_name n) sid (ev_topic r) (ev_cursor r) (event_id r) 1
    (now_ + backoff_delay cfg 1) (reason res)).
  assert (item_ok i) as Hi by apply Hitem.
  set (P := λ q, queue_ok q ∧ has_item (retry_name n) (Some i) q).
  assert (undisturbed P) as HP by (apply undisturbed_and; [exact sound|by apply Hours]).
  apply wp_bind. eapply wp_mono.
  { apply (queue_spec cfg (rq_enqueue i) (free_from n0) queue_ok (λ _, P) w3 Hud sound (λ _, HP)).
    - by intros q [? _].
    - by intros _ q [? _].
    - intros q Hfree. pose proof (enqueue_free n0 n i q Hfree Hn0 eq_refl Hi) as He.
      by destruct (rq_enqueue i q) as [[x|e|] q'].
    - exact Hq3. }
  intros [x|e|] w4 Hq4; cbn [wp_next]; [|done..]. apply wp_bind.
  eapply wp_mono; [apply (keeps_hand_off P l r HP), Hq4|].
  intros [y|e|] w5 [Hok5 Hi5]; cbn [wp_next]; [|done..]. apply wp_ret. intros b _.
  split; [done|]. exists n, i. split_and!; [done|done| |done].
  split; [done|done|apply Hin|done|done].
Qed.

(** What a delivery that returns leaves: a finished attempt, or an item. *)
Lemma deliver_queued_hands_over l sel n0 r w :
  inv l sel w → unused n0 w → queue_ok (w_queue w) → (n0 ≤ uuids (w_env w))%nat →
  r ∈ log_events (log_of w) → pos w < rec_offset r →
  wp (deliver_queued cfg l r) (λ o w', ∀ b, o = Ret b → queue_ok (w_queue w') ∧
    (at_once r w w' ∨ handed n0 r w')) w.
Proof.
  intros Hw Hun Hok Hn0 Hr Hlt. pose proof (log_record sid l sel t T cap w r Hw Hr) as Hin.
  assert (free_from n0 (w_queue w)) as Hq.
  { split; [done|]. intros n Hn. split; [apply Hok|by apply Hun]. }
  pose proof (free_undisturbed n0 w Hun) as Hud. unfold deliver_queued.
  apply wp_bind. eapply wp_mono.
  { apply (quiet_and_keeps l sel _ _ (free_from n0) w
      (quiet_attempt_send cfg sid l sel t T cap clock_mono (Hwb l sel) r 1 (il_topic _ _ Hin))
      (keeps_attempt_send cfg _ Hud l r 1) Hw Hq). }
  intros [res|e|] w1 [[Hs1 Hq1] _]; cbn [wp_next]; [|done..].
  assert (inv l sel w1) as Hw1 by apply Hs1.
  assert (pos w1 < rec_offset r) as Hlt1 by (destruct Hs1; congruence).
  assert (∀ p st a w2, moves l sel w1 w2 p (atts w1 ++ [a]) → terminal st → att_of sid r 1 st a →
    at_once r w w2) as Honce.
  { intros p st a w2 Hmv Hst Ha. exists st, a. split_and!; [done..|].
    rewrite (mv_atts _ _ _ _ _ _ _ _ _ _ Hmv). by rewrite (mv_atts _ _ _ _ _ _ _ _ _ _ Hs1). }
  destruct (ack res).
  { apply wp_bind. eapply wp_mono.
    { apply wp_conj; [by apply (on_delivered_spec cfg sid l sel t T cap clock_mono (Hwb l sel) r 1 res w1)|].
      apply (keeps_on_delivered cfg _ Hud l r 1 res), Hq1. }
    intros [x|e|] w2 [Hcl [Hok2 _]]; cbn [wp_next]; [|done..]. destruct Hcl as (a & Ha & Hmv).
    apply wp_ret. intros b _. split; [done|]. left. eapply Honce; [exact Hmv|by left|exact Ha]. }
  destruct (negb (retry res) || (max_attempts cfg <=? 1)) eqn:Hterm.
  { apply wp_bind. eapply wp_mono.
    { apply wp_conj; [by apply (on_terminal_spec cfg sid l sel t T cap clock_mono (Hwb l sel) r 1 res w1)|].
      apply (keeps_on_terminal cfg _ Hud l r 1 res), Hq1. }
    intros [x|e|] w2 [Hcl [Hok2 _]]; cbn [wp_next]; [|done..]. destruct Hcl as (a & Ha & Hmv).
    apply wp_ret. intros b _. split; [done|]. left. eapply Honce; [exact Hmv|by right|exact Ha]. }
  apply orb_false_iff in Hterm as [_ Hmax%Z.leb_gt]. apply wp_bind. eapply wp_mono.
  { apply wp_conj; [by apply (record_attempt_spec cfg sid l sel t T cap clock_mono (Hwb l sel) r 1
      "retry" res w1 Hw1 (il_cursor _ _ Hin))|].
    apply (keeps_record_attempt cfg _ Hud l r 1 "retry" res), Hq1. }
  intros [x|e|] w2 [Hmv Hq2]; cbn [wp_next]; [|done..]. destruct Hmv as (a & _ & Hmv).
  assert (env_le (w_env w) (w_env w2)) as [_ Hids].
  { transitivity (w_env w1); [apply Hs1|apply Hmv]. }
  eapply wp_mono.
  { apply (hand_over_spec l sel n0 r res w2); [apply Hmv|by apply (un_ours _ _ Hun)|exact Hud|exact Hq2|lia|
      exact Hin|
      intros rid at_ e; exact (log_item_ok w l sel r rid at_ 1 e Hw Hr)|exact Hmax]. }
  intros o w3 Ho b Hb. destruct (Ho b Hb) as [Hok3 Hh]. split; [done|by right].
Qed.
End Handover.
