(* ===== verification/Lifecycle.v ===== *)
(** * Subscription lifecycle: get, renew, delete, expiry, dispatch gating

    Functional specifications of the control operations of the publisher
    against the subscription store's contract, for stores called in place or
    offloaded, when no other task runs during an offloaded call. A row is the subscription as any reader of the store sees it; a
    store may refuse any call with an exception of its own, which leaves the
    rows as they were or as the objects already are. *)

From S2P Require Import Prelude PyStr Value Errors Effects Models Base64 Cursor Selectors.
From S2P Require Import Canonical Signing Limits Observability Auth Ssrf Contracts Publisher.
Open Scope Z_scope.

Section Lifecycle.
Context {E S Q : Type} `{!EventStore E, !SubscriptionStore S, !RetryQueue Q}.
Context `{!Platform, !Crypto, !Hmac, !Net}.
Context `{!SubscriptionStoreLaws S}.
Context `{!Async (World E S Q)} (cfg : PublisherConfig).
(** No other task runs while an offloaded store call is under way. *)
Context (alone : offload_store cfg = true → ∀ w, suspend w = (Ret tt, w)).

Local Abbreviation W := (World E S Q).
Local Abbreviation PM := (M W).

Definition time_of (w : W) : Z := clock (tick (w_env w)).

(** The world with another subscription store and heap. *)
Definition put_subs (s : S) (h : Heap) (w : W) : W :=
  mkWorld (w_store w) (w_env w) s h (w_queue w) (w_topics w) (w_keys w) (w_authorizer w)
    (w_limiter w) (w_metrics w).

(** What no control operation on a subscription touches. *)
Record untouched (sid : string) (w w' : W) : Prop := {
  un_inv : ss_inv (w_subs w') (w_heap w');
  un_store : w_store w' = w_store w;
  un_queue : w_queue w' = w_queue w;
  un_authorizer : w_authorizer w' = w_authorizer w;
  un_hw : ∀ x, ss_hw (w_subs w') x = ss_hw (w_subs w) x;
  un_attempts : ss_attempts (w_subs w') = ss_attempts (w_subs w);
  un_rows : ∀ x, x ≠ sid → row_of w' x = row_of w x;
  un_env : env_le (w_env w) (w_env w');
}.

Lemma untouched_refl sid w : ss_inv (w_subs w) (w_heap w) → untouched sid w w.
Proof. by split. Qed.

Lemma untouched_trans sid w1 w2 w3 :
  untouched sid w1 w2 → untouched sid w2 w3 → untouched sid w1 w3.
Proof.
  intros [? ? ? ? Hh1 Ha1 Hr1 He1] [? ? ? ? Hh2 Ha2 Hr2 He2].
  split; [done|congruence..| |congruence| |by transitivity (w_env w2)].
  - intros x. by rewrite Hh2.
  - intros x Hx. by rewrite Hr2, Hr1.
Qed.

(** The store refused a call. *)
Definition refused {A} (o : outcome A) : Prop := ∃ e, o = Raise e ∧ ss_refuses e.

(** The row holds [u]: all but the cursors exactly, and everything as well as
    the store keeps it (cursors are a dictionary: each topic once). *)
Definition row_is (w : W) (sid : string) (u : Subscription) : Prop :=
  ∃ u', row_of w sid = Some u' ∧ same_but_cursors u u' ∧ (dict_wf (cursors u) → ss_same u u').

Lemma row_is_eq w sid u : row_of w sid = Some u → row_is w sid u.
Proof. intros Hr. by exists u. Qed.

(** A reference to the object of a subscription. *)
Definition refers (w : W) (l : loc) (u : Subscription) : Prop := objs (w_heap w) !! l = Some u.

Lemma run_subs_sync {A} (m : M (S * Heap) A) w r s' h' :
  m (w_subs w, w_heap w) = (r, (s', h')) → run_subs cfg m w = (r, put_subs s' h' w).
Proof.
  intros Hm. assert (on_subs m w = (r, put_subs s' h' w)) as Hon by (unfold on_subs, zoom; by rewrite Hm).
  unfold run_subs, offloaded. destruct (offload_store cfg); [|exact Hon].
  rewrite (bind_ret _ _ _ _ _ (alone eq_refl w)). unfold and_then. by rewrite Hon, (alone eq_refl).
Qed.

(** An assignment through a reference; the row follows if the store holds it. *)
Lemma assign_run w l u f :
  ss_inv (w_subs w) (w_heap w) → refers w l u → subscription_id (f u) = subscription_id u →
  ∃ w', assign l f w = (Ret tt, w') ∧ untouched (subscription_id u) w w' ∧
    refers w' l (f u) ∧ w_env w' = w_env w ∧
    (is_Some (row_of w' (subscription_id u)) ↔ is_Some (row_of w (subscription_id u))) ∧
    (row_of w' (subscription_id u) = row_of w (subscription_id u) ∨
     row_of w' (subscription_id u) = Some (f u)).
Proof.
  intros Hw Hu Hid. exists (put_subs (w_subs w) (write_obj l (f u) (w_heap w)) w).
  destruct (ss_write_law _ _ l u (f u) Hw Hu Hid) as (Hinv & Hsome & Hothers & Hown).
  split_and!; [|by split|apply lookup_insert_eq|done|apply Hsome|exact Hown].
  unfold assign. by erewrite bind_ret by by apply attrs_run.
Qed.

Lemma put_subs_id w : put_subs (w_subs w) (w_heap w) w = w.
Proof. by destruct w. Qed.

(** Writing an object back. *)
Lemma update_run w l u u0 :
  ss_inv (w_subs w) (w_heap w) → refers w l u →
  row_of w (subscription_id u) = Some u0 → same_creation u0 u →
  ∃ o w', run_subs cfg (ss_update l) w = (o, w') ∧ untouched (subscription_id u) w w' ∧
    refers w' l u ∧ w_env w' = w_env w ∧
    match o with
    | Ret _ => row_is w' (subscription_id u) u
    | Raise e => ss_refuses e ∧ row_of w' (subscription_id u) = Some u0
    | NoFuel => False
    end.
Proof.
  intros Hw Hu Hrow Hsame. pose proof (ss_update_law _ _ l u u0 Hw Hu Hrow) as Hlaw.
  destruct (ss_update l (w_subs w, w_heap w)) as [o [s' h']] eqn:Hrun.
  exists o, (put_subs s' h' w). split; [by apply run_subs_sync|].
  destruct o as [[]|e|]; simpl in Hlaw; [| |done].
  - destruct Hlaw as (-> & Hinv & (u' & Hnew & Hs) & Hrest & Hhw & Hatt).
    split_and!; [by split|done..|]. exists u'. split; [done|by apply Hs].
  - destruct Hlaw as [He [= -> ->]]. rewrite put_subs_id.
    split_and!; try done; by apply untouched_refl.
Qed.

(** Reading a subscription. *)
Lemma get_run w sid :
  ss_inv (w_subs w) (w_heap w) →
  ∃ o w', run_subs cfg (ss_get sid) w = (o, w') ∧ untouched sid w w' ∧
    row_of w' sid = row_of w sid ∧ w_env w' = w_env w ∧
    match o with
    | Ret None => row_of w sid = None
    | Ret (Some l) => ∃ u, refers w' l u ∧ subscription_id u = sid ∧ row_of w sid = Some u
    | Raise e => ss_refuses e
    | NoFuel => False
    end.
Proof.
  intros Hw. pose proof (ss_get_law _ _ sid Hw) as Hlaw.
  destruct (ss_get sid (w_subs w, w_heap w)) as [o [s' h']] eqn:Hrun.
  exists o, (put_subs s' h' w). split; [by apply run_subs_sync|].
  destruct o as [r|e|]; simpl in Hlaw; [| |done].
  - destruct Hlaw as (-> & Hinv & _ & Hrows & Hr). split_and!; [|apply Hrows|done|].
    + split; simpl; try done. intros x _. apply Hrows.
    + destruct r as [l|]; [|done]. destruct Hr as (u & ? & ? & ?). by exists u.
  - destruct Hlaw as [He [= -> ->]]. rewrite put_subs_id.
    split_and!; try done; by apply untouched_refl.
Qed.

(** ** Expiry *)

(** The lease of [u] has lapsed at time [c]. *)
Definition lapsed (u : Subscription) (c : Z) : bool :=
  bool_decide (status u = ACTIVE) && (lease_until u <=? c).

(** The subscription as the lifecycle code leaves it at time [c]. *)
Definition expired_at (c : Z) (u : Subscription) : Subscription :=
  if lapsed u c then with_status EXPIRED u else u.

Lemma expired_at_id c u : subscription_id (expired_at c u) = subscription_id u.
Proof. unfold expired_at. by destruct (lapsed u c). Qed.

Lemma expired_at_creation c u : same_creation u (expired_at c u).
Proof. unfold expired_at. by destruct (lapsed u c). Qed.

(** The expiry check: what it answers, and the object it leaves. *)
Lemma expire_if_due_run w l u :
  ss_inv (w_subs w) (w_heap w) → refers w l u → row_of w (subscription_id u) = Some u →
  ∃ w', expire_if_due l w = (Ret (lapsed u (time_of w)), w') ∧
    untouched (subscription_id u) w w' ∧ refers w' l (expired_at (time_of w) u) ∧
    (row_of w' (subscription_id u) = Some u ∨
     row_of w' (subscription_id u) = Some (expired_at (time_of w) u)).
Proof.
  intros Hw Hu Hrow. unfold expire_if_due, expired_at, lapsed.
  erewrite bind_ret by by apply attrs_run.
  destruct (decide (status u = ACTIVE)) as [Hact|Hact].
  2:{ exists w. rewrite bool_decide_false by done. split_and!;
      [done|by apply untouched_refl|done|by left]. }
  rewrite bool_decide_true by done. simpl.
  set (w1 := mkWorld (w_store w) (mkEnv (Datatypes.S (tick (w_env w))) (uuids (w_env w)))
    (w_subs w) (w_heap w) (w_queue w) (w_topics w) (w_keys w) (w_authorizer w) (w_limiter w)
    (w_metrics w)).
  assert (untouched (subscription_id u) w w1) as Hun1.
  { split; try done. unfold env_le; simpl; lia. }
  erewrite (bind_ret (on_env now) _ w (time_of w) w1) by done.
  destruct (lease_until u <=? time_of w) eqn:Hdue; [|by exists w1; split_and!; [..|left]].
  destruct (assign_run w1 l u (with_status EXPIRED)) as (w2 & Hrun & Hun & Hl & _ & _ & Hown);
    [done..|].
  exists w2. split_and!; [by erewrite bind_ret by done|by eapply untouched_trans|done|].
  destruct Hown as [Hown|Hown]; [left|by right]. rewrite Hown. exact Hrow.
Qed.

(** The check followed by the write that persists it. *)
Lemma expire_run w l u {A} (k : PM A) :
  ss_inv (w_subs w) (w_heap w) → refers w l u → row_of w (subscription_id u) = Some u →
  let m := expired ← expire_if_due l;
           _ ← (if expired : bool then run_subs cfg (ss_update l) else mret tt); k in
  ∃ w', untouched (subscription_id u) w w' ∧ refers w' l (expired_at (time_of w) u) ∧
    ((m w = k w' ∧ row_is w' (subscription_id u) (expired_at (time_of w) u)) ∨
     (∃ e, m w = (Raise e, w') ∧ ss_refuses e ∧
       (row_of w' (subscription_id u) = Some u ∨
        row_of w' (subscription_id u) = Some (expired_at (time_of w) u)))).
Proof.
  intros Hw Hu Hrow m.
  destruct (expire_if_due_run w l u Hw Hu Hrow) as (w1 & Hrun & Hun & Hl & Hown).
  unfold m. erewrite bind_ret by done. destruct (lapsed u (time_of w)) eqn:Hlap.
  - assert (∃ u0, row_of w1 (subscription_id u) = Some u0 ∧
      same_creation u0 (expired_at (time_of w) u) ∧ (u0 = u ∨ u0 = expired_at (time_of w) u))
      as (u0 & Hu0 & Hc & Hor).
    { destruct Hown; eexists; (split; [done|]); (split; [|by auto]); [apply expired_at_creation|done]. }
    destruct (update_run w1 l (expired_at (time_of w) u) u0) as (o & w2 & Hrun2 & Hun2 & Hl2 & _ & Ho);
      rewrite ?expired_at_id in *; [apply Hun|done..|].
    exists w2. split; [by eapply untouched_trans|]. split; [done|].
    destruct o as [[]|e|]; [left|right|done].
    + by erewrite bind_ret by done.
    + destruct Ho as [He Ho]. exists e. erewrite bind_raise by done. split_and!; [done..|].
      rewrite Ho. destruct Hor as [->| ->]; auto.
  - exists w1. split_and!; [done..|left]. erewrite bind_ret by done. split; [done|].
    apply row_is_eq. unfold expired_at in *. rewrite Hlap in *. by destruct Hown.
Qed.

(** ** Reading a subscription *)

(** What [get_subscription] does to the row [u] at time [c]. *)
Definition got (w w' : W) (sid : string) (o : outcome loc) : Prop :=
  match row_of w sid with
  | Some u =>
      if decide (status u = DELETED) then o = Raise (not_found sid) ∧ row_of w' sid = Some u
      else ∃ l, o = Ret l ∧ subscription_id u = sid ∧
             refers w' l (expired_at (time_of w) u) ∧ row_is w' sid (expired_at (time_of w) u)
  | None => o = Raise (not_found sid) ∧ row_of w' sid = None
  end.

(** Reading a subscription, on every branch: an unknown or deleted one is
    [SUBSCRIPTION_NOT_FOUND]; an active one whose lease has run out comes back
    expired and is stored expired; any other comes back as stored. *)
Lemma get_subscription_run w sid :
  ss_inv (w_subs w) (w_heap w) →
  ∃ o w', get_subscription cfg sid w = (o, w') ∧ untouched sid w w' ∧
    (refused o ∨ got w w' sid o).
Proof.
  intros Hw. destruct (get_run w sid Hw) as (r & w1 & Hrun & Hun & Hrow & Henv & Hr).
  unfold get_subscription, got. destruct r as [[l|]|e|]; [| | |done].
  3:{ exists (Raise e), w1. split_and!; [by erewrite bind_raise by done|done|].
      left. by exists e. }
  2:{ erewrite bind_ret by done. rewrite Hr. exists (Raise (not_found sid)), w1.
      split_and!; [done..|]. right. by rewrite Hrow. }
  erewrite bind_ret by done. destruct Hr as (u & Hu & Hid & Hsome). rewrite Hsome.
  erewrite bind_ret by by apply attrs_run.
  destruct (decide (status u = DELETED)) as [Hdel|Hdel].
  { rewrite bool_decide_true by done. do 2 eexists. split_and!; [done..|]. right. by rewrite Hrow. }
  rewrite bool_decide_false by done.
  destruct (expire_run w1 l u (mret l)) as (w2 & Hun2 & Hl2 & Hcase);
    [apply Hun|done|by rewrite Hid, Hrow|].
  rewrite Hid in *. assert (time_of w1 = time_of w) as Ht by (unfold time_of; by rewrite Henv).
  rewrite Ht in *. destruct Hcase as [[-> Hr2]|(e & -> & He & _)].
  - exists (Ret l), w2. split_and!; [done|by eapply untouched_trans|]. right. by exists l.
  - exists (Raise e), w2. split_and!; [done|by eapply untouched_trans|]. left. by exists e.
Qed.

(** What [delete] leaves of a row. *)
Definition deleted_row (w w' : W) (sid : string) : Prop :=
  match row_of w sid with
  | Some u => row_is w' sid (with_status DELETED u)
  | None => row_of w' sid = None
  end.

Lemma delete_run w sid :
  ss_inv (w_subs w) (w_heap w) →
  ∃ o w', delete cfg sid w = (o, w') ∧ untouched sid w w' ∧
    (refused o ∨ ∃ r, o = Ret r ∧ deleted_row w w' sid ∧ (is_Some r ↔ is_Some (row_of w sid))).
Proof.
  intros Hw. destruct (get_run w sid Hw) as (r & w1 & Hrun & Hun & Hrow & Henv & Hr).
  unfold delete, deleted_row. destruct r as [[l|]|e|]; [| | |done].
  3:{ exists (Raise e), w1. split_and!; [by erewrite bind_raise by done|done|].
      left. by exists e. }
  2:{ erewrite bind_ret by done. exists (Ret None), w1. split_and!; [done..|]. right. exists None.
      rewrite Hrow, Hr. split_and!; [done..|]. by split; intros []. }
  erewrite bind_ret by done. destruct Hr as (u & Hu & Hid & Hsome).
  destruct (assign_run w1 l u (with_status DELETED)) as (w2 & Hrun2 & Hun2 & Hl2 & _ & _ & Hown);
    [apply Hun|done|done|].
  assert (∃ u0, row_of w2 (subscription_id (with_status DELETED u)) = Some u0 ∧
    same_creation u0 (with_status DELETED u)) as (u0 & Hu0 & Hc).
  { simpl. destruct Hown as [->| ->]; [|by eexists]. rewrite Hid, Hrow, Hsome. by eexists. }
  destruct (update_run w2 l (with_status DELETED u) u0) as (o & w3 & Hrun3 & Hun3 & _ & _ & Ho);
    [apply Hun2|done..|].
  simpl in Hun3, Ho. rewrite Hid in *. rewrite Hsome. erewrite bind_ret by done.
  assert (untouched sid w w3) as Hun13 by (do 2 (eapply untouched_trans; [done|]); done).
  destruct o as [[]|e|]; [| |done].
  - exists (Ret (Some l)), w3. split_and!; [by erewrite bind_ret by done|done|].
    right. exists (Some l). split_and!; [done..|]. split; by eexists.
  - exists (Raise e), w3. split_and!; [by erewrite bind_raise by done|done|].
    left. exists e. split; [done|apply Ho].
Qed.

(** The row a renewal writes. *)
Definition renewed (until : Z) (u : Subscription) : Subscription :=
  with_status ACTIVE (with_lease until u).

Lemma same_creation_status u u' st n :
  same_creation u u' → same_creation u (with_status st (with_lease n u')).
Proof. done. Qed.

(** What [renew] does on every branch. *)
Definition renews (w w' : W) (sid : string) (lease : Z) (o : outcome loc) : Prop :=
  match row_of w sid with
  | Some u =>
      if decide (status u = DELETED) then o = Raise (not_found sid) ∧ row_of w' sid = Some u
      else ∃ l i, o = Ret l ∧ (tick (w_env w) ≤ i)%nat ∧
             row_is w' sid (renewed (clock i + seconds lease) u)
  | None => o = Raise (not_found sid) ∧ row_of w' sid = None
  end.

(** The writes of a renewal, once the subscription is in hand. *)
Lemma renew_writes w l u u1 until :
  ss_inv (w_subs w) (w_heap w) → refers w l u → row_of w (subscription_id u) = Some u1 →
  same_creation u1 u →
  ∃ o w', (_ ← assign l (with_lease until); _ ← assign l (with_status ACTIVE);
           _ ← run_subs cfg (ss_update l); _ ← tell (Incr "lease_renewals" 1 []); mret l) w
         = (o, w') ∧
    untouched (subscription_id u) w w' ∧
    (refused o ∨ o = Ret l ∧ row_is w' (subscription_id u) (renewed until u)).
Proof.
  intros Hw Hu Hrow Hc.
  destruct (assign_run w l u (with_lease until)) as (w3 & R3 & Hun3 & Hl3 & _ & _ & Ho3);
    [done..|].
  destruct (assign_run w3 l (with_lease until u) (with_status ACTIVE))
    as (w4 & R4 & Hun4 & Hl4 & _ & _ & Ho4); [apply Hun3|done|done|].
  assert (∃ u0, row_of w4 (subscription_id (renewed until u)) = Some u0 ∧
    same_creation u0 (renewed until u)) as (u0 & Hu0 & Hc0).
  { simpl in Ho4 |- *. destruct Ho4 as [->| ->]; [|by eexists].
    destruct Ho3 as [->| ->]; [|by eexists]. rewrite Hrow. by exists u1. }
  destruct (update_run w4 l (renewed until u) u0) as (o & w5 & R5 & Hun5 & _ & _ & Ho);
    [apply Hun4|done..|].
  simpl in Hun4, Hun5, Ho. do 2 erewrite bind_ret by done.
  assert (untouched (subscription_id u) w w5) as Hall
    by (do 2 (eapply untouched_trans; [done|]); done).
  destruct o as [[]|e|]; [| |done].
  - erewrite bind_ret by done. do 2 eexists. split; [done|]. split; [|by right].
    eapply untouched_trans; [exact Hall|]. split; try done. apply Hun5.
  - exists (Raise e), w5. split_and!; [by erewrite bind_raise by done|done|].
    left. exists e. split; [done|apply Ho].
Qed.

Lemma renew_run w sid lease :
  ss_inv (w_subs w) (w_heap w) → check_lease cfg lease = Ret tt →
  ∃ o w', renew cfg sid lease w = (o, w') ∧ untouched sid w w' ∧
    (refused o ∨ renews w w' sid lease o).
Proof.
  intros Hw Hlease. unfold renew, renews. rewrite Hlease. erewrite bind_lift by done.
  destruct (get_subscription_run w sid Hw) as (o & w1 & Hrun & Hun & [(e & -> & He)|Ho]).
  { exists (Raise e), w1. split_and!; [by erewrite bind_raise by done|done|]. left. by exists e. }
  unfold got in Ho. destruct (row_of w sid) as [u|].
  2:{ destruct Ho as [-> Hrow]. exists (Raise (not_found sid)), w1.
      split_and!; [by erewrite bind_raise by done|done|by right]. }
  destruct (decide (status u = DELETED)) as [Hdel|Hdel].
  { destruct Ho as [-> Hrow]. exists (Raise (not_found sid)), w1.
    split_and!; [by erewrite bind_raise by done|done|by right]. }
  destruct Ho as (l & -> & Hid & Hl & (u1 & Hrow & Hsame)). erewrite bind_ret by done.
  set (w2 := mkWorld (w_store w1) (mkEnv (Datatypes.S (tick (w_env w1))) (uuids (w_env w1)))
    (w_subs w1) (w_heap w1) (w_queue w1) (w_topics w1) (w_keys w1) (w_authorizer w1)
    (w_limiter w1) (w_metrics w1)).
  assert (untouched sid w1 w2) as Hun2.
  { split; try done; [apply Hun|]. unfold env_le; simpl; lia. }
  erewrite (bind_ret (on_env now) _ w1 (time_of w1) w2) by done.
  set (until := time_of w1 + seconds lease).
  destruct (renew_writes w2 l (expired_at (time_of w) u) u1 until) as (o & w3 & R3 & Hun3 & Ho);
    [apply Hun|done|by rewrite expired_at_id, Hid|exact (eq_sym (same_but_cursors_creation _ _ (proj1 Hsame)))|].
  rewrite expired_at_id, Hid in *. rewrite R3. exists o, w3. split; [done|].
  split; [by do 2 (eapply untouched_trans; [done|])|].
  destruct Ho as [Ho|[-> Hrow3]]; [by left|right].
  exists l, (tick (w_env w1)). split_and!; [done|apply Hun|].
  replace (renewed (clock (tick (w_env w1)) + seconds lease) u)
    with (renewed until (expired_at (time_of w) u)); [done|].
  unfold expired_at. by destruct (lapsed u (time_of w)).
Qed.

(** ** Dispatch gating *)

Lemma is_active_run w l u :
  ss_inv (w_subs w) (w_heap w) → refers w l u → row_of w (subscription_id u) = Some u →
  ∃ o w', is_active cfg l w = (o, w') ∧ untouched (subscription_id u) w w' ∧
    refers w' l (expired_at (time_of w) u) ∧
    (refused o ∨ o = Ret (bool_decide (status (expired_at (time_of w) u) = ACTIVE))).
Proof.
  intros Hw Hu Hrow. unfold is_active.
  destruct (expire_run w l u (u ← attrs l; mret (bool_decide (status u = ACTIVE)) : PM bool))
    as (w1 & Hun & Hl & [[Hrun _]|(e & Hrun & He & _)]); [done..| |].
  - rewrite Hrun. erewrite bind_ret by by apply attrs_run. do 2 eexists.
    split_and!; [done..|by right].
  - rewrite Hrun. exists (Raise e), w1. split_and!; [done..|]. left. by exists e.
Qed.

(** ** Properties *)

(** Deletion is idempotent and final: it marks the row deleted (and does
    nothing for an unknown id), repeating it changes nothing more, and from then
    on the subscription cannot be read, unless the store refuses a call. *)
Lemma delete_idempotent w sid :
  ss_inv (w_subs w) (w_heap w) →
  ∃ o1 w1 o2 w2 o3 w3, delete cfg sid w = (o1, w1) ∧ delete cfg sid w1 = (o2, w2) ∧
    get_subscription cfg sid w2 = (o3, w3) ∧ untouched sid w w3 ∧
    (refused o1 ∨ refused o2 ∨ ∃ r1 r2, o1 = Ret r1 ∧ o2 = Ret r2 ∧ deleted_row w w1 sid ∧
       match row_of w1 sid with
       | Some u => row_is w2 sid u
       | None => row_of w2 sid = None
       end ∧ (is_Some r1 ↔ is_Some r2) ∧ (refused o3 ∨ o3 = Raise (not_found sid))).
Proof.
  intros Hw. destruct (delete_run w sid Hw) as (o1 & w1 & R1 & U1 & C1).
  destruct (delete_run w1 sid (un_inv _ _ _ U1)) as (o2 & w2 & R2 & U2 & C2).
  destruct (get_subscription_run w2 sid (un_inv _ _ _ U2)) as (o3 & w3 & R3 & U3 & C3).
  exists o1, w1, o2, w2, o3, w3. split_and!; [done..|by do 2 (eapply untouched_trans; [done|])|].
  destruct C1 as [?|(r1 & -> & D1 & S1)]; [by left|right].
  destruct C2 as [?|(r2 & -> & D2 & S2)]; [by left|right]. exists r1, r2.
  assert (∀ u v, same_but_cursors u v → status v = status u) as status_kept
    by (intros u v Hs; exact (eq_sym (f_equal status Hs))).
  split; [done|]. split; [done|]. split; [done|]. unfold deleted_row, got in *.
  destruct (row_of w sid) as [u|].
  - destruct D1 as (u1 & K1 & E1). rewrite K1 in *. destruct D2 as (u2 & K2 & E2).
    assert (status u1 = DELETED) as St1 by exact (status_kept _ _ (proj1 E1)).
    assert (with_status DELETED u1 = u1) as Eu1 by (destruct u1; simpl in *; by subst).
    rewrite Eu1 in E2. split; [by exists u2|]. split; [rewrite S1, S2; split; by eexists|].
    rewrite K2 in C3. destruct C3 as [?|C3]; [by left|right].
    rewrite decide_True in C3; [apply C3|]. by rewrite (status_kept _ _ (proj1 E2)).
  - rewrite D1 in *. split; [done|]. split; [rewrite S1, S2; split; by intros []|].
    rewrite D2 in C3. destruct C3 as [?|C3]; [by left|right; apply C3].
Qed.

(** C20: renewal, on every branch: a lease outside the configured bounds is
    refused before anything is read; an unknown or deleted subscription is not
    found; else, lapsed or not, the subscription is active again with a lease
    counted from now, and its positions are where they were, so the events of
    the gap are still owed. Only a call that the store refuses (none of the
    in-memory store) ends otherwise, with the store's exception. The store is
    called in place or offloaded, and no other task runs during these calls. *)
Theorem renew_cases w sid lease :
  ss_inv (w_subs w) (w_heap w) →
  (lease < min_lease_seconds cfg → ∃ msg d,
     renew cfg sid lease w = (Raise (A2AEventsError LEASE_TOO_SHORT msg d), w)) ∧
  (min_lease_seconds cfg ≤ lease → max_lease_seconds cfg < lease → ∃ msg d,
     renew cfg sid lease w = (Raise (A2AEventsError LEASE_TOO_LONG msg d), w)) ∧
  (min_lease_seconds cfg ≤ lease ≤ max_lease_seconds cfg →
   ∃ o w', renew cfg sid lease w = (o, w') ∧ untouched sid w w' ∧
     (refused o ∨ renews w w' sid lease o)).
Proof.
  intros Hw. unfold renew at 1 2, check_lease. split_and!.
  - intros Hlt. rewrite (proj2 (Z.ltb_lt _ _)) by done. by do 2 eexists.
  - intros Hge Hgt. rewrite (proj2 (Z.ltb_ge _ _)) by done.
    rewrite (proj2 (Z.ltb_lt _ _)) by done. by do 2 eexists.
  - intros [Hge Hle]. apply renew_run; [done|]. unfold check_lease.
    rewrite (proj2 (Z.ltb_ge _ _)) by done. by rewrite (proj2 (Z.ltb_ge _ _)) by done.
Qed.

(** C17: no delivery without a live lease and a current grant: dispatching to a
    subscription that is deleted, expired, past its lease, or no longer
    authorized for one of its topics processes nothing, records no attempt and
    moves no position, also when the store refuses the write of an expiry; for
    stores called in place or offloaded, as long as no other task runs during
    these calls. *)
Theorem gated_dispatch fuel w l u ts :
  ss_inv (w_subs w) (w_heap w) → refers w l u → row_of w (subscription_id u) = Some u →
  status u ≠ ACTIVE ∨ lease_until u ≤ time_of w ∨
    (∃ a, w_authorizer w = Some a ∧ authorize_delivery a u = false) →
  ∃ o w', dispatch_subscription cfg fuel l ts w = (o, w') ∧ (o = Ret 0 ∨ refused o) ∧
    untouched (subscription_id u) w w'.
Proof.
  intros Hw Hu Hrow Hgate. unfold dispatch_subscription.
  destruct (is_active_run w l u Hw Hu Hrow) as (o & w1 & Hrun & Hun & Hl & [(e & -> & He)| ->]).
  { exists (Raise e), w1. split_and!; [by erewrite bind_raise by done| |done].
    right. by exists e. }
  erewrite bind_ret by done. exists (Ret 0), w1. split; [|split; [by left|done]].
  unfold expired_at, lapsed in *.
  destruct (decide (status u = ACTIVE)) as [Hact|Hact].
  2:{ rewrite (bool_decide_false (status u = ACTIVE)) in * by done. simpl in *.
      by rewrite bool_decide_false. }
  rewrite (bool_decide_true (status u = ACTIVE)) in * by done. simpl in *.
  destruct (Z.leb_spec (lease_until u) (time_of w)) as [Hdue|Hlive].
  { by rewrite bool_decide_false. }
  destruct Hgate as [?|[?|(a & Ha & Hdeny)]]; [done|lia|].
  rewrite bool_decide_true by done. simpl.
  erewrite bind_ret by by apply attrs_run. erewrite bind_ret by done.
  by rewrite (un_authorizer _ _ _ Hun), Ha, Hdeny.
Qed.
End Lifecycle.
