(* ===== verification/MemoryEventStore.v ===== *)
(** * In-memory event store ([runtime/memory/event_store.py])

    Append-only per-topic logs with monotonic offsets, retention filtering on
    read, compaction, and the paged [read]. The theorems: every operation keeps
    the logs well formed; the read loop computes the declarative page of
    [Contracts.read_page]; and the store satisfies the [EventStore] laws. *)

From S2P Require Import Prelude PyStr Value Errors Effects Models Cursor Canonical Contracts.
Open Scope Z_scope.

(** [InMemoryEventStore._logs]; a [_TopicLog] is a [Contracts.TopicLog]. *)
Record InMemoryEventStore := mkStore { logs : list (string * TopicLog) }.

Definition empty_store : InMemoryEventStore := mkStore [].

Section Operations.
Context `{Platform}.
Local Abbreviation ST := (M (InMemoryEventStore * Env)).

(** Draw from the platform inside a store operation. *)
Definition in_env {A} (m : M Env A) : ST A := zoom snd (λ v s, (s.1, v)) m.

Definition lookup_log (topic : string) : ST (option TopicLog) :=
  gets (λ s, dict_get topic (logs s.1)).

Definition set_log (topic : string) (l : TopicLog) : ST unit :=
  modify (λ s, (mkStore (dict_set topic l (logs s.1)), s.2)).

(** [declare_topic(topic)]: the first declaration wins. *)
Definition declare_topic (t : Topic) : ST unit :=
  modify (λ s, (mkStore (dict_setdefault (name t) (mkTopicLog t [] 0) (logs s.1)), s.2)).

(** [get_topic(name)] *)
Definition get_topic (n : string) : ST Topic :=
  log ← lookup_log n;
  match log with
  | None => raise (topic_not_found n)
  | Some l => mret (log_topic l)
  end.

(** [topics()] *)
Definition topics_ : ST (list Topic) := gets (λ s, log_topic <$> dict_values (logs s.1)).

(** [count(topic)] *)
Definition count (topic : string) : ST Z :=
  gets (λ s, match dict_get topic (logs s.1) with Some l => next_offset l | None => 0 end).

(** [append(topic, event_type, source, data, subject)]. The offset is taken
    before the record is built: an exception in between loses it. *)
Definition append (topic event_type source : string) (data : list (string * value))
    (subject : option string) : ST EventRecord :=
  log ← lookup_log topic;
  match log with
  | None => raise (topic_not_found topic)
  | Some l =>
      let offset := next_offset l in
      _ ← set_log topic (mkTopicLog (log_topic l) (log_events l) (offset + 1));
      event_id ← in_env new_event_id;
      cursor ← lift (encode topic offset);
      created_at ← in_env now;
      text ← lift (canonicalize (VDict data));
      let record := mkEventRecord event_id topic cursor event_type source data subject
                      created_at ("sha256:" +:+ sha256_hexdigest text) in
      _ ← set_log topic
            (mkTopicLog (log_topic l) (log_events l ++ [record]) (offset + 1));
      mret record
  end.

(** [e.created_at >= horizon] *)
Definition kept_at (horizon : Z) (r : EventRecord) : bool := horizon <=? ev_created_at r.

(** The body of the loop of [compact]: the number of events removed. *)
Definition compact_one (now_ : Z) (n : string) : ST Z :=
  log ← lookup_log n;
  match log with
  | None => mret 0
  | Some l =>
      if retention_seconds (log_topic l) <=? 0 then mret 0 else
      let horizon := now_ - seconds (retention_seconds (log_topic l)) in
      let kept := List.filter (kept_at horizon) (log_events l) in
      _ ← set_log n (mkTopicLog (log_topic l) kept (next_offset l));
      mret (Z.of_nat (length (log_events l)) - Z.of_nat (length kept))
  end.

(** [compact(topic)] *)
Definition compact (topic : option string) : ST Z :=
  names ← match topic with
          | Some t => mret [t]
          | None => gets (λ s, dict_keys (logs s.1))
          end;
  now_ ← in_env now;
  removed ← map_m (compact_one now_) names;
  mret (foldr Z.add 0 removed).

(** [_live_events(topic)]: [self._logs[topic]] is a [KeyError] for an
    unknown topic. *)
Definition live_events (topic : string) : ST (list EventRecord) :=
  log ← lookup_log topic;
  match log with
  | None => raise (KeyError topic)
  | Some l =>
      if retention_seconds (log_topic l) <=? 0 then mret (log_events l) else
      now_ ← in_env now;
      mret (List.filter
              (kept_at (now_ - seconds (retention_seconds (log_topic l)))) (log_events l))
  end.

(** [oldest_available_cursor(topic)] *)
Definition oldest_available_cursor (topic : string) : ST (option string) :=
  live ← live_events topic;
  mret (ev_cursor <$> head live).

(** [latest_cursor(topic)] *)
Definition latest_cursor (topic : string) : ST string :=
  log ← lookup_log topic;
  match log with
  | None => raise (KeyError topic)
  | Some l =>
      match last (log_events l) with
      | Some r => mret (ev_cursor r)
      | None => lift (encode topic (Z.max (next_offset l - 1) 0))
      end
  end.

(** The generator of [has_more]. *)
Fixpoint any_later (offset : Z) (to_offset : option Z) (live : list EventRecord)
    : outcome bool :=
  match live with
  | [] => mret false
  | r :: rest =>
      n ← offset_of (ev_cursor r);
      if (offset <? n) && match to_offset with None => true | Some q => n <=? q end
      then mret true else any_later offset to_offset rest
  end.

(** The [for record in live] loop of [read]; [out] holds the records taken
    so far. *)
Fixpoint read_loop (live : list EventRecord) (start_offset : Z) (to_offset : option Z)
    (limit : Z) (out rest : list EventRecord)
    : outcome (list EventRecord * option string) :=
  match rest with
  | [] => mret (out, None)
  | record :: rest' =>
      offset ← offset_of (ev_cursor record);
      if offset <=? start_offset then
        read_loop live start_offset to_offset limit out rest'
      else if match to_offset with Some q => q <? offset | None => false end then
        mret (out, None)
      else
        let out' := out ++ [record] in
        if limit <=? Z.of_nat (length out') then
          has_more ← any_later offset to_offset live;
          mret (out', if has_more : bool then Some (ev_cursor record) else None)
        else read_loop live start_offset to_offset limit out' rest'
  end.

(** The lower bound of [read]: [None] stands for the early
    [return [], None] of the sentinel ["latest"]. *)
Definition read_start (topic : string) (from_cursor : option string) : ST (option Z) :=
  match from_cursor with
  | None => mret (Some (-1))
  | Some c =>
      if bool_decide (c = EARLIEST) then mret (Some (-1))
      else if bool_decide (c = LATEST) then mret None
      else
        start_offset ← lift (offset_for topic c);
        oldest ← oldest_available_cursor topic;
        match oldest with
        | None => mret (Some start_offset)
        | Some o =>
            oldest_offset ← lift (offset_of o);
            if start_offset <? oldest_offset then raise (cursor_expired c o)
            else mret (Some start_offset)
        end
  end.

(** [offset_for(topic, to_cursor) if to_cursor else None] *)
Definition read_bound (topic : string) (to_cursor : option string) : ST (option Z) :=
  match to_cursor with
  | Some c => if bool_decide (c = EmptyString) then mret None
              else Some <$> lift (offset_for topic c)
  | None => mret None
  end.

(** [read(topic, from_cursor, to_cursor, limit)] *)
Definition read (topic : string) (from_cursor to_cursor : option string) (limit : Z)
    : ST (list EventRecord * option string) :=
  log ← lookup_log topic;
  match log with
  | None => raise (topic_not_found topic)
  | Some _ =>
      live ← live_events topic;
      start ← read_start topic from_cursor;
      match start with
      | None => mret ([], None)
      | Some start_offset =>
          to_offset ← read_bound topic to_cursor;
          lift (read_loop live start_offset to_offset limit [] live)
      end
  end.
End Operations.

(** ** The read loop computes the declarative page *)

(** Records whose cursor the decoder accepts. *)
Definition parses (l : list EventRecord) : Prop :=
  Forall (λ r, offset_of (ev_cursor r) = Ret (rec_offset r)) l.

Lemma any_later_spec offset to live :
  parses live →
  any_later offset to live =
  Ret (bool_decide (Exists (λ r, offset < rec_offset r ∧ from_option (λ q, rec_offset r ≤ q) True to) live)).
Proof.
  induction 1 as [|r rest Hr Hp IH]; [done|]. cbn [any_later].
  rewrite Hr. cbn. destruct ((offset <? rec_offset r) && _) eqn:E.
  - apply andb_true_iff in E as [E1 E2]. rewrite bool_decide_true; [done|].
    left. split; [lia|]. destruct to; simpl in *; [lia|done].
  - rewrite IH. f_equal. apply bool_decide_ext. rewrite Exists_cons.
    split; [by right|]. intros [[H1 H2]|]; [|done]. exfalso.
    apply andb_false_iff in E as [E|E]; [lia|]. destruct to; simpl in *; [lia|done].
Qed.

(** Something follows the record in range exactly when the filter of the rest
    is not empty. *)
Lemma later_iff_more live start to pre record rest :
  sorted_by rec_offset live → live = (pre ++ [record]) ++ rest →
  start < rec_offset record →
  bool_decide (Exists (λ r, rec_offset record < rec_offset r ∧
                 from_option (λ q, rec_offset r ≤ q) True to) live) =
  negb (bool_decide (filter (in_range start to) rest = [])).
Proof.
  intros Hs Hlive Hstart. rewrite <- bool_decide_not. apply bool_decide_ext.
  rewrite Hlive in Hs. apply sorted_by_app in Hs as (Hpre & _ & Hrest).
  apply sorted_by_app in Hpre as (_ & _ & Hpre).
  assert (∀ x, x ∈ rest → rec_offset record < rec_offset x) as Hgt.
  { intros x Hx. apply Hrest; [|done]. apply elem_of_app. right. left. }
  rewrite Exists_exists. split.
  - intros (x & Hx & Hlater & Hxto) Hnil. rewrite Hlive in Hx.
    apply elem_of_app in Hx as [Hx|Hx].
    + apply elem_of_app in Hx as [Hx|Hx%list_elem_of_singleton]; [|subst; lia].
      specialize (Hpre x record Hx ltac:(left)). lia.
    + assert (x ∈ filter (in_range start to) rest) as Hm.
      { apply list_elem_of_filter. split; [split; [lia|done]|done]. }
      rewrite Hnil in Hm. by apply elem_of_nil in Hm.
  - intros Hne. destruct (filter (in_range start to) rest) as [|x more'] eqn:Em; [done|].
    assert (x ∈ filter (in_range start to) rest) as Hx by (rewrite Em; left).
    apply list_elem_of_filter in Hx as [[? ?] Hx]. exists x. split; [|split; auto].
    rewrite Hlive. apply elem_of_app. by right.
Qed.

Lemma read_loop_page live start to limit out pre rest :
  parses live → sorted_by rec_offset live →
  live = pre ++ rest → out = filter (in_range start to) pre →
  Z.of_nat (length out) < Z.max 1 limit →
  read_loop live start to limit out rest = Ret (read_page live start to limit).
Proof.
  intros Hparse Hs. revert out pre.
  induction rest as [|record rest IH]; intros out pre Hlive Hout Hlen.
  - cbn [read_loop]. rewrite (right_id_L [] (++)) in Hlive. subst pre.
    unfold read_page. rewrite <- Hout, take_ge by lia.
    by rewrite Nat.ltb_irrefl.
  - assert (offset_of (ev_cursor record) = Ret (rec_offset record)) as Hoff.
    { unfold parses in Hparse. rewrite Forall_forall in Hparse. apply Hparse.
      rewrite Hlive. apply elem_of_app. right. left. }
    cbn [read_loop]. rewrite Hoff. cbn [mbind outcome_bind].
    assert (∀ x, x ∈ rest → rec_offset record < rec_offset x) as Hgt.
    { rewrite Hlive in Hs. apply sorted_by_app in Hs as (_ & Hrest & _).
      apply StronglySorted_inv in Hrest as [_ Hgt]. by rewrite Forall_forall in Hgt. }
    assert (live = (pre ++ [record]) ++ rest) as Hlive' by by rewrite <- (assoc_L (++)).
    destruct (Z.leb_spec (rec_offset record) start) as [Hle|Hgt_start].
    { apply (IH _ (pre ++ [record])); [done| |done].
      rewrite filter_app, filter_cons_False, filter_nil, (right_id_L [] (++)); [done|].
      unfold in_range. lia. }
    destruct (match to with Some q => q <? rec_offset record | None => false end) eqn:Hto.
    { destruct to as [q|]; [|done]. apply Z.ltb_lt in Hto.
      assert (filter (in_range start (Some q)) live = out) as Hsel.
      { rewrite Hlive, filter_app, <- Hout.
        rewrite (filter_none _ (record :: rest)); [by rewrite (right_id_L [] (++))|].
        apply Forall_forall. intros x [->|Hx]%elem_of_cons [_ Hx']; simpl in Hx'; [lia|].
        specialize (Hgt x Hx). lia. }
      unfold read_page. rewrite Hsel, take_ge by lia. by rewrite Nat.ltb_irrefl. }
    assert (in_range start to record) as Hin.
    { split; [done|]. destruct to; simpl; [lia|done]. }
    assert (out ++ [record] = filter (in_range start to) (pre ++ [record])) as Hout'.
    { by rewrite filter_app, filter_cons_True, filter_nil, Hout. }
    destruct (Z.leb_spec limit (Z.of_nat (length (out ++ [record])))) as [Hfull|Hmore].
    + rewrite any_later_spec by done. cbn [mbind outcome_bind]. f_equal.
      rewrite length_app in Hfull. simpl in Hfull.
      assert (length (out ++ [record]) = Z.to_nat (Z.max 1 limit)) as Hn
        by (rewrite length_app; simpl; lia).
      set (more := filter (in_range start to) rest).
      assert (filter (in_range start to) live = (out ++ [record]) ++ more) as Hsel
        by by rewrite Hlive', filter_app, <- Hout'.
      unfold read_page. rewrite Hsel, <- Hn, take_app_length, last_snoc. f_equal.
      rewrite (later_iff_more live start to pre record rest Hs Hlive' Hgt_start).
      fold more.
      destruct more as [|x more'].
      * by rewrite (right_id_L [] (++)), Nat.ltb_irrefl.
      * rewrite (proj2 (Nat.ltb_lt _ _)); [done|]. rewrite (length_app _ (x :: more')).
        simpl. lia.
    + apply (IH _ (pre ++ [record])); [done|done|].
      rewrite length_app in *. simpl in *. lia.
Qed.

(** ** Well-formed stores *)

Record store_inv (s : InMemoryEventStore) : Prop := {
  store_keys : dict_wf (logs s);
  store_logs : ∀ t l, dict_get t (logs s) = Some l → wf_log t l;
}.

Lemma empty_store_inv : store_inv empty_store.
Proof. split; [constructor|done]. Qed.

Lemma set_log_inv s t l :
  store_inv s → wf_log t l → store_inv (mkStore (dict_set t l (logs s))).
Proof.
  intros [Hk Hl] Hwf. split; simpl; [auto with a2a|].
  intros t' l'. rewrite dict_get_set. case_decide; [intros; by simplify_eq|auto].
Qed.

Lemma wf_log_parses t l t' : wf_log t l → parses (live_at l t').
Proof.
  intros Hl. apply Forall_forall. intros r Hr.
  eapply offset_of_record; [done|by eapply live_at_elem].
Qed.

Lemma kept_filter h l : List.filter (kept_at h) l = filter (λ r, h ≤ ev_created_at r) l.
Proof. apply list_filter_bool. intros r. apply Z.leb_le. Qed.

Section Laws.
Context `{Platform}.

Lemma clock_now v : clock_between v (mkEnv (S (tick v)) (uuids v)) (clock (tick v)).
Proof. exists (tick v). simpl. split; [lia|done]. Qed.

Lemma clock_start v v' : env_le v v' → clock_between v v' (clock (tick v)).
Proof. intros [??]. exists (tick v). split; [lia|done]. Qed.

Lemma lookup_log_run s v t l :
  dict_get t (logs s) = l → lookup_log t (s, v) = (Ret l, (s, v)).
Proof. unfold lookup_log, gets. by intros <-. Qed.

Lemma live_events_run s v t l :
  dict_get t (logs s) = Some l →
  ∃ t1 v', live_events t (s, v) = (Ret (live_at l t1), (s, v')) ∧
           env_le v v' ∧ clock_between v v' t1.
Proof.
  intros Hl. unfold live_events. erewrite bind_ret by by apply lookup_log_run.
  unfold live_at. destruct (_ <=? 0) eqn:Hret.
  - exists (clock (tick v)), v. split_and!; [done..|]. by apply clock_start.
  - exists (clock (tick v)), (mkEnv (S (tick v)) (uuids v)). split_and!.
    + rewrite <- kept_filter. done.
    + unfold env_le; simpl; lia.
    + apply clock_now.
Qed.

Lemma get_topic_run s v t :
  get_topic t (s, v) =
    (match dict_get t (logs s) with
     | Some l => Ret (log_topic l)
     | None => Raise (topic_not_found t)
     end, (s, v)).
Proof.
  unfold get_topic. erewrite bind_ret by by apply lookup_log_run.
  by destruct (dict_get t (logs s)).
Qed.

Lemma latest_cursor_run s v t l :
  store_inv s → dict_get t (logs s) = Some l →
  latest_cursor t (s, v) = (Ret (log_latest t l), (s, v)).
Proof.
  intros Hs Hl. unfold latest_cursor. erewrite bind_ret by by apply lookup_log_run.
  unfold log_latest. destruct (last (log_events l)); [done|].
  unfold lift. rewrite encode_ok; [done|].
  destruct (wf_next _ _ (store_logs _ Hs _ _ Hl)). unfold max_offset in *. lia.
Qed.

(** The lower bound of a read from a canonical position. *)
Lemma read_start_run s v t l from :
  store_inv s → dict_get t (logs s) = Some l →
  from_option (λ p, 0 ≤ p < max_offset) True from →
  ∃ t2 v', env_le v v' ∧ clock_between v v' t2 ∧
    read_start t (cursor_text t <$> from) (s, v) =
      (match from, head (live_at l t2) with
       | Some p, Some o => if p <? rec_offset o
           then Raise (cursor_expired (cursor_text t p) (ev_cursor o)) else Ret (Some p)
       | Some p, None => Ret (Some p)
       | None, _ => Ret (Some (-1))
       end, (s, v')).
Proof.
  intros Hs Hl Hp. pose proof (store_logs _ Hs _ _ Hl) as Hwf.
  destruct from as [p|]; simpl in *.
  2:{ exists (clock (tick v)), v. split_and!; [done|by apply clock_start|done]. }
  destruct (live_events_run s v t l Hl) as (t2 & v' & Hlive & Hle & Hclk).
  exists t2, v'. split_and!; [done..|].
  destruct (cursor_text_not_sentinel t p) as [Hne Hnl].
  rewrite !bool_decide_false by done.
  erewrite bind_lift by (apply offset_for_text; [apply Hwf|done]).
  erewrite bind_ret by (unfold oldest_available_cursor; by erewrite bind_ret by done).
  destruct (head (live_at l t2)) as [o|] eqn:Ho; simpl; [|done].
  erewrite bind_lift.
  2:{ eapply offset_of_record; [done|]. eapply live_at_elem.
      apply head_Some_elem_of. done. }
  by destruct (_ <? _).
Qed.

Lemma read_bound_run s v t l to :
  wf_log t l → from_option (λ p, 0 ≤ p < max_offset) True to →
  read_bound t (cursor_text t <$> to) (s, v) = (Ret to, (s, v)).
Proof.
  intros Hwf Hq. destruct to as [q|]; simpl in *; [|done].
  rewrite bool_decide_false by (unfold cursor_text; destruct t; done).
  unfold fmap, M_fmap, lift. by rewrite offset_for_text by (apply Hwf || done).
Qed.

Lemma read_loop_live t l t1 start to limit :
  wf_log t l →
  read_loop (live_at l t1) start to limit [] (live_at l t1) =
  Ret (read_page (live_at l t1) start to limit).
Proof.
  intros Hwf. apply (read_loop_page _ _ _ _ _ []); try done.
  - by eapply wf_log_parses.
  - by eapply live_at_sorted.
  - simpl. lia.
Qed.

Lemma read_run s v t l (from to : option Z) limit :
  store_inv s → dict_get t (logs s) = Some l →
  from_option (λ p, 0 ≤ p < max_offset) True from →
  from_option (λ p, 0 ≤ p < max_offset) True to →
  ∃ t1 t2 v', env_le v v' ∧ clock_between v v' t1 ∧ clock_between v v' t2 ∧
    read t (cursor_text t <$> from) (cursor_text t <$> to) limit (s, v) =
      (read_result t l t1 t2 from to limit, (s, v')).
Proof.
  intros Hs Hl Hp Hq. pose proof (store_logs _ Hs _ _ Hl) as Hwf.
  destruct (live_events_run s v t l Hl) as (t1 & v1 & Hlive & Hle1 & Hclk1).
  destruct (read_start_run s v1 t l from Hs Hl Hp) as (t2 & v2 & Hle2 & Hclk2 & Hstart).
  exists t1, t2, v2. split_and!.
  - by transitivity v1.
  - destruct Hclk1 as (i & ? & ->), Hle2. exists i. split; [lia|done].
  - destruct Hclk2 as (i & ? & ->), Hle1. exists i. split; [lia|done].
  - unfold read. erewrite bind_ret by by apply lookup_log_run. cbv beta iota.
    erewrite bind_ret by done.
    assert (∀ st, (to_offset ← read_bound t (cursor_text t <$> to);
                   lift (read_loop (live_at l t1) st to_offset limit [] (live_at l t1)))
             (s, v2) = (Ret (read_page (live_at l t1) st to limit), (s, v2))) as Hloop.
    { intros st. erewrite bind_ret by by eapply read_bound_run.
      unfold lift. by erewrite read_loop_live. }
    unfold mbind, M_bind at 1. rewrite Hstart. unfold read_result.
    destruct from as [p|]; [|apply Hloop].
    destruct (head (live_at l t2)) as [o|]; [|apply Hloop].
    destruct (p <? rec_offset o); [done|apply Hloop].
Qed.
End Laws.

(** ** Effects of the state-changing operations *)

(** The offset the next event of a topic gets. *)
Definition next_of (s : InMemoryEventStore) (t : string) : Z :=
  from_option next_offset 0 (dict_get t (logs s)).

Lemma next_of_set_log s t l t' :
  next_of (mkStore (dict_set t l (logs s))) t' =
  if decide (t' = t) then next_offset l else next_of s t'.
Proof. unfold next_of; simpl. rewrite dict_get_set. repeat case_decide; congruence || done. Qed.

Lemma next_of_nonneg s t : store_inv s → 0 ≤ next_of s t.
Proof.
  intros Hs. unfold next_of. destruct (dict_get t (logs s)) as [l|] eqn:Hl; simpl; [|lia].
  apply (wf_next _ _ (store_logs _ Hs _ _ Hl)).
Qed.

Lemma skip_offset_wf t l :
  wf_log t l → next_offset l < max_offset →
  wf_log t (mkTopicLog (log_topic l) (log_events l) (next_offset l + 1)).
Proof.
  intros [Hn Hne Hnx Hrec Hs] Hcap. constructor; simpl; [done|done|lia| |done].
  eapply Forall_impl; [done|]. intros x [? (n & ? & ?)]. split; [done|].
  exists n. split; [lia|done].
Qed.

Lemma keep_events_wf t l P `{∀ r, Decision (P r)} :
  wf_log t l → wf_log t (mkTopicLog (log_topic l) (filter P (log_events l)) (next_offset l)).
Proof.
  intros [Hn Hne Hnx Hrec Hs]. constructor; simpl; [done..| |].
  - apply Forall_forall. intros r [_ Hr]%list_elem_of_filter.
    by rewrite Forall_forall in Hrec; apply Hrec.
  - by apply sorted_by_filter.
Qed.

(** What an operation may do to the store: keep it well formed and never move
    a topic's next offset back. *)
Definition store_step (s s' : InMemoryEventStore) : Prop :=
  store_inv s → store_inv s' ∧ ∀ t, next_of s t ≤ next_of s' t.

#[export] Instance store_step_preorder : PreOrder store_step.
Proof.
  split; [intros s Hs; split; [done|intros; lia]|].
  intros s1 s2 s3 H12 H23 Hs. destruct (H12 Hs) as [H2 Hle].
  destruct (H23 H2) as [H3 Hle']. split; [done|]. intros t. specialize (Hle t).
  specialize (Hle' t). lia.
Qed.

Section Steps.
Context `{Platform}.

(** [append] on a known topic, when the payload can be canonicalized. *)
Lemma append_run s v t l ty src d subj text :
  store_inv s → dict_get t (logs s) = Some l → next_offset l < max_offset →
  canonicalize (VDict d) = Ret text →
  let r := mkEventRecord ("evt_" +:+ uuid4_hex (uuids v)) t (cursor_text t (next_offset l))
             ty src d subj (clock (tick v)) ("sha256:" +:+ sha256_hexdigest text) in
  append t ty src d subj (s, v) =
    (Ret r, (mkStore (dict_set t (log_append l r) (logs s)),
             mkEnv (S (tick v)) (S (uuids v)))).
Proof.
  intros Hs Hl Hcap Htext r. pose proof (wf_next _ _ (store_logs _ Hs _ _ Hl)).
  unfold append. erewrite bind_ret by by apply lookup_log_run. cbv beta iota.
  erewrite bind_ret by done. erewrite bind_ret by done.
  erewrite bind_lift by (apply encode_ok; unfold max_offset in *; lia).
  erewrite bind_ret by done. erewrite bind_lift by done.
  unfold set_log, modify, mbind, M_bind; simpl. by rewrite dict_set_set.
Qed.

(** When the payload cannot be canonicalized nothing is stored, but the
    offset is spent. *)
Lemma append_raises_run s v t l ty src d subj e :
  store_inv s → dict_get t (logs s) = Some l → next_offset l < max_offset →
  canonicalize (VDict d) = Raise e →
  append t ty src d subj (s, v) =
    (Raise e, (mkStore (dict_set t (mkTopicLog (log_topic l) (log_events l)
                                      (next_offset l + 1)) (logs s)),
             mkEnv (S (tick v)) (S (uuids v)))).
Proof.
  intros Hs Hl Hcap Htext. pose proof (wf_next _ _ (store_logs _ Hs _ _ Hl)).
  unfold append. erewrite bind_ret by by apply lookup_log_run. cbv beta iota.
  erewrite bind_ret by done. erewrite bind_ret by done.
  erewrite bind_lift by (apply encode_ok; unfold max_offset in *; lia).
  erewrite bind_ret by done. unfold lift. by erewrite bind_raise by by rewrite Htext.
Qed.

Lemma append_missing_run s v t ty src d subj :
  dict_get t (logs s) = None →
  append t ty src d subj (s, v) = (Raise (topic_not_found t), (s, v)).
Proof. intros Hl. unfold append. by erewrite bind_ret by by apply lookup_log_run. Qed.

Lemma declare_topic_step s v t :
  name t ≠ EmptyString →
  ∃ s', declare_topic t (s, v) = (Ret tt, (s', v)) ∧ store_step s s' ∧
        ∀ t', next_of s' t' = next_of s t'.
Proof.
  intros Hne. eexists. split; [done|]. simpl.
  unfold dict_setdefault. destruct (dict_get (name t) (logs s)) as [l|] eqn:Hl.
  { destruct s. split; [reflexivity|done]. }
  assert (∀ t', next_of (mkStore (dict_set (name t) (mkTopicLog t [] 0) (logs s))) t' =
                next_of s t') as Hnx.
  { intros t'. rewrite next_of_set_log. case_decide; [|done]. subst.
    unfold next_of. by rewrite Hl. }
  split; [|done]. intros Hs. split; [|intros t'; rewrite Hnx; lia].
  apply set_log_inv; [done|]. constructor; simpl; unfold max_offset;
    [done|done|lia|constructor|constructor].
Qed.

Lemma compact_one_step s v h n :
  ∃ s' k, compact_one h n (s, v) = (Ret k, (s', v)) ∧ store_step s s' ∧
          ∀ t', next_of s' t' = next_of s t'.
Proof.
  unfold compact_one. erewrite bind_ret by by apply lookup_log_run.
  destruct (dict_get n (logs s)) as [l|] eqn:Hl.
  2:{ exists s. eexists. split; [done|split; [reflexivity|done]]. }
  destruct (_ <=? 0). { exists s. eexists. split; [done|split; [reflexivity|done]]. }
  eexists (mkStore _). eexists. split; [done|].
  assert (∀ t', next_of (mkStore (dict_set n (mkTopicLog (log_topic l)
            (List.filter (kept_at (h - seconds (retention_seconds (log_topic l))))
               (log_events l)) (next_offset l)) (logs s))) t' = next_of s t') as Hnx.
  { intros t'. rewrite next_of_set_log. case_decide; [|done]. subst.
    unfold next_of. by rewrite Hl. }
  split; [|done]. intros Hs. split; [|intros t'; rewrite Hnx; lia].
  rewrite kept_filter. apply set_log_inv; [done|].
  apply keep_events_wf, (store_logs _ Hs _ _ Hl).
Qed.

Lemma compact_many_step names s v h :
  ∃ s' ks, map_m (compact_one h) names (s, v) = (Ret ks, (s', v)) ∧ store_step s s' ∧
           ∀ t', next_of s' t' = next_of s t'.
Proof.
  revert s. induction names as [|n names IH]; intros s; cbn [map_m].
  { exists s. eexists. split; [done|split; [reflexivity|done]]. }
  destruct (compact_one_step s v h n) as (s1 & k & H1 & Hst1 & Hn1).
  destruct (IH s1) as (s2 & ks & H2 & Hst2 & Hn2).
  exists s2, (k :: ks). erewrite bind_ret by done. erewrite bind_ret by done.
  split; [done|]. split; [by transitivity s1|]. intros t'. by rewrite Hn2.
Qed.

Lemma compact_step s v topic :
  ∃ s' k v', compact topic (s, v) = (Ret k, (s', v')) ∧ store_step s s' ∧
             (∀ t', next_of s' t' = next_of s t') ∧ env_le v v'.
Proof.
  unfold compact.
  set (names := match topic with Some t => [t] | None => dict_keys (logs s) end).
  destruct (compact_many_step names s (mkEnv (S (tick v)) (uuids v)) (clock (tick v)))
    as (s' & ks & Hrun & Hst & Hnx).
  exists s'. do 2 eexists.
  erewrite bind_ret by (instantiate (1 := (s, v)); instantiate (1 := names);
                        by destruct topic).
  erewrite bind_ret by done. erewrite bind_ret by done.
  split; [done|]. split_and!; [done..|]. unfold env_le; simpl; lia.
Qed.
End Steps.

(** ** Histories of operations *)

Inductive store_op :=
| OpDeclare (t : Topic)
| OpAppend (topic ty src : string) (d : list (string * value)) (subj : option string)
| OpCompact (topic : option string).

Definition op_named (o : store_op) : Prop :=
  match o with OpDeclare t => name t ≠ EmptyString | _ => True end.

Section Histories.
Context `{Platform}.

(** One operation as a client sees it: the record it appended, if any. An
    exception ends the operation and not the history. *)
Definition run_op (o : store_op) (w : InMemoryEventStore * Env)
    : option EventRecord * (InMemoryEventStore * Env) :=
  match o with
  | OpDeclare t => (None, (declare_topic t w).2)
  | OpAppend t ty src d subj =>
      let '(r, w') := append t ty src d subj w in
      (match r with Ret x => Some x | _ => None end, w')
  | OpCompact t => (None, (compact t w).2)
  end.

(** The records appended by a history, in order, and the final store. *)
Fixpoint run_ops (ops : list store_op) (w : InMemoryEventStore * Env)
    : list EventRecord * (InMemoryEventStore * Env) :=
  match ops with
  | [] => ([], w)
  | o :: ops' =>
      let '(x, w1) := run_op o w in
      let '(xs, w2) := run_ops ops' w1 in
      (option_list x ++ xs, w2)
  end.

(** An operation keeps the invariant, and only an append moves the next
    offset, past the offset of the record it stores. *)
Lemma run_op_spec o s v r s' v' :
  store_inv s → op_named o → (∀ t, next_of s t < max_offset) →
  run_op o (s, v) = (r, (s', v')) →
  store_inv s' ∧ (∀ t, next_of s t ≤ next_of s' t ≤ next_of s t + 1) ∧
  (∀ x, r = Some x → rec_offset x = next_of s (ev_topic x) ∧
                     next_of s' (ev_topic x) = next_of s (ev_topic x) + 1).
Proof.
  intros Hs Hop Hcap Hrun. destruct o as [t|t ty src d subj|t]; cbn [run_op] in Hrun.
  - destruct (declare_topic_step s v t Hop) as (s1 & E & Hst & Hnx).
    rewrite E in Hrun. simplify_eq/=. split; [by apply Hst|].
    split; [intros; rewrite Hnx; lia|done].
  - destruct (dict_get t (logs s)) as [l|] eqn:Hl.
    2:{ rewrite append_missing_run in Hrun by done. simplify_eq/=.
        split; [done|]. split; [intros; lia|done]. }
    pose proof (store_logs _ Hs _ _ Hl) as Hwf.
    assert (next_of s t = next_offset l) as Hnl by (unfold next_of; by rewrite Hl).
    assert (next_offset l < max_offset) as Hl' by (rewrite <- Hnl; apply Hcap).
    destruct (canonicalize (VDict d)) as [text|e|] eqn:Htext.
    3:{ by apply canonicalize_no_fuel in Htext. }
    + erewrite append_run in Hrun by done. simplify_eq/=.
      split; [apply set_log_inv; [done|by apply log_append_wf]|].
      setoid_rewrite next_of_set_log. simpl.
      split; [intros t'; case_decide; subst; lia|].
      intros x [= <-]; simpl. rewrite decide_True by done. split; [|lia].
      unfold rec_offset; simpl. destruct Hwf as [_ Hne Hnx _ _].
      rewrite offset_of_text; [done..|lia].
    + erewrite append_raises_run in Hrun by done. simplify_eq/=.
      split; [apply set_log_inv; [done|by apply skip_offset_wf]|].
      setoid_rewrite next_of_set_log. simpl.
      split; [intros t'; case_decide; subst; lia|done].
  - destruct (compact_step s v t) as (s1 & k & v1 & E & Hst & Hnx & _).
    rewrite E in Hrun. simplify_eq/=. split; [by apply Hst|].
    split; [intros; rewrite Hnx; lia|done].
Qed.

Lemma run_ops_spec ops s v :
  store_inv s → Forall op_named ops →
  (∀ t, next_of s t + Z.of_nat (length ops) ≤ max_offset) →
  let '(xs, (s', v')) := run_ops ops (s, v) in
  store_inv s' ∧ (∀ t, next_of s t ≤ next_of s' t) ∧
  ∀ t, let mine := filter (λ x, ev_topic x = t) xs in
       sorted_by rec_offset mine ∧
       Forall (λ x, next_of s t ≤ rec_offset x < next_of s' t) mine.
Proof.
  revert s v. induction ops as [|o ops IH]; intros s v Hs Hops Hcap; cbn [run_ops].
  { split_and!; [done|intros; lia|]. intros t; split; constructor. }
  apply Forall_cons in Hops as [Ho Hops]. simpl in Hcap.
  destruct (run_op o (s, v)) as [x [s1 v1]] eqn:E1.
  destruct (run_op_spec o s v x s1 v1 Hs Ho) as (Hs1 & Hnx & Hx);
    [intros t; specialize (Hcap t); lia|done|].
  specialize (IH s1 v1 Hs1 Hops).
  destruct (run_ops ops (s1, v1)) as [xs [s2 v2]].
  destruct IH as (Hs2 & Hle & Hmine); [intros t; specialize (Hcap t); specialize (Hnx t); lia|].
  split; [done|]. split; [intros t; specialize (Hnx t); specialize (Hle t); lia|].
  intros t. destruct (Hmine t) as [Hsort Hbound]. specialize (Hnx t). specialize (Hle t).
  rewrite filter_app.
  assert (Forall (λ y, next_of s t ≤ rec_offset y < next_of s2 t)
            (filter (λ y, ev_topic y = t) xs)) as Hrest.
  { eapply Forall_impl; [done|]. intros y; simpl. lia. }
  destruct x as [x|]; simpl; [|by split].
  destruct (Hx x eq_refl) as [Hoff Hnext].
  destruct (decide (ev_topic x = t)) as [<-|Hne].
  - rewrite filter_cons_True, filter_nil by done. simpl. split.
    + constructor; [done|]. eapply Forall_impl; [done|]. intros y; simpl. lia.
    + constructor; [lia|done].
  - rewrite filter_cons_False, filter_nil by done. simpl. by split.
Qed.
End Histories.

(** ** Compaction against later reads *)

(** [l'] holds what is left of [l] after a compaction at time [h]: every event
    still live at [h] or later. *)
Record compacted (h : Z) (l l' : TopicLog) : Prop := {
  compacted_topic : log_topic l' = log_topic l;
  compacted_next : next_offset l' = next_offset l;
  compacted_live : ∀ t, h ≤ t → live_at l' t = live_at l t;
}.

#[export] Instance compacted_preorder h : PreOrder (compacted h).
Proof.
  split; [done|]. intros l1 l2 l3 [? ? H12] [? ? H23]. split; [congruence..|].
  intros t Ht. by rewrite H23, H12.
Qed.

Definition compacted_store (h : Z) (s s' : InMemoryEventStore) : Prop :=
  ∀ t, option_Forall2 (compacted h) (dict_get t (logs s)) (dict_get t (logs s')).

#[export] Instance compacted_store_preorder h : PreOrder (compacted_store h).
Proof.
  split; [intros s t; reflexivity|]. intros s1 s2 s3 H12 H23 t. by transitivity (dict_get t (logs s2)).
Qed.

Lemma drop_expired_compacted h l :
  0 < retention_seconds (log_topic l) →
  compacted h l (mkTopicLog (log_topic l)
    (List.filter (kept_at (h - seconds (retention_seconds (log_topic l)))) (log_events l))
    (next_offset l)).
Proof.
  intros Hpos. split; [done..|]. intros t Ht. unfold live_at; simpl.
  destruct (Z.leb_spec (retention_seconds (log_topic l)) 0) as [?|_]; [lia|].
  rewrite kept_filter, list_filter_filter_l; [done|]. lia.
Qed.

Section Compaction.
Context `{Platform}.

Lemma compact_one_compacted h n s v :
  ∃ s' k, compact_one h n (s, v) = (Ret k, (s', v)) ∧ compacted_store h s s'.
Proof.
  unfold compact_one. erewrite bind_ret by by apply lookup_log_run.
  destruct (dict_get n (logs s)) as [l|] eqn:Hl.
  2:{ exists s. eexists. split; [done|reflexivity]. }
  destruct (Z.leb_spec (retention_seconds (log_topic l)) 0).
  { exists s. eexists. split; [done|reflexivity]. }
  eexists (mkStore _). eexists. split; [done|].
  intros t. simpl. rewrite dict_get_set. case_decide; [subst|reflexivity].
  rewrite Hl. constructor. by apply drop_expired_compacted.
Qed.

Lemma compact_many_compacted h names s v :
  ∃ s' ks, map_m (compact_one h) names (s, v) = (Ret ks, (s', v)) ∧ compacted_store h s s'.
Proof.
  revert s. induction names as [|n names IH]; intros s; cbn [map_m].
  { exists s. eexists. split; [done|reflexivity]. }
  destruct (compact_one_compacted h n s v) as (s1 & k & H1 & Hc1).
  destruct (IH s1) as (s2 & ks & H2 & Hc2).
  exists s2, (k :: ks). erewrite bind_ret by done. erewrite bind_ret by done.
  split; [done|by transitivity s1].
Qed.

Lemma compact_compacted s v topic :
  ∃ s' k, compact topic (s, v) = (Ret k, (s', mkEnv (S (tick v)) (uuids v))) ∧
          compacted_store (clock (tick v)) s s'.
Proof.
  unfold compact.
  set (names := match topic with Some t => [t] | None => dict_keys (logs s) end).
  destruct (compact_many_compacted (clock (tick v)) names s
              (mkEnv (S (tick v)) (uuids v))) as (s' & ks & Hrun & Hc).
  exists s'. eexists.
  erewrite bind_ret by (instantiate (1 := (s, v)); instantiate (1 := names);
                        by destruct topic).
  erewrite bind_ret by done. erewrite bind_ret by done. by split.
Qed.

(** Reads of the two stores agree from any moment at which the clock does
    not fall behind the compaction. *)
Context (h : Z) (s s' : InMemoryEventStore) (Hc : compacted_store h s s').
Context (v0 : Env) (Hclock : ∀ i, (tick v0 ≤ i)%nat → h ≤ clock i).

Lemma lookup_compacted t :
  match dict_get t (logs s), dict_get t (logs s') with
  | Some l, Some l' => compacted h l l'
  | None, None => True
  | _, _ => False
  end.
Proof. destruct (Hc t); done. Qed.

Lemma live_events_compacted t v :
  env_le v0 v →
  ∃ o v', live_events t (s, v) = (o, (s, v')) ∧ live_events t (s', v) = (o, (s', v')) ∧
          env_le v0 v'.
Proof.
  intros Hle. pose proof (lookup_compacted t) as Hl. unfold live_events.
  erewrite !bind_ret by by apply lookup_log_run.
  destruct (dict_get t (logs s)) as [l|], (dict_get t (logs s')) as [l'|]; try done.
  2:{ by exists (Raise (KeyError t)), v. }
  destruct Hl as [Ht _ Hlive]. rewrite Ht.
  destruct (Z.leb_spec (retention_seconds (log_topic l)) 0) as [Hret|Hret].
  - exists (Ret (log_events l)), v. split_and!; [done| |done].
    specialize (Hlive h ltac:(lia)). unfold live_at in Hlive. rewrite Ht in Hlive.
    rewrite !(proj2 (Z.leb_le _ _)) in Hlive by done. by rewrite Hlive.
  - eexists _, (mkEnv (S (tick v)) (uuids v)). split_and!; [done| |].
    + specialize (Hlive (clock (tick v)) ltac:(apply Hclock, Hle)).
      unfold live_at in Hlive. rewrite Ht, !(proj2 (Z.leb_gt _ _)) in Hlive by done.
      rewrite <- !kept_filter in Hlive.
      unfold in_env, now, zoom, mbind, M_bind; simpl. by rewrite Hlive.
    + destruct Hle. unfold env_le; simpl. lia.
Qed.

Lemma read_start_compacted t from v :
  env_le v0 v →
  ∃ o v', read_start t from (s, v) = (o, (s, v')) ∧ read_start t from (s', v) = (o, (s', v')).
Proof.
  intros Hle. unfold read_start. destruct from as [c|]; [|by do 2 eexists].
  case_bool_decide; [by do 2 eexists|]. case_bool_decide; [by do 2 eexists|].
  destruct (offset_for t c) as [p|e|]; [|by do 2 eexists..].
  erewrite !(bind_lift (Ret p)) by done.
  destruct (live_events_compacted t v Hle) as (o & v' & E & E' & _).
  unfold oldest_available_cursor, mbind, M_bind. rewrite E, E'.
  destruct o as [live|e|]; [|by do 2 eexists..]. simpl.
  destruct (head live) as [x|]; [|by do 2 eexists]. simpl. unfold lift.
  destruct (offset_of (ev_cursor x)); [|by do 2 eexists..].
  destruct (_ <? _); by do 2 eexists.
Qed.

Lemma read_compacted t from to limit v :
  env_le v0 v →
  ∃ o v', read t from to limit (s, v) = (o, (s, v')) ∧
          read t from to limit (s', v) = (o, (s', v')).
Proof.
  intros Hle. unfold read. erewrite !bind_ret by by apply lookup_log_run.
  pose proof (lookup_compacted t) as Hl.
  destruct (dict_get t (logs s)) as [l|], (dict_get t (logs s')) as [l'|]; try done;
    [|by do 2 eexists].
  destruct (live_events_compacted t v Hle) as (o & v1 & E & E' & Hle1).
  unfold mbind, M_bind. rewrite E, E'. destruct o as [live|e|]; [|by do 2 eexists..].
  destruct (read_start_compacted t from v1 Hle1) as (o & v2 & E2 & E2').
  rewrite E2, E2'. destruct o as [[p|]|e|]; [|by do 2 eexists..].
  unfold read_bound, fmap, M_fmap, lift.
  destruct to as [c|]; simpl; [|by do 2 eexists].
  case_bool_decide; [by do 2 eexists|]. destruct (offset_for t c); by do 2 eexists.
Qed.
End Compaction.

(** ** The contract *)

Section Contract.
Context `{Platform}.

#[export] Instance memory_event_store : EventStore InMemoryEventStore := {|
  es_declare_topic := declare_topic;
  es_get_topic := get_topic;
  es_topics := topics_;
  es_append := append;
  es_count := count;
  es_oldest_available_cursor := oldest_available_cursor;
  es_latest_cursor := latest_cursor;
  es_read := read;
  es_compact := compact;
|}.

Lemma stored_as_refl r : stored_as r r.
Proof. exists (data r). split; [by destruct r|constructor]. Qed.

#[export] Program Instance memory_event_store_laws : EventStoreLaws InMemoryEventStore := {|
  es_log s t := dict_get t (logs s);
  es_inv := store_inv;
  es_refuses _ := False;
  es_accepts _ := True;
|}.
Next Obligation. done. Qed.
Next Obligation. intros s t l Hs. apply (store_logs _ Hs). Qed.
Next Obligation. intros. eexists. split; [apply get_topic_run|by left]. Qed.
Next Obligation.
  intros s v t _. eexists. split; [done|]. left. simpl. by destruct (dict_get t (logs s)).
Qed.
Next Obligation. intros. eexists. split; [by apply latest_cursor_run|by left]. Qed.
Next Obligation.
  intros s v t from to limit _ Hl. eexists. split; [|by left].
  simpl. unfold read. by erewrite bind_ret by by apply lookup_log_run.
Qed.
Next Obligation.
  intros s v t l from to limit Hs Hl Hf Ht _.
  destruct (read_run s v t l from to limit Hs Hl Hf Ht) as (t1 & t2 & v' & ? & ? & ? & ?).
  exists (read_result t l t1 t2 from to limit), t1, t2, v'. split_and!; [done..|by left].
Qed.
Next Obligation. intros. eexists. split; [by apply append_missing_run|by left]. Qed.
Next Obligation.
  intros s v t l ty src d subj text Hs Hl Hcap Htext _. simpl.
  do 3 eexists. split; [by eapply append_run|].
  pose proof (store_logs _ Hs _ _ Hl) as Hwf. split_and!; simpl.
  - unfold env_le; simpl; lia.
  - apply set_log_inv; [done|]. by apply log_append_wf.
  - eexists. split; [apply stored_as_refl|]. simpl. split_and!; try done.
    + exists (tick v). simpl. split; [lia|done].
    + intros t'. by rewrite dict_get_set.
Qed.
End Contract.

(** ** Properties *)

(** A store with two topics, events, and a compaction behind it. *)
Definition sample_topic (n : string) (keep : Z) : Topic := mkTopic n "" None keep true ["field_filter"%string; "keyword_search"%string] None
    [A2A_MESSAGE; WEBHOOK].

Definition sample_ops : list store_op := [
  OpDeclare (sample_topic "orders" 0);
  OpDeclare (sample_topic "audit" 3600);
  OpAppend "orders" "order.created" "shop" [("total"%string, VInt 12)] None;
  OpAppend "audit" "login" "auth" [] (Some "alice"%string);
  OpCompact None;
  OpAppend "orders" "order.shipped" "shop" [] None;
  OpAppend "orders" "order.closed" "shop" [] None ].

Definition sample_run := run_ops (H := sample_platform) sample_ops (empty_store, mkEnv 0 0).

Section Properties.
Context `{Platform}.

(** C14: from any canonical position, [read] answers exactly the page the
    retention window promises: [CURSOR_EXPIRED] naming the oldest available
    cursor when the position precedes it, else the live events after the
    position, in order, up to the limit, with the cursor of the last one
    when more follow. It never changes the store. *)
Theorem read_returns_page s v t l (from to : option Z) limit :
  store_inv s → dict_get t (logs s) = Some l →
  from_option (λ p, 0 ≤ p < max_offset) True from →
  from_option (λ p, 0 ≤ p < max_offset) True to →
  ∃ t1 t2 v', clock_between v v' t1 ∧ clock_between v v' t2 ∧
    read t (cursor_text t <$> from) (cursor_text t <$> to) limit (s, v) =
      (read_result t l t1 t2 from to limit, (s, v')).
Proof.
  intros Hs Hl Hp Hq.
  destruct (read_run s v t l from to limit Hs Hl Hp Hq) as (t1 & t2 & v' & ? & ? & ? & ?).
  by exists t1, t2, v'.
Qed.

(** C15: whatever is declared, appended and compacted, the logs stay well
    formed, and the offsets given to the events of a topic strictly increase:
    an offset is never reused, not even one freed by compaction. *)
Theorem offsets_never_reused ops s v :
  store_inv s → Forall op_named ops →
  (∀ t, next_of s t + Z.of_nat (length ops) ≤ max_offset) →
  let '(appended, (s', _)) := run_ops ops (s, v) in
  store_inv s' ∧
  ∀ t, let mine := filter (λ x, ev_topic x = t) appended in
       sorted_by rec_offset mine ∧
       Forall (λ x, next_of s t ≤ rec_offset x < next_of s' t) mine.
Proof.
  intros Hs Hops Hcap. pose proof (run_ops_spec ops s v Hs Hops Hcap) as Hspec.
  destruct (run_ops ops (s, v)) as [xs [s' v']]. tauto.
Qed.

(** C16: compaction is invisible to readers: as long as the clock does not
    run backwards, every later [read], with any arguments at all, answers
    the same on the compacted store, errors included. *)
Theorem compaction_invisible s v topic t from to limit :
  (∀ i, (tick v ≤ i)%nat → clock (tick v) ≤ clock i) →
  let '(_, (s', v')) := compact topic (s, v) in
  (read t from to limit (s', v')).1 = (read t from to limit (s, v')).1.
Proof.
  intros Hclock. destruct (compact_compacted s v topic) as (s' & k & -> & Hc).
  set (v' := mkEnv _ _).
  destruct (read_compacted _ s s' Hc v Hclock t from to limit v') as (o & v2 & -> & ->);
    [unfold env_le; simpl; lia|done].
Qed.

(** [append] on every branch. An unknown topic raises [TOPIC_NOT_FOUND]
    and changes nothing; a payload without a canonical form raises, stores
    nothing, and still spends an offset; else the event is stored at the
    end of its log, at the next offset, with the hash of its canonical text. *)
Lemma append_cases s v t ty src d subj :
  store_inv s → next_of s t < max_offset →
  match dict_get t (logs s), canonicalize (VDict d) with
  | None, _ => append t ty src d subj (s, v) = (Raise (topic_not_found t), (s, v))
  | Some l, Ret text =>
      ∃ r s' v', append t ty src d subj (s, v) = (Ret r, (s', v')) ∧
        dict_get t (logs s') = Some (log_append l r) ∧
        (∀ t', t' ≠ t → dict_get t' (logs s') = dict_get t' (logs s)) ∧
        rec_offset r = next_offset l ∧ ev_cursor r = cursor_text t (next_offset l) ∧
        data r = d ∧ content_hash r = "sha256:" +:+ sha256_hexdigest text
  | Some l, o =>
      ∃ e s' v', append t ty src d subj (s, v) = (Raise e, (s', v')) ∧ o = Raise e ∧
        dict_get t (logs s') =
          Some (mkTopicLog (log_topic l) (log_events l) (next_offset l + 1))
  end.
Proof.
  intros Hs Hcap. unfold next_of in Hcap.
  destruct (dict_get t (logs s)) as [l|] eqn:Hl; [|by apply append_missing_run].
  pose proof (store_logs _ Hs _ _ Hl) as [_ Hne Hnx _ _]. simpl in Hcap.
  destruct (canonicalize (VDict d)) as [text|e|] eqn:Htext.
  - do 3 eexists. split; [by apply append_run|]. simpl.
    split_and!; [by rewrite dict_get_set_eq| | |done..].
    + intros t' ?. by rewrite dict_get_set_ne.
    + unfold rec_offset; simpl. rewrite offset_of_text; [done..|lia].
  - do 3 eexists. split; [by apply append_raises_run|].
    split; [done|]. simpl. by rewrite dict_get_set_eq.
  - by apply canonicalize_no_fuel in Htext.
Qed.
End Properties.

Lemma sample_ops_fit t : next_of empty_store t + Z.of_nat (length sample_ops) ≤ max_offset.
Proof. change (0 + 7 ≤ max_offset). unfold max_offset. lia. Qed.

Lemma sample_ops_named : Forall op_named sample_ops.
Proof. unfold sample_ops. repeat constructor; simpl; discriminate. Qed.

Lemma sample_run_inv : store_inv (sample_run.2).1.
Proof.
  pose proof (run_ops_spec (H := sample_platform) sample_ops empty_store (mkEnv 0 0)
    empty_store_inv sample_ops_named sample_ops_fit) as Hspec.
  unfold sample_run. destruct (run_ops _ _) as [xs [s v]]. exact (proj1 Hspec).
Qed.

Lemma sample_log :
  ∃ l, dict_get "orders"%string (logs (sample_run.2).1) = Some l ∧ next_offset l = 3.
Proof. eexists. split; vm_compute; reflexivity. Qed.

Lemma sample_text :
  canonicalize (VDict [("ok"%string, VBool true)]) = Ret (utf8 "{" +:+ json_string "ok" +:+ ":true}")%string.
Proof. vm_compute. reflexivity. Qed.

Lemma read_returns_page_witness :
  ∃ t1 t2 v', clock_between (H := sample_platform) (mkEnv 9 9) v' t1 ∧
    clock_between (H := sample_platform) (mkEnv 9 9) v' t2 ∧
    read (H := sample_platform) "orders" (Some (cursor_text "orders" 0)) None 1
      ((sample_run.2).1, mkEnv 9 9) =
    (read_result "orders" (default (mkTopicLog (sample_topic "" 0) [] 0)
       (dict_get "orders" (logs (sample_run.2).1))) t1 t2 (Some 0) None 1, ((sample_run.2).1, v')).
Proof.
  apply (read_returns_page (H := sample_platform) _ _ "orders" _ (Some 0) None).
  - apply sample_run_inv.
  - vm_compute. reflexivity.
  - simpl. unfold max_offset. lia.
  - exact I.
Defined.

Lemma offsets_never_reused_witness :
  let '(appended, (s', _)) := sample_run in
  store_inv s' ∧
  ∀ t, let mine := filter (λ x, ev_topic x = t) appended in
       sorted_by rec_offset mine ∧
       Forall (λ x, next_of empty_store t ≤ rec_offset x < next_of s' t) mine.
Proof.
  exact (offsets_never_reused (H := sample_platform) sample_ops empty_store (mkEnv 0 0)
    empty_store_inv sample_ops_named sample_ops_fit).
Defined.

Lemma compaction_invisible_witness :
  let w := sample_run.2 in
  let '(_, (s', v')) := compact (H := sample_platform) (Some "audit"%string) w in
  (read (H := sample_platform) "audit" None None 5 (s', v')).1 =
  (read (H := sample_platform) "audit" None None 5 (w.1, v')).1.
Proof.
  cbv zeta. destruct sample_run as [xs [s v]].
  apply (compaction_invisible (H := sample_platform) s v).
  intros i Hi. simpl. unfold seconds. lia.
Defined.

Lemma append_cases_witness :
  let s := (sample_run.2).1 in
  ∃ r s' v', append (H := sample_platform) "orders" "order.paid" "shop"
               [("ok"%string, VBool true)] None (s, mkEnv 9 9) = (Ret r, (s', v')) ∧
    rec_offset r = 3.
Proof.
  destruct sample_log as (l & Hl & Hnext). pose proof sample_run_inv as Hinv.
  generalize dependent (sample_run.2).1. intros s Hl Hinv.
  pose proof (append_cases (H := sample_platform) s (mkEnv 9 9) "orders"
    "order.paid" "shop" [("ok"%string, VBool true)] None Hinv) as Hcases.
  unfold next_of in Hcases. rewrite Hl, sample_text in Hcases. cbn [from_option] in Hcases.
  destruct Hcases as (r & s' & v' & Hrun & _ & _ & Hoff & _).
  - rewrite Hnext. unfold max_offset. lia.
  - exists r, s', v'. split; [exact Hrun|]. by rewrite Hoff.
Defined.
