(* ===== verification/MemorySubscriptionStore.v ===== *)
(** * In-memory subscription store ([runtime/memory/subscription_store.py])

    Subscriptions are held by live reference: the store maps identifiers to
    locations of the shared heap, so an assignment through a reference that
    [get] returned is visible to the next reader without an [update]. Positions,
    acknowledgements and delivery attempts are plain values. The theorems: the
    store satisfies the [SubscriptionStore] laws, and the aliasing is real. *)

From S2P Require Import Prelude PyStr Value Errors Effects Models Cursor Canonical Contracts.
Open Scope Z_scope.

Record InMemorySubscriptionStore := mkSubs {
  subs_ : list (string * loc);
  hw_ : list (string * list (string * Z));
  attempts_ : list DeliveryAttempt;
  acks_ : list ((string * string) * string);
}.

(** [__init__] *)
Definition empty_subs : InMemorySubscriptionStore := mkSubs [] [] [] [].

Local Abbreviation ST := (M (InMemorySubscriptionStore * Heap)).

Definition with_subs (f : list (string * loc) → list (string * loc))
    (s : InMemorySubscriptionStore) : InMemorySubscriptionStore :=
  mkSubs (f (subs_ s)) (hw_ s) (attempts_ s) (acks_ s).
Definition with_hw (f : list (string * list (string * Z)) → list (string * list (string * Z)))
    (s : InMemorySubscriptionStore) : InMemorySubscriptionStore :=
  mkSubs (subs_ s) (f (hw_ s)) (attempts_ s) (acks_ s).

Definition modify_store (f : InMemorySubscriptionStore → InMemorySubscriptionStore) : ST unit :=
  modify (λ w, (f w.1, w.2)).

(** [add(sub, high_water)] *)
Definition add (sub : loc) (high_water : list (string * Z)) : ST unit :=
  u ← deref sub;
  _ ← modify_store (with_subs (dict_set (subscription_id u) sub));
  modify_store (with_hw (dict_set (subscription_id u) high_water)).

(** [get(subscription_id)] *)
Definition get (sid : string) : ST (option loc) := gets (λ w, dict_get sid (subs_ w.1)).

(** [list_all()] *)
Definition list_all : ST (list loc) := gets (λ w, dict_values (subs_ w.1)).

(** [update(sub)] *)
Definition update (sub : loc) : ST unit :=
  u ← deref sub;
  modify_store (with_subs (dict_set (subscription_id u) sub)).

(** [high_water(subscription_id)]: a copy *)
Definition high_water (sid : string) : ST (list (string * Z)) :=
  gets (λ w, default [] (dict_get sid (hw_ w.1))).

(** [set_high_water(subscription_id, topic, offset)] *)
Definition set_high_water (sid topic : string) (offset : Z) : ST unit :=
  modify_store (with_hw (λ hw,
    dict_set sid (dict_set topic offset (default [] (dict_get sid hw))) hw)).

(** [record_ack(subscription_id, event_id, cursor)] *)
Definition record_ack (sid eid cursor : string) : ST unit :=
  modify_store (λ s, mkSubs (subs_ s) (hw_ s) (attempts_ s) (dict_set (sid, eid) cursor (acks_ s))).

(** [record_attempt(attempt)] *)
Definition record_attempt (a : DeliveryAttempt) : ST unit :=
  modify_store (λ s, mkSubs (subs_ s) (hw_ s) (attempts_ s ++ [a]) (acks_ s)).

(** [delivery_attempts(subscription_id)] *)
Definition delivery_attempts (sid : string) : ST (list DeliveryAttempt) :=
  gets (λ w, List.filter (λ a, bool_decide (da_subscription_id a = sid)) (attempts_ w.1)).

(** [a.last_error or "failed"] *)
Definition reason_of (a : DeliveryAttempt) : string :=
  match last_error a with
  | Some e => if bool_decide (e = EmptyString) then "failed"%string else e
  | None => "failed"%string
  end.

(** [dead_letters()] *)
Definition dead_letters : ST (list DeadLetter) :=
  gets (λ w, (λ a, mkDeadLetter (da_subscription_id a) (da_event_id a) (da_cursor a) (reason_of a))
    <$> List.filter (λ a, bool_decide (da_status a = "dead_letter"%string)) (attempts_ w.1)).

#[export] Instance memory_subscription_store :
    SubscriptionStore InMemorySubscriptionStore := {|
  ss_add := add;
  ss_get := get;
  ss_list_all := list_all;
  ss_update := update;
  ss_high_water := high_water;
  ss_set_high_water := set_high_water;
  ss_record_ack := record_ack;
  ss_record_attempt := record_attempt;
  ss_delivery_attempts := delivery_attempts;
  ss_dead_letters := dead_letters;
|}.

(** ** Invariant and view *)

(** Every entry refers to an object with the entry's identifier. *)
Record subs_inv (s : InMemorySubscriptionStore) (h : Heap) : Prop := {
  subs_keys : dict_wf (subs_ s);
  subs_ids : ∀ sid l, dict_get sid (subs_ s) = Some l →
    ∃ u, objs h !! l = Some u ∧ subscription_id u = sid;
  subs_fresh : ∀ l, is_Some (objs h !! l) → (l < next_loc h)%positive;
}.

Definition row (s : InMemorySubscriptionStore) (h : Heap) (sid : string)
    : option Subscription :=
  l ← dict_get sid (subs_ s); objs h !! l.

Definition hw_of (s : InMemorySubscriptionStore) (sid : string) : list (string * Z) :=
  default [] (dict_get sid (hw_ s)).

Lemma empty_subs_inv : subs_inv empty_subs (mkHeap ∅ 1).
Proof. split; [constructor|done|]. intros l [u Hu]. simpl in Hu. by rewrite lookup_empty in Hu. Qed.

Lemma row_known s h sid :
  subs_inv s h → is_Some (row s h sid) ↔ is_Some (dict_get sid (subs_ s)).
Proof.
  intros Hs. unfold row. destruct (dict_get sid (subs_ s)) as [l|] eqn:Hl; simpl; [|done].
  destruct (subs_ids _ _ Hs _ _ Hl) as (u & -> & _). done.
Qed.

Lemma set_sub_inv s h l u :
  subs_inv s h → objs h !! l = Some u →
  subs_inv (with_subs (dict_set (subscription_id u) l) s) h.
Proof.
  intros [Hk Hi Hf] Hu. split; simpl; [auto with a2a| |done].
  intros sid l'. rewrite dict_get_set. case_decide; [intros [= <-]; eauto|auto].
Qed.

Lemma row_set_sub s h l u x :
  objs h !! l = Some u →
  row (with_subs (dict_set (subscription_id u) l) s) h x =
  if decide (x = subscription_id u) then Some u else row s h x.
Proof.
  intros Hu. unfold row; simpl. rewrite dict_get_set. by case_decide.
Qed.

Lemma write_obj_inv s h l u u' :
  subs_inv s h → objs h !! l = Some u → subscription_id u' = subscription_id u →
  subs_inv s (write_obj l u' h).
Proof.
  intros [Hk Hi Hf] Hu Hid. split; simpl; [done| |].
  - intros sid l' Hl'. destruct (Hi _ _ Hl') as (v & Hv & Hvid).
    destruct (decide (l = l')) as [<-|Hne].
    + exists u'. rewrite lookup_insert_eq. split; [done|]. congruence.
    + exists v. by rewrite lookup_insert_ne.
  - intros l' Hl'. destruct (decide (l = l')) as [<-|Hne].
    + apply Hf. by eexists.
    + rewrite lookup_insert_ne in Hl' by done. by apply Hf.
Qed.

Lemma row_write_other s h l u u' x :
  subs_inv s h → objs h !! l = Some u → x ≠ subscription_id u →
  row s (write_obj l u' h) x = row s h x.
Proof.
  intros Hs Hu Hx. unfold row. destruct (dict_get x (subs_ s)) as [l'|] eqn:Hl'; simpl; [|done].
  destruct (subs_ids _ _ Hs _ _ Hl') as (v & Hv & Hvid).
  rewrite lookup_insert_ne; [done|]. intros ->. congruence.
Qed.

(** The position map after a write. *)
Lemma set_high_water_position s sid t n x t' :
  position_of (hw_of (with_hw (λ hw, dict_set sid
    (dict_set t n (default [] (dict_get sid hw))) hw) s) x) t' =
  if decide (x = sid ∧ t' = t) then n else position_of (hw_of s x) t'.
Proof.
  unfold hw_of, position_of; simpl. rewrite dict_get_set.
  destruct (decide (x = sid)) as [->|Hx]; simpl; [|rewrite decide_False; naive_solver].
  rewrite dict_get_set. repeat case_decide; naive_solver.
Qed.

(** The objects behind the entries of the dictionary. *)
Lemma listed s h : subs_inv s h →
  ∃ us, Forall2 (λ l u, objs h !! l = Some u ∧ row s h (subscription_id u) = Some u)
          (dict_values (subs_ s)) us ∧ subscription_id <$> us = dict_keys (subs_ s).
Proof.
  intros Hs. pose proof (subs_keys _ _ Hs) as Hk.
  assert (∀ x l, (x, l) ∈ subs_ s → ∃ u, objs h !! l = Some u ∧ row s h (subscription_id u) = Some u ∧
    subscription_id u = x) as Hget.
  { intros x l Hx. apply dict_elem_get in Hx; [|done]. destruct (subs_ids _ _ Hs _ _ Hx) as (u & Hu & Hid).
    exists u. split_and!; [done| |done]. unfold row. by rewrite Hid, Hx. }
  clear Hk. unfold dict_values, dict_keys. induction (subs_ s) as [|[x l] d IH]; [by exists []|].
  destruct IH as (us & Hus & Hids); [intros; apply Hget; by right|].
  destruct (Hget x l) as (u & Hu & Hrow & Hid); [by left|].
  exists (u :: us). split; [by constructor|]. rewrite !fmap_cons. cbn [fst]. by f_equal.
Qed.

#[export] Program Instance memory_subscription_store_laws :
    SubscriptionStoreLaws InMemorySubscriptionStore := {|
  ss_inv := subs_inv;
  ss_row := row;
  ss_hw := hw_of;
  ss_attempts := attempts_;
  ss_refuses _ := False;
  ss_accepts _ := True;
  ss_same := eq;
|}.
Next Obligation. intros u u' ->. done. Qed.
Next Obligation.
  intros s h sid Hs. simpl. split_and!; [done..|].
  unfold row. destruct (dict_get sid (subs_ s)) as [l|] eqn:Hl; simpl; [|done].
  destruct (subs_ids _ _ Hs _ _ Hl) as (u & Hu & Hid). eauto.
Qed.
Next Obligation.
  intros s h Hs. simpl. split_and!; [done..|]. destruct (listed s h Hs) as (us & Hus & Hids).
  exists us. rewrite Hids. split_and!; [done|apply Hs|].
  intros x Hx. apply dict_get_keys. by apply (row_known s h x).
Qed.
Next Obligation.
  intros s h l u u' Hs Hu Hid. pose proof (write_obj_inv s h l u u' Hs Hu Hid).
  split_and!; [done| | |].
  - intros x. by rewrite !row_known.
  - intros x Hx. by eapply row_write_other.
  - unfold row. destruct (dict_get _ (subs_ s)) as [l'|] eqn:Hl'; simpl; [|by left].
    destruct (decide (l = l')) as [->|Hne]; [right; apply lookup_insert_eq|left].
    by apply lookup_insert_ne.
Qed.
Next Obligation.
  intros s h l u u0 Hs Hu _. simpl. unfold update, mbind, M_bind, deref. rewrite Hu. simpl.
  split_and!; [done|by apply set_sub_inv| | |done|done].
  - exists u. rewrite row_set_sub by done. by rewrite decide_True.
  - intros x Hx. rewrite row_set_sub by done. by rewrite decide_False.
Qed.
Next Obligation. done. Qed.
Next Obligation.
  intros s h sid t n Hs _. simpl. split_and!; [done|by destruct Hs|done| |done].
  intros x t'. apply set_high_water_position.
Qed.
Next Obligation. intros s h sid eid c Hs _. simpl. split_and!; by destruct Hs. Qed.
Next Obligation. intros s h a Hs _. simpl. split_and!; by destruct Hs. Qed.
Next Obligation.
  intros s h l u hw Hs Hu Hnew Hhw _. simpl. unfold add, mbind, M_bind, deref. rewrite Hu. simpl.
  split_and!.
  - done.
  - destruct (set_sub_inv s h l u Hs Hu) as [Hk Hi Hf]. by split.
  - exists u. split; [|done].
    change (row (with_subs (dict_set (subscription_id u) l) s) h (subscription_id u) = Some u).
    rewrite row_set_sub by done. by rewrite decide_True.
  - intros x Hx. split.
    + change (row (with_subs (dict_set (subscription_id u) l) s) h x = row s h x).
      rewrite row_set_sub by done. by rewrite decide_False.
    + unfold hw_of; simpl. by rewrite dict_get_set_ne.
  - intros t. unfold hw_of; simpl. by rewrite dict_get_set_eq.
  - done.
Qed.

Section Properties.

(** Subscriptions are shared by reference: after an assignment through a
    reference that [get] returned, the next [get] reads the new value with no
    [update] in between, and every other subscription reads as before. *)
Theorem get_returns_live_reference s h sid l u u' :
  subs_inv s h → get sid (s, h) = (Ret (Some l), (s, h)) → objs h !! l = Some u →
  subscription_id u' = subscription_id u →
  let h' := write_obj l u' h in
  subs_inv s h' ∧
  (get sid ≫= λ r, match r with Some l' => Some <$> deref l' | None => mret None end) (s, h')
    = (Ret (Some u'), (s, h')) ∧
  ∀ x, x ≠ sid → row s h' x = row s h x.
Proof.
  intros Hs Hget Hu Hid h'. unfold get, gets in Hget. injection Hget as Hl. simpl in Hl.
  destruct (subs_ids _ _ Hs _ _ Hl) as (v & Hv & Hvid).
  assert (v = u) as -> by congruence.
  split_and!; [by eapply write_obj_inv| |].
  - unfold get, gets, mbind, M_bind; simpl. rewrite Hl. unfold fmap, M_fmap, deref; simpl.
    by rewrite lookup_insert_eq.
  - intros x Hx. eapply row_write_other; [done..|]. by rewrite Hvid.
Qed.
End Properties.

(** One subscription, renewed through the reference a reader got. *)
Definition sample_sub : Subscription :=
  mkSubscription "sub_1" EXPIRED "https://pub/card" "https://alice/card" ["orders"%string] None
    (mkResolvedDelivery WEBHOOK (Some "https://alice/hook"%string) None) 0 60000000 [] [].
Definition one_sub : InMemorySubscriptionStore := mkSubs [("sub_1"%string, 1%positive)] [] [] [].
Definition one_heap : Heap := mkHeap {[1%positive := sample_sub]} 2.

Lemma one_sub_inv : subs_inv one_sub one_heap.
Proof.
  split; simpl.
  - apply NoDup_singleton.
  - intros sid l. case_decide as E; [|done]. intros [= <-]. exists sample_sub.
    split; [apply lookup_singleton_eq|by subst].
  - intros l [u Hu]. apply lookup_singleton_Some in Hu as [<- _]. done.
Qed.

