(* ===== verification/MemoryRetryQueue.v ===== *)
(** * In-memory retry queue ([runtime/memory/retry_queue.py])

    The durable backlog of failed deliveries: a dictionary of items, claimed
    earliest first under a visibility lease. The objects inside never escape
    (every method copies), so the items are plain values. The theorems: the
    queue satisfies the [RetryQueue] laws, a claim takes the earliest due items,
    and a lease keeps a second worker away until it runs out. *)

From S2P Require Import Prelude PyStr Value Errors Effects Models Cursor Canonical Contracts.
Open Scope Z_scope.

(** [InMemoryRetryQueue._items] *)
Record InMemoryRetryQueue := mkQueue { items : list (string * RetryItem) }.

(** [__init__] *)
Definition empty_queue : InMemoryRetryQueue := mkQueue [].

(** [enqueue(item)] *)
Definition enqueue (i : RetryItem) : M InMemoryRetryQueue unit :=
  modify (λ q, mkQueue (dict_set (retry_id i) i (items q))).

(** [l[:n]]: a negative [n] counts from the end. *)
Definition slice_to {A} (n : Z) (l : list A) : list A :=
  if 0 <=? n then take (Z.to_nat n) l else take (length l - Z.to_nat (- n)) l.

Definition due_at (now_ : Z) (i : RetryItem) : bool := next_retry_at i <=? now_.
Definition retry_leb (x y : RetryItem) : bool := next_retry_at x <=? next_retry_at y.

(** [sorted((due items), key=next_retry_at)[:limit]] *)
Definition due_items (now_ limit : Z) (q : InMemoryRetryQueue) : list RetryItem :=
  slice_to limit (sort_by retry_leb (List.filter (due_at now_) (dict_values (items q)))).

(** The lease on a claimed item: [item.next_retry_at = leased]. *)
Definition lease_item (leased : Z) (due : list RetryItem) (rid : string) (i : RetryItem)
    : RetryItem :=
  if bool_decide (rid ∈ retry_id <$> due) then with_next leased i else i.

(** [claim_due(now, limit, lease_seconds)] *)
Definition claim_due (now_ limit lease_seconds : Z) : M InMemoryRetryQueue (list RetryItem) :=
  q ← get_state;
  let due := due_items now_ limit q in
  let leased := now_ + seconds lease_seconds in
  _ ← modify (λ q, mkQueue ((λ kv, (kv.1, lease_item leased due kv.1 kv.2)) <$> items q));
  mret (with_next leased <$> due).

(** [complete(retry_id)] *)
Definition complete (rid : string) : M InMemoryRetryQueue unit :=
  modify (λ q, mkQueue (dict_pop rid (items q))).

(** [reschedule(retry_id, next_retry_at, attempt, last_error)] *)
Definition reschedule (rid : string) (t attempt : Z) (err : option string)
    : M InMemoryRetryQueue unit :=
  modify (λ q, match dict_get rid (items q) with
               | Some i => mkQueue (dict_set rid (rescheduled t attempt err i) (items q))
               | None => q
               end).

(** [pending()] *)
Definition pending : M InMemoryRetryQueue (list RetryItem) := gets (λ q, dict_values (items q)).

#[export] Instance memory_retry_queue : RetryQueue InMemoryRetryQueue := {|
  rq_enqueue := enqueue;
  rq_claim_due := claim_due;
  rq_complete := complete;
  rq_reschedule := reschedule;
  rq_pending := pending;
|}.

(** ** Invariant *)

(** Every item is stored once, under its own identifier. *)
Record queue_inv (q : InMemoryRetryQueue) : Prop := {
  queue_keys : dict_wf (items q);
  queue_ids : ∀ rid i, dict_get rid (items q) = Some i → retry_id i = rid;
}.

Lemma empty_queue_inv : queue_inv empty_queue.
Proof. split; [constructor|done]. Qed.

Lemma set_item_inv q i :
  queue_inv q → queue_inv (mkQueue (dict_set (retry_id i) i (items q))).
Proof.
  intros [Hk Hi]. split; simpl; [auto with a2a|].
  intros rid j. rewrite dict_get_set. case_decide; [by intros [= <-]|auto].
Qed.

Lemma retry_leb_total x y : retry_leb x y = false → retry_leb y x = true.
Proof. unfold retry_leb. lia. Qed.
Lemma retry_leb_trans x y z :
  retry_leb x y = true → retry_leb y z = true → retry_leb x z = true.
Proof. unfold retry_leb. lia. Qed.

Lemma slice_to_take {A} n (l : list A) : ∃ k, slice_to n l = take k l.
Proof. unfold slice_to. destruct (0 <=? n); eauto. Qed.

Lemma value_stored q i :
  queue_inv q → i ∈ dict_values (items q) ↔ dict_get (retry_id i) (items q) = Some i.
Proof.
  intros [Hk Hi]. unfold dict_values. rewrite list_elem_of_fmap. split.
  - intros ([rid j] & -> & Hin). simpl. apply dict_elem_get in Hin; [|done].
    by rewrite (Hi _ _ Hin).
  - intros Hg. apply dict_get_elem in Hg. by exists (retry_id i, i).
Qed.

(** A due item is stored and due. *)
Lemma due_items_elem q now_ limit i :
  queue_inv q → i ∈ due_items now_ limit q →
  dict_get (retry_id i) (items q) = Some i ∧ next_retry_at i ≤ now_.
Proof.
  intros Hq Hi. unfold due_items in Hi.
  destruct (slice_to_take limit (sort_by retry_leb
    (List.filter (due_at now_) (dict_values (items q))))) as [k Hk]. rewrite Hk in Hi.
  apply elem_of_take in Hi as (n & Hn & _). apply list_elem_of_lookup_2 in Hn.
  rewrite sort_by_perm, list_elem_of_In, List.filter_In, <- list_elem_of_In in Hn.
  destruct Hn as [Hin Hdue]. unfold due_at in Hdue.
  split; [by apply value_stored|lia].
Qed.

Lemma values_ids_nodup q : queue_inv q → NoDup (retry_id <$> dict_values (items q)).
Proof.
  intros [Hk Hi]. unfold dict_values. rewrite <- list_fmap_compose.
  rewrite (Forall_fmap_ext_1 _ fst); [exact Hk|]. apply Forall_forall.
  intros [rid i] Hin. simpl. apply Hi. by apply dict_elem_get.
Qed.

Lemma due_items_nodup q now_ limit :
  queue_inv q → NoDup (retry_id <$> due_items now_ limit q).
Proof.
  intros Hq. unfold due_items.
  destruct (slice_to_take limit (sort_by retry_leb
    (List.filter (due_at now_) (dict_values (items q))))) as [k ->].
  rewrite fmap_take. eapply sublist_NoDup; [|apply sublist_take].
  rewrite sort_by_perm, (list_filter_bool _ (λ i, next_retry_at i ≤ now_)).
  - eapply sublist_NoDup; [by apply values_ids_nodup|]. apply fmap_sublist, sublist_filter.
  - intros i. apply Z.leb_le.
Qed.

(** A due item is claimed, unless the limit is used up. *)
Lemma due_or_full q now_ limit i :
  queue_inv q → 0 ≤ limit → dict_get (retry_id i) (items q) = Some i → next_retry_at i ≤ now_ →
  i ∈ due_items now_ limit q ∨ Z.of_nat (length (due_items now_ limit q)) = limit.
Proof.
  intros Hq Hlimit Hi Hdue. unfold due_items, slice_to. rewrite (proj2 (Z.leb_le _ _)) by done.
  destruct (take_all_or_full (Z.to_nat limit) (sort_by retry_leb
    (List.filter (due_at now_) (dict_values (items q)))) i) as [Hin|Hfull]; [| |right; lia].
  - rewrite sort_by_perm, list_elem_of_In, List.filter_In, <- list_elem_of_In.
    split; [by apply value_stored|]. unfold due_at. lia.
  - by left.
Qed.

(** The queue after a claim. *)
Definition after_claim (now_ limit lease : Z) (q : InMemoryRetryQueue) : InMemoryRetryQueue :=
  mkQueue ((λ kv, (kv.1,
    lease_item (now_ + seconds lease) (due_items now_ limit q) kv.1 kv.2)) <$> items q).

Lemma claim_due_run now_ limit lease q :
  claim_due now_ limit lease q =
  (Ret (with_next (now_ + seconds lease) <$> due_items now_ limit q),
   after_claim now_ limit lease q).
Proof. done. Qed.

Lemma after_claim_get now_ limit lease q rid :
  dict_get rid (items (after_claim now_ limit lease q)) =
  (if decide (rid ∈ retry_id <$> due_items now_ limit q)
   then with_next (now_ + seconds lease) <$> dict_get rid (items q)
   else dict_get rid (items q)).
Proof.
  unfold after_claim; cbn [items].
  rewrite (dict_get_map (lease_item _ _)). unfold lease_item. destruct (decide _) as [Hin|Hout].
  - by rewrite bool_decide_true.
  - rewrite bool_decide_false by done. by destruct (dict_get rid (items q)).
Qed.

Lemma after_claim_inv now_ limit lease q :
  queue_inv q → queue_inv (after_claim now_ limit lease q).
Proof.
  intros [Hk Hi]. split.
  - unfold dict_wf, after_claim; cbn [items].
    by rewrite (dict_keys_map (lease_item _ _)).
  - intros rid i. rewrite after_claim_get. case_decide; [|apply Hi].
    destruct (dict_get rid (items q)) as [j|] eqn:Hj; [|done]. simpl. intros [= <-].
    simpl. by apply Hi.
Qed.

Lemma leased_ids t (l : list RetryItem) : retry_id <$> (with_next t <$> l) = retry_id <$> l.
Proof. rewrite <- list_fmap_compose. by apply list_fmap_ext. Qed.

#[export] Program Instance memory_retry_queue_laws : RetryQueueLaws InMemoryRetryQueue := {|
  rq_inv := queue_inv;
  rq_item q rid := dict_get rid (items q);
  rq_refuses _ := False;
|}.
Next Obligation.
  intros q i Hq. simpl. split; [by apply set_item_inv|].
  split_and!; [by rewrite dict_get_set_eq|by rewrite dict_get_set_eq|].
  intros x Hx. by apply dict_get_set_ne.
Qed.
Next Obligation.
  intros q rid [Hk Hi]. simpl. split.
  - split; simpl; [by apply dict_pop_wf|]. intros x i.
    destruct (decide (x = rid)) as [->|Hne].
    + by rewrite dict_get_pop_eq.
    + rewrite dict_get_pop_ne by done. apply Hi.
  - intros x. case_decide; subst; [by apply dict_get_pop_eq|by apply dict_get_pop_ne].
Qed.
Next Obligation.
  intros q rid t a err Hq. cbn.
  destruct (dict_get rid (items q)) as [i|] eqn:Hg.
  - pose proof (queue_ids _ Hq _ _ Hg) as Hid. split.
    + rewrite <- Hid. apply (set_item_inv q (rescheduled t a err i) Hq).
    + intros x. simpl. rewrite dict_get_set. case_decide; [subst|done]. by rewrite Hg.
  - split; [done|]. intros x. case_decide; [subst|done]. by rewrite Hg.
Qed.
Next Obligation.
  intros q now_ limit lease Hq Hlimit.
  change (rq_claim_due now_ limit lease q) with (claim_due now_ limit lease q).
  rewrite claim_due_run. cbn [effect_or_refusal]. rewrite leased_ids.
  split_and!; [by apply after_claim_inv|by apply due_items_nodup| | | |].
  - rewrite length_fmap. unfold due_items, slice_to.
    rewrite (proj2 (Z.leb_le _ _)) by done. rewrite length_take. lia.
  - intros i Hi. apply list_elem_of_fmap in Hi as (i0 & -> & Hi0). exists i0.
    by destruct (due_items_elem q now_ limit i0 Hq Hi0).
  - intros x. apply after_claim_get.
  - intros x i0 Hi0 Hdue. rewrite length_fmap. pose proof (queue_ids _ Hq _ _ Hi0) as <-.
    destruct (due_or_full q now_ limit i0) as [Hin|Hfull]; [done..| |by right].
    left. by apply list_elem_of_fmap_2.
Qed.

(** ** Properties *)

(** The items a take leaves behind sort after those it takes. *)
Lemma take_sorted_le k (l : list RetryItem) x y :
  leb_sorted retry_leb l → x ∈ take k l → y ∈ drop k l → next_retry_at x ≤ next_retry_at y.
Proof.
  intros Hs Hx Hy. rewrite <- (take_drop k l) in Hs.
  unfold leb_sorted in Hs. revert Hs Hx Hy.
  generalize (take k l) (drop k l). intros l1 l2.
  induction l1 as [|a l1 IH]; [by intros _ Hx%elem_of_nil|].
  intros [Hs Ha]%StronglySorted_inv [->|Hx]%elem_of_cons Hy; [|by apply IH].
  rewrite Forall_forall in Ha. specialize (Ha y ltac:(apply elem_of_app; by right)).
  unfold retry_leb in Ha. lia.
Qed.

Lemma due_sorted now_ q :
  leb_sorted retry_leb (sort_by retry_leb (List.filter (due_at now_) (dict_values (items q)))).
Proof. apply sort_by_sorted; [apply retry_leb_total|apply retry_leb_trans]. Qed.

(** A claim is a lease on the earliest due items: it returns at most
    [limit] items, each stored and due; an item that is due and left behind
    is not earlier than any returned one, and is left behind only when the
    limit is used up; afterwards the returned items carry the end of the lease
    and every other item is as it was. *)
Lemma claim_takes_earliest_due q now_ limit lease out q' :
  queue_inv q → 0 ≤ limit → claim_due now_ limit lease q = (Ret out, q') →
  let due := due_items now_ limit q in
  out = (with_next (now_ + seconds lease) <$> due) ∧
  Forall (λ i, dict_get (retry_id i) (items q) = Some i ∧ next_retry_at i ≤ now_) due ∧
  (∀ j, dict_get (retry_id j) (items q) = Some j → next_retry_at j ≤ now_ → (j ∉ due) →
     Z.of_nat (length due) = limit ∧ Forall (λ i, next_retry_at i ≤ next_retry_at j) due) ∧
  ∀ rid, dict_get rid (items q') =
    (if decide (rid ∈ retry_id <$> out) then with_next (now_ + seconds lease) <$> dict_get rid (items q)
     else dict_get rid (items q)).
Proof.
  intros Hq Hlimit Hrun due. rewrite claim_due_run in Hrun. injection Hrun as Hout Hq'.
  split_and!; [by rewrite <- Hout| | |].
  - apply Forall_forall. intros i Hi. by apply (due_items_elem q now_ limit).
  - intros j Hj Hdue Hleft. unfold due, due_items, slice_to in *.
    rewrite (proj2 (Z.leb_le _ _)) in * by done.
    set (all := sort_by retry_leb _) in *.
    assert (j ∈ all) as Hall.
    { unfold all. rewrite sort_by_perm, list_elem_of_In, List.filter_In, <- list_elem_of_In.
      split; [by apply value_stored|unfold due_at; lia]. }
    rewrite <- (take_drop (Z.to_nat limit) all) in Hall.
    apply elem_of_app in Hall as [Hin|Hin]; [done|]. split.
    + rewrite length_take. destruct (Nat.le_gt_cases (length all) (Z.to_nat limit)) as [Hle|].
      * rewrite drop_ge in Hin by done. by apply elem_of_nil in Hin.
      * lia.
    + apply Forall_forall. intros i Hi. by eapply take_sorted_le; [apply due_sorted|..].
  - intros rid. rewrite <- Hq', <- Hout, leased_ids. apply after_claim_get.
Qed.

(** The visibility lease excludes double delivery: a second claim before
    the lease of the first runs out returns none of its items. *)
Lemma lease_excludes_second_claim q now1 limit1 lease1 out1 q1 now2 limit2 lease2 out2 q2 :
  queue_inv q → now2 < now1 + seconds lease1 →
  claim_due now1 limit1 lease1 q = (Ret out1, q1) →
  claim_due now2 limit2 lease2 q1 = (Ret out2, q2) →
  ∀ i j, i ∈ out1 → j ∈ out2 → retry_id i ≠ retry_id j.
Proof.
  intros Hq Hlt H1 H2 i j Hi Hj Heq. rewrite claim_due_run in H1, H2.
  injection H1 as <- <-. injection H2 as <- <-.
  apply list_elem_of_fmap in Hi as (i0 & -> & Hi). apply list_elem_of_fmap in Hj as (j0 & -> & Hj).
  simpl in Heq. apply due_items_elem in Hj as [Hstored Hdue]; [|by apply after_claim_inv].
  rewrite after_claim_get, <- Heq in Hstored.
  rewrite decide_True in Hstored by (apply list_elem_of_fmap; eauto).
  apply due_items_elem in Hi as [Hi _]; [|done]. rewrite Hi in Hstored. simpl in Hstored.
  injection Hstored as <-. simpl in Hdue. lia.
Qed.

(** A claimed item survives a worker that dies: it stays in the queue,
    and once the lease has run out a claim with room for every due item
    returns it again. *)
Lemma crashed_claim_is_due_again q now1 limit1 lease1 out1 q1 now2 limit2 lease2 i :
  queue_inv q → claim_due now1 limit1 lease1 q = (Ret out1, q1) → i ∈ out1 →
  now1 + seconds lease1 ≤ now2 → Z.of_nat (length (items q)) ≤ limit2 →
  ∃ out2 q2, claim_due now2 limit2 lease2 q1 = (Ret out2, q2) ∧
             with_next (now2 + seconds lease2) i ∈ out2.
Proof.
  intros Hq H1 Hi Hlease Hroom. rewrite claim_due_run in H1. injection H1 as <- <-.
  do 2 eexists. split; [apply claim_due_run|]. apply list_elem_of_fmap_2.
  apply list_elem_of_fmap in Hi as (i0 & -> & Hi).
  assert (with_next (now1 + seconds lease1) i0 ∈
          dict_values (items (after_claim now1 limit1 lease1 q))) as Hin.
  { apply value_stored; [by apply after_claim_inv|]. cbn [with_next retry_id].
    rewrite after_claim_get.
    rewrite decide_True by (apply list_elem_of_fmap; eauto).
    apply due_items_elem in Hi as [-> _]; done. }
  unfold due_items, slice_to. rewrite (proj2 (Z.leb_le _ _)) by lia.
  rewrite take_ge.
  - rewrite sort_by_perm, list_elem_of_In, List.filter_In, <- list_elem_of_In.
    split; [done|]. unfold due_at; simpl. lia.
  - rewrite sort_by_perm. etransitivity; [apply List.filter_length_le|].
    unfold dict_values, after_claim; simpl. rewrite !length_fmap. lia.
Qed.

(** A backlog of three items, one of them not due before time 100. *)
Definition sample_item (rid : string) (t : Z) : RetryItem :=
  mkRetryItem rid "sub" "orders" "orders:0000000000000000" "evt" 1 t None.
Definition sample_queue : InMemoryRetryQueue :=
  mkQueue ((λ i, (retry_id i, i)) <$>
    [sample_item "a" 7; sample_item "b" 100000000; sample_item "c" 3]).

Lemma sample_queue_inv : queue_inv sample_queue.
Proof.
  split; [by apply (bool_decide_unpack _); vm_compute|].
  intros rid i. simpl. repeat (case_decide; [intros [= <-]; by subst|]). done.
Qed.

Lemma claim_takes_earliest_due_witness :
  let due := due_items 10 2 sample_queue in
  Forall (λ i, dict_get (retry_id i) (items sample_queue) = Some i ∧ next_retry_at i ≤ 10) due ∧
  due = [sample_item "c" 3; sample_item "a" 7].
Proof.
  split; [|vm_compute; reflexivity].
  apply (claim_takes_earliest_due sample_queue 10 2 60 _ _ sample_queue_inv ltac:(lia) eq_refl).
Defined.

Lemma lease_excludes_second_claim_witness :
  retry_id (sample_item "c" 60000010) ≠ retry_id (sample_item "a" 60000011).
Proof.
  eapply (lease_excludes_second_claim sample_queue 10 1 60 [sample_item "c" 60000010] _
    11 1 60 [sample_item "a" 60000011]).
  - apply sample_queue_inv.
  - unfold seconds. lia.
  - vm_compute. reflexivity.
  - vm_compute. reflexivity.
  - left.
  - left.
Defined.

Lemma crashed_claim_is_due_again_witness :
  ∃ out2 q2, claim_due 70000000 3 60 (after_claim 10 1 60 sample_queue) = (Ret out2, q2) ∧
             with_next 130000000 (sample_item "c" 60000010) ∈ out2.
Proof.
  apply (crashed_claim_is_due_again sample_queue 10 1 60 [sample_item "c" 60000010]
    (after_claim 10 1 60 sample_queue) 70000000 3 60 _ sample_queue_inv).
  - vm_compute. reflexivity.
  - left.
  - unfold seconds. lia.
  - simpl. lia.
Defined.
