(* ===== verification/HttpDelivery.v ===== *)
(** * Delivery over HTTP (runtime/http_delivery.py, the subscriber app of server.py)

    [HttpxTransport] on the publisher's side, the two routes of
    [create_subscriber_app] on the other, and what survives the trip between
    them. *)

From S2P Require Import Prelude PyStr Value Errors Effects Dynamic Models Contracts Receiver.
From S2P Require Import Canonical Signing.
Open Scope Z_scope.

(** ** The publisher's side *)

(** What [client.post] yields: a response with its status and, if its body is
    JSON, the parsed body; or an [httpx.RequestError] with its text. *)
Inductive http_reply :=
| Response (status_ : Z) (json : option value)
| RequestError (text : string).

(** [_result_from_status(status, reason)] *)
Definition result_from_status (st : Z) (why : option string) : DeliveryResult :=
  if (200 <=? st) && (st <? 300) then mkDeliveryResult true true (Some st) None
  else mkDeliveryResult false ((st =? 408) || (st =? 429) || (500 <=? st)) (Some st) why.

(** A reason as [DeliveryResult] declares it; JSON that is not text is dropped. *)
Definition reason_text (v : value) : option string :=
  match v with VStr s => Some s | _ => None end.

(** The reading of a 2xx JSON-RPC answer in [send_a2a_message]. *)
Definition result_from_payload (st : Z) (payload : value) : outcome DeliveryResult :=
  failed ← contains_key payload "error";
  if failed : bool then
    err ← get_item payload "error";
    why ← get_attr err "message" VNone;
    mret (mkDeliveryResult false true None (reason_text why))
  else
    r ← get_attr payload "result" VNone;
    let result := if truthy r then r else VDict [] in
    acked_ ← get_attr result "ack" VNone;
    match acked_ with
    | VBool false =>
        again ← get_attr result "retry" (VBool false);
        mret (mkDeliveryResult false (truthy again) None None)
    | _ => mret (mkDeliveryResult true true (Some st) None)
    end.

Definition A2A_SEND_MESSAGE : string := "SendMessage".

Section Transport.
Context {W : Type} (post : string → list (string * string) → value → M W http_reply).
Context (fresh_id : M W string).

(** [HttpxTransport.send_webhook(url, headers, body)] *)
Definition http_send_webhook (url : string) (headers : list (string * string))
    (body : list (string * value)) : M W DeliveryResult :=
  resp ← post url (dict_merge [("Content-Type", "application/cloudevents+json")]%string headers)
           (VDict body);
  mret match resp with
       | RequestError text => mkDeliveryResult false true None (Some text)
       | Response st _ => result_from_status st None
       end.

(** [HttpxTransport.send_a2a_message(endpoint, message)] *)
Definition http_send_a2a_message (endpoint : string) (message : value) : M W DeliveryResult :=
  i ← fresh_id;
  resp ← post endpoint []
    (VDict [("jsonrpc", VStr "2.0"); ("id", VStr i); ("method", VStr A2A_SEND_MESSAGE);
            ("params", message)]%string);
  match resp with
  | RequestError text => mret (mkDeliveryResult false true None (Some text))
  | Response st json =>
      if negb ((200 <=? st) && (st <? 300)) then mret (result_from_status st None)
      else match json with
           | None => mret (mkDeliveryResult false true None
                             (Some "non-JSON response from A2A endpoint"%string))
           | Some payload => lift (result_from_payload st payload)
           end
  end.
End Transport.

(** ** The subscriber's side *)

(** [_activated(header_value)] *)
Definition activated (header_value : option string) : list string :=
  match header_value with
  | None => []
  | Some h =>
      if bool_decide (EXTENSION_URI ∈ List.filter (λ u, negb (bool_decide (u = EmptyString)))
                        (strip <$> split_on comma h))
      then [EXTENSION_URI] else []
  end.

(** [_receive_status(res)] *)
Definition receive_status (res : DeliveryResult) : Z :=
  match status_code res with
  | Some st => st
  | None => if ack res then 204 else if retry res then 503 else 422
  end.

Definition EXTENSIONS_HEADER : string := "A2A-Extensions".

(** The response headers of both routes; incoming names are lower case. *)
Definition echo (headers : list (string * string)) : list (string * string) :=
  match activated (dict_get "a2a-extensions"%string headers) with
  | [] => []
  | uris => [(EXTENSIONS_HEADER, str_join ", " uris)]
  end.

(** What lies between the client and a route (httpx, the ASGI server, Starlette):
    the headers that [dict(request.headers)] has in the route for those the client
    was given, and what the client makes of an exception that the route raises. *)
Class HttpStack := {
  arriving : list (string * string) → list (string * string);
  route_failure : exn → outcome http_reply;
}.

Definition used_headers : list string :=
  ["authorization"; "a2a-event-key-id"; "a2a-event-timestamp"; "a2a-event-signature"]%string.

(** No two of the names are the same header. *)
Definition distinct_headers (h : list (string * string)) : Prop := NoDup (lower <$> dict_keys h).

(** What the libraries document: the headers in question arrive with the values
    they were sent with, and the client adds none of that name; an exception in
    a route is a 500 without JSON, or breaks the connection, or, with a client
    bound to the app in the same process, is raised again at the client. *)
Class HttpStackLaws `{HttpStack} := {
  arriving_law k h : distinct_headers h → k ∈ used_headers →
    dict_get k (lower_keys (arriving h)) = dict_get k (lower_keys h);
  route_failure_law e :
    route_failure e = Ret (Response 500 None) ∨ (∃ text, route_failure e = Ret (RequestError text)) ∨
    route_failure e = Raise e;
}.

Section App.
Context {X : Type} `{Platform, Crypto, IsoParser}.
Context (key_resolver : value → M (RWorld X) string).
Context (on_event : option (list (string * value) → M (RWorld X) (option DeliveryResult))).
Context (max_skew : option Z).
Local Abbreviation RM := (M (RWorld X)).

(** [POST /a2a/v1]: the response headers and the JSON-RPC answer *)
Definition route_a2a (headers : list (string * string)) (body : value)
    : RM (list (string * string) * value) :=
  method ← lift (get_attr body "method" VNone);
  i ← lift (get_attr body "id" VNone);
  if negb (py_eq method (VStr A2A_SEND_MESSAGE)) then
    mret (echo headers, VDict [("jsonrpc", VStr "2.0"); ("id", i);
      ("error", VDict [("code", VInt (-32601)); ("message", VStr "Unknown method.")])]%string)
  else
    params ← lift (get_item body "params");
    res ← accept_a2a_message key_resolver on_event max_skew params;
    mret (echo headers, VDict [("jsonrpc", VStr "2.0"); ("id", i);
      ("result", VDict ([("ack", VBool (ack res))]
                        ++ (if ack res then [] else [("retry", VBool (retry res))])))]%string).

(** [POST /a2a-events/receive]: the response headers and the status *)
Definition route_receive (headers : list (string * string)) (body : value)
    : RM (list (string * string) * Z) :=
  res ← accept_webhook key_resolver on_event max_skew headers body;
  mret (echo headers, receive_status res).

(** [client.post] with the app at the other end. *)
Context `{HttpStack}.

Definition through {A} (m : RM A) (render : A → http_reply) : RM http_reply := λ w,
  match m w with
  | (Ret a, w') => (Ret (render a), w')
  | (Raise e, w') => (route_failure e, w')
  | (NoFuel, w') => (NoFuel, w')
  end.

Definition post_receive (_ : string) (headers : list (string * string)) (body : value)
    : RM http_reply :=
  through (route_receive (arriving headers) body) (λ r, Response r.2 None).

Definition post_a2a (_ : string) (headers : list (string * string)) (body : value)
    : RM http_reply :=
  through (route_a2a (arriving headers) body) (λ r, Response 200 (Some r.2)).
End App.

(** ** Header names *)

(** The value of the last header named [k], whatever its case. *)
Fixpoint last_named (k : string) (l : list (string * string)) : option string :=
  match l with
  | [] => None
  | (k', v) :: l' =>
      match last_named k l' with
      | Some x => Some x
      | None => if decide (k = lower k') then Some v else None
      end
  end.

Lemma lower_keys_get_from k (l d : list (string * string)) :
  dict_get k (foldl (λ d kv, dict_set (lower kv.1) kv.2 d) d l) =
  match last_named k l with Some v => Some v | None => dict_get k d end.
Proof.
  revert d. induction l as [|[k' v] l IH]; intros d; simpl; [done|].
  rewrite IH. destruct (last_named k l); [done|]. rewrite dict_get_set. by case_decide.
Qed.

Lemma lower_keys_get k l : dict_get k (lower_keys l) = last_named k l.
Proof. unfold lower_keys. rewrite lower_keys_get_from. by destruct (last_named k l). Qed.

(** Merging a dictionary into one it shares no key with appends it. *)
Lemma dict_merge_fresh {V} (d l : list (string * V)) :
  dict_wf l → (∀ k, k ∈ dict_keys l → k ∉ dict_keys d) → dict_merge d l = d ++ l.
Proof.
  unfold dict_merge, dict_wf. revert d. induction l as [|[k v] l IH]; intros d; simpl.
  { by rewrite (right_id_L [] (++)). }
  intros [Hni Hnd]%NoDup_cons Hfresh.
  assert (dict_set k v d = d ++ [(k, v)]) as ->.
  { assert (k ∉ dict_keys d) as Hk by (apply Hfresh; left). clear -Hk.
    induction d as [|[k' v'] d IHd]; simpl in *; [done|].
    apply not_elem_of_cons in Hk as [Hne Hk]. rewrite decide_False by done. f_equal. auto. }
  rewrite IH; [by rewrite <- (assoc_L (++))|done|].
  intros k' Hk'. unfold dict_keys. rewrite fmap_app, elem_of_app. simpl.
  rewrite list_elem_of_singleton. intros [Hd| ->]; [|done].
  by apply (Hfresh k'); [right|].
Qed.

(** ** The trip *)

(** The status that [send_webhook] reads back as the result. *)
Definition coherent (res : DeliveryResult) : Prop :=
  match status_code res with
  | None => True
  | Some st =>
      let r := result_from_status st None in
      ack r = ack res ∧ (ack res = false → retry r = retry res)
  end.

(** The same answer as far as the publisher acts on it. *)
Definition same_answer (res res' : DeliveryResult) : Prop :=
  ack res' = ack res ∧ (ack res = false → retry res' = retry res).

Section Trip.
Context {X : Type} `{Platform, Crypto, IsoParser, HttpStackLaws}.
Context (key_resolver : value → M (RWorld X) string).
Context (on_event : option (list (string * value) → M (RWorld X) (option DeliveryResult))).
Context (max_skew : option Z).

(** The status codes of the handler's answers agree with what they say. *)
Definition coherent_handler : Prop := ∀ f ev w res w',
  on_event = Some f → f ev w = (Ret (Some res), w') → coherent res.
Context (handler_coherent : coherent_handler).

Lemma process_coherent ev w res w' :
  process on_event ev w = (Ret res, w') → coherent res.
Proof.
  unfold process. destruct (negb (truthy _)); [by intros [= <- _]|].
  destruct (negb (hashable _)); [done|]. unfold mbind, M_bind, get_state.
  destruct (seen_before _ _); [by intros [= <- _]|].
  destruct on_event as [f|] eqn:Hf; simpl; [|by intros [= <- _]].
  destruct (f ev w) as [[[o|]|e|] w1] eqn:E; try done; [|by intros [= <- _]].
  destruct (ack o); intros [= <- _]; by eapply handler_coherent.
Qed.

Lemma accept_coherent event k t s tok w res w' :
  accept key_resolver on_event max_skew event k t s tok w = (Ret res, w') → coherent res.
Proof.
  unfold accept. destruct event as [| | | | | |ev]; try done.
  unfold mbind, M_bind, get_state, lift.
  destruct (delivery_token_ok _ _ _) as [[]|e|]; simpl; [|by intros [= <- _]|done..].
  destruct (try_except _ _ w) as [[[pub|]|e|] w1]; [|by intros [= <- _]|done..].
  destruct (verify_any _ _ _ _) as [[]|e|]; simpl; [|by intros [= <- _]|done..].
  destruct (within_skew _ _ w1) as [[[]|e|] w2]; simpl; [|by intros [= <- _]|done..].
  apply process_coherent.
Qed.

(** The headers of a webhook, as [send_webhook] completes them. *)
Definition sent_headers (headers : list (string * string)) : list (string * string) :=
  dict_merge [("Content-Type", "application/cloudevents+json")]%string headers.

Lemma distinct_sent headers :
  distinct_headers headers → ("content-type"%string ∉ lower <$> dict_keys headers) →
  sent_headers headers = ("Content-Type"%string, "application/cloudevents+json"%string) :: headers ∧
  distinct_headers (sent_headers headers).
Proof.
  intros Hd Hct. unfold sent_headers. rewrite dict_merge_fresh; [split; [done|]|..].
  - unfold distinct_headers. cbn. by apply NoDup_cons.
  - unfold dict_wf. by apply (NoDup_fmap_1 lower).
  - intros k Hk. cbn. intros ->%list_elem_of_singleton. apply Hct.
    by apply (list_elem_of_fmap_2 lower) in Hk.
Qed.

Lemma header_arrives k headers :
  distinct_headers headers → ("content-type"%string ∉ lower <$> dict_keys headers) → k ∈ used_headers →
  header (lower_keys (arriving (sent_headers headers))) k = header (lower_keys headers) k.
Proof.
  intros Hd Hct Hk. destruct (distinct_sent headers Hd Hct) as [Hsent Hd'].
  unfold header. f_equal. rewrite arriving_law by done. rewrite Hsent, !lower_keys_get. simpl.
  destruct (last_named k headers); [done|]. rewrite decide_False; [done|]. intros ->. revert Hk.
  by apply (bool_decide_unpack _).
Qed.

Lemma webhook_arrives headers body w :
  distinct_headers headers → ("content-type"%string ∉ lower <$> dict_keys headers) →
  accept_webhook key_resolver on_event max_skew (arriving (sent_headers headers)) body w
  = accept_webhook key_resolver on_event max_skew headers body w.
Proof.
  intros Hwf Hct. unfold accept_webhook.
  rewrite !header_arrives by (done || (unfold used_headers; set_solver)). done.
Qed.

(** What the publisher learns of the receiver's outcome [r]: its answer, or of an
    exception, that the delivery failed and is to be retried, unless the exception
    reaches it. *)
Definition told_of (r : outcome DeliveryResult) (sent : outcome DeliveryResult) : Prop :=
  match r with
  | Ret res => ∃ res', sent = Ret res' ∧ same_answer res res'
  | Raise e => sent = Raise e ∨ ∃ res', sent = Ret res' ∧ ack res' = false ∧ retry res' = true
  | NoFuel => sent = NoFuel
  end.

(** C30: the subscriber's answer survives the HTTP trip, in both delivery
    modes. Let the status codes of the subscriber's handler agree with its answers
    (a webhook answer is nothing but its status), and the HTTP libraries keep
    their laws. Sending over [HttpxTransport] to the subscriber's app leaves the
    receiver exactly as handing it the delivery would, and tells the publisher the
    same: acknowledged, or refused, with the same say on retrying. An exception in
    the receiver is a failure to be retried, or is raised at the publisher. *)
Theorem answer_survives_http url headers body message ids w :
  distinct_headers headers → ("content-type"%string ∉ lower <$> dict_keys headers) →
  (let '(r, w') := accept_webhook key_resolver on_event max_skew headers (VDict body) w in
   ∃ sent, http_send_webhook (post_receive key_resolver on_event max_skew) url headers body w = (sent, w') ∧
     told_of r sent) ∧
  (let '(r, w') := accept_a2a_message key_resolver on_event max_skew message w in
   ∃ sent, http_send_a2a_message (post_a2a key_resolver on_event max_skew) (mret ids) url message w = (sent, w') ∧
     told_of r sent).
Proof.
  intros Hwf Hct. split.
  - unfold http_send_webhook, post_receive, through, route_receive, mbind, M_bind.
    fold (sent_headers headers). rewrite webhook_arrives by done.
    destruct (accept_webhook _ _ _ _ _ w) as [[res|e|] w'] eqn:E; simpl.
    + eexists. split; [done|]. unfold accept_webhook in E. eexists. split; [done|].
      destruct (partition_on _ _). apply accept_coherent in E.
      unfold same_answer, receive_status, coherent in *. destruct (status_code res); [done|].
      by destruct (ack res), (retry res).
    + destruct (route_failure_law e) as [->|[[text ->]| ->]]; eexists; (split; [done|]); simpl; eauto.
    + by eexists.
  - unfold http_send_a2a_message, post_a2a, through, route_a2a, mbind, M_bind, lift. simpl.
    destruct (accept_a2a_message _ _ _ message w) as [[res|e|] w'] eqn:E; simpl.
    + unfold result_from_payload, same_answer. simpl.
      destruct (ack res), (retry res); (eexists; split; [done|]; by eexists).
    + destruct (route_failure_law e) as [->|[[text ->]| ->]]; eexists; (split; [done|]); simpl; eauto.
    + by eexists.
Qed.
End Trip.
