(* ===== verification/KeyResolver.v ===== *)
(** * The subscriber's key cache (server.py, [JwksKeyResolver])

    Keys are fetched from the publisher's JWKS endpoint when one is missing. *)

From S2P Require Import Prelude PyStr Value Errors Effects Dynamic Contracts Base64 Canonical Signing.
From S2P Require Import Receiver.
Open Scope Z_scope.

(** [self._cache]: keyed by whatever JSON the key ids are, compared by [==]. *)
Definition key_cache := list (value * string).

Fixpoint cached (i : value) (c : key_cache) : option string :=
  match c with
  | [] => None
  | (j, pub) :: c' => if py_eq i j then Some pub else cached i c'
  end.

(** [self._cache[i] = pub] *)
Fixpoint cache_key (i : value) (pub : string) (c : key_cache) : key_cache :=
  match c with
  | [] => [(i, pub)]
  | (j, p) :: c' => if py_eq i j then (j, pub) :: c' else (j, p) :: cache_key i pub c'
  end.

(** [public_key_from_jwk(jwk)] of a parsed JSON object *)
Definition key_of_jwk (jwk : value) : outcome string :=
  x ← get_item jwk "x";
  match x with
  | VStr s => public_key_from_jwk [("x"%string, s)]
  | _ => Raise (TypeError "a JWK coordinate is text")
  end.

Section Resolver.
Context {W : Type} (view : W → key_cache) (upd : key_cache → W → W).

(** [self._client.get(self._jwks_url)]: the status and the parsed body, [None]
    when it is not JSON *)
Context (fetch : M W (Z * option value)).

(** The body of the loop of [_refresh]: the key is built before its id is read. *)
Definition take_jwk (jwk : value) : M W unit :=
  kty ← lift (get_attr jwk "kty" VNone);
  crv ← lift (get_attr jwk "crv" VNone);
  if py_eq kty (VStr "OKP") && py_eq crv (VStr "Ed25519") then
    pub ← lift (key_of_jwk jwk);
    i ← lift (get_item jwk "kid");
    if hashable i then modify (λ w, upd (cache_key i pub (view w)) w) else raise unhashable
  else mret tt.

(** [_refresh()]: [raise_for_status] refuses all but 2xx. *)
Definition refresh : M W unit :=
  resp ← fetch;
  if negb ((200 <=? resp.1) && (resp.1 <? 300)) then raise (OtherException "HTTPStatusError") else
  match resp.2 with
  | None => raise (ValueError "not JSON")
  | Some body =>
      v ← lift (get_attr body "keys" (VList []));
      jwks_ ← lift (iterate v);
      for_each jwks_ take_jwk
  end.

(** [__call__(key_id)] *)
Definition resolve_key (key_id : value) : M W string :=
  if negb (hashable key_id) then raise unhashable else
  w ← get_state;
  _ ← match cached key_id (view w) with Some _ => mret tt | None => refresh end;
  w' ← get_state;
  match cached key_id (view w') with
  | Some pub => mret pub
  | None => raise (KeyError "key id")
  end.
End Resolver.

(** ** Resolving against a publisher's key set *)

(** [{"keys": publisher.signing_jwks()}] as parsed JSON *)
Definition jwk_value (jwk : list (string * string)) : value :=
  VDict ((λ kv, (kv.1, VStr kv.2)) <$> jwk).

Definition keys_document `{Crypto} (s : SigningKeySet) : value :=
  VDict [("keys"%string, VList (jwk_value <$> jwks s))].

(** No key id of [s] was used for another key before. *)
Definition never_reused `{Crypto} (s : SigningKeySet) (c : key_cache) : Prop :=
  ∀ i k pub, dict_get i (keys s) = Some k → cached (VStr i) c = Some pub → pub = public_key k.

Lemma str_py_eq j x : py_eq (VStr j) x = true ↔ x = VStr j.
Proof.
  destruct x as [| | | |s| |]; try (by split). simpl. rewrite bool_decide_eq_true. naive_solver.
Qed.

Lemma cached_set i j pub c :
  cached (VStr i) (cache_key (VStr j) pub c) =
  if decide (i = j) then Some pub else cached (VStr i) c.
Proof.
  induction c as [|[x p] c IH]; cbn [cached cache_key].
  - destruct (py_eq _ _) eqn:E; case_decide; try done.
    + apply str_py_eq in E. congruence.
    + subst. by rewrite (proj2 (str_py_eq j _)) in E.
  - destruct (py_eq (VStr j) x) eqn:Ej; cbn [cached]; destruct (py_eq (VStr i) x) eqn:Ei;
      rewrite ?IH; case_decide; subst; try congruence.
    apply str_py_eq in Ej as ->. by apply str_py_eq in Ei as [= ->].
Qed.

Section Refreshing.
Context {W : Type} (view : W → key_cache) (upd : key_cache → W → W).
Context (fetch : M W (Z * option value)).
Context `{CryptoLaws}.
Context (view_upd : ∀ c w, view (upd c w) = c).

Lemma take_jwk_run k w :
  take_jwk view upd (jwk_value (to_jwk k)) w
  = (Ret tt, upd (cache_key (VStr (kid k)) (public_key k) (view w)) w).
Proof.
  unfold take_jwk, mbind, M_bind, lift, jwk_value.
  assert (key_of_jwk (VDict ((λ kv, (kv.1, VStr kv.2)) <$> to_jwk k)) = Ret (public_key k)) as ->.
  { transitivity (public_key_from_jwk (to_jwk k)); [done|apply jwk_roundtrip_run]. }
  done.
Qed.

(** Reading in the keys of a list. *)
Lemma take_jwks_run ks w :
  (∀ k k', k ∈ ks → k' ∈ ks → kid k = kid k' → k = k') →
  ∃ w', for_each ((λ k, jwk_value (to_jwk k)) <$> ks) (take_jwk view upd) w = (Ret tt, w') ∧
    (∀ i, (∃ k, k ∈ ks ∧ kid k = i) ∨ cached (VStr i) (view w') = cached (VStr i) (view w)) ∧
    (∀ k, k ∈ ks → cached (VStr (kid k)) (view w') = Some (public_key k)).
Proof.
  revert w. induction ks as [|k ks IH]; intros w Huniq; simpl.
  { exists w. split; [done|]. split; [by right|]. by intros k ?%elem_of_nil. }
  rewrite (bind_ret _ _ _ _ _ (take_jwk_run k w)).
  set (w1 := upd _ _). destruct (IH w1) as (w' & Hrun & Hold & Hnew).
  { intros. apply Huniq; [by right|by right|done]. }
  exists w'. split; [done|].
  assert (∀ i, cached (VStr i) (view w1) =
    if decide (i = kid k) then Some (public_key k) else cached (VStr i) (view w)) as Hw1.
  { intros i. unfold w1. by rewrite view_upd, cached_set. }
  split.
  - intros i. destruct (Hold i) as [(k' & Hk' & <-)|E].
    + left. exists k'. split; [by right|done].
    + rewrite E, Hw1. case_decide as Hi; [|by right]. left. exists k. split; [left|done].
  - intros k' [->|Hk']%elem_of_cons; [|by apply Hnew].
    destruct (Hold (kid k)) as [(k2 & Hk2 & E)|E].
    + assert (k2 = k) as -> by (apply Huniq; [by right|left|done]). by apply Hnew.
    + rewrite E, Hw1. by rewrite decide_True.
Qed.

(** C31: a subscriber that knows only the JWKS address can check every event.
    After any rotations of the publisher, with any cache in which no id of a
    served key stands for another key (key ids are not reused), and while the
    address serves the current document: every id that is served, the active
    key's among them, is answered with its key, fetched when it is not in the
    cache; an id that is not served is answered with the key the cache has for it
    (a retired key, whose events were signed before), without a fetch, and is
    [KeyError] when the cache has none. The cache stays such a one. *)
Theorem resolver_follows_rotation s w :
  key_reachable s → never_reused s (view w) →
  (∀ w, fetch w = (Ret (200, Some (keys_document s)), w)) →
  (∃ k, active s = Ret k ∧ dict_get (kid k) (keys s) = Some k) ∧
  ∀ i, ∃ w', never_reused s (view w') ∧
    match dict_get i (keys s), cached (VStr i) (view w) with
    | Some k, _ => resolve_key view upd fetch (VStr i) w = (Ret (public_key k), w')
    | None, Some pub => resolve_key view upd fetch (VStr i) w = (Ret pub, w') ∧ w' = w
    | None, None => ∃ msg, resolve_key view upd fetch (VStr i) w = (Raise (KeyError msg), w')
    end.
Proof.
  intros Hs Hc Hf. apply key_reachable_inv in Hs as Hinv. destruct Hinv as [Hwf Hown [k Hk]].
  assert (∃ w', refresh view upd fetch w = (Ret tt, w') ∧ never_reused s (view w') ∧
    (∀ i k, dict_get i (keys s) = Some k → cached (VStr i) (view w') = Some (public_key k)) ∧
    ∀ i, dict_get i (keys s) = None → cached (VStr i) (view w') = cached (VStr i) (view w))
    as (w' & Hrun & Hc' & Hget & Hnone).
  { destruct (take_jwks_run (dict_values (keys s)) w) as (w' & Hrun & Hold & Hnew).
    { intros k1 k2 Hk1 Hk2 E. apply dict_value_get in Hk1 as [i1 Hk1]; [|done].
      apply dict_value_get in Hk2 as [i2 Hk2]; [|done].
      apply Hown in Hk1 as E1. apply Hown in Hk2 as E2. congruence. }
    assert (∀ i k, dict_get i (keys s) = Some k → cached (VStr i) (view w') = Some (public_key k))
      as Hget.
    { intros i k' Hk'. rewrite <- (Hown _ _ Hk'). apply Hnew.
      apply dict_get_elem in Hk'. by apply (list_elem_of_fmap_2 snd) in Hk'. }
    exists w'. split_and!; [|by intros i k' pub ->%Hget [= <-]|done|].
    - unfold refresh, mbind, M_bind. rewrite Hf. cbn. unfold jwks.
      by rewrite <- list_fmap_compose.
    - intros i Hi. destruct (Hold i) as [(k' & Hk' & <-)|E]; [|done].
      apply dict_value_get in Hk' as [j Hj]; [|done]. by rewrite (Hown _ _ Hj), Hj in Hi. }
  split.
  - exists k. unfold active. rewrite Hk. split; [done|]. by rewrite (Hown _ _ Hk).
  - intros i. unfold resolve_key, mbind, M_bind, get_state. cbn.
    destruct (cached (VStr i) (view w)) as [pub|] eqn:E.
    + exists w. split; [done|]. cbn. rewrite E.
      destruct (dict_get i (keys s)) as [k'|] eqn:Hi; [|done]. by rewrite (Hc _ _ _ Hi E).
    + exists w'. split; [done|]. rewrite Hrun. destruct (dict_get i (keys s)) as [k'|] eqn:Hi.
      * by rewrite (Hget _ _ Hi).
      * exists "key id"%string. by rewrite Hnone, E.
Qed.
End Refreshing.
