(* ===== verification/PublisherApp.v ===== *)
(** * The publisher's HTTP app ([create_publisher_app] of server.py)

    The JSON-RPC endpoint with the extension handshake, the key endpoint, and
    the HTTP+JSON routes, each a call of the JSON-RPC handler. A route returns
    its status, headers and JSON body; an exception that leaves it is the
    server's 500. *)

From S2P Require Import Prelude PyStr Value Errors Effects Dynamic Models Contracts.
From S2P Require Import Canonical Json Signing Limits Observability Auth Ssrf Publisher Listing JsonRpc.
From S2P Require Import Receiver HttpDelivery KeyResolver.
Open Scope Z_scope.

Record http_response := mkHttp {
  hr_status : Z;
  hr_headers : list (string * string);
  hr_body : value;
}.

Section App.
Context {E S Q : Type} `{!EventStore E, !SubscriptionStore S, !RetryQueue Q}.
Context `{!Platform, !Crypto, !Hmac, !Net, !Requests}.
Context `{!Async (World E S Q)} (cfg : PublisherConfig) (fuel depth : nat).
(** The [CallerAuthenticator] of the app, on the lower-cased request headers. *)
Context (authenticator : option (list (string * string) → outcome (option AuthIdentity))).
Local Abbreviation PM := (M (World E S Q)).
Local Abbreviation handle := (handle cfg fuel depth).

(** [_json_body(request)] *)
Definition json_body (body : string) : outcome value :=
  if bool_decide (body = EmptyString) then mret (VDict []) else loads_bytes depth body.

(** [_rpc_over_http(publisher, method, params, ok_status, caller)] *)
Definition rpc_over_http (method : string) (params : value) (ok_status : Z)
    (caller : option AuthIdentity) : PM http_response :=
  response ← handle (request (VStr "http") method params) caller;
  failed ← lift (contains_key response "error");
  if failed : bool then
    error ← lift (get_item response "error");
    st ← match error with
         | VDict d => match http_status_for_error d with inl st => mret st | inr e => raise e end
         | _ => raise no_attribute
         end;
    mret (mkHttp st [] error)
  else
    result ← lift (get_item response "result");
    mret (mkHttp ok_status [] result).

(** [caller_of(request)] *)
Definition caller_of (headers : list (string * string)) : PM (option AuthIdentity) :=
  match authenticator with None => mret None | Some f => lift (f headers) end.

(** [POST /a2a-events/jsonrpc] *)
Definition route_jsonrpc (headers : list (string * string)) (body : string) : PM http_response :=
  request ← lift (loads_bytes depth body);
  caller ← caller_of headers;
  result ← handle request caller;
  mret (mkHttp 200 (echo headers) result).

(** [GET /a2a-events/keys] *)
Definition route_keys : PM http_response :=
  jwks_ ← signing_jwks;
  mret (mkHttp 200 [] (VDict [("keys"%string, VList (jwk_value <$> jwks_))])).

(** [GET /a2a-events/topics] *)
Definition http_list_topics : PM http_response :=
  rpc_over_http LIST_TOPICS (VDict []) 200 None.

(** [POST /a2a-events/subscriptions] *)
Definition http_subscribe (headers : list (string * string)) (body : string) : PM http_response :=
  params ← lift (json_body body);
  caller ← caller_of headers;
  rpc_over_http SUBSCRIBE params 201 caller.

(** [{"pageToken": page_token} if page_token else {}] *)
Definition token_param (page_token : option string) : list (string * value) :=
  match page_token with
  | None | Some EmptyString => []
  | Some t => [("pageToken"%string, VStr t)]
  end.

(** [GET /a2a-events/subscriptions] *)
Definition http_list_subscriptions (headers : list (string * string)) (page_token : option string)
    : PM http_response :=
  caller ← caller_of headers;
  rpc_over_http LIST_SUBSCRIPTIONS (VDict (token_param page_token)) 200 caller.

Definition sid_param (sid : string) : list (string * value) := [("subscriptionId"%string, VStr sid)].

(** [GET /a2a-events/subscriptions/{subscription_id}] *)
Definition http_get_subscription (sid : string) (headers : list (string * string))
    : PM http_response :=
  caller ← caller_of headers;
  rpc_over_http GET_SUBSCRIPTION (VDict (sid_param sid)) 200 caller.

(** [DELETE /a2a-events/subscriptions/{subscription_id}] *)
Definition http_delete_subscription (sid : string) (headers : list (string * string))
    : PM http_response :=
  caller ← caller_of headers;
  rpc_over_http DELETE_SUBSCRIPTION (VDict (sid_param sid)) 200 caller.

(** [GET /a2a-events/subscriptions/{subscription_id}/deliveries] *)
Definition http_list_deliveries (sid : string) (headers : list (string * string))
    (page_token : option string) : PM http_response :=
  caller ← caller_of headers;
  rpc_over_http LIST_DELIVERY_ATTEMPTS (VDict (sid_param sid ++ token_param page_token)) 200 caller.

(** [{"subscriptionId": subscription_id, **await _json_body(request)}]: the
    members of the body override the path. *)
Definition with_body (sid : string) (body : string) : outcome value :=
  v ← json_body body;
  match v with
  | VDict d => mret (VDict (dict_merge (sid_param sid) d))
  | _ => Raise (TypeError "object is not a mapping")
  end.

(** [POST /a2a-events/subscriptions/{subscription_id}:renew], [:replay], [:ack] *)
Definition http_on_subscription (method sid : string) (headers : list (string * string))
    (body : string) : PM http_response :=
  params ← lift (with_body sid body);
  caller ← caller_of headers;
  rpc_over_http method params 200 caller.
Definition http_renew : string → list (string * string) → string → PM http_response :=
  http_on_subscription RENEW_SUBSCRIPTION.
Definition http_replay : string → list (string * string) → string → PM http_response :=
  http_on_subscription REPLAY.
Definition http_ack : string → list (string * string) → string → PM http_response :=
  http_on_subscription ACK.

(** ** The responses of the routes *)

(** The HTTP+JSON rendering of a method's outcome. *)
Definition rendered (ok_status : Z) (o : outcome value) : outcome http_response :=
  match o with
  | Ret v => Ret (mkHttp ok_status [] v)
  | Raise e =>
      if answered e then
        match http_status_for_error (error_object e) with
        | inl st => Ret (mkHttp st [] (VDict (error_object e)))
        | inr e' => Raise e'
        end
      else Raise e
  | NoFuel => NoFuel
  end.

Lemma rpc_over_http_spec name d ok_status caller w :
  name ∈ METHODS →
  rpc_over_http name (VDict d) ok_status caller w =
  (rendered ok_status (dispatch cfg fuel depth name (VDict d) caller w).1,
   (dispatch cfg fuel depth name (VDict d) caller w).2).
Proof.
  intros Hn. unfold rpc_over_http, mbind, M_bind. rewrite handle_request by done.
  destruct (dispatch _ _ _ _ _ _ _) as [[v|e|] w']; cbn [fst snd respond]; [done| |done].
  unfold rendered. destruct (answered e); [|done]. simpl.
  by destruct (http_status_for_error (error_object e)).
Qed.

(** A subscription id in the body of [:renew], [:replay] or [:ack] replaces the
    one of the path. *)
Lemma body_overrides_path sid body d v :
  json_body body = Ret (VDict d) → NoDup d.*1 → dict_get "subscriptionId"%string d = Some v →
  ∃ params, with_body sid body = Ret params ∧ get_item params "subscriptionId" = Ret v.
Proof.
  intros Hb Hnd Hv. unfold with_body. rewrite Hb. cbn [mbind outcome_bind].
  eexists. split; [done|]. cbn [get_item]. by rewrite (dict_merge_get_r _ _ _ v).
Qed.
End App.
