(* ===== verification/Delivery.v ===== *)
(** * From the publisher to the receiver

    What [_attempt_send] hands to the transport, taken in by the subscriber's
    [EventReceiver]: the two sides of the protocol against each other. *)

From S2P Require Import Prelude PyStr Value Errors Effects Dynamic Models Contracts Base64 Canonical.
From S2P Require Import Signing Auth Ssrf Publisher Receiver.
Open Scope Z_scope.

Lemma issue_clean `{Hmac} secret sid : strip (issue secret sid) = issue secret sid.
Proof.
  apply strip_none. unfold issue. rewrite str_forall_app. apply andb_true_iff. split; [done|].
  apply b64url_forall. intros n Hn.
  assert (forallb (λ m, negb (is_space (b64_char m))) all_sextets = true) as Hall by reflexivity.
  rewrite forallb_forall in Hall. by apply Hall, list_elem_of_In, sextet_in.
Qed.

(** The headers [send] puts on a webhook, and their names in lower case. *)
Definition webhook_headers (sig ts i sid : string) (token : option string)
    : list (string * string) :=
  [("A2A-Event-Signature", sig); ("A2A-Event-Timestamp", ts);
   ("A2A-Event-Key-ID", i); ("A2A-Subscription-ID", sid)]%string
  ++ match token with Some t => [("Authorization"%string, "Bearer " +:+ t)] | None => [] end.

Lemma webhook_header_names sig ts i sid token :
  lower_keys (webhook_headers sig ts i sid token) =
  [("a2a-event-signature", sig); ("a2a-event-timestamp", ts);
   ("a2a-event-key-id", i); ("a2a-subscription-id", sid)]%string
  ++ match token with Some t => [("authorization"%string, "Bearer " +:+ t)] | None => [] end.
Proof. by destruct token. Qed.

Section Delivery.
Context {E S Q : Type} `{!EventStore E, !SubscriptionStore S, !RetryQueue Q}.
Context `{!Platform, !Crypto, !CryptoLaws, !Hmac, !Net, !IsoParser, !IsoLaws}.
Context `{!Async (World E S Q)} (cfg : PublisherConfig).
Context {X : Type} (key_resolver : value → M (RWorld X) string) (max_skew : option Z).

(** The call of the transport that makes [a] arrive. *)
Definition transmit (u : Subscription) (a : arrival) : M (World E S Q) DeliveryResult :=
  match a with
  | Webhook headers (VDict event) =>
      send_webhook (or_empty (resolved_url (delivery u))) headers event
  | Webhook _ _ => raise no_attribute
  | Message m => send_a2a_message (or_empty (resolved_endpoint (delivery u))) m
  end.

(** The token the publisher presents to the subscription. *)
Definition presented (u : Subscription) : option string :=
  (λ secret, issue secret (subscription_id u)) <$> token_secret cfg.

(** The event as the publisher sends it. *)
Definition sent_event (u : Subscription) (r : EventRecord) (attempt : Z) (T : Topic)
    : list (string * value) :=
  dump_event iso_datetime (build_event cfg u r attempt (schema_url T)).

Lemma sent_event_id u r n T :
  dict_get "id"%string (sent_event u r n T) = Some (VStr (event_id r)).
Proof. done. Qed.

Lemma sent_event_subscription u r n T :
  dict_get "a2asubscription"%string (sent_event u r n T) = Some (VStr (subscription_id u)).
Proof.
  unfold sent_event, dump_event. simpl.
  by destruct (subject r); simpl; destruct (schema_url T).
Qed.

Definition token_value (token : option string) : value :=
  match token with Some t => VStr t | None => VNone end.

(** What the transport is called with opens, at the receiver, to the event and
    its credentials. *)
Lemma attempt_send_opens l r n w T w1 u k sig :
  get_topic cfg (ev_topic r) w = (Ret T, w1) → objs (w_heap w1) !! l = Some u →
  active (w_keys w1) = Ret k →
  sign k (iso_datetime (ev_created_at r)) (sent_event u r n T) = Ret sig →
  ∃ a w2, attempt_send cfg l r n w = transmit u a w2 ∧ carried a = Some (sent_event u r n T) ∧
    ∀ rw, arrive key_resolver None max_skew a rw =
      accept key_resolver None max_skew (VDict (sent_event u r n T)) (VStr (kid k))
        (VStr (iso_datetime (ev_created_at r))) (VStr sig) (token_value (presented u)) rw.
Proof.
  intros Ht Hu Hk Hsig.
  assert (attrs l w1 = (Ret u, w1)) as Hl.
  { unfold attrs, on_subs, zoom, deref. rewrite Hu. by destruct w1. }
  assert (signing_key w1 = (Ret k, w1)) as Hsk.
  { unfold signing_key, mbind, M_bind, get_state, lift. by rewrite Hk. }
  unfold attempt_send. rewrite (bind_ret _ _ _ _ _ Ht), (bind_ret _ _ _ _ _ Hl).
  cbv zeta. fold (sent_event u r n T). rewrite (bind_ret _ _ _ _ _ Hsk), (bind_lift _ _ _ _ Hsig).
  unfold send. rewrite (bind_ret _ _ _ _ _ Hl). cbv zeta. rewrite (bind_ret _ _ _ _ _ Hsk).
  fold (presented u). generalize dependent (sent_event u r n T). intros event Hsig.
  destruct (mode (delivery u)).
  - exists (Webhook (webhook_headers sig (iso_datetime (ev_created_at r)) (kid k) (subscription_id u)
      (presented u)) (VDict event)), w1. split; [done|]. split; [done|].
    intros rw. cbn [arrive]. unfold accept_webhook. rewrite webhook_header_names.
    unfold presented. destruct (token_secret cfg) as [s|]; simpl; [|done].
    change (EmptyString +:+ issue s (subscription_id u)) with (issue s (subscription_id u)).
    by rewrite issue_clean.
  - eexists (Message _), _. split.
    { unfold mbind, M_bind, on_env, zoom, uuid4. simpl. reflexivity. }
    split; [done|]. intros rw. cbn [arrive]. unfold accept_a2a_message, open_envelope. cbn.
    by destruct (presented u).
Qed.

(** The receiver's clock is within the skew of [t]. *)
Definition fresh_at (t : Z) (v : Env) : bool :=
  match max_skew with None => true | Some s => Z.abs (clock (tick v) - t) <=? s end.

Lemma within_skew_run t (rw : RWorld X) :
  0 ≤ t < max_datetime →
  ∃ rw', within_skew max_skew (iso_datetime t) rw = (Ret (fresh_at t (rv_env rw)), rw') ∧
         rv rw' = rv rw.
Proof.
  intros Ht. unfold within_skew, fresh_at. destruct max_skew as [s|]; [|by eexists].
  rewrite iso_parse by done. unfold mbind, M_bind, zoom, now. cbn [default].
  rewrite Z.sub_0_r. by eexists.
Qed.

(** The receiver after taking in [event] under the id [i]. *)
Definition with_event (i : string) (event : list (string * value)) (r : EventReceiver)
    : EventReceiver :=
  mkReceiver (received r ++ [event]) (seen r ++ [VStr i]) (delivery_tokens r).

(** C12: the two sides of the protocol agree. Whatever the publisher hands to
    the transport for an event, in either delivery mode, the subscription's
    receiver opens it and finds the right credentials: with the publisher's
    key, and the subscription's token if one is registered, it answers 204 and
    takes the event in, or 200 if it has it already; unless the event was created
    longer ago than the skew allows, and then it refuses for good, however
    genuine the event is. *)
Theorem sent_is_accepted l r n w T w1 u k sig (rw rw1 : RWorld X) :
  get_topic cfg (ev_topic r) w = (Ret T, w1) → objs (w_heap w1) !! l = Some u →
  active (w_keys w1) = Ret k → event_id r ≠ EmptyString → 0 ≤ ev_created_at r < max_datetime →
  sign k (iso_datetime (ev_created_at r)) (sent_event u r n T) = Ret sig →
  key_resolver (VStr (kid k)) rw = (Ret (public_key k), rw1) → rv rw1 = rv rw →
  (∀ t, dict_get (subscription_id u) (delivery_tokens (rv rw)) = Some t → presented u = Some t) →
  ∃ a w2 rw2, attempt_send cfg l r n w = transmit u a w2 ∧
    let known := seen_before (VStr (event_id r)) (rv rw) in
    if fresh_at (ev_created_at r) (rv_env rw1) then
      arrive key_resolver None max_skew a rw = (Ret (acked (if known then 200 else 204)), rw2) ∧
      rv rw2 = (if known then rv rw else with_event (event_id r) (sent_event u r n T) (rv rw))
    else
      arrive key_resolver None max_skew a rw = (Ret (refused 403 "timestamp out of skew"), rw2) ∧
      rv rw2 = rv rw.
Proof.
  intros Ht Hu Hk Hid Htime Hsig Hkey Hrv Htok.
  destruct (attempt_send_opens l r n w T w1 u k sig) as (a & w2 & Hsend & _ & Hopen); [done..|].
  destruct (within_skew_run (ev_created_at r) rw1 Htime) as (rw' & Hskew & Hrv').
  assert (∃ rw2, process None (sent_event u r n T) rw' =
      (Ret (acked (if seen_before (VStr (event_id r)) (rv rw) then 200 else 204)), rw2) ∧
      rv rw2 = (if seen_before (VStr (event_id r)) (rv rw) then rv rw
                else with_event (event_id r) (sent_event u r n T) (rv rw))) as (rw2 & Hp & Hrv2).
  { unfold process. rewrite sent_event_id. unfold default, id. cbn [truthy hashable negb].
    rewrite bool_decide_false by done. cbn [negb].
    unfold mbind, M_bind, get_state. rewrite Hrv', Hrv.
    destruct (seen_before _ (rv rw)) eqn:Hseen; [by eexists; rewrite Hrv', Hrv|].
    eexists. split; [done|]. simpl. rewrite Hrv', Hrv, Hseen. done. }
  exists a, w2. rewrite Hopen. unfold accept. unfold mbind, M_bind, get_state, lift.
  rewrite sent_event_subscription.
  assert (delivery_token_ok (VStr (subscription_id u)) (token_value (presented u)) (rv rw)
          = Ret true) as Htk.
  { unfold delivery_token_ok. destruct (dict_get _ (delivery_tokens _)) as [t|]; [|done].
    rewrite (Htok t eq_refl). simpl. by rewrite bool_decide_true. }
  unfold default, id. rewrite Htk. cbn [negb].
  unfold try_except, fmap, M_fmap. rewrite Hkey. cbn [verify_any text_of].
  rewrite (sign_verify_run _ _ _ _ _ Hsig (json_eq_refl _)). cbn [negb]. rewrite Hskew.
  destruct (fresh_at _ _); cbn [negb].
  - exists rw2. by rewrite Hp.
  - exists rw'. split; [done|]. split; [done|]. by rewrite Hrv'.
Qed.
End Delivery.
