(* ===== verification/MemoryTransport.v ===== *)
(** * In-memory transport and subscriber ([runtime/memory/transport.py], [client.py])

    The transport routes a delivery to the handler registered for its target;
    [InMemorySubscriber] registers the two framings of its receiver. Handlers
    run in the state [W] of the whole process, of which the receiver is a part. *)

From S2P Require Import Prelude PyStr Value Errors Effects Dynamic Models Contracts.
From S2P Require Import Canonical Signing Limits Observability Auth Ssrf Publisher Receiver.
Open Scope Z_scope.

Section Transport.
Context {W : Type}.

Definition WebhookHandler := list (string * string) → list (string * value) → M W DeliveryResult.
Definition A2AMessageHandler := value → M W DeliveryResult.

(** [InMemoryTransport] *)
Record InMemoryTransport := mkTransport {
  webhooks : list (string * WebhookHandler);
  a2a : list (string * A2AMessageHandler);
}.

(** [__init__] *)
Definition empty_transport : InMemoryTransport := mkTransport [] [].

(** [register_webhook(url, handler)] *)
Definition register_webhook (url : string) (h : WebhookHandler) (t : InMemoryTransport)
    : InMemoryTransport := mkTransport (dict_set url h (webhooks t)) (a2a t).

(** [register_a2a(endpoint, handler)] *)
Definition register_a2a (endpoint : string) (h : A2AMessageHandler) (t : InMemoryTransport)
    : InMemoryTransport := mkTransport (webhooks t) (dict_set endpoint h (a2a t)).

(** The answer when nothing is registered: retried by the publisher. *)
Definition no_receiver : DeliveryResult :=
  mkDeliveryResult false true (Some 502) (Some "no receiver"%string).

(** [send_webhook(url, headers, body)] *)
Definition memory_send_webhook (t : InMemoryTransport) (url : string)
    (headers : list (string * string)) (body : list (string * value)) : M W DeliveryResult :=
  match dict_get url (webhooks t) with
  | None => mret no_receiver
  | Some handler => handler headers body
  end.

(** [send_a2a_message(endpoint, message)] *)
Definition memory_send_a2a_message (t : InMemoryTransport) (endpoint : string) (message : value)
    : M W DeliveryResult :=
  match dict_get endpoint (a2a t) with
  | None => mret no_receiver
  | Some handler => handler message
  end.
End Transport.
#[global] Arguments InMemoryTransport : clear implicits.

(** ** [InMemorySubscriber] *)

Record InMemorySubscriber := mkSubscriber {
  sub_card_url : string;
  sub_a2a_endpoint : string;
  sub_receive_url : string;
  sub_modes : list DeliveryMode;
}.

(** [s.rstrip('/')] *)
Fixpoint rstrip_slash (s : string) : string :=
  match s with
  | EmptyString => EmptyString
  | String c s' =>
      match rstrip_slash s' with
      | EmptyString => if Ascii.eqb c (chr 47) then EmptyString else String c EmptyString
      | r => String c r
      end
  end.

(** [x or default] on an optional string and on an optional list *)
Definition text_or (x : option string) (dflt : string) : string :=
  match x with Some EmptyString | None => dflt | Some s => s end.
Definition modes_or_all (ms : option (list DeliveryMode)) : list DeliveryMode :=
  match ms with Some [] | None => [A2A_MESSAGE; WEBHOOK] | Some l => l end.

(** The attributes [__init__] sets. *)
Definition new_subscriber (card_url : string) (a2a_endpoint receive_url : option string)
    (modes : option (list DeliveryMode)) : InMemorySubscriber :=
  mkSubscriber card_url
    (text_or a2a_endpoint (rstrip_slash card_url +:+ "/a2a/v1"))
    (text_or receive_url (rstrip_slash card_url +:+ "/a2a-events/receive"))
    (modes_or_all modes).

(** [card()] *)
Definition subscriber_card (s : InMemorySubscriber) : SubscriberCard :=
  mkSubscriberCard (sub_card_url s) (Some (sub_a2a_endpoint s)) (Some (sub_receive_url s))
    (sub_modes s).

Section Connect.
Context {W X : Type} `{!Platform, !Crypto, !IsoParser}.
(** The subscriber's receiver inside the process, with its parameters. *)
Context (view : W → RWorld X) (upd : RWorld X → W → W).
Context (key_resolver : value → M (RWorld X) string).
Context (on_event : option (list (string * value) → M (RWorld X) (option DeliveryResult))).
Context (max_skew : option Z).

(** The registrations of [__init__]. *)
Definition connect (s : InMemorySubscriber) (t : InMemoryTransport W) : InMemoryTransport W :=
  register_a2a (sub_a2a_endpoint s)
    (λ m, zoom view upd (accept_a2a_message key_resolver on_event max_skew m))
    (register_webhook (sub_receive_url s)
       (λ h b, zoom view upd (accept_webhook key_resolver on_event max_skew h (VDict b))) t).
End Connect.

Example default_endpoints :
  subscriber_card (new_subscriber "https://alice.example//" None None None) =
  mkSubscriberCard "https://alice.example//" (Some "https://alice.example/a2a/v1"%string)
    (Some "https://alice.example/a2a-events/receive"%string) [A2A_MESSAGE; WEBHOOK].
Proof. reflexivity. Qed.

(** ** Routing *)

(** After a subscriber connects, its targets reach its receiver and every other
    target is routed as before. *)
Lemma connect_routes {W X} `{!Platform, !Crypto, !IsoParser} view upd kr oe skew
    (s : InMemorySubscriber) (t : InMemoryTransport W) :
  let t' := connect (X := X) view upd kr oe skew s t in
  (∀ url h b, memory_send_webhook t' url h b =
     if decide (url = sub_receive_url s)
     then zoom view upd (accept_webhook kr oe skew h (VDict b)) else memory_send_webhook t url h b) ∧
  (∀ e m, memory_send_a2a_message t' e m =
     if decide (e = sub_a2a_endpoint s)
     then zoom view upd (accept_a2a_message kr oe skew m) else memory_send_a2a_message t e m).
Proof.
  simpl. split; intros; unfold memory_send_webhook, memory_send_a2a_message; simpl;
    rewrite dict_get_set; by case_decide.
Qed.
