(* ===== verification/EndToEnd.v ===== *)
(** * From the publisher's log to the subscriber

    The dispatcher of the publisher, the network, and the subscriber's receiver
    in one world. [followed] takes a view of the world through a whole pass;
    [conveys] is what the dispatcher may expect of a transport and of the
    receiver behind it, and HTTP over a network that loses and repeats messages
    lives up to it. Together with [Dispatch] this gives delivery end to end. *)

From S2P Require Import Prelude PyStr Value Errors Effects Dynamic Models Base64 Cursor Selectors.
From S2P Require Import Canonical Signing Limits Observability Auth Ssrf Contracts Publisher.
From S2P Require Import CatchUp Receiver HttpDelivery MemoryTransport Footprint Bystander Dispatch.
Open Scope Z_scope.

(** ** A view through a pass *)
Section PassView.
Context {E S Q : Type} `{!EventStore E, !SubscriptionStore S, !RetryQueue Q}.
Context `{!Platform, !Crypto, !Hmac, !Net}.
Context `{!EventStoreLaws E, !SubscriptionStoreLaws S}.
Context `{!Async (World E S Q)} (cfg : PublisherConfig) (fuel : nat).
Context (clock_mono : ∀ i j, (i ≤ j)%nat → clock i ≤ clock j) (Hsize : 1 ≤ page_size cfg).
Context (sid : string) (Hod : orderly (E := E) (S := S) (Q := Q) same_but_cursors sid).
Context (v : view (E := E) (S := S) (Q := Q)) (Hv : view_laws sid v).

Local Abbreviation W := (World E S Q).
Local Abbreviation PM := (M W).
#[local] Instance pass_view_preorder : PreOrder (vw_le v) := vl_preorder _ _ Hv.

(** The publisher stays in order and the view holds. *)
Record followed (w w' : W) : Prop := {
  fo_standing : standing w';
  fo_ok : vw_ok v w';
  fo_persists : persists same_selection sid w w';
  fo_le : vw_le v w w';
}.

Lemma followed_refl w : standing w → vw_ok v w → followed w w.
Proof. by split. Qed.
Lemma followed_trans w1 w2 w3 : followed w1 w2 → followed w2 w3 → followed w1 w3.
Proof. intros [? ? ? ?] [? ? ? ?]. split; [done|done|by transitivity w2..]. Qed.

(** References to subscriptions that the store has. *)
Definition known (w : W) (l : loc) : Prop :=
  ∃ u, objs (w_heap w) !! l = Some u ∧ is_Some (row_of w (subscription_id u)).

Lemma known_later w w' ls : persists same_selection sid w w' → Forall (known w) ls → Forall (known w') ls.
Proof.
  intros Hp Hls. eapply Forall_impl; [exact Hls|]. intros l (u & Hu & Hrow).
  destruct (ps_objs _ _ _ _ Hp l u Hu) as (u' & Hu' & Hid & _).
  exists u'. split; [done|]. rewrite Hid. by apply Hp.
Qed.

Lemma dispatch_followed l tso w :
  standing w → vw_ok v w → known w l →
  wp (dispatch_subscription cfg fuel l tso) (λ _ w', followed w w') w.
Proof.
  intros Hs Hok (u & Hu & Hrow).
  assert (∀ t : string, t ∉ ([] : list string)) as Hnil by (intros t; apply not_elem_of_nil).
  eapply wp_mono.
  { apply (beside_dispatch cfg clock_mono same_selection ltac:(done) (λ u u' Hk, proj1 Hk) sid l None []
      (λ _, mkTopic "" "" None 0 true [] None []) (λ _, 0) (λ t Ht, False_rect _ (Hnil t Ht))
      (orderly_selection sid Hod) v Hv (subscription_id u) l w fuel Hsize (λ t _, Hnil t)).
    - by intros.
    - intros x t Ht. by destruct (Hnil t).
    - split; [done|done|by exists u| |done]. intros t Ht. by destruct (Hnil t). }
  intros o w' ([Hs' _ _ _ Hok'] & [Hp Hle] & _). by split.
Qed.

Lemma gather_followed ls tso w :
  standing w → vw_ok v w → Forall (known w) ls →
  wp (gather resumes ((λ l, dispatch_subscription cfg fuel l tso) <$> ls)) (λ _ w', followed w w') w.
Proof.
  revert w. induction ls as [|l ls IH]; intros w Hs Hok Hls.
  { by apply followed_refl. }
  rewrite fmap_cons. apply wp_gather. apply Forall_cons in Hls as [Hl Hls].
  eapply wp_mono; [by apply dispatch_followed|]. intros o w1 Hf. destruct (_ && _); [done|].
  eapply wp_mono; [apply IH; [apply Hf|apply Hf|eapply known_later; [apply Hf|done]]|].
  intros os w2 Hf2. exact (followed_trans _ _ _ Hf Hf2).
Qed.

Lemma suspend_followed w : standing w → vw_ok v w → wp suspend (λ _ w', followed w w') w.
Proof.
  intros Hs Hok. pose proof (od_suspend _ _ (orderly_selection sid Hod)) as Ho.
  eapply wp_mono; [apply wp_conj; [by apply (vl_suspend _ _ Hv)|apply wp_conj;
    [by apply (oo_standing _ _ _ Ho)|apply (oo_persists _ _ _ Ho), Hs]]|].
  intros o w' ([? ?] & ? & ?). by split.
Qed.

(** Listing adds objects at most. *)
Lemma list_all_followed w :
  standing w → vw_ok v w →
  wp (on_subs ss_list_all) (λ o w', followed w w' ∧ ∀ ls, o = Ret ls → Forall (known w') ls) w.
Proof.
  intros Hs Hok. unfold on_subs. apply wp_zoom.
  pose proof (ss_list_all_law (w_subs w) (w_heap w) (sd_subs _ Hs)) as Hlaw.
  destruct (ss_list_all (w_subs w, w_heap w)) as [[ls|e|] [s' h']] eqn:Hrun; [| |done];
    (eapply wp_run_iff; [exact Hrun|]); cbn [fst snd effect_or_refusal] in *.
  2:{ destruct Hlaw as [_ [= -> ->]]. split; [|done]. destruct w. by apply followed_refl. }
  destruct Hlaw as (-> & Hinv & Hsub & Hrows & us & Hus & _).
  match goal with |- followed w ?w1 ∧ _ => destruct (vl_unseen _ _ Hv w w1 Hok) as [Hok1 Hle1] end;
    [by split; [|left]|]. split.
  - split; [|done| |done].
    + destruct Hs as [? ? Hpos]. split; [done|done|]. intros x t Hx. apply Hpos.
      destruct Hx as [y Hy]. exists y. unfold row_of in *. by rewrite <- Hrows.
    + split; [|intros l u Hu; exists u; split_and!; [by eapply lookup_weaken|done|done]|done].
      intros x [y Hy]. exists y. unfold row_of in *. simpl. by rewrite Hrows.
  - intros ls' [= <-]. clear -Hus Hrows. induction Hus as [|l u ls us [Hu Hrow] _ IH]; constructor.
    + exists u. split; [done|]. unfold row_of. simpl. eexists. by apply Hrow.
    + apply IH.
Qed.

Lemma list_run_followed w :
  standing w → vw_ok v w →
  wp (run_subs cfg ss_list_all) (λ o w', followed w w' ∧ ∀ ls, o = Ret ls → Forall (known w') ls) w.
Proof.
  intros Hs Hok. unfold run_subs, offloaded. destruct (offload_store cfg); [|by apply list_all_followed].
  apply wp_bind. eapply wp_mono; [by apply suspend_followed|].
  intros [[]|e|] w1 Hf1; cbn [wp_next]; [|by split..].
  apply wp_and_then. eapply wp_mono; [apply list_all_followed; apply Hf1|].
  intros o w2 [Hf2 Hk]. eapply wp_mono; [apply suspend_followed; apply Hf2|].
  intros o' w3 Hf3. assert (followed w w3) as Hf.
  { exact (followed_trans _ _ _ Hf1 (followed_trans _ _ _ Hf2 Hf3)). }
  destruct o' as [[]|e|]; [|by split..]. split; [done|]. intros ls Hls.
  eapply known_later; [apply Hf3|by apply Hk].
Qed.

(** The passes of the dispatcher: over all topics, and over one. *)
Lemma dispatch_all_followed {A} p tso (k : list Z → A) w :
  standing w → vw_ok v w →
  wp (all ← run_subs cfg ss_list_all; ls ← filter_refs p all;
      ns ← gather resumes ((λ l, dispatch_subscription cfg fuel l tso) <$> ls); mret (k ns))
    (λ _ w', followed w w') w.
Proof.
  intros Hs Hok. apply wp_bind. eapply wp_mono; [by apply list_run_followed|].
  intros [ls|e|] w1 [Hf Hk]; cbn [wp_next]; [|done..].
  destruct (keep_refs (known w1) p ls w1) as (kept_ & Hrun & Hkept);
    [by intros l (u & Hu & _); exists u|by apply Hk|].
  apply wp_bind. eapply wp_run_iff.
  { unfold filter_refs. rewrite (bind_ret _ _ _ _ _ Hrun). reflexivity. }
  cbn [wp_next]. apply wp_bind.
  eapply wp_mono; [apply gather_followed; [apply Hf|apply Hf|exact Hkept]|].
  intros o w2 Hf2. assert (followed w w2) as Hf' by exact (followed_trans _ _ _ Hf Hf2). by destruct o.
Qed.

Lemma dispatch_pending_followed w :
  standing w → vw_ok v w → wp (dispatch_pending cfg fuel) (λ _ w', followed w w') w.
Proof. apply dispatch_all_followed. Qed.

Lemma dispatch_topic_followed t w :
  standing w → vw_ok v w → wp (dispatch_topic cfg fuel t) (λ _ w', followed w w') w.
Proof. apply dispatch_all_followed. Qed.
End PassView.

(** ** The subscriber beside the publisher

    The receiver of the subscriber shares the last component of the world with
    the retry queue. *)
#[export] Instance queue_beside {Q R : Type} `{!RetryQueue Q} : RetryQueue (Q * R) := {|
  rq_enqueue i := zoom fst (λ q x, (q, x.2)) (rq_enqueue i);
  rq_claim_due now_ limit lease := zoom fst (λ q x, (q, x.2)) (rq_claim_due now_ limit lease);
  rq_complete i := zoom fst (λ q x, (q, x.2)) (rq_complete i);
  rq_reschedule i at_ n e := zoom fst (λ q x, (q, x.2)) (rq_reschedule i at_ n e);
  rq_pending := zoom fst (λ q x, (q, x.2)) rq_pending;
|}.

(** An operation of the queue does not touch what is beside it. *)
Lemma queue_call_beside {Q R} `{!RetryQueue Q} (q q' : Q * R) : queue_call q q' → q'.2 = q.2.
Proof. destruct 1; simpl; unfold zoom; by case_match. Qed.

Section Subscriber.
Context {E S Q X : Type} `{!EventStore E, !SubscriptionStore S, !RetryQueue Q}.
Context `{!Platform, !Crypto, !Hmac, !Net, !IsoParser}.
Context `{!EventStoreLaws E, !SubscriptionStoreLaws S}.
Local Abbreviation W := (World E S (Q * RWorld X)).
Local Abbreviation PM := (M W).
Context `{!Async W} (sid : string) (trusted : value → string → Prop).

Definition remote (w : W) : RWorld X := (w_queue w).2.

(** The receiver has processed an event with this id. *)
Definition holds (i : string) (r : EventReceiver) : Prop := VStr i ∈ seen r.

(** The receiver is in order, and it has what the publisher's attempts say was
    delivered to it. *)
Record told (w : W) : Prop := {
  td_receiver : receiver_inv trusted (rv (remote w));
  td_attempts : ∀ a, a ∈ ss_attempts (w_subs w) → da_subscription_id a = sid →
    da_status a = "delivered"%string → holds (da_event_id a) (rv (remote w));
}.

Definition grown (w w' : W) : Prop := seen (rv (remote w)) `prefix_of` seen (rv (remote w')).

Definition subscriber_view : view (E := E) (S := S) (Q := Q * RWorld X) :=
  mkView told grown (λ r w, holds (event_id r) (rv (remote w))).

(** ** What the dispatcher expects of the transport

    A send changes nothing at the publisher but its clock. Whatever becomes of
    it, the receiver stays in order; and if the answer is an acknowledgement, the
    receiver has processed the event. *)
Record beside (w w' : W) : Prop := {
  bs_store : w_store w' = w_store w;
  bs_env : env_le (w_env w) (w_env w');
  bs_subs : w_subs w' = w_subs w;
  bs_heap : w_heap w' = w_heap w;
  bs_queue : (w_queue w').1 = (w_queue w).1;
  bs_topics : w_topics w' = w_topics w;
  bs_authorizer : w_authorizer w' = w_authorizer w;
}.

Definition conveys : Prop := ∀ endpoint a w,
  wp (emit endpoint a) (λ o w', beside w w' ∧ o ≠ NoFuel ∧ (receiver_inv trusted (rv (remote w)) →
    arrives trusted (carried a) (remote w) o (remote w'))) w.

(** While the dispatcher waits, other tasks record as delivered to the
    subscription only what its receiver has. *)
Record truthful : Prop := {
  tr_suspend : ∀ w, standing w → told w → wp suspend (in_view subscriber_view w) w;
  tr_sleep : ∀ d w, standing w → told w → wp (sleep d) (in_view subscriber_view w) w;
  tr_acquire : ∀ x w, standing w → told w → wp (acquire x) (in_view subscriber_view w) w;
}.

Lemma py_eq_str i y : py_eq (VStr i) y = true → y = VStr i.
Proof. rewrite py_eq_scalar by done. destruct y; try done. simpl. by rewrite bool_decide_eq_true; intros ->. Qed.

Lemma processed_holds r i ev :
  dict_get "id"%string ev = Some (VStr i) → processed r ev → holds i r.
Proof.
  intros Hi (y & Hy & Ho). unfold event_key in Ho. rewrite Hi in Ho. unfold holds.
  destruct Ho as [->|Ho]; [done|]. by apply py_eq_str in Ho as ->.
Qed.

Lemma told_later w w' :
  receiver_inv trusted (rv (remote w')) → grown w w' → ss_attempts (w_subs w') = ss_attempts (w_subs w) →
  told w → told w'.
Proof.
  intros Hr [l Hl] Ha [_ Ht]. split; [done|]. intros a Hin Hs Hd. rewrite Ha in Hin.
  unfold holds. rewrite Hl. apply elem_of_app. left. by apply (Ht a).
Qed.

Lemma subscriber_view_laws : conveys → truthful → view_laws sid subscriber_view.
Proof.
  intros Hc [Hsu Hsl Ha]. split; [| | |exact Hsu|exact Hsl|exact Ha| |].
  - split; simpl; [intros w; by exists []; rewrite (right_id_L [] (++))|]. intros w1 w2 w3. unfold grown. apply transitivity.
  - intros r w w' Hr [l Hl]. simpl in *. unfold holds. rewrite Hl. apply elem_of_app. by left.
  - intros w w' Hok [Hatts Hq]. assert (remote w' = remote w) as Hre.
    { unfold remote. destruct Hq as [->|Hq]; [done|]. by apply queue_call_beside. }
    assert (grown w w') as Hg by (unfold grown; by rewrite Hre).
    split; [|done]. apply (told_later w); [rewrite Hre; apply Hok|done..].
  - intros endpoint a w _ Hok. eapply wp_mono; [apply Hc|].
    intros o w' (Hb & _ & Har). destruct Har as (Hinv & Hp & Hack); [apply Hok|]. split.
    + split; [|done]. apply (told_later w); [done|done|by rewrite (bs_subs _ _ Hb)|done].
    + intros res r Ho Hres (ev & Hev & _ & Hid). destruct (Hack res Ho Hres) as (e & He & Hpr).
      simpl. eapply processed_holds; [exact Hid|]. congruence.
  - intros w w' a r [Hinv Ht] Hid Hq Hatts Hd. assert (remote w' = remote w) as Hre by (unfold remote; congruence).
    simpl. split; [|unfold grown; by rewrite Hre]. split; rewrite Hre; [done|].
    intros b Hb Hs Hst. rewrite Hatts in Hb. apply elem_of_app in Hb as [Hb|Hb]; [by apply Ht|].
    apply list_elem_of_singleton in Hb as ->. rewrite Hid. by apply Hd.
Qed.

Lemma beside_trans w1 w2 w3 : beside w1 w2 → beside w2 w3 → beside w1 w3.
Proof.
  intros [? ? ? ? ? ? ?] [? ? ? ? ? ? ?]. split; try congruence. by transitivity (w_env w2).
Qed.

Lemma beside_refl w : beside w w.
Proof. by split. Qed.
End Subscriber.

(** ** HTTP over a network that loses and repeats messages

    A request may be lost, or arrive; its answer may be lost; and what was sent
    may arrive twice. Which of these happens is up to the state of the world. A
    receiver that never answers makes the client give up. *)
Inductive fate := Lost | Answered | AnswerLost | Repeated.

Section Http.
Context {E S Q X : Type} `{!EventStore E, !SubscriptionStore S, !RetryQueue Q}.
Context `{!Platform, !Crypto, !Hmac, !Net, !IsoParser, !HttpStack, !HttpStackLaws}.
Local Abbreviation W := (World E S (Q * RWorld X)).
Local Abbreviation PM := (M W).
Context (trusted : value → string → Prop).
Context (key_resolver : value → M (RWorld X) string).
Context (on_event : option (list (string * value) → M (RWorld X) (option DeliveryResult))).
Context (max_skew : option Z) (fate_of : W → fate).

Definition with_remote (x : RWorld X) (w : W) : W :=
  mkWorld (w_store w) (w_env w) (w_subs w) (w_heap w) ((w_queue w).1, x) (w_topics w) (w_keys w)
    (w_authorizer w) (w_limiter w) (w_metrics w).

Definition reach (server : M (RWorld X) http_reply) : PM http_reply := λ w,
  let '(o, x) := server (remote w) in
  (match o with NoFuel => Ret (RequestError "ReadTimeout") | _ => o end, with_remote x w).

Definition request (server : M (RWorld X) http_reply) : PM http_reply := λ w,
  match fate_of w with
  | Lost => (Ret (RequestError "ConnectError"), w)
  | Answered => reach server w
  | AnswerLost => (Ret (RequestError "ReadTimeout"), (reach server w).2)
  | Repeated => reach server (reach server w).2
  end.

(** [HttpxTransport] in front of the subscriber's app. *)
Definition wh_post (url : string) (headers : list (string * string)) (body : value) : PM http_reply :=
  request (post_receive key_resolver on_event max_skew url headers body).
Definition msg_post (url : string) (headers : list (string * string)) (body : value) : PM http_reply :=
  request (post_a2a key_resolver on_event max_skew url headers body).

Definition linked (base : Async W) : Async W := {|
  suspend := suspend;
  send_webhook := http_send_webhook wh_post;
  send_a2a_message := http_send_a2a_message msg_post (on_env uuid4);
  sleep := sleep;
  acquire := acquire;
  monotonic := monotonic;
  resumes := resumes;
|}.

Context (resolver_ok : ∀ kid w, receiver_inv trusted (rv w) →
  wp (key_resolver kid) (λ r w', receiver_inv trusted (rv w') ∧ seen (rv w) `prefix_of` seen (rv w') ∧
    ∀ pub, r = Ret pub → trusted kid pub) w).
Context (handler_ok : ∀ f ev w, on_event = Some f → wp (f ev) (λ _ w', rv w' = rv w) w).
Context (handler_coherent : coherent_handler on_event).

(** What an answer that the publisher reads as an acknowledgement shows. *)
Definition replies (good : http_reply → Prop) (ev : option (list (string * value)))
    (x : RWorld X) (o : outcome http_reply) (x' : RWorld X) : Prop :=
  receiver_inv trusted (rv x') ∧ seen (rv x) `prefix_of` seen (rv x') ∧
  ∀ rep, o = Ret rep → good rep → ∃ e, ev = Some e ∧ processed (rv x') e.

Lemma replies_later good ev x x1 o x2 :
  seen (rv x) `prefix_of` seen (rv x1) → replies good ev x1 o x2 → replies good ev x o x2.
Proof. intros Hp (Hi & Hp' & Ha). split_and!; [done|by transitivity (seen (rv x1))|done]. Qed.

Definition serves (good : http_reply → Prop) (ev : option (list (string * value)))
    (server : M (RWorld X) http_reply) : Prop :=
  ∀ x, receiver_inv trusted (rv x) → wp server (replies good ev x) x.

Definition requested (good : http_reply → Prop) (ev : option (list (string * value)))
    (w : W) (o : outcome http_reply) (w' : W) : Prop :=
  beside w w' ∧ o ≠ NoFuel ∧
  (receiver_inv trusted (rv (remote w)) → replies good ev (remote w) o (remote w')).

Lemma reach_spec good ev server w :
  serves good ev server → (∀ text, ¬ good (RequestError text)) →
  wp (reach server) (requested good ev w) w.
Proof.
  intros Hserver Hgood. specialize (Hserver (remote w)). unfold wp, reach in *.
  destruct (server (remote w)) as [o x]. split; [by split|]. split; [by destruct o|].
  intros Hinv. destruct (Hserver Hinv) as (Hi & Hp & Hr). split_and!; [done|done|].
  intros rep Hrep Hg. destruct o; [by eapply Hr|done|]. injection Hrep as <-. by destruct (Hgood _ Hg).
Qed.

Lemma request_spec good ev server w :
  serves good ev server → (∀ text, ¬ good (RequestError text)) →
  wp (request server) (requested good ev w) w.
Proof.
  intros Hserver Hgood. pose proof (reach_spec good ev server w Hserver Hgood) as Hr.
  assert (∀ text (x : RWorld X), receiver_inv trusted (rv x) → seen (rv (remote w)) `prefix_of` seen (rv x) →
    replies good ev (remote w) (Ret (RequestError text)) x) as Hlost.
  { intros text x Hx Hp. split_and!; [done|done|]. intros rep [= <-] Hg. by destruct (Hgood _ Hg). }
  unfold request, wp in *. destruct (fate_of w).
  - split; [apply beside_refl|]. split; [done|]. intros Hinv. by apply Hlost.
  - done.
  - destruct (reach server w) as [o w1]. destruct Hr as (Hb & _ & Hr).
    split; [done|]. split; [done|]. intros Hinv. destruct (Hr Hinv) as (Hi & Hp & _). by apply Hlost.
  - destruct (reach server w) as [o w1]. destruct Hr as (Hb & _ & Hr).
    pose proof (reach_spec good ev server w1 Hserver Hgood) as Hr2. unfold wp in Hr2. simpl.
    destruct (reach server w1) as [o2 w2]. destruct Hr2 as (Hb2 & Ho2 & Hr2).
    split; [by eapply beside_trans|]. split; [done|]. intros Hinv. destruct (Hr Hinv) as (Hi & Hp & _).
    eapply replies_later; [exact Hp|auto].
Qed.

Definition good_status (rep : http_reply) : Prop :=
  match rep with Response st _ => ack (result_from_status st None) = true | _ => False end.
Definition good_payload (rep : http_reply) : Prop :=
  match rep with
  | Response st (Some p) => ∃ res, result_from_payload st p = Ret res ∧ ack res = true
  | _ => False
  end.

(** An exception in a route is no answer that the publisher takes for good. *)
Lemma failure_no_answer e rep (good : http_reply → Prop) :
  (∀ text, ¬ good (RequestError text)) → ¬ good (Response 500 None) →
  route_failure e = Ret rep → ¬ good rep.
Proof. intros Ht Hst. by destruct (route_failure_law e) as [->|[[text ->]| ->]]; intros [= <-]. Qed.

Lemma failure_ends e : route_failure e ≠ NoFuel.
Proof. by destruct (route_failure_law e) as [->|[[text ->]| ->]]. Qed.

Lemma receive_serves url h ev :
  serves good_status (Some ev) (post_receive key_resolver on_event max_skew url h (VDict ev)).
Proof.
  intros x Hx.
  pose proof (arrive_spec key_resolver on_event max_skew trusted resolver_ok handler_ok
    (Webhook (arriving h) (VDict ev)) x Hx) as Ha.
  unfold wp, post_receive, through, route_receive, mbind, M_bind in *. cbn [arrive carried] in Ha.
  destruct (accept_webhook _ _ _ _ _ x) as [[res|e|] x'] eqn:Hrun;
    destruct Ha as (Hi & Hp & Hack); (split_and!; [done|done|]);
    [|intros rep Hrep Hgood; by destruct (failure_no_answer e rep good_status ltac:(by intros ? []) ltac:(done) Hrep)
    |done].
  intros rep [= <-] Hgood. apply (Hack res eq_refl). unfold accept_webhook in Hrun.
  destruct (partition_on _ _). apply accept_coherent in Hrun; [|done].
  cbn [snd] in Hgood. unfold good_status, receive_status, coherent in *.
  destruct (status_code res); [|by destruct (ack res), (retry res)].
  destruct Hrun as [<- _]. done.
Qed.

Lemma message_serves url i m :
  serves good_payload (carried (Message m)) (post_a2a key_resolver on_event max_skew url []
    (VDict [("jsonrpc", VStr "2.0"); ("id", VStr i); ("method", VStr A2A_SEND_MESSAGE);
            ("params", m)]%string)).
Proof.
  intros x Hx.
  pose proof (arrive_spec key_resolver on_event max_skew trusted resolver_ok handler_ok
    (Message m) x Hx) as Ha.
  cbn [arrive] in Ha. revert Ha. generalize (carried (Message m)). intros c Ha.
  unfold wp, post_a2a, through, route_a2a, mbind, M_bind, lift in *. simpl.
  destruct (accept_a2a_message _ _ _ m x) as [[res|e|] x'];
    destruct Ha as (Hi & Hp & Hack); simpl; (split_and!; [done|done|]);
    [|intros rep Hrep Hgood; by destruct (failure_no_answer e rep good_payload ltac:(by intros ? []) ltac:(by intros []) Hrep)
    |done].
  intros rep [= <-] (res' & Hres & Hgood). apply (Hack res eq_refl).
  unfold result_from_payload in Hres. simpl in Hres.
  destruct (ack res); [done|]. injection Hres as <-. done.
Qed.

Lemma not_2xx_refused st : negb ((200 <=? st) && (st <? 300)) = true → ack (result_from_status st None) = false.
Proof. unfold result_from_status. by destruct (_ && _). Qed.

Lemma bind_total {A B} (o : outcome A) (k : A → outcome B) :
  o ≠ NoFuel → (∀ a, k a ≠ NoFuel) → o ≫= k ≠ NoFuel.
Proof. by destruct o; simpl. Qed.

Lemma result_from_payload_total st p : result_from_payload st p ≠ NoFuel.
Proof.
  assert (∀ v k d, get_attr v k d ≠ NoFuel) as Hget by by destruct v.
  unfold result_from_payload. apply bind_total; [by destruct p|]. intros [].
  - apply bind_total; [by destruct p; simpl; [..|case_match]|]. intros err.
    by apply bind_total.
  - apply bind_total; [done|]. intros r. apply bind_total; [done|]. intros a.
    destruct a as [|[]| | | | |]; try done. by apply bind_total.
Qed.

(** Whichever way a request goes, the publisher takes for an acknowledgement
    only what the receiver meant as one. *)
Lemma linked_conveys base : conveys (Async0 := linked base) trusted.
Proof.
  intros endpoint a w.
  assert (wp (raise no_attribute : PM DeliveryResult) (λ o w', beside w w' ∧ o ≠ NoFuel ∧
    (receiver_inv trusted (rv (remote w)) → arrives trusted None (remote w) o (remote w'))) w) as Hnone.
  { split; [apply beside_refl|]. split; [done|]. intros. by apply arrives_here. }
  destruct a as [h b|m].
  - destruct b as [| | | | | |ev]; try exact Hnone. cbn [emit carried].
    unfold send_webhook, linked, http_send_webhook. apply wp_bind.
    eapply wp_mono; [apply (request_spec good_status (Some ev)); [apply receive_serves|by intros ? []]|].
    intros [rep|e|] w' (Hb & Ho & Hr); cbn [wp_next]; [apply wp_ret| |done]; (split; [done|]);
      (split; [done|]); intros Hinv; destruct (Hr Hinv) as (Hi & Hp & Hgood); split_and!; try done.
    intros res [= <-] Hack. by destruct rep; [apply (Hgood _ eq_refl)|].
  - cbn [emit]. unfold send_a2a_message, linked, http_send_a2a_message. apply wp_bind.
    set (w1 := ((on_env uuid4 : PM string) w).2).
    assert (beside w w1) as Hb1 by (split; try done; split; simpl; lia).
    assert (remote w1 = remote w) as Hre by done.
    eapply (wp_run_iff _ _ w _ w1); [reflexivity|]. cbn [wp_next]. apply wp_bind. rewrite <- Hre.
    clearbody w1. eapply wp_mono.
    { apply (request_spec good_payload (carried (Message m))); [apply message_serves|by intros ? []]. }
    intros o w' (Hb & Ho & Hr).
    assert (beside w w') as Hb2 by (by eapply beside_trans).
    assert (∀ r : outcome DeliveryResult, r ≠ NoFuel →
      (∀ res, r = Ret res → ack res = true → ∃ rep, o = Ret rep ∧ good_payload rep) →
      beside w w' ∧ r ≠ NoFuel ∧ (receiver_inv trusted (rv (remote w1)) →
        arrives trusted (carried (Message m)) (remote w1) r (remote w'))) as Hk.
    { intros r Hnf Hg. split; [done|]. split; [done|]. intros Hinv.
      destruct (Hr Hinv) as (Hi & Hp & Hgood). split_and!; [done|done|]. intros res Hres Hack.
      destruct (Hg res Hres Hack) as (rep & Hrep & Hgr). by apply (Hgood rep). }
    destruct o as [rep|e|]; cbn [wp_next]; [|by apply Hk|done].
    destruct rep as [st [p|]|text]; cbn [wp_next].
    + destruct (negb _) eqn:Hst; [apply wp_ret, Hk; [done|]|apply wp_lift, Hk].
      * intros res [= <-] Hack. by rewrite (not_2xx_refused st) in Hack.
      * apply result_from_payload_total.
      * intros res Hres Hack. exists (Response st (Some p)). split; [done|by exists res].
    + destruct (negb _) eqn:Hst; apply wp_ret, Hk; try done; intros res [= <-] Hack; [|done].
      by rewrite (not_2xx_refused st) in Hack.
    + apply wp_ret, Hk; [done|]. by intros res [= <-].
Qed.
End Http.

(** ** The in-memory transport

    The other transport lives up to the same expectations, if its subscriber's
    receiver always answers. *)
Section Memory.
Context {E S Q X : Type} `{!EventStore E, !SubscriptionStore S, !RetryQueue Q}.
Context `{!Platform, !Crypto, !Hmac, !Net, !IsoParser}.
Local Abbreviation W := (World E S (Q * RWorld X)).
Context (trusted : value → string → Prop).
Context (key_resolver : value → M (RWorld X) string).
Context (on_event : option (list (string * value) → M (RWorld X) (option DeliveryResult))).
Context (max_skew : option Z) (subscriber : InMemorySubscriber).
Context (resolver_ok : ∀ kid w, receiver_inv trusted (rv w) →
  wp (key_resolver kid) (λ r w', receiver_inv trusted (rv w') ∧ seen (rv w) `prefix_of` seen (rv w') ∧
    ∀ pub, r = Ret pub → trusted kid pub) w).
Context (handler_ok : ∀ f ev w, on_event = Some f → wp (f ev) (λ _ w', rv w' = rv w) w).
Context (answers : ∀ a x, (arrive key_resolver on_event max_skew a x).1 ≠ NoFuel).

Definition connected : InMemoryTransport W :=
  connect remote with_remote key_resolver on_event max_skew subscriber empty_transport.

(** [InMemoryTransport] with the subscriber connected to it. *)
Definition in_process (base : Async W) : Async W := {|
  suspend := suspend;
  send_webhook := memory_send_webhook connected;
  send_a2a_message := memory_send_a2a_message connected;
  sleep := sleep;
  acquire := acquire;
  monotonic := monotonic;
  resumes := resumes;
|}.

Lemma arrive_conveyed a (w : W) :
  wp (zoom remote with_remote (arrive key_resolver on_event max_skew a)) (λ o w', beside w w' ∧ o ≠ NoFuel ∧
    (receiver_inv trusted (rv (remote w)) → arrives trusted (carried a) (remote w) o (remote w'))) w.
Proof.
  apply wp_zoom. pose proof (arrive_spec key_resolver on_event max_skew trusted resolver_ok handler_ok a
    (remote w)) as Ha. specialize (answers a (remote w)). unfold wp in *.
  destruct (arrive _ _ _ a (remote w)) as [o x]. split; [by split|]. split; [done|exact Ha].
Qed.

Lemma in_process_conveys base : conveys (Async0 := in_process base) trusted.
Proof.
  assert (∀ ev (w : W) (o : outcome DeliveryResult), o ≠ NoFuel → (∀ res, o = Ret res → ack res = false) →
    beside w w ∧ o ≠ NoFuel ∧ (receiver_inv trusted (rv (remote w)) →
      arrives trusted ev (remote w) o (remote w))) as Hnone.
  { intros ev w o Hnf Ho. split; [apply beside_refl|]. split; [done|]. intros. by apply arrives_here. }
  intros endpoint a w. destruct a as [h b|m]; simpl emit.
  - destruct b as [| | | | | |ev]; try (by apply Hnone). unfold send_webhook, in_process, connected.
    rewrite (proj1 (connect_routes _ _ _ _ _ _ _)). case_decide.
    + apply (arrive_conveyed (Webhook h (VDict ev))).
    + apply Hnone; [done|]. by intros ? [= <-].
  - unfold send_a2a_message, in_process, connected. rewrite (proj2 (connect_routes _ _ _ _ _ _ _)). case_decide.
    + apply (arrive_conveyed (Message m)).
    + apply Hnone; [done|]. by intros ? [= <-].
Qed.
End Memory.

(** ** Delivery end to end *)
Section EndToEnd.
Context {E S Q X : Type} `{!EventStore E, !SubscriptionStore S, !RetryQueue Q}.
Context `{!Platform, !Crypto, !Hmac, !Net, !IsoParser}.
Context `{!EventStoreLaws E, !SubscriptionStoreLaws S}.
Local Abbreviation W := (World E S (Q * RWorld X)).
Context `{!Async W} (cfg : PublisherConfig) (fuel : nat).
Context (clock_mono : ∀ i j, (i ≤ j)%nat → clock i ≤ clock j).
Context (Hmax : 1 ≤ max_attempts cfg) (Hsize : 1 ≤ page_size cfg).
Context (Henq : ∀ i (q : Q), (rq_enqueue i q).1 ≠ NoFuel).
Context (sid : string) (sel : option Selector) (ts : list string).
Context (Tof : string → Topic) (cap : string → Z) (trusted : value → string → Prop).

Local Abbreviation pos t := (CatchUp.pos (E := E) (S := S) (Q := Q * RWorld X) sid t).
Local Abbreviation atts t := (CatchUp.atts (E := E) (S := S) (Q := Q * RWorld X) sid t).
Local Abbreviation log_of t := (CatchUp.log_of (E := E) (S := S) (Q := Q * RWorld X) t (Tof t)).
Local Abbreviation clk := (CatchUp.clk (E := E) (S := S) (Q := Q * RWorld X)).
Local Abbreviation told := (told (E := E) (S := S) (Q := Q) (X := X) sid trusted).
Local Abbreviation remote := (remote (E := E) (S := S) (Q := Q) (X := X)).
Local Abbreviation ready := (ready (E := E) (S := S) (Q := Q * RWorld X) sid sel ts Tof cap).
Local Abbreviation pair_same := (pair_same (E := E) (S := S) (Q := Q * RWorld X) sid Tof cap).

(** The waits of the dispatcher that are not sends. *)
Record calm_op (m : M W unit) : Prop := {
  co_considerate : considerate_op (E := E) (S := S) (Q := Q * RWorld X) sid ts Tof cap m;
  co_orderly : orderly_op (E := E) (S := S) (Q := Q * RWorld X) same_but_cursors sid m;
}.
Record calm : Prop := {
  cm_suspend : calm_op suspend;
  cm_sleep : ∀ d, calm_op (sleep d);
  cm_acquire : ∀ x, calm_op (acquire x);
  cm_foreign : ∀ w, wp suspend (λ o _, ∀ e, o = Raise e → is_a2a_error e = false) w;
  cm_row : ∀ w u, ss_inv (w_subs w) (w_heap w) → row_of w sid = Some u →
    wp suspend (λ _ w', ∃ u', row_of w' sid = Some u' ∧ same_but_cursors u u') w;
}.
Context (Hconv : conveys (E := E) (S := S) (Q := Q) (X := X) trusted) (Hcalm : calm).
Context (Htruth : truthful (E := E) (S := S) (Q := Q) (X := X) sid trusted).

Lemma beside_pair t w w' : pair_ok sid Tof cap t w → beside w w' → pair_same t w w'.
Proof.
  intros [? ? ? ? ? ? ? ?] [Hst He Hs Hh Hq Ht Ha].
  assert (log_of t w' = log_of t w) as Hl by (unfold CatchUp.log_of; by rewrite Hst).
  split; [|by apply (evolves_frame t (Tof t))|unfold CatchUp.pos; by rewrite Hs|unfold CatchUp.atts; by rewrite Hs].
  split; unfold CatchUp.pos; rewrite ?Hl, ?Hst, ?Hs, ?Hh, ?Ht; done.
Qed.

Lemma emit_considerate endpoint a : considerate_op sid ts Tof cap (emit endpoint a).
Proof.
  intros t w Ht Hok. eapply wp_mono; [apply Hconv|]. intros o w' (Hb & Hnf & _).
  split; [by apply beside_pair|done].
Qed.

Lemma emit_orderly endpoint a : orderly_op same_but_cursors sid (emit endpoint a).
Proof.
  split; intros w Hw; (eapply wp_mono; [apply Hconv|]); intros o w' ([Hst He Hs Hh Hq Ht Ha] & _).
  - split; unfold row_of; rewrite ?Hs, ?Hh; [done| |done]. intros l u Hu. exists u. by split_and!.
  - destruct Hw as [? ? Hp]. split; unfold row_of in *; rewrite ?Hst, ?Hs, ?Hh; done.
Qed.

Lemma conveys_considerate : considerate sid ts Tof cap.
Proof.
  destruct Hcalm as [Hsu Hsl Hac Hf _]. split; [apply Hsu|exact Hf| | |apply Hsl|apply Hac].
  - intros u h e. exact (emit_considerate u (Webhook h (VDict e))).
  - intros u m. exact (emit_considerate u (Message m)).
Qed.

Lemma conveys_orderly : orderly same_but_cursors sid.
Proof.
  destruct Hcalm as [Hsu Hsl Hac _ Hr]. split; [apply Hsu| | |apply Hsl|apply Hac|exact Hr].
  - intros u h e. exact (emit_orderly u (Webhook h (VDict e))).
  - intros u m. exact (emit_orderly u (Message m)).
Qed.

Lemma enqueue_total i (q : Q * RWorld X) : (rq_enqueue i q).1 ≠ NoFuel.
Proof. simpl. unfold zoom. specialize (Henq i q.1). by destruct (rq_enqueue i q.1). Qed.

(** Time passing between passes, passes, each of which may be cut short, and
    dispatches that go on after their pass has raised. *)
Inductive outage : W → W → Prop :=
| outage_over w : outage w w
| outage_wait w w1 w2 :
    (∀ t, t ∈ ts → pair_same t w w1) → (told w → told w1) → outage w1 w2 → outage w w2
| outage_pass u w o w1 w2 :
    ready u w → dispatch_pending cfg fuel w = (o, w1) → outage w1 w2 → outage w w2
| outage_task l w o w1 w2 :
    at_work sid sel ts Tof cap l w → dispatch_subscription cfg fuel l None w = (o, w1) →
    outage w1 w2 → outage w w2.

Lemma pass_told u w : ready u w → told w → wp (dispatch_pending cfg fuel) (λ _ w', told w') w.
Proof.
  intros Hr Ht. eapply wp_mono.
  { apply (dispatch_pending_followed cfg fuel clock_mono Hsize sid conveys_orderly
      (subscriber_view sid trusted) (subscriber_view_laws sid trusted Hconv Htruth)); [apply Hr|exact Ht]. }
  intros o w' Hf. apply (fo_ok _ _ _ _ Hf).
Qed.

Lemma task_told l w : at_work sid sel ts Tof cap l w → told w →
  wp (dispatch_subscription cfg fuel l None) (λ _ w', told w') w.
Proof.
  intros Hw Ht. eapply wp_mono.
  { apply (dispatch_followed cfg fuel clock_mono Hsize sid conveys_orderly
      (subscriber_view sid trusted) (subscriber_view_laws sid trusted Hconv Htruth)); [apply Hw|exact Ht|].
    destruct (aw_object _ _ _ _ _ _ _ Hw) as (u & Hu & Hid & _). exists u. split; [done|].
    rewrite Hid. apply Hw. }
  intros o w' Hf. apply (fo_ok _ _ _ _ Hf).
Qed.

Lemma outage_told w w' : outage w w' → told w → told w'.
Proof.
  induction 1 as [w|w w1 w2 _ Hk _ IH|u w o w1 w2 Hr Hrun _ IH|l w o w1 w2 Hw Hrun _ IH]; [done|auto|..];
    intros Ht; apply IH.
  - pose proof (pass_told u w Hr Ht) as Hp. unfold wp in Hp. by rewrite Hrun in Hp.
  - pose proof (task_told l w Hw Ht) as Hp. unfold wp in Hp. by rewrite Hrun in Hp.
Qed.

Lemma outage_history w w' : outage w w' → history cfg fuel sid sel ts Tof cap w w'.
Proof.
  induction 1 as [w|w w1 w2 Hs _ _ IH|u w o w1 w2 Hr Hrun _ IH|l w o w1 w2 Hw Hrun _ IH];
    [apply history_now|..].
  - by apply (history_wait _ _ _ _ _ _ _ _ w1).
  - by apply (history_pass _ _ _ _ _ _ _ u w o w1).
  - by apply (history_task _ _ _ _ _ _ _ l w o w1).
Qed.

(** ** Exactly once *)

(** The receiver has processed one event with this id, and its signature is that
    of a trusted key. *)
Definition processed_once (i : string) (r : EventReceiver) : Prop :=
  ∃ before ev after, received r = before ++ ev :: after ∧ event_key ev = VStr i ∧
    genuine trusted ev ∧ ∀ x, x ∈ before ++ after → event_key x ≠ VStr i.

Lemma holds_once i r : receiver_inv trusted r → holds i r → processed_once i r.
Proof.
  intros [Hseen Hdist Hgen] Hi. unfold holds in Hi. rewrite Hseen in Hi.
  apply list_elem_of_fmap in Hi as (ev & Hkey & Hev).
  apply list_elem_of_split in Hev as (before & after & Hsplit). exists before, ev, after.
  rewrite Hsplit in *. split_and!; [done|done| |].
  - rewrite Forall_app, Forall_cons in Hgen. tauto.
  - intros x Hx Hxk. rewrite Hseen, fmap_app, fmap_cons in Hdist.
    assert (py_eq (VStr i) (VStr i) = true) as Hrefl by (rewrite py_eq_scalar by done; by apply bool_decide_eq_true).
    apply StronglySorted_app in Hdist as (Hcross & _ & Hafter).
    apply elem_of_app in Hx as [Hx|Hx].
    + assert (py_eq (event_key ev) (event_key x) = false) as Hf.
      { apply Hcross; [apply list_elem_of_fmap; by exists x|by left]. }
      rewrite Hxk, <- Hkey in Hf. congruence.
    + apply StronglySorted_inv in Hafter as [_ Hall]. rewrite Forall_forall in Hall.
      assert (py_eq (event_key x) (event_key ev) = false) as Hf.
      { apply Hall. apply list_elem_of_fmap. by exists x. }
      rewrite Hxk, <- Hkey in Hf. congruence.
Qed.

(** What else may become of an event: an attempt since [w] is on record that says
    that it was given up. *)
Definition dead_lettered (t : string) (r : EventRecord) (w w' : W) : Prop :=
  ∃ extra a, atts t w' = atts t w ++ extra ∧ a ∈ extra ∧ da_event_id a = event_id r ∧
    da_status a = "dead_letter"%string.

(** A finished delivery has an attempt that says how it ended. *)
Lemma complete_last r run :
  retry_queue cfg = false → complete cfg sid r run →
  ∃ a st, a ∈ run ∧ att_of sid r (attempt a) st a ∧ terminal st.
Proof.
  intros Hq. unfold complete. rewrite Hq.
  intros [Hrun _]. clear Hmax Hsize Hq. induction Hrun as [k a st Hst Ha|k a rest _ _ IH].
  - exists a, st. split; [by left|]. destruct Ha as (? & ? & ? & ? & ?). by split_and!.
  - destruct IH as (b & st & Hb & Hatt). exists b, st. split; [by right|done].
Qed.

Lemma settled t r w w' run extra :
  retry_queue cfg = false → told w' → atts t w' = atts t w ++ extra → complete cfg sid r run →
  (∀ a, a ∈ run → a ∈ extra) →
  processed_once (event_id r) (rv (remote w')) ∨ dead_lettered t r w w'.
Proof.
  intros Hq [Hinv Htold] Hatts Hc Hin.
  destruct (complete_last r run Hq Hc) as (a & st & Ha & (Hs & Hid & _ & _ & Hst) & Hend).
  apply Hin in Ha. assert (a ∈ atts t w') as Hrec by (rewrite Hatts; apply elem_of_app; by right).
  destruct Hend as [->| ->].
  - left. apply holds_once; [done|]. rewrite <- Hid. apply Htold; [|done..].
    by apply list_elem_of_filter in Hrec as [_ ?].
  - right. by exists extra, a.
Qed.

(** C1: delivery end to end is exactly once. A publisher without a retry queue
    (the default), a network and a subscriber together, over a transport that
    [conveys]: it may lose requests, lose answers and deliver twice. After any
    outage, in which passes of the dispatcher were cut short, a pass that returns
    settles every matching event that was logged at the start and has not expired:
    the subscriber's receiver has processed it exactly once, from a genuine
    signature, or the publisher has given it up as a dead letter. And however the
    pass ends, no event is recorded as delivered that the subscriber has not
    processed. *)
Theorem end_to_end_exactly_once w w1 u o w2 :
  told w → outage w w1 → ready u w1 → dispatch_pending cfg fuel w1 = (o, w2) →
  told w2 ∧
  (retry_queue cfg = false → served u w1 w2 → ∀ n, o = Ret n →
   ∀ t r, t ∈ ts → r ∈ log_events (log_of t w) →
     live (Tof t) r (clk w2) → pos t w < rec_offset r → hit sel (Tof t) r →
     processed_once (event_id r) (rv (remote w2)) ∨ dead_lettered t r w w2).
Proof.
  intros Ht Hout Hr Hrun. pose proof (outage_told w w1 Hout Ht) as Ht1.
  assert (told w2) as Ht2.
  { pose proof (pass_told u w1 Hr Ht1) as Hp. unfold wp in Hp. by rewrite Hrun in Hp. }
  split; [done|]. intros Hq Hs n -> t r Hin Hlog Hlive Hgt Hhit.
  destruct (history_then_pass cfg fuel clock_mono Hmax Hsize enqueue_total sid sel ts Tof cap
    conveys_considerate conveys_orderly w w1 u n w2 (outage_history w w1 Hout) Hr Hrun Hs t Hin) as [Ha Hh].
  destruct (delivered_all_of cfg sid sel Tof t w w2 Ha Hh) as (extra & Hatts & Hall).
  destruct (Hall r Hlog Hlive Hgt Hhit) as (before & run & after & -> & Hc).
  eapply settled; [done|done|exact Hatts|exact Hc|]. intros b Hb. rewrite !elem_of_app. auto.
Qed.
End EndToEnd.
