(* ===== verification/EndToEndRetry.v ===== *)
(** * From the log to the subscriber through the retry queue

    [EndToEnd] follows an event until the publisher has delivered it, given it up
    or queued it for a retry. Here the queue is followed as well: the first
    attempt of [_deliver_queued] over a transport that loses and repeats messages,
    the item that it may leave, and the passes of the retry worker until the item
    is gone. *)

From S2P Require Import Prelude PyStr Value Errors Effects Dynamic Models Base64 Cursor Selectors.
From S2P Require Import Canonical Signing Limits Observability Auth Ssrf Contracts Publisher.
From S2P Require Import CatchUp Receiver Footprint Bystander Dispatch Retry RetryPass Handover EndToEnd.
Open Scope Z_scope.

(** ** The queue's laws, whatever is beside it *)
Section Beside.
Context {Q R : Type} `{!RetryQueue Q, !RetryQueueLaws Q}.

Lemma refusal_beside {A} (m : M Q A) (P : A → Q → Prop) (q : Q * R) :
  effect_or_refusal rq_refuses q.1 P (m q.1) →
  effect_or_refusal rq_refuses q (λ a q', P a q'.1) (zoom fst (λ q x, (q, x.2)) m q).
Proof.
  unfold zoom. destruct q as [q x]; simpl. by destruct (m q) as [[a|e|] q']; simpl; [|intros [? ->]|].
Qed.

#[export] Instance queue_beside_laws : RetryQueueLaws (Q * R).
Proof.
  refine {| rq_inv q := rq_inv q.1; rq_item q := rq_item q.1; rq_refuses := rq_refuses |}; intros q.
  - intros i Hq. exact (refusal_beside _ _ q (rq_enqueue_law q.1 i Hq)).
  - intros rid Hq. exact (refusal_beside _ _ q (rq_complete_law q.1 rid Hq)).
  - intros rid n k e Hq. exact (refusal_beside _ _ q (rq_reschedule_law q.1 rid n k e Hq)).
  - intros now_ limit lease Hq Hl. exact (refusal_beside _ _ q (rq_claim_law q.1 now_ limit lease Hq Hl)).
Defined.
End Beside.

(** ** A delivery through the queue *)
Section QueuedDelivery.
Context {E S Q X : Type} `{!EventStore E, !SubscriptionStore S, !RetryQueue Q}.
Context `{!Platform, !Crypto, !Hmac, !Net, !IsoParser}.
Context `{!EventStoreLaws E, !SubscriptionStoreLaws S, !RetryQueueLaws Q}.
Local Abbreviation W := (World E S (Q * RWorld X)).
Local Abbreviation PM := (M W).
Context `{!Async W} (cfg : PublisherConfig).
Context (clock_mono : ∀ i j, (i ≤ j)%nat → clock i ≤ clock j).
Context (Hsize : 1 ≤ page_size cfg) (Hqueue : retry_queue cfg = true).
Context (Henq : ∀ i (q : Q), (rq_enqueue i q).1 ≠ NoFuel).
Context (sid t : string) (T : Topic) (cap : Z) (trusted : value → string → Prop).
Context (Hconv : conveys (E := E) (S := S) (Q := Q) (X := X) trusted).
Context (Hcalm : calm (E := E) (S := S) (Q := Q) (X := X) sid [t] (λ _, T) (λ _, cap)).
Context (Htruth : truthful (E := E) (S := S) (Q := Q) (X := X) sid trusted).

Local Abbreviation inv l sel := (CatchUp.inv (E := E) (S := S) (Q := Q * RWorld X) sid l sel t T cap).
Local Abbreviation log_of := (CatchUp.log_of (E := E) (S := S) (Q := Q * RWorld X) t T).
Local Abbreviation pos := (CatchUp.pos (E := E) (S := S) (Q := Q * RWorld X) sid t).
Local Abbreviation atts := (CatchUp.atts (E := E) (S := S) (Q := Q * RWorld X) sid t).
Local Abbreviation clk := (CatchUp.clk (E := E) (S := S) (Q := Q * RWorld X)).
Local Abbreviation view := (subscriber_view (E := E) (S := S) (Q := Q) (X := X) sid trusted).
Local Abbreviation told := (told (E := E) (S := S) (Q := Q) (X := X) sid trusted).
Local Abbreviation remote := (remote (E := E) (S := S) (Q := Q) (X := X)).
Local Abbreviation keeps := (Retry.keeps (E := E) (S := S) (Q := Q * RWorld X)).
Local Abbreviation undisturbed := (Retry.undisturbed (E := E) (S := S) (Q := Q * RWorld X)).
Local Abbreviation going := (going (E := E) (S := S) (Q := Q * RWorld X) sid t T cap view).
Local Abbreviation carried := (carried (E := E) (S := S) (Q := Q * RWorld X) same_but_cursors sid t T view).
Local Abbreviation works := (works (E := E) (S := S) (Q := Q * RWorld X) cfg same_but_cursors sid t T cap view).
Local Abbreviation has_item := (has_item (Q := Q * RWorld X)).

#[local] Instance conveyed_carried_pre : PreOrder carried.
Proof. eapply carried_preorder; [exact clock_mono|apply _|apply subscriber_view_laws; done]. Qed.

(** A send does not touch the queue; so only what else happens while the
    publisher waits can disturb it. *)
Definition about_queue (P : Q * RWorld X → Prop) : Prop := ∀ q q', q.1 = q'.1 → P q → P q'.

Lemma conveyed_undisturbed P : about_queue P → keeps P suspend → undisturbed P.
Proof.
  intros HP Hs. assert (∀ u a, keeps P (emit u a)) as Hsend.
  { intros u a w Hw. eapply wp_mono; [apply (Hconv u a w)|]. intros o w' [Hb _].
    eapply HP; [|exact Hw]. symmetry. apply (bs_queue _ _ Hb). }
  split; [exact Hs|intros u h e; exact (Hsend u (Webhook h (VDict e)))|intros u m; exact (Hsend u (Message m))].
Qed.

Lemma queue_ok_about : about_queue queue_ok.
Proof. intros q q' Hq [Hi Hit]. split; simpl in *; by rewrite <- Hq. Qed.
Lemma has_item_about rid val : about_queue (has_item rid val).
Proof. intros q q' Hq [Hi Hit]. split; simpl in *; by rewrite <- Hq. Qed.

Lemma conveyed_well_behaved l sel :
  well_behaved (E := E) (S := S) (Q := Q * RWorld X) sid l sel t T cap.
Proof.
  apply (all_well_behaved sid sel [t] (λ _, T) (λ _, cap) (conveys_considerate sid [t] _ _ trusted Hconv Hcalm)
    (conveys_orderly sid [t] _ _ trusted Hconv Hcalm)). by left.
Qed.

(** ** How it ends

    The subscriber has processed the event once, from a genuine signature, or an
    attempt that is within the maximum gave it up. *)
Definition given_up (r : EventRecord) (w w' : W) : Prop :=
  ∃ extra a, atts w' = atts w ++ extra ∧ a ∈ extra ∧ da_event_id a = event_id r ∧
    da_status a = "dead_letter"%string ∧ attempt a ≤ max_attempts cfg.
Definition finished (r : EventRecord) (w w' : W) : Prop :=
  processed_once trusted (event_id r) (rv (remote w')) ∨ given_up r w w'.

(** Or, of the passes that the retry worker made, one ended when the event had
    aged out of retention, or came to its item and found its subscription not
    active. *)
Definition lapsed_in (passes : list (W * W)) rid batch lease (r : EventRecord) : Prop :=
  ∃ wa wb, (wa, wb) ∈ passes ∧
    (¬ live T r (clk wb) ∨ found_inactive cfg sid rid batch lease wa).

(** An attempt on record that closed the event. *)
Lemma closed_finished r st k a w w' extra :
  told w' → terminal st → att_of sid r k st a → k ≤ max_attempts cfg →
  atts w' = atts w ++ extra → a ∈ extra → finished r w w'.
Proof.
  intros [Hinv Htold] Hst (Hs & Hid & _ & Hk & Hst') Hle Hatts Hin.
  destruct Hst as [->| ->].
  - left. apply holds_once; [done|]. rewrite <- Hid. apply Htold; [|done..].
    assert (a ∈ atts w') as Ha by (rewrite Hatts; apply elem_of_app; by right).
    by apply list_elem_of_filter in Ha as [_ ?].
  - right. exists extra, a. split_and!; [done..|lia].
Qed.

Lemma concluded_finished rid batch lease ps r w w' :
  told w' → concluded cfg sid t T rid r batch lease ps w w' →
  finished r w w' ∨ lapsed_in ps rid batch lease r.
Proof.
  intros Ht Hcon. destruct Hcon as [st before a after Hst Hk Hatt Ha|wa wb Hin Hdead|wa wb Hin Hf].
  - left. apply (closed_finished r st (attempt a) a w w' (before ++ a :: after)); [done..|].
    rewrite elem_of_app, elem_of_cons. auto.
  - right. exists wa, wb. auto.
  - right. exists wa, wb. auto.
Qed.

(** What the delivery needs of its world: the subscription's references and log
    in order, and identifiers from [n0] on that the queue has not seen and nobody
    else touches. *)
Record fit (n0 : nat) (l : loc) (sel : option Selector) (w : W) : Prop := {
  ft_inv : inv l sel w;
  ft_standing : standing w;
  ft_queue : queue_ok (w_queue w);
  ft_fresh : (n0 ≤ uuids (w_env w))%nat;
  ft_free : ∀ n, (n0 ≤ n)%nat → rq_item (w_queue w) (retry_name n) = None;
}.
Context (sound : keeps queue_ok suspend) (n0 : nat).
Context (ours : ∀ n val, (n0 ≤ n)%nat → keeps (has_item (retry_name n) val) suspend).

Lemma queue_ok_undisturbed : undisturbed queue_ok.
Proof. apply conveyed_undisturbed; [apply queue_ok_about|exact sound]. Qed.
Lemma item_undisturbed n val : (n0 ≤ n)%nat → undisturbed (has_item (retry_name n) val).
Proof. intros Hn. apply conveyed_undisturbed; [apply has_item_about|by apply ours]. Qed.

(** The first attempt. *)
Lemma first_attempt l sel r w :
  fit n0 l sel w → told w → r ∈ log_events (log_of w) → pos w < rec_offset r →
  wp (deliver_queued cfg l r) (λ o w1, (going w1 ∧ carried w w1) ∧
    ∀ b, o = Ret b → queue_ok (w_queue w1) ∧ (at_once sid t r w w1 ∨ handed cfg sid t n0 r w1)) w.
Proof.
  intros [Hw Hst Hq Hn Hfree] Ht Hr Hlt.
  pose proof (log_record sid l sel t T cap w r Hw Hr) as Hin. apply wp_conj.
  - apply (deliver_queued_goes cfg clock_mono same_but_cursors (λ _ _, eq_refl)
      (λ u u' Hk, proj1 (same_but_cursors_selection u u' Hk)) Hsize Hqueue (enqueue_total Henq) sid t T cap
      conveyed_well_behaved (conveys_orderly sid [t] _ _ trusted Hconv Hcalm) view
      (subscriber_view_laws sid trusted Hconv Htruth) l sel r w Hw); [|exact Hin|exact Hlt].
    split; [by exists l, sel|exact Hst|exact Ht].
  - apply (deliver_queued_hands_over cfg clock_mono sid t T cap conveyed_well_behaved queue_ok_undisturbed
      l sel n0 r w Hw); [|done..].
    split; [exact Hfree|apply item_undisturbed].
Qed.

(** C2: delivery through the retry queue is exactly once, end to end. Take an
    event that [_deliver_queued] delivers over a transport that may lose requests,
    lose answers and deliver twice. However it ends, no event is on record as
    delivered that the subscriber has not processed. If it returns, the event is
    finished: the subscriber's receiver has processed it exactly once, from a
    genuine signature, or an attempt within the maximum is on record as its dead
    letter; or else the retry queue has an item for it. Then, whatever passes of
    the retry worker follow, some cut short by exceptions, with anything in
    between, after as many turns as there are attempts left the item is gone and
    the event is finished, or it had aged out of retention when one of these
    passes ended, or one of them came to the item and found the subscription not
    active. *)
Theorem queued_delivery_exactly_once l sel r w o w1 :
  1 ≤ max_attempts cfg → fit n0 l sel w → told w → r ∈ log_events (log_of w) → pos w < rec_offset r →
  deliver_queued cfg l r w = (o, w1) →
  told w1 ∧ ∀ b, o = Ret b →
    finished r w w1 ∨
    ∃ rid i, rq_item (w_queue w1) rid = Some i ∧ about cfg sid t rid r i ∧
      ∀ batch lease ps k w2, 0 ≤ batch → works rid batch lease ps k w1 w2 →
        max_attempts cfg - 1 ≤ Z.of_nat k →
        told w2 ∧ rq_item (w_queue w2) rid = None ∧
        (finished r w w2 ∨ lapsed_in ps rid batch lease r).
Proof.
  intros Hmax Hfit Ht Hr Hlt Hrun. pose proof (first_attempt l sel r w Hfit Ht Hr Hlt) as Hfirst.
  unfold wp in Hfirst. rewrite Hrun in Hfirst. destruct Hfirst as [[Hg1 Hc1] Hout].
  split; [exact (go_view _ _ _ _ _ _ Hg1)|]. intros b Hb.
  destruct (Hout b Hb) as [Hq1 [(st & a & Hst & Ha & Hatts)|(n & i & Hn & [_ Hi] & Hab & Hone)]].
  { left. apply (closed_finished r st 1 a w w1 [a]); [apply Hg1|done..|by left]. }
  right. exists (retry_name n), i. split; [exact Hi|]. split; [exact Hab|].
  intros batch lease ps k w2 Hbatch Hworks Hk.
  assert (once_logged sid t T cap r w1) as Hlogged.
  { exists w, l, sel. split_and!; [apply Hfit|exact Hr|apply Hc1]. }
  destruct (drained cfg clock_mono same_but_cursors (λ _ _, eq_refl)
    (λ u u' Hk, proj1 (same_but_cursors_selection u u' Hk)) sid t T cap conveyed_well_behaved
    (conveys_orderly sid [t] _ _ trusted Hconv Hcalm) view (subscriber_view_laws sid trusted Hconv Htruth)
    (retry_name n) r (λ val, item_undisturbed n val Hn) queue_ok_undisturbed batch lease Hbatch ps k w1 w2 i)
    as ((Hg2 & _) & Hc2 & Hgone & Hcon); [by split_and!|exact Hi|exact Hab|exact Hworks|lia|].
  split; [apply Hg2|]. split; [exact Hgone|]. apply concluded_finished; [apply Hg2|].
  by eapply concluded_within; [exact Hc1|exact Hcon|reflexivity|].
Qed.
End QueuedDelivery.
