(* ===== verification/Lease.v ===== *)
(** * Automatic lease renewal (lease.py)

    [AutoLeaseRenewer]: the loop that renews a subscription before its lease runs
    out. Points in time are microseconds, delays are rational seconds where the
    code has floats. *)

From Stdlib Require Import QArith Qminmax Qround Lqa.
From S2P Require Import Prelude PyStr Value Errors Effects.
Open Scope Z_scope.

Record Renewer := mkRenewer {
  task : bool;
  stopped : bool;
  renewals : list Z;
  last_error : option exn;
}.

Definition new_renewer : Renewer := mkRenewer false false [] None.

(** [AutoLeaseRenewer(...)]: the check of [__init__] *)
Definition init_renewer (renew_fraction : Q) : outcome Renewer :=
  if negb (Qle_bool renew_fraction 0) && negb (Qle_bool 1 renew_fraction) then mret new_renewer
  else Raise (ValueError "renew_fraction must be in (0, 1)").

(** A duration of [n] microseconds in seconds: [timedelta.total_seconds()]. *)
Definition total_seconds (n : Z) : Q := n # 1000000.

(** [max(a, b)] and [min(a, b)]: the first argument unless the second is
    strictly larger, or smaller. *)
Definition py_max (a b : Q) : Q := if Qle_bool b a then a else b.
Definition py_min (a b : Q) : Q := if Qle_bool a b then a else b.

(** [except Exception]: a cancellation is not an [Exception]. *)
Definition is_exception (e : exn) : bool :=
  match e with OtherException n => negb (bool_decide (n = "CancelledError"%string)) | _ => true end.

(** [exc.code == ErrorCode.SUBSCRIPTION_NOT_FOUND] for an [A2AEventsError] *)
Definition is_gone (e : exn) : bool :=
  match e with
  | A2AEventsError c _ _ => bool_decide (c = SUBSCRIPTION_NOT_FOUND)
  | _ => false
  end.

Section Renewer.
Context {X : Type}.
Local Abbreviation LM := (M (Renewer * X)).

(** [self._now], [self._sleep] and [self._renew], with the state [X] of the
    world around them *)
Context (now_ : LM Z) (sleep_ : Q → LM unit) (renew_ : string → Z → LM Z).
Context (renew_fraction min_sleep : Q).

Definition on_renewer (f : Renewer → Renewer) : LM unit := modify (λ w, (f w.1, w.2)).

(** [start(...)]: whether the task was created *)
Definition start : LM unit :=
  w ← get_state;
  if task w.1 then raise (OtherException "RuntimeError")
  else on_renewer (λ r, mkRenewer true (stopped r) (renewals r) (last_error r)).

(** [aclose()] *)
Definition aclose : LM unit :=
  on_renewer (λ r, mkRenewer false true (renewals r) (last_error r)).

(** [_renewal_delay(lease_until, lease_seconds)] *)
Definition renewal_delay (lease_until lease_seconds : Z) : LM Q :=
  n ← now_;
  let remaining := total_seconds (lease_until - n) in
  let delay := (remaining - (1 - renew_fraction) * inject_Z lease_seconds)%Q in
  mret (py_max min_sleep delay).

(** [_retry_pause(lease_until)] *)
Definition retry_pause (lease_until : Z) : LM bool :=
  n ← now_;
  let remaining := total_seconds (lease_until - n) in
  if Qle_bool remaining 0 then mret false
  else _ ← sleep_ (py_min min_sleep remaining); mret true.

(** [await self._renew(...)] inside its [try] *)
Definition try_renew (sid : string) (lease_seconds : Z) : LM (Z + exn) :=
  try_except (inl <$> renew_ sid lease_seconds)
    (λ e, if is_exception e then Some (mret (inr e)) else None).

(** The loop of [_run], with at most [n] rounds *)
Fixpoint run (n : nat) (sid : string) (lease_seconds lease_until : Z) : LM unit :=
  match n with
  | O => no_fuel
  | S n' =>
      w ← get_state;
      if stopped w.1 then mret tt else
      delay ← renewal_delay lease_until lease_seconds;
      _ ← sleep_ delay;
      w ← get_state;
      if stopped w.1 then mret tt else
      r ← try_renew sid lease_seconds;
      match r with
      | inl granted =>
          _ ← on_renewer (λ r, mkRenewer (task r) (stopped r) (renewals r ++ [granted]) (last_error r));
          run n' sid lease_seconds granted
      | inr e =>
          _ ← on_renewer (λ r, mkRenewer (task r) (stopped r) (renewals r) (Some e));
          if is_gone e then mret tt else
          again ← retry_pause lease_until;
          if again : bool then run n' sid lease_seconds lease_until else mret tt
      end
  end.
End Renewer.

(** ** The loop against a clock *)

Lemma py_max_le a b c : (a <= c → b <= c → py_max a b <= c)%Q.
Proof. unfold py_max. by destruct (Qle_bool b a). Qed.

Lemma le_py_max a b : (a <= py_max a b ∧ b <= py_max a b)%Q.
Proof.
  unfold py_max. destruct (Qle_bool b a) eqn:E.
  - apply Qle_bool_iff in E. split; lra.
  - assert (¬ b <= a)%Q as Hb by (rewrite <- Qle_bool_iff; congruence).
    split; lra.
Qed.

Lemma total_seconds_sub a b : (total_seconds (a - b) == total_seconds a - total_seconds b)%Q.
Proof. unfold total_seconds, Qeq, Qminus. simpl. lia. Qed.

Lemma total_seconds_lt a b : (total_seconds a < total_seconds b)%Q ↔ a < b.
Proof. unfold total_seconds, Qlt. simpl. lia. Qed.

Section Clock.
Context {X : Type} (time : X → Z) (asked : X → list Z).
Context (now_ : M (Renewer * X) Z) (sleep_ : Q → M (Renewer * X) unit).
Context (renew_ : string → Z → M (Renewer * X) Z) (renew_fraction min_sleep jitter latency : Q).
Open Scope Q_scope.

(** Reading the clock changes nothing. A sleep of [d] seconds takes at most
    [d + jitter], and the renewer may be closed during it. A renewal is granted
    for [lease] seconds from some point during the call, which takes at most
    [latency]. [asked] lists the times at which renewals were requested. *)
Record steady (lease : Z) : Prop := {
  st_now : ∀ r x, now_ (r, x) = (Ret (time x), (r, x));
  st_sleep : ∀ d r x, 0 <= d → ∃ s x', sleep_ d (r, x)
    = (Ret tt, (mkRenewer (task r) s (renewals r) (last_error r), x')) ∧ asked x' = asked x ∧
    d <= total_seconds (time x' - time x) <= d + jitter;
  st_renew : ∀ sid r x, ∃ granted x', renew_ sid lease (r, x) = (Ret granted, (r, x')) ∧
    asked x' = asked x ++ [time x] ∧
    inject_Z lease - latency <= total_seconds (granted - time x');
}.

(** Each request comes before the end of the lease in force. *)
Definition in_time (lease_until : Z) (granted requested : list Z) : Prop :=
  Forall2 Z.lt requested (take (length requested) (lease_until :: granted)).

Lemma wake_in_time lease_until lease n n' :
  min_sleep + jitter < total_seconds (lease_until - n) →
  jitter < (1 - renew_fraction) * inject_Z lease →
  total_seconds (n' - n) <= py_max min_sleep
    (total_seconds (lease_until - n) - (1 - renew_fraction) * inject_Z lease) + jitter →
  (n' < lease_until)%Z.
Proof.
  intros H1 H2 H3. apply total_seconds_lt. unfold py_max in H3.
  pose proof (total_seconds_sub lease_until n). pose proof (total_seconds_sub n' n).
  destruct (Qle_bool _ _); lra.
Qed.

Context (min_sleep_ok : 0 <= min_sleep).

(** C32: the lease never lapses: as long as renewals succeed, and oversleeping
    and request latency leave room, every renewal is requested before the lease
    in force runs out, and the loop goes on until the renewer is closed. *)
Theorem renews_in_time n sid lease lease_until r x :
  steady lease → jitter < (1 - renew_fraction) * inject_Z lease →
  min_sleep + jitter + latency < inject_Z lease →
  min_sleep + jitter < total_seconds (lease_until - time x) →
  let '(o, (r', x')) := run now_ sleep_ renew_ renew_fraction min_sleep n sid lease lease_until (r, x) in
  ∃ granted requested, renewals r' = renewals r ++ granted ∧ asked x' = asked x ++ requested ∧
    last_error r' = last_error r ∧ length granted = length requested ∧
    in_time lease_until granted requested ∧
    (o = NoFuel ∧ length granted = n ∨ o = Ret tt ∧ stopped r' = true).
Proof.
  intros Hst Hj Hl. revert lease_until r x. induction n as [|n IH]; intros lease_until r x Hu.
  { exists [], []. simpl. rewrite !(right_id_L [] (++)). split_and!; [done..|constructor|by left]. }
  cbn [run]. unfold mbind at 1, M_bind at 1, get_state at 1. cbn [fst].
  destruct (stopped r) eqn:Hs.
  { exists [], []. simpl. rewrite !(right_id_L [] (++)). split_and!; [done..|constructor|by right]. }
  unfold renewal_delay. unfold mbind, M_bind. rewrite (st_now _ Hst). simpl.
  set (d := py_max _ _).
  destruct (st_sleep _ Hst d r x) as (s & x1 & Hsl & Hasked1 & Hd1 & Hd2).
  { unfold d. pose proof (le_py_max min_sleep (total_seconds (lease_until - time x) -
      (1 - renew_fraction) * inject_Z lease)) as [? _]. lra. }
  rewrite Hsl. simpl. destruct s.
  { exists [], []. rewrite Hasked1. simpl. rewrite !(right_id_L [] (++)).
    split_and!; [done..|constructor|by right]. }
  set (r1 := mkRenewer _ _ _ _). destruct (st_renew _ Hst sid r1 x1) as (g & x2 & Hrn & Hasked2 & Hg).
  unfold try_renew, try_except, fmap, M_fmap. rewrite Hrn. simpl.
  set (r2 := mkRenewer _ _ _ _).
  specialize (IH g r2 x2). destruct (run _ _ _ _ _ n sid lease g (r2, x2)) as [o [r' x']].
  destruct IH as (granted & requested & Hr' & Hx' & He & Hlen & Hin & Ho); [lra|].
  exists (g :: granted), (time x1 :: requested). rewrite Hr', Hx', Hasked2, Hasked1.
  simpl. rewrite <- !(assoc_L (++)). split_and!; [done..|by f_equal| |].
  - unfold in_time. simpl. constructor; [|exact Hin]. by eapply wake_in_time.
  - destruct Ho as [[-> <-]|Ho]; [by left|by right].
Qed.

(** An environment in which renewals may fail: sleeps take at least as long as
    asked for, and time does not go backwards. *)
Record lively : Prop := {
  lv_now : ∀ r x, now_ (r, x) = (Ret (time x), (r, x));
  lv_sleep : ∀ d r x, ∃ s x', sleep_ d (r, x)
    = (Ret tt, (mkRenewer (task r) s (renewals r) (last_error r), x')) ∧
    d <= total_seconds (time x' - time x);
  lv_renew : ∀ sid lease r x, ∃ o x', renew_ sid lease (r, x) = (o, (r, x')) ∧
    (time x ≤ time x')%Z ∧ o ≠ NoFuel ∧ ∀ e, o = Raise e → is_exception e = true;
}.

(** Why the loop may end. *)
Definition ended (lease_until : Z) (granted : list Z) (r : Renewer) (x : X) : Prop :=
  stopped r = true ∨ (∃ e, last_error r = Some e ∧ is_gone e = true) ∨
  (is_Some (last_error r) ∧ (default lease_until (last granted) ≤ time x)%Z).

Lemma ended_cons lease_until g gs r x :
  ended g gs r x → ended lease_until (g :: gs) r x.
Proof.
  unfold ended. intros [?|[?|[He Hl]]]; [by left|right; by left|]. right; right. split; [done|].
  rewrite last_cons. by destruct (last gs).
Qed.

Lemma try_renew_run sid lease r x :
  lively → ∃ o x', try_renew renew_ sid lease (r, x) = (Ret o, (r, x')) ∧ (time x ≤ time x')%Z ∧
    match o with
    | inl g => renew_ sid lease (r, x) = (Ret g, (r, x'))
    | inr e => renew_ sid lease (r, x) = (Raise e, (r, x'))
    end.
Proof.
  intros Hlv. destruct (lv_renew Hlv sid lease r x) as (o & x' & Hrun & Ht & Hnf & Hexc).
  unfold try_renew, try_except, fmap, M_fmap. rewrite Hrun. destruct o as [g|e|]; [| |done].
  - by eexists (inl g), x'.
  - rewrite (Hexc e eq_refl). by exists (inr e), x'.
Qed.

Lemma retry_pause_run lease_until r x :
  lively → ∃ s x', retry_pause now_ sleep_ min_sleep lease_until (r, x) =
      (Ret (bool_decide (time x < lease_until)%Z),
       (mkRenewer (task r) s (renewals r) (last_error r), x')) ∧
    (time x ≤ time x')%Z.
Proof.
  intros Hlv. unfold retry_pause, mbind, M_bind. rewrite (lv_now Hlv).
  pose proof (total_seconds_sub lease_until (time x)) as Hsub.
  destruct (Qle_bool _ 0) eqn:Hq.
  - apply Qle_bool_iff in Hq. rewrite bool_decide_false.
    2:{ rewrite <- total_seconds_lt. intros ?. lra. }
    exists (stopped r), x. by destruct r.
  - assert (0 < total_seconds (lease_until - time x)) as Hpos
      by (apply Qnot_le_lt; rewrite <- Qle_bool_iff; congruence).
    rewrite bool_decide_true by (rewrite <- total_seconds_lt; lra).
    destruct (lv_sleep Hlv (py_min min_sleep (total_seconds (lease_until - time x))) r x)
      as (s & x' & -> & Hd).
    exists s, x'. split; [done|]. pose proof (total_seconds_sub (time x') (time x)).
    assert (0 <= py_min min_sleep (total_seconds (lease_until - time x))).
    { clear Hq. unfold py_min. destruct (Qle_bool _ _); lra. }
    apply Z.nlt_ge. rewrite <- total_seconds_lt. intros ?. lra.
Qed.

(** One round of the loop. *)
Lemma renewal_round_spec n sid lease lease_until r x :
  lively →
  let '(o, (r', x')) :=
    run now_ sleep_ renew_ renew_fraction min_sleep (S n) sid lease lease_until (r, x) in
  (o = Ret tt ∧ renewals r' = renewals r ∧ ended lease_until [] r' x') ∨
  (∃ g r1 x1 r0 x0, renew_ sid lease (r0, x0) = (Ret g, (r0, x1)) ∧
     renewals r1 = renewals r ++ [g] ∧
     run now_ sleep_ renew_ renew_fraction min_sleep n sid lease g (r1, x1) = (o, (r', x'))) ∨
  (∃ r1 x1, renewals r1 = renewals r ∧ min_sleep <= total_seconds (time x1 - time x) ∧
     (∃ x2, (time x2 < lease_until)%Z ∧ min_sleep <= total_seconds (time x2 - time x)) ∧
     run now_ sleep_ renew_ renew_fraction min_sleep n sid lease lease_until (r1, x1)
       = (o, (r', x'))).
Proof.
  intros Hlv. cbn [run]. unfold mbind at 1, M_bind at 1, get_state at 1. cbn [fst].
  destruct (stopped r) eqn:Hs; [by left; split_and!; [..|left]|].
  unfold renewal_delay. unfold mbind, M_bind. rewrite (lv_now Hlv). simpl.
  set (d := py_max _ _). destruct (lv_sleep Hlv d r x) as (s & x1 & Hsl & Hd). rewrite Hsl. simpl.
  assert (min_sleep <= d) as Hmin by apply le_py_max.
  destruct s; [by left; split_and!; [..|left]|].
  set (r1 := mkRenewer _ _ _ _).
  destruct (try_renew_run sid lease r1 x1 Hlv) as (o & x2 & Htry & Ht2 & Hren). rewrite Htry.
  destruct o as [g|e]; simpl.
  - destruct (run _ _ _ _ _ n _ _ _ _) as [o [r' x']] eqn:Hrun. right; left.
    eexists g, _, x2, r1, x1. split_and!; [done| |exact Hrun]. done.
  - destruct (is_gone e) eqn:Hgone.
    { left. split_and!; [done..|]. right; left. by exists e. }
    destruct (retry_pause_run lease_until (mkRenewer (task r) false (renewals r) (Some e)) x2 Hlv)
      as (s & x3 & Hp & Ht3).
    change (task r1) with (task r). change (renewals r1) with (renewals r). rewrite Hp.
    pose proof (total_seconds_sub (time x1) (time x)). pose proof (total_seconds_sub (time x3) (time x)).
    pose proof (total_seconds_sub (time x2) (time x)).
    assert (total_seconds (time x1) <= total_seconds (time x2)).
    { apply Qnot_lt_le. rewrite total_seconds_lt. lia. }
    assert (total_seconds (time x2) <= total_seconds (time x3)).
    { apply Qnot_lt_le. rewrite total_seconds_lt. lia. }
    case_bool_decide as Hlt.
    + destruct (run _ _ _ _ _ n _ _ _ _) as [o [r' x']] eqn:Hrun. right; right.
      eexists _, x3. split_and!; [|lra| |exact Hrun]; [done|]. exists x2. split; [done|lra].
    + left. split_and!; [done..|]. right; right. simpl. split; [by eexists|lia].
Qed.

(** C33: the loop does not give up early, and does give up: it ends only when the
    renewer is closed, the subscription is gone, or the lease in force has run out
    while renewals were failing; and if renewals never succeed again,
    [remaining / min_sleep] further rounds are enough for it to end. *)
Theorem gives_up_only_at_the_end n sid lease lease_until r x :
  lively →
  let '(o, (r', x')) :=
    run now_ sleep_ renew_ renew_fraction min_sleep (S n) sid lease lease_until (r, x) in
  (o = Ret tt → ∃ granted, renewals r' = renewals r ++ granted ∧ ended lease_until granted r' x') ∧
  ((∀ r x, ∃ e x', renew_ sid lease (r, x) = (Raise e, (r, x'))) →
   total_seconds (lease_until - time x) <= inject_Z (Z.of_nat n) * min_sleep → o = Ret tt).
Proof.
  intros Hlv. revert lease_until r x. induction n as [|n IH]; intros lease_until r x.
  - pose proof (renewal_round_spec 0 sid lease lease_until r x Hlv) as Hround.
    destruct (run _ _ _ _ _ 1 _ _ _ _) as [o [r' x']].
    destruct Hround as [(-> & Hr & He)|[(g & r1 & x1 & r0 & x0 & Hg & _ & Hrun)
      |(r1 & x1 & _ & Hx1 & (x2 & Hx2 & Hm) & Hrun)]].
    + split; [|done]. intros _. exists []. by rewrite (right_id_L [] (++)).
    + cbn [run] in Hrun. unfold no_fuel in Hrun. injection Hrun as <- <- <-. split; [done|]. intros Hfail. destruct (Hfail r0 x0) as (? & ? & ?). congruence.
    + cbn [run] in Hrun. unfold no_fuel in Hrun. injection Hrun as <- <- <-. split; [done|]. intros _ Hle. exfalso.
      rewrite <- total_seconds_lt in Hx2.
      pose proof (total_seconds_sub lease_until (time x)). pose proof (total_seconds_sub (time x2) (time x)).
      change (inject_Z (Z.of_nat 0)) with 0 in Hle. lra.
  - pose proof (renewal_round_spec (S n) sid lease lease_until r x Hlv) as Hround.
    destruct (run _ _ _ _ _ (S (S n)) _ _ _ _) as [o [r' x']].
    destruct Hround as [(-> & Hr & He)|[(g & r1 & x1 & r0 & x0 & Hg & Hr1 & Hrun)
      |(r1 & x1 & Hr1 & Hx1 & _ & Hrun)]].
    + split; [|done]. intros _. exists []. by rewrite (right_id_L [] (++)).
    + specialize (IH g r1 x1). rewrite Hrun in IH. destruct IH as [IH _]. split.
      * intros Ho. destruct (IH Ho) as (gs & Hgs & He). exists (g :: gs).
        rewrite Hgs, Hr1, <- (assoc_L (++)). split; [done|]. by apply ended_cons.
      * intros Hfail. destruct (Hfail r0 x0) as (? & ? & ?). congruence.
    + specialize (IH lease_until r1 x1). rewrite Hrun in IH. destruct IH as [IH1 IH2].
      rewrite Hr1 in IH1. split; [done|]. intros Hfail Hle. apply IH2; [done|].
      pose proof (total_seconds_sub lease_until (time x)).
      pose proof (total_seconds_sub lease_until (time x1)).
      pose proof (total_seconds_sub (time x1) (time x)).
      rewrite Nat2Z.inj_succ, <- Z.add_1_r, inject_Z_plus in Hle.
      change (inject_Z 1) with 1 in Hle. nra.
Qed.
End Clock.

(** ** A simulated clock *)

(** The time and the times of the requests. *)
Definition Sim : Type := Z * list Z.
Definition sim_now : M (Renewer * Sim) Z := gets (λ w, w.2.1).
Definition sim_sleep (d : Q) : M (Renewer * Sim) unit :=
  modify (λ w, (w.1, (w.2.1 + Qceiling (d * inject_Z 1000000), w.2.2))).
Definition sim_renew (_ : string) (lease : Z) : M (Renewer * Sim) Z := λ w,
  (Ret (w.2.1 + seconds lease), (w.1, (w.2.1, w.2.2 ++ [w.2.1]))).
Definition sim_outage (_ : string) (lease : Z) : M (Renewer * Sim) Z := λ w,
  (Raise (OtherException "ConnectError"), w).

Lemma sim_sleep_bounds (d : Q) (t : Z) :
  (d <= total_seconds (t + Qceiling (d * inject_Z 1000000) - t) <= d + (1 # 1000000))%Q.
Proof.
  replace (t + _ - t) with (Qceiling (d * inject_Z 1000000)) by lia.
  pose proof (Qle_ceiling (d * inject_Z 1000000)) as H1.
  pose proof (Qceiling_lt (d * inject_Z 1000000)) as H2.
  set (c := Qceiling _) in *.
  assert (total_seconds c == inject_Z c * (1 # 1000000))%Q as ->.
  { unfold total_seconds, Qeq. simpl. lia. }
  unfold Z.sub in H2. rewrite inject_Z_plus in H2.
  change (inject_Z 1000000) with (1000000 # 1)%Q in *. change (inject_Z (- (1))) with (-1 # 1)%Q in *.
  split; lra.
Qed.

Lemma sim_steady lease :
  steady (fst : Sim → Z) (snd : Sim → list Z) sim_now sim_sleep sim_renew (1 # 1000000) 0 lease.
Proof.
  split.
  - done.
  - intros d r [t l] _. exists (stopped r). eexists. split; [by destruct r|]. split; [done|].
    apply sim_sleep_bounds.
  - intros sid r [t l]. do 2 eexists. split; [done|]. split; [done|]. cbn [fst].
    unfold seconds, total_seconds, Qle. simpl. lia.
Qed.

Lemma sim_lively : lively (fst : Sim → Z) sim_now sim_sleep sim_outage.
Proof.
  split.
  - done.
  - intros d r [t l]. exists (stopped r). eexists. split; [by destruct r|]. apply sim_sleep_bounds.
  - intros sid lease r [t l]. do 2 eexists. split; [done|]. split_and!; [simpl; lia|done|].
    by intros e [= <-].
Qed.

(** A lease of 60 s, renewed twice: after 36 s each time. *)
Example two_renewals :
  run sim_now sim_sleep sim_renew (3 # 5) 1 2 "sub" 60 (seconds 60) (new_renewer, (0, [])) =
  (NoFuel, (mkRenewer false false [seconds 96; seconds 132] None,
            (seconds 72, [seconds 36; seconds 72]))).
Proof. vm_compute. reflexivity. Qed.

Lemma renews_in_time_witness :
  ∃ granted requested, [seconds 96; seconds 132] = [] ++ granted ∧
    [seconds 36; seconds 72] = [] ++ requested ∧ @None exn = None ∧
    length granted = length requested ∧ in_time (seconds 60) granted requested ∧
    (@NoFuel unit = NoFuel ∧ length granted = 2%nat ∨ @NoFuel unit = Ret tt ∧ false = true).
Proof.
  apply (renews_in_time (fst : Sim → Z) snd sim_now sim_sleep sim_renew (3 # 5) 1 (1 # 1000000) 0
    ltac:(vm_compute; discriminate) 2 "sub" 60 (seconds 60) new_renewer (0, []) (sim_steady 60));
    vm_compute; reflexivity.
Defined.

Lemma gives_up_only_at_the_end_witness :
  (run sim_now sim_sleep sim_outage (3 # 5) 1 61 "sub" 60 (seconds 60) (new_renewer, (0, []))).1
  = Ret tt.
Proof.
  pose proof (gives_up_only_at_the_end (fst : Sim → Z) sim_now sim_sleep sim_outage (3 # 5) 1
    ltac:(vm_compute; discriminate) 60 "sub" 60 (seconds 60) new_renewer (0, []) sim_lively) as Hw.
  destruct (run _ _ _ _ _ _ _ _ _ _) as [o [r' x']]. apply Hw; [|vm_compute; discriminate].
  intros r x. by do 2 eexists.
Defined.
