(* ===== verification/Postgres.v ===== *)
(** * The database server the Postgres stores talk to

    Statements are translated to functions on tables (lists of rows); this file
    holds what they share: the parameters of a query, which the driver or the
    server may refuse, and the order of rows, which SQL leaves open. A failed
    statement changes nothing. *)

From S2P Require Import Prelude PyStr Value Errors Effects Models Cursor Canonical Json Contracts.
Open Scope Z_scope.

(** An exception of psycopg. *)
Definition pg_error (cls : string) : exn := OtherException ("psycopg." +:+ cls).

(** How a statement may fail: with an exception of psycopg, or of [json.dumps]
    on a parameter (an integer of too many digits, too deep a nesting). *)
Definition database_error (e : exn) : Prop :=
  (∃ cls, e = pg_error cls) ∨ (∃ m, e = ValueError m) ∨ e = OtherException "RecursionError".

Lemma pg_error_database cls : database_error (pg_error cls).
Proof. left. by exists cls. Qed.

Lemma database_error_foreign e : database_error e → is_a2a_error e = false.
Proof. by intros [[? ->]|[[? ->]| ->]]. Qed.

(** ** Parameters *)

Definition nul : ascii := chr 0.

(** A [TEXT] parameter: a string with a NUL is refused. *)
Definition text_param (s : string) : outcome string :=
  if has_char nul s then Raise (pg_error "DataError") else mret s.
Definition opt_text_param (s : option string) : outcome (option string) :=
  match s with Some t => Some <$> text_param t | None => mret None end.

(** An [INTEGER] and a [BIGINT] parameter. *)
Definition int4_param (n : Z) : outcome Z :=
  if (- 2 ^ 31 <=? n) && (n <? 2 ^ 31) then mret n
  else Raise (pg_error "errors.NumericValueOutOfRange").
Definition int8_param (n : Z) : outcome Z :=
  if (- 2 ^ 63 <=? n) && (n <? 2 ^ 63) then mret n
  else Raise (pg_error "errors.NumericValueOutOfRange").

(** The argument of [LIMIT]. *)
Definition limit_param (n : Z) : outcome nat :=
  m ← int8_param n;
  if m <? 0 then Raise (pg_error "errors.InvalidRowCountInLimitClause") else mret (Z.to_nat m).

(** A pure computation of which only a database error may come. *)
Definition pg_pure {A} (o : outcome A) (P : A → Prop) : Prop :=
  match o with Ret a => P a | Raise e => database_error e | NoFuel => False end.

Lemma text_param_spec s : pg_pure (text_param s) (λ s', s' = s ∧ has_char nul s = false).
Proof. unfold text_param. destruct (has_char nul s); [apply pg_error_database|done]. Qed.

Lemma opt_text_param_spec s : pg_pure (opt_text_param s) (λ s', s' = s).
Proof.
  destruct s as [s|]; [|done]. unfold opt_text_param. pose proof (text_param_spec s) as Hs.
  destruct (text_param s); [|done|done]. cbn in *. by destruct Hs as [-> _].
Qed.

Lemma int4_param_spec n : pg_pure (int4_param n) (λ m, m = n ∧ - 2 ^ 31 ≤ n < 2 ^ 31).
Proof.
  unfold int4_param. destruct (_ && _) eqn:E; [|apply pg_error_database].
  bool_to_prop. split; [done|lia].
Qed.

Lemma int8_param_spec n : pg_pure (int8_param n) (λ m, m = n ∧ - 2 ^ 63 ≤ n < 2 ^ 63).
Proof.
  unfold int8_param. destruct (_ && _) eqn:E; [|apply pg_error_database].
  bool_to_prop. split; [done|lia].
Qed.

Lemma limit_param_spec n : pg_pure (limit_param n) (λ k, k = Z.to_nat n ∧ 0 ≤ n).
Proof.
  unfold limit_param. pose proof (int8_param_spec n) as Hn.
  destruct (int8_param n) as [m| |]; [|done|done]. cbn in Hn. destruct Hn as [-> _]. cbn.
  destruct (n <? 0) eqn:E; [apply pg_error_database|]. split; [done|lia].
Qed.

Lemma pg_pure_bind {A B} (o : outcome A) (k : A → outcome B) P Q :
  pg_pure o P → (∀ a, P a → pg_pure (k a) Q) → pg_pure (o ≫= k) Q.
Proof. destruct o; cbn; auto. Qed.

(** ** The order of rows *)

(** The order in which a scan finds the rows of a table, which a query without
    [ORDER BY] returns them in and a sort keeps among equal keys. *)
Class RowOrder := {
  scan : ∀ {A : Type}, list A → list A;
  scan_perm : ∀ {A : Type} (l : list A), scan l ≡ₚ l;
}.

Lemma scan_elem `{RowOrder} {A} (x : A) l : x ∈ scan l ↔ x ∈ l.
Proof. by rewrite scan_perm. Qed.

(** Insertion order, for examples. *)
Definition insertion_order : RowOrder := {| scan := λ A l, l; scan_perm := λ A l, reflexivity l |}.

(** ** The order of texts

    The collation of the database: some total preorder on texts. All that the
    stores need of it is that texts which differ in sixteen trailing digits only
    compare as the numbers do, which linguistic collations satisfy as well as
    the byte order. *)
Class Collation := {
  text_leb : string → string → bool;
  text_leb_total : ∀ a b, text_leb a b = false → text_leb b a = true;
  text_leb_trans : ∀ a b c, text_leb a b = true → text_leb b c = true → text_leb a c = true;
  text_leb_cursor : ∀ t n m, 0 ≤ n < max_offset → 0 ≤ m < max_offset →
    text_leb (cursor_text t n) (cursor_text t m) = (n <=? m);
}.

(** Collation ["C"] *)
#[program] Definition byte_order : Collation := {| text_leb := String.leb |}.
Next Obligation. apply str_leb_total. Qed.
Next Obligation. apply str_leb_trans. Qed.
Next Obligation.
  intros t n m Hn Hm. unfold String.leb. rewrite cursor_text_compare by done.
  unfold Z.leb. by destruct (n ?= m).
Qed.

(** [min] and [max] over a column *)
Definition text_min `{Collation} (l : list string) : option string := head (sort_by text_leb l).
Definition text_max `{Collation} (l : list string) : option string := last (sort_by text_leb l).

(** ** JSONB

    What a [JSONB] column gives back for a value: members may come back in
    another order, and numbers are kept as decimals, so that a float may come
    back as an integer; a text with a NUL, a NaN or a number out of range is
    refused. The first law is about values without floats. *)
Class JsonbColumn := {
  jsonb : value → outcome value;
  jsonb_plain : ∀ v, plain v = true → pg_pure (jsonb v) (json_eq v);
  jsonb_object : ∀ d, pg_pure (jsonb (VDict d)) (λ v, ∃ d', v = VDict d');
  (** An object of texts comes back as one. *)
  jsonb_texts : ∀ d : list (string * string),
    pg_pure (jsonb (VDict (prod_map id VStr <$> d))) (λ v, ∃ d', v = VDict (prod_map id VStr <$> d'));
}.

(** A column that keeps everything, for examples. *)
#[program] Definition verbatim_jsonb : JsonbColumn := {| jsonb := mret |}.
Next Obligation. intros. apply json_eq_refl. Qed.
Next Obligation. intros d. by exists d. Qed.
Next Obligation. intros d. by exists d. Qed.

(** Values that hold no dictionary are equal if they are equal up to member
    order. *)
Definition flat (v : value) : bool :=
  match v with VDict _ => false | VList l => forallb is_scalar l | _ => true end.

Lemma json_eq_scalar a b : is_scalar a = true → json_eq a b → a = b.
Proof. by destruct 2. Qed.

Lemma json_eq_flat a b : flat a = true → json_eq a b → a = b.
Proof.
  intros Ha Hab. destruct Hab as [v|l1 l2 Hl|]; [done| |done]. f_equal. simpl in Ha.
  induction Hl as [|x y l1 l2 Hxy Hl IH]; [done|]. simpl in Ha. apply andb_true_iff in Ha as [Hx Ha].
  f_equal; [by apply json_eq_scalar|auto].
Qed.

(** A dictionary of such values comes back with the same members. *)
Lemma json_eq_members d v : Forall (λ kv, flat kv.2 = true) d → json_eq (VDict d) v →
  ∃ d', v = VDict d' ∧ d ≡ₚ d'.
Proof.
  intros Hd Hv. inversion Hv as [| |d1 d2 d3 Hnd Hp Hm]; subst; [by exists d|].
  exists d3. split; [done|]. rewrite Hp. rewrite Hp in Hd. clear Hp Hv Hnd.
  apply reflexive_eq. induction Hm as [|[k x] [k' y] d2 d3 [Hk Hxy] Hm IH]; [done|].
  apply Forall_cons in Hd as [Hx Hd]. simpl in *. subst k'. by rewrite (json_eq_flat x y), IH.
Qed.

(** Members of a dictionary and of what it comes back as. *)
Lemma json_eq_get d v : dict_wf d → json_eq (VDict d) v → ∃ d', v = VDict d' ∧
  ∀ k, match dict_get k d, dict_get k d' with
       | Some x, Some y => json_eq x y
       | None, None => True
       | _, _ => False
       end.
Proof.
  intros Hd Hv. inversion Hv as [| |d1 d2 d3 Hnd Hp Hm]; subst.
  { exists d. split; [done|]. intros k. destruct (dict_get k d); [apply json_eq_refl|done]. }
  exists d3. split; [done|]. intros k. rewrite (dict_get_perm k d d2) by done. clear Hp Hnd Hv Hd.
  induction Hm as [|[k1 x] [k2 y] d2 d3 [Hk Hxy] Hm IH]; [done|]. simpl in *. subst k2.
  by case_decide.
Qed.

(** ** The clock of the server

    The timestamps of [DEFAULT now()] in tables that no clock of the publisher
    is compared with: the [i]-th one given out. *)
Class ServerClock := { server_now : nat → Z }.

(** ** Transactions

    An exception inside [with self._pg.transaction()] rolls the tables back;
    what was drawn from the platform stays drawn. *)
Definition transaction {DB V A} (m : M (DB * V) A) : M (DB * V) A := λ w,
  match m w with
  | (Ret a, w') => (Ret a, w')
  | (Raise e, w') => (Raise e, (w.1, w'.2))
  | (NoFuel, w') => (NoFuel, w')
  end.

(** One step of symbolic execution past a check of a parameter. *)
Lemma wp_param {W A B} (o : outcome A) P (k : A → M W B) Q w :
  pg_pure o P → (∀ a, o = Ret a → P a → wp (k a) Q w) →
  (∀ e, database_error e → Q (Raise e) w) → wp (lift o ≫= k) Q w.
Proof.
  intros Ho Hk He. apply wp_bind, wp_lift. destruct o as [a|e|]; cbn in *; [by apply Hk|auto|done].
Qed.

(** The effect of a statement or its refusal, by symbolic execution. *)
Lemma wp_effect {A Q} (m : M Q A) (q : Q) (effect : A → Q → Prop) :
  wp m (λ o w, match o with
               | Ret a => effect a w
               | Raise e => database_error e ∧ w = q
               | NoFuel => False
               end) q →
  effect_or_refusal database_error q effect (m q).
Proof. unfold wp. destruct (m q) as [[a|e|] w]; done. Qed.
