(* ===== verification/PostgresRetryQueue.v ===== *)
(** * Postgres retry queue ([runtime/postgres/retry_queue.py])

    The table [a2a_retry_queue] as a list of rows. The queue satisfies the
    [RetryQueue] laws, so the redelivery theorems hold over it. A claim locks
    the rows it picks until its statement commits; the second half of the file
    interleaves the claims of several workers with each other and with the
    other statements. *)

From S2P Require Import Prelude PyStr Value Errors Effects Models Cursor Canonical Contracts.
From S2P Require Import Postgres.
Open Scope Z_scope.

(** [a2a_retry_queue] *)
Record PostgresRetryQueue := mkPgQueue { queue_rows : list RetryItem }.

(** [create_schema()] on an empty database *)
Definition empty_pg_queue : PostgresRetryQueue := mkPgQueue [].

Definition has_retry_id (rid : string) (i : RetryItem) : bool := bool_decide (retry_id i = rid).
Definition due_row (now_ : Z) (i : RetryItem) : bool := next_retry_at i <=? now_.
Definition earlier (x y : RetryItem) : bool := next_retry_at x <=? next_retry_at y.

(** [INSERT ... ON CONFLICT (retry_id) DO NOTHING] *)
Definition insert_item (i : RetryItem) (rows : list RetryItem) : list RetryItem :=
  if existsb (has_retry_id (retry_id i)) rows then rows else rows ++ [i].

(** The parameters of the [INSERT]. *)
Definition item_params (i : RetryItem) : outcome unit :=
  _ ← text_param (retry_id i);
  _ ← text_param (ri_subscription_id i);
  _ ← text_param (ri_topic i);
  _ ← text_param (ri_cursor i);
  _ ← text_param (ri_event_id i);
  _ ← int4_param (ri_attempt i);
  _ ← opt_text_param (ri_last_error i);
  mret tt.

(** [enqueue(item)] *)
Definition pg_enqueue (i : RetryItem) : M PostgresRetryQueue unit :=
  _ ← lift (item_params i);
  modify (λ q, mkPgQueue (insert_item i (queue_rows q))).

Section Queue.
Context `{!RowOrder}.

(** The rows the [WITH due] query picks, past the ones others have locked:
    [SELECT retry_id ... ORDER BY next_retry_at FOR UPDATE SKIP LOCKED LIMIT n] *)
Definition due_ids (now_ : Z) (n : nat) (locked : list string) (rows : list RetryItem)
    : list string :=
  retry_id <$> take n (sort_by earlier (scan (List.filter
    (λ i, due_row now_ i && negb (bool_decide (retry_id i ∈ locked))) rows))).

(** [UPDATE ... SET next_retry_at = leased FROM due WHERE ...] *)
Definition lease_rows (leased : Z) (ids : list string) (rows : list RetryItem) : list RetryItem :=
  (λ i, if bool_decide (retry_id i ∈ ids) then with_next leased i else i) <$> rows.

(** [RETURNING ...] *)
Definition returned (ids : list string) (rows : list RetryItem) : list RetryItem :=
  scan (List.filter (λ i, bool_decide (retry_id i ∈ ids)) rows).

(** [claim_due(now, limit, lease_seconds)] *)
Definition pg_claim_due (now_ limit lease_seconds : Z) : M PostgresRetryQueue (list RetryItem) :=
  let leased := now_ + seconds lease_seconds in
  n ← lift (limit_param limit);
  q ← get_state;
  let ids := due_ids now_ n [] (queue_rows q) in
  let rows := lease_rows leased ids (queue_rows q) in
  _ ← put_state (mkPgQueue rows);
  mret (returned ids rows).

(** [complete(retry_id)] *)
Definition pg_complete (rid : string) : M PostgresRetryQueue unit :=
  _ ← lift (text_param rid);
  modify (λ q, mkPgQueue (List.filter (λ i, negb (has_retry_id rid i)) (queue_rows q))).

Definition reschedule_rows (rid : string) (t attempt : Z) (err : option string)
    (rows : list RetryItem) : list RetryItem :=
  (λ i, if has_retry_id rid i then rescheduled t attempt err i else i) <$> rows.

(** [reschedule(retry_id, next_retry_at, attempt, last_error)] *)
Definition pg_reschedule (rid : string) (t attempt : Z) (err : option string)
    : M PostgresRetryQueue unit :=
  _ ← lift (_ ← int4_param attempt; _ ← opt_text_param err; text_param rid);
  modify (λ q, mkPgQueue (reschedule_rows rid t attempt err (queue_rows q))).

(** [pending()] *)
Definition pg_pending : M PostgresRetryQueue (list RetryItem) :=
  gets (λ q, sort_by earlier (scan (queue_rows q))).

#[export] Instance postgres_retry_queue : RetryQueue PostgresRetryQueue := {|
  rq_enqueue := pg_enqueue;
  rq_claim_due := pg_claim_due;
  rq_complete := pg_complete;
  rq_reschedule := pg_reschedule;
  rq_pending := pg_pending;
|}.

(** ** The table as a map *)

(** [retry_id] is the primary key. *)
Definition unique_ids (rows : list RetryItem) : Prop := NoDup (retry_id <$> rows).

Definition row_of (rows : list RetryItem) (rid : string) : option RetryItem :=
  List.find (has_retry_id rid) rows.

Lemma row_of_spec rows rid i : unique_ids rows →
  row_of rows rid = Some i ↔ i ∈ rows ∧ retry_id i = rid.
Proof.
  unfold unique_ids, row_of, has_retry_id. induction rows as [|j rows IH]; simpl.
  { intros _. split; [done|]. by intros [Hi%elem_of_nil _]. }
  intros [Hj Hnd]%NoDup_cons. case_bool_decide as Ej.
  - split.
    + intros [= ->]. split; [left|done].
    + intros [[->|Hi]%elem_of_cons <-]; [done|]. exfalso. apply Hj. rewrite Ej.
      apply list_elem_of_fmap. by exists i.
  - rewrite IH by done. rewrite elem_of_cons. naive_solver.
Qed.

Lemma row_of_none rows rid : row_of rows rid = None ↔ rid ∉ retry_id <$> rows.
Proof.
  unfold row_of, has_retry_id. induction rows as [|j rows IH]; simpl.
  { split; [intros _ []%elem_of_nil|done]. }
  case_bool_decide as Ej.
  - split; [done|]. intros []. rewrite Ej. left.
  - rewrite IH, elem_of_cons. naive_solver.
Qed.

(** A statement that rewrites rows one by one and keeps their ids. *)
Lemma row_of_map (f : RetryItem → RetryItem) rows rid :
  (∀ i, retry_id (f i) = retry_id i) → row_of (f <$> rows) rid = f <$> row_of rows rid.
Proof.
  intros Hf. unfold row_of, has_retry_id. induction rows as [|j rows IH]; [done|].
  simpl. rewrite Hf. by case_bool_decide.
Qed.

Lemma unique_map (f : RetryItem → RetryItem) rows :
  (∀ i, retry_id (f i) = retry_id i) → unique_ids rows → unique_ids (f <$> rows).
Proof.
  intros Hf. unfold unique_ids. rewrite <- list_fmap_compose.
  by rewrite (list_fmap_ext (retry_id ∘ f) retry_id) by (intros; apply Hf).
Qed.

Lemma unique_filter (f : RetryItem → bool) rows : unique_ids rows → unique_ids (List.filter f rows).
Proof.
  unfold unique_ids. intros Hnd. eapply sublist_NoDup; [exact Hnd|]. apply fmap_sublist.
  induction rows as [|i rows IH]; [done|]. simpl. apply NoDup_cons in Hnd as [_ Hnd].
  destruct (f i); [by apply sublist_skip, IH|by apply sublist_cons, IH].
Qed.

Lemma row_of_insert i rows rid : row_of (insert_item i rows) rid =
  match row_of rows rid with
  | Some j => Some j
  | None => if decide (rid = retry_id i) then Some i else None
  end.
Proof.
  unfold insert_item, row_of. destruct (existsb _ rows) eqn:E.
  - destruct (find (has_retry_id rid) rows) eqn:Ef; [done|]. case_decide; [|done]. subst.
    apply existsb_exists in E as (j & Hj & Hid).
    by rewrite (find_none _ _ Ef j Hj) in Hid.
  - rewrite find_app. destruct (find _ rows); [done|]. simpl. unfold has_retry_id.
    case_bool_decide; case_decide; congruence.
Qed.

Lemma insert_unique i rows : unique_ids rows → unique_ids (insert_item i rows).
Proof.
  unfold unique_ids, insert_item. intros Hnd. destruct (existsb _ rows) eqn:E; [done|].
  rewrite fmap_app. apply NoDup_app. split; [done|]. split; [|apply NoDup_singleton].
  intros x Hx ->%list_elem_of_singleton. apply list_elem_of_fmap in Hx as (j & Ej & Hj).
  assert (existsb (has_retry_id (retry_id i)) rows = true) as Ht; [|congruence].
  apply existsb_exists. exists j. split; [by apply list_elem_of_In|].
  unfold has_retry_id. by rewrite bool_decide_true.
Qed.

Lemma row_of_delete rid rows x : unique_ids rows →
  row_of (List.filter (λ i, negb (has_retry_id rid i)) rows) x =
  if decide (x = rid) then None else row_of rows x.
Proof.
  intros Hnd. unfold row_of, has_retry_id. clear Hnd. induction rows as [|j rows IH]; simpl.
  { by case_decide. }
  destruct (decide (retry_id j = rid)) as [Ej|Ej].
  - rewrite bool_decide_true by done. cbn [negb]. rewrite IH. case_decide; [done|].
    rewrite bool_decide_false by congruence. done.
  - rewrite (bool_decide_false (retry_id j = rid)) by done. simpl. rewrite IH.
    case_bool_decide; case_decide; congruence.
Qed.

(** ** Claims *)

Lemma due_ids_elem now_ n locked rows rid :
  rid ∈ due_ids now_ n locked rows →
  ∃ i, i ∈ rows ∧ retry_id i = rid ∧ next_retry_at i ≤ now_ ∧ (rid ∉ locked).
Proof.
  unfold due_ids. rewrite list_elem_of_fmap. intros (i & -> & Hi).
  apply elem_of_take in Hi as (k & Hk & _). apply list_elem_of_lookup_2 in Hk.
  rewrite sort_by_perm, scan_elem, list_elem_of_In, List.filter_In, <- list_elem_of_In in Hk.
  destruct Hk as [Hin Hb]. apply andb_true_iff in Hb as [Hd Hl].
  apply negb_true_iff, bool_decide_eq_false in Hl. unfold due_row in Hd.
  exists i. split_and!; [done..|lia|done].
Qed.

Lemma due_ids_nodup now_ n locked rows : unique_ids rows → NoDup (due_ids now_ n locked rows).
Proof.
  intros Hnd. unfold due_ids. rewrite fmap_take.
  eapply sublist_NoDup; [|apply sublist_take].
  rewrite sort_by_perm, scan_perm. by apply unique_filter.
Qed.

Lemma due_ids_length now_ n locked rows : (length (due_ids now_ n locked rows) ≤ n)%nat.
Proof. unfold due_ids. rewrite length_fmap, length_take. lia. Qed.

Lemma lease_rows_ids leased ids rows : retry_id <$> lease_rows leased ids rows = retry_id <$> rows.
Proof.
  unfold lease_rows. rewrite <- list_fmap_compose. apply list_fmap_ext.
  intros _ i _. simpl. by case_bool_decide.
Qed.

Lemma lease_unique leased ids rows : unique_ids rows → unique_ids (lease_rows leased ids rows).
Proof. unfold unique_ids. by rewrite lease_rows_ids. Qed.

Lemma row_of_lease leased ids rows rid :
  row_of (lease_rows leased ids rows) rid =
  if decide (rid ∈ ids) then with_next leased <$> row_of rows rid else row_of rows rid.
Proof.
  unfold lease_rows. rewrite row_of_map by (intros i; by case_bool_decide).
  destruct (row_of rows rid) as [i|] eqn:Ei; simpl; [|by case_decide].
  apply find_some in Ei as [_ Hid%bool_decide_eq_true]. rewrite Hid.
  case_bool_decide; case_decide; done.
Qed.

Lemma returned_elem leased ids rows i :
  unique_ids rows → i ∈ returned ids (lease_rows leased ids rows) ↔
  ∃ j, row_of rows (retry_id i) = Some j ∧ retry_id i ∈ ids ∧ i = with_next leased j.
Proof.
  intros Hnd. unfold returned.
  rewrite scan_elem, list_elem_of_In, List.filter_In, <- list_elem_of_In, bool_decide_eq_true.
  assert (i ∈ lease_rows leased ids rows ↔ row_of (lease_rows leased ids rows) (retry_id i) = Some i)
    as ->.
  { rewrite row_of_spec by by apply lease_unique. tauto. }
  rewrite row_of_lease. split.
  - intros [Hr Hin]. rewrite decide_True in Hr by done.
    destruct (row_of rows (retry_id i)) as [j|]; [|done]. injection Hr as <-. by exists j.
  - intros (j & Hj & Hin & Hi). rewrite decide_True, Hj by done. simpl. by rewrite <- Hi.
Qed.

Lemma returned_nodup leased ids rows :
  unique_ids rows → NoDup (retry_id <$> returned ids (lease_rows leased ids rows)).
Proof.
  intros Hnd. unfold returned. rewrite scan_perm. by apply unique_filter, lease_unique.
Qed.

(** The ids of the returned rows are the ids picked. *)
Lemma returned_ids leased ids rows rid :
  unique_ids rows → (∀ x, x ∈ ids → is_Some (row_of rows x)) →
  rid ∈ retry_id <$> returned ids (lease_rows leased ids rows) ↔ rid ∈ ids.
Proof.
  intros Hnd Hids. rewrite list_elem_of_fmap. split.
  - intros (i & -> & Hi). by apply returned_elem in Hi as (j & _ & Hin & _).
  - intros Hin. destruct (Hids _ Hin) as [j Hj]. exists (with_next leased j).
    pose proof Hj as Hj'. apply row_of_spec in Hj' as [_ Hid]; [|done].
    split; [done|]. apply returned_elem; [done|]. exists j. simpl. by rewrite Hid.
Qed.

Lemma due_ids_stored now_ n locked rows x :
  unique_ids rows → x ∈ due_ids now_ n locked rows → is_Some (row_of rows x).
Proof.
  intros Hnd Hx. apply due_ids_elem in Hx as (i & Hi & Hid & _). exists i.
  by apply row_of_spec.
Qed.

(** A due row is picked, unless the limit is used up. *)
Lemma pg_due_or_full now_ n rows i :
  i ∈ rows → next_retry_at i ≤ now_ →
  retry_id i ∈ due_ids now_ n [] rows ∨ length (due_ids now_ n [] rows) = n.
Proof.
  intros Hi Hdue. unfold due_ids. rewrite length_fmap.
  destruct (take_all_or_full n (sort_by earlier (scan (List.filter
    (λ i, due_row now_ i && negb (bool_decide (retry_id i ∈ []))) rows))) i) as [Hin|Hfull];
    [| |by right].
  - rewrite sort_by_perm, scan_elem, list_elem_of_In, List.filter_In, <- list_elem_of_In.
    split; [done|]. unfold due_row. rewrite bool_decide_false by apply not_elem_of_nil. simpl. lia.
  - left. by apply list_elem_of_fmap_2.
Qed.

Lemma returned_length leased ids rows :
  unique_ids rows → (∀ x, x ∈ ids → is_Some (row_of rows x)) → NoDup ids →
  length (returned ids (lease_rows leased ids rows)) = length ids.
Proof.
  intros Hnd Hids Hn. rewrite <- (length_fmap retry_id). apply Permutation_length, NoDup_Permutation.
  - by apply returned_nodup.
  - done.
  - intros x. by apply returned_ids.
Qed.

(** ** The laws of the contract *)

(** A statement whose parameters are accepted has its effect. *)
Lemma statement {A} (o : outcome A) P (f : A → PostgresRetryQueue → PostgresRetryQueue)
    (effect : unit → PostgresRetryQueue → Prop) q :
  pg_pure o P → (∀ a, P a → effect tt (f a q)) →
  effect_or_refusal database_error q effect ((a ← lift o; modify (f a)) q).
Proof. intros Ho Hf. unfold mbind, M_bind, lift, modify. destruct o; cbn in *; auto. Qed.

Lemma item_params_spec i : pg_pure (item_params i) (λ _, True).
Proof.
  unfold item_params.
  repeat first [done | eapply pg_pure_bind;
    [first [apply text_param_spec|apply int4_param_spec|apply opt_text_param_spec]|intros ? _]].
Qed.

#[export] Program Instance postgres_retry_queue_laws : RetryQueueLaws PostgresRetryQueue := {|
  rq_inv q := unique_ids (queue_rows q);
  rq_item q := row_of (queue_rows q);
  rq_refuses := database_error;
|}.
Next Obligation.
  intros q i Hq. apply (statement _ (λ _, True)); [apply item_params_spec|]. intros _ _. cbn [queue_rows].
  split; [by apply insert_unique|]. rewrite row_of_insert, decide_True by done. split_and!.
  - destruct (row_of _ _); eauto.
  - by intros ->.
  - intros x Hx. rewrite row_of_insert, decide_False by done. by destruct (row_of _ _).
Qed.
Next Obligation.
  intros q rid Hq. eapply statement; [apply text_param_spec|]. intros _ _. cbn [queue_rows].
  split; [by apply unique_filter|]. intros x. by apply row_of_delete.
Qed.
Next Obligation.
  intros q rid t a err Hq. apply (statement _ (λ _, True)).
  { repeat (eapply pg_pure_bind; [first [apply int4_param_spec|apply opt_text_param_spec]|intros ? _]).
    pose proof (text_param_spec rid) as Ht. by destruct (text_param rid). }
  intros _ _. cbn [queue_rows]. unfold reschedule_rows.
  assert (∀ i, retry_id (if has_retry_id rid i then rescheduled t a err i else i) = retry_id i) as Hid
    by (intros i; by destruct (has_retry_id rid i)).
  split; [by apply unique_map|]. intros x. rewrite row_of_map by done.
  destruct (row_of (queue_rows q) x) as [i|] eqn:Ei; simpl; [|by case_decide].
  apply row_of_spec in Ei as [_ Ex]; [|done]. unfold has_retry_id. rewrite Ex.
  case_bool_decide; case_decide; congruence.
Qed.
Next Obligation.
  intros q now_ limit lease Hq Hlimit. unfold rq_claim_due, postgres_retry_queue, pg_claim_due.
  pose proof (limit_param_spec limit) as Hl. unfold mbind, M_bind, lift.
  destruct (limit_param limit) as [n|e|]; [|done|done]. cbn in Hl. destruct Hl as [-> _].
  cbn [get_state put_state mret M_ret effect_or_refusal queue_rows].
  set (ids := due_ids now_ (Z.to_nat limit) [] (queue_rows q)).
  assert (∀ x, x ∈ ids → is_Some (row_of (queue_rows q) x)) as Hids
    by (intros x; by apply due_ids_stored).
  pose proof (returned_nodup (now_ + seconds lease) ids _ Hq) as Hnd.
  split_and!; [by apply lease_unique|done| | | |].
  - assert (length (retry_id <$> returned ids (lease_rows (now_ + seconds lease) ids (queue_rows q)))
      ≤ length ids)%nat as Hle.
    { apply submseteq_length, NoDup_submseteq; [done|]. intros x Hx.
      by apply (returned_ids _ _ _ _ Hq Hids) in Hx. }
    rewrite length_fmap in Hle.
    pose proof (due_ids_length now_ (Z.to_nat limit) [] (queue_rows q)) as Hn.
    fold ids in Hn. lia.
  - intros i Hi. apply returned_elem in Hi as (j & Hj & Hin & Hi); [|done]. exists j.
    split; [done|]. split; [|done]. apply due_ids_elem in Hin as (k & Hk & Hid & Hdue & _).
    assert (row_of (queue_rows q) (retry_id i) = Some k) as Hk' by by apply row_of_spec.
    congruence.
  - intros x. rewrite row_of_lease. pose proof (returned_ids (now_ + seconds lease) ids _ x Hq Hids) as Hr.
    destruct (decide (x ∈ ids)); case_decide; tauto.
  - intros x i0 Hi0 Hdue. pose proof Hi0 as Hrow. apply row_of_spec in Hi0 as [Hin <-]; [|done].
    rewrite (returned_length (now_ + seconds lease) ids _ Hq Hids)
      by by apply due_ids_nodup.
    destruct (pg_due_or_full now_ (Z.to_nat limit) (queue_rows q) i0) as [Hd|Hfull];
      [done|done| |right; fold ids in Hfull; lia].
    left. by apply returned_ids.
Qed.
End Queue.

(** ** Several workers

    Between its start and its commit a claim holds row locks: other claims
    skip its rows, and a [DELETE] or [UPDATE] of one of them waits. A claim that
    breaks off is rolled back. *)

(** A claim that has picked and locked its rows and has not committed. *)
Record Claim := mkClaim {
  cl_worker : string;
  cl_ids : list string;
  cl_now : Z;
  cl_leased : Z;
}.

Record PgSystem := mkSystem { sys_rows : list RetryItem; sys_claims : list Claim }.

Definition locked_ids (cs : list Claim) : list string := cs ≫= cl_ids.

Inductive pg_event :=
| Locked (c : Claim)
| Claimed (c : Claim) (out : list RetryItem)
| RolledBack (c : Claim)
| Enqueued (i : RetryItem)
| Completed (rid : string)
| Rescheduled (rid : string) (t attempt : Z) (err : option string).

Section Workers.
Context `{!RowOrder}.

Inductive pg_step : PgSystem → pg_event → PgSystem → Prop :=
| step_lock rows cs w now_ n lease :
    (w ∉ cl_worker <$> cs) → 0 ≤ lease →
    let c := mkClaim w (due_ids now_ n (locked_ids cs) rows) now_ (now_ + seconds lease) in
    pg_step (mkSystem rows cs) (Locked c) (mkSystem rows (c :: cs))
| step_claimed rows cs1 c cs2 :
    let rows' := lease_rows (cl_leased c) (cl_ids c) rows in
    pg_step (mkSystem rows (cs1 ++ c :: cs2)) (Claimed c (returned (cl_ids c) rows'))
      (mkSystem rows' (cs1 ++ cs2))
| step_rolled_back rows cs1 c cs2 :
    pg_step (mkSystem rows (cs1 ++ c :: cs2)) (RolledBack c) (mkSystem rows (cs1 ++ cs2))
| step_enqueued rows cs i :
    pg_step (mkSystem rows cs) (Enqueued i) (mkSystem (insert_item i rows) cs)
| step_completed rows cs rid :
    (rid ∉ locked_ids cs) →
    pg_step (mkSystem rows cs) (Completed rid)
      (mkSystem (List.filter (λ i, negb (has_retry_id rid i)) rows) cs)
| step_rescheduled rows cs rid t attempt err :
    (rid ∉ locked_ids cs) →
    pg_step (mkSystem rows cs) (Rescheduled rid t attempt err)
      (mkSystem (reschedule_rows rid t attempt err rows) cs).

Inductive pg_runs : PgSystem → list pg_event → PgSystem → Prop :=
| runs_nil s : pg_runs s [] s
| runs_cons s e s1 tr s2 : pg_step s e s1 → pg_runs s1 tr s2 → pg_runs s (e :: tr) s2.

Lemma pg_runs_app s tr1 tr2 s2 :
  pg_runs s (tr1 ++ tr2) s2 → ∃ s1, pg_runs s tr1 s1 ∧ pg_runs s1 tr2 s2.
Proof.
  revert s. induction tr1 as [|e tr1 IH]; intros s Hr; [by exists s; split; [constructor|]|].
  inversion Hr as [|? ? s1 ? ? Hs Hrest]; subst. apply IH in Hrest as (s' & ? & ?).
  exists s'. split; [by econstructor|done].
Qed.

(** A single statement is a claim that nothing interrupts. *)
Lemma claim_is_lock_then_commit now_ limit lease q out q' w :
  0 ≤ lease → pg_claim_due now_ limit lease q = (Ret out, q') →
  ∃ c, pg_runs (mkSystem (queue_rows q) []) [Locked c; Claimed c out]
         (mkSystem (queue_rows q') []) ∧ cl_worker c = w ∧ cl_now c = now_.
Proof.
  intros Hl Hrun. unfold pg_claim_due, mbind, M_bind, lift in Hrun.
  destruct (limit_param limit) as [n|e|]; [|done|done].
  cbn [get_state put_state mret M_ret] in Hrun. injection Hrun as <- <-. cbn [queue_rows].
  set (c := mkClaim w (due_ids now_ n [] (queue_rows q)) now_ (now_ + seconds lease)).
  exists c. split; [|done]. eapply runs_cons.
  { apply (step_lock (queue_rows q) [] w now_ n lease); [by intros []%elem_of_nil|done]. }
  eapply runs_cons; [apply (step_claimed (queue_rows q) [] c [])|constructor].
Qed.

(** The rows in the hands of claims are pairwise different and stored. *)
Record sys_inv (s : PgSystem) : Prop := {
  si_unique : unique_ids (sys_rows s);
  si_disjoint : NoDup (locked_ids (sys_claims s));
  si_stored : ∀ rid, rid ∈ locked_ids (sys_claims s) → is_Some (row_of (sys_rows s) rid);
}.

Lemma locked_elem rid cs : rid ∈ locked_ids cs ↔ ∃ c, c ∈ cs ∧ rid ∈ cl_ids c.
Proof. unfold locked_ids. rewrite list_elem_of_bind. naive_solver. Qed.

Lemma locked_split cs1 c cs2 : locked_ids (cs1 ++ c :: cs2) ≡ₚ cl_ids c ++ locked_ids (cs1 ++ cs2).
Proof.
  unfold locked_ids. rewrite !bind_app, bind_cons. by rewrite Permutation_app_swap_app.
Qed.

Lemma pg_step_inv s e s' : sys_inv s → pg_step s e s' → sys_inv s'.
Proof.
  intros [Hu Hd Hs] Hstep. destruct Hstep as
    [rows cs w now_ n lease Hw Hl c|rows cs1 c cs2 rows'|rows cs1 c cs2|rows cs i
    |rows cs rid Hf|rows cs rid t a err Hf]; cbn [sys_rows sys_claims] in *.
  - assert (∀ x, x ∈ cl_ids c → is_Some (row_of rows x) ∧ x ∉ locked_ids cs) as Hc.
    { intros x Hx. change (x ∈ due_ids now_ n (locked_ids cs) rows) in Hx.
      split; [by eapply due_ids_stored|]. by apply due_ids_elem in Hx as (_ & _ & _ & _ & ?). }
    split; cbn [sys_rows sys_claims]; [done| |].
    + change (locked_ids (c :: cs)) with (cl_ids c ++ locked_ids cs). apply NoDup_app.
      split; [by apply due_ids_nodup|]. split; [|done]. intros x Hx. by apply Hc.
    + intros x. change (locked_ids (c :: cs)) with (cl_ids c ++ locked_ids cs).
      rewrite elem_of_app. intros [Hx|Hx]; [by apply Hc|by apply Hs].
  - rewrite locked_split in Hd. apply NoDup_app in Hd as (_ & _ & Hd).
    split; cbn [sys_rows sys_claims]; [by apply lease_unique|done|].
    intros x Hx. unfold rows'. rewrite row_of_lease.
    destruct (Hs x) as [i Hi]; [rewrite locked_split; set_solver|]. rewrite Hi. by case_decide.
  - rewrite locked_split in Hd. apply NoDup_app in Hd as (_ & _ & Hd).
    split; cbn [sys_rows sys_claims]; [done|done|].
    intros x Hx. apply Hs. rewrite locked_split. set_solver.
  - split; cbn [sys_rows sys_claims]; [by apply insert_unique|done|].
    intros x Hx. rewrite row_of_insert. by destruct (Hs x Hx) as [j ->].
  - split; cbn [sys_rows sys_claims]; [by apply unique_filter|done|].
    intros x Hx. rewrite row_of_delete by done. rewrite decide_False by congruence. by apply Hs.
  - assert (∀ i, retry_id (if has_retry_id rid i then rescheduled t a err i else i) = retry_id i)
      as Hid by (intros i; by destruct (has_retry_id rid i)).
    split; cbn [sys_rows sys_claims]; [by apply unique_map|done|].
    intros x Hx. unfold reschedule_rows. rewrite row_of_map by done.
    destruct (Hs x Hx) as [i ->]. eauto.
Qed.

Lemma pg_runs_inv s tr s' : sys_inv s → pg_runs s tr s' → sys_inv s'.
Proof. intros Hs Hr. induction Hr; eauto using pg_step_inv. Qed.

(** From its commit on, [rid] is leased until [t]. *)
Record leased_until (rid : string) (t : Z) (s : PgSystem) : Prop := {
  lu_row : ∃ i, row_of (sys_rows s) rid = Some i ∧ t ≤ next_retry_at i;
  lu_claims : Forall (λ c, rid ∈ cl_ids c → t ≤ cl_now c ≤ cl_leased c) (sys_claims s);
}.

(** The statements that end a lease early. *)
Definition releases (rid : string) (e : pg_event) : bool :=
  match e with
  | Completed r | Rescheduled r _ _ _ => bool_decide (r = rid)
  | _ => false
  end.

Lemma leased_step rid t s e s' :
  sys_inv s → leased_until rid t s → releases rid e = false → pg_step s e s' →
  leased_until rid t s'.
Proof.
  intros Hinv [(i & Hi & Ht) Hcs] Hrel Hstep. pose proof (si_unique _ Hinv) as Hu.
  destruct Hstep as
    [rows cs w now_ n lease Hw Hl c|rows cs1 c cs2 rows'|rows cs1 c cs2|rows cs j
    |rows cs r Hf|rows cs r t' a err Hf]; cbn [sys_rows sys_claims] in *.
  - split; [by exists i|]. constructor; [|done]. intros Hx.
    change (rid ∈ due_ids now_ n (locked_ids cs) rows) in Hx.
    apply due_ids_elem in Hx as (k & Hk & Hid & Hdue & _).
    assert (row_of rows rid = Some k) as Hk' by by apply row_of_spec.
    unfold c, seconds. simpl. assert (k = i) by congruence. subst k. lia.
  - rewrite Forall_app, Forall_cons in Hcs. destruct Hcs as (Hc1 & Hc & Hc2).
    split; [|by apply Forall_app]. cbn [sys_rows]. unfold rows'. rewrite row_of_lease, Hi.
    case_decide as Hx; [|by exists i]. specialize (Hc Hx). eexists. split; [done|]. simpl. lia.
  - rewrite Forall_app, Forall_cons in Hcs. destruct Hcs as (Hc1 & _ & Hc2).
    split; [by exists i|by apply Forall_app].
  - split; [|done]. cbn [sys_rows]. exists i. by rewrite row_of_insert, Hi.
  - split; [|done]. cbn [sys_rows]. exists i. rewrite row_of_delete by done.
    simpl in Hrel. apply bool_decide_eq_false in Hrel. by rewrite decide_False.
  - split; [|done]. cbn [sys_rows]. exists i. split; [|done]. unfold reschedule_rows.
    rewrite row_of_map by (intros k; by destruct (has_retry_id r k)). rewrite Hi. simpl.
    apply row_of_spec in Hi as [_ Hid]; [|done]. unfold has_retry_id. rewrite Hid.
    simpl in Hrel. apply bool_decide_eq_false in Hrel. by rewrite bool_decide_false.
Qed.

Lemma leased_runs rid t s tr s' :
  sys_inv s → leased_until rid t s → Forall (λ e, releases rid e = false) tr →
  pg_runs s tr s' → leased_until rid t s'.
Proof.
  intros Hs Hl Htr Hr. induction Hr; [done|]. apply Forall_cons in Htr as [He Htr].
  eauto using pg_step_inv, leased_step.
Qed.

(** The item of a commit is leased by it. *)
Lemma claimed_leases s c out s' i :
  sys_inv s → pg_step s (Claimed c out) s' → i ∈ out →
  next_retry_at i = cl_leased c ∧ retry_id i ∈ cl_ids c ∧ leased_until (retry_id i) (cl_leased c) s'.
Proof.
  intros Hinv Hstep Hi. pose proof (si_unique _ Hinv) as Hu. pose proof (si_disjoint _ Hinv) as Hd.
  inversion Hstep as [|rows cs1 c' cs2 rows' Hc Hout Hs'| | | |]; subst. cbn [sys_rows sys_claims] in *.
  apply returned_elem in Hi as (j & Hj & Hin & Hi); [|done].
  split; [by rewrite Hi|]. split; [done|]. split; cbn [sys_rows sys_claims].
  - exists (with_next (cl_leased c) j). unfold rows'. rewrite row_of_lease, decide_True, Hj by done.
    split; [done|]. simpl. lia.
  - apply Forall_forall. intros c2 Hc2 Hin2. exfalso.
    rewrite locked_split in Hd. apply NoDup_app in Hd as (_ & Hd & _).
    apply (Hd _ Hin), locked_elem. by exists c2.
Qed.

(** C23: Workers never share an item. Whatever claims, enqueues, completions and
    reschedules of any number of workers are interleaved, with claims under way
    at the same time and some of them broken off: the items of two claims in
    progress are different, and of two commits that return the same item the
    second was made for a time at which the lease of the first had run out,
    unless the item was completed or rescheduled in between. *)
Theorem workers_never_share s0 tr1 c1 out1 mid c2 out2 s i1 i2 :
  unique_ids (sys_rows s0) → sys_claims s0 = [] →
  pg_runs s0 (tr1 ++ Claimed c1 out1 :: mid ++ [Claimed c2 out2]) s →
  NoDup (locked_ids (sys_claims s)) ∧
  (i1 ∈ out1 → i2 ∈ out2 → retry_id i2 = retry_id i1 →
   Forall (λ e, releases (retry_id i1) e = false) mid →
   next_retry_at i1 = cl_leased c1 ∧ cl_leased c1 ≤ cl_now c2).
Proof.
  intros Hu Hc Hr.
  assert (sys_inv s0) as H0.
  { split; [done|by rewrite Hc; constructor|]. rewrite Hc. by intros x Hx%elem_of_nil. }
  split; [by eapply si_disjoint, pg_runs_inv|]. intros Hi1 Hi2 Hid Hmid.
  apply pg_runs_app in Hr as (sa & Ha & Hr). assert (sys_inv sa) as Hia by by eapply pg_runs_inv.
  inversion Hr as [|? ? sb ? ? Hb Hr']; subst.
  destruct (claimed_leases _ _ _ _ _ Hia Hb Hi1) as (Hn1 & Hin1 & Hl).
  assert (sys_inv sb) as Hib by by eapply pg_step_inv.
  apply pg_runs_app in Hr' as (sc & Hm & Hr'). assert (sys_inv sc) as Hic by by eapply pg_runs_inv.
  destruct (leased_runs _ _ _ _ _ Hib Hl Hmid Hm) as [_ Hcs].
  inversion Hr' as [|? ? sd ? ? Hd _]; subst. split; [done|].
  destruct (claimed_leases _ _ _ _ _ Hic Hd Hi2) as (_ & Hin2 & _).
  inversion Hd as [|rows cs1 c' cs2 rows' Hc' Hout Hs'| | | |]; subst. cbn [sys_claims] in Hcs.
  apply Forall_app in Hcs as [_ Hcs]. apply Forall_cons in Hcs as [Hcc _].
  rewrite Hid in Hin2. by apply Hcc.
Qed.
End Workers.

(** ** Two workers

    The first picks the earliest item; the second, at the same time, skips it
    and picks the other; when both leases have run out the second worker takes
    over the item the first never completed. *)
#[local] Existing Instance insertion_order.

Definition backlog (rid : string) (t : Z) : RetryItem :=
  mkRetryItem rid "sub_1" "orders" "orders:0000000000000000" "evt" 1 t None.
Definition table_0 : list RetryItem := [backlog "a" 3; backlog "b" 7].
Definition claim_1 : Claim := mkClaim "w1" (due_ids 10 1 [] table_0) 10 (10 + seconds 60).
Definition claim_2 : Claim :=
  mkClaim "w2" (due_ids 11 5 (locked_ids [claim_1]) table_0) 11 (11 + seconds 60).
Definition table_1 : list RetryItem := lease_rows (cl_leased claim_1) (cl_ids claim_1) table_0.
Definition table_2 : list RetryItem := lease_rows (cl_leased claim_2) (cl_ids claim_2) table_1.
Definition claim_3 : Claim :=
  mkClaim "w2" (due_ids (12 + seconds 60) 5 (locked_ids []) table_2) (12 + seconds 60)
    (12 + seconds 60 + seconds 60).
Definition table_3 : list RetryItem := lease_rows (cl_leased claim_3) (cl_ids claim_3) table_2.

Definition between : list pg_event :=
  [Claimed claim_2 (returned (cl_ids claim_2) table_2); Locked claim_3].

Lemma two_workers :
  pg_runs (mkSystem table_0 [])
    ([Locked claim_1; Locked claim_2] ++ Claimed claim_1 (returned (cl_ids claim_1) table_1) ::
     between ++ [Claimed claim_3 (returned (cl_ids claim_3) table_3)])
    (mkSystem table_3 []).
Proof.
  eapply runs_cons; [apply (step_lock table_0 [] "w1" 10 1 60)|]; [by intros []%elem_of_nil|done|].
  eapply runs_cons; [apply (step_lock table_0 [claim_1] "w2" 11 5 60)|];
    [by intros [=]%list_elem_of_singleton|done|].
  eapply runs_cons; [apply (step_claimed table_0 [claim_2] claim_1 [])|].
  eapply runs_cons; [apply (step_claimed table_1 [] claim_2 [])|].
  eapply runs_cons; [apply (step_lock table_2 [] "w2" (12 + seconds 60) 5 60)|];
    [by intros []%elem_of_nil|done|].
  eapply runs_cons; [apply (step_claimed table_2 [] claim_3 [])|constructor].
Qed.

Lemma workers_never_share_witness :
  cl_ids claim_1 = ["a"%string] ∧ cl_ids claim_2 = ["b"%string] ∧ cl_ids claim_3 = ["a"%string; "b"%string] ∧
  cl_leased claim_1 ≤ cl_now claim_3.
Proof.
  split; [reflexivity|]. split; [reflexivity|]. split; [reflexivity|].
  refine (proj2 (proj2 (workers_never_share (mkSystem table_0 []) _ _ _ between claim_3 _ _
    (with_next (cl_leased claim_1) (backlog "a" 3)) (with_next (cl_leased claim_3)
      (with_next (cl_leased claim_1) (backlog "a" 3))) _ eq_refl two_workers) _ _ _ _)).
  - apply (bool_decide_unpack _). vm_compute. exact I.
  - left.
  - left.
  - reflexivity.
  - repeat constructor.
Defined.
