(* ===== verification/PostgresEventStore.v ===== *)
(** * Postgres event store ([runtime/postgres/event_store.py])

    The tables [a2a_event_topics] and [a2a_events] as lists of rows, every
    statement as a function on them, and the store's operations as the sequence
    of statements the code issues. The rows of a topic, in the order of their
    cursors, are the log of the [EventStore] contract, whose laws the store
    satisfies; the last part interleaves the transactions of concurrent
    appends. The clock of the server is the platform's. *)

From S2P Require Import Prelude PyStr Value Errors Effects Models Cursor Canonical Json Contracts.
From S2P Require Import Postgres.
Open Scope Z_scope.

(** [topic.model_dump(by_alias=True, mode="json")] *)
Definition topic_config (t : Topic) : list (string * value) :=
  [("name", VStr (name t)); ("description", VStr (description t));
   ("schemaUrl", match schema_url t with Some u => VStr u | None => VNone end);
   ("retentionSeconds", VInt (retention_seconds t)); ("replay", VBool (replay t));
   ("selectorTypes", VList (VStr <$> selector_types t));
   ("filterableFields",
     match filterable_fields t with Some fs => VList (VStr <$> fs) | None => VNone end);
   ("deliveryModes", VList ((λ m, VStr (mode_value m)) <$> delivery_modes t))]%string.

(** [Topic.model_validate]; what pydantic guarantees is that the members of a
    dump, in any order, give the model back. *)
Class TopicModel := {
  validate_topic : value → outcome Topic;
  validate_topic_dump : ∀ t v, json_eq (VDict (topic_config t)) v → validate_topic v = Ret t;
}.

(** A validator that reads the members of a dump, for examples. *)
Section ByMembers.
Definition text_of (v : value) : option string := match v with VStr s => Some s | _ => None end.
Definition texts_of (v : value) : option (list string) :=
  match v with VList l => mapM text_of l | _ => None end.
Definition opt_of {A} (f : value → option A) (v : value) : option (option A) :=
  match v with VNone => Some None | _ => Some <$> f v end.
Definition mode_of (s : string) : option DeliveryMode :=
  if bool_decide (s = mode_value WEBHOOK) then Some WEBHOOK
  else if bool_decide (s = mode_value A2A_MESSAGE) then Some A2A_MESSAGE else None.

Definition int_of (v : value) : option Z := match v with VInt n => Some n | _ => None end.
Definition bool_of (v : value) : option bool := match v with VBool b => Some b | _ => None end.
Definition member {A} (f : value → option A) (k : string) (d : list (string * value)) : option A :=
  match dict_get k d with Some v => f v | None => None end.

Definition topic_by_members (d : list (string * value)) : option Topic :=
  n ← member text_of "name" d;
  descr ← member text_of "description" d;
  schema ← member (opt_of text_of) "schemaUrl" d;
  keep ← member int_of "retentionSeconds" d;
  re ← member bool_of "replay" d;
  kinds ← member texts_of "selectorTypes" d;
  fields ← member (opt_of texts_of) "filterableFields" d;
  values ← member texts_of "deliveryModes" d;
  modes ← mapM mode_of values;
  mret (mkTopic n descr schema keep re kinds fields modes).

Lemma texts_of_list {A} (f : A → string) l : texts_of (VList ((λ x, VStr (f x)) <$> l)) = Some (f <$> l).
Proof. simpl. induction l as [|x l IH]; [done|]. cbn. by rewrite IH. Qed.

Lemma texts_of_texts l : texts_of (VList (VStr <$> l)) = Some l.
Proof. transitivity (Some (id <$> l)); [apply (texts_of_list id)|by rewrite list_fmap_id]. Qed.

Lemma modes_of_list l : mapM mode_of (mode_value <$> l) = Some l.
Proof. induction l as [|[] l IH]; [done|cbn; by rewrite IH..]. Qed.

Lemma topic_config_wf t : dict_wf (topic_config t).
Proof. apply (bool_decide_unpack _). by vm_compute. Qed.

Lemma topic_config_flat t : Forall (λ kv, flat kv.2 = true) (topic_config t).
Proof.
  assert (∀ A (f : A → string) l, forallb is_scalar ((λ x, VStr (f x)) <$> l) = true) as Hl
    by (intros A f l; induction l; done).
  unfold topic_config. repeat (apply Forall_cons; split); try done; simpl; try apply Hl.
  - by destruct (schema_url t).
  - destruct (filterable_fields t); [|done]. simpl. apply (Hl string id).
Qed.

Lemma topic_by_members_dump t : topic_by_members (topic_config t) = Some t.
Proof.
  unfold topic_by_members.
  change (member text_of "name" (topic_config t)) with (Some (name t)).
  change (member text_of "description" (topic_config t)) with (Some (description t)).
  change (member int_of "retentionSeconds" (topic_config t)) with (Some (retention_seconds t)).
  change (member bool_of "replay" (topic_config t)) with (Some (replay t)).
  replace (member (opt_of text_of) "schemaUrl" (topic_config t)) with (Some (schema_url t))
    by (unfold member; simpl; by destruct (schema_url t)).
  replace (member (opt_of texts_of) "filterableFields" (topic_config t))
    with (Some (filterable_fields t)).
  2:{ change (Some (filterable_fields t) = opt_of texts_of
        match filterable_fields t with Some fs => VList (VStr <$> fs) | None => VNone end).
      destruct (filterable_fields t); [|done]. unfold opt_of. by rewrite texts_of_texts. }
  change (member texts_of "selectorTypes" (topic_config t))
    with (texts_of (VList (VStr <$> selector_types t))).
  change (member texts_of "deliveryModes" (topic_config t))
    with (texts_of (VList ((λ m, VStr (mode_value m)) <$> delivery_modes t))).
  rewrite texts_of_texts, (texts_of_list mode_value). cbn [mbind option_bind].
  rewrite modes_of_list. by destruct t.
Qed.
End ByMembers.

Definition validate_members (v : value) : outcome Topic :=
  match v with
  | VDict d => match topic_by_members d with
               | Some t => mret t
               | None => Raise (ValueError "ValidationError")
               end
  | _ => Raise (ValueError "ValidationError")
  end.

#[program] Definition topic_members : TopicModel := {| validate_topic := validate_members |}.
Next Obligation.
  intros t v Hv. destruct (json_eq_members _ _ (topic_config_flat t) Hv) as (d & -> & Hp). simpl.
  assert (topic_by_members d = topic_by_members (topic_config t)) as ->.
  { unfold topic_by_members, member. by rewrite <- !(dict_get_perm _ _ _ (topic_config_wf t) Hp). }
  by rewrite topic_by_members_dump.
Qed.

(** [a2a_event_topics] *)
Record TopicRow := mkTopicRow {
  tr_topic : string;
  tr_schema_url : option string;
  tr_retention_seconds : Z;
  tr_replay_enabled : bool;
  tr_config : value;
  tr_next_offset : Z;
  tr_created_at : Z;
}.

(** The tables; a row of [a2a_events] is an [EventRecord]. *)
Record PostgresEventStore := mkPgEvents {
  topic_rows : list TopicRow;
  event_rows : list EventRecord;
}.

(** [create_schema()] on an empty database *)
Definition empty_pg_events : PostgresEventStore := mkPgEvents [] [].

Definition is_topic (t : string) (r : TopicRow) : bool := bool_decide (tr_topic r = t).
Definition in_topic (t : string) (r : EventRecord) : bool := bool_decide (ev_topic r = t).
Definition created_earlier (x y : TopicRow) : bool := tr_created_at x <=? tr_created_at y.

(** [SELECT ... FROM a2a_event_topics WHERE topic = t] *)
Definition topic_row (t : string) (s : PostgresEventStore) : option TopicRow :=
  List.find (is_topic t) (topic_rows s).

(** [INSERT ... ON CONFLICT (topic) DO NOTHING] *)
Definition insert_topic (r : TopicRow) (s : PostgresEventStore) : PostgresEventStore :=
  if existsb (is_topic (tr_topic r)) (topic_rows s) then s
  else mkPgEvents (topic_rows s ++ [r]) (event_rows s).

Definition with_next_offset (n : Z) (r : TopicRow) : TopicRow :=
  mkTopicRow (tr_topic r) (tr_schema_url r) (tr_retention_seconds r) (tr_replay_enabled r)
    (tr_config r) n (tr_created_at r).

(** [UPDATE a2a_event_topics SET next_offset = n WHERE topic = t] *)
Definition set_next_offset (t : string) (n : Z) (s : PostgresEventStore) : PostgresEventStore :=
  mkPgEvents ((λ r, if is_topic t r then with_next_offset n r else r) <$> topic_rows s)
    (event_rows s).

Section Operations.
Context `{!Platform, !RowOrder, !Collation, !JsonbColumn, !TopicModel}.
Local Abbreviation ST := (M (PostgresEventStore * Env)).

(** A draw from the platform inside a store operation. *)
Definition on_platform {A} (m : M Env A) : ST A := zoom snd (λ v s, (s.1, v)) m.

(** [declare_topic(topic)] *)
Definition pg_declare_topic (t : Topic) : ST unit :=
  _ ← lift (text_param (name t));
  _ ← lift (opt_text_param (schema_url t));
  _ ← lift (int4_param (retention_seconds t));
  config ← lift (jsonb (VDict (topic_config t)));
  created ← on_platform now;
  modify (λ s, (insert_topic (mkTopicRow (name t) (schema_url t) (retention_seconds t) (replay t)
                                config 0 created) s.1, s.2)).

(** [get_topic(name)] *)
Definition pg_get_topic (n : string) : ST Topic :=
  _ ← lift (text_param n);
  row ← gets (λ s, topic_row n s.1);
  match row with
  | None => raise (topic_not_found n)
  | Some r => lift (validate_topic (tr_config r))
  end.

(** [topics()] *)
Definition pg_topics : ST (list Topic) :=
  rows ← gets (λ s, sort_by created_earlier (scan (topic_rows s.1)));
  lift (sequence (map (λ r, validate_topic (tr_config r)) rows)).

(** [_require_topic(topic)] *)
Definition require_topic (t : string) : ST unit := _ ← pg_get_topic t; mret tt.

(** [INSERT INTO a2a_events ...], with its key constraints. *)
Definition insert_event (r : EventRecord) : ST unit :=
  _ ← lift (text_param (event_id r));
  _ ← lift (text_param (ev_topic r));
  _ ← lift (text_param (ev_cursor r));
  _ ← lift (opt_text_param (subject r));
  _ ← lift (text_param (event_type r));
  _ ← lift (text_param (source r));
  payload ← lift (jsonb (VDict (data r)));
  s ← gets fst;
  if existsb (λ r', bool_decide (event_id r' = event_id r) || bool_decide (ev_cursor r' = ev_cursor r))
       (event_rows s)
  then raise (pg_error "errors.UniqueViolation")
  else if negb (existsb (is_topic (ev_topic r)) (topic_rows s))
  then raise (pg_error "errors.ForeignKeyViolation")
  else match payload with
       | VDict d => modify (λ s, (mkPgEvents (topic_rows s.1) (event_rows s.1 ++ [with_data d r]), s.2))
       | _ => raise (Unmodelled "a JSON object that comes back as something else")
       end.

(** [int(stored_row[0]) if stored_row else 0] *)
Definition stored_offset (t : string) (s : PostgresEventStore) : Z :=
  match topic_row t s with Some r => tr_next_offset r | None => 0 end.

(** The offset of the next event: the stored counter, or the number of rows if
    that is larger. *)
Definition offset_from (stored : Z) (t : string) (s : PostgresEventStore) : Z :=
  Z.max stored (Z.of_nat (length (List.filter (in_topic t) (event_rows s)))).
Definition allocate (t : string) (s : PostgresEventStore) : Z := offset_from (stored_offset t s) t s.

(** The body of the transaction of [append], under the advisory lock. *)
Definition append_body (topic event_type source : string) (data : list (string * value))
    (subject : option string) (event_id content_hash : string) : ST EventRecord :=
  created_at ← on_platform now;
  offset ← gets (λ s, allocate topic s.1);
  event_cursor ← lift (encode topic offset);
  let record := mkEventRecord event_id topic event_cursor event_type source data subject
                  created_at content_hash in
  _ ← insert_event record;
  _ ← lift (int8_param (offset + 1));
  _ ← modify (λ s, (set_next_offset topic (offset + 1) s.1, s.2));
  mret record.

(** [append(topic, event_type, source, data, subject)] *)
Definition pg_append (topic event_type source : string) (data : list (string * value))
    (subject : option string) : ST EventRecord :=
  _ ← require_topic topic;
  event_id ← on_platform new_event_id;
  text ← lift (canonicalize (VDict data));
  let content_hash := "sha256:" +:+ sha256_hexdigest text in
  transaction (append_body topic event_type source data subject event_id content_hash).

(** [count(topic)] *)
Definition pg_count (topic : string) : ST Z :=
  _ ← lift (text_param topic);
  gets (λ s, stored_offset topic s.1).

(** [created_at >= now() - make_interval(secs => retention)] *)
Definition retained (horizon : option Z) (r : EventRecord) : bool :=
  match horizon with Some h => h <=? ev_created_at r | None => true end.

(** The horizon of a statement for a retention of [n] seconds. *)
Definition horizon_of (n : Z) : ST (option Z) :=
  if n <=? 0 then mret None else t ← on_platform now; mret (Some (t - seconds n)).

(** The body of the loop of [compact]: [cur.rowcount] of the [DELETE]. *)
Definition pg_compact_one (n : string) : ST Z :=
  T ← pg_get_topic n;
  horizon ← horizon_of (retention_seconds T);
  s ← gets fst;
  let rows := List.filter (λ r, negb (in_topic n r) || retained horizon r) (event_rows s) in
  _ ← modify (λ s, (mkPgEvents (topic_rows s.1) rows, s.2));
  mret (Z.of_nat (length (event_rows s)) - Z.of_nat (length rows)).

(** [compact(topic)] *)
Definition pg_compact (topic : option string) : ST Z :=
  names ← match topic with
          | Some t => mret [t]
          | None => map name <$> pg_topics
          end;
  removed ← map_m pg_compact_one names;
  mret (foldr Z.add 0 removed).

(** [oldest_available_cursor(topic)] *)
Definition pg_oldest_available_cursor (topic : string) : ST (option string) :=
  T ← pg_get_topic topic;
  horizon ← horizon_of (retention_seconds T);
  gets (λ s, text_min (ev_cursor <$>
    List.filter (λ r, in_topic topic r && retained horizon r) (event_rows s.1))).

(** [latest_cursor(topic)] *)
Definition pg_latest_cursor (topic : string) : ST string :=
  _ ← lift (text_param topic);
  newest ← gets (λ s, text_max (ev_cursor <$> List.filter (in_topic topic) (event_rows s.1)));
  match newest with
  | Some c => mret c
  | None => n ← pg_count topic; lift (encode topic (Z.max (n - 1) 0))
  end.

(** The lower bound of [read]: the position is checked as an offset, but
    compared with the oldest cursor as a text. *)
Definition pg_read_start (topic : string) (from_cursor : option string) : ST (option string) :=
  match from_cursor with
  | None => mret None
  | Some c =>
      if bool_decide (c = EARLIEST) then mret None else
      _ ← lift (offset_for topic c);
      oldest ← pg_oldest_available_cursor topic;
      _ ← lift (match oldest with
                | Some o => guard_else (negb (str_ltb c o)) (cursor_expired c o)
                | None => mret tt
                end);
      mret (Some c)
  end.

(** [cursor > start AND cursor <= to] *)
Definition in_bounds (start to : option string) (r : EventRecord) : bool :=
  match start with Some c => negb (text_leb (ev_cursor r) c) | None => true end &&
  match to with Some c => text_leb (ev_cursor r) c | None => true end.

Definition cursor_leb (x y : EventRecord) : bool := text_leb (ev_cursor x) (ev_cursor y).

(** [SELECT ... WHERE ... ORDER BY cursor ASC LIMIT n] *)
Definition select_events (topic : string) (start to : option string) (horizon : option Z)
    (n : nat) (s : PostgresEventStore) : list EventRecord :=
  take n (sort_by cursor_leb (scan (List.filter
    (λ r, in_topic topic r && (in_bounds start to r && retained horizon r)) (event_rows s)))).

(** The page of the rows fetched, one more than it holds if there are. *)
Definition page_of_rows (limit : Z) (rows : list EventRecord)
    : outcome (list EventRecord * option string) :=
  let records := py_slice 0 limit rows in
  if limit <? Z.of_nat (length rows) then
    match last records with
    | Some r => mret (records, Some (ev_cursor r))
    | None => Raise (IndexError "list index out of range")
    end
  else mret (records, None).

(** [read(topic, from_cursor, to_cursor, limit)] *)
Definition pg_read (topic : string) (from_cursor to_cursor : option string) (limit : Z)
    : ST (list EventRecord * option string) :=
  _ ← require_topic topic;
  if bool_decide (from_cursor = Some LATEST) then mret ([], None) else
  start ← pg_read_start topic from_cursor;
  _ ← lift (match to_cursor with
            | Some c => _ ← offset_for topic c; mret tt
            | None => mret tt
            end);
  T ← pg_get_topic topic;
  _ ← lift (_ ← opt_text_param start; opt_text_param to_cursor);
  n ← lift (limit_param (limit + 1));
  horizon ← horizon_of (retention_seconds T);
  rows ← gets (λ s, select_events topic start to_cursor horizon n s.1);
  lift (page_of_rows limit rows).

#[export] Instance postgres_event_store : EventStore PostgresEventStore := {|
  es_declare_topic := pg_declare_topic;
  es_get_topic := pg_get_topic;
  es_topics := pg_topics;
  es_append := pg_append;
  es_count := pg_count;
  es_oldest_available_cursor := pg_oldest_available_cursor;
  es_latest_cursor := pg_latest_cursor;
  es_read := pg_read;
  es_compact := pg_compact;
|}.
End Operations.

(** ** The logs of the tables *)

Section Logs.
Context `{!Platform, !RowOrder, !Collation, !JsonbColumn, !TopicModel}.

(** The rows of a topic in the order of their cursors. *)
Definition log_rows (t : string) (s : PostgresEventStore) : list EventRecord :=
  sort_by cursor_leb (List.filter (in_topic t) (event_rows s)).

(** The log of the contract. *)
Definition pg_log (s : PostgresEventStore) (t : string) : option TopicLog :=
  row ← topic_row t s;
  match validate_topic (tr_config row) with
  | Ret T => Some (mkTopicLog T (log_rows t s) (tr_next_offset row))
  | _ => None
  end.

Definition wf_topic_row (r : TopicRow) : Prop :=
  (∃ T, validate_topic (tr_config r) = Ret T ∧ name T = tr_topic r) ∧
  tr_topic r ≠ EmptyString ∧ 0 ≤ tr_next_offset r ≤ max_offset.

Record pg_inv (s : PostgresEventStore) : Prop := {
  pi_topics : NoDup (tr_topic <$> topic_rows s);
  pi_rows : Forall wf_topic_row (topic_rows s);
  pi_events : Forall (λ r, ∃ row, topic_row (ev_topic r) s = Some row ∧
                             wf_record (ev_topic r) (tr_next_offset row) r) (event_rows s);
  pi_cursors : NoDup (ev_cursor <$> event_rows s);
}.

Lemma empty_pg_inv : pg_inv empty_pg_events.
Proof. by split; constructor. Qed.

Lemma topic_row_elem t s row : topic_row t s = Some row → row ∈ topic_rows s ∧ tr_topic row = t.
Proof.
  intros Hf. apply find_some in Hf as [Hin Ht]. split; [by apply list_elem_of_In|].
  by apply bool_decide_eq_true in Ht.
Qed.

Lemma topic_row_wf t s row : pg_inv s → topic_row t s = Some row → wf_topic_row row.
Proof.
  intros Hs [Hin _]%topic_row_elem. pose proof (pi_rows _ Hs) as Hr.
  rewrite Forall_forall in Hr. by apply Hr.
Qed.

Lemma log_rows_elem t s r : r ∈ log_rows t s ↔ r ∈ event_rows s ∧ ev_topic r = t.
Proof.
  unfold log_rows, in_topic. rewrite sort_by_perm, list_elem_of_In, List.filter_In.
  by rewrite <- list_elem_of_In, bool_decide_eq_true.
Qed.

Lemma log_rows_wf t s row : pg_inv s → topic_row t s = Some row →
  Forall (wf_record t (tr_next_offset row)) (log_rows t s).
Proof.
  intros Hs Hrow. apply Forall_forall. intros r [Hr Ht]%log_rows_elem.
  pose proof (pi_events _ Hs) as He. rewrite Forall_forall in He.
  destruct (He r Hr) as (row' & Hrow' & Hwf). rewrite Ht in *. by simplify_eq.
Qed.

Lemma cursor_leb_total x y : cursor_leb x y = false → cursor_leb y x = true.
Proof. apply text_leb_total. Qed.
Lemma cursor_leb_trans x y z :
  cursor_leb x y = true → cursor_leb y z = true → cursor_leb x z = true.
Proof. apply text_leb_trans. Qed.

(** Among the records of a topic the order of the cursors is that of the
    offsets. *)
Lemma cursor_leb_offset t next x y : t ≠ EmptyString → next ≤ max_offset →
  wf_record t next x → wf_record t next y → cursor_leb x y = (rec_offset x <=? rec_offset y).
Proof.
  intros Ht Hn (_ & n & Hn1 & Hx) (_ & m & Hm1 & Hy).
  unfold cursor_leb, rec_offset. rewrite Hx, Hy, text_leb_cursor by lia.
  by rewrite !offset_of_text by (done || lia).
Qed.

Lemma same_cursor s x y : pg_inv s → x ∈ event_rows s → y ∈ event_rows s →
  ev_cursor x = ev_cursor y → x = y.
Proof.
  intros Hs Hx Hy Hc. pose proof (pi_cursors _ Hs) as Hnd.
  apply list_elem_of_lookup in Hx as [i Hi]. apply list_elem_of_lookup in Hy as [j Hj].
  assert (i = j) as <-; [|by simplify_eq].
  eapply (NoDup_lookup _ i j); [exact Hnd|..]; rewrite list_lookup_fmap; [by rewrite Hi|].
  rewrite Hj. simpl. by rewrite Hc.
Qed.

Lemma wf_record_cursor t next x : wf_record t next x → t ≠ EmptyString → next ≤ max_offset →
  ev_cursor x = cursor_text t (rec_offset x) ∧ 0 ≤ rec_offset x < next.
Proof.
  intros (_ & n & Hn & Hx) Ht Hm. unfold rec_offset. rewrite Hx, offset_of_text by (done || lia). done.
Qed.

(** A record of a topic: its cursor is that of its offset, which is in range. *)
Lemma log_rows_cursor t s row x : pg_inv s → topic_row t s = Some row → x ∈ log_rows t s →
  x ∈ event_rows s ∧ ev_cursor x = cursor_text t (rec_offset x) ∧
  0 ≤ rec_offset x < tr_next_offset row.
Proof.
  intros Hs Hrow Hx. pose proof (log_rows_wf _ _ _ Hs Hrow) as Hwf.
  pose proof (topic_row_wf _ _ _ Hs Hrow) as (_ & Hne & Hnx).
  apply topic_row_elem in Hrow as [_ Ht]. rewrite Ht in Hne.
  rewrite Forall_forall in Hwf. split; [by apply log_rows_elem in Hx as [Hx _]|].
  eapply wf_record_cursor; [by apply Hwf|done|lia].
Qed.

Lemma log_rows_leb t s row x y : pg_inv s → topic_row t s = Some row →
  x ∈ log_rows t s → y ∈ log_rows t s → cursor_leb x y = (rec_offset x <=? rec_offset y).
Proof.
  intros Hs Hrow Hx Hy. pose proof (log_rows_wf _ _ _ Hs Hrow) as Hwf.
  pose proof (topic_row_wf _ _ _ Hs Hrow) as (_ & Hne & Hnx).
  apply topic_row_elem in Hrow as [_ Ht]. rewrite Ht in Hne. rewrite Forall_forall in Hwf.
  apply (cursor_leb_offset t (tr_next_offset row)); [done|lia|by apply Hwf..].
Qed.

Lemma log_rows_anti t s row x y : pg_inv s → topic_row t s = Some row →
  x ∈ log_rows t s → y ∈ log_rows t s → cursor_leb x y = true → cursor_leb y x = true → x = y.
Proof.
  intros Hs Hrow Hx Hy. rewrite !(log_rows_leb t s row) by done. intros Hxy Hyx.
  destruct (log_rows_cursor t s row x) as (Ix & Cx & _); [done..|].
  destruct (log_rows_cursor t s row y) as (Iy & Cy & _); [done..|].
  apply (same_cursor s); [done..|]. rewrite Cx, Cy. f_equal. lia.
Qed.

Lemma log_rows_sorted t s row : pg_inv s → topic_row t s = Some row →
  sorted_by rec_offset (log_rows t s).
Proof.
  intros Hs Hrow.
  assert (∀ x y, x ∈ log_rows t s → y ∈ log_rows t s → cursor_leb x y = true →
    x = y ∨ rec_offset x < rec_offset y) as Hlt.
  { intros x y Hx Hy Hxy. pose proof Hxy as Hle. erewrite log_rows_leb in Hle by done.
    destruct (decide (rec_offset x = rec_offset y)); [left|right; lia].
    apply (log_rows_anti t s row); [done..|]. erewrite log_rows_leb by done. lia. }
  assert (NoDup (log_rows t s)) as Hnd.
  { unfold log_rows. rewrite sort_by_perm. apply NoDup_ListNoDup, List.NoDup_filter, NoDup_ListNoDup.
    eapply NoDup_fmap_1, pi_cursors, Hs. }
  assert (leb_sorted cursor_leb (log_rows t s)) as Hsort
    by (apply sort_by_sorted; [apply cursor_leb_total|apply cursor_leb_trans]).
  unfold sorted_by, leb_sorted in *. induction Hsort as [|x l Hl IH Hx]; [constructor|].
  apply NoDup_cons in Hnd as [Hnx Hnd]. constructor.
  - apply IH; [|done]. intros. apply Hlt; [by right..|done].
  - rewrite Forall_forall in *. intros y Hy.
    destruct (Hlt x y) as [->|?]; [left|by right|by apply Hx|done|done].
Qed.

(** A query over a topic, with further conditions and in cursor order, is a
    filter of its log, whatever order the scan finds the rows in. *)
Lemma query_log t s row f l : pg_inv s → topic_row t s = Some row →
  l ≡ₚ List.filter (λ r, in_topic t r && f r) (event_rows s) →
  sort_by cursor_leb l = List.filter f (log_rows t s).
Proof.
  intros Hs Hrow Hl.
  assert (leb_sorted cursor_leb (log_rows t s)) as Hsort
    by (apply sort_by_sorted; [apply cursor_leb_total|apply cursor_leb_trans]).
  assert (∀ x, x ∈ List.filter f (log_rows t s) → x ∈ log_rows t s) as Hin.
  { intros x. rewrite !list_elem_of_In, List.filter_In. by intros [? _]. }
  assert (sort_by cursor_leb l ≡ₚ List.filter f (log_rows t s)) as Hperm.
  { rewrite sort_by_perm, Hl, list_filter_andb. unfold log_rows.
    rewrite !(list_filter_bool f (λ r, f r = true)) by done. by rewrite sort_by_perm. }
  apply (StronglySorted_unique_strong (λ x y, cursor_leb x y = true)); [| | |done].
  - intros x y Hx Hy.
    apply (log_rows_anti t s row); [done..|by apply Hin; rewrite <- Hperm|by apply Hin].
  - apply sort_by_sorted; [apply cursor_leb_total|apply cursor_leb_trans].
  - rewrite (list_filter_bool f (λ r, f r = true)) by done. clear -Hsort. unfold leb_sorted in Hsort.
    induction Hsort as [|x l Hl IH Hx]; [constructor|]. rewrite filter_cons.
    case_decide; [|done]. constructor; [done|]. rewrite Forall_forall in *.
    intros y [_ Hy]%list_elem_of_filter. by apply Hx.
Qed.

(** As many rows as there are offsets below the next one at most: the counter
    decides. *)
Lemma sorted_count (l : list EventRecord) lo n : sorted_by rec_offset l →
  Forall (λ r, lo ≤ rec_offset r < n) l → lo ≤ n → Z.of_nat (length l) ≤ n - lo.
Proof.
  intros Hs. revert lo. induction Hs as [|x l Hl IH Hx]; intros lo Hb Hlo; [simpl; lia|].
  apply Forall_cons in Hb as [Bx Bl]. cbn [length].
  assert (Z.of_nat (length l) ≤ n - (rec_offset x + 1)); [|lia].
  apply IH; [|lia]. rewrite Forall_forall in *. intros y Hy. specialize (Hx y Hy).
  specialize (Bl y Hy). lia.
Qed.

Lemma allocate_next t s row : pg_inv s → topic_row t s = Some row →
  allocate t s = tr_next_offset row.
Proof.
  intros Hs Hrow. unfold allocate, stored_offset, offset_from. rewrite Hrow.
  pose proof (topic_row_wf _ _ _ Hs Hrow) as (_ & _ & Hnx).
  assert (length (List.filter (in_topic t) (event_rows s)) = length (log_rows t s)) as ->
    by (unfold log_rows; by rewrite sort_by_perm).
  apply Z.max_l. transitivity (tr_next_offset row - 0); [|lia].
  apply sorted_count; [by eapply log_rows_sorted| |lia].
  apply Forall_forall. intros r Hr. by eapply log_rows_cursor.
Qed.

Lemma pg_log_row s t row : pg_inv s → topic_row t s = Some row → ∃ T,
  validate_topic (tr_config row) = Ret T ∧
  pg_log s t = Some (mkTopicLog T (log_rows t s) (tr_next_offset row)) ∧
  wf_log t (mkTopicLog T (log_rows t s) (tr_next_offset row)).
Proof.
  intros Hs Hrow. pose proof (topic_row_wf _ _ _ Hs Hrow) as ((T & HT & Hn) & Hne & Hnx).
  pose proof (topic_row_elem _ _ _ Hrow) as [_ Ht]. exists T. split; [done|].
  split; [unfold pg_log; rewrite Hrow; cbn; by rewrite HT|].
  split; simpl; [by rewrite Hn|by rewrite <- Ht|done|by eapply log_rows_wf|by eapply log_rows_sorted].
Qed.

Lemma pg_log_some s t l : pg_inv s → pg_log s t = Some l → ∃ row, topic_row t s = Some row ∧
  validate_topic (tr_config row) = Ret (log_topic l) ∧ log_events l = log_rows t s ∧
  next_offset l = tr_next_offset row ∧ wf_log t l.
Proof.
  intros Hs Hl. unfold pg_log in Hl. destruct (topic_row t s) as [row|] eqn:Hrow; [|done].
  destruct (pg_log_row s t row Hs Hrow) as (T & HT & Hlog & Hwf). exists row. cbn in Hl.
  rewrite HT in *. injection Hl as <-. done.
Qed.

Lemma pg_log_none s t : pg_inv s → pg_log s t = None → topic_row t s = None.
Proof.
  intros Hs Hl. destruct (topic_row t s) as [row|] eqn:Hrow; [|done].
  destruct (pg_log_row s t row Hs Hrow) as (T & _ & Hlog & _). congruence.
Qed.

(** ** The operations against the log *)

Lemma pg_get_topic_run s v t : pg_inv s → ∃ o, pg_get_topic t (s, v) = (o, (s, v)) ∧
  or_refused database_error o (match pg_log s t with
                               | Some l => Ret (log_topic l)
                               | None => Raise (topic_not_found t)
                               end).
Proof.
  intros Hs. unfold pg_get_topic. pose proof (text_param_spec t) as Ht.
  destruct (text_param t) as [t'|e|]; [|by exists (Raise e); split; [|right; exists e]|done].
  destruct (pg_log s t) as [l|] eqn:Hl.
  - destruct (pg_log_some s t l Hs Hl) as (row & Hrow & HT & _).
    exists (Ret (log_topic l)). split; [|by left]. erewrite bind_lift, (bind_ret (gets _)) by done.
    cbn [fst]. by rewrite Hrow, HT.
  - exists (Raise (topic_not_found t)). split; [|by left].
    erewrite bind_lift, (bind_ret (gets _)) by done. cbn [fst]. by rewrite pg_log_none.
Qed.

Lemma horizon_run n s v : ∃ h v' t, horizon_of n (s, v) = (Ret h, (s, v')) ∧ env_le v v' ∧
  clock_between v v' t ∧ h = if n <=? 0 then None else Some (t - seconds n).
Proof.
  unfold horizon_of. destruct (n <=? 0).
  - exists None, v, (clock (tick v)). split_and!; [done..|exists (tick v); split; [lia|done]|done].
  - eexists _, _, (clock (tick v)). split_and!; [done| |exists (tick v); simpl; split; [lia|done]|done].
    unfold env_le; simpl; lia.
Qed.

Lemma retained_live l t h :
  h = (if retention_seconds (log_topic l) <=? 0 then None
       else Some (t - seconds (retention_seconds (log_topic l)))) →
  List.filter (retained h) (log_events l) = live_at l t.
Proof.
  intros ->. unfold live_at. destruct (_ <=? 0); simpl.
  - induction (log_events l) as [|r k IH]; [done|]. simpl. by rewrite IH.
  - apply list_filter_bool. intros r. apply Z.leb_le.
Qed.

Lemma head_cursors t s row f l : pg_inv s → topic_row t s = Some row →
  l = List.filter (λ r, in_topic t r && f r) (event_rows s) →
  sort_by text_leb (ev_cursor <$> l) = ev_cursor <$> List.filter f (log_rows t s).
Proof.
  intros Hs Hrow ->. rewrite sort_by_fmap. f_equal. by eapply query_log.
Qed.

Lemma pg_oldest_run s v t l : pg_inv s → pg_log s t = Some l → ∃ o v' t',
  pg_oldest_available_cursor t (s, v) = (o, (s, v')) ∧ env_le v v' ∧ clock_between v v' t' ∧
  or_refused database_error o (Ret (ev_cursor <$> head (live_at l t'))).
Proof.
  intros Hs Hl. destruct (pg_log_some s t l Hs Hl) as (row & Hrow & _ & Hev & _).
  unfold pg_oldest_available_cursor.
  destruct (pg_get_topic_run s v t Hs) as (o & Hrun & [->|(e & -> & He)]); rewrite ?Hl in *.
  2:{ exists (Raise e), v, (clock (tick v)). split_and!; [by erewrite bind_raise by done|done| |].
      - exists (tick v). split; [lia|done].
      - right. by exists e. }
  erewrite bind_ret by done.
  destruct (horizon_run (retention_seconds (log_topic l)) s v) as (h & v' & t' & Hh & Hle & Hc & Eh).
  erewrite bind_ret by done. eexists _, v', t'. split_and!; [done..|]. left. f_equal.
  unfold text_min. erewrite head_cursors by done. rewrite <- Hev. erewrite retained_live by done.
  by destruct (live_at l t').
Qed.

Lemma pg_count_run s v t : pg_inv s → ∃ o, pg_count t (s, v) = (o, (s, v)) ∧
  or_refused database_error o (Ret (from_option next_offset 0 (pg_log s t))).
Proof.
  intros Hs. unfold pg_count. pose proof (text_param_spec t) as Ht.
  destruct (text_param t) as [t'|e|]; [|by exists (Raise e); split; [|right; exists e]|done].
  eexists. split; [by erewrite bind_lift|]. left. f_equal. cbn [fst]. unfold stored_offset.
  destruct (pg_log s t) as [l|] eqn:Hl.
  - destruct (pg_log_some s t l Hs Hl) as (row & -> & _ & _ & Hn & _). cbn. congruence.
  - by rewrite pg_log_none.
Qed.

Lemma pg_latest_run s v t l : pg_inv s → pg_log s t = Some l →
  ∃ o, pg_latest_cursor t (s, v) = (o, (s, v)) ∧ or_refused database_error o (Ret (log_latest t l)).
Proof.
  intros Hs Hl. destruct (pg_log_some s t l Hs Hl) as (row & Hrow & _ & Hev & Hn & Hwf).
  unfold pg_latest_cursor. pose proof (text_param_spec t) as Ht.
  destruct (text_param t) as [t'|e|]; [|by exists (Raise e); split; [|right; exists e]|done].
  erewrite bind_lift by done. erewrite (bind_ret (gets _)) by done. simpl.
  unfold text_max. rewrite (head_cursors t s row (λ _, true)); [|done..|].
  2:{ apply List.filter_ext. intros r. by rewrite andb_true_r. }
  rewrite (list_filter_bool (λ _, true) (λ _, True)), filter_all, <- Hev by (done || by apply Forall_forall).
  unfold log_latest. rewrite fmap_last. destruct (last (log_events l)) as [r|]; simpl.
  { eexists. split; [done|by left]. }
  destruct (pg_count_run s v t Hs) as (o & Hrun & [->|(e & -> & He)]).
  - rewrite Hl in Hrun. erewrite bind_ret by done. eexists. split; [done|]. left.
    pose proof (wf_next _ _ Hwf) as Hnx. simpl. rewrite encode_ok; [done|]. unfold max_offset in *. lia.
  - erewrite bind_raise by done. exists (Raise e). split; [done|]. right. by exists e.
Qed.
(** ** Reading *)

Lemma page_of_rows_spec live start to limit : 1 ≤ limit →
  page_of_rows limit (take (Z.to_nat (limit + 1)) (filter (in_range start to) live)) =
  Ret (read_page live start to limit).
Proof.
  intros Hlimit. unfold page_of_rows, read_page. set (sel := filter _ _).
  rewrite py_slice_take, take_take, length_take, Z.max_r by lia.
  rewrite (Nat.min_l (Z.to_nat limit)) by lia.
  destruct (Z.ltb_spec limit (Z.of_nat (Nat.min (Z.to_nat (limit + 1)) (length sel)))) as [Hm|Hm].
  - rewrite (proj2 (Nat.ltb_lt _ _)) by (rewrite length_take; lia).
    destruct (last (take (Z.to_nat limit) sel)) as [r|] eqn:El; [done|].
    apply last_None in El. apply (f_equal length) in El. rewrite length_take in El. simpl in El. lia.
  - by rewrite (proj2 (Nat.ltb_ge _ _)) by (rewrite length_take; lia).
Qed.

(** On the records of a topic and canonical bounds the comparisons of texts are
    those of offsets. *)
Lemma in_bounds_range s t row x (from to : option Z) :
  pg_inv s → topic_row t s = Some row → x ∈ log_rows t s →
  from_option (λ p, 0 ≤ p < max_offset) True from → from_option (λ p, 0 ≤ p < max_offset) True to →
  in_bounds (cursor_text t <$> from) (cursor_text t <$> to) x = true ↔
  in_range (default (-1) from) to x.
Proof.
  intros Hs Hrow Hx Hf Ht. destruct (log_rows_cursor t s row x Hs Hrow Hx) as (_ & Cx & Rx).
  pose proof (topic_row_wf _ _ _ Hs Hrow) as (_ & _ & Hnx).
  unfold in_bounds, in_range. rewrite Cx.
  destruct from as [p|], to as [q|]; simpl in *; rewrite ?text_leb_cursor by lia;
    rewrite ?andb_true_iff, ?negb_true_iff, ?Z.leb_gt, ?Z.leb_le; intuition lia.
Qed.

Lemma clock_between_mono v0 v v' v1 t :
  env_le v0 v → env_le v' v1 → clock_between v v' t → clock_between v0 v1 t.
Proof. intros [? _] [? _] (i & [? ?] & ->). exists i. split; [lia|done]. Qed.

(** A computation on [(s, v)] that answers [res] for two readings of the clock,
    or is refused, and changes nothing. *)
Definition answers {A} (m : M (PostgresEventStore * Env) A) s v (res : Z → Z → outcome A) : Prop :=
  ∃ o t1 t2 v', env_le v v' ∧ clock_between v v' t1 ∧ clock_between v v' t2 ∧
    m (s, v) = (o, (s, v')) ∧ or_refused database_error o (res t1 t2).

Lemma answers_refused {A} (m : M _ A) s v v' e res :
  m (s, v) = (Raise e, (s, v')) → env_le v v' → database_error e → answers m s v res.
Proof.
  intros Hm Hle He. exists (Raise e), (clock (tick v)), (clock (tick v)), v'.
  assert (clock_between v v' (clock (tick v))) as Hc
    by (exists (tick v); split; [split; [lia|apply Hle]|done]).
  split_and!; [done..|]. right. by exists e.
Qed.

Lemma answers_seq {A B} (m : M _ A) (k : A → M _ B) s v v1 a res :
  m (s, v) = (Ret a, (s, v1)) → env_le v v1 → answers (k a) s v1 res → answers (m ≫= k) s v res.
Proof.
  intros Hm Hle (o & t1 & t2 & v' & Hle' & C1 & C2 & Hk & Ho). exists o, t1, t2, v'.
  split_and!; [by transitivity v1|by apply (clock_between_mono v v1 v' v')..| |done].
  by erewrite bind_ret.
Qed.

(** The same where the second reading was made by [m]. *)
Lemma answers_at {A B} (m : M _ A) (k : A → M _ B) s v v1 a t2 (res : Z → Z → outcome B) :
  m (s, v) = (Ret a, (s, v1)) → env_le v v1 → clock_between v v1 t2 →
  answers (k a) s v1 (λ t1 _, res t1 t2) → answers (m ≫= k) s v res.
Proof.
  intros Hm Hle Hc (o & t1 & _ & v' & Hle' & C1 & _ & Hk & Ho). exists o, t1, t2, v'.
  split_and!; [by transitivity v1|by apply (clock_between_mono v v1 v' v')|
    by apply (clock_between_mono v v v1 v')| |done].
  by erewrite bind_ret.
Qed.

(** The query of [read] and the page it makes. *)
Lemma select_page s t l h t1 (from to : option Z) limit : pg_inv s → pg_log s t = Some l →
  from_option (λ p, 0 ≤ p < max_offset) True from → from_option (λ p, 0 ≤ p < max_offset) True to →
  1 ≤ limit →
  h = (if retention_seconds (log_topic l) <=? 0 then None
       else Some (t1 - seconds (retention_seconds (log_topic l)))) →
  page_of_rows limit (select_events t (cursor_text t <$> from) (cursor_text t <$> to) h
    (Z.to_nat (limit + 1)) s) = Ret (read_page (live_at l t1) (default (-1) from) to limit).
Proof.
  intros Hs Hl Hf Ht Hlimit Hh. destruct (pg_log_some s t l Hs Hl) as (row & Hrow & _ & Hev & _).
  rewrite <- page_of_rows_spec by done. f_equal. unfold select_events. f_equal.
  erewrite query_log by (done || apply scan_perm).
  rewrite (List.filter_ext _ (λ r, retained h r && in_bounds (cursor_text t <$> from)
    (cursor_text t <$> to) r)) by (intros; apply andb_comm).
  rewrite list_filter_andb, <- Hev, (retained_live l t1 h Hh).
  apply list_filter_bool_in. intros x Hx%live_at_elem. rewrite Hev in Hx. by eapply in_bounds_range.
Qed.

Lemma topic_canonical s t l : pg_inv s → pg_log s t = Some l → t ≠ EmptyString.
Proof.
  intros Hs Hl. destruct (pg_log_some s t l Hs Hl) as (row & _ & _ & _ & _ & Hwf). apply Hwf.
Qed.

Lemma pg_read_start_run s v t l (from : option Z) : pg_inv s → pg_log s t = Some l →
  from_option (λ p, 0 ≤ p < max_offset) True from →
  ∃ o v' t2, pg_read_start t (cursor_text t <$> from) (s, v) = (o, (s, v')) ∧ env_le v v' ∧
    clock_between v v' t2 ∧
    or_refused database_error o
      match from, head (live_at l t2) with
      | Some p, Some r => if p <? rec_offset r then Raise (cursor_expired (cursor_text t p) (ev_cursor r))
                          else Ret (Some (cursor_text t p))
      | _, _ => Ret (cursor_text t <$> from)
      end.
Proof.
  intros Hs Hl Hf. pose proof (topic_canonical _ _ _ Hs Hl) as Hne.
  destruct from as [p|]; simpl in *.
  2:{ exists (Ret None), v, (clock (tick v)). split_and!; [done..| |by left].
      exists (tick v). split; [lia|done]. }
  pose proof (cursor_text_not_sentinel t p) as [Hse _]. rewrite bool_decide_false by done.
  erewrite bind_lift by by apply offset_for_text.
  destruct (pg_oldest_run s v t l Hs Hl) as (o & v' & t2 & Hrun & Hle & Hc & [->|(e & -> & He)]).
  2:{ erewrite bind_raise by done. exists (Raise e), v', t2. split_and!; [done..|].
      right. by exists e. }
  erewrite bind_ret by done. destruct (head (live_at l t2)) as [r|] eqn:Hr; simpl.
  2:{ exists (Ret (Some (cursor_text t p))), v', t2. rewrite Hr. split_and!; [done..|by left]. }
  assert (r ∈ log_events l) as Hin.
  { apply (live_at_elem _ _ t2). destruct (live_at l t2); simplify_eq/=. left. }
  destruct (pg_log_some s t l Hs Hl) as (row & Hrow & _ & Hev & _). rewrite Hev in Hin.
  destruct (log_rows_cursor t s row r Hs Hrow Hin) as (_ & Cr & Rr).
  pose proof (topic_row_wf _ _ _ Hs Hrow) as (_ & _ & Hnx).
  rewrite Cr, cursor_text_ltb by lia. unfold guard_else.
  destruct (p <? rec_offset r) eqn:Hp; simpl; eexists _, v', t2; (split; [done|]);
    (split; [done|]); (split; [done|]); rewrite Hr, Hp, ?Cr; by left.
Qed.

(** What the lower bound decides: an expired position, or a page from it. *)
Lemma read_result_start t l t2 (from to : option Z) limit r :
  match from, head (live_at l t2) with
  | Some p, Some r => if p <? rec_offset r then Raise (cursor_expired (cursor_text t p) (ev_cursor r))
                      else Ret (Some (cursor_text t p))
  | _, _ => Ret (cursor_text t <$> from)
  end = r →
  (∃ e, r = Raise e ∧ ∀ t1, read_result t l t1 t2 from to limit = Raise e) ∨
  (r = Ret (cursor_text t <$> from) ∧ ∀ t1, read_result t l t1 t2 from to limit =
     Ret (read_page (live_at l t1) (default (-1) from) to limit)).
Proof.
  intros <-. unfold read_result. destruct from as [p|]; [|by right].
  destruct (head (live_at l t2)) as [x|]; [|by right]. destruct (p <? rec_offset x); [left|by right].
  by eexists.
Qed.

(** The last part of [read]: the query and its page. *)
Lemma read_query_run s v t l (from to : option Z) limit : pg_inv s → pg_log s t = Some l →
  from_option (λ p, 0 ≤ p < max_offset) True from → from_option (λ p, 0 ≤ p < max_offset) True to →
  1 ≤ limit →
  answers (T ← pg_get_topic t;
    _ ← lift (_ ← opt_text_param (cursor_text t <$> from); opt_text_param (cursor_text t <$> to));
    n ← lift (limit_param (limit + 1));
    horizon ← horizon_of (retention_seconds T);
    rows ← gets (λ s, select_events t (cursor_text t <$> from) (cursor_text t <$> to) horizon n s.1);
    lift (page_of_rows limit rows)) s v
    (λ t1 _, Ret (read_page (live_at l t1) (default (-1) from) to limit)).
Proof.
  intros Hs Hl Hf Ht Hlimit.
  destruct (pg_get_topic_run s v t Hs) as (o & Hget & [->|(e & -> & He)]); rewrite ?Hl in *.
  2:{ eapply answers_refused; [by erewrite bind_raise|done|done]. }
  eapply answers_seq; [done..|].
  pose proof (opt_text_param_spec (cursor_text t <$> from)) as P1.
  pose proof (opt_text_param_spec (cursor_text t <$> to)) as P2.
  pose proof (limit_param_spec (limit + 1)) as P3.
  destruct (opt_text_param (cursor_text t <$> from)) as [f|e|]; [|by eapply answers_refused|done].
  destruct (opt_text_param (cursor_text t <$> to)) as [q|e|]; [|by eapply answers_refused|done].
  destruct (limit_param (limit + 1)) as [n|e|]; [|by eapply answers_refused|done].
  destruct P3 as [-> _]. do 2 (eapply answers_seq; [done..|]).
  destruct (horizon_run (retention_seconds (log_topic l)) s v) as (h & v2 & t1 & Hh & Hle2 & Hc1 & Eh).
  exists (Ret (read_page (live_at l t1) (default (-1) from) to limit)), t1, t1, v2.
  split_and!; [done..| |by left].
  erewrite bind_ret by done. erewrite (bind_ret (gets _)) by done. unfold lift.
  by rewrite (select_page s t l h t1).
Qed.

Lemma pg_read_run s v t l (from to : option Z) limit : pg_inv s → pg_log s t = Some l →
  from_option (λ p, 0 ≤ p < max_offset) True from → from_option (λ p, 0 ≤ p < max_offset) True to →
  1 ≤ limit →
  answers (pg_read t (cursor_text t <$> from) (cursor_text t <$> to) limit) s v
    (λ t1 t2, read_result t l t1 t2 from to limit).
Proof.
  intros Hs Hl Hf Ht Hlimit. pose proof (topic_canonical _ _ _ Hs Hl) as Hne.
  unfold pg_read, require_topic.
  destruct (pg_get_topic_run s v t Hs) as (o & Hget & [->|(e & -> & He)]); rewrite ?Hl in *.
  2:{ eapply answers_refused; [|done..]. by erewrite bind_raise by by erewrite bind_raise by done. }
  eapply (answers_seq _ _ s v v tt); [by erewrite bind_ret|done|].
  rewrite bool_decide_false.
  2:{ destruct from as [p|]; [|done]. intros [= Hc]. by apply cursor_text_not_sentinel in Hc. }
  destruct (pg_read_start_run s v t l from Hs Hl Hf)
    as (o & v1 & t2 & Hstart & Hle1 & Hc2 & [->|(e & -> & He)]).
  2:{ eapply answers_refused; [by erewrite bind_raise|done..]. }
  destruct (read_result_start t l t2 from to limit _ eq_refl) as [(e & Er & Hr)|[Er Hr]];
    rewrite Er in Hstart.
  { exists (Raise e), t2, t2, v1. split_and!; [done..|by erewrite bind_raise|]. left. by rewrite Hr. }
  eapply answers_at; [done..|]. eapply (answers_seq (A := unit)); [|done|].
  { destruct to as [q|]; [|done]. simpl. unfold lift. by rewrite offset_for_text. }
  destruct (read_query_run s v1 t l from to limit Hs Hl Hf Ht Hlimit)
    as (o & t1 & t1' & v' & Hle & C1 & C1' & Hrun & Ho).
  exists o, t1, t1', v'. split_and!; [done..|]. by rewrite Hr.
Qed.

(** ** Appending *)

(** The tables after a committed append of [r], stored with payload [d]. *)
Definition appended (t : string) (n : Z) (r' : EventRecord) (s : PostgresEventStore)
    : PostgresEventStore :=
  set_next_offset t (n + 1) (mkPgEvents (topic_rows s) (event_rows s ++ [r'])).

Lemma topic_row_set x t n s :
  topic_row x (set_next_offset t n s) =
  (λ r, if decide (x = t) then with_next_offset n r else r) <$> topic_row x s.
Proof.
  unfold topic_row, set_next_offset, is_topic. cbn [topic_rows].
  induction (topic_rows s) as [|r l IH]; [done|]. cbn [fmap list_fmap List.find].
  assert (tr_topic (if bool_decide (tr_topic r = t) then with_next_offset n r else r) = tr_topic r)
    as -> by (by destruct (bool_decide _)).
  destruct (decide (tr_topic r = x)) as [<-|Ex].
  - rewrite (bool_decide_true (tr_topic r = tr_topic r)) by done. simpl. f_equal.
    by case_bool_decide; case_decide.
  - by rewrite (bool_decide_false (tr_topic r = x)).
Qed.

Lemma appended_inv t row r' s : pg_inv s → topic_row t s = Some row →
  tr_next_offset row < max_offset → ev_topic r' = t →
  ev_cursor r' = cursor_text t (tr_next_offset row) → ev_cursor r' ∉ ev_cursor <$> event_rows s →
  pg_inv (appended t (tr_next_offset row) r' s).
Proof.
  intros Hs Hrow Hcap Ht Hc Hnew. unfold appended.
  assert (∀ n r, tr_topic (if is_topic t r then with_next_offset n r else r) = tr_topic r) as Hid
    by (intros n r; by destruct (is_topic t r)).
  pose proof (topic_row_wf _ _ _ Hs Hrow) as (_ & _ & Hnx). split.
  - cbn [set_next_offset topic_rows]. rewrite <- list_fmap_compose.
    rewrite (list_fmap_ext _ tr_topic) by (intros; apply Hid). apply Hs.
  - cbn [set_next_offset topic_rows]. apply Forall_fmap. eapply Forall_impl; [apply Hs|].
    intros r (HT & Hne & Hr). unfold compose. destruct (is_topic t r); [|done].
    split_and!; [done..|simpl; lia|simpl; lia].
  - assert (∀ x row0, topic_row x s = Some row0 → ∃ row1,
      topic_row x (set_next_offset t (tr_next_offset row + 1)
        (mkPgEvents (topic_rows s) (event_rows s ++ [r']))) = Some row1 ∧
      tr_next_offset row0 ≤ tr_next_offset row1 ∧
      (x = t → tr_next_offset row1 = tr_next_offset row + 1)) as Hgrow.
    { intros x row0 Hx. rewrite topic_row_set.
      change (topic_row x (mkPgEvents _ _)) with (topic_row x s). rewrite Hx.
      eexists. split; [done|]. case_decide; [|by split]. subst x. simplify_eq. simpl. split; [lia|done]. }
    cbn [set_next_offset event_rows]. apply Forall_app. split.
    + eapply Forall_impl; [apply Hs|]. intros r (row0 & Hx & Hwt & n & Hn & Hrc).
      destruct (Hgrow _ _ Hx) as (row1 & Hx1 & Hle & _). exists row1. split; [done|].
      split; [done|]. exists n. split; [lia|done].
    + apply Forall_singleton. rewrite Ht. destruct (Hgrow _ _ Hrow) as (row1 & Hx1 & _ & Hn).
      exists row1. split; [done|]. split; [done|]. exists (tr_next_offset row).
      rewrite Hn by done. split; [lia|done].
  - cbn [set_next_offset event_rows]. rewrite fmap_app. apply NoDup_app.
    split; [apply Hs|]. split; [|apply NoDup_singleton].
    intros x Hx ->%list_elem_of_singleton. by apply Hnew.
Qed.

Lemma log_rows_appended t row r' s x : pg_inv s → topic_row t s = Some row →
  tr_next_offset row < max_offset → ev_topic r' = t →
  ev_cursor r' = cursor_text t (tr_next_offset row) → ev_cursor r' ∉ ev_cursor <$> event_rows s →
  log_rows x (appended t (tr_next_offset row) r' s) =
  if decide (x = t) then log_rows t s ++ [r'] else log_rows x s.
Proof.
  intros Hs Hrow Hcap Ht Hc Hnew.
  pose proof (appended_inv t row r' s Hs Hrow Hcap Ht Hc Hnew) as Hs'.
  pose proof (topic_row_wf _ _ _ Hs Hrow) as (_ & Hne & Hnx).
  pose proof (topic_row_elem _ _ _ Hrow) as [_ Htr]. rewrite Htr in Hne. case_decide as Hx.
  - subst x. apply (sorted_by_perm_eq rec_offset).
    + eapply log_rows_sorted; [exact Hs'|]. unfold appended. rewrite topic_row_set.
      change (topic_row t (mkPgEvents _ _)) with (topic_row t s). by rewrite Hrow.
    + apply sorted_by_snoc; [by eapply log_rows_sorted|]. apply Forall_forall. intros y Hy.
      destruct (log_rows_cursor t s row y Hs Hrow Hy) as (_ & _ & Hr).
      unfold rec_offset at 2. rewrite Hc, offset_of_text by (done || lia). lia.
    + unfold log_rows. rewrite !sort_by_perm. cbn [appended set_next_offset event_rows].
      rewrite List.filter_app. f_equiv. unfold in_topic. simpl. by rewrite bool_decide_true.
  - unfold log_rows. cbn [appended set_next_offset event_rows]. rewrite List.filter_app.
    unfold in_topic at 2. simpl. rewrite bool_decide_false by congruence. by rewrite app_nil_r.
Qed.

Lemma appended_log t row r' s x : pg_inv s → topic_row t s = Some row →
  tr_next_offset row < max_offset → ev_topic r' = t →
  ev_cursor r' = cursor_text t (tr_next_offset row) → ev_cursor r' ∉ ev_cursor <$> event_rows s →
  pg_log (appended t (tr_next_offset row) r' s) x =
  if decide (x = t) then (λ l, log_append l r') <$> pg_log s t else pg_log s x.
Proof.
  intros Hs Hrow Hcap Ht Hc Hnew. unfold pg_log. rewrite log_rows_appended by done.
  unfold appended. rewrite topic_row_set.
  change (topic_row x (mkPgEvents _ _)) with (topic_row x s). case_decide as Hx.
  - subst x. rewrite Hrow. cbn [fmap option_fmap option_map mbind option_bind with_next_offset tr_config].
    by destruct (validate_topic (tr_config row)).
  - by destruct (topic_row x s).
Qed.

(** What the [INSERT] does. *)
Lemma insert_event_run r s v : wp (insert_event r) (λ o w, w.2 = v ∧ match o with
    | Ret _ => ∃ d, jsonb (VDict (data r)) = Ret (VDict d) ∧
        w.1 = mkPgEvents (topic_rows s) (event_rows s ++ [with_data d r]) ∧
        ev_cursor r ∉ ev_cursor <$> event_rows s
    | Raise e => database_error e ∧ w.1 = s
    | NoFuel => False
    end) (s, v).
Proof.
  unfold insert_event.
  do 6 (eapply wp_param; [first [apply text_param_spec|apply opt_text_param_spec]|intros ? _ _|done]).
  eapply wp_param; [apply jsonb_object|intros payload Hp (d & ->)|done].
  apply wp_bind, wp_gets. cbn [wp_next fst]. case_match eqn:Hdup.
  { apply wp_raise. cbn. split; [done|]. split; [apply pg_error_database|done]. }
  case_match. { apply wp_raise. cbn. split; [done|]. split; [apply pg_error_database|done]. }
  apply wp_modify. cbn. split; [done|]. exists d. split; [done|]. split; [done|].
  rewrite list_elem_of_fmap. intros (r' & Hc & Hr'). apply not_true_iff_false in Hdup. apply Hdup.
  apply existsb_exists. exists r'. split; [by apply list_elem_of_In|].
  rewrite (bool_decide_true (ev_cursor r' = ev_cursor r)) by done. apply orb_true_r.
Qed.

(** The transaction of an append: it commits the record at the next offset, or
    fails with an error of the database and leaves the tables as they were. *)
Lemma append_body_run t row ty src d subj id hash s v :
  pg_inv s → topic_row t s = Some row → tr_next_offset row < max_offset →
  wp (transaction (append_body t ty src d subj id hash)) (λ o w, env_le v w.2 ∧
    match o with
    | Ret r => r = mkEventRecord id t (cursor_text t (tr_next_offset row)) ty src d subj
                     (clock (tick v)) hash ∧ (tick v ≤ tick w.2)%nat ∧
        ∃ d', jsonb (VDict d) = Ret (VDict d') ∧
              w.1 = appended t (tr_next_offset row) (with_data d' r) s ∧
              ev_cursor r ∉ ev_cursor <$> event_rows s
    | Raise e => database_error e ∧ w.1 = s
    | NoFuel => False
    end) (s, v).
Proof.
  intros Hs Hrow Hcap.
  assert (∀ A (m : M (PostgresEventStore * Env) A) Q w0,
    wp m (λ o w, match o with Raise e => Q (Raise e) (w0.1, w.2) | _ => Q o w end) w0 →
    wp (transaction m) Q w0) as wp_transaction.
  { intros A m Q w0. unfold wp, transaction. destruct (m w0) as [[a|e|] w']; done. }
  apply wp_transaction. unfold append_body. apply wp_bind. unfold on_platform. apply wp_zoom.
  unfold now, wp. cbn [wp_next]. apply wp_bind, wp_gets. cbn [wp_next fst snd].
  rewrite (allocate_next t s row) by done.
  pose proof (topic_row_wf _ _ _ Hs Hrow) as (_ & _ & Hnx).
  rewrite encode_ok by lia. apply wp_bind, wp_lift. cbn [wp_next]. cbv zeta.
  set (r := mkEventRecord id t _ ty src d subj (clock (tick v)) hash).
  apply wp_bind. eapply wp_mono; [apply insert_event_run|].
  assert (env_le v (mkEnv (S (tick v)) (uuids v))) as Hle by (unfold env_le; simpl; lia).
  intros [u|e|] [s1 v1] [Hv Ho]; simpl in Hv; subst v1; [| |done].
  2:{ simpl. split; [done|]. split; [apply Ho|done]. }
  destruct Ho as (d' & Hd & Hs1 & Hnew). simpl in Hs1. subst s1. cbn [wp_next].
  eapply wp_param; [apply int8_param_spec|intros n Hn [-> _]|intros e He; simpl; by split_and!].
  apply wp_bind, wp_modify. cbn [wp_next fst snd]. apply wp_ret. cbn [snd fst tick].
  split; [done|]. split; [done|]. split; [lia|]. exists d'. split; [done|]. by split.
Qed.

Lemma pg_append_run t l ty src d subj text s v :
  pg_inv s → pg_log s t = Some l → next_offset l < max_offset →
  canonicalize (VDict d) = Ret text →
  wp (pg_append t ty src d subj) (λ o w, env_le v w.2 ∧
    match o with
    | Ret r => ∃ row d' c id, topic_row t s = Some row ∧ (tick v ≤ c ≤ tick w.2)%nat ∧
        r = mkEventRecord id t (cursor_text t (next_offset l)) ty src d subj (clock c)
              ("sha256:" +:+ sha256_hexdigest text) ∧
        jsonb (VDict d) = Ret (VDict d') ∧ w.1 = appended t (next_offset l) (with_data d' r) s ∧
        pg_inv w.1 ∧
        ∀ x, pg_log w.1 x = if decide (x = t) then Some (log_append l (with_data d' r)) else pg_log s x
    | Raise e => database_error e ∧ w.1 = s
    | NoFuel => False
    end) (s, v).
Proof.
  intros Hs Hl Hcap Htext. destruct (pg_log_some s t l Hs Hl) as (row & Hrow & _ & _ & Hn & _).
  unfold pg_append, require_topic. apply wp_bind, wp_bind.
  destruct (pg_get_topic_run s v t Hs) as (o & Hget & [->|(e & -> & He)]); rewrite ?Hl in *;
    apply (wp_run_iff _ _ _ _ _ Hget).
  2:{ cbn. by split_and!. }
  cbn [wp_next]. apply wp_ret. cbn [wp_next]. apply wp_bind. unfold on_platform. apply wp_zoom.
  unfold new_event_id, uuid4. apply wp_bind. unfold wp at 1. cbn [wp_next]. apply wp_ret.
  cbn [wp_next snd fst]. rewrite Htext. apply wp_bind, wp_lift. cbn [wp_next]. cbv zeta.
  rewrite Hn in *. eapply wp_mono; [by apply append_body_run|].
  intros [r|e|] w [Hle Ho]; [| |done].
  2:{ split; [|done]. destruct Hle; split; simpl in *; lia. }
  split; [destruct Hle; split; simpl in *; lia|].
  destruct Ho as (Hr & Htick & d' & Hd & Hw & Hnew). simpl in Hr, Htick.
  exists row, d', (tick v), ("evt_" +:+ uuid4_hex (uuids v)).
  split; [done|]. split; [lia|]. split; [done|]. split; [done|]. split; [done|].
  rewrite Hw. subst r. split; [by apply appended_inv|]. intros x.
  rewrite appended_log by done. case_decide; [|done]. by rewrite Hl.
Qed.
End Logs.

(** ** The contract *)

Section Contract.
Context `{!Platform, !RowOrder, !Collation, !JsonbColumn, !TopicModel}.

#[export] Program Instance postgres_event_store_laws : EventStoreLaws PostgresEventStore := {|
  es_log := pg_log;
  es_inv := pg_inv;
  es_refuses := database_error;
  es_accepts d := plain (VDict d) = true;
|}.
Next Obligation. apply database_error_foreign. Qed.
Next Obligation.
  intros s t l Hs Hl. by destruct (pg_log_some s t l Hs Hl) as (row & _ & _ & _ & _ & ?).
Qed.
Next Obligation. intros. by apply pg_get_topic_run. Qed.
Next Obligation. intros. by apply pg_count_run. Qed.
Next Obligation. intros. by apply pg_latest_run. Qed.
Next Obligation.
  intros s v t from to limit Hs Hl. simpl. unfold pg_read, require_topic.
  destruct (pg_get_topic_run s v t Hs) as (o & Hget & Ho). rewrite Hl in Ho.
  destruct Ho as [->|(e & -> & He)]; eexists; (split; [by erewrite bind_raise by by erewrite bind_raise by done|]);
    [by left|right; by exists e].
Qed.
Next Obligation.
  intros s v t l from to limit Hs Hl Hf Ht Hlimit.
  exact (pg_read_run s v t l from to limit Hs Hl Hf Ht Hlimit).
Qed.
Next Obligation.
  intros s v t ty src d subj Hs Hl. simpl. unfold pg_append, require_topic.
  destruct (pg_get_topic_run s v t Hs) as (o & Hget & Ho). rewrite Hl in Ho.
  destruct Ho as [->|(e & -> & He)]; eexists; (split; [by erewrite bind_raise by by erewrite bind_raise by done|]);
    [by left|right; by exists e].
Qed.
Next Obligation.
  intros s v t l ty src d subj text Hs Hl Hcap Htext Hd. simpl.
  pose proof (pg_append_run t l ty src d subj text s v Hs Hl Hcap Htext) as Hwp. unfold wp in Hwp.
  destruct (pg_append t ty src d subj (s, v)) as [o [s' v']]. exists o, s', v'. split; [done|].
  destruct Hwp as [Hle Ho]. destruct o as [r|e|]; [| |done].
  - destruct Ho as (row & d' & c & id & _ & Hc & Hr & Hj & _ & Hs' & Hlog). split; [done|].
    split; [done|]. exists (with_data d' r). simpl in Hlog.
    split; [|rewrite Hr; simpl; split_and!; [by exists c|done..|]].
    + exists d'. split; [done|]. pose proof (jsonb_plain (VDict d) Hd) as Hp. rewrite Hj in Hp.
      rewrite Hr. exact Hp.
    + intros x. rewrite Hlog, Hr. done.
  - simpl in Ho. destruct Ho as [He ->]. by split_and!.
Qed.
End Contract.

(** ** Declaring and compacting keep the tables in order *)

Section Maintenance.
Context `{!Platform, !RowOrder, !Collation, !JsonbColumn, !TopicModel}.

Lemma topic_row_insert row s x : topic_row x (insert_topic row s) =
  match topic_row x s with
  | Some r => Some r
  | None => if decide (x = tr_topic row) then Some row else None
  end.
Proof.
  unfold insert_topic, topic_row. destruct (existsb _ _) eqn:Hex.
  - destruct (find (is_topic x) (topic_rows s)) eqn:Hf; [done|]. case_decide; [|done]. subst x.
    apply existsb_exists in Hex as (r & Hr & Ht). by rewrite (find_none _ _ Hf r Hr) in Ht.
  - cbn [topic_rows]. rewrite find_app. destruct (find _ _); [done|]. cbn [List.find].
    unfold is_topic. case_bool_decide; case_decide; congruence.
Qed.

Lemma insert_topic_inv row s : pg_inv s → wf_topic_row row → tr_next_offset row = 0 →
  pg_inv (insert_topic row s) ∧
  ∀ x, stored_offset x (insert_topic row s) = stored_offset x s.
Proof.
  intros Hs Hrow Hz. split.
  - assert (∀ x r, topic_row x s = Some r → topic_row x (insert_topic row s) = Some r) as Hmono
      by (intros x r Hx; by rewrite topic_row_insert, Hx).
    split; [| | |unfold insert_topic; by case_match; apply Hs].
    + unfold insert_topic. destruct (existsb _ _) eqn:Hex; [apply Hs|]. cbn [topic_rows].
      rewrite fmap_app. apply NoDup_app. split; [apply Hs|]. split; [|apply NoDup_singleton].
      intros x Hx ->%list_elem_of_singleton. apply list_elem_of_fmap in Hx as (r & Er & Hr).
      apply not_true_iff_false in Hex. apply Hex, existsb_exists. exists r.
      split; [by apply list_elem_of_In|]. by apply bool_decide_eq_true.
    + unfold insert_topic. destruct (existsb _ _); [apply Hs|]. cbn [topic_rows].
      apply Forall_app. split; [apply Hs|by apply Forall_singleton].
    + assert (event_rows (insert_topic row s) = event_rows s) as ->
        by (unfold insert_topic; by case_match).
      eapply Forall_impl; [apply Hs|]. intros r (r0 & Hr0 & Hwf). exists r0. auto.
  - intros x. unfold stored_offset. rewrite topic_row_insert. destruct (topic_row x s); [done|].
    by case_decide.
Qed.

(** Deleting events, whichever they are. *)
Definition delete_events (keep : EventRecord → bool) (s : PostgresEventStore) : PostgresEventStore :=
  mkPgEvents (topic_rows s) (List.filter keep (event_rows s)).

Lemma delete_events_inv keep s : pg_inv s → pg_inv (delete_events keep s).
Proof.
  intros [Ht Hr He Hc]. split; [done|done| |]; cbn [delete_events event_rows];
    rewrite (list_filter_bool keep (λ r, keep r = true)) by done.
  - apply Forall_forall. intros r [_ Hin]%list_elem_of_filter. rewrite Forall_forall in He. by apply He.
  - eapply sublist_NoDup; [exact Hc|]. apply fmap_sublist, sublist_filter.
Qed.

(** A declaration adds a topic with an empty log or changes nothing. *)
Lemma pg_declare_topic_run t s v : pg_inv s → name t ≠ EmptyString →
  wp (pg_declare_topic t) (λ o w, pg_inv w.1 ∧ match o with
    | Ret _ => ∀ x, pg_log w.1 x = match pg_log s x with
        | Some l => Some l
        | None => if decide (x = name t) then Some (mkTopicLog t (log_rows x s) 0) else None
        end
    | Raise e => database_error e ∧ w.1 = s
    | NoFuel => False
    end) (s, v).
Proof.
  intros Hs Hne. unfold pg_declare_topic.
  do 3 (eapply wp_param; [first [apply text_param_spec|apply opt_text_param_spec|apply int4_param_spec]
    |intros ? _ _|done]).
  assert (plain (VDict (topic_config t)) = true) as Hp.
  { cbn [plain]. apply andb_true_iff. split; [apply bool_decide_eq_true, topic_config_wf|].
    unfold topic_config. cbn [forallb snd plain].
    assert (∀ A (f : A → string) l, forallb plain ((λ x, VStr (f x)) <$> l) = true) as Hl
      by (intros A f l; induction l; done).
    rewrite (Hl string id), (Hl _ mode_value). destruct (schema_url t), (filterable_fields t); simpl;
      rewrite ?(Hl string id); done. }
  eapply wp_param; [by apply jsonb_plain|intros config _ Hc|done].
  apply wp_bind. unfold on_platform. apply wp_zoom. unfold now, wp. cbn [wp_next].
  apply wp_modify. cbn [fst snd].
  pose proof (validate_topic_dump t config Hc) as Hv.
  set (row := mkTopicRow _ _ _ _ _ _ _).
  assert (wf_topic_row row) as Hrow.
  { split; [by exists t|]. split; [done|]. unfold max_offset. simpl. lia. }
  destruct (insert_topic_inv row s Hs Hrow eq_refl) as [Hi _]. split; [done|].
  intros x. destruct (topic_row x s) as [r|] eqn:Hr.
  - destruct (pg_log_row s x r Hs Hr) as (T & HT & Hlog & _). rewrite Hlog.
    unfold pg_log. rewrite topic_row_insert, Hr. cbn. rewrite HT. unfold log_rows, insert_topic.
    by destruct (existsb _ _).
  - unfold pg_log at 2. rewrite Hr. cbn [mbind option_bind]. unfold pg_log.
    rewrite topic_row_insert, Hr. change (tr_topic row) with (name t). case_decide as Hx; [|done]. cbn. rewrite Hv.
    unfold log_rows, insert_topic. by destruct (existsb _ _).
Qed.

Lemma log_rows_delete keep s x row : pg_inv s → topic_row x s = Some row →
  log_rows x (delete_events keep s) = List.filter keep (log_rows x s).
Proof.
  intros Hs Hrow. unfold log_rows at 1. apply (query_log x s row keep); [done..|].
  rewrite list_filter_andb. cbn [delete_events event_rows].
  rewrite !(list_filter_bool keep (λ r, keep r = true)) by done.
  rewrite !(list_filter_bool (in_topic x) (λ r, in_topic x r = true)) by done.
  rewrite !list_filter_filter. apply reflexive_eq, list_filter_iff. intros. tauto.
Qed.

(** Compacting a topic leaves the events that are live when the statement runs,
    and the counter; what it answers is how many are gone. *)
Lemma pg_compact_one_run n s v : pg_inv s →
  wp (pg_compact_one n) (λ o w, pg_inv w.1 ∧ env_le v w.2 ∧ match o with
    | Ret k => ∃ l t', pg_log s n = Some l ∧ clock_between v w.2 t' ∧
        (∀ x, pg_log w.1 x = if decide (x = n)
           then Some (mkTopicLog (log_topic l) (live_at l t') (next_offset l)) else pg_log s x) ∧
        k = Z.of_nat (length (event_rows s)) - Z.of_nat (length (event_rows w.1))
    | Raise e => w.1 = s ∧ (database_error e ∨ pg_log s n = None ∧ e = topic_not_found n)
    | NoFuel => False
    end) (s, v).
Proof.
  intros Hs. unfold pg_compact_one. apply wp_bind.
  destruct (pg_get_topic_run s v n Hs) as (o & Hget & Ho). apply (wp_run_iff _ _ _ _ _ Hget).
  destruct Ho as [->|(e & -> & He)]; [|cbn; split_and!; by auto].
  destruct (pg_log s n) as [l|] eqn:Hl; [|cbn; split_and!; by auto]. cbn [wp_next].
  destruct (pg_log_some s n l Hs Hl) as (row & Hrow & HT & Hev & Hn & _).
  destruct (horizon_run (retention_seconds (log_topic l)) s v) as (h & v' & t' & Hh & Hle & Hc & Eh).
  apply wp_bind, (wp_run_iff _ _ _ _ _ Hh). cbn [wp_next]. apply wp_bind, wp_gets. cbn [wp_next fst].
  apply wp_bind, wp_modify. cbn [wp_next fst snd]. apply wp_ret. cbn [fst snd].
  set (keep := λ r, negb (in_topic n r) || retained h r).
  change (mkPgEvents _ _) with (delete_events keep s).
  split; [by apply delete_events_inv|]. split; [done|]. exists l, t'. split_and!; [done..| |done].
  intros x. unfold pg_log. change (topic_row x (delete_events keep s)) with (topic_row x s).
  destruct (topic_row x s) as [r|] eqn:Hr; [|by case_decide; [congruence|]]. cbn [mbind option_bind].
  rewrite (log_rows_delete keep s x r) by done. case_decide as Hx.
  - subst x. assert (r = row) as -> by congruence. rewrite HT, Hn. do 2 f_equal.
    rewrite <- (retained_live l t' h Eh), Hev.
    rewrite (list_filter_bool (retained h) (λ r, retained h r = true)) by done.
    apply list_filter_bool_in. intros y [_ Hy]%log_rows_elem. unfold keep, in_topic.
    by rewrite bool_decide_true.
  - rewrite (list_filter_bool_in keep (λ _, True)), filter_all; [done|by apply Forall_forall|].
    intros y [_ Hy]%log_rows_elem. unfold keep, in_topic. by rewrite bool_decide_false by congruence.
Qed.
End Maintenance.

(** ** Cursors and limits that the in-memory store takes differently *)

#[local] Existing Instance topic_members.
#[local] Existing Instance byte_order.
#[local] Existing Instance insertion_order.
#[local] Existing Instance verbatim_jsonb.
#[local] Existing Instance sample_platform.

Definition orders_event (n : Z) : EventRecord :=
  mkEventRecord ("evt_" +:+ str_of_int n) "orders" (cursor_text "orders" n) "created" "shop" [] None
    5 "sha256:0".
Definition orders_tables : PostgresEventStore :=
  let t := mkTopic "orders" "" None 0 true ["field_filter"%string] None [WEBHOOK] in
  mkPgEvents [mkTopicRow "orders" None 0 true (VDict (topic_config t)) 3 0]
    [orders_event 0; orders_event 1; orders_event 2].

(** A cursor of fewer digits decodes to offset 1 but is compared as a text: the
    event after it is not found, and offset 0 is reported as expired. *)
Example unpadded_cursor_skips :
  (pg_read "orders" (Some "orders:1"%string) None 10 (orders_tables, mkEnv 0 0)).1 = Ret ([], None) ∧
  (pg_read "orders" (Some (cursor_text "orders" 1)) None 10 (orders_tables, mkEnv 0 0)).1 =
    Ret ([orders_event 2], None).
Proof. by vm_compute. Qed.
Example unpadded_cursor_expired :
  (pg_read "orders" (Some "orders:0"%string) None 10 (orders_tables, mkEnv 0 0)).1 =
    Raise (cursor_expired "orders:0" (cursor_text "orders" 0)).
Proof. by vm_compute. Qed.

(** A limit of zero or minus one indexes an empty page. *)
Example limit_zero_raises :
  (pg_read "orders" None None 0 (orders_tables, mkEnv 0 0)).1 =
    Raise (IndexError "list index out of range").
Proof. by vm_compute. Qed.

(** An empty upper bound is refused, where the in-memory store ignores it. *)
Example empty_bound_refused :
  (pg_read "orders" None (Some EmptyString) 10 (orders_tables, mkEnv 0 0)).1 =
    Raise (not_a_cursor EmptyString).
Proof. by vm_compute. Qed.
