(* ===== verification/PostgresAppends.v ===== *)
(** * Concurrent appends on Postgres ([runtime/postgres/event_store.py])

    The transactions of [append], statement by statement and interleaved with
    each other, with compactions and with declarations, on the default isolation
    level: a statement sees what is committed when it runs. The advisory lock of
    a topic is held from the first statement to the end of the transaction. The
    theorem: no append ever meets its cursor in the table, and the offsets that
    are committed for a topic are consecutive. *)

From S2P Require Import Prelude PyStr Value Errors Effects Models Cursor Canonical Json Contracts.
From S2P Require Import Postgres PostgresEventStore.
Open Scope Z_scope.

(** How far a transaction has come: it holds the lock; it has read the counter;
    it has counted the rows; it has inserted its row and set the counter. *)
Inductive tx_stage :=
| Locked
| Counted (stored : Z)
| Allocated (offset : Z)
| Inserted (offset : Z) (row : EventRecord).

Record AppendTx := mkTx { tx_topic : string; tx_stage_of : tx_stage }.

(** The committed tables and the transactions under way. *)
Record PgAppends := mkPgAppends { committed : PostgresEventStore; in_flight : list AppendTx }.

(** The rows that transactions have inserted and not committed. *)
Definition pending_rows (txs : list AppendTx) : list EventRecord :=
  omap (λ x, match tx_stage_of x with Inserted _ r => Some r | _ => None end) txs.

(** The cursors a new row must not repeat. *)
Definition taken (db : PostgresEventStore) (txs : list AppendTx) : list string :=
  ev_cursor <$> event_rows db ++ pending_rows txs.

Inductive tx_event :=
| Ran
| Collided (topic : string)
| Committed (r : EventRecord)
| RolledBack.

Section Appends.
Context `{!Platform, !RowOrder, !Collation, !JsonbColumn, !TopicModel}.

(** [hashtext] of a topic *)
Context (hashtext : string → Z).

Definition lock_of (x : AppendTx) : Z := hashtext (tx_topic x).

(** One step of the server. A transaction starts once its topic was seen and
    nobody holds its lock. An [INSERT] whose cursor is taken fails, and with it
    its transaction; a transaction may also break off for any other reason. *)
Inductive append_step : PgAppends → tx_event → PgAppends → Prop :=
| step_lock db txs t : is_Some (topic_row t db) → hashtext t ∉ lock_of <$> txs →
    append_step (mkPgAppends db txs) Ran (mkPgAppends db (mkTx t Locked :: txs))
| step_counter db txs1 t txs2 :
    append_step (mkPgAppends db (txs1 ++ mkTx t Locked :: txs2)) Ran
      (mkPgAppends db (txs1 ++ mkTx t (Counted (stored_offset t db)) :: txs2))
| step_count db txs1 t n txs2 :
    append_step (mkPgAppends db (txs1 ++ mkTx t (Counted n) :: txs2)) Ran
      (mkPgAppends db (txs1 ++ mkTx t (Allocated (offset_from n t db)) :: txs2))
| step_insert db txs1 t n txs2 r : ev_topic r = t → encode t n = Ret (ev_cursor r) →
    ev_cursor r ∉ taken db (txs1 ++ txs2) →
    append_step (mkPgAppends db (txs1 ++ mkTx t (Allocated n) :: txs2)) Ran
      (mkPgAppends db (txs1 ++ mkTx t (Inserted n r) :: txs2))
| step_collide db txs1 t n txs2 c : encode t n = Ret c → c ∈ taken db (txs1 ++ txs2) →
    append_step (mkPgAppends db (txs1 ++ mkTx t (Allocated n) :: txs2)) (Collided t)
      (mkPgAppends db (txs1 ++ txs2))
| step_commit db txs1 t n r txs2 :
    append_step (mkPgAppends db (txs1 ++ mkTx t (Inserted n r) :: txs2)) (Committed r)
      (mkPgAppends (appended t n r db) (txs1 ++ txs2))
| step_rollback db txs1 x txs2 :
    append_step (mkPgAppends db (txs1 ++ x :: txs2)) RolledBack (mkPgAppends db (txs1 ++ txs2))
| step_compact db txs keep :
    append_step (mkPgAppends db txs) Ran (mkPgAppends (delete_events keep db) txs)
| step_declare db txs row : wf_topic_row row → tr_next_offset row = 0 →
    append_step (mkPgAppends db txs) Ran (mkPgAppends (insert_topic row db) txs).

Inductive append_runs : PgAppends → list tx_event → PgAppends → Prop :=
| runs_nil s : append_runs s [] s
| runs_cons s e s1 tr s2 : append_step s e s1 → append_runs s1 tr s2 → append_runs s (e :: tr) s2.

(** The records of a topic that a run commits, in order. *)
Definition commits (t : string) (tr : list tx_event) : list EventRecord :=
  omap (λ e, match e with
             | Committed r => if bool_decide (ev_topic r = t) then Some r else None
             | _ => None
             end) tr.

(** What a transaction knows is true while it holds the lock. *)
Definition tx_ok (db : PostgresEventStore) (x : AppendTx) : Prop :=
  is_Some (topic_row (tx_topic x) db) ∧
  match tx_stage_of x with
  | Locked => True
  | Counted n | Allocated n => n = stored_offset (tx_topic x) db
  | Inserted n r => n = stored_offset (tx_topic x) db ∧ ev_topic r = tx_topic x ∧
                    ev_cursor r = cursor_text (tx_topic x) n
  end.

Record sys_inv (s : PgAppends) : Prop := {
  si_tables : pg_inv (committed s);
  si_locks : NoDup (lock_of <$> in_flight s);
  si_txs : Forall (tx_ok (committed s)) (in_flight s);
}.

(** ** The invariant *)

(** The cursor at the counter of a topic is not in the table. *)
Lemma next_cursor_fresh db t row : pg_inv db → topic_row t db = Some row →
  tr_next_offset row < max_offset →
  cursor_text t (tr_next_offset row) ∉ ev_cursor <$> event_rows db.
Proof.
  intros Hdb Hrow Hcap (r & Hc & Hr)%list_elem_of_fmap.
  pose proof (pi_events _ Hdb) as He. rewrite Forall_forall in He.
  destruct (He r Hr) as (row' & Hrow' & _ & m & Hm & Hcr).
  pose proof (topic_row_wf _ _ _ Hdb Hrow) as (_ & Hne & Hnx).
  pose proof (topic_row_wf _ _ _ Hdb Hrow') as (_ & Hne' & Hnx').
  apply topic_row_elem in Hrow as Ht. destruct Ht as [_ Ht]. rewrite Ht in Hne.
  apply topic_row_elem in Hrow' as Ht'. destruct Ht' as [_ Ht']. rewrite Ht' in Hne'.
  assert (split_cursor (cursor_text t (tr_next_offset row)) = Ret (t, tr_next_offset row)) as Es.
  { apply split_cursor_text; [done|]. split; [lia|]. by apply max_offset_limit. }
  rewrite Hc, Hcr, split_cursor_text in Es; [|done|split; [lia|apply max_offset_limit; lia]].
  injection Es as Et Em. rewrite Et in Hrow'. rewrite Hrow in Hrow'. injection Hrow' as <-. lia.
Qed.

Lemma stored_row t db row : topic_row t db = Some row → stored_offset t db = tr_next_offset row.
Proof. unfold stored_offset. by intros ->. Qed.

(** Nor is it in the hands of another transaction. *)
Lemma next_cursor_not_taken db xs1 t st xs2 : pg_inv db → stored_offset t db < max_offset →
  Forall (tx_ok db) (xs1 ++ mkTx t st :: xs2) → NoDup (lock_of <$> xs1 ++ mkTx t st :: xs2) →
  cursor_text t (stored_offset t db) ∉ taken db (xs1 ++ xs2).
Proof.
  intros Hdb Hcap Hok Hnd. unfold taken. rewrite fmap_app, elem_of_app.
  assert (tx_ok db (mkTx t st)) as [[row Hrow] _]
    by (rewrite Forall_forall in Hok; apply Hok, elem_of_app; right; left).
  simpl in Hrow. rewrite (stored_row _ _ _ Hrow) in *.
  intros [Hin|Hin]; [by eapply next_cursor_fresh|].
  apply list_elem_of_fmap in Hin as (r & Hc & Hr). apply list_elem_of_omap in Hr as (x & Hx & Hst).
  destruct (tx_stage_of x) as [| | |n r'] eqn:Ex; try done. injection Hst as ->.
  rewrite Forall_forall in Hok.
  assert (x ∈ xs1 ++ mkTx t st :: xs2) as Hx' by (rewrite elem_of_app, elem_of_cons in *; tauto).
  destruct (Hok x Hx') as [[row' Hrow'] Hs]. rewrite Ex in Hs. destruct Hs as (Hn & _ & Hcr).
  rewrite (stored_row _ _ _ Hrow') in Hn.
  pose proof (topic_row_wf _ _ _ Hdb Hrow) as (_ & Hne & Hnx).
  pose proof (topic_row_wf _ _ _ Hdb Hrow') as (_ & Hne' & Hnx').
  destruct (topic_row_elem _ _ _ Hrow) as [_ Ht]. rewrite Ht in Hne.
  destruct (topic_row_elem _ _ _ Hrow') as [_ Ht']. rewrite Ht' in Hne'.
  assert (tx_topic x = t) as Hxt.
  { assert (∀ t' m, 0 ≤ m ≤ max_offset → t' ≠ EmptyString → split_cursor (cursor_text t' m) = Ret (t', m)) as Hsplit.
    { intros t' m Hm Hne0. apply split_cursor_text; [done|]. split; [lia|].
      eapply Z.le_lt_trans; [apply Hm|]. unfold max_offset, max_str_digits.
      apply Z.pow_lt_mono_r; lia. }
    pose proof (Hsplit t (tr_next_offset row) Hnx Hne) as E1. rewrite Hc, Hcr, Hsplit in E1 by (lia || done).
    by injection E1. }
  rewrite fmap_app, fmap_cons, NoDup_app, NoDup_cons in Hnd. destruct Hnd as (_ & Hd & Hd2 & _).
  assert (lock_of x = lock_of (mkTx t st)) as Hl by (unfold lock_of; by rewrite Hxt).
  apply elem_of_app in Hx as [Hx|Hx].
  - apply (Hd (lock_of x)); [by apply list_elem_of_fmap_2|]. rewrite Hl. left.
  - apply Hd2. rewrite <- Hl. by apply list_elem_of_fmap_2.
Qed.

(** A change of the tables that keeps the topics and the counter of [x]. *)
Lemma tx_ok_mono db db' x :
  (is_Some (topic_row (tx_topic x) db) → is_Some (topic_row (tx_topic x) db')) →
  stored_offset (tx_topic x) db' = stored_offset (tx_topic x) db → tx_ok db x → tx_ok db' x.
Proof. intros Hsome Hst [Ht Hs]. split; [auto|]. by rewrite Hst. Qed.

Lemma stored_appended y t row r db : topic_row t db = Some row →
  stored_offset y (appended t (tr_next_offset row) r db) =
  if decide (y = t) then tr_next_offset row + 1 else stored_offset y db.
Proof.
  intros Hrow. unfold stored_offset, appended. rewrite topic_row_set.
  change (topic_row y (PostgresEventStore.mkPgEvents _ _)) with (topic_row y db). case_decide as Hy.
  - by rewrite Hy, Hrow.
  - by destruct (topic_row y db).
Qed.

(** A transaction that moves on without touching the tables or its lock. *)
Lemma advance_inv db xs1 t st st' xs2 :
  sys_inv (mkPgAppends db (xs1 ++ mkTx t st :: xs2)) → tx_ok db (mkTx t st') →
  sys_inv (mkPgAppends db (xs1 ++ mkTx t st' :: xs2)).
Proof.
  intros [Hdb Hl Hok] Hnew. split; cbn [committed in_flight] in *; [done| |].
  - rewrite fmap_app, fmap_cons in *. exact Hl.
  - rewrite Forall_app, Forall_cons in *. tauto.
Qed.

Lemma drop_inv db xs1 x xs2 :
  sys_inv (mkPgAppends db (xs1 ++ x :: xs2)) → sys_inv (mkPgAppends db (xs1 ++ xs2)).
Proof.
  intros [Hdb Hl Hok]. split; cbn [committed in_flight] in *; [done| |].
  - rewrite fmap_app, fmap_cons in Hl. rewrite fmap_app. apply NoDup_app in Hl as (? & Hd & ?).
    apply NoDup_app. rewrite NoDup_cons in *. split_and!; [done|set_solver|tauto].
  - rewrite Forall_app, Forall_cons in *. tauto.
Qed.

(** The tables change under transactions that do not mind. *)
Lemma tables_inv db db' xs : sys_inv (mkPgAppends db xs) → pg_inv db' →
  (∀ y, is_Some (topic_row y db) → is_Some (topic_row y db')) →
  (∀ y, stored_offset y db' = stored_offset y db) → sys_inv (mkPgAppends db' xs).
Proof.
  intros [Hdb Hl Hok] Hdb' Ht Hst. split; cbn [committed in_flight] in *; [done..|].
  eapply Forall_impl; [exact Hok|]. intros x Hx. apply (tx_ok_mono db); auto.
Qed.

(** A commit: the record goes to the end of its log, and nobody else held that
    counter. *)
Lemma commit_inv db xs1 t n r xs2 :
  sys_inv (mkPgAppends db (xs1 ++ mkTx t (Inserted n r) :: xs2)) → stored_offset t db < max_offset →
  sys_inv (mkPgAppends (appended t n r db) (xs1 ++ xs2)) ∧ ev_topic r = t ∧
  rec_offset r = stored_offset t db ∧
  ∀ y, stored_offset y (appended t n r db) = if decide (y = t) then stored_offset t db + 1
                                              else stored_offset y db.
Proof.
  intros Hs Hcap. pose proof (drop_inv _ _ _ _ Hs) as [_ Hl' _]. destruct Hs as [Hdb Hl Hok].
  cbn [committed in_flight] in *.
  assert (tx_ok db (mkTx t (Inserted n r))) as [[row Hrow] (Hn & Ht & Hc)]
    by (rewrite Forall_forall in Hok; apply Hok, elem_of_app; right; left).
  cbn [tx_topic] in *. rewrite (stored_row _ _ _ Hrow) in *. subst n.
  pose proof (next_cursor_fresh db t row Hdb Hrow Hcap) as Hfresh. rewrite <- Hc in Hfresh.
  pose proof (topic_row_wf _ _ _ Hdb Hrow) as (_ & Hne & Hnx).
  destruct (topic_row_elem _ _ _ Hrow) as [_ Htr]. rewrite Htr in Hne.
  split; [|split; [done|split]].
  2:{ unfold rec_offset. rewrite Hc, offset_of_text; [done..|lia]. }
  2:{ intros y. by apply stored_appended. }
  split; cbn [committed in_flight]; [by apply appended_inv|done|].
  apply Forall_forall. intros x Hx. rewrite Forall_forall in Hok.
  assert (tx_topic x ≠ t) as Hxt.
  { intros E. rewrite fmap_app, fmap_cons, NoDup_app, NoDup_cons in Hl.
    destruct Hl as (_ & Hd & Hd2 & _).
    assert (lock_of x = lock_of (mkTx t (Inserted (tr_next_offset row) r))) as El
      by (unfold lock_of; by rewrite E).
    apply elem_of_app in Hx as [Hx|Hx].
    - apply (Hd (lock_of x)); [by apply list_elem_of_fmap_2|]. rewrite El. left.
    - apply Hd2. rewrite <- El. by apply list_elem_of_fmap_2. }
  apply (tx_ok_mono db); [| |apply Hok; rewrite elem_of_app, elem_of_cons in *; tauto].
  - unfold appended. rewrite topic_row_set.
    change (topic_row (tx_topic x) (PostgresEventStore.mkPgEvents _ _)) with (topic_row (tx_topic x) db).
    by intros [? ->].
  - rewrite (stored_appended _ _ _ _ _ Hrow). by rewrite decide_False.
Qed.

(** What an event adds to the log of [t]. *)
Lemma append_step_spec s e s' : sys_inv s → (∀ t, stored_offset t (committed s) < max_offset) →
  append_step s e s' →
  sys_inv s' ∧ (∀ t, e ≠ Collided t) ∧
  ∀ t, rec_offset <$> commits t [e] =
         seqZ (stored_offset t (committed s)) (Z.of_nat (length (commits t [e]))) ∧
       stored_offset t (committed s') =
         stored_offset t (committed s) + Z.of_nat (length (commits t [e])).
Proof.
  intros Hs Hcap Hstep.
  assert (∀ t, commits t [Ran] = []) as Hran by done.
  assert (∀ t, commits t [RolledBack] = []) as Hback by done.
  destruct Hstep as [db txs t Ht Hl|db xs1 t xs2|db xs1 t n xs2|db xs1 t n xs2 r Ht Hc Hf
    |db xs1 t n xs2 c Hc Hin|db xs1 t n r xs2|db xs1 x xs2|db txs keep|db txs row Hrow Hz];
    cbn [committed in_flight] in *;
    try (split; [|split; [done|intros t'; rewrite ?Hran, ?Hback; split; [done|simpl; by rewrite Z.add_0_r]]]).
  - destruct Hs as [Hdb Hnd Hok]. split; cbn [committed in_flight] in *; [done| |].
    + rewrite fmap_cons. by apply NoDup_cons.
    + apply Forall_cons. by split.
  - eapply advance_inv; [exact Hs|]. split; [|done]. apply si_txs in Hs.
    rewrite Forall_forall in Hs. apply (Hs (mkTx t Locked)), elem_of_app. right. left.
  - eapply advance_inv; [exact Hs|]. destruct Hs as [Hdb _ Hok]. rewrite Forall_forall in Hok.
    destruct (Hok (mkTx t (Counted n))) as [[row Hrow] Hn]; [apply elem_of_app; right; left|].
    cbn in Hrow, Hn. split; [by exists row|]. cbn. rewrite Hn.
    change (offset_from (stored_offset t db) t db) with (allocate t db).
    by rewrite (allocate_next t db row), (stored_row t db row).
  - eapply advance_inv; [exact Hs|]. destruct Hs as [Hdb _ Hok]. rewrite Forall_forall in Hok.
    destruct (Hok (mkTx t (Allocated n))) as [[row Hrow] Hn]; [apply elem_of_app; right; left|].
    cbn in Hrow, Hn. split; [by exists row|]. cbn. split; [done|]. split; [done|].
    pose proof (topic_row_wf _ _ _ Hdb Hrow) as (_ & _ & Hnx). specialize (Hcap t).
    rewrite (stored_row _ _ _ Hrow) in *. rewrite encode_ok in Hc by lia. by injection Hc.
  - exfalso. pose proof (si_tables _ Hs) as Hdb. pose proof (si_txs _ Hs) as Hok.
    cbn [committed in_flight] in *. pose proof Hok as Hok'. rewrite Forall_forall in Hok'.
    destruct (Hok' (mkTx t (Allocated n))) as [[row Hrow] Hn]; [apply elem_of_app; right; left|].
    cbn in Hrow, Hn. pose proof (topic_row_wf _ _ _ Hdb Hrow) as (_ & _ & Hnx).
    rewrite Hn, encode_ok in Hc by (specialize (Hcap t); rewrite (stored_row _ _ _ Hrow) in *; lia).
    injection Hc as <-. eapply next_cursor_not_taken; [exact Hdb|apply Hcap|exact Hok|apply Hs|exact Hin].
  - destruct (commit_inv db xs1 t n r xs2 Hs (Hcap t)) as (Hs' & Ht & Hr & Hst).
    split; [done|]. split; [done|]. intros y. rewrite Hst. unfold commits. cbn [omap list_omap].
    rewrite Ht. case_bool_decide as Hy; case_decide; try congruence; simpl.
    + subst y. by rewrite Hr.
    + split; [done|lia].
  - by eapply drop_inv.
  - eapply tables_inv; [exact Hs|by apply delete_events_inv, Hs|done|done].
  - destruct (insert_topic_inv row db (si_tables _ Hs) Hrow Hz) as [Hi Hst].
    split; [|split; [done|intros t'; rewrite Hran, Hst; split; [done|simpl; by rewrite Z.add_0_r]]].
    eapply tables_inv; [exact Hs|done| |done]. intros y Hy. rewrite topic_row_insert.
    by destruct Hy as [? ->].
Qed.

Lemma commits_app t tr1 tr2 : commits t (tr1 ++ tr2) = commits t tr1 ++ commits t tr2.
Proof. unfold commits. by rewrite omap_app. Qed.

Lemma append_runs_spec s tr s' : sys_inv s → append_runs s tr s' →
  (∀ t, stored_offset t (committed s) + Z.of_nat (length tr) ≤ max_offset) →
  sys_inv s' ∧ (∀ t, Collided t ∉ tr) ∧
  ∀ t, rec_offset <$> commits t tr =
         seqZ (stored_offset t (committed s)) (Z.of_nat (length (commits t tr))) ∧
       stored_offset t (committed s') =
         stored_offset t (committed s) + Z.of_nat (length (commits t tr)).
Proof.
  intros Hs Hruns. induction Hruns as [s|s e s1 tr s2 Hstep Hruns IH]; intros Hcap.
  { split; [done|]. split; [intros t []%elem_of_nil|]. intros t. split; [done|simpl; lia]. }
  destruct (append_step_spec s e s1 Hs) as (Hs1 & Hno & Hc);
    [intros t; specialize (Hcap t); cbn [length] in Hcap; lia|done|].
  assert (∀ t, (length (commits t [e]) ≤ 1)%nat) as Hone
    by (intros t; destruct e; cbn; try lia; case_bool_decide; simpl; lia).
  destruct (IH Hs1) as (Hs2 & Hno2 & Hc2).
  { intros t. destruct (Hc t) as [_ ->]. specialize (Hcap t). specialize (Hone t).
    cbn [length] in Hcap. lia. }
  split; [done|]. split.
  { intros t [He|Hin]%elem_of_cons; [by apply (Hno t)|by apply (Hno2 t)]. }
  intros t. change (e :: tr) with ([e] ++ tr). rewrite commits_app, fmap_app, length_app.
  destruct (Hc t) as [-> Hst]. destruct (Hc2 t) as [-> ->]. rewrite Hst.
  split; [|lia]. rewrite Nat2Z.inj_add, seqZ_app by lia. done.
Qed.

(** The transaction of [append] with nobody else around is such a run. *)
Lemma append_is_a_run t ty src d subj id hash db v : is_Some (topic_row t db) →
  wp (append_body t ty src d subj id hash) (λ o w, match o with
    | Ret r => ∃ d', append_runs (mkPgAppends db [])
        [Ran; Ran; Ran; Ran; Committed (with_data d' r)] (mkPgAppends w.1 [])
    | _ => True
    end) (db, v).
Proof.
  intros Ht. unfold append_body. apply wp_bind. unfold on_platform. apply wp_zoom.
  unfold now, wp. cbn [wp_next]. apply wp_bind, wp_gets. cbn [wp_next fst snd].
  apply wp_bind, wp_lift. destruct (encode t (allocate t db)) as [c|e|] eqn:Hc; [|done|done].
  cbn [wp_next]. cbv zeta. set (r := mkEventRecord id t c ty src d subj _ hash).
  apply wp_bind. eapply wp_mono; [apply insert_event_run|].
  intros [u|e|] [s1 v1] [_ Ho]; [|done|done].
  destruct Ho as (d' & _ & Hs1 & Hnew). simpl in Hs1. subst s1. cbn [wp_next].
  eapply wp_param; [apply int8_param_spec|intros n _ _|done].
  apply wp_bind, wp_modify. cbn [wp_next fst snd]. apply wp_ret. cbn [fst]. exists d'.
  eapply runs_cons; [apply (step_lock db [] t); [done|by intros []%elem_of_nil]|].
  eapply runs_cons; [apply (step_counter db [] t [])|].
  eapply runs_cons; [apply (step_count db [] t _ [])|].
  eapply runs_cons; [apply (step_insert db [] t _ [] (with_data d' r)); [done|exact Hc|]|].
  { unfold taken. cbn. by rewrite app_nil_r. }
  eapply runs_cons; [apply (step_commit db [] t _ _ [])|constructor].
Qed.

(** C21: However the transactions of concurrent appends are interleaved, with
    each other and with compactions and declarations, and wherever some of them
    break off: no append meets its cursor in the table, the offsets committed
    for a topic are consecutive from its counter on, in the order of the
    commits, and the tables stay well formed. *)
Theorem appends_never_collide db0 tr s :
  pg_inv db0 → append_runs (mkPgAppends db0 []) tr s →
  (∀ t, stored_offset t db0 + Z.of_nat (length tr) ≤ max_offset) →
  (∀ t, Collided t ∉ tr) ∧ pg_inv (committed s) ∧
  ∀ t, rec_offset <$> commits t tr =
         seqZ (stored_offset t db0) (Z.of_nat (length (commits t tr))) ∧
       stored_offset t (committed s) =
         stored_offset t db0 + Z.of_nat (length (commits t tr)).
Proof.
  intros Hdb Hruns Hcap. destruct (append_runs_spec (mkPgAppends db0 []) tr s) as (Hs & Hno & Hc);
    [|done..|].
  { split; cbn [committed in_flight]; [done|constructor|constructor]. }
  split; [done|]. split; [apply Hs|done].
Qed.
End Appends.

(** ** Two publishers

    Appends to two topics run at the same time; then the table is compacted to
    nothing, and the next append still takes the next offset. *)
#[local] Existing Instance topic_members.
#[local] Existing Instance byte_order.
#[local] Existing Instance insertion_order.
#[local] Existing Instance verbatim_jsonb.
#[local] Existing Instance sample_platform.

Definition plain_topic (n : string) : Topic :=
  mkTopic n "" None 0 true ["field_filter"%string] None [WEBHOOK].
Definition plain_row (n : string) : TopicRow :=
  mkTopicRow n None 0 true (VDict (topic_config (plain_topic n))) 0 0.
Definition two_topics : PostgresEventStore :=
  insert_topic (plain_row "orders") (insert_topic (plain_row "audit") empty_pg_events).
Definition event_of (id t : string) (n : Z) : EventRecord :=
  mkEventRecord id t (cursor_text t n) "created" "shop" [] None 5 "sha256:0".

Definition order_0 : EventRecord := event_of "evt_1" "orders" 0.
Definition audit_0 : EventRecord := event_of "evt_2" "audit" 0.
Definition order_1 : EventRecord := event_of "evt_3" "orders" 1.
Definition db_1 : PostgresEventStore := appended "orders" 0 order_0 two_topics.
Definition db_2 : PostgresEventStore := appended "audit" 0 audit_0 db_1.
Definition db_3 : PostgresEventStore := delete_events (λ _, false) db_2.
Definition db_4 : PostgresEventStore := appended "orders" 1 order_1 db_3.

Definition two_publishers : list tx_event :=
  [Ran; Ran; Ran; Ran; Ran; Ran; Ran; Ran; Committed order_0; Committed audit_0; Ran;
   Ran; Ran; Ran; Ran; Committed order_1].

Lemma two_topics_inv : pg_inv two_topics.
Proof.
  assert (∀ n, n ≠ EmptyString → wf_topic_row (plain_row n)) as Hwf.
  { intros n Hn. split; [|split; [done|simpl; unfold max_offset; lia]].
    exists (plain_topic n). split; [|done]. apply validate_topic_dump, json_eq_refl. }
  apply insert_topic_inv; [|by apply Hwf|done]. apply insert_topic_inv; [|by apply Hwf|done].
  apply empty_pg_inv.
Qed.

Lemma two_publishers_run :
  append_runs (λ t, Z.of_nat (String.length t)) (mkPgAppends two_topics []) two_publishers
    (mkPgAppends db_4 []).
Proof.
  unfold two_publishers.
  eapply runs_cons; [apply (step_lock _ two_topics [] "orders"); [by eexists|by intros []%elem_of_nil]|].
  eapply runs_cons; [apply (step_lock _ two_topics [mkTx "orders" Locked] "audit");
    [by eexists|by intros [=]%list_elem_of_singleton]|].
  eapply runs_cons; [apply (step_counter _ two_topics [mkTx "audit" Locked] "orders" [])|].
  eapply runs_cons; [apply (step_counter _ two_topics [] "audit" [mkTx "orders" (Counted 0)])|].
  eapply runs_cons; [apply (step_count _ two_topics [] "audit" 0 [mkTx "orders" (Counted 0)])|].
  eapply runs_cons; [apply (step_count _ two_topics [mkTx "audit" (Allocated 0)] "orders" 0 [])|].
  eapply runs_cons; [apply (step_insert _ two_topics [] "audit" 0 [mkTx "orders" (Allocated 0)] audit_0);
    [done|by vm_compute|by intros []%elem_of_nil]|].
  eapply runs_cons; [apply (step_insert _ two_topics [mkTx "audit" (Inserted 0 audit_0)] "orders" 0 [] order_0);
    [done|by vm_compute|apply (bool_decide_unpack _); by vm_compute]|].
  eapply runs_cons; [apply (step_commit _ two_topics [mkTx "audit" (Inserted 0 audit_0)] "orders" 0 order_0 [])|].
  eapply runs_cons; [apply (step_commit _ db_1 [] "audit" 0 audit_0 [])|].
  eapply runs_cons; [apply (step_compact _ db_2 [] (λ _, false))|].
  eapply runs_cons; [apply (step_lock _ db_3 [] "orders"); [by eexists|by intros []%elem_of_nil]|].
  eapply runs_cons; [apply (step_counter _ db_3 [] "orders" [])|].
  eapply runs_cons; [apply (step_count _ db_3 [] "orders" 1 [])|].
  eapply runs_cons; [apply (step_insert _ db_3 [] "orders" 1 [] order_1);
    [done|by vm_compute|by intros []%elem_of_nil]|].
  eapply runs_cons; [apply (step_commit _ db_3 [] "orders" 1 order_1 [])|constructor].
Qed.

Lemma appends_never_collide_witness :
  (∀ t, Collided t ∉ two_publishers) ∧
  rec_offset <$> commits "orders" two_publishers = [0; 1] ∧ stored_offset "orders" db_4 = 2.
Proof.
  destruct (appends_never_collide (λ t, Z.of_nat (String.length t)) two_topics two_publishers
    (mkPgAppends db_4 []) two_topics_inv two_publishers_run) as (Hno & _ & Hc).
  - intros t. unfold stored_offset, two_topics.
    rewrite !topic_row_insert. unfold max_offset. cbn [topic_row topic_rows empty_pg_events List.find].
    repeat case_decide; simpl; lia.
  - split; [exact Hno|]. exact (Hc "orders"%string).
Defined.
