(* ===== verification/PostgresSubscriptionStore.v ===== *)
(** * Postgres subscription store ([runtime/postgres/subscription_store.py])

    The tables [a2a_subscriptions], [a2a_delivery_attempts] and
    [a2a_event_acks] as lists of rows. A read validates a row into a fresh
    object, an [update] writes three columns of its row from an object, so an
    object is a copy that may be stale; the store satisfies the
    [SubscriptionStore] laws all the same. The columns [updated_at],
    [acked_at] and [next_retry_at], which nothing reads, are left out. *)

From S2P Require Import Prelude PyStr Value Errors Effects Models Cursor Canonical Json Contracts.
From S2P Require Import Postgres.
Open Scope Z_scope.

(** ** Rows *)

(** [selector.model_dump(by_alias=True, exclude_none=True)] *)
Definition dump_selector (s : Selector) : list (string * value) :=
  match s with
  | FieldFilterSelector w =>
      [("type"%string, VStr "field_filter"); ("where"%string, VDict (prod_map id VList <$> w))]
  | KeywordSearchSelector ks m fs =>
      [("type"%string, VStr "keyword_search"); ("keywords"%string, VList (VStr <$> ks));
       ("match"%string, VStr match m with match_all => "all" | match_any => "any" end)]
      ++ opt_field (λ l, VList (VStr <$> l)) "fields" fs
  end.

(** [delivery.model_dump(by_alias=True, exclude_none=True)] *)
Definition dump_delivery (d : ResolvedDelivery) : list (string * value) :=
  [("mode"%string, VStr (mode_value (mode d)))] ++ opt_field VStr "resolvedUrl" (resolved_url d)
  ++ opt_field VStr "resolvedEndpoint" (resolved_endpoint d).

(** The pydantic models behind a row: the members of a dump, in any order, give
    the model back, a filter with its fields in the order they come in. *)
Class SubscriptionModel := {
  selector_of_json : value → option Selector;
  delivery_of_json : value → option ResolvedDelivery;
  selector_filter_dump : ∀ w v, json_eq (VDict (dump_selector (FieldFilterSelector w))) v →
    ∃ w', selector_of_json v = Some (FieldFilterSelector w') ∧
          json_eq (VDict (prod_map id VList <$> w)) (VDict (prod_map id VList <$> w'));
  selector_search_dump : ∀ ks m fs v,
    json_eq (VDict (dump_selector (KeywordSearchSelector ks m fs))) v →
    selector_of_json v = Some (KeywordSearchSelector ks m fs);
  delivery_dump : ∀ d v, json_eq (VDict (dump_delivery d)) v → delivery_of_json v = Some d;
}.

(** [a2a_subscriptions] *)
Record SubscriptionRow := mkSubRow {
  sr_subscription_id : string;
  sr_publisher_card_url : string;
  sr_subscriber_card_url : string;
  sr_topics : list string;
  sr_selector : value;
  sr_delivery : value;
  sr_status : string;
  sr_lease_until : Z;
  sr_cursors : value;
  sr_high_water : value;
  sr_metadata : value;
  sr_created_at : Z;
}.

(** The tables; an attempt with its [created_at], and the number of timestamps
    the server has given out. *)
Record PostgresSubscriptionStore := mkPgSubs {
  sub_rows : list SubscriptionRow;
  attempt_rows : list (Z * DeliveryAttempt);
  ack_rows : list ((string * string) * string);
  stamps : nat;
}.

(** [create_schema()] on an empty database *)
Definition empty_pg_subs : PostgresSubscriptionStore := mkPgSubs [] [] [] 0.

Definition validation_failed {A} : outcome A := Raise (ValueError "ValidationError").

(** [SubscriptionStatus] from its text, [dict[str, str]] and [dict[str, Any]]
    from JSON, [int(v)] on a member of [high_water] *)
Definition status_of (s : string) : outcome SubscriptionStatus :=
  if bool_decide (s = status_value ACTIVE) then mret ACTIVE
  else if bool_decide (s = status_value EXPIRED) then mret EXPIRED
  else if bool_decide (s = status_value DELETED) then mret DELETED
  else validation_failed.
Definition text_member (kv : string * value) : outcome (string * string) :=
  match kv.2 with VStr s => mret (kv.1, s) | _ => validation_failed end.
Definition texts_of_json (v : value) : outcome (list (string * string)) :=
  match v with VDict d => sequence (map text_member d) | _ => validation_failed end.
Definition object_of_json (v : value) : outcome (list (string * value)) :=
  match v with VDict d => mret d | _ => validation_failed end.
Definition int_member (kv : string * value) : outcome (string * Z) :=
  match kv.2 with VInt n => mret (kv.1, n) | _ => Raise (Unmodelled "int() of another JSON value") end.
Definition ints_of_json (v : value) : outcome (list (string * Z)) :=
  match v with VDict d => sequence (map int_member d) | _ => Raise (AttributeError "items") end.

Section Rows.
Context `{!SubscriptionModel}.

(** [_selector_json(sub)] *)
Definition selector_json (u : Subscription) : list (string * value) :=
  match selector u with None => [] | Some s => dump_selector s end.

(** [selector = row[4] or None], validated *)
Definition selector_of_row (v : value) : outcome (option Selector) :=
  if truthy v then
    match selector_of_json v with Some s => mret (Some s) | None => validation_failed end
  else mret None.

(** [_row_to_sub(row)] *)
Definition row_to_sub (r : SubscriptionRow) : outcome Subscription :=
  d ← (match delivery_of_json (sr_delivery r) with Some d => mret d | None => validation_failed end);
  s ← selector_of_row (sr_selector r);
  st ← status_of (sr_status r);
  cs ← texts_of_json (sr_cursors r);
  meta ← object_of_json (sr_metadata r);
  mret (mkSubscription (sr_subscription_id r) st (sr_publisher_card_url r) (sr_subscriber_card_url r)
          (sr_topics r) s d (sr_created_at r) (sr_lease_until r) cs meta).
End Rows.

Definition has_id (sid : string) (r : SubscriptionRow) : bool :=
  bool_decide (sr_subscription_id r = sid).
Definition sub_row (sid : string) (s : PostgresSubscriptionStore) : option SubscriptionRow :=
  List.find (has_id sid) (sub_rows s).

(** [ORDER BY created_at, subscription_id] *)
Definition sub_leb `{Collation} (x y : SubscriptionRow) : bool :=
  (sr_created_at x <? sr_created_at y) ||
  ((sr_created_at x =? sr_created_at y) && text_leb (sr_subscription_id x) (sr_subscription_id y)).
(** [ORDER BY created_at] *)
Definition attempt_leb (x y : Z * DeliveryAttempt) : bool := x.1 <=? y.1.

Section Operations.
Context `{!RowOrder, !Collation, !JsonbColumn, !SubscriptionModel, !ServerClock}.
Local Abbreviation ST := (M (PostgresSubscriptionStore * Heap)).

Definition update_tables (f : PostgresSubscriptionStore → PostgresSubscriptionStore) : ST unit :=
  modify (λ w, (f w.1, w.2)).

(** A statement that rewrites the rows of one subscription. *)
Definition update_row (sid : string) (f : SubscriptionRow → SubscriptionRow)
    (s : PostgresSubscriptionStore) : PostgresSubscriptionStore :=
  mkPgSubs ((λ r, if has_id sid r then f r else r) <$> sub_rows s) (attempt_rows s) (ack_rows s)
    (stamps s).

(** A [TEXT[]] parameter *)
Definition texts_param (l : list string) : outcome (list string) := sequence (map text_param l).

(** [add(sub, high_water)] *)
Definition pg_add (sub : loc) (high_water : list (string * Z)) : ST unit :=
  u ← deref sub;
  sid ← lift (text_param (subscription_id u));
  publisher ← lift (text_param (publisher_card_url u));
  subscriber ← lift (text_param (subscriber_card_url u));
  ts ← lift (texts_param (topics u));
  selector ← lift (jsonb (VDict (selector_json u)));
  delivery ← lift (jsonb (VDict (dump_delivery (delivery u))));
  cursors ← lift (jsonb (VDict (prod_map id VStr <$> cursors u)));
  hw ← lift (jsonb (VDict (prod_map id VInt <$> high_water)));
  metadata ← lift (jsonb (VDict (metadata u)));
  s ← gets fst;
  if existsb (has_id sid) (sub_rows s) then raise (pg_error "errors.UniqueViolation")
  else update_tables (λ s, mkPgSubs (sub_rows s ++ [mkSubRow sid publisher subscriber ts selector
         delivery (status_value (status u)) (lease_until u) cursors hw metadata (created_at u)])
         (attempt_rows s) (ack_rows s) (stamps s)).

(** [get(subscription_id)] *)
Definition pg_get (sid : string) : ST (option loc) :=
  _ ← lift (text_param sid);
  row ← gets (λ w, sub_row sid w.1);
  match row with
  | None => mret None
  | Some r => u ← lift (row_to_sub r); l ← alloc u; mret (Some l)
  end.

(** [list_all()] *)
Definition pg_list_all : ST (list loc) :=
  rows ← gets (λ w, sort_by sub_leb (scan (sub_rows w.1)));
  map_m (λ r, u ← lift (row_to_sub r); alloc u) rows.

(** The columns that [update] writes. *)
Definition with_columns (st : string) (lease : Z) (cursors : value) (r : SubscriptionRow)
    : SubscriptionRow :=
  mkSubRow (sr_subscription_id r) (sr_publisher_card_url r) (sr_subscriber_card_url r) (sr_topics r)
    (sr_selector r) (sr_delivery r) st lease cursors (sr_high_water r) (sr_metadata r)
    (sr_created_at r).

(** [update(sub)] *)
Definition pg_update (sub : loc) : ST unit :=
  u ← deref sub;
  cursors ← lift (jsonb (VDict (prod_map id VStr <$> cursors u)));
  sid ← lift (text_param (subscription_id u));
  update_tables (update_row sid (with_columns (status_value (status u)) (lease_until u) cursors)).

(** [high_water(subscription_id)] *)
Definition pg_high_water (sid : string) : ST (list (string * Z)) :=
  _ ← lift (text_param sid);
  row ← gets (λ w, sub_row sid w.1);
  match row with None => mret [] | Some r => lift (ints_of_json (sr_high_water r)) end.

(** [jsonb_set(high_water, ARRAY[topic], to_jsonb(offset))] *)
Definition set_member (topic : string) (offset : Z) (v : value) : value :=
  match v with VDict d => VDict (dict_set topic (VInt offset) d) | _ => v end.
Definition with_high_water (f : value → value) (r : SubscriptionRow) : SubscriptionRow :=
  mkSubRow (sr_subscription_id r) (sr_publisher_card_url r) (sr_subscriber_card_url r) (sr_topics r)
    (sr_selector r) (sr_delivery r) (sr_status r) (sr_lease_until r) (sr_cursors r)
    (f (sr_high_water r)) (sr_metadata r) (sr_created_at r).

(** [set_high_water(subscription_id, topic, offset)] *)
Definition pg_set_high_water (sid topic : string) (offset : Z) : ST unit :=
  t ← lift (text_param topic);
  n ← lift (int4_param offset);
  x ← lift (text_param sid);
  update_tables (update_row x (with_high_water (set_member t n))).

(** The foreign key to [a2a_subscriptions]. *)
Definition referenced (sid : string) : ST unit :=
  known ← gets (λ w, existsb (has_id sid) (sub_rows w.1));
  if known : bool then mret tt else raise (pg_error "errors.ForeignKeyViolation").

(** [record_ack(subscription_id, event_id, cursor)] *)
Definition pg_record_ack (sid eid cursor : string) : ST unit :=
  _ ← lift (_ ← text_param sid; _ ← text_param eid; text_param cursor);
  _ ← referenced sid;
  update_tables (λ s, mkPgSubs (sub_rows s) (attempt_rows s) (dict_set (sid, eid) cursor (ack_rows s))
    (stamps s)).

Definition opt_int4_param (n : option Z) : outcome (option Z) :=
  match n with Some m => Some <$> int4_param m | None => mret None end.

(** The parameters of the [INSERT] of [record_attempt]. *)
Definition attempt_params (a : DeliveryAttempt) : outcome unit :=
  _ ← text_param (delivery_attempt_id a);
  _ ← text_param (da_subscription_id a);
  _ ← text_param (da_event_id a);
  _ ← text_param (da_cursor a);
  _ ← int4_param (attempt a);
  _ ← text_param (da_status a);
  _ ← opt_int4_param (last_status_code a);
  _ ← opt_text_param (last_error a);
  mret tt.

(** [record_attempt(attempt)] *)
Definition pg_record_attempt (a : DeliveryAttempt) : ST unit :=
  _ ← lift (attempt_params a);
  _ ← referenced (da_subscription_id a);
  s ← gets fst;
  if existsb (λ r, bool_decide (delivery_attempt_id r.2 = delivery_attempt_id a)) (attempt_rows s)
  then raise (pg_error "errors.UniqueViolation")
  else update_tables (λ s, mkPgSubs (sub_rows s) (attempt_rows s ++ [(server_now (stamps s), a)])
         (ack_rows s) (S (stamps s))).

(** [delivery_attempts(subscription_id)] *)
Definition pg_delivery_attempts (sid : string) : ST (list DeliveryAttempt) :=
  _ ← lift (text_param sid);
  gets (λ w, snd <$> sort_by attempt_leb (scan (List.filter
    (λ r, bool_decide (da_subscription_id r.2 = sid)) (attempt_rows w.1)))).

(** [r[3] or "failed"] *)
Definition reason_or_failed (a : DeliveryAttempt) : string :=
  match last_error a with
  | Some e => if bool_decide (e = EmptyString) then "failed"%string else e
  | None => "failed"%string
  end.

(** [dead_letters()] *)
Definition pg_dead_letters : ST (list DeadLetter) :=
  gets (λ w, (λ r, mkDeadLetter (da_subscription_id r.2) (da_event_id r.2) (da_cursor r.2)
                     (reason_or_failed r.2))
    <$> sort_by attempt_leb (scan (List.filter
      (λ r, bool_decide (da_status r.2 = "dead_letter"%string)) (attempt_rows w.1)))).

#[export] Instance postgres_subscription_store : SubscriptionStore PostgresSubscriptionStore := {|
  ss_add := pg_add;
  ss_get := pg_get;
  ss_list_all := pg_list_all;
  ss_update := pg_update;
  ss_high_water := pg_high_water;
  ss_set_high_water := pg_set_high_water;
  ss_record_ack := pg_record_ack;
  ss_record_attempt := pg_record_attempt;
  ss_delivery_attempts := pg_delivery_attempts;
  ss_dead_letters := pg_dead_letters;
|}.
End Operations.

(** ** Rows and subscriptions *)

Lemma status_of_value st : status_of (status_value st) = Ret st.
Proof. by destruct st. Qed.

Lemma sequence_inverse {A B} (f : A → B) (g : B → outcome A) l :
  (∀ x, g (f x) = Ret x) → sequence (map g (f <$> l)) = Ret l.
Proof. intros Hg. induction l as [|x l IH]; [done|]. cbn. by rewrite Hg, IH. Qed.

Lemma texts_of_json_texts d : texts_of_json (VDict (prod_map id VStr <$> d)) = Ret d.
Proof. apply (sequence_inverse (prod_map id VStr) text_member). by intros []. Qed.

Lemma ints_of_json_ints d : ints_of_json (VDict (prod_map id VInt <$> d)) = Ret d.
Proof. apply (sequence_inverse (prod_map id VInt) int_member). by intros []. Qed.

Lemma set_member_ints t n d :
  set_member t n (VDict (prod_map id VInt <$> d)) = VDict (prod_map id VInt <$> dict_set t n d).
Proof.
  simpl. f_equal. induction d as [|[k v] d IH]; [done|]. cbn. case_decide; [done|]. cbn. by rewrite IH.
Qed.

Section RowFacts.
Context `{!RowOrder, !Collation, !JsonbColumn, !SubscriptionModel, !ServerClock}.

Lemma row_to_sub_id r u : row_to_sub r = Ret u → subscription_id u = sr_subscription_id r.
Proof.
  unfold row_to_sub. intros Hr. ret_step Hr d Hd. ret_step Hr s Hs. ret_step Hr st Hst.
  ret_step Hr cs Hcs. ret_step Hr meta Hm. by injection Hr as <-.
Qed.

(** The columns of [update] are what changes in the subscription. *)
Lemma row_to_sub_columns r u st lease cs :
  row_to_sub r = Ret u →
  row_to_sub (with_columns (status_value st) lease (VDict (prod_map id VStr <$> cs)) r) =
  Ret (with_cursors cs (with_lease lease (with_status st u))).
Proof.
  unfold row_to_sub. intros Hr. ret_step Hr d Hd. ret_step Hr s Hs. ret_step Hr st' Hst.
  ret_step Hr cs' Hcs. ret_step Hr meta Hm. injection Hr as <-.
  cbn [with_columns sr_delivery sr_selector sr_status sr_cursors sr_metadata].
  rewrite Hd, Hs, Hm, status_of_value, texts_of_json_texts. done.
Qed.

Lemma update_row_lookup sid f s x :
  (∀ r, sr_subscription_id (f r) = sr_subscription_id r) →
  sub_row x (update_row sid f s) =
  if decide (x = sid) then f <$> sub_row sid s else sub_row x s.
Proof.
  intros Hf. unfold sub_row, update_row, has_id. cbn [sub_rows].
  induction (sub_rows s) as [|r l IH]; [by case_decide|]. cbn [fmap list_fmap List.find].
  assert (sr_subscription_id (if bool_decide (sr_subscription_id r = sid) then f r else r) =
    sr_subscription_id r) as -> by (by destruct (bool_decide _)).
  destruct (decide (sr_subscription_id r = x)) as [<-|Ex].
  - rewrite (bool_decide_true (sr_subscription_id r = sr_subscription_id r)) by done.
    by case_bool_decide; case_decide.
  - rewrite (bool_decide_false (sr_subscription_id r = x)) by done. rewrite IH.
    case_decide; [|done]. subst x. by rewrite bool_decide_false.
Qed.

Lemma sub_row_elem x s r : sub_row x s = Some r → r ∈ sub_rows s ∧ sr_subscription_id r = x.
Proof.
  intros [Hin Hx]%find_some. split; [by apply list_elem_of_In|]. by apply bool_decide_eq_true in Hx.
Qed.

(** With distinct keys every row is found under its own. *)
Lemma sub_row_of r s :
  r ∈ sub_rows s → NoDup (sr_subscription_id <$> sub_rows s) → sub_row (sr_subscription_id r) s = Some r.
Proof.
  unfold sub_row, has_id. induction (sub_rows s) as [|r' l IH]; [by intros ?%elem_of_nil|].
  intros Hr [Hnin Hnd]%NoDup_cons. cbn [List.find]. apply elem_of_cons in Hr as [->|Hr].
  - by rewrite bool_decide_true.
  - rewrite bool_decide_false; [by apply IH|]. intros E. apply Hnin. rewrite E.
    by apply list_elem_of_fmap_2.
Qed.

(** ** The invariant and the view *)

Definition wf_sub_row (r : SubscriptionRow) : Prop :=
  (∃ u, row_to_sub r = Ret u) ∧ ∃ hw, sr_high_water r = VDict (prod_map id VInt <$> hw).

(** Rows that validate, under different keys, and objects below the next
    location; the objects need not agree with the rows. *)
Record pg_subs_inv (s : PostgresSubscriptionStore) (h : Heap) : Prop := {
  psi_keys : NoDup (sr_subscription_id <$> sub_rows s);
  psi_rows : Forall wf_sub_row (sub_rows s);
  psi_fresh : ∀ l, is_Some (objs h !! l) → (l < next_loc h)%positive;
}.

Definition pg_row (s : PostgresSubscriptionStore) (sid : string) : option Subscription :=
  r ← sub_row sid s; match row_to_sub r with Ret u => Some u | _ => None end.
Definition pg_hw (s : PostgresSubscriptionStore) (sid : string) : list (string * Z) :=
  match sub_row sid s with
  | Some r => match ints_of_json (sr_high_water r) with Ret hw => hw | _ => [] end
  | None => []
  end.

Lemma empty_pg_subs_inv : pg_subs_inv empty_pg_subs (mkHeap ∅ 1).
Proof.
  split; [constructor|constructor|]. intros l [u Hu]. simpl in Hu. by rewrite lookup_empty in Hu.
Qed.

Lemma sub_row_wf s h x r : pg_subs_inv s h → sub_row x s = Some r → wf_sub_row r.
Proof.
  intros Hs [Hr _]%sub_row_elem. pose proof (psi_rows _ _ Hs) as Hw. rewrite Forall_forall in Hw.
  by apply Hw.
Qed.

Lemma pg_row_some s h x u : pg_subs_inv s h → pg_row s x = Some u →
  ∃ r, sub_row x s = Some r ∧ row_to_sub r = Ret u ∧ subscription_id u = x.
Proof.
  intros Hs Hu. unfold pg_row in Hu. destruct (sub_row x s) as [r|] eqn:Hr; [|done]. cbn in Hu.
  destruct (row_to_sub r) as [v| |] eqn:Hv; [|done..]. injection Hu as ->. exists r.
  split_and!; [done..|]. rewrite (row_to_sub_id _ _ Hv). by apply sub_row_elem in Hr as [_ ?].
Qed.

Lemma pg_row_none s h x : pg_subs_inv s h → pg_row s x = None → sub_row x s = None.
Proof.
  intros Hs Hu. unfold pg_row in Hu. destruct (sub_row x s) as [r|] eqn:Hr; [|done].
  destruct (sub_row_wf s h x r Hs Hr) as [[v Hv] _]. cbn in Hu. by rewrite Hv in Hu.
Qed.

(** A statement that rewrites rows keeps the invariant if the rows stay
    well-formed. *)
Lemma update_row_inv s h sid f :
  (∀ r, sr_subscription_id (f r) = sr_subscription_id r) → (∀ r, wf_sub_row r → wf_sub_row (f r)) →
  pg_subs_inv s h → pg_subs_inv (update_row sid f s) h.
Proof.
  intros Hid Hwf [Hk Hr Hf]. split; [| |done]; cbn [update_row sub_rows].
  - rewrite <- list_fmap_compose. rewrite (list_fmap_ext _ sr_subscription_id); [done|].
    intros _ r _. unfold compose. by destruct (has_id sid r).
  - apply Forall_fmap. eapply Forall_impl; [exact Hr|]. intros r. unfold compose.
    destruct (has_id sid r); auto.
Qed.

Lemma pg_hw_update s sid f x :
  (∀ r, sr_subscription_id (f r) = sr_subscription_id r) →
  (∀ r, sr_high_water (f r) = sr_high_water r) → pg_hw (update_row sid f s) x = pg_hw s x.
Proof.
  intros Hid Hf. unfold pg_hw. rewrite update_row_lookup by done. case_decide as Hx; [|done].
  subst x. destruct (sub_row sid s) as [r|]; [|done]. simpl. by rewrite Hf.
Qed.

(** ** What comes back from JSONB *)

(** A dictionary of flat values comes back as a permutation. *)
Lemma members_back {A} (f : A → value) d :
  Forall (λ kv, plain (f kv.2) = true ∧ flat (f kv.2) = true) d → dict_wf d →
  pg_pure (jsonb (VDict (prod_map id f <$> d))) (λ v, ∃ d', v = VDict (prod_map id f <$> d') ∧ d ≡ₚ d').
Proof.
  intros Hf Hd. assert (plain (VDict (prod_map id f <$> d)) = true) as Hp.
  { cbn [plain]. apply andb_true_iff. split.
    - apply bool_decide_eq_true. rewrite <- list_fmap_compose. exact Hd.
    - apply Is_true_true, forallb_True, Forall_fmap. eapply Forall_impl; [exact Hf|]. intros kv [Hkv _]. by apply Is_true_true. }
  pose proof (jsonb_plain _ Hp) as Hj. destruct (jsonb _) as [v| |]; [|done|done].
  apply json_eq_members in Hj as (d' & -> & Hperm).
  - symmetry in Hperm. apply Permutation_map_inv in Hperm as (d2 & -> & Hd2). by exists d2.
  - apply Forall_fmap. eapply Forall_impl; [exact Hf|]. by intros kv [_ ?].
Qed.

Lemma texts_back d : dict_wf d → pg_pure (jsonb (VDict (prod_map id VStr <$> d)))
  (λ v, ∃ d', v = VDict (prod_map id VStr <$> d') ∧ d ≡ₚ d').
Proof. apply members_back. by apply Forall_forall. Qed.

Lemma ints_back d : dict_wf d → pg_pure (jsonb (VDict (prod_map id VInt <$> d)))
  (λ v, ∃ d', v = VDict (prod_map id VInt <$> d') ∧ d ≡ₚ d').
Proof. apply members_back. by apply Forall_forall. Qed.

(** The subscriptions that come back equal: dictionaries that JSONB keeps, and
    a filter of scalars. *)
Definition storable_selector (s : option Selector) : Prop :=
  match s with
  | Some (FieldFilterSelector w) =>
      dict_wf w ∧ Forall (λ kv, plain (VList kv.2) = true ∧ flat (VList kv.2) = true) w
  | _ => True
  end.
Definition storable (u : Subscription) : Prop :=
  dict_wf (cursors u) ∧ storable_selector (selector u) ∧
  dict_wf (metadata u) ∧ Forall (λ kv, plain kv.2 = true ∧ flat kv.2 = true) (metadata u).

Lemma json_eq_truthy d v : d ≠ [] → json_eq (VDict d) v → truthy v = true.
Proof.
  intros Hd Hv. inversion Hv as [| |d1 d2 d3 Hnd Hp Hm]; subst; simpl; apply negb_true_iff, bool_decide_eq_false.
  - by destruct d.
  - apply Forall2_length in Hm. rewrite <- Hm, <- Hp. by destruct d.
Qed.

Lemma selector_back u : storable_selector (selector u) →
  pg_pure (jsonb (VDict (selector_json u))) (λ v, ∃ s', selector_of_row v = Ret s' ∧ sel_eq (selector u) s').
Proof.
  intros Hs. unfold selector_json.
  assert (∀ d, plain (VDict d) = true → pg_pure (jsonb (VDict d)) (json_eq (VDict d))) as Hback
    by (intros d Hd; by apply jsonb_plain).
  destruct (selector u) as [[w|ks m fs]|]; unfold selector_of_row.
  - destruct Hs as [Hw Hflat].
    assert (plain (VDict (prod_map id VList <$> w)) = true) as Hp.
    { cbn [plain]. apply andb_true_iff. split.
      - apply bool_decide_eq_true. rewrite <- list_fmap_compose. exact Hw.
      - apply Is_true_true, forallb_True, Forall_fmap. eapply Forall_impl; [exact Hflat|].
        intros kv [Hkv _]. by apply Is_true_true. }
    assert (plain (VDict (dump_selector (FieldFilterSelector w))) = true) as Hp'
      by (cbn [dump_selector]; revert Hp; generalize (VDict (prod_map id VList <$> w)) as x; intros x Hx;
          cbn [plain forallb snd]; by rewrite Hx).
    specialize (Hback _ Hp'). destruct (jsonb _) as [v|e|]; [|done|done]. cbn [pg_pure] in Hback |- *.
    rewrite (json_eq_truthy (dump_selector (FieldFilterSelector w)) v) by done.
    destruct (selector_filter_dump w v Hback) as (w' & -> & Hww). cbn. eexists. split; [done|]. simpl.
    apply json_eq_members in Hww as (d' & [= <-] & Hperm).
    + symmetry in Hperm. apply Permutation_map_inv in Hperm as (w2 & Heq & Hw2).
      apply list_fmap_eq_inj in Heq as ->; [done|]. intros [k x] [k' x'] [= -> ->]. done.
    + apply Forall_fmap. eapply Forall_impl; [exact Hflat|]. by intros kv [_ ?].
  - assert (plain (VDict (dump_selector (KeywordSearchSelector ks m fs))) = true) as Hp.
    { assert (∀ l, forallb plain (VStr <$> l) = true) as Hl by (intros l; induction l; done).
      destruct fs as [fs|]; cbn [dump_selector opt_field app plain forallb snd]; rewrite ?Hl; done. }
    specialize (Hback _ Hp). destruct (jsonb _) as [v|e|]; [|done|done]. cbn [pg_pure] in Hback |- *.
    rewrite (json_eq_truthy (dump_selector (KeywordSearchSelector ks m fs)) v) by done.
    rewrite (selector_search_dump ks m fs v Hback). by eexists.
  - specialize (Hback [] eq_refl). destruct (jsonb _) as [v|e|]; [|done|done]. cbn [pg_pure] in Hback |- *.
    exists None. split; [|done].
    apply json_eq_members in Hback as (d' & -> & Hd); [|constructor].
    apply Permutation_nil in Hd as ->. done.
Qed.
End RowFacts.

(** ** The laws of the contract *)

Section Laws.
Context `{!RowOrder, !Collation, !JsonbColumn, !SubscriptionModel, !ServerClock}.

(** A fresh object for a row. *)
Lemma alloc_run s h u : pg_subs_inv s h →
  ∃ l h', alloc u (s, h) = (Ret l, (s, h')) ∧ pg_subs_inv s h' ∧ objs h ⊆ objs h' ∧
    objs h' !! l = Some u.
Proof.
  intros Hs. pose proof (psi_fresh _ _ Hs) as Hf. do 2 eexists. split; [done|]. cbn [objs].
  assert (objs h !! next_loc h = None) as Hnew.
  { destruct (objs h !! next_loc h) eqn:E; [|done].
    assert (next_loc h < next_loc h)%positive by (apply Hf; by eexists). lia. }
  split; [|split; [by apply insert_subseteq|apply lookup_insert_eq]].
  destruct Hs as [Hk Hrw _]. split; [done|done|]. cbn [objs next_loc]. intros l Hl.
  destruct (decide (l = next_loc h)) as [->|Hne]; [lia|].
  rewrite lookup_insert_ne in Hl by done. specialize (Hf l Hl). lia.
Qed.

Lemma pg_get_run s h sid : pg_subs_inv s h →
  effect_or_refusal database_error (s, h) (λ r sh, sh.1 = s ∧ pg_subs_inv s sh.2 ∧ objs h ⊆ objs sh.2 ∧
    match r with
    | None => pg_row s sid = None
    | Some l => ∃ u, objs sh.2 !! l = Some u ∧ subscription_id u = sid ∧ pg_row s sid = Some u
    end) (pg_get sid (s, h)).
Proof.
  intros Hs. apply wp_effect. unfold pg_get.
  eapply wp_param; [apply text_param_spec|intros _ _ _|done].
  apply wp_bind, wp_gets. cbn [wp_next fst]. destruct (sub_row sid s) as [r|] eqn:Hr.
  2:{ apply wp_ret. unfold pg_row. by rewrite Hr. }
  destruct (sub_row_wf s h sid r Hs Hr) as [[u Hu] _]. rewrite Hu.
  apply wp_bind, wp_lift. cbn [wp_next]. apply wp_bind.
  destruct (alloc_run s h u Hs) as (l & h' & Hrun & Hi & Hsub & Hl).
  eapply wp_run_iff; [exact Hrun|]. cbn [wp_next]. apply wp_ret. split_and!; [done..|].
  exists u. split; [done|]. split; [rewrite (row_to_sub_id _ _ Hu); by apply sub_row_elem in Hr as [_ ?]|].
  unfold pg_row. rewrite Hr. cbn. by rewrite Hu.
Qed.

(** The objects for a list of rows. *)
Lemma load_run s h rows : pg_subs_inv s h → Forall wf_sub_row rows →
  ∃ ls h' us, map_m (λ r, lift (row_to_sub r) ≫= alloc) rows (s, h) = (Ret ls, (s, h')) ∧
    pg_subs_inv s h' ∧ objs h ⊆ objs h' ∧ Forall2 (λ l u, objs h' !! l = Some u) ls us ∧
    Forall2 (λ r u, row_to_sub r = Ret u) rows us.
Proof.
  revert h. induction rows as [|r rows IH]; intros h Hs Hwf; [by exists [], h, []|].
  apply Forall_cons in Hwf as [[[u Hu] _] Hwf].
  destruct (alloc_run s h u Hs) as (l & h1 & Hrun & Hi & Hsub & Hl).
  destruct (IH h1 Hi Hwf) as (ls & h2 & us & Hrest & Hi2 & Hsub2 & Hls & Hus).
  exists (l :: ls), h2, (u :: us). cbn [map_m]. split_and!; [|done|by etransitivity| |by constructor].
  - unfold mbind, M_bind, lift. rewrite Hu, Hrun. unfold mbind, M_bind, lift in Hrest. by rewrite Hrest.
  - constructor; [|done]. by eapply lookup_weaken.
Qed.

Lemma pg_list_all_run s h : pg_subs_inv s h →
  ∃ ls h' us, pg_list_all (s, h) = (Ret ls, (s, h')) ∧ pg_subs_inv s h' ∧ objs h ⊆ objs h' ∧
    Forall2 (λ l u, objs h' !! l = Some u ∧ pg_row s (subscription_id u) = Some u) ls us ∧
    NoDup (subscription_id <$> us) ∧ ∀ x, is_Some (pg_row s x) → x ∈ subscription_id <$> us.
Proof.
  intros Hs. set (rows := sort_by sub_leb (scan (sub_rows s))).
  assert (rows ≡ₚ sub_rows s) as Hp by (unfold rows; by rewrite sort_by_perm, scan_perm).
  destruct (load_run s h rows Hs) as (ls & h' & us & Hrun & Hi & Hsub & Hls & Hus).
  { rewrite Hp. apply Hs. }
  assert (sr_subscription_id <$> rows = subscription_id <$> us) as Hids.
  { clear -Hus. induction Hus as [|r u rows us Hr _ IH]; [done|]. rewrite !fmap_cons.
    f_equal; [symmetry; by apply row_to_sub_id|done]. }
  exists ls, h', us. split_and!; [exact Hrun|done..| | |].
  - assert (Forall (λ u, pg_row s (subscription_id u) = Some u) us) as Hrow.
    { assert (∀ r, r ∈ rows → sub_row (sr_subscription_id r) s = Some r) as Hget.
      { intros r Hr. apply sub_row_of; [by rewrite <- Hp|apply Hs]. }
      clear -Hus Hget. induction Hus as [|r u rows us Hr _ IH]; constructor.
      - unfold pg_row. rewrite (row_to_sub_id _ _ Hr), Hget by left. simpl. by rewrite Hr.
      - apply IH. intros r' Hr'. apply Hget. by right. }
    clear -Hls Hrow. induction Hls; inversion Hrow; constructor; auto.
  - rewrite <- Hids, Hp. apply Hs.
  - intros x [u Hu]. destruct (pg_row_some s h _ _ Hs Hu) as (r & Hr & _ & _).
    apply sub_row_elem in Hr as [Hr <-]. rewrite <- Hids, Hp. by apply list_elem_of_fmap_2.
Qed.

(** The row after [update] wrote the columns of [u]. *)
Lemma pg_update_row s h x u u0 d' : pg_subs_inv s h → pg_row s (subscription_id u) = Some u0 →
  let s' := update_row (subscription_id u) (with_columns (status_value (status u)) (lease_until u)
              (VDict (prod_map id VStr <$> d'))) s in
  pg_subs_inv s' h ∧ (∀ y, pg_hw s' y = pg_hw s y) ∧
  pg_row s' x = if decide (x = subscription_id u)
                then Some (with_cursors d' (with_lease (lease_until u) (with_status (status u) u0)))
                else pg_row s x.
Proof.
  intros Hs Hu0 s'. destruct (pg_row_some s h _ _ Hs Hu0) as (r & Hr & Hru & _).
  assert (∀ st n v r, sr_subscription_id (with_columns st n v r) = sr_subscription_id r) as Hid by done.
  split; [|split].
  - apply update_row_inv; [done| |done]. intros r' [[v Hv] Hhw]. split; [|done].
    eexists. by apply row_to_sub_columns.
  - intros y. by apply pg_hw_update.
  - unfold pg_row, s'. rewrite update_row_lookup by done. case_decide as Hx; [|done].
    rewrite Hr. cbn [fmap option_fmap option_map mbind option_bind].
    by rewrite (row_to_sub_columns r u0).
Qed.

Lemma deref_run (s : PostgresSubscriptionStore) h l u :
  objs h !! l = Some u → deref l (s, h) = (Ret u, (s, h)).
Proof. intros Hu. unfold deref. by rewrite Hu. Qed.

Lemma pg_update_run s h l u u0 : pg_subs_inv s h → objs h !! l = Some u →
  pg_row s (subscription_id u) = Some u0 →
  effect_or_refusal database_error (s, h) (λ _ sh, sh.2 = h ∧ pg_subs_inv sh.1 h ∧
    (∃ u', pg_row sh.1 (subscription_id u) = Some u' ∧
           (same_creation u0 u → same_but_cursors u u' ∧ (dict_wf (cursors u) → sub_eq u u'))) ∧
    (∀ x, x ≠ subscription_id u → pg_row sh.1 x = pg_row s x) ∧
    (∀ x, pg_hw sh.1 x = pg_hw s x) ∧ snd <$> attempt_rows sh.1 = snd <$> attempt_rows s)
    (pg_update l (s, h)).
Proof.
  intros Hs Hu Hu0. apply wp_effect. unfold pg_update. apply wp_bind.
  apply (wp_run_iff _ _ _ _ _ (deref_run s h l u Hu)). cbn [wp_next].
  pose proof (texts_back (cursors u)) as Hback.
  eapply wp_param; [apply jsonb_texts|intros v Hv (d' & ->)|done].
  eapply wp_param; [apply text_param_spec|intros x _ [-> _]|done].
  apply wp_modify. cbn [fst snd].
  pose proof (pg_update_row s h (subscription_id u) u u0 d' Hs Hu0) as (Hi & Hhw & Hrow).
  split; [done|]. split; [done|]. split; [|split; [|by split]].
  - eexists. split; [rewrite Hrow, decide_True by done; done|]. intros Hc.
    assert (with_cursors d' (with_lease (lease_until u) (with_status (status u) u0)) =
      with_cursors d' u) as ->.
    { destruct u, u0. unfold same_creation in Hc. cbn in *. by simplify_eq. }
    split; [done|]. intros Hwf. specialize (Hback Hwf). rewrite Hv in Hback.
    destruct Hback as (d2 & [= Heq] & Hd2). apply list_fmap_eq_inj in Heq as ->; [by split|].
    intros [k y] [k' y'] [= -> ->]. done.
  - intros y Hy. pose proof (pg_update_row s h y u u0 d' Hs Hu0) as (_ & _ & Hrow').
    by rewrite Hrow', decide_False.
Qed.

Lemma pg_high_water_run s h sid : pg_subs_inv s h → is_Some (pg_row s sid) →
  effect_or_refusal database_error (s, h) (λ hw sh, sh = (s, h) ∧ hw = pg_hw s sid)
    (pg_high_water sid (s, h)).
Proof.
  intros Hs [u Hu]. destruct (pg_row_some s h _ _ Hs Hu) as (r & Hr & _ & _).
  destruct (sub_row_wf s h sid r Hs Hr) as [_ [hw Hhw]].
  apply wp_effect. unfold pg_high_water.
  eapply wp_param; [apply text_param_spec|intros _ _ _|done].
  apply wp_bind, wp_gets. cbn [wp_next fst]. rewrite Hr, Hhw, ints_of_json_ints. apply wp_lift.
  split; [done|]. unfold pg_hw. by rewrite Hr, Hhw, ints_of_json_ints.
Qed.

Lemma pg_set_high_water_run s h sid t n : pg_subs_inv s h → is_Some (pg_row s sid) →
  effect_or_refusal database_error (s, h) (λ _ sh, sh.2 = h ∧ pg_subs_inv sh.1 h ∧
    (∀ x, pg_row sh.1 x = pg_row s x) ∧
    (∀ x t', position_of (pg_hw sh.1 x) t' =
       if decide (x = sid ∧ t' = t) then n else position_of (pg_hw s x) t') ∧
    snd <$> attempt_rows sh.1 = snd <$> attempt_rows s) (pg_set_high_water sid t n (s, h)).
Proof.
  intros Hs [u Hu]. destruct (pg_row_some s h _ _ Hs Hu) as (r & Hr & _ & _).
  destruct (sub_row_wf s h sid r Hs Hr) as [_ [hw Hhw]].
  apply wp_effect. unfold pg_set_high_water.
  eapply wp_param; [apply text_param_spec|intros t0 _ [-> _]|done].
  eapply wp_param; [apply int4_param_spec|intros n0 _ [-> _]|done].
  eapply wp_param; [apply text_param_spec|intros x0 _ [-> _]|done].
  apply wp_modify. cbn [fst snd].
  set (f := with_high_water (set_member t n)).
  assert (∀ r, sr_subscription_id (f r) = sr_subscription_id r) as Hid by done.
  split_and!; [done| | | |done].
  - apply update_row_inv; [done| |done]. intros r' [Hv [hw' Hhw']]. split; [done|].
    exists (dict_set t n hw'). simpl. by rewrite Hhw', set_member_ints.
  - intros x. unfold pg_row. rewrite update_row_lookup by done. case_decide as Hx; [|done].
    subst x. by rewrite Hr.
  - intros x t'. unfold pg_hw at 1. rewrite update_row_lookup by done.
    destruct (decide (x = sid)) as [->|Hx]; [|rewrite decide_False by naive_solver; done].
    rewrite Hr. cbn [fmap option_fmap option_map f with_high_water sr_high_water].
    rewrite Hhw, set_member_ints, ints_of_json_ints.
    unfold pg_hw. rewrite Hr, Hhw, ints_of_json_ints. unfold position_of. rewrite dict_get_set.
    repeat case_decide; naive_solver.
Qed.

Lemma referenced_run s h sid u Q : pg_subs_inv s h → pg_row s sid = Some u →
  Q (Ret tt) (s, h) → wp (referenced sid) Q (s, h).
Proof.
  intros Hs Hu HQ. destruct (pg_row_some s h _ _ Hs Hu) as (r & Hr & _ & _).
  unfold referenced. apply wp_bind, wp_gets. cbn [wp_next fst].
  assert (existsb (has_id sid) (sub_rows s) = true) as ->; [|done].
  apply existsb_exists. exists r. apply find_some in Hr as [? ?]. done.
Qed.

Lemma same_rows s h s' : pg_subs_inv s h → sub_rows s' = sub_rows s →
  pg_subs_inv s' h ∧ (∀ x, pg_row s' x = pg_row s x) ∧ (∀ x, pg_hw s' x = pg_hw s x).
Proof.
  intros [Hk Hr Hf] E. unfold pg_row, pg_hw, sub_row. rewrite E. split; [|done].
  by split; rewrite ?E.
Qed.

Lemma pg_record_ack_run s h sid eid c : pg_subs_inv s h → is_Some (pg_row s sid) →
  effect_or_refusal database_error (s, h) (λ _ sh, sh.2 = h ∧ pg_subs_inv sh.1 h ∧
    (∀ x, pg_row sh.1 x = pg_row s x) ∧ (∀ x, pg_hw sh.1 x = pg_hw s x) ∧
    snd <$> attempt_rows sh.1 = snd <$> attempt_rows s) (pg_record_ack sid eid c (s, h)).
Proof.
  intros Hs [u Hu]. apply wp_effect. unfold pg_record_ack.
  eapply (wp_param _ (λ _, True)); [|intros _ _ _|done].
  { do 2 (eapply pg_pure_bind; [apply text_param_spec|intros ? _]).
    pose proof (text_param_spec c). by destruct (text_param c). }
  apply wp_bind. eapply referenced_run; [done..|]. cbn [wp_next]. apply wp_modify. cbn [fst snd].
  split; [done|]. destruct (same_rows s h (mkPgSubs (sub_rows s) (attempt_rows s)
    (dict_set (sid, eid) c (ack_rows s)) (stamps s)) Hs eq_refl) as (? & ? & ?). done.
Qed.

Lemma attempt_params_spec a : pg_pure (attempt_params a) (λ _, True).
Proof.
  unfold attempt_params.
  repeat first [done | eapply pg_pure_bind;
    [first [apply text_param_spec|apply int4_param_spec|apply opt_text_param_spec|
            instantiate (1 := λ _, True); destruct (last_status_code a) as [c|]; [|done]; simpl;
            pose proof (int4_param_spec c); by destruct (int4_param c)]|intros ? _]].
Qed.

Lemma pg_record_attempt_run s h a : pg_subs_inv s h → is_Some (pg_row s (da_subscription_id a)) →
  effect_or_refusal database_error (s, h) (λ _ sh, sh.2 = h ∧ pg_subs_inv sh.1 h ∧
    (∀ x, pg_row sh.1 x = pg_row s x) ∧ (∀ x, pg_hw sh.1 x = pg_hw s x) ∧
    snd <$> attempt_rows sh.1 = (snd <$> attempt_rows s) ++ [a]) (pg_record_attempt a (s, h)).
Proof.
  intros Hs [u Hu]. apply wp_effect. unfold pg_record_attempt.
  eapply wp_param; [apply attempt_params_spec|intros _ _ _|done].
  apply wp_bind. eapply referenced_run; [done..|]. cbn [wp_next]. apply wp_bind, wp_gets.
  cbn [wp_next fst]. case_match; [apply wp_raise; split; [apply pg_error_database|done]|].
  apply wp_modify. cbn [fst snd]. split; [done|].
  destruct (same_rows s h (mkPgSubs (sub_rows s) (attempt_rows s ++ [(server_now (stamps s), a)])
    (ack_rows s) (S (stamps s))) Hs eq_refl) as (? & ? & ?).
  split_and!; [done..|]. cbn [attempt_rows]. by rewrite fmap_app.
Qed.

Lemma delivery_back d : pg_pure (jsonb (VDict (dump_delivery d))) (λ v, delivery_of_json v = Some d).
Proof.
  assert (plain (VDict (dump_delivery d)) = true) as Hp
    by (unfold dump_delivery; destruct (resolved_url d), (resolved_endpoint d); reflexivity).
  pose proof (jsonb_plain _ Hp) as Hj. destruct (jsonb _) as [v|e|]; [|done|done].
  cbn [pg_pure] in *. by apply delivery_dump.
Qed.

Lemma metadata_back d : dict_wf d → Forall (λ kv, plain kv.2 = true ∧ flat kv.2 = true) d →
  pg_pure (jsonb (VDict d)) (λ v, ∃ d', v = VDict d' ∧ d ≡ₚ d').
Proof.
  intros Hd Hf. pose proof (members_back id d Hf Hd) as Hb.
  assert (∀ d : list (string * value), prod_map id id <$> d = d) as Hid.
  { intros k. etransitivity; [|apply list_fmap_id]. apply list_fmap_ext. by intros ? [] _. }
  rewrite Hid in Hb. destruct (jsonb (VDict d)) as [v|e|]; [|done|done].
  destruct Hb as (d' & -> & Hp). exists d'. by rewrite Hid.
Qed.

Lemma texts_param_spec l : pg_pure (texts_param l) (λ l', l' = l).
Proof.
  unfold texts_param. induction l as [|x l IH]; [done|]. cbn [map sequence].
  eapply pg_pure_bind; [apply text_param_spec|intros a [-> _]].
  eapply pg_pure_bind; [exact IH|intros a ->]. done.
Qed.

(** A row added at the end, under a new key. *)
Lemma add_row s h r u hw : pg_subs_inv s h → row_to_sub r = Ret u →
  sr_high_water r = VDict (prod_map id VInt <$> hw) → pg_row s (sr_subscription_id r) = None →
  let s' := mkPgSubs (sub_rows s ++ [r]) (attempt_rows s) (ack_rows s) (stamps s) in
  pg_subs_inv s' h ∧ pg_row s' (sr_subscription_id r) = Some u ∧ pg_hw s' (sr_subscription_id r) = hw ∧
  ∀ x, x ≠ sr_subscription_id r → pg_row s' x = pg_row s x ∧ pg_hw s' x = pg_hw s x.
Proof.
  intros Hs Hu Hhw Hnone s'. pose proof (pg_row_none s h _ Hs Hnone) as Hno.
  assert (∀ x, sub_row x s' = match sub_row x s with Some r' => Some r' | None =>
    if decide (x = sr_subscription_id r) then Some r else None end) as Hlook.
  { intros x. unfold sub_row, s'. cbn [sub_rows]. rewrite find_app. destruct (find _ (sub_rows s)); [done|].
    cbn [List.find]. unfold has_id. case_bool_decide; case_decide; congruence. }
  split.
  - destruct Hs as [Hk Hr Hf]. split; [| |done]; unfold s'; cbn [sub_rows].
    + rewrite fmap_app. apply NoDup_app. split; [done|]. split; [|apply NoDup_singleton].
      intros x Hx Exr%list_elem_of_singleton. apply list_elem_of_fmap in Hx as (r' & Er & Hr').
      unfold sub_row in Hno. subst x. apply list_elem_of_In in Hr'.
      pose proof (find_none _ _ Hno r' Hr') as Hb. unfold has_id in Hb.
      by apply bool_decide_eq_false in Hb.
    + apply Forall_app. split; [done|]. apply Forall_singleton. split; [by exists u|by exists hw].
  - unfold pg_row, pg_hw. split; [|split].
    + rewrite Hlook, Hno, decide_True by done. cbn. by rewrite Hu.
    + by rewrite Hlook, Hno, decide_True, Hhw, ints_of_json_ints by done.
    + intros x Hx. rewrite Hlook. destruct (sub_row x s); [done|]. by rewrite decide_False.
Qed.

Lemma position_perm d d' t : dict_wf d → d ≡ₚ d' → position_of d' t = position_of d t.
Proof. intros Hd Hp. unfold position_of. by rewrite (dict_get_perm t d d'). Qed.

Lemma pg_add_run s h l u hw : pg_subs_inv s h → objs h !! l = Some u →
  pg_row s (subscription_id u) = None → dict_wf hw → storable u →
  effect_or_refusal database_error (s, h) (λ _ sh, sh.2 = h ∧ pg_subs_inv sh.1 h ∧
    (∃ u', pg_row sh.1 (subscription_id u) = Some u' ∧ sub_eq u u') ∧
    (∀ x, x ≠ subscription_id u → pg_row sh.1 x = pg_row s x ∧ pg_hw sh.1 x = pg_hw s x) ∧
    (∀ t, position_of (pg_hw sh.1 (subscription_id u)) t = position_of hw t) ∧
    snd <$> attempt_rows sh.1 = snd <$> attempt_rows s) (pg_add l hw (s, h)).
Proof.
  intros Hs Hu Hnone Hhw (Hcs & Hsel & Hmwf & Hmeta). apply wp_effect. unfold pg_add. apply wp_bind.
  apply (wp_run_iff _ _ _ _ _ (deref_run s h l u Hu)). cbn [wp_next].
  do 3 (eapply wp_param; [apply text_param_spec|intros ? _ [-> _]|done]).
  eapply wp_param; [apply texts_param_spec|intros ? _ ->|done].
  eapply wp_param; [by apply selector_back|intros vs _ (s' & Hs' & Hse)|done].
  eapply wp_param; [apply delivery_back|intros vd _ Hd|done].
  eapply wp_param; [by apply texts_back|intros vc _ (cs & -> & Hc)|done].
  eapply wp_param; [by apply ints_back|intros vh _ (hw' & -> & Hh)|done].
  eapply wp_param; [by apply metadata_back|intros vm _ (m & -> & Hm)|done].
  apply wp_bind, wp_gets. cbn [wp_next fst]. case_match; [apply wp_raise; split; [apply pg_error_database|done]|].
  apply wp_modify. cbn [fst snd]. set (r := mkSubRow _ _ _ _ _ _ _ _ _ _ _ _).
  set (u' := mkSubscription (subscription_id u) (status u) (publisher_card_url u)
    (subscriber_card_url u) (topics u) s' (delivery u) (created_at u) (lease_until u) cs m).
  assert (row_to_sub r = Ret u') as Hr.
  { unfold row_to_sub, r. cbn [sr_delivery sr_selector sr_status sr_cursors sr_metadata].
    rewrite Hd, Hs', status_of_value, texts_of_json_texts. done. }
  destruct (add_row s h r u' hw' Hs Hr eq_refl Hnone) as (Hi & Hrow & Hpos & Hrest).
  split_and!; [done|done| |done| |done].
  - exists u'. split; [exact Hrow|]. by split.
  - intros t. change (subscription_id u) with (sr_subscription_id r). rewrite Hpos.
    by apply position_perm.
Qed.
End Laws.

#[export] Program Instance postgres_subscription_store_laws
    `{!RowOrder, !Collation, !JsonbColumn, !SubscriptionModel, !ServerClock} :
    SubscriptionStoreLaws PostgresSubscriptionStore := {|
  ss_inv := pg_subs_inv;
  ss_row s h := pg_row s;
  ss_hw := pg_hw;
  ss_attempts s := snd <$> attempt_rows s;
  ss_refuses := database_error;
  ss_accepts := storable;
  ss_same := sub_eq;
|}.
Next Obligation. done. Qed.
Next Obligation.
  intros. eapply effect_mono; [by apply pg_get_run|]. intros r sh (-> & ? & ? & Hr). by split_and!.
Qed.
Next Obligation.
  intros ? ? ? ? ? s h Hs. simpl.
  destruct (pg_list_all_run s h Hs) as (ls & h' & us & Hrun & Hi & Hsub & Hls & Hnd & Hall).
  rewrite Hrun. split_and!; [done..|by exists us].
Qed.
Next Obligation.
  intros ? ? ? ? ? s h l u u' [Hk Hr Hf] Hu Hid. split; [|split; [done|split; [done|by left]]].
  split; [done|done|]. intros k Hl. cbn [write_obj objs next_loc] in *.
  destruct (decide (k = l)) as [->|Hne]; [apply Hf; by eexists|].
  rewrite lookup_insert_ne in Hl by done. by apply Hf.
Qed.
Next Obligation. intros. by eapply pg_update_run. Qed.
Next Obligation. intros. by apply pg_high_water_run. Qed.
Next Obligation. intros. by apply pg_set_high_water_run. Qed.
Next Obligation. intros. by apply pg_record_ack_run. Qed.
Next Obligation. intros. by apply pg_record_attempt_run. Qed.
Next Obligation. intros. by apply pg_add_run. Qed.

(** ** Models that are read member by member, for examples *)

Definition member_of (k : string) (v : value) : value :=
  match v with VDict d => default VNone (dict_get k d) | _ => VNone end.
Definition text_value (v : value) : option string := match v with VStr s => Some s | _ => None end.
Definition texts_value (v : value) : option (list string) :=
  match v with VList l => mapM text_value l | _ => None end.
Definition opt_value {A} (f : value → option A) (v : value) : option (option A) :=
  match v with VNone => Some None | _ => Some <$> f v end.
Definition list_member (kv : string * value) : option (string * list value) :=
  match kv.2 with VList l => Some (kv.1, l) | _ => None end.

Definition selector_members (v : value) : option Selector :=
  match member_of "type" v with
  | VStr "field_filter" =>
      match member_of "where" v with
      | VDict d => FieldFilterSelector <$> mapM list_member d
      | _ => None
      end
  | VStr "keyword_search" =>
      ks ← texts_value (member_of "keywords" v);
      m ← (match member_of "match" v with
           | VStr "all" => Some match_all | VStr "any" => Some match_any | _ => None end);
      fs ← opt_value texts_value (member_of "fields" v);
      mret (KeywordSearchSelector ks m fs)
  | _ => None
  end.

Definition delivery_members (v : value) : option ResolvedDelivery :=
  m ← (match member_of "mode" v with
       | VStr "webhook" => Some WEBHOOK | VStr "a2a-message" => Some A2A_MESSAGE | _ => None end);
  u ← opt_value text_value (member_of "resolvedUrl" v);
  e ← opt_value text_value (member_of "resolvedEndpoint" v);
  mret (mkResolvedDelivery m u e).

Lemma texts_value_list l : texts_value (VList (VStr <$> l)) = Some l.
Proof. simpl. induction l as [|x l IH]; [done|]. cbn. by rewrite IH. Qed.

Lemma member_back d v k : dict_wf d → json_eq (VDict d) v →
  json_eq (member_of k (VDict d)) (member_of k v).
Proof.
  intros Hd Hv. destruct (json_eq_get d v Hd Hv) as (d' & -> & Hk). specialize (Hk k). simpl.
  destruct (dict_get k d), (dict_get k d'); done || apply json_eq_refl.
Qed.

(** Members that hold no dictionary. *)
Lemma member_flat d v k : dict_wf d → json_eq (VDict d) v → flat (member_of k (VDict d)) = true →
  member_of k v = member_of k (VDict d).
Proof. intros Hd Hv Hf. symmetry. apply json_eq_flat; [done|]. by apply member_back. Qed.

Lemma lists_back w v : json_eq (VDict (prod_map id VList <$> w)) v →
  ∃ w', v = VDict (prod_map id VList <$> w') ∧ mapM list_member (prod_map id VList <$> w') = Some w'.
Proof.
  assert (∀ w : list (string * list value), mapM list_member (prod_map id VList <$> w) = Some w) as Hall.
  { intros k. induction k as [|[x l] k IH]; [done|]. cbn. by rewrite IH. }
  intros Hv. inversion Hv as [| |d1 d2 d3 Hnd Hp Hm]; subst; [by exists w|].
  symmetry in Hp. apply Permutation_map_inv in Hp as (w2 & -> & _).
  assert (∃ w', d3 = prod_map id VList <$> w') as [w' ->]; [|by exists w'].
  clear Hv Hnd. revert d3 Hm. induction w2 as [|[k l] w2 IH]; intros d3 Hm.
  { inversion Hm. by exists []. }
  inversion Hm as [|x [k' y] ? d4 [Hk Hy] Hm']; subst. simpl in *. subst k'.
  destruct (IH d4 Hm') as [w' ->].
  assert (∃ l', y = VList l') as [l' ->] by (inversion Hy; eauto). by exists ((k, l') :: w').
Qed.

#[program] Definition subscription_members : SubscriptionModel := {|
  selector_of_json := selector_members;
  delivery_of_json := delivery_members;
|}.
Next Obligation.
  intros w v Hv.
  assert (dict_wf (dump_selector (FieldFilterSelector w))) as Hd
    by (apply (bool_decide_unpack _); by vm_compute).
  unfold selector_members. rewrite (member_flat _ v "type" Hd Hv) by done.
  pose proof (member_back _ v "where" Hd Hv) as Hw.
  change (member_of "where" (VDict (dump_selector (FieldFilterSelector w))))
    with (VDict (prod_map id VList <$> w)) in Hw.
  change (member_of "type" (VDict (dump_selector (FieldFilterSelector w)))) with (VStr "field_filter").
  cbv iota beta. destruct (lists_back w _ Hw) as (w' & E & Hl). rewrite E in *. rewrite Hl. by exists w'.
Qed.
Next Obligation.
  intros ks m fs v Hv.
  assert (dict_wf (dump_selector (KeywordSearchSelector ks m fs))) as Hd
    by (destruct fs; apply (bool_decide_unpack _); by vm_compute).
  assert (∀ l, forallb is_scalar (VStr <$> l) = true) as Hf by (intros l; induction l; done).
  unfold selector_members.
  rewrite !(member_flat _ v _ Hd Hv) by (destruct fs; simpl; rewrite ?Hf; done).
  change (member_of "type" (VDict (dump_selector (KeywordSearchSelector ks m fs))))
    with (VStr "keyword_search").
  change (member_of "keywords" (VDict (dump_selector (KeywordSearchSelector ks m fs))))
    with (VList (VStr <$> ks)).
  cbv iota beta. rewrite texts_value_list. cbn [mbind option_bind].
  change (member_of "match" (VDict (dump_selector (KeywordSearchSelector ks m fs))))
    with (VStr match m with match_all => "all" | match_any => "any" end).
  replace (opt_value texts_value (member_of "fields" (VDict (dump_selector (KeywordSearchSelector ks m fs)))))
    with (Some fs).
  - by destruct m.
  - destruct fs as [fs|]; [|done].
    change (member_of "fields" _) with (VList (VStr <$> fs)). unfold opt_value.
    by rewrite texts_value_list.
Qed.
Next Obligation.
  intros d v Hv.
  assert (dict_wf (dump_delivery d)) as Hd by (unfold dump_delivery;
    destruct (resolved_url d), (resolved_endpoint d); apply (bool_decide_unpack _); by vm_compute).
  unfold delivery_members.
  rewrite !(member_flat _ v _ Hd Hv) by
    (unfold dump_delivery; destruct (resolved_url d), (resolved_endpoint d); done).
  destruct d as [[] [u|] [e|]]; reflexivity.
Qed.

(** ** Properties *)

Section Properties.
Context `{!RowOrder, !Collation, !JsonbColumn, !SubscriptionModel, !ServerClock}.

(** Attempts are listed as they were recorded while the clock of the server
    goes forward between two of them, whatever order the scan finds them in. *)
Lemma attempts_in_order s h sid : (∀ i j, (i < j)%nat → server_now i < server_now j) →
  (attempt_rows s).*1 = server_now <$> seq 0 (length (attempt_rows s)) →
  has_char nul sid = false →
  pg_delivery_attempts sid (s, h) =
    (Ret (filter (λ a, da_subscription_id a = sid) (attempt_rows s).*2), (s, h)).
Proof.
  intros Hclock Hstamps Hsid. unfold pg_delivery_attempts, text_param. rewrite Hsid.
  change ((Ret (snd <$> sort_by attempt_leb (scan (List.filter
    (λ r, bool_decide (da_subscription_id r.2 = sid)) (attempt_rows s)))), (s, h)) =
    (Ret (filter (λ a, da_subscription_id a = sid) (attempt_rows s).*2), (s, h))).
  do 2 f_equal. set (mine := filter (λ r : Z * DeliveryAttempt, da_subscription_id r.2 = sid) (attempt_rows s)).
  assert (sorted_by fst (attempt_rows s)) as Hs.
  { clear -Hclock Hstamps. unfold sorted_by. revert Hstamps.
    generalize 0%nat as k. induction (attempt_rows s) as [|r l IH]; intros k Hst; [constructor|].
    cbn [fmap list_fmap length seq] in Hst. injection Hst as Hr Hst. constructor; [by eapply IH|].
    apply Forall_forall. intros y Hy. rewrite Hr.
    assert (y.1 ∈ l.*1) as Hin by by apply list_elem_of_fmap_2.
    rewrite Hst in Hin. apply list_elem_of_fmap in Hin as (j & -> & Hj).
    apply Hclock. apply elem_of_seq in Hj. lia. }
  assert (List.filter (λ r, bool_decide (da_subscription_id r.2 = sid)) (attempt_rows s) = mine) as ->
    by (apply list_filter_bool; intros r; apply bool_decide_eq_true).
  transitivity (mine.*2).
  - f_equal. assert (sorted_by fst mine) as Hm by by apply sorted_by_filter.
    apply (sorted_by_perm_eq fst); [|done|by rewrite sort_by_perm, scan_perm].
    assert (leb_sorted attempt_leb (sort_by attempt_leb (scan mine))) as Hso.
    { apply sort_by_sorted; unfold attempt_leb; intros; lia. }
    assert (NoDup (sort_by attempt_leb (scan mine)).*1) as Hnd.
    { rewrite sort_by_perm, scan_perm. clear -Hm. unfold sorted_by in Hm.
      induction Hm as [|x l Hl IH Hx]; [constructor|]. cbn. constructor; [|done].
      intros (y & Ey & Hy)%list_elem_of_fmap. rewrite Forall_forall in Hx. specialize (Hx y Hy). lia. }
    unfold sorted_by, leb_sorted in *. induction Hso as [|x l Hl IH Hx]; [constructor|].
    cbn in Hnd. apply NoDup_cons in Hnd as [Hn Hnd]. constructor; [auto|].
    rewrite Forall_forall in *. intros y Hy. specialize (Hx y Hy). unfold attempt_leb in Hx.
    assert (x.1 ≠ y.1); [|lia]. intros E. apply Hn. rewrite E. by apply list_elem_of_fmap_2.
  - unfold mine. clear. induction (attempt_rows s) as [|r l IH]; [done|].
    cbn [fmap list_fmap]. rewrite !filter_cons. destruct (decide (da_subscription_id r.2 = sid)); [|done].
    cbn [fmap list_fmap]. by rewrite IH.
Qed.

End Properties.

#[local] Existing Instance subscription_members.
#[local] Existing Instance byte_order.
#[local] Existing Instance insertion_order.
#[local] Existing Instance verbatim_jsonb.
#[local] Instance sample_server : ServerClock := {| server_now i := Z.of_nat i |}.

Definition orders_sub : Subscription :=
  mkSubscription "sub_1" ACTIVE "https://pub/card" "https://alice/card" ["orders"%string]
    (Some (FieldFilterSelector [("region"%string, [VStr "eu"; VNone])]))
    (mkResolvedDelivery WEBHOOK (Some "https://alice/hook"%string) None) 0 60000000
    [("orders"%string, "orders:0000000000000003"%string)] [("team"%string, VStr "a")].
Definition orders_heap : Heap := mkHeap {[1%positive := orders_sub]} 2.




(** A copy read before a deletion and written back after it revives the
    subscription: [update] writes all three columns of the copy. *)
Example stale_copy_revives :
  let w0 := (pg_add 1%positive [] (empty_pg_subs, orders_heap)).2 in
  let '(mine, w1) := pg_get "sub_1" w0 in
  let '(other, w2) := pg_get "sub_1" w1 in
  match mine, other with
  | Ret (Some l), Ret (Some l') =>
      let deleted := (pg_update l' (w2.1, write_obj l' (with_status DELETED orders_sub) w2.2)).2 in
      let revived := (pg_update l deleted).2 in
      (status <$> pg_row deleted.1 "sub_1", status <$> pg_row revived.1 "sub_1") =
        (Some DELETED, Some ACTIVE)
  | _, _ => False
  end.
Proof. by vm_compute. Qed.

(** Offsets are [BIGINT] in the event store, positions are cast to [INTEGER]. *)
Example position_overflows :
  let w0 := (pg_add 1%positive [] (empty_pg_subs, orders_heap)).2 in
  (pg_set_high_water "sub_1" "orders" (2 ^ 31) w0).1 =
    Raise (pg_error "errors.NumericValueOutOfRange").
Proof. by vm_compute. Qed.
