(* ===== verification/Scenario.v ===== *)
(** * Scenarios: the publisher over the in-memory backends

    A concrete publisher (in-memory stores, a scripted transport) on which the
    hypotheses of the publisher theorems hold, and end-to-end runs evaluated by
    computation. *)

From Stdlib Require Import QArith.
From S2P Require Import Prelude PyStr Value Errors Effects Models Base64 Cursor Selectors.
From S2P Require Import Canonical Signing Limits Observability Auth Ssrf Contracts Publisher.
From S2P Require Import CatchUp Retry Lifecycle MemoryEventStore MemorySubscriptionStore MemoryRetryQueue.
Open Scope Z_scope.

#[local] Existing Instance sample_platform.
#[local] Existing Instance toy_crypto.
#[local] Existing Instance toy_hmac.
#[local] Existing Instance sample_net.

Abbreviation MemWorld := (World InMemoryEventStore InMemorySubscriptionStore InMemoryRetryQueue).

(** ** A scripted transport *)

(** The answer to a delivery of an event, which may be an exception. *)
Definition script := list (string * value) → outcome DeliveryResult.
Definition ok : DeliveryResult := mkDeliveryResult true true (Some 200) None.
Definition unavailable : DeliveryResult :=
  mkDeliveryResult false true (Some 503) (Some "unavailable"%string).
Definition rejected : DeliveryResult :=
  mkDeliveryResult false false (Some 410) (Some "gone"%string).

Definition attempt_no (event : list (string * value)) : Z :=
  match dict_get "a2adeliveryattempt"%string event with Some (VInt n) => n | _ => 0 end.

Definition scripted (s : script) : Async MemWorld := {|
  suspend := mret tt;
  send_webhook := λ _ _ event, lift (s event);
  send_a2a_message := λ _ _, lift (s []);
  sleep := λ _, mret tt;
  acquire := λ _, mret tt;
  monotonic := λ _, 0%Q;
  resumes := λ _, false;
|}.

(** Always up; down for the first attempt; always down; refusing; crashing on
    the third event of the topic. *)
Definition up : script := λ _, Ret ok.
Definition flaky : script := λ e, Ret (if attempt_no e <=? 1 then unavailable else ok).
Definition down : script := λ _, Ret unavailable.
Definition refusing : script := λ _, Ret rejected.
Definition crashing : script := λ e,
  match dict_get "a2acursor"%string e with
  | Some (VStr c) => if bool_decide (c = cursor_text "orders" 2)
                     then Raise (OtherException "ConnectionError") else Ret ok
  | _ => Ret ok
  end.

(** ** A publisher with one subscription *)

Definition sample_config : PublisherConfig := {|
  agent_card_url := "https://pub.example/card";
  card_resolver := λ u, Ret (mkSubscriberCard u None (Some "http://hook.example"%string) [WEBHOOK]);
  ssrf_policy := default_policy;
  min_lease_seconds := 60;
  max_lease_seconds := 604800;
  max_attempts := 3;
  retry_initial_delay := 1000000;
  retry_max_delay := 300000000;
  offload_store := false;
  token_secret := None;
  retry_queue := false;
  selector_limits := None;
  max_subscriptions_per_subscriber := None;
  page_size := 2;
  deferred_dispatch := false;
|}.

Definition sample_subs : InMemorySubscriptionStore :=
  mkSubs [("sub_1"%string, 1%positive)] [("sub_1"%string, [("orders"%string, 0)])] [] [].
Definition sample_heap : Heap := mkHeap {[1%positive := sample_subscription]} 2.

(** Three events in the topic, the first one already handed off. *)
Definition sample_world : MemWorld :=
  mkWorld (sample_run.2).1 (mkEnv 20 20) sample_subs sample_heap empty_queue []
    (key_set (mkSigningKey "k1" "one") []) None None [].

Definition attempts_of (w : MemWorld) : list (string * Z * string) :=
  (λ a, (da_cursor a, attempt a, da_status a)) <$> attempts_ (w_subs w).

Definition orders (n : Z) : string := cursor_text "orders" n.

(** The two pending events are each retried once and delivered, in order. *)
Example flaky_catch_up :
  let '(r, w) := catch_up (Async0 := scripted flaky) sample_config 5 1%positive "orders" sample_world in
  r = Ret 2 ∧
  attempts_of w = [(orders 1, 1, "retry"); (orders 1, 2, "delivered");
                   (orders 2, 1, "retry"); (orders 2, 2, "delivered")]%string ∧
  hw_ (w_subs w) = [("sub_1"%string, [("orders"%string, 2)])].
Proof. vm_compute. done. Qed.

(** A dead transport dead-letters each event after three attempts. *)
Example dead_catch_up :
  let '(r, w) := catch_up (Async0 := scripted down) sample_config 5 1%positive "orders" sample_world in
  r = Ret 2 ∧
  attempts_of w = [(orders 1, 1, "retry"); (orders 1, 2, "retry"); (orders 1, 3, "dead_letter");
                   (orders 2, 1, "retry"); (orders 2, 2, "retry"); (orders 2, 3, "dead_letter")]%string.
Proof. vm_compute. done. Qed.

(** ** The hypotheses hold *)

Definition orders_topic : Topic := sample_topic "orders" 0.

Abbreviation sample_inv :=
  (inv (E := InMemoryEventStore) (S := InMemorySubscriptionStore) (Q := InMemoryRetryQueue)
     "sub_1" 1%positive None "orders" orders_topic 100).

Lemma sample_clock_mono i j : (i ≤ j)%nat → clock i ≤ clock j.
Proof. simpl. unfold seconds. lia. Qed.

Lemma scripted_well_behaved s sid l sel t T cap :
  (∀ e, s e ≠ NoFuel) →
  well_behaved (E := InMemoryEventStore) (S := InMemorySubscriptionStore)
    (Q := InMemoryRetryQueue) (Async0 := scripted s) sid l sel t T cap.
Proof.
  intros Hs.
  assert (∀ w, inv (E := InMemoryEventStore) (S := InMemorySubscriptionStore)
    (Q := InMemoryRetryQueue) sid l sel t T cap w → same sid l sel t T cap w w) as Hrefl.
  { intros w Hw. by apply (same_refl _ _ _ _ _ _ sample_clock_mono). }
  split; intros; apply wp_lift; split; auto; done.
Qed.

Lemma flaky_total e : flaky e ≠ NoFuel.
Proof. done. Qed.

Lemma crashing_total e : crashing e ≠ NoFuel.
Proof. unfold crashing. by repeat case_match. Qed.

Lemma sample_orders_log :
  ∃ lg, dict_get "orders"%string (logs (sample_run.2).1) = Some lg ∧
    log_topic lg = orders_topic ∧ next_offset lg = 3.
Proof. eexists. split_and!; vm_compute; reflexivity. Qed.

Lemma sample_subs_inv : subs_inv sample_subs sample_heap.
Proof.
  split; simpl.
  - apply NoDup_singleton.
  - intros sid l. case_decide as E; [|done]. intros [= <-]. exists sample_subscription.
    split; [apply lookup_singleton_eq|by subst].
  - intros l [u Hu]. apply lookup_singleton_Some in Hu as [<- _]. done.
Qed.

Lemma sample_world_inv : sample_inv sample_world.
Proof.
  destruct sample_orders_log as (lg & Hlg & Htopic & Hnext).
  pose proof sample_run_inv as Hinv. unfold sample_world.
  generalize dependent (sample_run.2).1. intros store Hlg Hinv.
  assert (log_of (S := InMemorySubscriptionStore) (Q := InMemoryRetryQueue) "orders" orders_topic
    (mkWorld store (mkEnv 20 20) sample_subs sample_heap empty_queue []
       (key_set (mkSigningKey "k1" "one") []) None None []) = lg) as Hl.
  { unfold log_of; cbn [w_store es_log memory_event_store_laws]. by rewrite Hlg. }
  split; rewrite ?Hl; cbn [w_store w_subs w_heap w_topics].
  - exact Hinv.
  - apply sample_subs_inv.
  - by eexists.
  - exists sample_subscription. split; [apply lookup_singleton_eq|done].
  - cbn [es_log memory_event_store_laws]. rewrite Hlg. by eexists.
  - done.
  - exact I.
  - lia.
  - change (-1 ≤ 0 < max_offset). unfold max_offset. lia.
Qed.

Lemma sample_enqueue_total i (q : InMemoryRetryQueue) : (rq_enqueue i q).1 ≠ NoFuel.
Proof. done. Qed.

Abbreviation sample_atts := (atts (E := InMemoryEventStore) (Q := InMemoryRetryQueue) "sub_1" "orders").
Abbreviation sample_pos := (pos (E := InMemoryEventStore) (Q := InMemoryRetryQueue) "sub_1" "orders").
Abbreviation sample_catch_up s fuel :=
  (catch_up (Async0 := scripted s) sample_config fuel 1%positive "orders" sample_world).

Lemma catch_up_in_order_witness :
  let '(o, w') := sample_catch_up flaky 5 in
  ∃ ds runs tail, sample_atts w' = sample_atts sample_world ++ concat runs ++ tail ∧
    Forall2 (CatchUp.complete sample_config "sub_1") ds runs ∧
    sorted_by rec_offset ds ∧ sample_pos sample_world ≤ sample_pos w' ∧
    (∀ r, r ∈ ds → sample_pos sample_world < rec_offset r ≤ sample_pos w' ∧
                   hit None orders_topic r) ∧
    (tail = [] ∨ (∃ e, o = Raise e) ∧
       ∃ r, hit None orders_topic r ∧ sample_pos w' < rec_offset r ∧ prefix_from "sub_1" r 1 tail).
Proof.
  destruct (sample_catch_up flaky 5) as [o w'] eqn:E.
  eapply (catch_up_in_order (Async0 := scripted flaky) sample_config "sub_1" 1%positive None
    "orders" orders_topic 100 sample_clock_mono); 
    [apply scripted_well_behaved, flaky_total| | | | |exact E].
  - simpl; lia.
  - simpl; lia.
  - apply sample_enqueue_total.
  - apply sample_world_inv.
Defined.

Lemma catch_up_loses_nothing_witness :
  ∃ n w', sample_catch_up flaky 5 = (Ret n, w') ∧
  (∃ ds runs, sample_atts w' = sample_atts sample_world ++ concat runs ∧
     Forall2 (CatchUp.complete sample_config "sub_1") ds runs ∧
     ∀ r, r ∈ log_events (log_of "orders" orders_topic sample_world) →
       live orders_topic r (clk w') → sample_pos sample_world < rec_offset r →
       hit None orders_topic r → r ∈ ds) ∧
  ∀ r, r ∈ log_events (log_of "orders" orders_topic sample_world) →
    live orders_topic r (clk w') → rec_offset r ≤ sample_pos w'.
Proof.
  destruct (sample_catch_up flaky 5) as [o w'] eqn:E.
  assert (o = Ret 2) as ->.
  { transitivity (sample_catch_up flaky 5).1; [by rewrite E|vm_compute; reflexivity]. }
  exists 2, w'. split; [done|].
  eapply (catch_up_loses_nothing (Async0 := scripted flaky) sample_config "sub_1" 1%positive None
    "orders" orders_topic 100 sample_clock_mono);
    [apply scripted_well_behaved, flaky_total| | | | |exact E].
  - simpl; lia.
  - simpl; lia.
  - apply sample_enqueue_total.
  - apply sample_world_inv.
Defined.

(** The transport dies on the second of the two pending events: the first one
    is delivered and the position stays between them. *)
Example crash_keeps_position :
  let '(r, w) := sample_catch_up crashing 5 in
  r = Raise (OtherException "ConnectionError") ∧
  attempts_of w = [(orders 1, 1, "delivered"%string)] ∧
  hw_ (w_subs w) = [("sub_1"%string, [("orders"%string, 1)])].
Proof. vm_compute. done. Qed.

Lemma catch_up_crash_safe_witness :
  ∃ e w', sample_catch_up crashing 5 = (Raise e, w') ∧
  sample_inv w' ∧ sample_pos sample_world ≤ sample_pos w' ∧
  ∃ ds runs tail, sample_atts w' = sample_atts sample_world ++ concat runs ++ tail ∧
    Forall2 (CatchUp.complete sample_config "sub_1") ds runs ∧
    ∀ r, r ∈ log_events (log_of "orders" orders_topic w') → live orders_topic r (clk w') →
      sample_pos sample_world < rec_offset r ≤ sample_pos w' → hit None orders_topic r → r ∈ ds.
Proof.
  destruct (sample_catch_up crashing 5) as [o w'] eqn:E.
  assert (o = Raise (OtherException "ConnectionError")) as ->.
  { transitivity (sample_catch_up crashing 5).1; [by rewrite E|vm_compute; reflexivity]. }
  do 2 eexists. split; [done|].
  eapply (catch_up_crash_safe (Async0 := scripted crashing) sample_config "sub_1" 1%positive None
    "orders" orders_topic 100 sample_clock_mono);
    [apply scripted_well_behaved, crashing_total| | | | |exact E].
  - simpl; lia.
  - simpl; lia.
  - apply sample_enqueue_total.
  - apply sample_world_inv.
Defined.

Lemma catch_up_terminates_witness : (sample_catch_up flaky 100).1 ≠ NoFuel.
Proof.
  eapply (catch_up_terminates (Async0 := scripted flaky) sample_config "sub_1" 1%positive None
    "orders" orders_topic 100 sample_clock_mono);
    [apply scripted_well_behaved, flaky_total| | | | |].
  - simpl; lia.
  - simpl; lia.
  - apply sample_enqueue_total.
  - apply sample_world_inv.
  - change (sample_pos sample_world) with 0. lia.
Defined.

(** The second event of the topic. *)
Definition second_event : EventRecord :=
  default (mkEventRecord "" "" "" "" "" [] None 0 "")
    (log_events (log_of (S := InMemorySubscriptionStore) (Q := InMemoryRetryQueue) "orders"
       orders_topic sample_world) !! 1%nat).

Lemma second_event_logged :
  second_event ∈ log_events
    (log_of (S := InMemorySubscriptionStore) (Q := InMemoryRetryQueue) "orders" orders_topic
       sample_world).
Proof.
  unfold second_event. destruct (_ !! 1%nat) as [r|] eqn:E; [by eapply list_elem_of_lookup_2|].
  exfalso. revert E. vm_compute. discriminate.
Qed.

Lemma deliver_one_bounded_witness :
  ∃ w' runs, deliver_one (Async0 := scripted down) sample_config 1%positive second_event
               sample_world = (Ret false, w') ∧
    CatchUp.complete sample_config "sub_1" second_event runs ∧
    sample_pos w' = rec_offset second_event ∧ sample_atts w' = sample_atts sample_world ++ runs.
Proof.
  destruct (deliver_one (Async0 := scripted down) sample_config 1%positive second_event
    sample_world) as [o w'] eqn:E.
  assert (o = Ret false) as ->.
  { transitivity (deliver_one (Async0 := scripted down) sample_config 1%positive second_event
      sample_world).1; [by rewrite E|vm_compute; reflexivity]. }
  assert (rec_offset second_event = 1) as Hone by (vm_compute; reflexivity).
  pose proof (deliver_one_bounded (Async0 := scripted down) sample_config "sub_1" 1%positive None
    "orders" orders_topic 100 sample_clock_mono) as Hthm.
  specialize (Hthm (scripted_well_behaved down _ _ _ _ _ _ (λ _, ltac:(discriminate)))
    ltac:(simpl; lia) sample_enqueue_total second_event sample_world (Ret false) w'
    sample_world_inv).
  assert (in_log "orders" second_event) as Hin.
  { split; [vm_compute; reflexivity..|]. rewrite Hone. unfold max_offset. lia. }
  assert (sample_pos sample_world < rec_offset second_event) as Hlt.
  { rewrite Hone. change (sample_pos sample_world) with 0. lia. }
  destruct (Hthm Hin Hlt E) as (runs & Hc & Hp & Ha).
  exists w', runs. exact (conj eq_refl (conj Hc (conj Hp Ha))).
Defined.

(** ** Queued redelivery *)

(** The second event, tried once and queued. *)
Definition queued_item : RetryItem :=
  mkRetryItem "rty_1" "sub_1" "orders" (orders 1) (event_id second_event) 1 0 None.

Definition with_queue (q : InMemoryRetryQueue) (w : MemWorld) : MemWorld :=
  mkWorld (w_store w) (w_env w) (w_subs w) (w_heap w) q (w_topics w) (w_keys w)
    (w_authorizer w) (w_limiter w) (w_metrics w).

Definition queued_world : MemWorld :=
  with_queue (mkQueue [("rty_1"%string, queued_item)]) sample_world.

Lemma log_of_with_queue q t T (w : MemWorld) :
  log_of (S := InMemorySubscriptionStore) (Q := InMemoryRetryQueue) t T (with_queue q w) =
  log_of (S := InMemorySubscriptionStore) (Q := InMemoryRetryQueue) t T w.
Proof. reflexivity. Qed.

Lemma scripted_undisturbed s (P : InMemoryRetryQueue → Prop) :
  undisturbed (E := InMemoryEventStore) (S := InMemorySubscriptionStore) (Async0 := scripted s) P.
Proof. split; intros; intros w Hw; done. Qed.

Lemma queued_event_is_settled_witness :
  ∃ o w', retry_delivery (Async0 := scripted flaky) sample_config queued_item queued_world = (o, w') ∧
    redelivers (E := InMemoryEventStore) (S := InMemorySubscriptionStore) (Q := InMemoryRetryQueue)
      (Async0 := scripted flaky) sample_config "sub_1" "orders" orders_topic queued_item second_event queued_world o w'.
Proof.
  destruct (retry_delivery (Async0 := scripted flaky) sample_config queued_item queued_world)
    as [o w'] eqn:E.
  exists o, w'. split; [reflexivity|].
  refine (queued_event_is_settled (Async0 := scripted flaky) sample_config "sub_1" "orders"
    orders_topic 100 sample_clock_mono _ queued_item second_event _ _ _ _ 1%positive None
    queued_world o w' _ _ _ E).
  - intros l sel. apply scripted_well_behaved, flaky_total.
  - reflexivity.
  - reflexivity.
  - vm_compute. reflexivity.
  - intros v. apply scripted_undisturbed.
  - apply (inv_frame "sub_1" 1%positive None "orders" orders_topic 100 sample_world);
      [reflexivity..|apply sample_world_inv].
  - unfold queued_world. rewrite log_of_with_queue. exact second_event_logged.
  - split; [|reflexivity]. split; [by apply (bool_decide_unpack _); vm_compute|].
    intros rid i. simpl. case_decide; [intros [= <-]; by subst|done].
Defined.

(** A redelivery that dead-letters its event writes the position back to it:
    here from the third event to the second, so that the next catch-up delivers
    the third again. *)
Example terminal_retry_moves_back :
  let w := on_subs (ss_set_high_water "sub_1" "orders" 2) queued_world in
  let w' := (retry_delivery (Async0 := scripted refusing) sample_config queued_item w.2).2 in
  let w'' := (catch_up (Async0 := scripted up) sample_config 5 1%positive "orders" w').2 in
  hw_ (w_subs w.2) = [("sub_1"%string, [("orders"%string, 2)])] ∧
  hw_ (w_subs w') = [("sub_1"%string, [("orders"%string, 1)])] ∧
  attempts_of w'' = [(orders 1, 2, "dead_letter"); (orders 2, 1, "delivered")]%string.
Proof. vm_compute. done. Qed.

(** ** Lifecycle *)

Lemma sample_ss_inv : ss_inv (w_subs sample_world) (w_heap sample_world).
Proof. exact sample_subs_inv. Qed.

Lemma sample_refers : refers sample_world 1%positive sample_subscription.
Proof. apply lookup_singleton_eq. Qed.

Lemma sample_row : row_of sample_world "sub_1" = Some sample_subscription.
Proof. apply (lookup_singleton_eq (M := gmap loc)). Qed.

(** The same publisher with its store calls offloaded, and nothing else to run. *)
Definition offloaded_config : PublisherConfig := {|
  agent_card_url := agent_card_url sample_config;
  card_resolver := card_resolver sample_config;
  ssrf_policy := ssrf_policy sample_config;
  min_lease_seconds := min_lease_seconds sample_config;
  max_lease_seconds := max_lease_seconds sample_config;
  max_attempts := max_attempts sample_config;
  retry_initial_delay := retry_initial_delay sample_config;
  retry_max_delay := retry_max_delay sample_config;
  offload_store := true;
  token_secret := None;
  retry_queue := false;
  selector_limits := None;
  max_subscriptions_per_subscriber := None;
  page_size := 2;
  deferred_dispatch := false;
|}.

(** The lease of the sample subscription ends after 60 seconds. *)
Definition late_world : MemWorld :=
  mkWorld (w_store sample_world) (mkEnv 61 61) sample_subs sample_heap empty_queue []
    (w_keys sample_world) None None [].
Definition renewed_world : MemWorld :=
  (renew (Async0 := scripted up) offloaded_config "sub_1" 3600 late_world).2.

Lemma renewed_run :
  renew (Async0 := scripted up) offloaded_config "sub_1" 3600 late_world = (Ret 1%positive, renewed_world).
Proof. unfold renewed_world. apply returned. vm_compute. reflexivity. Qed.

(** A lease that is too short, and the renewal of one that has run out. *)
Lemma renew_cases_witness :
  (∃ msg d, renew (Async0 := scripted up) offloaded_config "sub_1" 5 late_world =
    (Raise (A2AEventsError LEASE_TOO_SHORT msg d), late_world)) ∧
  untouched "sub_1" late_world renewed_world ∧
  (refused (Ret 1%positive) ∨ renews late_world renewed_world "sub_1" 3600 (Ret 1%positive)).
Proof.
  pose proof (λ lease, renew_cases (Async0 := scripted up) offloaded_config (λ _ _, eq_refl) late_world
    "sub_1" lease sample_ss_inv) as Hcases. split.
  - apply (proj1 (Hcases 5)). reflexivity.
  - destruct (proj2 (proj2 (Hcases 3600))) as (o & w' & Hrun & Hun & Ho); [split; discriminate|].
    rewrite renewed_run in Hrun. apply pair_equal_spec in Hrun as [<- <-]. exact (conj Hun Ho).
Defined.

Lemma gated_dispatch_witness :
  ∃ o w', dispatch_subscription (Async0 := scripted up) offloaded_config 5 1%positive None late_world
          = (o, w') ∧ (o = Ret 0 ∨ refused o) ∧ untouched "sub_1" late_world w'.
Proof.
  apply (gated_dispatch (Async0 := scripted up) offloaded_config (λ _ _, eq_refl) 5 late_world 1%positive
    sample_subscription None sample_ss_inv).
  - apply lookup_singleton_eq.
  - apply (lookup_singleton_eq (M := gmap loc)).
  - right. left. vm_compute. discriminate.
Defined.
