(* ===== verification/DispatchScenario.v ===== *)
(** * Scenarios: passes of the dispatcher

    Two subscriptions over the in-memory backends, one of whose subscribers is
    down: the hypotheses of the theorems of [Dispatch] hold, and whole passes
    and worker runs are evaluated by computation. *)

From Stdlib Require Import QArith.
From S2P Require Import Prelude PyStr Value Errors Effects Models Base64 Cursor Selectors.
From S2P Require Import Canonical Signing Limits Observability Auth Ssrf Contracts Publisher Workers.
From S2P Require Import CatchUp Bystander Dispatch MemoryEventStore MemorySubscriptionStore.
From S2P Require Import MemoryRetryQueue Scenario.
Open Scope Z_scope.

#[local] Existing Instance sample_platform.
#[local] Existing Instance toy_crypto.
#[local] Existing Instance toy_hmac.
#[local] Existing Instance sample_net.

(** ** Waits in which only time passes *)
Section Idle.
Context {E S Q : Type} `{!EventStore E, !SubscriptionStore S, !RetryQueue Q}.
Context `{!Platform, !Crypto, !Hmac, !Net}.
Context `{!EventStoreLaws E, !SubscriptionStoreLaws S}.

Definition later (v : Env) (w : World E S Q) : World E S Q :=
  mkWorld (w_store w) v (w_subs w) (w_heap w) (w_queue w) (w_topics w) (w_keys w)
    (w_authorizer w) (w_limiter w) (w_metrics w).

Definition idles {A} (m : M (World E S Q) A) : Prop := ∀ w, ∃ o v,
  m w = (o, later v w) ∧ env_le (w_env w) v ∧ o ≠ NoFuel ∧ ∀ e, o = Raise e → is_a2a_error e = false.

Lemma later_same sid Tof cap t v (w : World E S Q) :
  pair_ok sid Tof cap t w → env_le (w_env w) v → pair_same sid Tof cap t w (later v w).
Proof.
  intros [? ? ? ? ? ? ? ?] Hv. split; [done| |done..]. by apply (evolves_frame t (Tof t)).
Qed.

Lemma idles_considerate {A} (m : M (World E S Q) A) sid ts Tof cap :
  idles m → considerate_op sid ts Tof cap m.
Proof.
  intros Hm t w Ht Hok. destruct (Hm w) as (o & v & Hrun & Hv & Ho & _).
  eapply wp_run_iff; [exact Hrun|]. split; [|done]. by apply later_same.
Qed.

Lemma idles_orderly {A} (m : M (World E S Q) A) (K : relation Subscription) `{!PreOrder K} sid :
  idles m → orderly_op K sid m.
Proof.
  intros Hm. split; intros w Hw; destruct (Hm w) as (o & v & Hrun & _);
    (eapply wp_run_iff; [exact Hrun|]); [|by destruct Hw].
  split; [done| |done]. intros l u Hu. exists u. by split_and!.
Qed.

Context `{!Async (World E S Q)}.
Record all_idle : Prop := {
  ai_suspend : idles suspend;
  ai_webhook : ∀ u h e, idles (send_webhook u h e);
  ai_message : ∀ u m, idles (send_a2a_message u m);
  ai_sleep : ∀ d, idles (sleep d);
  ai_acquire : ∀ x, idles (acquire x);
}.
Context (Hall : all_idle).

Lemma all_idle_considerate sid ts Tof cap : considerate sid ts Tof cap.
Proof.
  destruct Hall. split; intros; [by apply idles_considerate| |by apply idles_considerate..].
  destruct (ai_suspend0 w) as (o & v & Hrun & _ & _ & Ho). by eapply wp_run_iff; [exact Hrun|].
Qed.

Lemma all_idle_orderly sid : orderly same_but_cursors sid.
Proof.
  destruct Hall. split; intros; [by apply idles_orderly; [apply _|]..|].
  destruct (ai_suspend0 w) as (o & v & Hrun & _). eapply wp_run_iff; [exact Hrun|]. by exists u.
Qed.
End Idle.

(** ** Two subscriptions *)

(** What is sent to the first one fails before the 40th reading of the clock;
    so does, before the 30th, the last event sent to the second one. *)
Definition has (k v : string) (e : list (string * value)) : bool :=
  match dict_get k e with Some (VStr v') => bool_decide (v' = v) | _ => false end.
Definition weather (now : nat) : script := λ e,
  if (has "a2asubscription" "sub_0" e && (now <? 40)%nat) || (has "a2acursor" (orders 2) e && (now <? 30)%nat)
  then Raise (OtherException "ConnectionError") else Ret ok.

#[local] Instance weathered : Async MemWorld := {|
  suspend := mret tt;
  send_webhook := λ _ _ event w, (weather (tick (w_env w)) event, w);
  send_a2a_message := λ _ _ w, (weather (tick (w_env w)) [], w);
  sleep := λ _, mret tt;
  acquire := λ _, mret tt;
  monotonic := λ _, 0%Q;
  resumes := λ _, false;
|}.

Definition bob : Subscription :=
  mkSubscription "sub_0" ACTIVE "https://pub/card" "https://bob/card" ["orders"]%string
    None (mkResolvedDelivery WEBHOOK (Some "https://bob/hook"%string) None) 0 60000000 [] [].

Definition two_subs : InMemorySubscriptionStore :=
  mkSubs [("sub_0"%string, 2%positive); ("sub_1"%string, 1%positive)]
    [("sub_1"%string, [("orders"%string, 0)])] [] [].
Definition two_heap : Heap := mkHeap (<[2%positive := bob]> {[1%positive := sample_subscription]}) 3.

(** [n] readings of the clock have been made; [q] is the retry queue, and
    whatever else shares its place in the world. *)
Definition two_world_with {Q} (q : Q) (n : nat) : World InMemoryEventStore InMemorySubscriptionStore Q :=
  mkWorld (sample_run.2).1 (mkEnv n n) two_subs two_heap q []
    (key_set (mkSigningKey "k1" "one") []) None None [].
Definition two_world : nat → MemWorld := two_world_with empty_queue.

Definition by_sub {Q} (w : World InMemoryEventStore InMemorySubscriptionStore Q) : list (string * string * Z * string) :=
  (λ a, (da_subscription_id a, da_cursor a, attempt a, da_status a)) <$> attempts_ (w_subs w).

Definition audit (n : Z) : string := cursor_text "audit" n.

(** The first subscriber is down: the second one is served all the same. *)
Example one_subscriber_down :
  let '(r, w) := dispatch_pending sample_config 5 (two_world 31) in
  r = Raise (OtherException "ConnectionError") ∧
  by_sub w = [("sub_1", orders 1, 1, "delivered"); ("sub_1", orders 2, 1, "delivered");
              ("sub_1", audit 0, 1, "delivered")]%string ∧
  hw_ (w_subs w) = [("sub_1", [("orders", 2); ("audit", 0)])]%string.
Proof. vm_compute. done. Qed.

(** A pass is cut short at the last event of a topic, before the next topic;
    the next pass resumes there, and serves the first subscriber, too. *)
Definition cut_short : MemWorld := (dispatch_pending sample_config 5 (two_world 20)).2.
Definition back_up : MemWorld := later (mkEnv 40 40) cut_short.

Example pass_resumes :
  by_sub cut_short = [("sub_1", orders 1, 1, "delivered")]%string ∧
  let '(r, w) := dispatch_pending sample_config 5 back_up in
  r = Ret 5 ∧
  by_sub w = [("sub_1", orders 1, 1, "delivered");
              ("sub_0", orders 0, 1, "delivered"); ("sub_0", orders 1, 1, "delivered");
              ("sub_0", orders 2, 1, "delivered"); ("sub_1", orders 2, 1, "delivered");
              ("sub_1", audit 0, 1, "delivered")]%string.
Proof. vm_compute. done. Qed.

(** ** The hypotheses hold *)

Definition two_topics (t : string) : Topic :=
  if decide (t = "audit"%string) then sample_topic "audit" 3600 else sample_topic "orders" 0.

Lemma weathered_idle : all_idle (E := InMemoryEventStore) (S := InMemorySubscriptionStore)
  (Q := InMemoryRetryQueue).
Proof.
  assert (∀ n e, weather n e ≠ NoFuel ∧ ∀ x, weather n e = Raise x → is_a2a_error x = false) as Hw.
  { intros n e. unfold weather. case_match; (split; [done|]); by intros ? [= <-]. }
  split; intros; intros w; [exists (Ret tt)|eexists|eexists|exists (Ret tt)|exists (Ret tt)];
    exists (w_env w); (split; [by destruct w|]); (split; [done|]); [done|apply Hw..|done|done].
Qed.

Lemma two_subs_inv : subs_inv two_subs two_heap.
Proof.
  split; simpl.
  - by apply (bool_decide_unpack _); vm_compute.
  - intros sid l. case_decide as H1; [intros [= <-]|case_decide as H2; [intros [= <-]|done]].
    + exists bob. subst. done.
    + exists sample_subscription. subst. done.
  - intros l [u Hu]. apply lookup_insert_Some in Hu as [[<- _]|[_ Hu]]; [done|].
    apply lookup_singleton_Some in Hu as [<- _]. done.
Qed.

Definition two_cap (_ : string) : Z := 100.
Abbreviation watched := (["orders"; "audit"]%string) (only parsing).
Abbreviation two_ready := (ready (E := InMemoryEventStore) (S := InMemorySubscriptionStore)
  "sub_1" None watched two_topics two_cap).
Abbreviation two_pair := (pair_ok (E := InMemoryEventStore) (S := InMemorySubscriptionStore)
  "sub_1" two_topics two_cap).

Lemma watched_log t : t ∈ watched → ∃ lg, dict_get t (logs (sample_run.2).1) = Some lg ∧
  log_topic lg = two_topics t ∧ next_offset lg ≤ 100.
Proof.
  intros [->|[->|[]%elem_of_nil]%elem_of_cons]%elem_of_cons; (eexists; split_and!;
    [vm_compute; reflexivity|vm_compute; reflexivity|by apply Z.leb_le; vm_compute]).
Qed.

(** Positions that a table keeps within bounds. *)
Definition bounded_positions (s : InMemorySubscriptionStore) : bool :=
  forallb (λ '(_, hw), forallb (λ '(_, n), (-1 <=? n) && (n <? max_offset)) hw) (hw_ s).

Lemma bounded_position s x t : bounded_positions s = true → -1 ≤ position_of (hw_of s x) t < max_offset.
Proof.
  intros Hb. unfold bounded_positions in Hb. rewrite forallb_forall in Hb.
  unfold position_of, hw_of. destruct (dict_get x (hw_ s)) as [hw|] eqn:Hx; simpl; [|unfold max_offset; lia].
  destruct (dict_get t hw) as [n|] eqn:Hn; simpl; [|unfold max_offset; lia].
  apply dict_get_elem in Hx. apply dict_get_elem in Hn.
  specialize (Hb (x, hw) ltac:(by apply list_elem_of_In)). simpl in Hb. rewrite forallb_forall in Hb.
  specialize (Hb (t, n) ltac:(by apply list_elem_of_In)). simpl in Hb. lia.
Qed.

Section TwoWorlds.
Context {Q : Type}.
Local Abbreviation W := (World InMemoryEventStore InMemorySubscriptionStore Q).

Lemma two_world_pairs (q : Q) n t : t ∈ watched → two_pair t (two_world_with q n).
Proof.
  intros Ht. destruct (watched_log t Ht) as (lg & Hlg & Htopic & Hnext). unfold two_world_with.
  pose proof sample_run_inv as Hinv. generalize dependent (sample_run.2).1. intros store Hlg Hinv.
  match goal with |- context [mkWorld store ?a ?b ?c ?d ?e ?f ?g ?h ?i] =>
    set (W := mkWorld store a b c d e f g h i) end.
  assert (log_of (S := InMemorySubscriptionStore) (Q := Q) t (two_topics t) W = lg) as Hl.
  { unfold log_of; cbn [w_store es_log memory_event_store_laws W]. by rewrite Hlg. }
  split; rewrite ?Hl; try done.
  - apply two_subs_inv.
  - by apply bounded_position.
Qed.

Lemma two_standing (w : W) : two_pair "orders" w → bounded_positions (w_subs w) = true → standing w.
Proof. intros [? ? ? ? ? ? ? ?] Hb. split; [done|done|]. intros x t _. by apply bounded_position. Qed.

(** A world that holds the pairs, with the row [u]. *)
Lemma two_ready_of u (w : W) :
  (∀ t, t ∈ watched → two_pair t w) → bounded_positions (w_subs w) = true →
  row_of w "sub_1" = Some u → selector u = None → topics u = watched → two_ready u w.
Proof. intros Hp Hb Hu Hsel Hts. split; try done. apply two_standing; [by apply Hp; left|done]. Qed.

Lemma two_world_ready (q : Q) n : two_ready sample_subscription (two_world_with q n).
Proof. apply two_ready_of; [intros t Ht; by apply two_world_pairs|reflexivity..]. Qed.
End TwoWorlds.

(** *** The first subscriber is down *)

Definition one_down : MemWorld := two_world 31.
Definition bob_raised : MemWorld := (dispatch_subscription sample_config 5 2%positive None one_down).2.
Definition one_down_end : MemWorld := (dispatch_pending sample_config 5 one_down).2.

Lemma one_down_raises :
  dispatch_pending sample_config 5 one_down = (Raise (OtherException "ConnectionError"), one_down_end).
Proof.
  assert ((dispatch_pending sample_config 5 one_down).1 = Raise (OtherException "ConnectionError")) as Hr
    by (vm_compute; reflexivity).
  rewrite <- Hr. unfold one_down_end. apply surjective_pairing.
Qed.

Lemma one_down_lists :
  run_subs sample_config ss_list_all one_down = (Ret [2; 1]%positive, one_down) ∧
  filter_refs with_topics [2; 1]%positive one_down = (Ret [2; 1]%positive, one_down).
Proof. split; vm_compute; reflexivity. Qed.

Lemma own_returns :
  ∃ n, (dispatch_subscription sample_config 5 1%positive None bob_raised).1 = Ret n.
Proof. exists 3. vm_compute. reflexivity. Qed.

Lemma ret_inj {A W} (a b : A) (w w' : W) : (Ret a, w) = (Ret b, w') → a = b ∧ w = w'.
Proof. intros [= ->]. done. Qed.

(** The second subscriber's dispatch starts when the first one's has raised, and
    returns. *)
Lemma own_turn_comes l r :
  its_turn sample_config 5 "sub_1" None with_topics one_down l r →
  r = Some bob_raised ∧ ∃ n, (dispatch_subscription sample_config 5 l None bob_raised).1 = Ret n.
Proof.
  intros (all & w1 & ls1 & ls2 & u & Hlist & Hfilter & Hu & Hid & Hr).
  rewrite (proj1 one_down_lists) in Hlist. apply ret_inj in Hlist as [<- <-].
  rewrite (proj2 one_down_lists) in Hfilter. apply ret_inj in Hfilter as [Hfilter _].
  destruct ls1 as [|l1 [|l2 ls1]]; simpl in Hfilter.
  - injection Hfilter as <- _. assert (subscription_id u = "sub_0"%string) as Hbob; [|congruence].
    assert (objs (w_heap one_down) !! 2%positive = Some bob) as Hb by (vm_compute; reflexivity).
    rewrite Hb in Hu. by injection Hu as <-.
  - injection Hfilter as <- <- _. split; [|exact own_returns]. rewrite <- Hr. unfold bob_raised.
    cbn [fmap list_fmap gather_reaches]. destruct (dispatch_subscription _ _ 2%positive _ _) as [o w].
    by rewrite andb_false_r.
  - injection Hfilter as _ _ Hf. by destruct ls1.
Qed.

Lemma dispatch_pending_delivers_witness :
  dispatch_pending sample_config 5 one_down = (Raise (OtherException "ConnectionError"), one_down_end) ∧
  (∀ t, t ∈ watched → advanced sample_config "sub_1" None two_topics t one_down one_down_end) ∧
  served sample_subscription one_down one_down_end ∧
  ∀ t, t ∈ watched → delivered_all sample_config "sub_1" None two_topics t one_down one_down_end.
Proof.
  split; [exact one_down_raises|].
  assert (served sample_subscription one_down one_down_end) as Hs.
  { split_and!; [reflexivity|apply Z.ltb_lt; vm_compute; reflexivity|exact I]. }
  destruct (dispatch_pending_delivers sample_config 5 sample_clock_mono ltac:(done) ltac:(done)
    sample_enqueue_total "sub_1" None watched two_topics two_cap
    (all_idle_considerate weathered_idle _ _ _ _)
    (all_idle_orderly weathered_idle _) sample_subscription one_down _ one_down_end
    (two_world_ready empty_queue 31) one_down_raises) as [Ha Hd].
  split; [exact Ha|]. split; [exact Hs|].
  destruct (proj2 (Hd Hs)) as (l & r & Hturn & Hown).
  - exists [2; 1]%positive. by rewrite (proj1 one_down_lists).
  - discriminate.
  - destruct (own_turn_comes l r Hturn) as [Hr [n Hn]]. exact (Hown bob_raised n Hr Hn).
Defined.

(** *** Publishing *)

Local Abbreviation publish_paid :=
  (publish sample_config 5 "orders" "order.paid" [("ok"%string, VBool true)] None).

(** The event is delivered to both subscriptions, after what they were owed. *)
Example published_to_both :
  let '(r, w) := publish_paid (two_world 40) in
  r ≠ NoFuel ∧ by_sub w = [("sub_0", orders 0, 1, "delivered"); ("sub_0", orders 1, 1, "delivered");
    ("sub_0", orders 2, 1, "delivered"); ("sub_0", orders 3, 1, "delivered");
    ("sub_1", orders 1, 1, "delivered"); ("sub_1", orders 2, 1, "delivered");
    ("sub_1", orders 3, 1, "delivered")]%string.
Proof. vm_compute. done. Qed.

Lemma publish_delivers_witness :
  ∃ r w', publish_paid (two_world 40) = (Ret r, w') ∧
  delivered_all sample_config "sub_1" None two_topics "orders" (two_world 40) w' ∧
  ∃ r' extra, stored_as r r' ∧
    atts "sub_1" "orders" w' = atts "sub_1" "orders" (two_world 40) ++ extra ∧
    (live (two_topics "orders") r' (clk w') → hit None (two_topics "orders") r' →
     delivered_in sample_config "sub_1" r' extra).
Proof.
  destruct (publish_paid (two_world 40)) as [o w'] eqn:Hrun.
  assert (∀ r, r = (o, w') → match r.1 with Ret _ => True | _ => False end ∧ clk r.2 < 60000000 →
    (∃ r, o = Ret r) ∧ clk w' < 60000000) as Hr.
  { intros ? -> [Ho Hc]. cbn [fst snd] in *. split; [destruct o as [r0| |]; [by exists r0|destruct Ho..]|exact Hc]. }
  destruct (Hr _ Hrun) as [[r ->] Hclk]; [vm_compute; split; [exact I|reflexivity]|].
  exists r, w'. split; [reflexivity|].
  eapply (publish_delivers sample_config 5 sample_clock_mono ltac:(done) ltac:(done)
    sample_enqueue_total "sub_1" None watched two_topics two_cap
    (all_idle_considerate weathered_idle _ _ _ _) (all_idle_orderly weathered_idle _)
    sample_subscription (two_world 40) "orders" "order.paid"
    [("ok"%string, VBool true)] None);
    [apply two_world_ready|left|reflexivity|exact sample_text|exact I|vm_compute; discriminate| | |exact Hrun|].
  - apply wp_ret. apply Z.ltb_lt. vm_compute. reflexivity.
  - apply Z.ltb_lt. vm_compute. reflexivity.
  - split_and!; [reflexivity|exact Hclk|exact I].
Defined.

(** *** A pass cut short, a pause, and the pass that completes the work *)

Definition resumed : Subscription := default sample_subscription (row_of back_up "sub_1").

Lemma cut_short_pairs t : t ∈ watched → two_pair t cut_short.
Proof.
  intros Ht. pose proof (dispatch_pending_spec sample_config 5 sample_clock_mono ltac:(done)
    ltac:(done) sample_enqueue_total "sub_1" None watched two_topics two_cap
    (all_idle_considerate weathered_idle _ _ _ _) (all_idle_orderly weathered_idle _)
    sample_subscription (two_world 20) (two_world_ready empty_queue 20)) as Hp.
  unfold wp in Hp. fold cut_short in Hp.
  destruct (dispatch_pending sample_config 5 (two_world 20)) as [o w'] eqn:Hrun.
  replace cut_short with w' by (unfold cut_short; by rewrite Hrun).
  by apply (proj1 Hp).
Qed.

Lemma back_up_same t : t ∈ watched →
  pair_same (E := InMemoryEventStore) (S := InMemorySubscriptionStore) (Q := InMemoryRetryQueue)
    "sub_1" two_topics two_cap t cut_short back_up.
Proof.
  intros Ht. apply later_same; [by apply cut_short_pairs|].
  split; apply Nat.leb_le; vm_compute; reflexivity.
Qed.

Lemma back_up_ready : two_ready resumed back_up.
Proof.
  apply two_ready_of; [intros t Ht; by apply back_up_same|vm_compute; reflexivity..].
Qed.

Lemma crashes_lose_nothing_witness :
  ∃ w2, dispatch_pending sample_config 5 back_up = (Ret 5, w2) ∧
  ∀ t, t ∈ watched → delivered_all sample_config "sub_1" None two_topics t (two_world 20) w2.
Proof.
  destruct (dispatch_pending sample_config 5 back_up) as [o w2] eqn:Hrun.
  assert (o = Ret 5) as ->.
  { transitivity (dispatch_pending sample_config 5 back_up).1; [by rewrite Hrun|vm_compute; reflexivity]. }
  exists w2. split; [done|].
  eapply (crashes_lose_nothing sample_config 5 sample_clock_mono ltac:(done) ltac:(done)
    sample_enqueue_total "sub_1" None watched two_topics two_cap
    (all_idle_considerate weathered_idle _ _ _ _) (all_idle_orderly weathered_idle _)
    (two_world 20) back_up resumed 5 w2); [|exact back_up_ready|exact Hrun|].
  - eapply history_pass; [exact (two_world_ready empty_queue 20)|exact (surjective_pairing _)|].
    eapply history_wait; [exact back_up_same|apply history_now].
  - split_and!; [vm_compute; reflexivity| |exact I].
    replace w2 with (dispatch_pending sample_config 5 back_up).2 by (by rewrite Hrun).
    vm_compute. done.
Defined.

(** *** Worker runs

    A wait of the loop: the time passes. [stop] is called once the clock has
    been read [limit] times. *)
Definition wait_until_timeout (d : Z) : M MemWorld unit := λ w,
  (Raise timeout_error, later (mkEnv (tick (w_env w) + 2) (uuids (w_env w))) w).
Definition stops_at (limit : nat) (w : MemWorld) : bool := (limit <=? tick (w_env w))%nat.

(** A [stop] that comes before [run_forever] is forgotten: the worker runs on. *)
Example early_stop_is_lost :
  let worker := dispatch_worker sample_config 5 wait_until_timeout (λ _, false) 2 in
  let '(r, (w, k)) := (stop ≫= λ _, worker) (two_world 40, new_worker 5000000) in
  r = NoFuel ∧ stopped k = false ∧ length (attempts_ (w_subs w)) = 6%nat.
Proof. vm_compute. done. Qed.

(** One subscriber that is down ends the loop for good: the exception of the
    pass leaves [run_forever], although the next pass would have succeeded. *)
Example exception_ends_the_worker :
  let '(r, (w, k)) := dispatch_worker sample_config 5 wait_until_timeout (λ _, false) 9
                        (two_world 31, new_worker 5000000) in
  r = Raise (OtherException "ConnectionError") ∧ length (attempts_ (w_subs w)) = 3%nat ∧
  (dispatch_pending sample_config 5 (later (mkEnv 40 40) w)).1 = Ret 3.
Proof. vm_compute. done. Qed.


Lemma wait_until_timeout_idles d : idles (wait_until_timeout d).
Proof.
  intros w. do 2 eexists. split; [reflexivity|]. split_and!; [split; simpl; lia|done|].
  by intros e [= <-].
Qed.

(** The worker is told to stop during its first wait. *)
Lemma no_second_round w' :
  ¬ round (dispatch_pending sample_config 5) wait_until_timeout (stops_at 52) 5000000 (two_world 40) w'.
Proof.
  intros (n & w1 & Hrun & _ & Hwait & Hstop).
  assert (w' = (wait_until_timeout 5000000 (dispatch_pending sample_config 5 (two_world 40)).2).2) as ->.
  { rewrite Hrun. by destruct Hwait as [Hwait|Hwait]; injection Hwait. }
  revert Hstop. vm_compute. discriminate.
Qed.

Lemma stopped_worker_leaves_nothing_witness :
  ∃ w' k', dispatch_worker sample_config 5 wait_until_timeout (stops_at 52) 9
             (two_world 40, new_worker 5000000) = (Ret tt, (w', k')) ∧
  ∀ t, t ∈ watched → delivered_all sample_config "sub_1" None two_topics t (two_world 40) w'.
Proof.
  destruct (dispatch_worker sample_config 5 wait_until_timeout (stops_at 52) 9
    (two_world 40, new_worker 5000000)) as [o [w' k']] eqn:Hrun.
  assert (o = Ret tt ∧ clk w' < 60000000) as [-> Hclk].
  { assert (∀ r, r = (o, (w', k')) → r.1 = Ret tt ∧ clk r.2.1 < 60000000 → o = Ret tt ∧ clk w' < 60000000)
      as Hr by (by intros ? ->).
    apply (Hr _ Hrun). vm_compute. split; reflexivity. }
  exists w', k'. split; [done|].
  eapply (stopped_worker_leaves_nothing sample_config 5 sample_clock_mono ltac:(done) ltac:(done)
    sample_enqueue_total "sub_1" None watched two_topics two_cap
    (all_idle_considerate weathered_idle _ _ _ _) (all_idle_orderly weathered_idle _)
    wait_until_timeout (stops_at 52)
    (λ d, idles_considerate _ _ _ _ _ (wait_until_timeout_idles d)) 9 (two_world 40)); [exact Hrun|].
  intros j w1 Hr. inversion Hr as [|j' w2 w3 w4 Hround]; subst.
  - exists sample_subscription. split; [apply two_world_ready|]. split_and!; [done|exact Hclk|exact I].
  - by destruct (no_second_round w3).
Defined.
