(* ===== verification/RetryScenario.v ===== *)
(** * Scenarios: passes of the retry worker

    The two subscriptions of [DispatchScenario] with an item each in the retry
    queue: the hypotheses of the theorems of [RetryPass] hold, and passes are
    evaluated by computation. *)

From Stdlib Require Import QArith.
From S2P Require Import Prelude PyStr Value Errors Effects Models Base64 Cursor Selectors.
From S2P Require Import Canonical Signing Limits Observability Auth Ssrf Contracts Publisher Workers.
From S2P Require Import CatchUp Footprint Bystander Dispatch Retry RetryPass MemoryEventStore.
From S2P Require Import MemorySubscriptionStore MemoryRetryQueue Scenario DispatchScenario.
Open Scope Z_scope.

#[local] Existing Instance sample_platform.
#[local] Existing Instance toy_crypto.
#[local] Existing Instance toy_hmac.
#[local] Existing Instance sample_net.

(** The first subscriber's item comes first. *)
Definition bobs_item : RetryItem :=
  mkRetryItem "rty_0" "sub_0" "orders" (orders 0) "evt_0" 1 0 None.
Definition two_items : InMemoryRetryQueue :=
  mkQueue [("rty_0", bobs_item); ("rty_1", queued_item)]%string.
Definition backlog (n : nat) : MemWorld := two_world_with two_items n.

(** The first subscriber's endpoint breaks the transport, the other one is
    unavailable. *)
Definition broken : script := λ e,
  if has "a2asubscription" "sub_0" e then Raise (OtherException "ConnectionError") else Ret unavailable.

Definition queue_of (w : MemWorld) : list (string * Z * Z) :=
  (λ kv, (kv.1, ri_attempt kv.2, next_retry_at kv.2)) <$> items (w_queue w).

(** Both items fail and are rescheduled, then both are given up. *)
Example two_turns :
  let '(r1, w1) := retry_run_once (Async0 := scripted down) sample_config 10 60 (backlog 10) in
  let '(r2, w2) := retry_run_once (Async0 := scripted down) sample_config 10 60 (later (mkEnv 90 90) w1) in
  r1 = Ret 2 ∧ queue_of w1 = [("rty_0", 2, 13000000); ("rty_1", 2, 14000000)]%string ∧
  r2 = Ret 2 ∧ queue_of w2 = [] ∧
  by_sub w2 = [("sub_0", orders 0, 2, "retry"); ("sub_1", orders 1, 2, "retry");
               ("sub_0", orders 0, 3, "dead_letter"); ("sub_1", orders 1, 3, "dead_letter")]%string.
Proof. vm_compute. done. Qed.

(** An exception in one redelivery ends the pass: the item behind it was claimed,
    and waits for the lease of the claim to run out. *)
Example broken_item_ends_the_pass :
  let '(r, w) := retry_run_once (Async0 := scripted broken) sample_config 10 60 (backlog 10) in
  r = Raise (OtherException "ConnectionError") ∧ by_sub w = [] ∧
  queue_of w = [("rty_0", 1, 70000000); ("rty_1", 1, 70000000)]%string.
Proof. vm_compute. done. Qed.

(** ** The hypotheses hold *)

Lemma scripted_idle s :
  (∀ e, s e ≠ NoFuel ∧ ∀ x, s e = Raise x → is_a2a_error x = false) →
  all_idle (E := InMemoryEventStore) (S := InMemorySubscriptionStore) (Q := InMemoryRetryQueue)
    (Async0 := scripted s).
Proof.
  intros Hs. split; intros; intros w; [exists (Ret tt)|eexists|eexists|exists (Ret tt)|exists (Ret tt)];
    exists (w_env w); (split; [by destruct w|]); (split; [done|]); [done|apply Hs..|done|done].
Qed.

Lemma down_idle : all_idle (E := InMemoryEventStore) (S := InMemorySubscriptionStore)
  (Q := InMemoryRetryQueue) (Async0 := scripted down).
Proof. by apply scripted_idle. Qed.

Lemma same_but_cursors_selector u u' : same_but_cursors u u' → selector u' = selector u.
Proof. intros Hk. by apply same_but_cursors_selection. Qed.

Lemma down_well_behaved l sel :
  well_behaved (E := InMemoryEventStore) (S := InMemorySubscriptionStore)
    (Q := InMemoryRetryQueue) (Async0 := scripted down) "sub_1" l sel "orders" (two_topics "orders") 100.
Proof. by apply scripted_well_behaved. Qed.

Lemma two_items_ok : queue_ok two_items.
Proof.
  split.
  - split; [by apply (bool_decide_unpack _); vm_compute|].
    intros rid i. simpl. repeat (case_decide; [intros [= <-]; by subst|]). done.
  - intros r i. simpl. case_decide; [intros [= <-]|case_decide; [intros [= <-]|done]].
    + split; [done|]. exists 0. split; [done|]. unfold max_offset. lia.
    + split; [done|]. exists 1. split; [done|]. unfold max_offset. lia.
Qed.

Abbreviation backlog_going :=
  (going (E := InMemoryEventStore) (S := InMemorySubscriptionStore) (Q := InMemoryRetryQueue)
    "sub_1" "orders" (two_topics "orders") 100 no_view).

Lemma backlog_inv n : inv (E := InMemoryEventStore) (S := InMemorySubscriptionStore)
  (Q := InMemoryRetryQueue) "sub_1" 1%positive None "orders" (two_topics "orders") 100 (backlog n).
Proof.
  apply (inv_of_pair "sub_1" None two_topics two_cap 1%positive "orders").
  - apply two_world_pairs. left.
  - exists sample_subscription. split; [vm_compute; reflexivity|done].
Qed.

Lemma backlog_goes n : backlog_going (backlog n).
Proof.
  split; [exists 1%positive, None; apply backlog_inv| |exact I].
  apply two_standing; [apply two_world_pairs; left|reflexivity].
Qed.

(** The event was logged before the backlog came about. *)
Lemma backlog_log n :
  log_of (S := InMemorySubscriptionStore) (Q := InMemoryRetryQueue) "orders" (two_topics "orders") (backlog n) =
  log_of (S := InMemorySubscriptionStore) (Q := InMemoryRetryQueue) "orders" orders_topic sample_world.
Proof.
  unfold backlog, two_world_with, sample_world. generalize (sample_run.2).1. intros store.
  replace (two_topics "orders") with orders_topic by by vm_compute. reflexivity.
Qed.

Lemma backlog_logged n :
  once_logged (E := InMemoryEventStore) (S := InMemorySubscriptionStore) (Q := InMemoryRetryQueue)
    "sub_1" "orders" (two_topics "orders") 100 second_event (backlog n).
Proof.
  exists (backlog n), 1%positive, None. split; [apply backlog_inv|]. split.
  - rewrite backlog_log. exact second_event_logged.
  - generalize (backlog n). intros w. apply evolves_preorder, sample_clock_mono.
Qed.

Lemma same_but_cursors_with c u : same_but_cursors u (with_cursors c u).
Proof. reflexivity. Qed.

Lemma retry_pass_attends_witness :
  ∃ o w', retry_run_once (Async0 := scripted down) sample_config 10 60 (backlog 10) = (o, w') ∧
    pass_result (Async0 := scripted down) sample_config same_but_cursors "sub_1" "orders"
      (two_topics "orders") 100 no_view queued_item second_event 10 60 (backlog 10) o w'.
Proof.
  destruct (retry_run_once (Async0 := scripted down) sample_config 10 60 (backlog 10)) as [o w'] eqn:Hrun.
  exists o, w'. split; [reflexivity|].
  refine (retry_pass_attends (Async0 := scripted down) sample_config sample_clock_mono same_but_cursors
    same_but_cursors_with same_but_cursors_selector "sub_1" "orders" (two_topics "orders") 100
    down_well_behaved (all_idle_orderly down_idle _) no_view (no_view_laws _) queued_item second_event
    eq_refl eq_refl _ (λ _, scripted_undisturbed _ _) (scripted_undisturbed _ _) 10 60 (backlog 10) o w'
    _ (backlog_goes 10) (backlog_logged 10) _ two_items_ok Hrun).
  - vm_compute. reflexivity.
  - discriminate.
  - split; [apply two_items_ok|reflexivity].
Defined.

(** ** Two turns bring the item to its end *)

Section Waiting.
Abbreviation going_on :=
  (going (E := InMemoryEventStore) (S := InMemorySubscriptionStore) (Q := InMemoryRetryQueue)).
Abbreviation carried_on :=
  (carried (E := InMemoryEventStore) (S := InMemorySubscriptionStore) (Q := InMemoryRetryQueue)
    same_but_cursors).

(** A wait in which only time passes. *)
Lemma later_going sid t T cap e (w : MemWorld) :
  going_on sid t T cap no_view w → going_on sid t T cap no_view (later e w).
Proof.
  intros [(l & sel & Hw) [? ? ?] _]. split; [|by split|exact I].
  exists l, sel. by apply (inv_frame _ _ _ _ _ _ w).
Qed.

Lemma later_carried sid t T e (w : MemWorld) :
  env_le (w_env w) e → carried_on sid t T no_view w (later e w).
Proof.
  intros He. split; [split; [by apply evolves_frame|done]| |exact I].
  split; [done| |done]. intros l u Hu. exists u. by split_and!.
Qed.

Lemma later_works `{!Async MemWorld} cfg sid t T cap rid batch lease ps k e (w w2 : MemWorld) :
  env_le (w_env w) e →
  works cfg same_but_cursors sid t T cap no_view rid batch lease ps k (later e w) w2 →
  works cfg same_but_cursors sid t T cap no_view rid batch lease ps k w w2.
Proof.
  intros He. apply wk_wait; [by apply later_carried|apply later_going|done|done].
Qed.
End Waiting.

Definition first_turn : MemWorld :=
  (retry_run_once (Async0 := scripted down) sample_config 10 60 (backlog 10)).2.
Definition some_time_on : MemWorld := later (mkEnv 90 90) first_turn.
Definition second_turn : MemWorld :=
  (retry_run_once (Async0 := scripted down) sample_config 10 60 some_time_on).2.

Lemma is_due (w : MemWorld) r i0 :
  rq_item (w_queue w) r = Some i0 → next_retry_at i0 ≤ clk w →
  ∀ i, rq_item (w_queue w) r = Some i → next_retry_at i ≤ clk w.
Proof. intros Hi Hd i Hi'. rewrite Hi in Hi'. by injection Hi' as <-. Qed.

Lemma first_turn_runs :
  retry_run_once (Async0 := scripted down) sample_config 10 60 (backlog 10) = (Ret 2, first_turn).
Proof. unfold first_turn. apply returned. vm_compute. reflexivity. Qed.

Lemma second_turn_runs :
  retry_run_once (Async0 := scripted down) sample_config 10 60 some_time_on = (Ret 2, second_turn).
Proof. unfold second_turn. apply returned. vm_compute. reflexivity. Qed.

Lemma two_turns_work :
  works (Async0 := scripted down) sample_config same_but_cursors "sub_1" "orders" (two_topics "orders") 100
    no_view "rty_1" 10 60 [(backlog 10, first_turn); (some_time_on, second_turn)] 2 (backlog 10) second_turn.
Proof.
  eapply (wk_turn _ _ _ _ _ _ _ _ _ _ _ 1 _ 2 first_turn).
  - exact first_turn_runs.
  - reflexivity.
  - apply (is_due _ _ queued_item); [reflexivity|]. apply Z.leb_le. vm_compute. reflexivity.
  - apply (later_works _ _ _ _ _ _ _ _ _ _ (mkEnv 90 90)).
    + split; apply Nat.leb_le; vm_compute; reflexivity.
    + eapply (wk_turn _ _ _ _ _ _ _ _ _ _ _ 0 _ 2 second_turn).
      * exact second_turn_runs.
      * reflexivity.
      * eapply is_due; [vm_compute; reflexivity|]. apply Z.leb_le. vm_compute. reflexivity.
      * apply wk_now.
Qed.

Lemma retries_come_to_an_end_witness :
  rq_item (w_queue second_turn) "rty_1" = None ∧
  concluded (Async0 := scripted down) sample_config "sub_1" "orders" (two_topics "orders") "rty_1" second_event
    10 60 [(backlog 10, first_turn); (some_time_on, second_turn)] (backlog 10) second_turn.
Proof.
  refine (retries_come_to_an_end (Async0 := scripted down) sample_config sample_clock_mono same_but_cursors
    same_but_cursors_with same_but_cursors_selector "sub_1" "orders" (two_topics "orders") 100
    down_well_behaved (all_idle_orderly down_idle _) no_view (no_view_laws _) "rty_1" second_event
    (λ _, scripted_undisturbed _ _) (scripted_undisturbed _ _) 10 60 _ _ 2 (backlog 10) second_turn
    queued_item _ _ _ two_turns_work _).
  - discriminate.
  - split; [apply backlog_goes|]. split; [apply backlog_logged|exact two_items_ok].
  - reflexivity.
  - split; [reflexivity|reflexivity|reflexivity|vm_compute; reflexivity|reflexivity].
  - discriminate.
Defined.
