(* ===== verification/PostgresScenario.v ===== *)
(** * Scenarios: the publisher over the Postgres backends

    The publisher of [Publisher.v] with the three Postgres stores in place of
    the in-memory ones: the invariant of the delivery theorems holds of it, so
    they apply, and end-to-end runs are evaluated by computation. *)

From Stdlib Require Import QArith.
From S2P Require Import Prelude PyStr Value Errors Effects Models Base64 Cursor Selectors.
From S2P Require Import Canonical Json Signing Limits Observability Auth Ssrf Contracts Publisher.
From S2P Require Import MemoryEventStore MemorySubscriptionStore MemoryRetryQueue.
From S2P Require Import CatchUp Retry Lifecycle Postgres PostgresRetryQueue PostgresEventStore.
From S2P Require Import PostgresSubscriptionStore Scenario.
Open Scope Z_scope.

#[local] Existing Instance sample_platform.
#[local] Existing Instance toy_crypto.
#[local] Existing Instance toy_hmac.
#[local] Existing Instance sample_net.
#[local] Existing Instance topic_members.
#[local] Existing Instance subscription_members.
#[local] Existing Instance byte_order.
#[local] Existing Instance insertion_order.
#[local] Existing Instance verbatim_jsonb.
#[local] Existing Instance sample_server.

Abbreviation PgWorld := (World PostgresEventStore PostgresSubscriptionStore PostgresRetryQueue).

(** The transport of [Scenario.v], for this world. *)
Definition pg_scripted (s : script) : Async PgWorld := {|
  suspend := mret tt;
  send_webhook := λ _ _ event, lift (s event);
  send_a2a_message := λ _ _, lift (s []);
  sleep := λ _, mret tt;
  acquire := λ _, mret tt;
  monotonic := λ _, 0%Q;
  resumes := λ _, false;
|}.

(** A refusal whose reason holds a NUL, as the JSON of an endpoint may. *)
Definition nul_refusal : script := λ _,
  Ret (mkDeliveryResult false true None (Some (String nul EmptyString))).

Definition pg_event (n : Z) : EventRecord :=
  mkEventRecord ("evt_" +:+ str_of_int n) "orders" (cursor_text "orders" n) "created" "shop" [] None
    5 "sha256:0".
Definition pg_store : PostgresEventStore :=
  mkPgEvents [mkTopicRow "orders" None 0 true (VDict (topic_config orders_topic)) 3 0]
    [pg_event 2; pg_event 0; pg_event 1].

(** The sample subscription as a row, its first event already handed off. *)
Definition pg_subs : PostgresSubscriptionStore * Heap :=
  (pg_add 1%positive [("orders"%string, 0)] (empty_pg_subs, sample_heap)).2.

Definition pg_world : PgWorld :=
  mkWorld pg_store (mkEnv 20 20) pg_subs.1 pg_subs.2 empty_pg_queue []
    (key_set (mkSigningKey "k1" "one") []) None None [].

Definition pg_attempts_of (w : PgWorld) : list (string * Z * string) :=
  (λ r, (da_cursor r.2, attempt r.2, da_status r.2)) <$> attempt_rows (w_subs w).

(** The rows are found in no order, delivered in cursor order, and the outcome
    is the one of the in-memory backends. *)
Example pg_flaky_catch_up :
  let '(r, w) := catch_up (Async0 := pg_scripted flaky) sample_config 5 1%positive "orders" pg_world in
  r = Ret 2 ∧
  pg_attempts_of w = attempts_of
    (catch_up (Async0 := scripted flaky) sample_config 5 1%positive "orders" sample_world).2 ∧
  pg_hw (w_subs w) "sub_1" = [("orders"%string, 2)].
Proof. vm_compute. done. Qed.

(** The reason of an endpoint goes into a [TEXT] column: a NUL in it makes the
    record of the attempt fail, and the catch-up with it, every time. *)
Example nul_reason_blocks :
  let '(r, w) := catch_up (Async0 := pg_scripted nul_refusal) sample_config 5 1%positive "orders" pg_world in
  r = Raise (pg_error "DataError") ∧ pg_attempts_of w = [] ∧
  pg_hw (w_subs w) "sub_1" = [("orders"%string, 0)].
Proof. vm_compute. done. Qed.

(** ** The hypotheses of the delivery theorems hold *)

Lemma pg_store_inv : pg_inv pg_store.
Proof.
  assert (∀ n, 0 ≤ n < 3 → wf_record "orders" 3 (pg_event n)) as Hwf
    by (intros n Hn; split; [done|]; exists n; split; [done|reflexivity]).
  split; simpl.
  - apply NoDup_singleton.
  - apply Forall_singleton. split; [exists orders_topic; split; [|done]|].
    + apply validate_topic_dump, json_eq_refl.
    + split; [done|]. simpl. unfold max_offset. lia.
  - repeat (apply Forall_cons; split); [..|constructor]; eexists; (split; [reflexivity|]); apply Hwf; lia.
  - apply (bool_decide_unpack _). by vm_compute.
Qed.

Lemma pg_subs_good : pg_subs_inv pg_subs.1 pg_subs.2 ∧
  (∃ u, objs pg_subs.2 !! 1%positive = Some u ∧ subscription_id u = "sub_1"%string ∧ selector u = None) ∧
  is_Some (pg_row pg_subs.1 "sub_1").
Proof.
  split; [|split].
  - split.
    + apply NoDup_singleton.
    + apply Forall_singleton. split; [by eexists; vm_compute|by exists [("orders"%string, 0)]].
    + intros l [u Hu]. change (objs sample_heap !! l = Some u) in Hu. simpl in Hu.
      apply lookup_singleton_Some in Hu as [<- _]. done.
  - by exists sample_subscription.
  - by eexists; vm_compute.
Qed.

(** The publisher on Postgres satisfies the invariant of the catch-up theorems. *)
Lemma pg_world_inv :
  inv (E := PostgresEventStore) (S := PostgresSubscriptionStore) (Q := PostgresRetryQueue)
    "sub_1" 1%positive None "orders" orders_topic 100 pg_world.
Proof.
  destruct pg_subs_good as (Hs & Hu & Hr).
  assert (log_of (S := PostgresSubscriptionStore) (Q := PostgresRetryQueue) "orders" orders_topic pg_world
    = mkTopicLog orders_topic [pg_event 0; pg_event 1; pg_event 2] 3) as Hl by by vm_compute.
  split; rewrite ?Hl.
  - exact pg_store_inv.
  - exact Hs.
  - exact Hr.
  - exact Hu.
  - by eexists; vm_compute.
  - done.
  - exact I.
  - simpl. lia.
  - change (-1 ≤ 0 < max_offset). unfold max_offset. lia.
Qed.
