(* ===== verification/SubscriberScenario.v ===== *)
(** * Scenarios: a subscriber behind the publisher of [Scenario]

    A receiver with the publisher's key and the subscription's token, runs
    evaluated by computation, and concrete instances of the theorems about the
    subscriber's side. *)

From S2P Require Import Prelude PyStr Value Errors Effects Dynamic Models Base64 Canonical Signing Auth.
From S2P Require Import Ssrf Contracts Publisher MemoryEventStore MemorySubscriptionStore.
From S2P Require Import MemoryRetryQueue Receiver HttpDelivery KeyResolver Delivery Scenario.
Open Scope Z_scope.

#[local] Existing Instance sample_platform.
#[local] Existing Instance toy_crypto.
#[local] Existing Instance toy_crypto_laws.
#[local] Existing Instance toy_hmac.
#[local] Existing Instance sample_net.

#[export] Instance sample_iso : IsoParser := {|
  fromisoformat := λ s, (λ n, (n, Some 0)) <$> int_of_digits s;
|}.

#[export] Instance sample_iso_laws : IsoLaws.
Proof.
  split. intros t [Ht Hmax]. unfold fromisoformat, sample_iso, iso_datetime, sample_platform.
  rewrite int_of_zero_padded; [done|done| |by vm_compute].
  eapply Z.lt_trans; [exact Hmax|]. unfold max_datetime, max_str_digits.
  apply (Z.lt_le_trans _ (10 ^ 18)); [by vm_compute|]. by apply Z.pow_le_mono_r.
Qed.

Definition k1 : SigningKey := mkSigningKey "k1" "one".

(** A resolver that knows the one key. *)
Definition one_key (i : value) : M (RWorld unit) string := λ w,
  (if py_eq i (VStr "k1") then Ret (public_key k1) else Raise (KeyError "key id"), w).

Definition secured_config : PublisherConfig := {|
  agent_card_url := agent_card_url sample_config;
  card_resolver := card_resolver sample_config;
  ssrf_policy := ssrf_policy sample_config;
  min_lease_seconds := 60;
  max_lease_seconds := 604800;
  max_attempts := 3;
  retry_initial_delay := 1000000;
  retry_max_delay := 300000000;
  offload_store := false;
  token_secret := Some "secret"%string;
  retry_queue := false;
  selector_limits := None;
  max_subscriptions_per_subscriber := None;
  page_size := 2;
  deferred_dispatch := false;
|}.

(** A receiver that expects the subscription's token, its clock at [tick] 20. *)
Definition guarded : EventReceiver :=
  mkReceiver [] [] [("sub_1"%string, issue "secret" "sub_1")].
Definition guarded_world : RWorld unit := mkRWorld guarded (mkEnv 20 0) tt.

Definition event_2 (n : Z) : list (string * value) :=
  sent_event secured_config sample_subscription second_event n orders_topic.

Definition signature_2 (n : Z) : string :=
  match sign k1 (iso_datetime (ev_created_at second_event)) (event_2 n) with
  | Ret s => s
  | _ => EmptyString
  end.

Definition webhook_2 (n : Z) (token : option string) : arrival :=
  Webhook (webhook_headers (signature_2 n) (iso_datetime (ev_created_at second_event)) "k1"
    "sub_1" token) (VDict (event_2 n)).

(** Delivered, delivered again, presented without the token, tampered with,
    and not an envelope at all. *)
Definition arrivals_2 : list arrival :=
  let token := Some (issue "secret" "sub_1") in
  [webhook_2 1 token; webhook_2 2 token; webhook_2 1 None;
   Webhook (webhook_headers (signature_2 1) (iso_datetime (ev_created_at second_event)) "k1"
     "sub_1" token) (VDict (event_2 2));
   Message (VDict [("message"%string, VInt 1)])].

Example arrivals_2_answers :
  let '(rs, w) := arrive_all one_key None (Some (seconds 300)) arrivals_2 guarded_world in
  rs = [Ret (acked 204); Ret (acked 200); Ret (refused 401 "bad delivery token");
        Ret (refused 401 "bad signature"); Ret (refused 400 "malformed envelope")] ∧
  received (rv w) = [event_2 1] ∧ seen (rv w) = [VStr (event_id second_event)].
Proof. vm_compute. done. Qed.

(** ** The hypotheses hold *)

Definition k1_only (i : value) (pub : string) : Prop := i = VStr "k1" ∧ pub = public_key k1.

Lemma one_key_ok kid (w : RWorld unit) : receiver_inv k1_only (rv w) →
  wp (one_key kid) (λ r w', receiver_inv k1_only (rv w') ∧ seen (rv w) `prefix_of` seen (rv w') ∧
    ∀ pub, r = Ret pub → k1_only kid pub) w.
Proof.
  intros Hw. split_and!; [done..|]. intros pub E.
  change ((if py_eq kid (VStr "k1") then Ret (public_key k1) else Raise (KeyError "key id"))
    = Ret pub) in E.
  destruct (py_eq kid (VStr "k1")) eqn:Hk; [|discriminate E]. injection E as <-.
  split; [|reflexivity].
  destruct kid as [| | |[]|s| |]; try discriminate Hk. simpl in Hk.
  apply bool_decide_eq_true in Hk. by subst.
Qed.

Lemma processed_exactly_once_witness :
  let '(rs, w) := arrive_all one_key None (Some (seconds 300)) arrivals_2 guarded_world in
  receiver_inv k1_only (rv w) ∧
  Forall2 (λ a r, ∀ res, r = Ret res → ack res = true →
    ∃ ev, carried a = Some ev ∧ processed (rv w) ev) arrivals_2 rs.
Proof.
  apply (processed_exactly_once one_key None (Some (seconds 300)) k1_only one_key_ok).
  - intros f ev w E. discriminate E.
  - split; [done|constructor|constructor].
Defined.

(** The world once the topic's declaration has been looked up. *)
Definition topic_known : MemWorld :=
  mkWorld (w_store sample_world) (w_env sample_world) sample_subs sample_heap empty_queue
    [("orders"%string, orders_topic)] (key_set k1 []) None None [].

Lemma orders_looked_up :
  Publisher.get_topic (Async0 := scripted up) secured_config (ev_topic second_event) sample_world
  = (Ret orders_topic, topic_known).
Proof. vm_compute. reflexivity. Qed.

Lemma sent_is_accepted_witness :
  ∃ a w2 rw2, attempt_send (Async0 := scripted up) secured_config 1%positive second_event 1 sample_world
      = transmit (Async0 := scripted up) sample_subscription a w2 ∧
    arrive one_key None (Some (seconds 300)) a guarded_world = (Ret (acked 204), rw2) ∧
    rv rw2 = with_event (event_id second_event) (event_2 1) guarded.
Proof.
  assert (fresh_at (Some (seconds 300)) (ev_created_at second_event) (rv_env guarded_world) = true)
    as Hfresh by (vm_compute; reflexivity).
  assert (seen_before (VStr (event_id second_event)) (rv guarded_world) = false) as Hnew
    by (vm_compute; reflexivity).
  destruct (sent_is_accepted (Async0 := scripted up) secured_config one_key (Some (seconds 300))
    1%positive second_event 1 sample_world orders_topic topic_known sample_subscription k1
    (signature_2 1) guarded_world guarded_world orders_looked_up)
    as (a & w2 & rw2 & Hsend & Hrest).
  - apply lookup_singleton_eq.
  - vm_compute. reflexivity.
  - vm_compute. discriminate.
  - vm_compute. split; [discriminate|reflexivity].
  - vm_compute. reflexivity.
  - vm_compute. reflexivity.
  - reflexivity.
  - intros t Ht. vm_compute in Ht. injection Ht as <-. vm_compute. reflexivity.
  - cbv zeta in Hrest. rewrite Hfresh, Hnew in Hrest. exists a, w2, rw2. exact (conj Hsend Hrest).
Defined.

(** The same event, six minutes late: refused for good, so dead-lettered. *)
Example late_event_is_refused :
  let late := mkRWorld guarded (mkEnv 400 0) tt in
  (arrive one_key None (Some (seconds 300)) (webhook_2 1 (Some (issue "secret" "sub_1"))) late).1
  = Ret (refused 403 "timestamp out of skew").
Proof. vm_compute. reflexivity. Qed.

(** ** Over HTTP *)

Definition server_headers : list (string * string) :=
  [("Host", "sub.example"); ("Content-Length", "512")]%string.

Lemma lower_idem s : lower (lower s) = lower s.
Proof.
  unfold lower. induction s as [|c s IH]; [done|]. cbn [str_map]. rewrite IH. f_equal.
  destruct c as [[] [] [] [] [] [] [] []]; reflexivity.
Qed.

Lemma lower_keys_from_shape (l d : list (string * string)) :
  dict_wf d → Forall (λ kv, lower kv.1 = kv.1) d →
  let d' := foldl (λ d kv, dict_set (lower kv.1) kv.2 d) d l in
  dict_wf d' ∧ Forall (λ kv, lower kv.1 = kv.1) d'.
Proof.
  revert d. induction l as [|[k v] l IH]; intros d Hwf Hlow; simpl; [done|].
  apply IH; [by apply dict_set_wf|]. clear IH Hwf. induction Hlow as [|[k' v'] d Hk Hd IHd]; simpl.
  - constructor; [apply lower_idem|constructor].
  - case_decide; constructor; simpl; done || by subst.
Qed.

(** Looking a name up in a dictionary of lower-case names. *)
Lemma last_named_dict k (d : list (string * string)) :
  dict_wf d → Forall (λ kv, lower kv.1 = kv.1) d → last_named k d = dict_get k d.
Proof.
  unfold dict_wf, dict_keys. induction d as [|[k' v] d IH]; simpl; [done|].
  intros [Hni Hnd]%NoDup_cons [Hk Hlow]%Forall_cons. simpl in *. rewrite Hk, IH by done.
  destruct (dict_get k d) eqn:E; case_decide as Hkk; try done. subst k'. destruct Hni.
  by apply dict_get_keys; eexists.
Qed.

Lemma lower_keys_twice k l : dict_get k (lower_keys (lower_keys l)) = last_named k l.
Proof.
  destruct (lower_keys_from_shape l []) as [Hwf Hlow]; [constructor..|].
  rewrite lower_keys_get, <- (lower_keys_get k l). by apply last_named_dict.
Qed.

Lemma last_named_app k l1 l2 :
  last_named k (l1 ++ l2) =
  match last_named k l2 with Some v => Some v | None => last_named k l1 end.
Proof.
  induction l1 as [|[k' v] l1 IH]; simpl; [by destruct (last_named k l2)|].
  rewrite IH. by destruct (last_named k l2).
Qed.

Lemma last_named_none k l : (∀ kv, kv ∈ l → lower kv.1 ≠ k) → last_named k l = None.
Proof.
  induction l as [|[k' v] l IH]; simpl; [done|]. intros Hl.
  rewrite IH by (intros kv Hkv; apply Hl; by right).
  case_decide; [|done]. subst. by destruct (Hl (k', v)); [left|].
Qed.

(** A server that adds headers of its own, passes all of them on under lower-case
    names, and answers 500 when a route raises. *)
#[export] Instance sample_http : HttpStack := {|
  arriving := λ h, lower_keys (server_headers ++ h);
  route_failure := λ _, Ret (Response 500 None);
|}.

Lemma server_headers_unused kv : kv ∈ server_headers → (lower kv.1 ∉ used_headers).
Proof.
  intros Hkv. repeat (apply elem_of_cons in Hkv as [->|Hkv];
    [apply (bool_decide_unpack _); vm_compute; exact I|]). by apply elem_of_nil in Hkv.
Qed.

#[export] Instance sample_http_laws : HttpStackLaws.
Proof.
  split; [|by left]. intros k h _ Hk. cbn [arriving sample_http].
  rewrite lower_keys_twice, lower_keys_get, last_named_app.
  destruct (last_named k h); [done|]. apply last_named_none. intros kv Hkv <-.
  by apply (server_headers_unused kv).
Qed.

Lemma no_handler : coherent_handler (X := unit) None.
Proof. by intros f ev w res w' [=]. Qed.

Lemma answer_survives_http_witness :
  let headers := webhook_headers (signature_2 1) (iso_datetime (ev_created_at second_event)) "k1"
    "sub_1" (Some (issue "secret" "sub_1")) in
  ∃ sent w', http_send_webhook (post_receive one_key None (Some (seconds 300)))
      "https://alice/hook" headers (event_2 1) guarded_world = (sent, w') ∧
    told_of (Ret (acked 204)) sent.
Proof.
  intros headers.
  assert (fst (accept_webhook one_key None (Some (seconds 300)) headers (VDict (event_2 1))
    guarded_world) = Ret (acked 204)) as Hans by (vm_compute; reflexivity).
  assert (distinct_headers headers) as Hwf by (apply (bool_decide_unpack _); vm_compute; exact I).
  assert ("content-type"%string ∉ lower <$> dict_keys headers) as Hct
    by (apply (bool_decide_unpack _); vm_compute; exact I).
  clearbody headers. generalize dependent (event_2 1). intros event Hans.
  pose proof (answer_survives_http one_key None (Some (seconds 300))
    no_handler "https://alice/hook" headers event VNone EmptyString
    guarded_world Hwf Hct) as Hthm.
  destruct Hthm as [Hthm _].
  destruct (accept_webhook _ _ _ _ _ _) as [r w']. simpl in Hans. subst r.
  destruct Hthm as (sent & Hsent & Hsame). exists sent, w'.
  exact (conj Hsent Hsame).
Defined.

(** ** Fetching the keys *)

(** A subscriber's cache before the rotation to [k2], and the document since. *)
Definition old_cache : key_cache := [(VStr "k1", public_key k1)].
Definition fetch_rotated : M key_cache (Z * option value) :=
  mret (200, Some (keys_document rotated)).

Lemma resolver_follows_rotation_witness :
  (∃ w', resolve_key id (λ c _, c) fetch_rotated (VStr "k2") old_cache
           = (Ret (public_key (mkSigningKey "k2" "two")), w')) ∧
  resolve_key id (λ c _, c) fetch_rotated (VStr "k1") old_cache = (Ret (public_key k1), old_cache).
Proof.
  destruct (resolver_follows_rotation id (λ c _, c) fetch_rotated (λ _ _, eq_refl) rotated old_cache)
    as [_ Hall].
  - apply rotated_reachable.
  - intros i k pub Hk Hc. simpl in Hc. case_bool_decide; [|discriminate]. injection Hc as <-.
    reflexivity.
  - reflexivity.
  - split.
    + destruct (Hall "k2"%string) as (w' & _ & Hr). exists w'. exact Hr.
    + destruct (Hall "k1"%string) as (w' & _ & Hr). revert Hr. vm_compute. by intros [Hr ->].
Defined.
