(* ===== verification/Quickstart.v ===== *)
(** * The quickstart ([examples/quickstart.py])

    The program that the documentation starts with, as its calls of the library:
    a publisher and a subscriber on the in-memory transport, a subscription made
    over JSON-RPC, two events of which one matches, and a replay. [main] keeps the
    lines it prints beside the world; the run at the end is evaluated. *)

From Stdlib Require Import QArith.
From S2P Require Import Prelude PyStr Value Errors Effects Dynamic Models Canonical Signing Limits.
From S2P Require Import Observability Auth Ssrf Contracts Publisher JsonRpc Receiver MemoryTransport.
From S2P Require Import EndToEnd MemoryEventStore MemorySubscriptionStore MemoryRetryQueue.
From S2P Require Import Scenario SubscriberScenario.
Open Scope Z_scope.

Definition PUBLISHER_CARD : string := "https://agent-b.example.com/.well-known/agent-card.json".
Definition SUBSCRIBER_CARD : string := "https://agent-a.example.com/.well-known/agent-card.json".
Definition TOPIC : string := "agent_card.discovered".

Section Main.
Context `{!Platform, !Crypto, !Hmac, !Net, !IsoParser, !Requests}.
Local Abbreviation Whole :=
  (World InMemoryEventStore InMemorySubscriptionStore (InMemoryRetryQueue * RWorld unit)).
(** The event loop, what [SigningKey.generate] drew, and the bounds of [handle]. *)
Context (loop : Async Whole) (private : string) (fuel depth : nat).

(** [SigningKey.generate("key_2026_06")] *)
Definition key : SigningKey := mkSigningKey "key_2026_06" private.
Definition key_resolver (_ : value) : M (RWorld unit) string := mret (public_key key).

Definition subscriber : InMemorySubscriber := new_subscriber SUBSCRIBER_CARD None None None.

(** [PublisherConfig(card_resolver=lambda _url: subscriber.card())] *)
Definition config : PublisherConfig := {|
  agent_card_url := PUBLISHER_CARD;
  card_resolver := λ _, Ret (subscriber_card subscriber);
  ssrf_policy := default_policy;
  min_lease_seconds := 60;
  max_lease_seconds := 604800;
  max_attempts := 3;
  retry_initial_delay := 1000000;
  retry_max_delay := 300000000;
  offload_store := false;
  token_secret := None;
  retry_queue := false;
  selector_limits := None;
  max_subscriptions_per_subscriber := None;
  page_size := 100;
  deferred_dispatch := false;
|}.

#[local] Instance transport : Async Whole :=
  in_process key_resolver None (Some (seconds 300)) subscriber loop.

(** The objects that [main] creates, with the clock and the uuid source at [e]. *)
Definition fresh_world (e : Env) : Whole :=
  mkWorld empty_store e (mkSubs [] [] [] []) (mkHeap ∅ 1)
    (mkQueue [], mkRWorld empty_receiver e tt) [] (key_set key []) None None [].

Definition topic : Topic :=
  mkTopic TOPIC "" None 604800 true ["field_filter"; "keyword_search"]%string
    (Some ["data.cardUrl"; "data.capabilities"]%string) [A2A_MESSAGE; WEBHOOK].

Definition subscribe_request : value := VDict
  [("jsonrpc", VStr "2.0"); ("id", VStr "1"); ("method", VStr "a2a.events.Subscribe");
   ("params", VDict
     [("subscriberCardUrl", VStr SUBSCRIBER_CARD);
      ("topics", VList [VStr TOPIC]);
      ("selector", VDict
         [("type", VStr "field_filter");
          ("where", VDict [("data.capabilities", VList [VStr "streaming"])])]);
      ("delivery", VDict [("mode", VStr "a2a-message")]);
      ("fromCursor", VStr "latest");
      ("leaseSeconds", VInt 3600)])]%string.

Definition replay_request (sub_id : value) : value := VDict
  [("jsonrpc", VStr "2.0"); ("id", VStr "2"); ("method", VStr "a2a.events.Replay");
   ("params", VDict [("subscriptionId", sub_id); ("fromCursor", VStr "earliest")])]%string.

Definition match_ : list (string * value) :=
  [("cardUrl", VStr "https://x"); ("capabilities", VList [VStr "streaming"])]%string.
Definition miss : list (string * value) :=
  [("cardUrl", VStr "https://y"); ("capabilities", VList [VStr "batch"])]%string.

(** The process: the world, and the lines printed so far. *)
Local Abbreviation Process := (Whole * list string)%type.
Definition calling {A} (m : M Whole A) : M Process A := zoom fst (λ w p, (w, p.2)) m.
Definition print (line : string) : M Process unit := modify (λ p, (p.1, p.2 ++ [line])).

(** [f"{v}"] of a text, and [len(v)] of a list: what the values are here. *)
Definition shown (v : value) : outcome string :=
  match v with VStr s => mret s | _ => Raise (Unmodelled "the text of another value") end.
Definition list_length (v : value) : outcome Z :=
  match v with VList l => mret (len l) | _ => Raise (Unmodelled "the length of another value") end.

Definition main : M Process unit :=
  _ ← calling (Publisher.declare_topic topic);
  sub ← calling (handle config fuel depth subscribe_request None);
  result ← lift (get_item sub "result");
  sub_id ← lift (get_item result "subscriptionId");
  id_text ← lift (shown sub_id);
  _ ← print ("subscribed: " +:+ id_text);
  _ ← calling (publish config fuel TOPIC "discovered.v1" match_ None);
  _ ← calling (publish config fuel TOPIC "discovered.v1" miss None);
  events ← calling (gets (λ w : Whole, received (rv (w_queue w).2)));
  _ ← print ("delivered " +:+ str_of_int (len events) +:+ " event(s):");
  _ ← for_each events (λ event,
    data ← lift (get_item (VDict event) "data");
    url ← lift (get_item data "cardUrl");
    cursor ← lift (get_item (VDict event) "a2acursor");
    url ← lift (shown url);
    cursor ← lift (shown cursor);
    print ("  - " +:+ url +:+ " @ cursor " +:+ cursor));
  replayed ← calling (handle config fuel depth (replay_request sub_id) None);
  result ← lift (get_item replayed "result");
  events ← lift (get_item result "events");
  n ← lift (list_length events);
  print ("replay returned " +:+ str_of_int n +:+ " matching event(s)").
End Main.

(** ** The run *)

#[local] Existing Instance sample_platform.
#[local] Existing Instance toy_crypto.
#[local] Existing Instance toy_hmac.
#[local] Existing Instance sample_iso.

(** Host names that are no addresses. *)
Fixpoint before_slash (s : string) : string :=
  match s with
  | EmptyString => EmptyString
  | String c s' => if Ascii.eqb c (chr 47) then EmptyString else String c (before_slash s')
  end.
Definition https_net : Net := {|
  urlsplit := λ u,
    if String.prefix "https://" u
    then Ret ("https"%string, Some (before_slash (String.substring 8 (String.length u - 8) u)))
    else Raise (ValueError "another scheme");
  ip_address := λ _, None;
|}.
#[local] Existing Instance https_net.

(** Requests with a mode, and with a field filter of texts. *)
Definition quickstart_requests : Requests := {|
  validate_delivery := λ v,
    match v with
    | VDict d => match dict_get "mode"%string d with
                 | Some (VStr m) => if bool_decide (m = "a2a-message"%string)
                     then Some (mkDeliveryPreference A2A_MESSAGE "agent-card:events.receive") else None
                 | _ => None end
    | _ => None end;
  validate_selector_json := λ v,
    match v with
    | VDict d => match dict_get "where"%string d with
                 | Some (VDict where_) => Some (FieldFilterSelector
                     ((λ kv, (kv.1, match kv.2 with VList l => l | _ => [] end)) <$> where_))
                 | _ => None end
    | _ => None end;
|}.
#[local] Existing Instance quickstart_requests.

Definition quiet_loop : Async (World InMemoryEventStore InMemorySubscriptionStore
    (InMemoryRetryQueue * RWorld unit)) := {|
  suspend := mret tt;
  send_webhook := λ _ _ _, raise (OtherException "not connected");
  send_a2a_message := λ _ _, raise (OtherException "not connected");
  sleep := λ _, mret tt;
  acquire := λ _, mret tt;
  monotonic := λ _, 0%Q;
  resumes := λ _, false;
|}.

(** It prints that the matching event was delivered, and replayed. *)
Example quickstart_prints :
  let '(r, p) := main quiet_loop "secret" 5 64 (fresh_world "secret" (mkEnv 0 0), []) in
  r = Ret tt ∧
  p.2 = ["subscribed: sub_00000000000000000000000000000000";
         "delivered 1 event(s):";
         "  - https://x @ cursor agent_card.discovered:0000000000000000";
         "replay returned 1 matching event(s)"]%string.
Proof. vm_compute. done. Qed.
