(* ===== verification/EndToEndScenario.v ===== *)
(** * Scenarios: publisher, network and subscriber

    The publisher of [DispatchScenario] and a receiver that knows its key, with
    a network between them that loses and repeats messages and a process that is
    restarted in between: runs evaluated by computation, and an instance of the
    theorem of [EndToEnd]. *)

From Stdlib Require Import QArith.
From S2P Require Import Prelude PyStr Value Errors Effects Models Base64 Cursor Selectors.
From S2P Require Import Canonical Signing Limits Observability Auth Ssrf Contracts Publisher.
From S2P Require Import CatchUp Receiver HttpDelivery Bystander Dispatch EndToEnd.
From S2P Require Import MemoryEventStore MemorySubscriptionStore MemoryRetryQueue.
From S2P Require Import Scenario DispatchScenario SubscriberScenario.
Open Scope Z_scope.

#[local] Existing Instance sample_platform.
#[local] Existing Instance toy_crypto.
#[local] Existing Instance toy_hmac.
#[local] Existing Instance sample_net.

Abbreviation Whole := (World InMemoryEventStore InMemorySubscriptionStore
  (InMemoryRetryQueue * RWorld unit)).

(** The network changes with the clock. *)
Definition rough (w : Whole) : fate :=
  match (tick (w_env w) mod 4)%nat with
  | 0%nat => Lost | 1%nat => AnswerLost | 2%nat => Repeated | _ => Answered
  end.

(** The process is shut down if it sleeps before the 35th reading of the clock. *)
Definition restarted : Async Whole := {|
  suspend := mret tt;
  send_webhook := λ _ _ _, raise (OtherException "not connected");
  send_a2a_message := λ _ _, raise (OtherException "not connected");
  sleep := λ _ w, (if (tick (w_env w) <? 35)%nat then Raise (OtherException "CancelledError")
                   else Ret tt, later (mkEnv (tick (w_env w) + 1) (uuids (w_env w))) w);
  acquire := λ _, mret tt;
  monotonic := λ _, 0%Q;
  resumes := λ _, false;
|}.

#[local] Instance rough_http : Async Whole := linked one_key None None rough restarted.

Definition whole_world : nat → Whole :=
  two_world_with (empty_queue, mkRWorld empty_receiver (mkEnv 0 0) tt).

(** The ids of the events that the subscriber has processed. *)
Definition got (w : Whole) : list value := event_key <$> received (rv (remote w)).
Definition evt (n : nat) : value := VStr ("evt_" +:+ uuid4_hex n).

(** The publisher is restarted while it waits to retry, and completes its work
    over a network that loses requests and answers and repeats deliveries: the
    subscriber, who is behind both subscriptions, gets every event once. *)
Definition stopped_short : Whole := (dispatch_pending sample_config 5 (whole_world 20)).2.
Definition restarted_world : Whole := later (mkEnv 36 (uuids (w_env stopped_short))) stopped_short.

Example exactly_once_over_a_rough_network :
  (dispatch_pending sample_config 5 (whole_world 20)).1 = Raise (OtherException "CancelledError") ∧
  got stopped_short = [evt 0; evt 2] ∧
  let '(r, w) := dispatch_pending sample_config 5 restarted_world in
  r = Ret 5 ∧ got w = [evt 0; evt 2; evt 3; evt 1] ∧ (length (attempts_ (w_subs w)) = 15)%nat ∧
  hw_ (w_subs w) = [("sub_1", [("orders", 2); ("audit", 0)]); ("sub_0", [("orders", 2)])]%string.
Proof. vm_compute. done. Qed.

(** ** The hypotheses hold *)

Lemma suspend_idles : idles (suspend : M Whole unit).
Proof. intros w. exists (Ret tt), (w_env w). split; [by destruct w|]. split; [reflexivity|done]. Qed.

Lemma acquire_idles x : idles (acquire x : M Whole unit).
Proof. intros w. exists (Ret tt), (w_env w). split; [by destruct w|]. split; [reflexivity|done]. Qed.

Lemma sleep_idles d : idles (sleep d : M Whole unit).
Proof.
  intros w. do 2 eexists. split; [reflexivity|]. split; [split; simpl; lia|].
  destruct (_ <? _)%nat; (split; [done|]); by intros e [= <-].
Qed.

Lemma idles_calm (m : M Whole unit) : idles m → calm_op "sub_1" watched two_topics two_cap m.
Proof. intros Hm. split; [by apply idles_considerate|by apply idles_orderly; [apply _|]]. Qed.

Lemma rough_calm : calm (E := InMemoryEventStore) (S := InMemorySubscriptionStore)
  (Q := InMemoryRetryQueue) (X := unit) "sub_1" watched two_topics two_cap.
Proof.
  split.
  - apply idles_calm, suspend_idles.
  - intros d. apply idles_calm, sleep_idles.
  - intros x. apply idles_calm, acquire_idles.
  - by intros w e [= <-].
  - intros w u _ Hu. by exists u.
Qed.

Lemma idles_truthful (m : M Whole unit) (w : Whole) : idles m →
  told "sub_1" k1_only w → wp m (in_view (subscriber_view "sub_1" k1_only) w) w.
Proof.
  intros Hm Hw. destruct (Hm w) as (o & v & Hrun & _). eapply wp_run_iff; [exact Hrun|].
  split; [by destruct Hw|by exists []; rewrite (right_id_L [] (++))].
Qed.

Lemma told_when_later v (w : Whole) : told "sub_1" k1_only w → told "sub_1" k1_only (later v w).
Proof. by intros [? ?]. Qed.

Lemma rough_truthful : truthful (E := InMemoryEventStore) (S := InMemorySubscriptionStore)
  (Q := InMemoryRetryQueue) (X := unit) "sub_1" k1_only.
Proof.
  split; intros.
  - by apply idles_truthful; [apply suspend_idles|].
  - by apply idles_truthful; [apply sleep_idles|].
  - by apply idles_truthful; [apply acquire_idles|].
Qed.

Lemma rough_conveys : conveys (E := InMemoryEventStore) (S := InMemorySubscriptionStore)
  (Q := InMemoryRetryQueue) (X := unit) k1_only.
Proof. apply linked_conveys; [apply one_key_ok|done..]. Qed.

Lemma whole_told n : told "sub_1" k1_only (whole_world n).
Proof. split; [split; constructor|by intros a Ha%elem_of_nil]. Qed.

Definition restarted_row : Subscription := default sample_subscription (row_of restarted_world "sub_1").

Lemma stopped_short_pairs t : t ∈ watched → pair_ok "sub_1" two_topics two_cap t stopped_short.
Proof.
  intros Ht. pose proof (dispatch_pending_spec sample_config 5 sample_clock_mono ltac:(done)
    ltac:(done) (enqueue_total sample_enqueue_total) "sub_1" None watched two_topics two_cap
    (conveys_considerate _ _ _ _ _ rough_conveys rough_calm)
    (conveys_orderly _ _ _ _ _ rough_conveys rough_calm)
    sample_subscription (whole_world 20) (two_world_ready _ 20)) as Hp.
  unfold wp in Hp. destruct (dispatch_pending sample_config 5 (whole_world 20)) as [o w'] eqn:Hrun.
  replace stopped_short with w' by (unfold stopped_short; by rewrite Hrun).
  by apply (proj1 Hp).
Qed.

Lemma restarted_same t : t ∈ watched →
  pair_same "sub_1" two_topics two_cap t stopped_short restarted_world.
Proof.
  intros Ht. apply later_same; [by apply stopped_short_pairs|].
  split; apply Nat.leb_le; vm_compute; reflexivity.
Qed.

Lemma restarted_ready : two_ready restarted_row restarted_world.
Proof.
  apply two_ready_of; [intros t Ht; by apply restarted_same|vm_compute; reflexivity..].
Qed.

Lemma restarted_outage :
  outage sample_config 5 "sub_1" None watched two_topics two_cap k1_only (whole_world 20) restarted_world.
Proof.
  apply (outage_pass _ _ _ _ _ _ _ _ sample_subscription _
    (dispatch_pending sample_config 5 (whole_world 20)).1 stopped_short);
    [apply two_world_ready|exact (surjective_pairing _)|].
  apply (outage_wait _ _ _ _ _ _ _ _ _ restarted_world); [exact restarted_same|apply told_when_later|apply outage_over].
Qed.

Lemma end_to_end_exactly_once_witness :
  let w := whole_world 20 in
  ∃ w2, dispatch_pending sample_config 5 restarted_world = (Ret 5, w2) ∧
  told "sub_1" k1_only w2 ∧ served restarted_row restarted_world w2 ∧
  ∀ t r, t ∈ watched → r ∈ log_events (log_of t (two_topics t) w) →
    live (two_topics t) r (clk w2) → pos "sub_1" t w < rec_offset r →
    hit None (two_topics t) r →
    processed_once k1_only (event_id r) (rv (remote w2)) ∨ dead_lettered "sub_1" t r w w2.
Proof.
  cbv zeta. destruct (dispatch_pending sample_config 5 restarted_world) as [o w2] eqn:Hrun.
  assert (o = Ret 5) as ->.
  { transitivity (dispatch_pending sample_config 5 restarted_world).1; [by rewrite Hrun|vm_compute; reflexivity]. }
  assert (served restarted_row restarted_world w2) as Hs.
  { split_and!; [vm_compute; reflexivity| |exact I].
    replace w2 with (dispatch_pending sample_config 5 restarted_world).2 by (by rewrite Hrun).
    vm_compute. reflexivity. }
  exists w2. split; [reflexivity|].
  destruct (end_to_end_exactly_once sample_config 5 sample_clock_mono ltac:(done) ltac:(done)
    sample_enqueue_total "sub_1" None watched two_topics two_cap k1_only rough_conveys rough_calm
    rough_truthful (whole_world 20) restarted_world restarted_row (Ret 5) w2 (whole_told 20)
    restarted_outage restarted_ready Hrun) as [Ht Hall].
  split; [exact Ht|]. split; [exact Hs|exact (Hall eq_refl Hs 5 eq_refl)].
Defined.
