(* ===== verification/EndToEndRetryScenario.v ===== *)
(** * Scenarios: delivery through the retry queue, end to end

    The publisher of [EndToEndScenario] with a retry queue: the network loses the
    answer to the first attempt, and the retry worker delivers again. The run is
    evaluated by computation, and the theorem of [EndToEndRetry] applied to it. *)

From Stdlib Require Import QArith.
From S2P Require Import Prelude PyStr Value Errors Effects Models Base64 Cursor Selectors.
From S2P Require Import Canonical Signing Limits Observability Auth Ssrf Contracts Publisher.
From S2P Require Import CatchUp Receiver HttpDelivery Bystander Dispatch Retry RetryPass Handover.
From S2P Require Import EndToEnd EndToEndRetry MemoryEventStore MemorySubscriptionStore MemoryRetryQueue.
From S2P Require Import Scenario DispatchScenario RetryScenario SubscriberScenario EndToEndScenario.
Open Scope Z_scope.

#[local] Existing Instance sample_platform.
#[local] Existing Instance toy_crypto.
#[local] Existing Instance toy_hmac.
#[local] Existing Instance sample_net.
#[local] Existing Instance rough_http.

Definition queued_config : PublisherConfig := {|
  agent_card_url := agent_card_url sample_config;
  card_resolver := card_resolver sample_config;
  ssrf_policy := ssrf_policy sample_config;
  min_lease_seconds := min_lease_seconds sample_config;
  max_lease_seconds := max_lease_seconds sample_config;
  max_attempts := 3;
  retry_initial_delay := retry_initial_delay sample_config;
  retry_max_delay := retry_max_delay sample_config;
  offload_store := true;
  token_secret := None;
  retry_queue := true;
  selector_limits := None;
  max_subscriptions_per_subscriber := None;
  page_size := 2;
  deferred_dispatch := false;
|}.

(** The answer to the first attempt is lost. The retry worker's attempt arrives
    twice: the subscriber has had the event three times, and processed it once. *)
Definition start : Whole := whole_world 21.
Definition handed_over : Whole := (deliver_queued queued_config 1%positive second_event start).2.
Definition turned : Whole := (retry_run_once queued_config 10 60 handed_over).2.
Definition turned_again : Whole := (retry_run_once queued_config 10 60 turned).2.

Definition the_item : string := "rty_00000000000000000000000000000022".
Definition queued_names (w : Whole) : list (string * Z) :=
  (λ kv, (kv.1, ri_attempt kv.2)) <$> items (w_queue w).1.

Example exactly_once_through_the_queue :
  got handed_over = [evt 2] ∧ by_sub handed_over = [("sub_1", orders 1, 1, "retry")]%string ∧
  queued_names handed_over = [(the_item, 1)] ∧
  got turned = [evt 2] ∧ queued_names turned = [] ∧
  by_sub turned = [("sub_1", orders 1, 1, "retry"); ("sub_1", orders 1, 2, "delivered")]%string.
Proof. vm_compute. done. Qed.

Lemma handed_over_runs :
  deliver_queued queued_config 1%positive second_event start = (Ret false, handed_over).
Proof. unfold handed_over. apply returned. vm_compute. reflexivity. Qed.
Lemma turned_runs : retry_run_once queued_config 10 60 handed_over = (Ret 1, turned).
Proof. unfold turned. apply returned. vm_compute. reflexivity. Qed.
Lemma turned_again_runs : retry_run_once queued_config 10 60 turned = (Ret 0, turned_again).
Proof. unfold turned_again. apply returned. vm_compute. reflexivity. Qed.

(** The only item in the queue. *)
Lemma only_item (w : Whole) r :
  (items (w_queue w).1).*1 = [the_item] → is_Some (rq_item (w_queue w) r) → r = the_item.
Proof.
  simpl. destruct (items _) as [|[rid i] [|]]; simpl; intros Hq; try done.
  injection Hq as ->. intros [j Hj]. by case_decide.
Qed.

Lemma whole_is_due (w : Whole) r i0 :
  rq_item (w_queue w) r = Some i0 → next_retry_at i0 ≤ clk w →
  ∀ i, rq_item (w_queue w) r = Some i → next_retry_at i ≤ clk w.
Proof. intros Hi Hd i Hi'. rewrite Hi in Hi'. by injection Hi' as <-. Qed.

Abbreviation whole_view := (subscriber_view (E := InMemoryEventStore) (S := InMemorySubscriptionStore)
  (Q := InMemoryRetryQueue) (X := unit) "sub_1" k1_only).

Lemma two_turns_of_the_item :
  works queued_config same_but_cursors "sub_1" "orders" (two_topics "orders") 100 whole_view
    the_item 10 60 [(handed_over, turned); (turned, turned_again)] 2 handed_over turned_again.
Proof.
  eapply (wk_turn _ _ _ _ _ _ _ _ _ _ _ 1 _ 1 turned); [exact turned_runs|done| |].
  - eapply whole_is_due; [vm_compute; reflexivity|]. apply Z.leb_le. vm_compute. reflexivity.
  - eapply (wk_turn _ _ _ _ _ _ _ _ _ _ _ 0 _ 0 turned_again); [exact turned_again_runs|done| |apply wk_now].
    intros i Hi. exfalso. revert Hi.
    assert (rq_item (w_queue turned) the_item = None) as -> by (vm_compute; reflexivity). done.
Qed.

(** ** The hypotheses hold *)

Lemma start_fit :
  fit (E := InMemoryEventStore) (S := InMemorySubscriptionStore) (Q := InMemoryRetryQueue) (X := unit)
    "sub_1" "orders" (two_topics "orders") 100 21 1%positive None start.
Proof.
  split.
  - apply (inv_of_pair "sub_1" None two_topics two_cap 1%positive "orders").
    + apply two_world_pairs. left.
    + exists sample_subscription. split; [vm_compute; reflexivity|done].
  - apply two_standing; [apply two_world_pairs; left|reflexivity].
  - split; [by split; [apply (bool_decide_unpack _); vm_compute|]|done].
  - reflexivity.
  - reflexivity.
Qed.

Lemma start_log :
  log_of (S := InMemorySubscriptionStore) (Q := InMemoryRetryQueue * RWorld unit) "orders" (two_topics "orders") start =
  log_of (S := InMemorySubscriptionStore) (Q := InMemoryRetryQueue) "orders" orders_topic sample_world.
Proof.
  unfold start, whole_world, two_world_with, sample_world. generalize (sample_run.2).1. intros store.
  replace (two_topics "orders") with orders_topic by by vm_compute. reflexivity.
Qed.

Lemma rough_keeps P : keeps (E := InMemoryEventStore) (S := InMemorySubscriptionStore)
  (Q := InMemoryRetryQueue * RWorld unit) P suspend.
Proof. by intros w Hw. Qed.

Lemma one_topic_calm : calm (E := InMemoryEventStore) (S := InMemorySubscriptionStore)
  (Q := InMemoryRetryQueue) (X := unit) "sub_1" ["orders"]%string (λ _, two_topics "orders") (λ _, 100).
Proof.
  assert (∀ m : M Whole unit, idles m →
    calm_op "sub_1" ["orders"]%string (λ _, two_topics "orders") (λ _, 100) m) as Hi.
  { intros m Hm. split; [by apply idles_considerate|by apply idles_orderly; [apply _|]]. }
  split; [apply Hi, suspend_idles|intros; apply Hi, sleep_idles|intros; apply Hi, acquire_idles| |].
  - by intros w e [= <-].
  - intros w u _ Hu. by exists u.
Qed.

Lemma start_logged : second_event ∈ log_events
  (log_of (S := InMemorySubscriptionStore) (Q := InMemoryRetryQueue * RWorld unit) "orders" (two_topics "orders") start).
Proof. rewrite start_log. exact second_event_logged. Qed.

Lemma start_behind :
  pos (E := InMemoryEventStore) (S := InMemorySubscriptionStore) (Q := InMemoryRetryQueue * RWorld unit)
    "sub_1" "orders" start < rec_offset second_event.
Proof. apply Z.ltb_lt. vm_compute. reflexivity. Qed.

Lemma handed_over_item r : is_Some (rq_item (w_queue handed_over) r) → r = the_item.
Proof. apply only_item. vm_compute. reflexivity. Qed.

Lemma queued_delivery_exactly_once_witness :
  deliver_queued queued_config 1%positive second_event start = (Ret false, handed_over) ∧
  told "sub_1" k1_only handed_over ∧
  (finished queued_config "sub_1" "orders" k1_only second_event start handed_over ∨
   told "sub_1" k1_only turned_again ∧ rq_item (w_queue turned_again) the_item = None ∧
   (finished queued_config "sub_1" "orders" k1_only second_event start turned_again ∨
    lapsed_in queued_config "sub_1" (two_topics "orders") [(handed_over, turned); (turned, turned_again)]
      the_item 10 60 second_event)).
Proof.
  split; [exact handed_over_runs|].
  destruct (queued_delivery_exactly_once queued_config sample_clock_mono ltac:(done) eq_refl
    sample_enqueue_total "sub_1" "orders" (two_topics "orders") 100 k1_only rough_conveys one_topic_calm
    rough_truthful (rough_keeps _) 21 (λ _ _ _, rough_keeps _) 1%positive None second_event start (Ret false)
    handed_over) as [Ht Hout].
  - discriminate.
  - exact start_fit.
  - apply whole_told.
  - exact start_logged.
  - exact start_behind.
  - exact handed_over_runs.
  - split; [exact Ht|]. destruct (Hout false eq_refl) as [Hf|(rid & i & Hrid & _ & Hall)]; [by left|right].
    assert (rid = the_item) as -> by (apply handed_over_item; rewrite Hrid; by eexists).
    apply (Hall 10 60 _ 2%nat turned_again); [discriminate|exact two_turns_of_the_item|discriminate].
Defined.
