(* ===== verification/ProtocolScenario.v ===== *)
(** * Scenarios: the protocol bindings

    The publisher of [Scenario] behind JSON-RPC, HTTP+JSON and gRPC: requests on
    which the hypotheses of the binding theorems hold, and runs evaluated by
    computation. *)

From S2P Require Import Prelude PyStr Value Errors Effects Dynamic Models Canonical Json Pagination.
From S2P Require Import Signing Limits Observability Auth Ssrf Contracts Publisher Listing JsonRpc.
From S2P Require Import MemoryEventStore MemorySubscriptionStore MemoryRetryQueue Receiver.
From S2P Require Import PublisherApp GrpcBinding SchemaExport Scenario.
Open Scope Z_scope.

#[local] Existing Instance sample_platform.
#[local] Existing Instance toy_crypto.
#[local] Existing Instance toy_hmac.
#[local] Existing Instance sample_net.

(** Requests carry a mode and a field filter. *)
Definition sample_requests : Requests := {|
  validate_delivery := λ v,
    match v with
    | VDict d => match dict_get "mode"%string d with
                 | Some (VStr m) => if bool_decide (m = "webhook"%string)
                                    then Some (mkDeliveryPreference WEBHOOK "default") else None
                 | _ => None end
    | _ => None end;
  validate_selector_json := λ _, None;
|}.
#[local] Existing Instance sample_requests.
#[local] Instance transport : Async MemWorld := scripted up.


Definition ask (name : string) (params : list (string * value)) (w : MemWorld) :=
  handle sample_config 5 64 (request (VInt 1) name (VDict params)) None w.

Definition known (name : string) : list (string * value) := [("subscriptionId"%string, VStr name)].

(** Each kind of answer: a result, a refusal of the publisher, a missing
    parameter, an unknown method, and a request that is no JSON-RPC call. *)
Example deleted_once :
  (ask DELETE_SUBSCRIPTION (known "sub_1") sample_world).1 =
    Ret (response (VInt 1) ("result", VDict [("subscriptionId", VStr "sub_1");
                                             ("status", VStr "deleted")])%string) ∧
  (ask GET_SUBSCRIPTION (known "sub_1")
     (ask DELETE_SUBSCRIPTION (known "sub_1") sample_world).2).1 =
    Ret (response (VInt 1) ("error", VDict
      [("code", VInt (-32020)); ("message", VStr "Subscription sub_1 not found.");
       ("data", VDict [("code", VStr "SUBSCRIPTION_NOT_FOUND");
                       ("subscriptionId", VStr "sub_1")])])%string).
Proof. vm_compute. done. Qed.

Example missing_parameter :
  (ask ACK (known "sub_1") sample_world).1 =
    Ret (response (VInt 1) ("error"%string, VDict
      [("code"%string, VInt (-32602)); ("message"%string, VStr "Invalid params: 'cursor'")])).
Proof. vm_compute. done. Qed.

(** Parameters by position, which JSON-RPC allows, are not answered: the
    [AttributeError] of the method's first line leaves [handle]. *)
Example positional_parameters_escape :
  (handle sample_config 5 64 (request (VInt 1) SUBSCRIBE (VList [VStr "orders"])) None sample_world).1
    = Raise no_attribute.
Proof. vm_compute. done. Qed.

Definition no_such_method : list (string * value) :=
  [("jsonrpc", VStr "2.0"); ("id", VInt 7); ("method", VStr "events/nope")]%string.

Lemma handle_answers_witness :
  handle sample_config 5 64 (VDict no_such_method) None sample_world =
    (Ret (response (VInt 7) (no_method (VStr "events/nope"))), sample_world).
Proof.
  pose proof (handle_answers sample_config 5 64 (VDict no_such_method) None sample_world)
    as (_ & Hno & _).
  apply (Hno (VStr "events/nope")).
  - split; reflexivity.
  - intros (name & Hm & Hin). injection Hm as <-. revert Hin. by apply (bool_decide_unpack _).
Defined.

(** An unknown subscription: the error is an instance of the schema, and a
    client reads its status off its symbolic code. A foreign code is refused. *)
Definition not_known : list (string * value) :=
  error_object (A2AEventsError SUBSCRIPTION_NOT_FOUND "Subscription sub_9 not found."
    [("subscriptionId"%string, VStr "sub_9")]).

Lemma error_schema_agrees_witness :
  valid error_file (VDict not_known) = true ∧
  http_status_for_error not_known = inl 404 ∧
  valid error_file (VDict (error_object
    (A2AEventsError TOPIC_NOT_FOUND "x" [("code", VStr "OTHER")]%string))) = false.
Proof.
  assert (valid error_file (VDict not_known) = true) as Hv.
  { destruct (proj1 (error_schema_agrees sample_config 5 64)
      (request (VInt 1) GET_SUBSCRIPTION (VDict (known "sub_9"))) None sample_world
      [("jsonrpc", VStr "2.0"); ("id", VInt 1); ("error", VDict not_known)]%string
      (VDict not_known)) as [Hv|(r&name&e&Hr&Hc&Hd&He&Hk)].
    - vm_compute; reflexivity.
    - reflexivity.
    - exact Hv.
    - vm_compute; reflexivity. }
  split; [exact Hv|split; [|vm_compute; reflexivity]].
  destruct (proj2 (error_schema_agrees sample_config 5 64) not_known Hv) as (d&s&c&Hd&Hs&Hc&->).
  injection Hd as <-. injection Hs as <-. injection Hc as <-. reflexivity.
Defined.


